(* ===== verification/_CoqProject ===== *)
-Q . S2P
Prelude.v
Values.v
Conversion.v
Events.v
TestData.v
Conditions.v
EventsDB.v
MemoryAdapter.v
AdapterConcurrency.v
AdapterProgress.v
Sources.v
Store.v
Query.v
MemoryQuery.v
QueryTheory.v
Projections.v
JsonEquivalence.v
ProjectionStore.v
ConsumerState.v
SourceConsumer.v
ConsumerTheory.v
ReadModel.v
ConnectionSettings.v
Process.v
LockManager.v
ErrorHandling.v
ServiceManager.v
ServiceManagerTheory.v
BrokerState.v
Coordinator.v
Observer.v
SubscriberManager.v
BrokerFactories.v
Distribution.v
ServiceLoops.v
ClusterConsumption.v
Leadership.v
PostgresQuery.v
PostgresQueryTheory.v
PostgresConverters.v
PostgresSql.v
PostgresPages.v
PostgresPaging.v
PostgresEngine.v
Sha256.v
PostgresServer.v
PostgresConditions.v
PostgresAdapter.v
PostgresAdapterTheory.v
PostgresInsert.v
PostgresSaving.v
PostgresCategory.v
PostgresScan.v
PostgresStore.v
PostgresReference.v
PostgresTables.v
PostgresSubscribers.v
PostgresSubscriptions.v
PostgresLocks.v
PostgresProjections.v
PostgresReadModel.v
