(* ===== verification/Prelude.v ===== *)
(** * logicblocks.event.store: a verification library

    A shallow embedding of the Python library under [src/src/logicblocks/event/]: an event
    store, projections built from its events, and the processing that consumes them. The
    files below model the code the way it is written; file names are relative to that
    directory.

    ** The program and its model

    Producers publish events to streams of categories through an event store
    ([store/store.py]), which saves them by a storage adapter under a write condition
    ([store/conditions.py]). Event sources ([sources/]) read the log, a category or a stream
    in commit order. A projector ([projection/]) folds the events of a source into a state
    that a projection store keeps and queries ([query/], [persistence/memory/]). Consumers
    ([processing/consumers/]) run user code on the events of a source and keep their progress
    in the event store itself. A broker ([processing/broker/]) hands event sources to the
    subscribers of each node; services ([processing/services/]), locks and processes run all
    this.

    - [Prelude] (this file): results and exceptions, the state-and-exception monad,
      generators, Python's lists, dicts, sets and sorting, with the lemmas all files share,
      the hint database [evstore] and the tactics [inv_ok] and [case_goal].
    - [Values]: identifiers ([types/identifier.py]), Python values, and [UserCode], the
      interface of the methods user classes bring. [Conversion]: [types/json.py],
      [types/conversion.py] and the parsing and printing of identifiers. [Events]:
      [types/event.py], [types/projection.py].
    - [Conditions]: [store/conditions.py], the type registry of [persistence/converter.py]
      and the enforcers of [store/adapters/memory/converters.py].
    - [EventsDB], [MemoryAdapter]: [store/adapters/memory/db.py] and [adapter.py] as
      sequential code. [AdapterConcurrency] cuts a save into its phases between awaits and
      makes them a step relation over tasks and locks; [AdapterProgress] adds the acquisition
      order of [locks.py].
    - [Sources]: [sources/]. [Store]: [store/store.py], [source_factories.py] and
      [transactions.py] against the class [EventStorageAdapter] and its laws
      [AdapterContract], which both adapters keep.
    - [Query], [MemoryQuery], [QueryTheory]: [query/] and [persistence/memory/converters/].
    - [Projections]: [projection/] and [processing/consumers/projection.py], over the class
      [ProjectionStorageAdapter]; [ProjectionStore]: the laws of the class and what the store
      and the processor come to over any adapter that keeps them. [JsonEquivalence]: JSON
      values up to the order of their entries.
    - [ConsumerState], [SourceConsumer], [ConsumerTheory]: [processing/consumers/].
      [ReadModel] puts the parts together: a category is published to, a consumer keeps its
      projections, and they are looked up, over any adapters of events and projections.
    - [Process]: [processing/process/]. [LockManager]: [processing/locks/memory.py].
      [ErrorHandling]: [processing/services/error.py]. [ServiceManager] and
      [ServiceManagerTheory]: [processing/services/manager.py], calls of start and stop in
      progress over executors, their event loops and tasks, as a step relation.
    - [BrokerState], [Coordinator], [Observer]: the data of [processing/broker/], a
      distribution of event sources, and following one on a node. [SubscriberManager]:
      [distributed/subscribers/manager.py] and [distributed/broker.py] over the class
      [EventSubscriberStateStore]; [Distribution]: [distribute] over it and the class
      [EventSubscriptionStateStore]; [Leadership]: [coordinate] on the nodes of a cluster, over
      the class [TryLocks] of lock managers. Stores and locks in memory and on Postgres are
      instances of these classes and keep their laws. [ServiceLoops]: the endless loops of the
      observer, the broker of one node and [processing/services/polling.py], with the statuses
      they leave; [ClusterConsumption]: a distribution, and the observers of all nodes
      following it. [BrokerFactories]: [broker/factories.py] and the builders, as what objects
      they make and which of them share which.
    - [ConnectionSettings]: [persistence/postgres/settings.py]. [TestData]: [testing/] and
      [utils/clock.py], over the class [RandomSource].
    - [PostgresQuery] and [PostgresQueryTheory]: the query builder
      [persistence/postgres/query.py], module [postgres], and the text psycopg sends.
      [PostgresConverters]: [persistence/postgres/converters/]. [PostgresSql] is what the
      queries mean on tables of rows, over the class [SqlEngine] of a server's values;
      [PostgresPages] and [PostgresPaging] evaluate them, and [PostgresEngine] has an engine.
    - [PostgresConditions] (module [pg]) and [PostgresAdapter]: [store/adapters/postgres/],
      against the class [EventsServer], with its laws, of [PostgresServer]; [Sha256] is the
      digest of lock names. [PostgresAdapterTheory], [PostgresInsert], [PostgresSaving],
      [PostgresCategory] and [PostgresScan] prove its operations right, [PostgresStore] that
      it keeps [AdapterContract], and [PostgresReference] has a server that keeps the laws.
    - [PostgresTables]: the statements of a table, as the class [TableServer] with its laws.
      [PostgresSubscribers], [PostgresSubscriptions]: the broker's state stores on it.
      [PostgresLocks]: [processing/locks/postgres.py] over the class [AdvisoryServer].
      [PostgresProjections]: [projection/store/adapters/postgres.py]. [PostgresReadModel] has
      consumers and projections on Postgres.

    ** What is proved

    Storage: whatever saves interleave, fail or are cancelled, the log is well formed and
    grows only by whole saves ([concurrent_saves_safe]); a publish is atomic and ordered, for
    one stream or many ([save_to_stream_spec], [save_to_category_spec]), and so it is on
    Postgres ([postgres_save_to_stream], [postgres_save_to_category]), where a publish has at
    most 8191 events ([publish_size_bounds]); reads represent the log ([reads_represent]), and
    a scan of Postgres yields it page by page while it grows ([scan_yields_log]); a save
    alone refines the sequential code ([save_alone]) and
    saves terminate ([saves_terminate]), except that a cancelled acquisition loses locks
    ([cancelled_acquire_leaks]). Conditions mean what they say ([condition_enforced],
    [combine_semantics]). The store on top of any adapter that keeps the contract:
    [publish_then_read], [retry_publishes_once], [retry_attempts], [factory_sources],
    [constrained_source].

    Data: normal forms and round trips of serialisation ([serialise_normalises],
    [deserialise_builtin], [projection_roundtrip], [event_sequence_identifier_roundtrip],
    [serialise_identifier_injective]).

    Queries and projections: sorting, both kinds of paging and whole searches
    ([sort_clause_sorts], [offset_pages_partition], [key_set_paging], [search_semantics]); the
    queries for Postgres keep values out of their text and give each a placeholder
    ([build_parameterised], [build_placeholders]), and page as the in-memory queries do
    ([key_set_pages_agree]), except for mixed sorts on nested paths
    ([mixed_paging_unhashable]);
    what is saved is what is loaded in memory ([save_then_load]) and on any adapter that keeps
    the laws ([saved_is_loaded]), and processing a stream event by event
    keeps its projection ([process_events_projects]); the stores of projections in memory and
    on Postgres cannot be told apart ([projection_stores_agree]). From end to end, publishes,
    turns of a consumer, its replacement and lookups in any order leave stored the projections
    of the events handled so far, and a turn of the consumer brings them up to all of them
    ([read_model_follows]); a consumer replaced without its state saved handles events twice
    ([handled_twice]). Connection strings are read
    back ([connection_string_read]), unless a password has an at sign
    ([password_with_at_sign]).

    Processing: no event is skipped or reordered, whatever fails ([consume_all_progress]), on
    Postgres too ([postgres_keeps_state]), and progress survives a restart ([progress_survives_restart]); error handlers
    ([retry_until_success], [ordinary_errors_contained], [type_mappings_resolution]); the
    status of a compound process ([multi_process_status_spec]); mutual exclusion of
    [try_lock], and its failure with [wait_for_lock] ([try_lock_excludes],
    [wait_for_lock_shares]), where Postgres locks exclude in both ([postgres_locks_exclude])
    but misread timeouts ([lock_timeouts]). A service manager starts every service where its
    isolation mode says ([start_runs_services]) and ends them all when it is stopped,
    also those that end only when they are cancelled ([stop_ends_services]), if it was started, and only once ([stop_before_start_waits],
    [stop_again_raises]); a polling service calls once a turn ([polling_polls]).

    Broker: a distribution partitions the requested sources over the eligible subscribers and
    keeps them in place, over any stores ([distribution_partitions]). In a cluster at most one
    coordinator leads and changes subscriptions ([one_leader]), none fails on stores that keep
    their laws ([leaders_never_fail]), and leadership is handed over ([leadership_passes_on]). Changes
    are applied exactly ([apply_changes_spec]), on Postgres as a whole or not at all
    ([postgres_apply_atomic]). Subscribers that send heartbeats in time stay listed
    ([heartbeats_keep_listed]), those that were purged stay lost
    ([lost_subscriber_stays_lost]); running a broker registers and unregisters its
    subscribers ([execution_unregisters]); the stores of subscribers agree
    ([subscriber_stores_agree]) but for purging, which skips some in memory ([purge_skips])
    and is exact on Postgres ([purge_exact]). The difference of two distributions is exact
    ([diff_exact]), and following it keeps each node's consumers equal to its subscriptions
    ([synchronise_follows]), unless a synchronisation fails half way
    ([failed_synchronise_leaks]) or a subscriber comes late ([late_subscriber_waits]); an
    observer does so until a listing or its sleep ends it, with the status that tells which
    ([observe_follows]). Over a whole cluster, each requested source is then consumed by
    exactly one subscriber of a group ([cluster_consumes_once]). The broker of one node serves
    every request ([singleton_serves_requests], [singleton_serves]). The factories wire these
    parts as the theorems take them ([make_event_broker_wires]), and their default settings
    keep subscribers listed ([default_settings_keep_listed]).

    Test data: random names have the shape that is asked for ([hyphenated_ok]), and an event
    built from a new event is that event, unless its payload or name is empty
    ([from_new_event_keeps]).

    ** Conventions

    Coroutines that only await coroutines of the model are sequential functions in the monad
    [ST]; where tasks interleave, the code is cut at its awaits into the steps of a relation.
    Python's integers are [Z]; floats are exact binary fractions with infinities and NaN; a
    dict is an association list in insertion order; the iteration order of a set is unknown
    and goes through the class [SetOrder]. User code (event processors, handlers, factories,
    custom conditions and queries), regular expressions, case conversion, uuids, the clock and
    loggers are parameters; a log call is kept only for the values it computes, since these
    may raise.

    Fuel: [ErrorHandling.execute] takes the number of turns of its [while True]; [execute_iff]
    says that it returns exactly when some number of turns ends the loop, and
    [retry_until_success] gives the number. [Coordinator.stride] takes the length of the list,
    which a stride cannot exceed ([chunk_covers]). [BrokerState.purge_from] takes the length
    of the list, since its index grows at each turn ([purge_from_skip]).
    [PostgresAdapter.scan_loop] takes the number of pages: a scan of a log of bounded length
    ends within one page more than that length ([scan_yields_log]), but never with pages of
    size 0 ([scan_never_ends]). [ServiceLoops.run_turns] takes the turns of a loop, each with
    what its awaits are answered: a loop that has not ended is one that goes on after them.

    Services: psycopg composes texts and quotes identifiers ([Psycopg]); the server evaluates
    queries on tables ([SqlEngine]), executes statements in a transaction ([EventsServer],
    [TableServer]) or keeps advisory locks ([AdvisoryServer]).
    Their laws are what PostgreSQL documents of the statements the code sends, statement by
    statement, with the limits it documents (16-bit parameter counts, 32-bit positions, no
    zero characters in text); nothing is assumed of texts the code does not send. Each law is
    met by a reference implementation ([PostgresEngine], [PostgresReference], and one at the
    end of [PostgresTables] and [PostgresLocks]), on which the theorems are instantiated.

    ** What is not modelled

    Connection pools, and connections that break (a lock manager on Postgres then loses a lock
    that its task still counts on); transactions of several connections at once on Postgres,
    beyond pages of a scan read between them; the lengths of intervals and sleeps, which are
    taken to end some time, and cancellation while a logger is awaited; package indexes,
    abstract base classes without code, type aliases, and logging. *)
From Stdlib Require Export ZArith Lia.
From stdpp Require Export base gmap strings sorting numbers list.

(** ** Python exceptions and fallible results *)

Inductive Exn :=
  | ValueError (message : string)
  | TypeError
  | KeyError
  | IndexError
  | AttributeError
  | ZeroDivisionError
  | RuntimeError (message : string)
  | UnmetWriteConditionError (message : string)
  | MissingProjectionHandlerError (event_name : string)
  | CancelledError
  | UserError (name : string).

#[export] Instance Exn_eq_dec : EqDecision Exn.
Proof. solve_decision. Defined.

Inductive res (A : Type) :=
  | Ok (a : A)
  | Raise (e : Exn).
Arguments Ok {_} _.
Arguments Raise {_} _.

#[export] Instance res_eq_dec `{EqDecision A} : EqDecision (res A).
Proof. solve_decision. Defined.
#[export] Instance res_ret : MRet res := fun A a => Ok a.
#[export] Instance res_bind : MBind res := fun A B f m =>
  match m with Ok a => f a | Raise e => Raise e end.
#[export] Instance res_fmap : FMap res := fun A B f m =>
  match m with Ok a => Ok (f a) | Raise e => Raise e end.

Definition is_ok {A} (m : res A) : bool :=
  match m with Ok _ => true | Raise _ => false end.

Definition is_value_error {A} (m : res A) : bool :=
  match m with Raise (ValueError _) => true | _ => false end.

Definition is_unmet {A} (m : res A) : bool :=
  match m with Raise (UnmetWriteConditionError _) => true | _ => false end.

(** Python's [if b: raise e]. *)
Definition raise_if (b : bool) (e : Exn) : res () := if b then Raise e else Ok ().

(** Stateful code that may raise: the state reached is kept when it does. *)
Definition ST (S A : Type) : Type := S -> res A * S.
#[export] Instance ST_ret {S} : MRet (ST S) := fun A a s => (Ok a, s).
#[export] Instance ST_bind {S} : MBind (ST S) := fun A B f m s =>
  match m s with
  | (Ok a, s') => f a s'
  | (Raise e, s') => (Raise e, s')
  end.
Definition st_get {S} : ST S S := fun s => (Ok s, s).
Definition st_put {S} (s : S) : ST S () := fun _ => (Ok (), s).
Definition st_modify {S} (f : S -> S) : ST S () := fun s => (Ok (), f s).
Definition st_lift {S A} (m : res A) : ST S A := fun s => (m, s).

(** A generator (an [async for] source): what it yields before it stops, and the
    exception it stops with, if any. *)
Record Gen (A : Type) := mkGen { yielded : list A; raised : option Exn }.
Arguments mkGen {_} _ _.
Arguments yielded {_} _.
Arguments raised {_} _.

Definition gen_of {A} (l : list A) : Gen A := mkGen l None.
Definition gen_cons {A} (a : A) (g : Gen A) : Gen A := mkGen (a :: yielded g) (raised g).
Definition gen_raise {A} (e : Exn) : Gen A := mkGen [] (Some e).

(** [[x async for x in g]]. *)
Definition gen_collect {A} (g : Gen A) : res (list A) :=
  match raised g with None => Ok (yielded g) | Some e => Raise e end.

(** ** Python lists *)

(** The offset a Python index denotes in a list of length [n]: negative indices
    count from the end, and what is out of range raises. *)
Definition py_offset (n : nat) (i : Z) : option nat :=
  if decide (0 <= i < Z.of_nat n)%Z then Some (Z.to_nat i)
  else if decide (- Z.of_nat n <= i < 0)%Z then Some (Z.to_nat (i + Z.of_nat n))
  else None.

Definition py_get {A} (l : list A) (i : Z) : res A :=
  match py_offset (length l) i with
  | Some k => match l !! k with Some a => Ok a | None => Raise IndexError end
  | None => Raise IndexError
  end.

Definition py_set {A} (l : list A) (i : Z) (a : A) : res (list A) :=
  match py_offset (length l) i with
  | Some k => Ok (<[k := a]> l)
  | None => Raise IndexError
  end.

(** A slice bound, clamped as [slice.indices] does for step 1. *)
Definition py_bound (n : nat) (i : Z) : nat :=
  if decide (i < 0)%Z then Z.to_nat (Z.max (i + Z.of_nat n) 0)
  else Z.to_nat (Z.min i (Z.of_nat n)).

(** [l[start:stop]]. *)
Definition py_slice {A} (l : list A) (start stop : Z) : list A :=
  let a := py_bound (length l) start in
  let b := py_bound (length l) stop in
  take (b - a) (drop a l).

(** [l[-1] if l else None]. *)
Definition last_or_none {A} (l : list A) : option A := last l.

(** ** Python dicts: insertion-ordered association lists with unique keys *)
Section dict.
Context {K V : Type} `{EqDecision K}.

Fixpoint dict_get (d : list (K * V)) (k : K) : option V :=
  match d with
  | [] => None
  | (k', v) :: d' => if decide (k = k') then Some v else dict_get d' k
  end.

(** [d[k] = v]: an existing key keeps its place, a new one goes last. *)
Fixpoint dict_set (d : list (K * V)) (k : K) (v : V) : list (K * V) :=
  match d with
  | [] => [(k, v)]
  | (k', v') :: d' =>
      if decide (k = k') then (k', v) :: d' else (k', v') :: dict_set d' k v
  end.

(** [d.pop(k)] for a key that is there. *)
Fixpoint dict_pop (d : list (K * V)) (k : K) : list (K * V) :=
  match d with
  | [] => []
  | (k', v) :: d' =>
      if decide (k = k') then dict_pop d' k else (k', v) :: dict_pop d' k
  end.

Definition dict_keys (d : list (K * V)) : list K := d.*1.
Definition dict_values (d : list (K * V)) : list V := d.*2.

(** [{key(x): value(x) for x in xs}]: later entries overwrite earlier ones. *)
Definition dict_of {X} (key : X -> K) (value : X -> V) (xs : list X) : list (K * V) :=
  foldl (fun d x => dict_set d (key x) (value x)) [] xs.

(** The entries of [e] written over those of [d]: [{**d, **e}]. *)
Definition dict_update (d e : list (K * V)) : list (K * V) :=
  foldl (fun d kv => dict_set d kv.1 kv.2) d e.
End dict.

Abbreviation dict K V := (list (K * V)).

(** ** Python's stable [sorted] *)
Section stable_sort.
Context {A : Type} (lt : A -> A -> bool).

(** [x] stood before every element of [l] in the input. *)
Fixpoint insert_stable (x : A) (l : list A) : list A :=
  match l with
  | [] => [x]
  | y :: l' => if lt y x then y :: insert_stable x l' else x :: y :: l'
  end.

Definition sort_stable (l : list A) : list A := foldr insert_stable [] l.
End stable_sort.

(** [sorted(l, key=key, reverse=reverse)] for keys ordered by [lt]: a reversed sort
    keeps the input order of equal keys too. *)
Definition py_sorted {A K} (lt : K -> K -> bool) (key : A -> K) (reverse : bool)
    (l : list A) : list A :=
  sort_stable (fun x y => if reverse then lt (key y) (key x) else lt (key x) (key y)) l.

(** [sorted(names)] for strings. *)
Definition sorted_strings (l : list string) : list string := merge_sort String.le l.

(** ** Python sets *)

(** The order in which Python iterates over the set built from a list is not
    specified (it follows randomised string hashes): every use of it in the model
    goes through this interface, whose laws are all a set promises. *)
Class SetOrder := {
  set_iter : forall {A : Type} `{EqDecision A}, list A -> list A;
  set_iter_NoDup : forall {A : Type} `{EqDecision A} (l : list A), NoDup (set_iter l);
  set_iter_elem_of : forall {A : Type} `{EqDecision A} (l : list A) (x : A),
    x ∈ set_iter l <-> x ∈ l
}.

(** [set(l) - set(m)], [set(l) | set(m)] and membership. *)
Definition set_diff `{SetOrder} {A} `{EqDecision A} (l m : list A) : list A :=
  set_iter (filter (fun x => x ∉ m) l).
Definition set_union `{SetOrder} {A} `{EqDecision A} (l m : list A) : list A :=
  set_iter (l ++ m).

(** * Shared lemmas *)

(** ** The monads *)

Lemma res_bind_Ok {A B} (m : res A) (f : A -> res B) (b : B) :
  (m ≫= f) = Ok b <-> exists a, m = Ok a /\ f a = Ok b.
Proof.
  destruct m as [a|e]; cbn; split; [by exists a|by intros (? & [= ->] & ?)|done|by intros (? & ? & ?)].
Qed.

Lemma st_bind_Ok {S A B} (m : ST S A) (f : A -> ST S B) (s s' : S) (b : B) :
  (m ≫= f) s = (Ok b, s') <-> exists a s1, m s = (Ok a, s1) /\ f a s1 = (Ok b, s').
Proof.
  unfold mbind, ST_bind. destruct (m s) as [[a|e] s1]; split.
  - by exists a, s1.
  - by intros (? & ? & [= -> ->] & ?).
  - done.
  - by intros (? & ? & ? & ?).
Qed.

Lemma res_mapM_total {A B} (f : A -> res B) (P : A -> B -> Prop) (l : list A) :
  Forall (fun x => exists y, f x = Ok y /\ P x y) l ->
  exists ys, mapM f l = Ok ys /\ Forall2 P l ys.
Proof.
  induction 1 as [|x l (y & Hy & HP) _ (ys & Hys & HPs)]; cbn; [by exists []|].
  exists (y :: ys). by rewrite Hy, Hys; split; [|constructor].
Qed.

Lemma res_mapM_Ok {A B} (f : A -> res B) (l : list A) (ys : list B) :
  mapM f l = Ok ys <-> Forall2 (fun x y => f x = Ok y) l ys.
Proof.
  revert ys. induction l as [|x l IH]; intros ys; cbn.
  - split; [intros [= <-]; constructor|by inversion 1].
  - rewrite res_bind_Ok. setoid_rewrite res_bind_Ok. split.
    + intros (y & Hy & ys' & Hys & [= <-]). constructor; [done|]. by apply IH.
    + inversion 1 as [|? y ? ys' Hy Hys]; subst. exists y. split; [done|].
      exists ys'. split; [by apply IH|done].
Qed.

Lemma res_mapM_Raise {A B} (f : A -> res B) (l : list A) e :
  mapM f l = Raise e -> exists x, x ∈ l /\ f x = Raise e.
Proof.
  induction l as [|x l IH]; cbn; [done|].
  destruct (f x) as [y|e'] eqn:Ex; cbn.
  - destruct (mapM f l) as [ys|e'] eqn:El; cbn; [done|]. intros [= ->].
    destruct IH as (z & Hz & Ez); [done|]. exists z. split; [by constructor|done].
  - intros [= ->]. exists x. split; [constructor|done].
Qed.

(** ** Filters *)

Lemma filter_twice {A} (f g : A -> bool) (l : list A) :
  List.filter g (List.filter f l) = List.filter (fun x => f x && g x) l.
Proof.
  induction l as [|x l IH]; [done|]. cbn [List.filter].
  destruct (f x); cbn [List.filter andb]; [|done]. by rewrite IH.
Qed.

Lemma elem_filter {A} (P : A -> bool) (l : list A) x :
  x ∈ List.filter P l <-> x ∈ l /\ P x = true.
Proof. rewrite !list_elem_of_In. apply List.filter_In. Qed.

Lemma filter_keys_NoDup {A K} (key_of : A -> K) (keep : A -> bool) (l : list A) :
  NoDup (key_of <$> l) -> NoDup (key_of <$> List.filter keep l).
Proof.
  induction l as [|x l IH]; cbn; [done|]. intros [Hx Hnd]%NoDup_cons.
  destruct (keep x); [|by apply IH]. cbn. apply NoDup_cons. split; [|by apply IH].
  intros (y & Hy & [Hin _]%elem_filter)%list_elem_of_fmap. apply Hx. rewrite Hy.
  by apply list_elem_of_fmap_2.
Qed.

Lemma filter_all {A} (P : A -> bool) (l : list A) :
  (forall x, x ∈ l -> P x = true) -> List.filter P l = l.
Proof.
  induction l as [|x l IH]; intros HP; [done|]. cbn. rewrite HP by constructor.
  f_equal. apply IH. intros y Hy. apply HP. by constructor.
Qed.

Lemma filter_nothing {A} (P : A -> bool) (l : list A) :
  (forall x, x ∈ l -> P x = false) -> List.filter P l = [].
Proof.
  induction l as [|x l IH]; intros HP; [done|]. cbn. rewrite HP by constructor.
  apply IH. intros y Hy. apply HP. by constructor.
Qed.

Lemma elem_of_concat_fmap {A B} (f : A -> list B) (l : list A) x :
  x ∈ concat (f <$> l) <-> exists a, a ∈ l /\ x ∈ f a.
Proof.
  induction l as [|a l IH]; cbn.
  - split; [by intros ?%not_elem_of_nil|by intros (a & ?%not_elem_of_nil & _)].
  - rewrite elem_of_app, IH. setoid_rewrite elem_of_cons. naive_solver.
Qed.

(** ** Indexing and slices *)

Lemma py_offset_nonneg n i :
  (0 <= i < Z.of_nat n)%Z -> py_offset n i = Some (Z.to_nat i).
Proof. intros H. unfold py_offset. by rewrite decide_True. Qed.

Lemma py_get_nonneg {A} (l : list A) (i : nat) (a : A) :
  l !! i = Some a -> py_get l (Z.of_nat i) = Ok a.
Proof.
  intros H. pose proof (lookup_lt_Some _ _ _ H).
  unfold py_get. rewrite py_offset_nonneg by lia. by rewrite Nat2Z.id, H.
Qed.

Lemma py_get_Ok {A} (l : list A) (i : Z) (a : A) :
  py_get l i = Ok a -> (0 <= i)%Z -> l !! Z.to_nat i = Some a.
Proof.
  unfold py_get, py_offset. intros H Hi. repeat case_decide; [|lia|done].
  by destruct (l !! Z.to_nat i); simplify_eq.
Qed.

Lemma py_set_nonneg {A} (l : list A) (i : Z) (a : A) :
  (0 <= i < Z.of_nat (length l))%Z -> py_set l i a = Ok (<[Z.to_nat i := a]> l).
Proof. intros H. unfold py_set. by rewrite py_offset_nonneg. Qed.

Lemma py_bound_nonneg n i : (0 <= i)%Z -> py_bound n i = Nat.min (Z.to_nat i) n.
Proof. intros H. unfold py_bound. case_decide; lia. Qed.

Lemma py_slice_nonneg {A} (l : list A) (a b : Z) :
  (0 <= a)%Z -> (0 <= b)%Z ->
  py_slice l a b = take (Z.to_nat b - Z.to_nat a) (drop (Z.to_nat a) l).
Proof.
  intros Ha Hb. unfold py_slice. rewrite !py_bound_nonneg by done.
  destruct (decide (Z.to_nat a <= length l)).
  - rewrite (Nat.min_l (Z.to_nat a)) by done.
    destruct (decide (Z.to_nat b <= length l)).
    + by rewrite Nat.min_l.
    + rewrite Nat.min_r by lia. rewrite !take_ge; rewrite ?length_drop; try lia. done.
  - rewrite (drop_ge l (Z.to_nat a)) by lia.
    rewrite (Nat.min_r (Z.to_nat a)), (drop_ge l (length l)) by lia.
    by rewrite !take_nil.
Qed.

Lemma py_slice_length {A} (l : list A) (a b : Z) :
  (0 <= a)%Z -> (length (py_slice l a b) <= Z.to_nat (b - a))%nat \/ (b < 0)%Z.
Proof.
  intros Ha. destruct (decide (b < 0)%Z) as [|Hb]; [by right|left].
  rewrite py_slice_nonneg by lia. rewrite length_take. lia.
Qed.

(** ** Dicts *)
Section dict_lemmas.
Context {K V : Type} `{EqDecision K}.
Implicit Types (d : dict K V) (k : K) (v : V).

Lemma dict_get_set_eq d k v : dict_get (dict_set d k v) k = Some v.
Proof.
  induction d as [|[k' v'] d IH]; cbn; [by rewrite decide_True|].
  case_decide; cbn; by case_decide.
Qed.

Lemma dict_get_set_ne d k k' v : k <> k' -> dict_get (dict_set d k v) k' = dict_get d k'.
Proof.
  intros Hne. induction d as [|[k0 v0] d IH]; cbn.
  - case_decide; congruence.
  - case_decide; cbn; repeat case_decide; congruence.
Qed.

Lemma dict_get_set d k k' v :
  dict_get (dict_set d k v) k' = if decide (k = k') then Some v else dict_get d k'.
Proof.
  case_decide; subst; [apply dict_get_set_eq|by apply dict_get_set_ne].
Qed.

Lemma dict_keys_set d k v :
  dict_keys (dict_set d k v) =
  if decide (k ∈ dict_keys d) then dict_keys d else dict_keys d ++ [k].
Proof.
  unfold dict_keys. induction d as [|[k0 v0] d IH]; cbn; [done|].
  destruct (decide (k = k0)) as [->|Hne]; cbn.
  - rewrite decide_True; [done|constructor].
  - rewrite IH. destruct (decide (k ∈ d.*1)) as [Hin|Hout].
    + rewrite decide_True; [done|by constructor].
    + rewrite decide_False; [done|]. by inversion 1.
Qed.

Lemma dict_set_fresh d k v : k ∉ dict_keys d -> dict_set d k v = d ++ [(k, v)].
Proof.
  unfold dict_keys. induction d as [|[k0 v0] d IH]; cbn; [done|].
  intros [Hne Hd]%not_elem_of_cons. rewrite decide_False by done. by rewrite IH.
Qed.

Lemma dict_set_NoDup d k v : NoDup (dict_keys d) -> NoDup (dict_keys (dict_set d k v)).
Proof.
  intros Hd. rewrite dict_keys_set. case_decide; [done|].
  apply NoDup_app. split_and!; [done| |apply NoDup_singleton].
  intros x Hx ->%list_elem_of_singleton. done.
Qed.

Lemma dict_get_Some_elem d k v : dict_get d k = Some v -> (k, v) ∈ d.
Proof.
  induction d as [|[k0 v0] d IH]; cbn; [done|].
  case_decide; intros; simplify_eq; [constructor|right; auto].
Qed.

Lemma dict_get_None d k : dict_get d k = None <-> k ∉ dict_keys d.
Proof.
  unfold dict_keys. induction d as [|[k0 v0] d IH]; cbn.
  - split; [intros _; apply not_elem_of_nil|done].
  - rewrite not_elem_of_cons. case_decide as Hk.
    + split; [intros [=]|intros []; congruence].
    + rewrite IH. split; [auto|by intros []].
Qed.

Lemma dict_get_is_Some d k : is_Some (dict_get d k) <-> k ∈ dict_keys d.
Proof.
  rewrite <-not_eq_None_Some, dict_get_None.
  split; [apply dec_stable|auto].
Qed.

Lemma dict_elem_get d k v : NoDup (dict_keys d) -> (k, v) ∈ d -> dict_get d k = Some v.
Proof.
  unfold dict_keys. induction d as [|[k0 v0] d IH]; cbn; [by intros _ ?%not_elem_of_nil|].
  intros [Hk Hd]%NoDup_cons [[= -> ->]|Hin]%elem_of_cons; [by rewrite decide_True|].
  rewrite decide_False; [auto|]. intros ->. apply Hk.
  apply list_elem_of_fmap. by exists (k0, v).
Qed.

Lemma dict_get_pop d k k' :
  dict_get (dict_pop d k) k' = if decide (k = k') then None else dict_get d k'.
Proof.
  induction d as [|[k0 v0] d IH]; cbn; [by case_decide|].
  repeat case_decide; cbn; rewrite ?IH; repeat case_decide; congruence.
Qed.

Lemma dict_keys_pop_elem d k k' :
  k' ∈ dict_keys (dict_pop d k) <-> k' ∈ dict_keys d /\ k' <> k.
Proof.
  rewrite <-!dict_get_is_Some, dict_get_pop. case_decide; split; intros Hx.
  - by destruct Hx.
  - by destruct Hx.
  - split; congruence.
  - by destruct Hx.
Qed.

Lemma dict_pop_NoDup d k : NoDup (dict_keys d) -> NoDup (dict_keys (dict_pop d k)).
Proof.
  induction d as [|[k0 v0] d IH]; cbn; [done|].
  intros [Hk Hd]%NoDup_cons. case_decide; [auto|]. constructor; [|auto].
  by intros [? _]%dict_keys_pop_elem.
Qed.

Lemma dict_values_elem d v :
  NoDup (dict_keys d) -> v ∈ dict_values d <-> exists k, dict_get d k = Some v.
Proof.
  intros Hd. unfold dict_values. rewrite list_elem_of_fmap. split.
  - intros ([k v'] & -> & Hin). exists k. by apply dict_elem_get.
  - intros [k Hk%dict_get_Some_elem]. by exists (k, v).
Qed.

Lemma dict_values_keyed (key : V -> K) d :
  NoDup (dict_keys d) -> (forall k v, dict_get d k = Some v -> key v = k) ->
  key <$> dict_values d = dict_keys d.
Proof.
  intros Hnd Hk. unfold dict_values, dict_keys. rewrite <-list_fmap_compose.
  apply list_fmap_ext. intros i [k v] Hi. cbn. apply Hk, dict_elem_get; [done|].
  by eapply list_elem_of_lookup_2.
Qed.

Lemma dict_of_NoDup {X} (key : X -> K) (value : X -> V) (xs : list X) :
  NoDup (dict_keys (dict_of key value xs)).
Proof.
  unfold dict_of. assert (NoDup (dict_keys (@nil (K * V)))) as H by constructor.
  revert H. generalize (@nil (K * V)). induction xs as [|x xs IH]; cbn; [done|].
  intros d Hd. apply IH. by apply dict_set_NoDup.
Qed.

Lemma dict_get_of_const {X} (key : X -> K) (v : V) (xs : list X) k :
  dict_get (dict_of key (fun _ => v) xs) k = if decide (k ∈ key <$> xs) then Some v else None.
Proof.
  unfold dict_of.
  enough (forall d, dict_get (foldl (fun d x => dict_set d (key x) v) d xs) k =
    if decide (k ∈ key <$> xs) then Some v else dict_get d k) as Hgen by apply Hgen.
  induction xs as [|x xs IH]; intros d; cbn.
  - rewrite decide_False; [done|apply not_elem_of_nil].
  - rewrite IH, dict_get_set. destruct (decide (k ∈ key <$> xs)) as [Hk|Hk].
    + rewrite decide_True; [done|by constructor].
    + case_decide as Hx.
      * rewrite decide_True; [done|]. subst. constructor.
      * rewrite decide_False; [done|]. rewrite elem_of_cons. naive_solver.
Qed.

Lemma dict_get_update d e k :
  NoDup (dict_keys e) ->
  dict_get (dict_update d e) k =
  match dict_get e k with Some v => Some v | None => dict_get d k end.
Proof.
  unfold dict_update, dict_keys. revert d.
  induction e as [|[k' v'] e IH]; intros d; cbn; [done|]. intros [Hk' He]%NoDup_cons.
  rewrite IH by done. rewrite dict_get_set. destruct (decide (k = k')) as [->|Hne].
  - rewrite (proj2 (dict_get_None e k') Hk'). by rewrite decide_True.
  - by rewrite decide_False.
Qed.

(** When the keys are pairwise distinct a dict comprehension is a lookup by key. *)
Lemma dict_of_get {X} (key : X -> K) (value : X -> V) (xs : list X) k v :
  NoDup (key <$> xs) ->
  dict_get (dict_of key value xs) k = Some v <-> exists x, x ∈ xs /\ key x = k /\ value x = v.
Proof.
  unfold dict_of. intros Hnd.
  enough (forall d, (forall x, x ∈ xs -> key x ∉ dict_keys d) ->
    dict_get (foldl (fun d x => dict_set d (key x) (value x)) d xs) k = Some v <->
    dict_get d k = Some v \/ exists x, x ∈ xs /\ key x = k /\ value x = v) as Hgen.
  { rewrite Hgen; [naive_solver|]. intros x _. apply not_elem_of_nil. }
  induction xs as [|x xs IH]; intros d Hd; cbn in *.
  { split; [auto|]. intros [?|(?&?%not_elem_of_nil&_)]; done. }
  apply NoDup_cons in Hnd as [Hx Hnd]. rewrite IH; [|done|].
  - rewrite dict_get_set. assert (key x ∉ dict_keys d) as Hkx by (apply Hd; constructor).
    rewrite <-dict_get_None in Hkx. setoid_rewrite elem_of_cons. case_decide; naive_solver.
  - intros y Hy. rewrite dict_keys_set. case_decide; [apply Hd; by constructor|].
    rewrite elem_of_app, list_elem_of_singleton. intros [Hin|Heq].
    + revert Hin. apply Hd. by constructor.
    + apply Hx. rewrite <-Heq. apply list_elem_of_fmap. by exists y.
Qed.
End dict_lemmas.

(** ** Sorting *)
Section sort_lemmas.
Context {A : Type} (lt : A -> A -> bool).

Lemma insert_stable_Permutation x l : insert_stable lt x l ≡ₚ x :: l.
Proof.
  induction l as [|y l IH]; cbn; [done|]. destruct (lt y x); [|done].
  rewrite IH. apply Permutation_swap.
Qed.

Lemma sort_stable_Permutation l : sort_stable lt l ≡ₚ l.
Proof.
  induction l as [|x l IH]; cbn; [done|]. by rewrite insert_stable_Permutation, IH.
Qed.

Lemma sort_stable_elem_of x l : x ∈ sort_stable lt l <-> x ∈ l.
Proof. by rewrite sort_stable_Permutation. Qed.

(** [y] is not smaller than [x], what Python's sort promises of neighbours. *)
Definition not_after (x y : A) : Prop := lt y x = false.

(** Where [lt] orders the elements (a strict weak order on those that meet [P]). *)
Record ordering_on (P : A -> Prop) : Prop := {
  order_asym : forall x y, P x -> P y -> lt x y = true -> lt y x = false;
  order_trans : forall x y z, P x -> P y -> P z ->
    lt y x = false -> lt z y = false -> lt z x = false
}.

Context {P : A -> Prop} (Hord : ordering_on P).

Lemma insert_stable_Forall x l : P x -> Forall P l -> Forall P (insert_stable lt x l).
Proof. rewrite insert_stable_Permutation. by constructor. Qed.

Lemma sort_stable_Forall l : Forall P l -> Forall P (sort_stable lt l).
Proof. by rewrite sort_stable_Permutation. Qed.

(** A sort of a list that is already sorted by a second order sorts by both, the second
    one deciding between elements the first does not separate. *)
Section lexicographic.
Context (lt2 : A -> A -> bool).

Definition lex_lt (x y : A) : bool := lt x y || (negb (lt y x) && lt2 x y).
Definition lex_after (x y : A) : Prop := lex_lt y x = false.

Lemma insert_stable_lex x l :
  P x -> Forall P l -> Forall (fun y => lt2 y x = false) l ->
  StronglySorted lex_after l -> StronglySorted lex_after (insert_stable lt x l).
Proof.
  intros Hx HP H2 Hl. induction Hl as [|y l Hl IH Hy]; cbn; [repeat constructor|].
  apply Forall_cons in HP as [HPy HP]. apply Forall_cons in H2 as [Hyx H2].
  destruct (lt y x) eqn:E.
  - constructor; [auto|]. rewrite insert_stable_Permutation. constructor; [|done].
    unfold lex_after, lex_lt. by rewrite (order_asym P Hord y x), E.
  - constructor; [by constructor|]. constructor.
    + unfold lex_after, lex_lt. by rewrite E, Hyx, andb_false_r.
    + rewrite Forall_forall in HP, H2, Hy |- *. intros z Hz. specialize (Hy z Hz).
      unfold lex_after, lex_lt in *. apply orb_false_iff in Hy as [Hzy _].
      by rewrite (order_trans P Hord x y z), H2, andb_false_r by auto.
Qed.

Lemma sort_stable_lex l :
  Forall P l -> StronglySorted (fun x y => lt2 y x = false) l ->
  StronglySorted lex_after (sort_stable lt l).
Proof.
  intros HP Hl. induction Hl as [|x l Hl IH Hx]; cbn; [constructor|].
  apply Forall_cons in HP as [HPx HP]. fold (sort_stable lt l).
  apply insert_stable_lex; [done|by apply sort_stable_Forall| |auto].
  by rewrite sort_stable_Permutation.
Qed.
End lexicographic.

Lemma insert_stable_Sorted x l :
  P x -> Forall P l ->
  StronglySorted not_after l -> StronglySorted not_after (insert_stable lt x l).
Proof.
  intros Hx HP. induction 1 as [|y l Hl IH Hy]; cbn; [repeat constructor|].
  apply Forall_cons in HP as [HPy HP]. destruct (lt y x) eqn:E.
  - constructor; [auto|]. rewrite insert_stable_Permutation. constructor; [|done].
    by apply (order_asym P Hord).
  - constructor; [by constructor|]. constructor; [done|].
    rewrite Forall_forall in Hy, HP |- *. intros z Hz.
    apply (order_trans P Hord x y z); auto. by apply Hy.
Qed.

Lemma sort_stable_Sorted l : Forall P l -> StronglySorted not_after (sort_stable lt l).
Proof.
  induction 1 as [|x l Hx HP IH]; cbn; [constructor|].
  apply insert_stable_Sorted; [done|by apply sort_stable_Forall|done].
Qed.

(** Stability: elements the order does not separate keep their input order. *)
Lemma insert_stable_filter (Q : A -> bool) x l :
  P x -> Forall P l ->
  (forall y, y ∈ l -> Q x = true -> Q y = true -> lt y x = false) ->
  StronglySorted not_after l ->
  filter (fun y => Q y = true) (insert_stable lt x l) = filter (fun y => Q y = true) (x :: l).
Proof.
  intros Hx HP HQ Hl. induction Hl as [|y l Hl IH Hy]; cbn [insert_stable]; [done|].
  apply Forall_cons in HP as [HPy HP].
  destruct (lt y x) eqn:E; [|done].
  assert (Q x = true -> Q y = true -> False) as Hxy.
  { intros Hqx Hqy. rewrite (HQ y) in E; [done|constructor|done|done]. }
  rewrite filter_cons, IH; [|done|intros; apply HQ; [by constructor|done|done]].
  rewrite !filter_cons. repeat case_decide; naive_solver.
Qed.

Lemma sort_stable_filter (Q : A -> bool) l :
  Forall P l ->
  (forall x y, x ∈ l -> y ∈ l -> Q x = true -> Q y = true -> lt y x = false) ->
  filter (fun y => Q y = true) (sort_stable lt l) = filter (fun y => Q y = true) l.
Proof.
  induction 1 as [|x l Hx HP IH]; intros HQ; cbn [sort_stable foldr]; [done|].
  fold (sort_stable lt l).
  rewrite insert_stable_filter; [|done|by apply sort_stable_Forall| |by apply sort_stable_Sorted].
  - rewrite !filter_cons, IH; [done|]. intros; apply HQ; try done; by constructor.
  - intros y Hy. apply HQ; [constructor|]. constructor. by rewrite <-sort_stable_Permutation.
Qed.
End sort_lemmas.

Lemma py_sorted_Permutation {A K} (lt : K -> K -> bool) (key : A -> K) rev l :
  py_sorted lt key rev l ≡ₚ l.
Proof. apply sort_stable_Permutation. Qed.

Lemma sorted_strings_Permutation l : sorted_strings l ≡ₚ l.
Proof. apply merge_sort_Permutation. Qed.

Lemma sorted_strings_sorted l : StronglySorted String.le (sorted_strings l).
Proof. apply StronglySorted_merge_sort; apply _. Qed.

Lemma elem_of_sorted_strings l x : x ∈ sorted_strings l <-> x ∈ l.
Proof. by rewrite sorted_strings_Permutation. Qed.

Lemma sorted_strings_NoDup l : NoDup l -> NoDup (sorted_strings l).
Proof. by rewrite sorted_strings_Permutation. Qed.

Lemma ltb_leb s t : String.ltb s t = negb (String.leb t s).
Proof.
  unfold String.ltb, String.leb. rewrite (String.compare_antisym s t).
  by destruct (String.compare t s).
Qed.

Lemma leb_false s t : String.leb s t = false -> String.leb t s = true.
Proof.
  intros Hst. destruct (total String.le s t) as [H|H]; unfold String.le in H.
  - by rewrite Hst in H.
  - by apply Is_true_true_1.
Qed.

Lemma string_ltb_ordered : ordering_on String.ltb (fun _ => True).
Proof.
  split.
  - intros s t _ _. rewrite !ltb_leb, negb_true_iff, negb_false_iff. apply leb_false.
  - intros s t u _ _ _. rewrite !ltb_leb, !negb_false_iff. intros H1 H2.
    apply Is_true_true_2 in H1, H2. apply Is_true_true_1. change (String.le s u).
    by transitivity t.
Qed.

(** ** Sets *)

(** One order a set may be iterated in: that of first insertion. *)
Program Definition insertion_order : SetOrder :=
  {| set_iter := fun A _ l => remove_dups l |}.
Next Obligation. intros. apply NoDup_remove_dups. Qed.
Next Obligation. intros. apply elem_of_remove_dups. Qed.

Section set_lemmas.
Context `{SetOrder} {A : Type} `{EqDecision A}.

Lemma elem_of_set_diff (l m : list A) x : x ∈ set_diff l m <-> x ∈ l /\ x ∉ m.
Proof. unfold set_diff. rewrite set_iter_elem_of, list_elem_of_filter. tauto. Qed.

Lemma elem_of_set_union (l m : list A) x : x ∈ set_union l m <-> x ∈ l \/ x ∈ m.
Proof. unfold set_union. by rewrite set_iter_elem_of, elem_of_app. Qed.

Lemma set_iter_length_pos (l : list A) : l <> [] -> (0 < length (set_iter l))%nat.
Proof.
  destruct l as [|x l]; [done|]. intros _.
  assert (x ∈ set_iter (x :: l)) as Hx by (apply set_iter_elem_of; constructor).
  destruct (set_iter (x :: l)); [by apply not_elem_of_nil in Hx|cbn; lia].
Qed.
End set_lemmas.

(** ** Hints and tactics *)
Create HintDb evstore.
#[export] Hint Resolve dict_set_NoDup dict_pop_NoDup dict_of_NoDup : evstore.
#[export] Hint Resolve set_iter_NoDup sorted_strings_NoDup : evstore.
#[export] Hint Rewrite @dict_get_set_eq @dict_get_pop @set_iter_elem_of : evstore.

(** Splits a successful monadic computation into its successful steps. *)
Ltac inv_ok :=
  repeat match goal with
  | H : (_ ≫= _) = Ok _ |- _ =>
      apply res_bind_Ok in H; destruct H as (? & ? & H)
  | H : (_ ≫= _) _ = (Ok _, _) |- _ =>
      apply st_bind_Ok in H; destruct H as (? & ? & ? & H)
  | H : st_lift ?m ?s = (Ok _, _) |- _ => unfold st_lift in H
  | H : mret _ = Ok _ |- _ => injection H as H; subst
  | H : Ok _ = Ok _ |- _ => injection H as H; subst
  | H : (Ok _, _) = (Ok _, _) |- _ => injection H as H; subst
  | H : Raise _ = Ok _ |- _ => discriminate H
  | H : raise_if ?b _ = Ok _ |- _ =>
      let E := fresh "Hb" in
      unfold raise_if in H; destruct b eqn:E; [discriminate H|clear H]
  end.

(** Case analysis on the scrutinee of the first [match] of the goal. *)
Ltac case_goal :=
  match goal with
  | |- context [match ?x with _ => _ end] => destruct x eqn:?
  end.

(** ** Reading texts *)

Fixpoint strip_prefix (prefix text : string) : option string :=
  match prefix, text with
  | EmptyString, _ => Some text
  | String c prefix', String d text' =>
      if Ascii.eqb c d then strip_prefix prefix' text' else None
  | _, _ => None
  end.

(** What is before the first [c], and after it. *)
Fixpoint cut (c : Ascii.ascii) (s : string) : option (string * string) :=
  match s with
  | EmptyString => None
  | String a s' =>
      if Ascii.eqb a c then Some (EmptyString, s')
      else match cut c s' with
        | Some (before, rest) => Some (String a before, rest)
        | None => None
        end
  end.

Fixpoint lacks (c : Ascii.ascii) (s : string) : bool :=
  match s with EmptyString => true | String a s' => negb (Ascii.eqb a c) && lacks c s' end.

Lemma strip_prefix_app prefix text : strip_prefix prefix (prefix +:+ text) = Some text.
Proof.
  induction prefix as [|c prefix IH]; [done|].
  change ((if Ascii.eqb c c then strip_prefix prefix (prefix +:+ text) else None) = Some text).
  by rewrite Ascii.eqb_refl.
Qed.

Lemma cut_app c before rest :
  lacks c before = true -> cut c (before +:+ String c rest) = Some (before, rest).
Proof.
  induction before as [|a s IH].
  - intros _. change ((if Ascii.eqb c c then Some (EmptyString, rest) else
      match cut c rest with Some (b, r) => Some (String c b, r) | None => None end) =
      Some (EmptyString, rest)). by rewrite Ascii.eqb_refl.
  - change (String a s +:+ String c rest) with (String a (s +:+ String c rest)). cbn [cut lacks]. intros [Ha Hs]%andb_true_iff. apply negb_true_iff in Ha.
    by rewrite Ha, IH.
Qed.

Lemma lacks_app c s1 s2 : lacks c (s1 +:+ s2) = lacks c s1 && lacks c s2.
Proof.
  induction s1 as [|a s1 IH]; [done|].
  change (String a s1 +:+ s2) with (String a (s1 +:+ s2)). cbn [lacks]. by rewrite IH, andb_assoc.
Qed.
