(* ===== verification/Values.v ===== *)
(** The data that flows through the event store: event source identifiers
    ([types/identifier.py]), the Python values that reach the serialisation code, and
    the user supplied methods it calls. *)
From S2P Require Import Prelude.

(** ** Identifiers ([types/identifier.py]) *)

Inductive PartitionIdentifier :=
  | StreamNamePrefixPartitionIdentifier (value : string).

Inductive EventSourceIdentifier :=
  | LogIdentifier
  | LogPartitionIdentifier (partition : PartitionIdentifier)
  | CategoryIdentifier (category : string)
  | CategoryPartitionIdentifier (category : string) (partition : PartitionIdentifier)
  | StreamIdentifier (category stream : string).

#[export] Instance PartitionIdentifier_eq_dec : EqDecision PartitionIdentifier.
Proof. solve_decision. Defined.
#[export] Instance EventSourceIdentifier_eq_dec : EqDecision EventSourceIdentifier.
Proof. solve_decision. Defined.

(** ** Python values *)

(** A Python float: [FFin m e] is [m * 2^e]. *)
Inductive PyFloat :=
  | FFin (m e : Z)
  | FInf (negative : bool)
  | FNaN.

(** An instance of a class the library does not define, by class name and identity. *)
Record Obj := mkObj { obj_class : string; obj_id : Z }.

#[export] Instance Obj_eq_dec : EqDecision Obj.
Proof. solve_decision. Defined.
#[export] Instance PyFloat_eq_dec : EqDecision PyFloat.
Proof. solve_decision. Defined.

Inductive Val :=
  | VNone
  | VBool (b : bool)
  | VInt (z : Z)
  | VFloat (f : PyFloat)
  | VStr (s : string)
  | VList (l : list Val)
  | VTuple (l : list Val)
  | VDict (d : list (Val * Val))
  | VIdent (i : EventSourceIdentifier)
  | VObj (o : Obj).

(** The constructors' recursive occurrences sit under [list] and [prod], so the useful
    induction principle is stated by hand. *)
Section Val_induction.
Variable P : Val -> Prop.
Hypothesis (HNone : P VNone) (HBool : forall b, P (VBool b)) (HInt : forall z, P (VInt z))
  (HFloat : forall f, P (VFloat f)) (HStr : forall s, P (VStr s))
  (HList : forall l, Forall P l -> P (VList l))
  (HTuple : forall l, Forall P l -> P (VTuple l))
  (HDict : forall d, Forall (fun kv => P kv.1 /\ P kv.2) d -> P (VDict d))
  (HIdent : forall i, P (VIdent i)) (HObj : forall o, P (VObj o)).

Fixpoint Val_nested_ind (v : Val) : P v :=
  let fix go (l : list Val) : Forall P l :=
    match l with
    | [] => Forall_nil_2 P
    | x :: l' => Forall_cons_2 P x l' (Val_nested_ind x) (go l')
    end in
  let fix god (d : list (Val * Val)) : Forall (fun kv => P kv.1 /\ P kv.2) d :=
    match d with
    | [] => Forall_nil_2 _
    | (k, x) :: d' =>
        Forall_cons_2 _ (k, x) d' (conj (Val_nested_ind k) (Val_nested_ind x)) (god d')
    end in
  match v with
  | VNone => HNone | VBool b => HBool b | VInt z => HInt z
  | VFloat f => HFloat f | VStr s => HStr s
  | VList l => HList l (go l) | VTuple l => HTuple l (go l)
  | VDict d => HDict d (god d)
  | VIdent i => HIdent i | VObj o => HObj o
  end.
End Val_induction.

(** ** Numbers: [bool] is a subclass of [int], and ints compare with floats exactly *)

Definition num_of (v : Val) : option PyFloat :=
  match v with
  | VBool b => Some (FFin (if b then 1 else 0) 0)
  | VInt z => Some (FFin z 0)
  | VFloat f => Some f
  | _ => None
  end.

(** [m1 * 2^e1] against [m2 * 2^e2], both scaled by [2^(- min e1 e2)]. *)
Definition fin_compare (m1 e1 m2 e2 : Z) : comparison :=
  let e := Z.min e1 e2 in
  Z.compare (m1 * 2 ^ (e1 - e))%Z (m2 * 2 ^ (e2 - e))%Z.

(** [None] when a NaN is involved: every comparison is then false. *)
Definition float_compare (x y : PyFloat) : option comparison :=
  match x, y with
  | FFin m1 e1, FFin m2 e2 => Some (fin_compare m1 e1 m2 e2)
  | FNaN, _ | _, FNaN => None
  | FInf a, FInf b => Some (if Bool.eqb a b then Eq else if a then Lt else Gt)
  | FInf a, FFin _ _ => Some (if a then Lt else Gt)
  | FFin _ _, FInf b => Some (if b then Gt else Lt)
  end.

Definition float_eqb (x y : PyFloat) : bool :=
  match float_compare x y with Some Eq => true | _ => false end.
Definition float_ltb (x y : PyFloat) : bool :=
  match float_compare x y with Some Lt => true | _ => false end.

(** ** Python's [==] *)
Section list_eqb.
Context {A B : Type} (eqb : A -> B -> bool).

Fixpoint list_eqb (l : list A) (m : list B) : bool :=
  match l, m with
  | [], [] => true
  | x :: l', y :: m' => eqb x y && list_eqb l' m'
  | _, _ => false
  end.
End list_eqb.

Fixpoint py_eqb (a b : Val) {struct a} : bool :=
  match a, b with
  | VNone, VNone => true
  | VStr s, VStr t => bool_decide (s = t)
  | VList l, VList m => list_eqb py_eqb l m
  | VTuple l, VTuple m => list_eqb py_eqb l m
  | VDict d, VDict e =>
      Nat.eqb (length d) (length e) &&
      forallb (fun kv => match kv with (k, v) =>
        existsb (fun kv' => py_eqb k kv'.1 && py_eqb v kv'.2) e end) d
  | VIdent i, VIdent j => bool_decide (i = j)
  | VObj o, VObj p => bool_decide (o = p)
  | _, _ =>
      match num_of a, num_of b with
      | Some x, Some y => float_eqb x y
      | _, _ => false
      end
  end.

(** ** Methods supplied by users of the library *)

(** A class is named; [klass_base] says which of the base classes the library tests
    for a user class derives from. *)
Inductive Base := BStr | BInt | BFloat | BBool | BSequence | BMapping | BDeserialisable.

#[export] Instance Base_eq_dec : EqDecision Base.
Proof. solve_decision. Defined.

(** A type handed to the deserialiser: a class, a parametrised collection, or one of
    the special forms the code recognises. *)
Inductive Klass :=
  | KNoneType | KStr | KInt | KFloat | KBool
  | KList | KTuple | KDict | KSequence | KMapping
  | KSequenceOf (item : Klass)
  | KMappingOf (key value : Klass)
  | KJsonValue | KJsonValueType | KAny
  | KUser (name : string).

#[export] Instance Klass_eq_dec : EqDecision Klass.
Proof. solve_decision. Defined.

Class UserCode := {
  (** [o.serialise(fallback)] to a JSON value; [None] when [o] has no such method. *)
  obj_serialise : Obj -> option ((Val -> res Val) -> res Val);
  (** [o.serialise(fallback)] for an object used as a string. *)
  obj_serialise_string : Obj -> option ((Val -> res string) -> res string);
  (** [issubclass(klass, base)]. *)
  user_subclass : string -> Base -> bool;
  (** [klass.deserialise(value, fallback)]. *)
  user_deserialise : string -> Val -> (Klass -> Val -> res Val) -> res Val;
  (** [str(value)] of a value that is not a string. *)
  obj_str : Val -> string;
  (** [datetime.isoformat()], with datetimes as microseconds. *)
  isoformat : Z -> string
}.

Definition py_str `{UserCode} (v : Val) : string :=
  match v with VStr s => s | _ => obj_str v end.

(** The environment with no user classes, for evaluating examples. *)
Definition no_user_code : UserCode := {|
  obj_serialise := fun _ => None;
  obj_serialise_string := fun _ => None;
  user_subclass := fun _ _ => false;
  user_deserialise := fun name _ _ => Raise AttributeError;
  obj_str := fun _ => "?"%string;
  isoformat := fun _ => "?"%string
|}.
