(* ===== verification/Conversion.v ===== *)
(** JSON recognition and conversion: [types/json.py], [types/conversion.py] and the
    serialised forms of identifiers in [types/identifier.py]. *)
From S2P Require Import Prelude Values.

(** ** [types/json.py] *)

Definition is_json_primitive (value : Val) : bool :=
  match value with
  | VStr _ | VInt _ | VFloat _ | VBool _ | VNone => true
  | _ => false
  end.

Fixpoint is_json_value (value : Val) : bool :=
  match value with
  | VStr _ | VInt _ | VFloat _ | VBool _ | VNone => true
  | VList items | VTuple items => forallb is_json_value items
  | VDict kvs =>
      forallb (fun kv => match kv with
        | (VStr _, v) => is_json_value v
        | (_, _) => false
        end) kvs
  | VIdent _ | VObj _ => false
  end.

Definition is_json_array (value : Val) : bool :=
  match value with
  | VList items | VTuple items => forallb is_json_value items
  | _ => false
  end.

Definition is_json_object (value : Val) : bool :=
  match value with
  | VDict kvs =>
      forallb (fun kv => match kv with
        | (VStr _, v) => is_json_value v
        | (_, _) => false
        end) kvs
  | _ => false
  end.

(** [d.get(key, None)] on a dict value with string keys. *)
Fixpoint obj_get (kvs : list (Val * Val)) (key : string) : option Val :=
  match kvs with
  | [] => None
  | (VStr k, v) :: kvs' => if decide (k = key) then Some v else obj_get kvs' key
  | (_, _) :: kvs' => obj_get kvs' key
  end.

(** A JSON object written as a dict display. *)
Definition mk_obj (kvs : list (string * Val)) : Val :=
  VDict ((fun kv => (VStr kv.1, kv.2)) <$> kvs).

(** ** Identifiers: [serialise], [__repr__], [event_sequence_identifier], [target] *)

Definition serialise_partition (p : PartitionIdentifier) : Val :=
  match p with
  | StreamNamePrefixPartitionIdentifier value =>
      mk_obj [("type", VStr "stream-name-prefix"); ("value", VStr value)]%string
  end.

Definition serialise_identifier (i : EventSourceIdentifier) : Val :=
  match i with
  | LogIdentifier => mk_obj [("type", VStr "log")]%string
  | LogPartitionIdentifier partition =>
      mk_obj [("type", VStr "log-partition");
              ("partition", serialise_partition partition)]%string
  | CategoryIdentifier category =>
      mk_obj [("type", VStr "category"); ("category", VStr category)]%string
  | CategoryPartitionIdentifier _ partition =>
      mk_obj [("type", VStr "category-partition");
              ("partition", serialise_partition partition)]%string
  | StreamIdentifier category stream =>
      mk_obj [("type", VStr "stream"); ("category", VStr category);
              ("stream", VStr stream)]%string
  end.

Definition repr_partition (p : PartitionIdentifier) : string :=
  match p with
  | StreamNamePrefixPartitionIdentifier value =>
      "StreamNamePrefixPartitionIdentifier(value='" +:+ value +:+ "')"
  end.

Definition repr_identifier (i : EventSourceIdentifier) : string :=
  match i with
  | LogIdentifier => "LogIdentifier()"
  | LogPartitionIdentifier partition =>
      "LogPartitionIdentifier(partition=" +:+ repr_partition partition +:+ ")"
  | CategoryIdentifier category => "CategoryIdentifier(category='" +:+ category +:+ "')"
  | CategoryPartitionIdentifier category partition =>
      "CategoryPartitionIdentifier(category='" +:+ category +:+ "',partition="
      +:+ repr_partition partition +:+ ")"
  | StreamIdentifier category stream =>
      "StreamIdentifier(category='" +:+ category +:+ "',stream='" +:+ stream +:+ "')"
  end.

(** The match statement: the first case whose keys are present with those literals. *)
Definition event_sequence_identifier `{UserCode} (serialised : Val)
    : res EventSourceIdentifier :=
  let invalid := Raise (ValueError "Invalid serialised event sequence identifier.") in
  match serialised with
  | VDict kvs =>
      match obj_get kvs "type", obj_get kvs "category", obj_get kvs "stream" with
      | Some (VStr ty), category, stream =>
          if decide (ty = "log"%string) then Ok LogIdentifier
          else if decide (ty = "category"%string) then
            match category with
            | Some c => Ok (CategoryIdentifier (py_str c))
            | None => invalid
            end
          else if decide (ty = "stream"%string) then
            match category, stream with
            | Some c, Some s => Ok (StreamIdentifier (py_str c) (py_str s))
            | _, _ => invalid
            end
          else invalid
      | _, _, _ => invalid
      end
  | _ => invalid
  end.

Definition target (category stream : option string) : res EventSourceIdentifier :=
  match category, stream with
  | Some c, Some s => Ok (StreamIdentifier c s)
  | Some c, None => Ok (CategoryIdentifier c)
  | None, Some _ => Raise (ValueError
      "Invalid target, if stream provided, category must also be provided")
  | None, None => Ok LogIdentifier
  end.

(** ** [types/conversion.py]: serialisation *)

Definition raising_serialisation_fallback {A} (_ : Val) : res A :=
  Raise (ValueError "Cannot serialise value.").
Definition str_serialisation_fallback `{UserCode} (value : Val) : res Val :=
  Ok (VStr (py_str value)).
Definition raising_deserialisation_fallback (_ : Klass) (_ : Val) : res Val :=
  Raise (ValueError "Cannot deserialise value.").

(** [isinstance(value, JsonValueSerialisable)]: the protocol asks for a [serialise]
    attribute, which identifiers and some user objects have. *)
Definition serialisable `{UserCode} (value : Val) : option ((Val -> res Val) -> res Val) :=
  match value with
  | VIdent i => Some (fun _ => Ok (serialise_identifier i))
  | VObj o => obj_serialise o
  | _ => None
  end.

Definition serialise_to_json_value `{UserCode} (value : Val)
    (fallback : Val -> res Val) : res Val :=
  match serialisable value with
  | Some serialise => serialise fallback
  | None => if is_json_value value then Ok value else fallback value
  end.

(** For names: an object's own [serialise] first, then strings, then the fallback. *)
Definition serialise_to_string `{UserCode} (value : Val)
    (fallback : Val -> res string) : res string :=
  match value with
  | VObj o =>
      match obj_serialise_string o with
      | Some serialise => serialise fallback
      | None => fallback value
      end
  | VStr s => Ok s
  | _ => fallback value
  end.

(** ** [types/conversion.py]: deserialisation *)

(** [isclass(klass)]: parametrised collections and unions are not classes, [Any] is. *)
Definition isclass (klass : Klass) : bool :=
  match klass with
  | KSequenceOf _ | KMappingOf _ _ | KJsonValue | KJsonValueType => false
  | _ => true
  end.

(** [issubclass(klass, base)] for a class. *)
Definition issubclass `{UserCode} (klass : Klass) (b : Base) : bool :=
  match klass, b with
  | KStr, (BStr | BSequence) => true
  | KInt, BInt => true
  | KFloat, BFloat => true
  | KBool, (BBool | BInt) => true
  | (KList | KTuple | KSequence), BSequence => true
  | (KDict | KMapping), BMapping => true
  | KUser name, _ => user_subclass name b
  | _, _ => false
  end.

(** [isinstance(value, primitive_type)]. *)
Definition isinstance_prim (value : Val) (b : Base) : bool :=
  match value, b with
  | VStr _, BStr => true
  | VInt _, BInt => true
  | VBool _, (BInt | BBool) => true
  | VFloat _, BFloat => true
  | _, _ => false
  end.

Definition primitive_match `{UserCode} (klass : Klass) (value : Val) : bool :=
  existsb (fun b => isinstance_prim value b && isclass klass && issubclass klass b)
    [BStr; BInt; BFloat; BBool].

Definition json_items (value : Val) : list Val :=
  match value with VList l | VTuple l => l | _ => [] end.
Definition json_entries (value : Val) : list (Val * Val) :=
  match value with VDict d => d | _ => [] end.

(** The error an item leaves in the [errors] list: [Ok true] for a [ValueError],
    other exceptions leave the function. *)
Definition item_error {A} (r : res A) : res bool :=
  match r with
  | Ok _ => Ok false
  | Raise (ValueError _) => Ok true
  | Raise e => Raise e
  end.

(** The [for] loop over the items, which counts the errors. *)
Fixpoint count_errors {X} (check : X -> res bool) (xs : list X) : res nat :=
  match xs with
  | [] => Ok 0%nat
  | x :: xs' =>
      b ← check x;
      n ← count_errors check xs';
      Ok (if b : bool then S n else n)
  end.

Definition untyped (klass : Klass) : bool :=
  match klass with KJsonValue | KAny => true | _ => false end.

Fixpoint deserialise_from_json_value `{UserCode} (klass : Klass) (value : Val)
    (fallback : Klass -> Val -> res Val) {struct klass} : res Val :=
  if bool_decide (klass = KNoneType) && (match value with VNone => true | _ => false end)
  then Ok value
  else if primitive_match klass value then Ok value
  else if is_json_array value &&
      ((isclass klass && issubclass klass BSequence) ||
       (match klass with KSequenceOf _ => true | _ => false end)) then
    match klass with
    | KSequenceOf item =>
        if untyped item then Ok value
        else
          errors ← count_errors
            (fun v => item_error (deserialise_from_json_value item v fallback))
            (json_items value);
          if (0 <? errors)%nat then fallback klass value else Ok value
    | _ => Ok value
    end
  else if is_json_object value &&
      ((isclass klass && issubclass klass BMapping) ||
       (match klass with KMappingOf _ _ => true | _ => false end)) then
    match klass with
    | KMappingOf key item =>
        if bool_decide (key = KStr) && untyped item then Ok value
        else
          errors ← count_errors
            (fun kv => match kv with
              | (VStr _, v) => item_error (deserialise_from_json_value item v fallback)
              | (_, _) => Ok true
              end)
            (json_entries value);
          if (0 <? errors)%nat then fallback klass value else Ok value
    | _ => Ok value
    end
  else if is_json_value value && bool_decide (klass = KJsonValueType) then Ok value
  else if is_json_value value && isclass klass && issubclass klass BDeserialisable then
    match klass with
    | KUser name => user_deserialise name value fallback
    | _ => fallback klass value
    end
  else fallback klass value.

Definition deserialise_from_string `{UserCode} (klass : Klass) (value : Val)
    (fallback : Klass -> Val -> res Val) : res Val :=
  let value_is_string := match value with VStr _ => true | _ => false end in
  if value_is_string && isclass klass && issubclass klass BStr then Ok value
  else if value_is_string && isclass klass && issubclass klass BDeserialisable then
    match klass with
    | KUser name => user_deserialise name value fallback
    | _ => fallback klass value
    end
  else fallback klass value.

(** ** Specifications *)

(** JSON values, as RFC 8259 has them: no non-string keys, no foreign objects. *)
Inductive Json : Val -> Prop :=
  | Json_none : Json VNone
  | Json_bool b : Json (VBool b)
  | Json_int z : Json (VInt z)
  | Json_float f : Json (VFloat f)
  | Json_str s : Json (VStr s)
  | Json_list l : Forall Json l -> Json (VList l)
  | Json_tuple l : Forall Json l -> Json (VTuple l)
  | Json_dict d : Forall (fun kv => (exists k, kv.1 = VStr k) /\ Json kv.2) d -> Json (VDict d).

(** A type with no user class in it. *)
Fixpoint builtin (klass : Klass) : bool :=
  match klass with
  | KUser _ => false
  | KSequenceOf item => builtin item
  | KMappingOf _ item => builtin item
  | _ => true
  end.

(** The values a built-in type accepts, read off type by type. *)
Fixpoint accepts (klass : Klass) (v : Val) : bool :=
  match klass with
  | KNoneType => match v with VNone => true | _ => false end
  | KStr => match v with VStr _ => true | _ => is_json_array v end
  | KInt | KBool => match v with VInt _ | VBool _ => true | _ => false end
  | KFloat => match v with VFloat _ => true | _ => false end
  | KList | KTuple | KSequence => is_json_array v
  | KDict | KMapping => is_json_object v
  | KSequenceOf item =>
      is_json_array v && (untyped item || forallb (accepts item) (json_items v))
  | KMappingOf key item =>
      is_json_object v &&
      ((bool_decide (key = KStr) && untyped item) ||
       forallb (fun kv => accepts item kv.2) (json_entries v))
  | KJsonValueType => is_json_value v
  | KJsonValue | KAny | KUser _ => false
  end.

(** ** Lemmas *)

Lemma is_json_value_cases v :
  is_json_value v = is_json_primitive v || is_json_array v || is_json_object v.
Proof. destruct v; cbn; by rewrite ?orb_false_r. Qed.

Lemma is_json_entry kv :
  match kv with (VStr _, v) => is_json_value v | (_, _) => false end = true <->
  (exists k, kv.1 = VStr k) /\ is_json_value kv.2 = true.
Proof. destruct kv as [[] v]; cbn; naive_solver. Qed.

(** [is_json_value] decides exactly the JSON values: primitives, lists
    and tuples of JSON values, and mappings from strings to JSON values; identifiers and
    instances of other classes are not JSON. *)
Lemma is_json_value_spec (v : Val) : is_json_value v = true <-> Json v.
Proof.
  induction v as [| | | | |l IH|l IH|d IH| |] using Val_nested_ind; cbn;
    try (split; [intros; constructor|done]); try (split; [done|inversion 1]).
  - rewrite forallb_forall, <-List.Forall_forall. split.
    + intros Hl. constructor. eapply Forall_impl; [|intros x Hx; exact Hx].
      apply Forall_forall. intros x Hx. rewrite !Forall_forall in *. naive_solver.
    + inversion 1; subst. rewrite !Forall_forall in *. naive_solver.
  - rewrite forallb_forall, <-List.Forall_forall. split.
    + intros Hl. constructor. rewrite !Forall_forall in *. naive_solver.
    + inversion 1; subst. rewrite !Forall_forall in *. naive_solver.
  - rewrite forallb_forall, <-List.Forall_forall. split.
    + intros Hl. constructor. rewrite !Forall_forall in *.
      intros kv Hkv. specialize (Hl kv Hkv). rewrite is_json_entry in Hl. naive_solver.
    + inversion 1; subst. rewrite !Forall_forall in *.
      intros kv Hkv. apply is_json_entry. naive_solver.
Qed.

Lemma serialise_identifier_json i : Json (serialise_identifier i).
Proof. apply is_json_value_spec. by destruct i as [|[]| |? []|]. Qed.

(** Objects and fallbacks that keep their side of the [JsonValueSerialisable] protocol. *)
Definition json_fallback (fallback : Val -> res Val) : Prop :=
  forall v w, fallback v = Ok w -> Json w.
Definition json_objects `{UserCode} : Prop :=
  forall o serialise fallback w,
    obj_serialise o = Some serialise -> json_fallback fallback ->
    serialise fallback = Ok w -> Json w.

(** What is stored is JSON: whatever [serialise_to_json_value] returns is. *)
Lemma serialise_to_json_value_json `{UserCode} v fallback w :
  json_objects -> json_fallback fallback ->
  serialise_to_json_value v fallback = Ok w -> Json w.
Proof.
  intros Hobj Hfb. unfold serialise_to_json_value.
  destruct (serialisable v) as [s|] eqn:Es.
  - destruct v; simplify_eq/=; [intros [= <-]; apply serialise_identifier_json|].
    intros Hs. by eapply Hobj.
  - destruct (is_json_value v) eqn:Ev; [|apply Hfb].
    intros [= <-]. by apply is_json_value_spec.
Qed.

Lemma serialise_json_id `{UserCode} v fallback :
  Json v -> serialise_to_json_value v fallback = Ok v.
Proof.
  intros Hv. unfold serialise_to_json_value.
  assert (is_json_value v = true) as -> by by apply is_json_value_spec.
  by destruct Hv.
Qed.

(** What [serialise_to_json_value] returns is a JSON value, as long as objects and
    fallbacks keep their side of the protocol, and serialising it again, with whatever
    fallback, returns it unchanged: what was stored is a fixed point of serialisation. *)
Theorem serialise_normalises `{UserCode} v fallback fallback' w :
  json_objects -> json_fallback fallback ->
  serialise_to_json_value v fallback = Ok w ->
  Json w /\ serialise_to_json_value w fallback' = Ok w.
Proof.
  intros Hobj Hfb Hw. apply (serialise_to_json_value_json _ _ _ Hobj Hfb) in Hw as Hj.
  split; [done|]. by apply serialise_json_id.
Qed.

Lemma serialise_normalises_witness :
  let v := VIdent (CategoryIdentifier "orders") in
  exists w, @serialise_to_json_value no_user_code v raising_serialisation_fallback = Ok w /\
    Json w /\ @serialise_to_json_value no_user_code w (@str_serialisation_fallback no_user_code) = Ok w.
Proof.
  intros v. eexists. split; [reflexivity|].
  apply (@serialise_normalises no_user_code v raising_serialisation_fallback
    (@str_serialisation_fallback no_user_code)).
  - intros o serialise fallback w Ho. discriminate Ho.
  - intros x w Hx. discriminate Hx.
  - reflexivity.
Defined.

Lemma json_object_not_array v : is_json_object v = true -> is_json_array v = false.
Proof. by destruct v. Qed.

Lemma primitive_match_builtin `{UserCode} klass v :
  builtin klass = true ->
  primitive_match klass v =
  match klass, v with
  | KStr, VStr _ | KInt, (VInt _ | VBool _) | KFloat, VFloat _
  | KBool, (VInt _ | VBool _) => true
  | _, _ => false
  end.
Proof. by destruct klass, v. Qed.

Lemma count_errors_spec {X} (check : X -> res bool) (ok : X -> bool) xs :
  (forall x, x ∈ xs -> check x = Ok (negb (ok x))) ->
  exists n, count_errors check xs = Ok n /\ (0 <? n)%nat = negb (forallb ok xs).
Proof.
  induction xs as [|x xs IH]; cbn; intros Hx; [by exists 0%nat|].
  destruct IH as (n & -> & Hn); [intros y Hy; apply Hx; by constructor|].
  rewrite Hx by constructor. cbn. eexists; split; [done|].
  by destruct (ok x); cbn.
Qed.

Definition raising_outcome (ok : bool) (v : Val) : res Val :=
  if ok then Ok v else raising_deserialisation_fallback KAny v.

Lemma raising_item ok v : item_error (raising_outcome ok v) = Ok (negb ok).
Proof. by destruct ok. Qed.

(** For a type built from the built-in ones, [deserialise_from_json_value] with the
    default fallback returns the value itself when the type accepts it, and raises
    ValueError otherwise; nested sequences and mappings are checked item by item. *)
Theorem deserialise_builtin `{UserCode} (klass : Klass) (v : Val) :
  builtin klass = true ->
  deserialise_from_json_value klass v raising_deserialisation_fallback =
  raising_outcome (accepts klass v) v.
Proof.
  revert v. induction klass as [| | | | | | | | | |item IH|key IHk item IH| | | |];
    intros v Hb; try discriminate Hb.
  11: {
    cbn [deserialise_from_json_value accepts]. rewrite primitive_match_builtin by done.
    rewrite bool_decide_eq_false_2 by done. cbn [andb orb isclass].
    destruct (is_json_array v) eqn:Ea; cbn [andb].
    - destruct (untyped item); [done|]. cbn [orb].
      destruct (count_errors_spec
        (fun w => item_error (deserialise_from_json_value item w
          raising_deserialisation_fallback)) (accepts item) (json_items v)) as (n & -> & Hn).
      { intros x _. rewrite IH by done. apply raising_item. }
      unfold mbind, res_bind. rewrite Hn. by destruct (forallb _ _).
    - by rewrite !andb_false_r. }
  11: {
    cbn [deserialise_from_json_value accepts]. rewrite primitive_match_builtin by done.
    rewrite bool_decide_eq_false_2 by done. cbn [andb orb isclass]. rewrite !andb_false_r.
    destruct (is_json_object v) eqn:Eo; cbn [andb].
    - destruct (bool_decide (key = KStr) && untyped item); [done|]. cbn [orb].
      edestruct (count_errors_spec (fun kv => match kv with
        | (VStr _, w) => item_error (deserialise_from_json_value item w
            raising_deserialisation_fallback)
        | (_, _) => Ok true end) (fun kv => accepts item kv.2) (json_entries v))
        as (n & -> & Hn).
      { intros [k w] Hkw. destruct v; try discriminate Eo. cbn in Eo, Hkw.
        rewrite forallb_forall in Eo. apply list_elem_of_In in Hkw.
        specialize (Eo _ Hkw). rewrite is_json_entry in Eo.
        destruct Eo as [[k' Hk] _]. cbn in Hk; subst k. cbn [snd].
        rewrite IH by done. apply raising_item. }
      unfold mbind, res_bind. rewrite Hn. by destruct (forallb _ _).
    - by rewrite ?andb_false_r. }
  all: cbn [deserialise_from_json_value accepts]; rewrite primitive_match_builtin by done.
  all: destruct v; try reflexivity; cbn; by destruct (forallb _ _).
Qed.

Definition sequence_identifier (i : EventSourceIdentifier) : bool :=
  match i with LogIdentifier | CategoryIdentifier _ | StreamIdentifier _ _ => true | _ => false end.

(** Serialised log, category and stream identifiers parse back to themselves, and the
    serialised partition identifiers are refused with ValueError. *)
Theorem event_sequence_identifier_roundtrip `{UserCode} (i : EventSourceIdentifier) :
  event_sequence_identifier (serialise_identifier i) =
  if sequence_identifier i then Ok i
  else Raise (ValueError "Invalid serialised event sequence identifier.").
Proof. by destruct i as [|[]| |? []|]. Qed.

(** Serialisation separates two identifiers unless both are category partitions: their
    serialised form leaves the category out, so partitions of different categories with
    the same partition are stored as the same value. *)
Theorem serialise_identifier_injective (i j : EventSourceIdentifier) :
  serialise_identifier i = serialise_identifier j <->
  i = j \/ exists c c' p,
    i = CategoryPartitionIdentifier c p /\ j = CategoryPartitionIdentifier c' p.
Proof.
  split.
  - destruct i as [|[]| |? []|], j as [|[]| |? []|]; cbn; intros; simplify_eq; eauto 6.
  - by intros [->|(? & ? & ? & -> & ->)].
Qed.

Lemma deserialise_builtin_witness :
  builtin KStr = true /\
  @deserialise_from_json_value no_user_code KStr (VInt 3) raising_deserialisation_fallback =
  raising_outcome (accepts KStr (VInt 3)) (VInt 3).
Proof. split; [reflexivity|apply (@deserialise_builtin no_user_code); reflexivity]. Defined.
