(* ===== verification/Events.v ===== *)
(** Events and projections as data: [types/event.py] and [types/projection.py]. *)
From S2P Require Import Prelude Values Conversion.

(** ** [types/event.py] *)

(** Datetimes are microseconds since the epoch, in UTC. *)
Record NewEvent := mkNewEvent {
  ne_name : Val;
  ne_payload : Val;
  ne_observed_at : Z;
  ne_occurred_at : Z
}.

(** [NewEvent.__init__]: the clock is read only when no observation time is given, and
    the occurrence time defaults to the observation time. *)
Definition new_event (name payload : Val) (observed_at occurred_at : option Z)
    (clock_now : Z) : NewEvent :=
  let observed_at := match observed_at with Some t => t | None => clock_now end in
  let occurred_at := match occurred_at with Some t => t | None => observed_at end in
  mkNewEvent name payload observed_at occurred_at.

Record StoredEvent := mkStoredEvent {
  se_id : string;
  se_name : Val;
  se_stream : string;
  se_category : string;
  se_position : Z;
  se_sequence_number : Z;
  se_payload : Val;
  se_observed_at : Z;
  se_occurred_at : Z
}.

Definition se_identifier (e : StoredEvent) : EventSourceIdentifier :=
  StreamIdentifier (se_category e) (se_stream e).

Definition serialise_new_event `{UserCode} (e : NewEvent) (fallback : Val -> res Val)
    : res Val :=
  name ← serialise_to_json_value (ne_name e) fallback;
  payload ← serialise_to_json_value (ne_payload e) fallback;
  Ok (mk_obj [("name", name); ("payload", payload);
              ("observed_at", VStr (isoformat (ne_observed_at e)));
              ("occurred_at", VStr (isoformat (ne_occurred_at e)))]%string).

Definition summarise_new_event `{UserCode} (e : NewEvent) : Val :=
  mk_obj [("name", ne_name e);
          ("observed_at", VStr (isoformat (ne_observed_at e)));
          ("occurred_at", VStr (isoformat (ne_occurred_at e)))]%string.

Definition stored_event_fields `{UserCode} (e : StoredEvent) (name : Val)
    (payload : list (string * Val)) : Val :=
  mk_obj ([("id", VStr (se_id e)); ("name", name); ("stream", VStr (se_stream e));
           ("category", VStr (se_category e)); ("position", VInt (se_position e));
           ("sequence_number", VInt (se_sequence_number e))]%string
          ++ payload ++
          [("observed_at", VStr (isoformat (se_observed_at e)));
           ("occurred_at", VStr (isoformat (se_occurred_at e)))]%string).

Definition serialise_stored_event_value `{UserCode} (e : StoredEvent)
    (fallback : Val -> res Val) : res Val :=
  name ← serialise_to_json_value (se_name e) fallback;
  payload ← serialise_to_json_value (se_payload e) fallback;
  Ok (stored_event_fields e name [("payload"%string, payload)]).

Definition summarise_stored_event `{UserCode} (e : StoredEvent) : res Val :=
  name ← serialise_to_json_value (se_name e) raising_serialisation_fallback;
  Ok (stored_event_fields e name []).

(** [serialise_stored_event]: the same event with name and payload as JSON values. *)
Definition serialise_stored_event `{UserCode} (e : StoredEvent) (fallback : Val -> res Val)
    : res StoredEvent :=
  name ← serialise_to_json_value (se_name e) fallback;
  payload ← serialise_to_json_value (se_payload e) fallback;
  Ok (mkStoredEvent (se_id e) name (se_stream e) (se_category e) (se_position e)
        (se_sequence_number e) payload (se_observed_at e) (se_occurred_at e)).

(** ** [types/projection.py] *)

Record Projection := mkProjection {
  pr_id : string;
  pr_name : string;
  pr_source : EventSourceIdentifier;
  pr_state : Val;
  pr_metadata : Val
}.

Definition serialise_projection_value `{UserCode} (p : Projection)
    (fallback : Val -> res Val) : res Val :=
  state ← serialise_to_json_value (pr_state p) fallback;
  metadata ← serialise_to_json_value (pr_metadata p) fallback;
  Ok (mk_obj [("id", VStr (pr_id p)); ("name", VStr (pr_name p));
              ("source", serialise_identifier (pr_source p));
              ("state", state); ("metadata", metadata)]%string).

Definition summarise_projection (p : Projection) : Val :=
  mk_obj [("id", VStr (pr_id p)); ("name", VStr (pr_name p));
          ("source", serialise_identifier (pr_source p))]%string.

Definition serialise_projection `{UserCode} (p : Projection) (fallback : Val -> res Val)
    : res Projection :=
  state ← serialise_to_json_value (pr_state p) fallback;
  metadata ← serialise_to_json_value (pr_metadata p) fallback;
  Ok (mkProjection (pr_id p) (pr_name p) (pr_source p) state metadata).

Definition deserialise_projection `{UserCode} (p : Projection)
    (state_type metadata_type : Klass)
    (state_fallback metadata_fallback : Klass -> Val -> res Val) : res Projection :=
  state ← deserialise_from_json_value state_type (pr_state p) state_fallback;
  metadata ← deserialise_from_json_value metadata_type (pr_metadata p) metadata_fallback;
  Ok (mkProjection (pr_id p) (pr_name p) (pr_source p) state metadata).

(** ** Properties *)

Definition json_projection (p : Projection) : Prop := Json (pr_state p) /\ Json (pr_metadata p).

Lemma deserialise_json_value_type `{UserCode} v fallback :
  Json v -> deserialise_from_json_value KJsonValueType v fallback = Ok v.
Proof.
  intros Hv%is_json_value_spec. cbn [deserialise_from_json_value].
  rewrite primitive_match_builtin by done. cbn [isclass andb orb].
  rewrite !andb_false_r, Hv. by case_match.
Qed.

(** A projection whose state and metadata are JSON survives storage: serialising and
    then deserialising it at the JSON type gives it back, whatever the fallbacks. *)
Theorem projection_roundtrip `{UserCode} (p : Projection) (fallback : Val -> res Val)
    (state_fallback metadata_fallback : Klass -> Val -> res Val) :
  json_projection p ->
  (serialise_projection p fallback ≫= fun q =>
    deserialise_projection q KJsonValueType KJsonValueType state_fallback metadata_fallback)
  = Ok p.
Proof.
  intros [Hs Hm]. unfold serialise_projection, deserialise_projection, mbind, res_bind.
  rewrite !serialise_json_id by done. cbn [pr_state pr_metadata].
  rewrite !deserialise_json_value_type by done. by destruct p.
Qed.

Lemma projection_roundtrip_witness :
  let p := mkProjection "1" "totals" (CategoryIdentifier "orders")
             (mk_obj [("count"%string, VInt 3)]) VNone in
  json_projection p /\
  (@serialise_projection no_user_code p raising_serialisation_fallback ≫= fun q =>
    @deserialise_projection no_user_code q KJsonValueType KJsonValueType
      raising_deserialisation_fallback raising_deserialisation_fallback) = Ok p.
Proof.
  assert (json_projection (mkProjection "1" "totals" (CategoryIdentifier "orders")
             (mk_obj [("count"%string, VInt 3)]) VNone)) as H.
  { split; by apply is_json_value_spec. }
  split; [exact H|].
  apply (@projection_roundtrip no_user_code _ raising_serialisation_fallback
    raising_deserialisation_fallback raising_deserialisation_fallback H).
Defined.
