(* ===== verification/TestData.v ===== *)
(** The data and the builders the library gives to tests ([testing/data.py] and
    [testing/builders.py]), over a source of random values. *)
From Stdlib Require Import Ascii.
From S2P Require Import Prelude Values Conversion Events.

(** ** [random] and [uuid4] *)

(** The generator's state is threaded through: [random.randint], [random.choices] of the
    characters of a string, joined, and [str(uuid4())]. *)
Class RandomSource (G : Type) := {
  randint : Z -> Z -> ST G Z;
  choices : list ascii -> Z -> ST G (list ascii);
  uuid4 : ST G string
}.

(** What is documented of them: the bounds are both included, as many characters are chosen
    as are asked for, none for a negative number, and an identifier is 36 characters. *)
Class RandomSourceLaws (G : Type) `{RandomSource G} := {
  randint_law : forall low high g, (low <= high)%Z ->
    exists n g', randint low high g = (Ok n, g') /\ (low <= n <= high)%Z;
  choices_law : forall characters k g, characters <> [] ->
    exists l g', choices characters k g = (Ok l, g') /\ length l = Z.to_nat k /\
      Forall (fun c => c ∈ characters) l;
  uuid4_law : forall g, exists s g', uuid4 g = (Ok s, g') /\ String.length s = 36
}.

(** ** [testing/data.py] *)

Definition ascii_lowercase : list ascii := String.list_ascii_of_string "abcdefghijklmnopqrstuvwxyz".
Definition ascii_uppercase : list ascii := String.list_ascii_of_string "ABCDEFGHIJKLMNOPQRSTUVWXYZ".
Definition digits : list ascii := String.list_ascii_of_string "0123456789".

Section data.
Context {G : Type} `{RandomSource G}.

Definition join_strings (chars : list ascii) : string := String.string_of_list_ascii chars.

Definition random_int (min max : Z) : ST G Z := randint min max.

Definition random_string (characters : list ascii) (length : Z) : ST G string :=
  chars ← choices characters length; mret (join_strings chars).

Definition random_lowercase_ascii_alphabetics_string (length : Z) : ST G string :=
  random_string ascii_lowercase length.
Definition random_uppercase_ascii_alphabetics_string (length : Z) : ST G string :=
  random_string ascii_uppercase length.
Definition random_ascii_alphanumerics_string (length : Z) : ST G string :=
  random_string (ascii_lowercase ++ ascii_uppercase ++ digits) length.

Definition random_hyphenated_lowercase_ascii_alphabetics_string (length : Z) : ST G string :=
  if decide (length = 1%Z) then random_lowercase_ascii_alphabetics_string length
  else
    first ← random_lowercase_ascii_alphabetics_string 1;
    last ← random_lowercase_ascii_alphabetics_string 1;
    rest ← random_string (ascii_lowercase ++ ["-"%char]) (length - 2);
    mret (first +:+ rest +:+ last).

Definition random_uuid4_string : ST G string := uuid4.

Definition random_event_category_name : ST G string :=
  random_hyphenated_lowercase_ascii_alphabetics_string 10.
Definition random_event_stream_name : ST G string :=
  random_hyphenated_lowercase_ascii_alphabetics_string 42.
Definition random_event_name : ST G string :=
  random_hyphenated_lowercase_ascii_alphabetics_string 15.
Definition random_event_id : ST G string := random_uuid4_string.
Definition random_event_position : ST G Z := random_int 0 9999999.
Definition random_event_sequence_number : ST G Z := random_int 0 999999999999999999.

(** The comprehension of the mappings: as many rounds as [range] says, an entry each; an entry
    with a key that is there replaces it. *)
Fixpoint random_entries (rounds : nat) (entries : dict string string) :
    ST G (dict string string) :=
  match rounds with
  | O => mret entries
  | S rounds =>
      key ← random_lowercase_ascii_alphabetics_string 10;
      value ← random_ascii_alphanumerics_string 20;
      random_entries rounds (dict_set entries key value)
  end.

Definition random_mapping : ST G Val :=
  rounds ← random_int 1 10;
  entries ← random_entries (Z.to_nat rounds) [];
  mret (mk_obj ((fun entry => (entry.1, VStr entry.2)) <$> entries)).

Definition random_event_payload : ST G Val := random_mapping.
Definition random_projection_id : ST G string := random_uuid4_string.
Definition random_projection_name : ST G string :=
  random_hyphenated_lowercase_ascii_alphabetics_string 15.
Definition random_projection_state : ST G Val := random_mapping.
Definition random_projection_metadata : ST G Val := random_mapping.
Definition random_node_id : ST G string := random_uuid4_string.
Definition random_subscriber_group : ST G string :=
  random_hyphenated_lowercase_ascii_alphabetics_string 15.
Definition random_subscriber_id : ST G string := random_uuid4_string.
End data.

(** ** [utils/clock.py] *)

(** Instants are microseconds; [astimezone] keeps them. *)
Record StaticClock := mkStaticClock { static_now : Z }.
Definition static_set (now : Z) (clock : StaticClock) : StaticClock := mkStaticClock now.

Record TimezoneRequiredStaticClock := mkTimezoneClock {
  required_clock : StaticClock;
  required_tz : string
}.
Definition timezone_set (now : Z) (clock : TimezoneRequiredStaticClock) :
    TimezoneRequiredStaticClock :=
  mkTimezoneClock (static_set now (required_clock clock)) (required_tz clock).
Definition timezone_now (tz : option string) (clock : TimezoneRequiredStaticClock) : res Z :=
  if decide (tz = Some (required_tz clock)) then Ok (static_now (required_clock clock))
  else Raise (ValueError
    ("Clock supports only " +:+ required_tz clock +:+ " which must be provided.")).

(** ** [testing/builders.py] *)

(** [bool(value)], given that of an object of a class of the user's. *)
Class ObjectTruth := object_truth : Obj -> bool.
Definition truth `{ObjectTruth} (value : Val) : bool :=
  match value with
  | VNone | VBool false | VInt 0 | VFloat (FFin 0 _) => false
  | VStr EmptyString | VList [] | VTuple [] | VDict [] => false
  | VObj o => object_truth o
  | _ => true
  end.

(** [value or default()]. *)
Definition value_or {G} `{ObjectTruth} (value : Val) (default : ST G Val) : ST G Val :=
  if truth value then mret value else default.
Definition string_or {G} (value : option string) (default : ST G string) : ST G string :=
  match value with
  | Some (String c s) => mret (String c s)
  | _ => default
  end.
(** [value if value is not None else default()]. *)
Definition or_else {G A} (value : option A) (default : ST G A) : ST G A :=
  match value with Some value => mret value | None => default end.

Section builders.
Context {G : Type} `{RandomSource G} `{ObjectTruth}.

(** *** [NewEventBuilder] *)

Record NewEventBuilder := mkNewEventBuilder {
  nb_name : Val;
  nb_payload : Val;
  nb_occurred_at : option Z;
  nb_observed_at : option Z
}.

(** [__init__], with [None] for what is not given. *)
Definition new_event_builder (name payload : Val) (occurred_at observed_at : option Z) :
    ST G NewEventBuilder :=
  name ← value_or name (name ← random_event_name; mret (VStr name));
  payload ← value_or payload random_event_payload;
  mret (mkNewEventBuilder name payload occurred_at observed_at).

(** [NewEventBuilderParams]: each if it is given. *)
Record NewEventBuilderParams := mkNewEventBuilderParams {
  np_name : option Val;
  np_payload : option Val;
  np_occurred_at : option (option Z);
  np_observed_at : option (option Z)
}.

Definition clone_new (builder : NewEventBuilder) (kwargs : NewEventBuilderParams) :
    ST G NewEventBuilder :=
  new_event_builder (default (nb_name builder) (np_name kwargs))
    (default (nb_payload builder) (np_payload kwargs))
    (default (nb_occurred_at builder) (np_occurred_at kwargs))
    (default (nb_observed_at builder) (np_observed_at kwargs)).

Definition new_with_name (builder : NewEventBuilder) (name : Val) :
    ST G NewEventBuilder :=
  clone_new builder (mkNewEventBuilderParams (Some name) None None None).
Definition new_with_payload (builder : NewEventBuilder) (payload : Val) :
    ST G NewEventBuilder :=
  clone_new builder (mkNewEventBuilderParams None (Some payload) None None).
Definition new_with_occurred_at (builder : NewEventBuilder) (occurred_at : option Z) :
    ST G NewEventBuilder :=
  clone_new builder (mkNewEventBuilderParams None None (Some occurred_at) None).
Definition new_with_observed_at (builder : NewEventBuilder) (observed_at : option Z) :
    ST G NewEventBuilder :=
  clone_new builder (mkNewEventBuilderParams None None None (Some observed_at)).

Definition build_new_event (builder : NewEventBuilder) (clock_now : Z) : NewEvent :=
  new_event (nb_name builder) (nb_payload builder) (nb_observed_at builder)
    (nb_occurred_at builder) clock_now.

(** *** [StoredEventBuilder] *)

Record StoredEventBuilder := mkStoredEventBuilder {
  eb_id : string;
  eb_name : Val;
  eb_stream : string;
  eb_category : string;
  eb_position : Z;
  eb_sequence_number : Z;
  eb_payload : Val;
  eb_occurred_at : Z;
  eb_observed_at : Z
}.

(** The keyword arguments of [__init__], each as [None] if it is not given. *)
Record StoredEventArguments := mkStoredEventArguments {
  ea_id : option string;
  ea_name : Val;
  ea_stream : option string;
  ea_category : option string;
  ea_position : option Z;
  ea_sequence_number : option Z;
  ea_payload : Val;
  ea_occurred_at : option Z;
  ea_observed_at : option Z
}.

Definition stored_event_builder (arguments : StoredEventArguments) (clock_now : Z) :
    ST G StoredEventBuilder :=
  let observed_at := default clock_now (ea_observed_at arguments) in
  let occurred_at := default observed_at (ea_occurred_at arguments) in
  id ← string_or (ea_id arguments) random_event_id;
  name ← value_or (ea_name arguments) (name ← random_event_name; mret (VStr name));
  stream ← string_or (ea_stream arguments) random_event_stream_name;
  category ← string_or (ea_category arguments) random_event_category_name;
  position ← or_else (ea_position arguments) random_event_position;
  sequence_number ← or_else (ea_sequence_number arguments) random_event_sequence_number;
  payload ← value_or (ea_payload arguments) random_event_payload;
  mret (mkStoredEventBuilder id name stream category position sequence_number payload
    occurred_at observed_at).

(** [StoredEventBuilderParams]: each if it is given. *)
Record StoredEventBuilderParams := mkStoredEventBuilderParams {
  ep_id : option string;
  ep_name : option Val;
  ep_stream : option string;
  ep_category : option string;
  ep_position : option Z;
  ep_sequence_number : option Z;
  ep_payload : option Val;
  ep_occurred_at : option (option Z);
  ep_observed_at : option (option Z)
}.

(** The clone reads the system's clock, whatever clock the builder was made with. *)
Definition clone_stored (builder : StoredEventBuilder) (kwargs : StoredEventBuilderParams)
    (system_now : Z) : ST G StoredEventBuilder :=
  stored_event_builder (mkStoredEventArguments
    (Some (default (eb_id builder) (ep_id kwargs)))
    (default (eb_name builder) (ep_name kwargs))
    (Some (default (eb_stream builder) (ep_stream kwargs)))
    (Some (default (eb_category builder) (ep_category kwargs)))
    (Some (default (eb_position builder) (ep_position kwargs)))
    (Some (default (eb_sequence_number builder) (ep_sequence_number kwargs)))
    (default (eb_payload builder) (ep_payload kwargs))
    (default (Some (eb_occurred_at builder)) (ep_occurred_at kwargs))
    (default (Some (eb_observed_at builder)) (ep_observed_at kwargs))) system_now.

Definition from_new_event (builder : StoredEventBuilder) (event : NewEvent) :
    Z -> ST G StoredEventBuilder :=
  clone_stored builder (mkStoredEventBuilderParams None (Some (ne_name event)) None None None None
    (Some (ne_payload event)) (Some (Some (ne_occurred_at event)))
    (Some (Some (ne_observed_at event)))).

Definition stored_with_id (builder : StoredEventBuilder) (id : string) :
    Z -> ST G StoredEventBuilder :=
  clone_stored builder (mkStoredEventBuilderParams (Some id) None None None None None None None None).
Definition stored_with_name (builder : StoredEventBuilder) (name : Val) :
    Z -> ST G StoredEventBuilder :=
  clone_stored builder (mkStoredEventBuilderParams None (Some name) None None None None None None None).
Definition stored_with_stream (builder : StoredEventBuilder) (stream : string) :
    Z -> ST G StoredEventBuilder :=
  clone_stored builder (mkStoredEventBuilderParams None None (Some stream) None None None None None None).
Definition stored_with_category (builder : StoredEventBuilder) (category : string) :
    Z -> ST G StoredEventBuilder :=
  clone_stored builder (mkStoredEventBuilderParams None None None (Some category) None None None None None).
Definition stored_with_position (builder : StoredEventBuilder) (position : Z) :
    Z -> ST G StoredEventBuilder :=
  clone_stored builder (mkStoredEventBuilderParams None None None None (Some position) None None None None).
Definition stored_with_sequence_number (builder : StoredEventBuilder) (sequence_number : Z) :
    Z -> ST G StoredEventBuilder :=
  clone_stored builder (mkStoredEventBuilderParams None None None None None (Some sequence_number) None None None).
Definition stored_with_payload (builder : StoredEventBuilder) (payload : Val) :
    Z -> ST G StoredEventBuilder :=
  clone_stored builder (mkStoredEventBuilderParams None None None None None None (Some payload) None None).
Definition stored_with_occurred_at (builder : StoredEventBuilder) (occurred_at : option Z) :
    Z -> ST G StoredEventBuilder :=
  clone_stored builder (mkStoredEventBuilderParams None None None None None None None (Some occurred_at) None).
Definition stored_with_observed_at (builder : StoredEventBuilder) (observed_at : option Z) :
    Z -> ST G StoredEventBuilder :=
  clone_stored builder (mkStoredEventBuilderParams None None None None None None None None (Some observed_at)).

Definition build_stored_event (builder : StoredEventBuilder) : StoredEvent :=
  mkStoredEvent (eb_id builder) (eb_name builder) (eb_stream builder) (eb_category builder)
    (eb_position builder) (eb_sequence_number builder) (eb_payload builder)
    (eb_observed_at builder) (eb_occurred_at builder).

(** *** [BaseProjectionBuilder] *)

Record ProjectionBuilder := mkProjectionBuilder {
  pb_id : string;
  pb_name : string;
  pb_source : EventSourceIdentifier;
  pb_state : Val;
  pb_metadata : Val
}.

(** The abstract methods of a subclass. *)
Class ProjectionDefaults := {
  default_state_factory : ST G Val;
  default_metadata_factory : ST G Val
}.

Definition MappingProjectionBuilder : ProjectionDefaults := {|
  default_state_factory := random_projection_state;
  default_metadata_factory := random_projection_metadata
|}.

(** A value, unless it is [None]. *)
Definition not_none (value : Val) : option Val :=
  match value with VNone => None | _ => Some value end.

Definition projection_builder `{ProjectionDefaults} (id name : option string)
    (source : option EventSourceIdentifier) (state metadata : Val) : ST G ProjectionBuilder :=
  id ← or_else id random_projection_id;
  name ← or_else name random_projection_name;
  source ← or_else source (category ← random_event_category_name;
    stream ← random_event_stream_name; mret (StreamIdentifier category stream));
  state ← or_else (not_none state) default_state_factory;
  metadata ← or_else (not_none metadata) default_metadata_factory;
  mret (mkProjectionBuilder id name source state metadata).

(** [ProjectionBuilderParams]: each if it is given. *)
Record ProjectionBuilderParams := mkProjectionBuilderParams {
  pp_id : option string;
  pp_name : option string;
  pp_source : option EventSourceIdentifier;
  pp_state : option Val;
  pp_metadata : option Val
}.

Definition clone_projection `{ProjectionDefaults} (builder : ProjectionBuilder)
    (kwargs : ProjectionBuilderParams) : ST G ProjectionBuilder :=
  projection_builder (Some (default (pb_id builder) (pp_id kwargs)))
    (Some (default (pb_name builder) (pp_name kwargs)))
    (Some (default (pb_source builder) (pp_source kwargs)))
    (default (pb_state builder) (pp_state kwargs))
    (default (pb_metadata builder) (pp_metadata kwargs)).

Definition projection_with_id `{ProjectionDefaults} (builder : ProjectionBuilder)
    (id : string) : ST G ProjectionBuilder :=
  clone_projection builder (mkProjectionBuilderParams (Some id) None None None None).
Definition projection_with_name `{ProjectionDefaults} (builder : ProjectionBuilder)
    (name : string) : ST G ProjectionBuilder :=
  clone_projection builder (mkProjectionBuilderParams None (Some name) None None None).
Definition projection_with_source `{ProjectionDefaults} (builder : ProjectionBuilder)
    (source : EventSourceIdentifier) : ST G ProjectionBuilder :=
  clone_projection builder (mkProjectionBuilderParams None None (Some source) None None).
Definition projection_with_state `{ProjectionDefaults} (builder : ProjectionBuilder)
    (state : Val) : ST G ProjectionBuilder :=
  clone_projection builder (mkProjectionBuilderParams None None None (Some state) None).
Definition projection_with_metadata `{ProjectionDefaults} (builder : ProjectionBuilder)
    (metadata : Val) : ST G ProjectionBuilder :=
  clone_projection builder (mkProjectionBuilderParams None None None None (Some metadata)).

Definition build_projection (builder : ProjectionBuilder) : Projection :=
  mkProjection (pb_id builder) (pb_name builder) (pb_source builder) (pb_state builder)
    (pb_metadata builder).
End builders.

(** * Theorems *)

(** Whatever the state, a value such as this is returned. *)
Definition returns {G A} (m : ST G A) (P : A -> Prop) : Prop :=
  forall g, exists a g', m g = (Ok a, g') /\ P a.

Section returns.
Context {G : Type}.

Lemma returns_ret {A} (a : A) (P : A -> Prop) : P a -> returns (G := G) (mret a) P.
Proof. intros Ha g. by exists a, g. Qed.

Lemma returns_bind {A B} (m : ST G A) (f : A -> ST G B) P Q :
  returns m P -> (forall a, P a -> returns (f a) Q) -> returns (m ≫= f) Q.
Proof.
  intros Hm Hf g. destruct (Hm g) as (a & g1 & E & Ha). destruct (Hf a Ha g1) as (b & g2 & E2 & Hb).
  exists b, g2. split; [|done]. unfold mbind, ST_bind. by rewrite E.
Qed.

Lemma returns_ret_bind {A B} (a : A) (f : A -> ST G B) Q :
  returns (f a) Q -> returns (mret a ≫= f) Q.
Proof. done. Qed.

Lemma returns_weaken {A} (m : ST G A) (P Q : A -> Prop) :
  (forall a, P a -> Q a) -> returns m P -> returns m Q.
Proof. intros HPQ Hm g. destruct (Hm g) as (a & g' & E & Ha). exists a, g'. eauto. Qed.
End returns.

(** What a string is made of. *)
Definition made_of (characters : list ascii) (n : nat) (s : string) : Prop :=
  String.length s = n /\ Forall (fun c => c ∈ characters) (String.list_ascii_of_string s).

Lemma list_ascii_app s1 s2 :
  String.list_ascii_of_string (s1 +:+ s2) =
  String.list_ascii_of_string s1 ++ String.list_ascii_of_string s2.
Proof.
  induction s1 as [|c s1 IH]; [done|].
  change (String c s1 +:+ s2) with (String c (s1 +:+ s2)). cbn. by rewrite IH.
Qed.

Lemma string_length_list s : String.length s = length (String.list_ascii_of_string s).
Proof. induction s as [|c s IH]; cbn; [done|]. by rewrite IH. Qed.

Lemma made_of_app characters n1 n2 s1 s2 :
  made_of characters n1 s1 -> made_of characters n2 s2 ->
  made_of characters (n1 + n2) (s1 +:+ s2).
Proof.
  unfold made_of. rewrite !string_length_list, list_ascii_app, length_app, Forall_app. naive_solver lia.
Qed.

Lemma made_of_weaken characters characters' n s :
  characters ⊆ characters' -> made_of characters n s -> made_of characters' n s.
Proof.
  intros Hsub [Hn Hs]. split; [done|]. eapply Forall_impl; [exact Hs|]. intros c. apply Hsub.
Qed.

Lemma dict_set_length (d : dict string string) k v :
  length (dict_set d k v) <= S (length d).
Proof.
  induction d as [|[k' v'] d IH]; cbn; [done|]. case_decide; cbn; lia.
Qed.

Section data_theory.
Context {G : Type} `{RandomSourceLaws G}.

Lemma random_string_ok characters k :
  characters <> [] -> returns (random_string characters k) (made_of characters (Z.to_nat k)).
Proof.
  intros Hne. unfold random_string.
  apply returns_bind with (P := fun l => length l = Z.to_nat k /\ Forall (fun c => c ∈ characters) l).
  - intros g. by apply choices_law.
  - intros l Hl. apply returns_ret. unfold made_of, join_strings.
    by rewrite string_length_list, String.list_ascii_of_string_of_list_ascii.
Qed.

(** A hyphenated name: letters and hyphens, with a letter at each end. *)
Definition hyphenated (n : nat) (s : string) : Prop :=
  made_of (ascii_lowercase ++ ["-"%char]) n s /\
  (exists c s', s = String c s' /\ c ∈ ascii_lowercase) /\
  exists c s', s = s' +:+ String c EmptyString /\ c ∈ ascii_lowercase.

Lemma one_letter s :
  made_of ascii_lowercase 1 s -> exists c, s = String c EmptyString /\ c ∈ ascii_lowercase.
Proof.
  intros [Hn Hs]. destruct s as [|c [|]]; try discriminate Hn. exists c.
  by apply Forall_cons in Hs as [? _].
Qed.

Lemma letters_hyphenated n s :
  made_of ascii_lowercase n s -> made_of (ascii_lowercase ++ ["-"%char]) n s.
Proof. apply made_of_weaken. intros c Hc. apply elem_of_app. by left. Qed.

Lemma hyphenated_ok k :
  (1 <= k)%Z ->
  returns (random_hyphenated_lowercase_ascii_alphabetics_string k) (hyphenated (Z.to_nat k)).
Proof.
  intros Hk. unfold random_hyphenated_lowercase_ascii_alphabetics_string. case_decide as H1.
  - subst k. eapply returns_weaken; [|by apply random_string_ok].
    intros s Hs. destruct (one_letter s Hs) as (c & -> & Hc). split.
    { by apply letters_hyphenated. }
    split; [by exists c, EmptyString|by exists c, EmptyString].
  - eapply returns_bind; [by apply random_string_ok|]. intros s1 Hs1.
    eapply returns_bind; [by apply random_string_ok|]. intros s2 Hs2.
    eapply returns_bind; [by apply random_string_ok|]. intros s3 Hs3. apply returns_ret.
    destruct (one_letter s1 Hs1) as (c1 & -> & Hc1), (one_letter s2 Hs2) as (c2 & -> & Hc2).
    split; [|split; [by exists c1, (s3 +:+ String c2 EmptyString)
                    |by exists c2, (String c1 s3)]].
    replace (Z.to_nat k) with (1 + (Z.to_nat (k - 2) + 1)) by lia.
    apply (made_of_app _ 1 (Z.to_nat (k - 2) + 1)); [by apply letters_hyphenated|].
    apply made_of_app; [exact Hs3|by apply letters_hyphenated].
Qed.

Lemma random_entries_ok rounds entries :
  NoDup (dict_keys entries) -> (rounds <> O \/ entries <> []) ->
  returns (random_entries rounds entries) (fun entries' =>
    entries' <> [] /\ NoDup (dict_keys entries') /\ length entries' <= length entries + rounds).
Proof.
  revert entries. induction rounds as [|rounds IH]; intros entries Hnd Hne.
  - apply returns_ret. split; [naive_solver|]. split; [done|lia].
  - eapply returns_bind; [by apply random_string_ok|]. intros key _.
    eapply returns_bind; [by apply random_string_ok|]. intros value _.
    eapply returns_weaken; [|apply IH; [by apply dict_set_NoDup|right]].
    + intros l (Hl & Hndl & Hlen). split_and!; [done..|].
      pose proof (dict_set_length entries key value). lia.
    + intros Hempty. pose proof (dict_get_set_eq entries key value) as Hget.
      by rewrite Hempty in Hget.
Qed.

(** A payload: between one and ten entries, each key once. *)
Definition some_entries (value : Val) : Prop :=
  exists entries : dict string string, value = mk_obj ((fun e => (e.1, VStr e.2)) <$> entries) /\
    NoDup (dict_keys entries) /\ 1 <= length entries <= 10.

Lemma random_mapping_ok : returns random_mapping some_entries.
Proof.
  unfold random_mapping.
  apply returns_bind with (P := fun n => (1 <= n <= 10)%Z); [intros g; by apply randint_law|].
  intros n Hn. eapply returns_bind; [apply random_entries_ok; [apply NoDup_nil_2|left; lia]|].
  intros entries (Hne & Hnd & Hlen). apply returns_ret. exists entries. split_and!; [done..| |].
  - destruct entries; [done|]. cbn. lia.
  - cbn in Hlen. lia.
Qed.

Lemma some_entries_truth `{ObjectTruth} value : some_entries value -> truth value = true.
Proof. intros (entries & -> & _ & Hlen). destruct entries; [cbn in Hlen; lia|done]. Qed.
End data_theory.

(** ** Builders *)

Section builders_theory.
Context {G : Type} `{RandomSourceLaws G} `{ObjectTruth}.

Definition string_truth (s : string) : bool := negb (String.eqb s EmptyString).

(** What becomes of a value for a field that takes what is false for missing: it stays when
    it is true, and else there is one that is. *)
Definition kept_if_true {A} (truth : A -> bool) (value value' : A) : Prop :=
  if truth value then value' = value else truth value' = true.

Lemma kept_true {A} (truth : A -> bool) value value' :
  kept_if_true truth value value' -> truth value' = true.
Proof. unfold kept_if_true. destruct (truth value) eqn:E; [by intros ->|done]. Qed.

Lemma value_or_ok (value : Val) (m : ST G Val) :
  returns m (fun v => truth v = true) -> returns (value_or value m) (kept_if_true truth value).
Proof. intros Hm. unfold value_or, kept_if_true. destruct (truth value); [by apply returns_ret|done]. Qed.

Lemma string_or_ok (value : string) (m : ST G string) :
  returns m (fun s => string_truth s = true) ->
  returns (string_or (Some value) m) (kept_if_true string_truth value).
Proof. intros Hm. destruct value; [exact Hm|by apply returns_ret]. Qed.

Lemma hyphenated_truth n s : hyphenated n s -> string_truth s = true.
Proof. by intros (_ & (c & s' & -> & _) & _). Qed.

Lemma random_names_ok k :
  (1 <= k)%Z -> returns (G := G) (random_hyphenated_lowercase_ascii_alphabetics_string k)
    (fun s => string_truth s = true).
Proof.
  intros Hk. eapply returns_weaken; [|by apply hyphenated_ok]. intros s. apply hyphenated_truth.
Qed.

Lemma random_name_value_ok :
  returns (G := G) (name ← random_event_name; mret (VStr name)) (fun v => truth v = true).
Proof.
  eapply returns_bind; [by apply random_names_ok|]. intros name Hname. apply returns_ret.
  by destruct name.
Qed.

Lemma random_uuid_ok : returns (G := G) random_uuid4_string (fun s => string_truth s = true).
Proof. intros g. destruct (uuid4_law g) as (s & g' & E & Hs). exists s, g'. by destruct s. Qed.

Lemma random_payload_ok : returns (G := G) random_event_payload (fun v => truth v = true).
Proof. eapply returns_weaken; [|apply random_mapping_ok]. intros v. apply some_entries_truth. Qed.

(** The builders there are: their strings are not empty, their name and payload not false. *)
Record builder_ok (builder : StoredEventBuilder) : Prop := {
  bo_id : string_truth (eb_id builder) = true;
  bo_name : truth (eb_name builder) = true;
  bo_stream : string_truth (eb_stream builder) = true;
  bo_category : string_truth (eb_category builder) = true;
  bo_payload : truth (eb_payload builder) = true
}.

(** What a clone has of the builder and the changes. *)
Record cloned (builder : StoredEventBuilder) (kwargs : StoredEventBuilderParams) (system_now : Z)
    (builder' : StoredEventBuilder) : Prop := {
  cl_id : kept_if_true string_truth (default (eb_id builder) (ep_id kwargs)) (eb_id builder');
  cl_name : kept_if_true truth (default (eb_name builder) (ep_name kwargs)) (eb_name builder');
  cl_stream : kept_if_true string_truth (default (eb_stream builder) (ep_stream kwargs))
    (eb_stream builder');
  cl_category : kept_if_true string_truth (default (eb_category builder) (ep_category kwargs))
    (eb_category builder');
  cl_position : eb_position builder' = default (eb_position builder) (ep_position kwargs);
  cl_sequence_number : eb_sequence_number builder' =
    default (eb_sequence_number builder) (ep_sequence_number kwargs);
  cl_payload : kept_if_true truth (default (eb_payload builder) (ep_payload kwargs))
    (eb_payload builder');
  cl_observed_at : eb_observed_at builder' =
    default system_now (default (Some (eb_observed_at builder)) (ep_observed_at kwargs));
  cl_occurred_at : eb_occurred_at builder' =
    default (eb_observed_at builder') (default (Some (eb_occurred_at builder)) (ep_occurred_at kwargs))
}.

Lemma clone_stored_ok builder kwargs system_now :
  returns (clone_stored builder kwargs system_now)
    (fun builder' => cloned builder kwargs system_now builder' /\ builder_ok builder').
Proof.
  unfold clone_stored, stored_event_builder. cbn [ea_id ea_name ea_stream ea_category ea_position
    ea_sequence_number ea_payload ea_occurred_at ea_observed_at or_else].
  eapply returns_bind; [apply string_or_ok, random_uuid_ok|]. intros id Hid.
  eapply returns_bind; [apply value_or_ok, random_name_value_ok|]. intros name Hname.
  eapply returns_bind; [by apply string_or_ok, random_names_ok|]. intros stream Hstream.
  eapply returns_bind; [by apply string_or_ok, random_names_ok|]. intros category Hcategory.
  do 2 apply returns_ret_bind.
  eapply returns_bind; [apply value_or_ok, random_payload_ok|]. intros payload Hpayload.
  apply returns_ret. split; split; try done; by eapply kept_true.
Qed.

(** An event built from a new event has its times, and the place and id of the builder; it
    has its name and payload unless they are false values. An empty payload or name is taken
    for none at all: the event is built with a random one instead, never with it. *)
Theorem from_new_event_keeps builder event system_now :
  builder_ok builder ->
  returns (from_new_event builder event system_now) (fun builder' =>
    builder_ok builder' /\
    let built := build_stored_event builder' in
    se_id built = eb_id builder /\ se_stream built = eb_stream builder /\
    se_category built = eb_category builder /\ se_position built = eb_position builder /\
    se_sequence_number built = eb_sequence_number builder /\
    se_observed_at built = ne_observed_at event /\ se_occurred_at built = ne_occurred_at event /\
    (se_name built = ne_name event <-> truth (ne_name event) = true) /\
    (se_payload built = ne_payload event <-> truth (ne_payload event) = true)).
Proof.
  intros [Hid _ Hstream Hcategory _]. eapply returns_weaken; [|apply clone_stored_ok].
  intros b' [[Cid Cname Cstream Ccategory Cposition Cnumber Cpayload Cobserved Coccurred] Hok].
  split; [done|]. cbn in *. unfold kept_if_true in *.
  rewrite Hid in Cid. rewrite Hstream in Cstream. rewrite Hcategory in Ccategory.
  split_and!; try done.
  - destruct (truth (ne_name event)) eqn:E; [done|]. split; [congruence|done].
  - destruct (truth (ne_payload event)) eqn:E; [done|]. split; [congruence|done].
Qed.
End builders_theory.

(** ** Witness *)

Module test_data_examples.

(** A source that counts. *)
Definition counting_identifier : string := "00000000-0000-4000-8000-000000000000".

#[local] Instance counting : RandomSource nat := {|
  randint := fun low high g => (Ok (low + Z.of_nat g mod (high - low + 1))%Z, S g);
  choices := fun characters k g =>
    (Ok (replicate (Z.to_nat k) (default "a"%char (characters !! (g mod length characters)))), S g);
  uuid4 := fun g => (Ok counting_identifier, S g)
|}.

#[local] Instance counting_laws : RandomSourceLaws nat.
Proof.
  split.
  - intros low high g Hle. do 2 eexists. split; [reflexivity|].
    pose proof (Z.mod_pos_bound (Z.of_nat g) (high - low + 1)). lia.
  - intros characters k g Hne. do 2 eexists. split; [reflexivity|]. split; [apply length_replicate|].
    apply Forall_replicate. destruct (lookup_lt_is_Some_2 characters (g mod length characters)) as [c Hc].
    { apply Nat.mod_upper_bound. by destruct characters. }
    rewrite Hc. cbn. by eapply list_elem_of_lookup_2.
  - intros g. do 2 eexists. by split.
Defined.

#[local] Instance objects_true : ObjectTruth := fun _ => true.

Definition ordered_event : NewEvent := mkNewEvent (VStr "ordered") (VDict []) 20 10.
Definition orders_builder : StoredEventBuilder :=
  mkStoredEventBuilder "event-1" (VStr "any") "order-1" "orders" 3 7 (VStr "any") 0 0.

Lemma from_new_event_keeps_witness :
  exists builder' g', from_new_event orders_builder ordered_event 99 0 = (Ok builder', g') /\
    se_name (build_stored_event builder') = VStr "ordered" /\
    se_position (build_stored_event builder') = 3%Z /\
    se_payload (build_stored_event builder') <> VDict [].
Proof.
  assert (builder_ok orders_builder) as Hok by (split; reflexivity).
  destruct (from_new_event_keeps orders_builder ordered_event 99 Hok 0)
    as (builder' & g' & E & _ & _ & _ & _ & Hposition & _ & _ & _ & Hname & Hpayload).
  exists builder', g'. split_and!; [exact E|by apply Hname|exact Hposition|].
  intros Hempty. apply Hpayload in Hempty. discriminate Hempty.
Defined.
End test_data_examples.
