(* ===== verification/Conditions.v ===== *)
(** Write conditions ([store/conditions.py]), the type registry that turns them into
    enforcers ([persistence/converter.py]) and the enforcers of the in-memory adapter
    ([store/adapters/memory/converters.py]). *)
From S2P Require Import Prelude Values Events.

(** ** [store/conditions.py] *)

(** A [frozenset] of conditions is the list of its members in the order Python
    iterates over them; [wc_eqb] compares such lists as sets. *)
Inductive WriteCondition :=
  | AndCondition (conditions : list WriteCondition)
  | OrCondition (conditions : list WriteCondition)
  | NoCondition
  | PositionIsCondition (position : option Z)
  | EmptyStreamCondition
  | CustomCondition (class : string) (data : Z).

Section WriteCondition_induction.
Variable P : WriteCondition -> Prop.
Hypothesis (HAnd : forall cs, Forall P cs -> P (AndCondition cs))
  (HOr : forall cs, Forall P cs -> P (OrCondition cs)) (HNo : P NoCondition)
  (HPos : forall p, P (PositionIsCondition p)) (HEmpty : P EmptyStreamCondition)
  (HCustom : forall class data, P (CustomCondition class data)).

Fixpoint WriteCondition_nested_ind (c : WriteCondition) : P c :=
  let fix go (cs : list WriteCondition) : Forall P cs :=
    match cs with
    | [] => Forall_nil_2 P
    | c :: cs' => Forall_cons_2 P c cs' (WriteCondition_nested_ind c) (go cs')
    end in
  match c with
  | AndCondition cs => HAnd cs (go cs)
  | OrCondition cs => HOr cs (go cs)
  | NoCondition => HNo
  | PositionIsCondition p => HPos p
  | EmptyStreamCondition => HEmpty
  | CustomCondition class data => HCustom class data
  end.
End WriteCondition_induction.

(** Equality of the members of two sets, for the [__eq__] of the compound conditions. *)
Definition same_members (eqb : WriteCondition -> WriteCondition -> bool)
    (cs ds : list WriteCondition) : bool :=
  forallb (fun c => existsb (fun d => eqb c d) ds) cs &&
  forallb (fun d => existsb (fun c => eqb c d) cs) ds.

Fixpoint wc_eqb (a b : WriteCondition) {struct a} : bool :=
  match a, b with
  | AndCondition cs, AndCondition ds => same_members wc_eqb cs ds
  | OrCondition cs, OrCondition ds => same_members wc_eqb cs ds
  | NoCondition, NoCondition => true
  | PositionIsCondition p, PositionIsCondition q => bool_decide (p = q)
  | EmptyStreamCondition, EmptyStreamCondition => true
  | CustomCondition c x, CustomCondition d y => bool_decide (c = d) && bool_decide (x = y)
  | _, _ => false
  end.

(** [frozenset(conditions)]: an element equal to an earlier one is dropped. *)
Fixpoint frozenset_go (seen cs : list WriteCondition) : list WriteCondition :=
  match cs with
  | [] => []
  | c :: cs' =>
      if existsb (fun d => wc_eqb d c) seen then frozenset_go seen cs'
      else c :: frozenset_go (c :: seen) cs'
  end.
Definition frozenset (cs : list WriteCondition) : list WriteCondition := frozenset_go [] cs.

Inductive Combination := CombineAnd | CombineOr.

(** [combination_type.construct]. *)
Definition construct (k : Combination) (cs : list WriteCondition) : WriteCondition :=
  match k with
  | CombineAnd => AndCondition (frozenset cs)
  | CombineOr => OrCondition (frozenset cs)
  end.

(** [self.conditions] when [isinstance(self, combination_type)]. *)
Definition members_of (k : Combination) (c : WriteCondition) : option (list WriteCondition) :=
  match k, c with
  | CombineAnd, AndCondition cs => Some cs
  | CombineOr, OrCondition cs => Some cs
  | _, _ => None
  end.

Definition combine_conditions (self other : WriteCondition) (k : Combination)
    : WriteCondition :=
  match members_of k self, members_of k other with
  | Some cs, Some ds => construct k (cs ++ ds)
  | Some cs, None => construct k (cs ++ [other])
  | None, Some ds => construct k (self :: ds)
  | None, None => construct k [self; other]
  end.

Definition wc_and (self other : WriteCondition) : WriteCondition :=
  combine_conditions self other CombineAnd.
Definition wc_or (self other : WriteCondition) : WriteCondition :=
  combine_conditions self other CombineOr.

Definition position_is (position : option Z) : WriteCondition := PositionIsCondition position.
Definition stream_is_empty : WriteCondition := EmptyStreamCondition.

(** ** [persistence/converter.py]: [TypeRegistryConverter] *)
Section TypeRegistryConverter.
Context {I R : Type} (class_of : I -> string).

Definition registry_register (registry : gmap string (I -> res R)) (item_type : string)
    (converter : I -> res R) : gmap string (I -> res R) :=
  <[item_type := converter]> registry.

Definition registry_convert (registry : gmap string (I -> res R)) (item : I) : res R :=
  match registry !! class_of item with
  | None => Raise (ValueError ("No converter registered for type: " +:+ class_of item +:+ "."))
  | Some converter => converter item
  end.
End TypeRegistryConverter.

(** ** Enforcers ([store/adapters/memory/converters.py]) *)

Record WriteConditionEnforcerContext := mkContext {
  ctx_identifier : EventSourceIdentifier;
  ctx_latest_event : option StoredEvent
}.

Section enforcers.
(** The transaction handed to enforcers, which only custom ones use. *)
Context {T : Type}.

Definition WriteConditionEnforcer : Type := WriteConditionEnforcerContext -> T -> res ().

Definition NoConditionEnforcer : WriteConditionEnforcer := fun _ _ => Ok ().

Definition PositionIsConditionEnforcer (position : option Z) : WriteConditionEnforcer :=
  fun context _ =>
    let latest_position := se_position <$> ctx_latest_event context in
    raise_if (bool_decide (latest_position <> position))
      (UnmetWriteConditionError "unexpected stream position").

Definition EmptyStreamConditionEnforcer : WriteConditionEnforcer := fun context _ =>
  raise_if (bool_decide (ctx_latest_event context <> None))
    (UnmetWriteConditionError "stream is not empty").

Fixpoint AndConditionEnforcer (enforcers : list WriteConditionEnforcer)
    : WriteConditionEnforcer := fun context transaction =>
  match enforcers with
  | [] => Ok ()
  | enforcer :: rest =>
      _ ← enforcer context transaction;
      AndConditionEnforcer rest context transaction
  end.

(** The loop of [OrConditionEnforcer]: the first enforcer that is satisfied ends it, an
    unmet one is remembered (each overwrites the one before), others leave it. *)
Fixpoint or_enforce (enforcers : list WriteConditionEnforcer) (first_exception : option Exn)
    : WriteConditionEnforcer := fun context transaction =>
  match enforcers with
  | [] => match first_exception with Some e => Raise e | None => Ok () end
  | enforcer :: rest =>
      match enforcer context transaction with
      | Ok _ => Ok ()
      | Raise (UnmetWriteConditionError m) =>
          or_enforce rest (Some (UnmetWriteConditionError m)) context transaction
      | Raise e => Raise e
      end
  end.
Definition OrConditionEnforcer (enforcers : list WriteConditionEnforcer)
    : WriteConditionEnforcer := or_enforce enforcers None.

(** ** The condition registry *)

Definition wc_class (c : WriteCondition) : string :=
  match c with
  | AndCondition _ => "AndCondition"
  | OrCondition _ => "OrCondition"
  | NoCondition => "NoCondition"
  | PositionIsCondition _ => "PositionIsCondition"
  | EmptyStreamCondition => "EmptyStreamCondition"
  | CustomCondition class _ => class
  end.

(** A registered converter; the compound ones were built with the registry itself,
    whose [convert] they call on the conditions they hold. *)
Definition ConditionConverter : Type :=
  (WriteCondition -> res WriteConditionEnforcer) -> WriteCondition -> res WriteConditionEnforcer.

Definition NoConditionConverter : ConditionConverter := fun _ _ => Ok NoConditionEnforcer.
Definition PositionIsConditionConverter : ConditionConverter := fun _ item =>
  match item with
  | PositionIsCondition position => Ok (PositionIsConditionEnforcer position)
  | _ => Raise AttributeError
  end.
Definition EmptyStreamConditionConverter : ConditionConverter := fun _ _ =>
  Ok EmptyStreamConditionEnforcer.
Definition AndConditionConverter : ConditionConverter := fun condition_converter item =>
  match item with
  | AndCondition cs | OrCondition cs =>
      enforcers ← mapM condition_converter cs; Ok (AndConditionEnforcer enforcers)
  | _ => Raise AttributeError
  end.
Definition OrConditionConverter : ConditionConverter := fun condition_converter item =>
  match item with
  | AndCondition cs | OrCondition cs =>
      enforcers ← mapM condition_converter cs; Ok (OrConditionEnforcer enforcers)
  | _ => Raise AttributeError
  end.

Definition with_default_condition_converters (registry : gmap string ConditionConverter)
    : gmap string ConditionConverter :=
  <["OrCondition"%string := OrConditionConverter]>
  (<["AndCondition"%string := AndConditionConverter]>
  (<["EmptyStreamCondition"%string := EmptyStreamConditionConverter]>
  (<["PositionIsCondition"%string := PositionIsConditionConverter]>
  (<["NoCondition"%string := NoConditionConverter]> registry)))).

(** [TypeRegistryConditionConverter.convert]; the fuel bounds the nesting followed. *)
Fixpoint convert_condition_fuel (fuel : nat) (registry : gmap string ConditionConverter)
    (item : WriteCondition) : res WriteConditionEnforcer :=
  match fuel with
  | 0 => Raise (RuntimeError "maximum recursion depth exceeded")
  | S fuel =>
      match registry !! wc_class item with
      | None => Raise (ValueError
          ("No converter registered for type: " +:+ wc_class item +:+ "."))
      | Some converter => converter (convert_condition_fuel fuel registry) item
      end
  end.

Fixpoint wc_depth (c : WriteCondition) : nat :=
  match c with
  | AndCondition cs | OrCondition cs => S (foldr (fun c n => Nat.max (wc_depth c) n) 0 cs)
  | _ => 0
  end.

Definition convert_condition (registry : gmap string ConditionConverter)
    (item : WriteCondition) : res WriteConditionEnforcer :=
  convert_condition_fuel (S (wc_depth item)) registry item.
End enforcers.

Arguments WriteConditionEnforcer : clear implicits.
Arguments ConditionConverter : clear implicits.

(** ** Specification *)

(** What a condition asks of the stream's latest event. *)
Fixpoint satisfied (c : WriteCondition) (latest : option StoredEvent) : bool :=
  match c with
  | AndCondition cs => forallb (fun c => satisfied c latest) cs
  | OrCondition cs =>
      match cs with [] => true | _ => existsb (fun c => satisfied c latest) cs end
  | NoCondition => true
  | PositionIsCondition p => bool_decide (se_position <$> latest = p)
  | EmptyStreamCondition => bool_decide (latest = None)
  | CustomCondition _ _ => false
  end.

Fixpoint standard (c : WriteCondition) : bool :=
  match c with
  | AndCondition cs | OrCondition cs => forallb standard cs
  | CustomCondition _ _ => false
  | _ => true
  end.

(** The disjunctions Python code can build with [|] have members. *)
Definition or_nonempty (c : WriteCondition) : Prop := c <> OrCondition [].

(** The outcome of an enforcer that only ever raises [UnmetWriteConditionError]. *)
Definition enforces (ok : bool) (r : res ()) : Prop :=
  if ok then r = Ok () else exists m, r = Raise (UnmetWriteConditionError m).

(** ** Lemmas *)

Lemma forallb_list_ext {A} (f g : A -> bool) l :
  Forall (fun x => f x = g x) l -> forallb f l = forallb g l.
Proof. induction 1 as [|x l Hx _ IH]; cbn; [done|]. by rewrite Hx, IH. Qed.

Lemma forallb_elem {A} (f : A -> bool) l : forallb f l = true <-> forall x, x ∈ l -> f x = true.
Proof. rewrite forallb_forall. by setoid_rewrite list_elem_of_In. Qed.

Lemma existsb_elem {A} (f : A -> bool) l : existsb f l = true <-> exists x, x ∈ l /\ f x = true.
Proof. rewrite existsb_exists. by setoid_rewrite list_elem_of_In. Qed.

Lemma same_members_spec eqb cs ds :
  same_members eqb cs ds = true <->
  (forall c, c ∈ cs -> exists d, d ∈ ds /\ eqb c d = true) /\
  (forall d, d ∈ ds -> exists c, c ∈ cs /\ eqb c d = true).
Proof.
  unfold same_members. rewrite andb_true_iff, !forallb_elem.
  by setoid_rewrite existsb_elem.
Qed.

Lemma wc_eqb_refl c : wc_eqb c c = true.
Proof.
  induction c as [cs IH|cs IH| |p| |k x] using WriteCondition_nested_ind; cbn;
    rewrite ?bool_decide_eq_true_2 by done; try done;
    apply same_members_spec; rewrite Forall_forall in IH; split; intros d Hd; exists d; auto.
Qed.

(** Conditions that are equal as Python values ask the same of a stream. *)
Lemma wc_eqb_satisfied c d latest :
  wc_eqb c d = true -> satisfied c latest = satisfied d latest.
Proof.
  revert d. induction c as [cs IH|cs IH| |p| |k x] using WriteCondition_nested_ind;
    intros [ds|ds| |q| |k' x'] Heq; cbn in Heq; try done.
  - apply same_members_spec in Heq as [Hcd Hdc]. rewrite Forall_forall in IH.
    cbn. apply eq_bool_prop_intro. rewrite !Is_true_true, !forallb_elem. split.
    + intros Hc d Hd. destruct (Hdc d Hd) as (c & Hin & Hcd'). rewrite <-(IH c); auto.
    + intros Hd c Hc. destruct (Hcd c Hc) as (d & Hin & Hcd'). rewrite (IH c Hc d); auto.
  - apply same_members_spec in Heq as [Hcd Hdc]. rewrite Forall_forall in IH.
    assert (existsb (fun c => satisfied c latest) cs =
            existsb (fun d => satisfied d latest) ds) as He.
    { apply eq_bool_prop_intro. rewrite !Is_true_true, !existsb_elem. split.
      - intros (c & Hc & Hs). destruct (Hcd c Hc) as (d & Hd & E). exists d.
        by rewrite <-(IH c Hc d).
      - intros (d & Hd & Hs). destruct (Hdc d Hd) as (c & Hc & E). exists c.
        by rewrite (IH c Hc d). }
    cbn. destruct cs as [|c cs], ds as [|d ds]; try done.
    + destruct (Hdc d) as (? & ?%not_elem_of_nil & _); [constructor|done].
    + destruct (Hcd c) as (? & ?%not_elem_of_nil & _); [constructor|done].
  - apply bool_decide_eq_true in Heq. by subst.
Qed.

(** Building the frozenset keeps a member for every argument. *)
Lemma frozenset_go_spec seen cs c :
  (c ∈ frozenset_go seen cs -> c ∈ cs) /\
  (c ∈ cs -> exists d, (d ∈ seen \/ d ∈ frozenset_go seen cs) /\ wc_eqb d c = true).
Proof.
  revert seen. induction cs as [|e cs IH]; intros seen; cbn.
  { split; [done|by intros ?%not_elem_of_nil]. }
  destruct (existsb _ seen) eqn:Es; split.
  - intros Hc. right. by apply (proj1 (IH seen)).
  - intros [->|Hc]%elem_of_cons; [|by apply IH].
    apply existsb_elem in Es as (d & Hd & E). exists d. auto.
  - rewrite !elem_of_cons. intros [->|Hc]; [auto|right]. by apply (proj1 (IH (e :: seen))).
  - setoid_rewrite elem_of_cons. intros [->|Hc].
    + exists e. split; [auto|apply wc_eqb_refl].
    + destruct (proj2 (IH (e :: seen)) Hc) as (d & Hd & E). exists d.
      rewrite elem_of_cons in Hd. naive_solver.
Qed.

Lemma frozenset_forallb cs latest :
  forallb (fun c => satisfied c latest) (frozenset cs) =
  forallb (fun c => satisfied c latest) cs.
Proof.
  apply eq_bool_prop_intro. rewrite !Is_true_true, !forallb_elem. split; intros Hs c Hc.
  - destruct (proj2 (frozenset_go_spec [] cs c) Hc) as (d & [?%not_elem_of_nil|Hd] & E);
      [done|]. rewrite <-(wc_eqb_satisfied d c latest E). auto.
  - apply Hs. by apply (frozenset_go_spec [] cs c).
Qed.

Lemma frozenset_existsb cs latest :
  existsb (fun c => satisfied c latest) (frozenset cs) =
  existsb (fun c => satisfied c latest) cs.
Proof.
  apply eq_bool_prop_intro. rewrite !Is_true_true, !existsb_elem. split; intros (c & Hc & Hs).
  - exists c. split; [|done]. by apply (frozenset_go_spec [] cs c).
  - destruct (proj2 (frozenset_go_spec [] cs c) Hc) as (d & [?%not_elem_of_nil|Hd] & E);
      [done|]. exists d. by rewrite (wc_eqb_satisfied d c latest E).
Qed.

Lemma satisfied_construct_and cs latest :
  satisfied (construct CombineAnd cs) latest = forallb (fun c => satisfied c latest) cs.
Proof. apply frozenset_forallb. Qed.

Lemma satisfied_construct_or c cs latest :
  satisfied (construct CombineOr (c :: cs)) latest =
  existsb (fun c => satisfied c latest) (c :: cs).
Proof. rewrite <-frozenset_existsb. done. Qed.

Lemma satisfied_or cs latest :
  cs <> [] -> satisfied (OrCondition cs) latest = existsb (fun c => satisfied c latest) cs.
Proof. by destruct cs. Qed.

(** Combining conditions with [&] and [|] means conjunction and disjunction, however
    the operands are nested and flattened: a write under [a & b] goes through exactly
    when both are satisfied, one under [a | b] exactly when either is. *)
Theorem combine_semantics (a b : WriteCondition) (latest : option StoredEvent) :
  or_nonempty a -> or_nonempty b ->
  satisfied (wc_and a b) latest = satisfied a latest && satisfied b latest /\
  satisfied (wc_or a b) latest = satisfied a latest || satisfied b latest.
Proof.
  intros Ha Hb. split; unfold wc_and, wc_or, combine_conditions.
  - destruct a, b; cbn [members_of]; rewrite satisfied_construct_and;
      rewrite ?forallb_app; cbn [forallb]; by rewrite ?andb_true_r.
  - destruct a as [|[|a0 cs]| | | |], b as [|[|b0 ds]| | | |]; cbn [members_of app];
      try done; rewrite satisfied_construct_or, ?app_comm_cons, ?existsb_app;
      cbn [satisfied existsb]; by rewrite ?orb_false_r, <-?orb_assoc.
Qed.

Section enforcement.
Context {T : Type}.

Lemma and_enforces es cs ctx (tr : T) :
  Forall2 (fun c (e : WriteConditionEnforcer T) =>
    enforces (satisfied c (ctx_latest_event ctx)) (e ctx tr)) cs es ->
  enforces (forallb (fun c => satisfied c (ctx_latest_event ctx)) cs)
    (AndConditionEnforcer es ctx tr).
Proof.
  induction 1 as [|c e cs es Hce _ IH]; cbn; [done|].
  destruct (satisfied c _); cbn in *; [by rewrite Hce|].
  destruct Hce as [m ->]. by exists m.
Qed.

Lemma or_enforces es cs ctx (tr : T) first :
  (first = None \/ exists m, first = Some (UnmetWriteConditionError m)) ->
  Forall2 (fun c (e : WriteConditionEnforcer T) =>
    enforces (satisfied c (ctx_latest_event ctx)) (e ctx tr)) cs es ->
  enforces (existsb (fun c => satisfied c (ctx_latest_event ctx)) cs ||
            bool_decide (cs = [] /\ first = None)) (or_enforce es first ctx tr).
Proof.
  intros Hfirst Hces. revert first Hfirst.
  induction Hces as [|c e cs es Hce _ IH]; intros first Hfirst; cbn.
  - destruct Hfirst as [->|[m ->]].
    + by rewrite bool_decide_eq_true_2.
    + rewrite bool_decide_eq_false_2 by naive_solver. by exists m.
  - destruct (satisfied c _); cbn in *; [by rewrite Hce|].
    destruct Hce as [m ->].
    specialize (IH (Some (UnmetWriteConditionError m))).
    rewrite (bool_decide_eq_false_2 (cs = [] /\ _)) in IH by naive_solver.
    apply IH. right. by exists m.
Qed.

Lemma wc_depth_elem c cs n :
  c ∈ cs -> foldr (fun c n => Nat.max (wc_depth c) n) 0 cs < n -> wc_depth c < n.
Proof.
  induction 1 as [c cs|c c' cs _ IH]; cbn; intros Hn; [lia|]. apply IH. lia.
Qed.

Lemma default_condition_converters reg c :
  standard c = true ->
  with_default_condition_converters (T := T) reg !! wc_class c = Some
    match c with
    | AndCondition _ => AndConditionConverter
    | OrCondition _ => OrConditionConverter
    | PositionIsCondition _ => PositionIsConditionConverter
    | EmptyStreamCondition => EmptyStreamConditionConverter
    | _ => NoConditionConverter
    end.
Proof.
  intros Hstd. unfold with_default_condition_converters.
  destruct c; try discriminate Hstd; cbn [wc_class]; by simplify_map_eq.
Qed.

Lemma convert_condition_enough reg c fuel :
  standard c = true -> wc_depth c < fuel ->
  exists enforcer, convert_condition_fuel fuel
      (with_default_condition_converters (T := T) reg) c = Ok enforcer /\
    forall ctx tr, enforces (satisfied c (ctx_latest_event ctx)) (enforcer ctx tr).
Proof.
  revert fuel. induction c as [cs IH|cs IH| |p| |k x] using WriteCondition_nested_ind;
    intros [|fuel] Hstd Hfuel; try lia; cbn [convert_condition_fuel];
    rewrite default_condition_converters by done; try discriminate Hstd.
  1,2: cbn in Hstd, Hfuel; rewrite forallb_elem in Hstd; rewrite Forall_forall in IH;
    destruct (res_mapM_total (convert_condition_fuel fuel
      (with_default_condition_converters (T := T) reg))
      (fun c e => forall ctx tr, enforces (satisfied c (ctx_latest_event ctx)) (e ctx tr)) cs)
      as (es & Hes & Hall);
    [apply Forall_forall; intros c Hc; apply IH; [done|auto|];
     apply (wc_depth_elem c cs); [done|lia]|].
  - exists (AndConditionEnforcer es). cbn. rewrite Hes. split; [done|].
    intros ctx tr. apply and_enforces. eapply Forall2_impl; [done|]. auto.
  - exists (OrConditionEnforcer es). cbn. rewrite Hes. split; [done|].
    intros ctx tr.
    assert (enforces (existsb (fun c => satisfied c (ctx_latest_event ctx)) cs ||
      bool_decide (cs = [] /\ @None Exn = None)) (OrConditionEnforcer es ctx tr)) as Hor.
    { apply or_enforces; [by left|]. eapply Forall2_impl; [done|]. auto. }
    destruct cs as [|c cs]; [done|].
    by rewrite bool_decide_eq_false_2, orb_false_r in Hor by naive_solver.
  - by exists NoConditionEnforcer.
  - eexists; split; [done|]. intros ctx tr. cbn. unfold PositionIsConditionEnforcer, raise_if.
    destruct (decide (se_position <$> ctx_latest_event ctx = p)) as [->|Hne].
    + by rewrite bool_decide_eq_true_2, bool_decide_eq_false_2 by naive_solver.
    + rewrite bool_decide_eq_false_2, bool_decide_eq_true_2 by done. by eexists.
  - eexists; split; [done|]. intros ctx tr. cbn. unfold EmptyStreamConditionEnforcer, raise_if.
    destruct (ctx_latest_event ctx) as [e|]; cbn.
    + by eexists.
    + done.
Qed.

(** C26. The default registry turns every condition built from the library's own classes
    into an enforcer that lets a write through exactly when the condition is satisfied by
    the stream's latest event, and otherwise raises UnmetWriteConditionError; nesting is
    followed to the bottom. *)
Theorem condition_enforced (reg : gmap string (ConditionConverter T)) (c : WriteCondition) :
  standard c = true ->
  exists enforcer,
    convert_condition (with_default_condition_converters reg) c = Ok enforcer /\
    forall ctx tr, enforces (satisfied c (ctx_latest_event ctx)) (enforcer ctx tr).
Proof. intros Hstd. apply convert_condition_enough; [done|lia]. Qed.
End enforcement.

Lemma combine_semantics_witness :
  let a := PositionIsCondition (Some 3%Z) in
  let b := EmptyStreamCondition in
  satisfied (wc_and a b) None = satisfied a None && satisfied b None /\
  satisfied (wc_or a b) None = satisfied a None || satisfied b None.
Proof.
  apply (combine_semantics (PositionIsCondition (Some 3%Z)) EmptyStreamCondition None);
    discriminate.
Defined.

Lemma condition_enforced_witness :
  let c := wc_or (PositionIsCondition (Some 3%Z)) EmptyStreamCondition in
  exists enforcer,
    convert_condition (T := unit) (with_default_condition_converters ∅) c = Ok enforcer /\
    forall ctx tr, enforces (satisfied c (ctx_latest_event ctx)) (enforcer ctx tr).
Proof. apply condition_enforced. vm_compute. reflexivity. Defined.
