(* ===== verification/EventsDB.v ===== *)
(** The in-memory events database: [store/adapters/memory/db.py], with the query
    constraints of [sources/constraints.py] and their converter
    ([store/adapters/memory/converters.py]).

    The specification is an append-only log, a list of events in commit order:
    [represents db log] relates the database's sparse table and three indexes to it, and
    every operation is shown to act on the log as a list operation. *)
From S2P Require Import Prelude Values Events Conditions.

(** ** Constraints ([sources/constraints.py]) *)

Inductive QueryConstraint :=
  | SequenceNumberAfterConstraint (sequence_number : Z)
  | CustomConstraint (class : string) (data : Z).

#[export] Instance QueryConstraint_eq_dec : EqDecision QueryConstraint.
Proof. solve_decision. Defined.

Definition sequence_number_after (sequence_number : Z) : QueryConstraint :=
  SequenceNumberAfterConstraint sequence_number.

Definition constraint_class (c : QueryConstraint) : string :=
  match c with
  | SequenceNumberAfterConstraint _ => "SequenceNumberAfterConstraint"
  | CustomConstraint class _ => class
  end.

Definition QueryConstraintCheck : Type := StoredEvent -> bool.

Definition SequenceNumberAfterConstraintConverter (item : QueryConstraint)
    : res QueryConstraintCheck :=
  match item with
  | SequenceNumberAfterConstraint n => Ok (fun event => (n <? se_sequence_number event)%Z)
  | _ => Raise AttributeError
  end.

Definition with_default_constraint_converters
    (registry : gmap string (QueryConstraint -> res QueryConstraintCheck))
    : gmap string (QueryConstraint -> res QueryConstraintCheck) :=
  registry_register registry "SequenceNumberAfterConstraint"
    SequenceNumberAfterConstraintConverter.

(** [all(convert(constraint)(event) for constraint in constraints)]. *)
Fixpoint check_all {E} (convert : QueryConstraint -> res (E -> bool))
    (constraints : list QueryConstraint) (event : E) : res bool :=
  match constraints with
  | [] => Ok true
  | c :: cs =>
      check ← convert c;
      if check event : bool then check_all convert cs event else Ok false
  end.

(** ** [InMemorySequence] *)

(** [__next__]: the value handed out, and the next one. *)
Definition sequence_next (value : Z) : Z * Z := (value, (value + 1)%Z).

(** ** [InMemoryEventsDB] *)

(** The indexes are [defaultdict]s of lists: a missing key reads as the empty list, and
    since no operation enumerates their keys, a key bound to the empty list and a
    missing one are the same index. *)
Record InMemoryEventsDB := mkDB {
  db_events : list (option StoredEvent);
  db_log_index : list Z;
  db_category_index : gmap string (list Z);
  db_stream_index : gmap (string * string) (list Z)
}.

Definition empty_db : InMemoryEventsDB := mkDB [] [] ∅ ∅.

Definition index_get `{Countable K} (index : gmap K (list Z)) (key : K) : list Z :=
  default [] (index !! key).

(** Copies of lists of immutable events: later writes to [db] do not reach them. *)
Definition db_snapshot (db : InMemoryEventsDB) : InMemoryEventsDB :=
  mkDB (db_events db) (db_log_index db) (db_category_index db) (db_stream_index db).

Definition stream_events (db : InMemoryEventsDB) (category stream : string)
    : res (list StoredEvent) :=
  events ← mapM (py_get (db_events db)) (index_get (db_stream_index db) (category, stream));
  if existsb (fun e => match e with None => true | Some _ => false end) events
  then Raise (ValueError "Invalid state: stream contains None values.")
  else Ok (omap id events).

Definition last_stream_event (db : InMemoryEventsDB) (category stream : string)
    : res (option StoredEvent) :=
  events ← stream_events db category stream;
  Ok (last_or_none events).

Definition last_stream_position (db : InMemoryEventsDB) (category stream : string) : res Z :=
  event ← last_stream_event db category stream;
  Ok (match event with None => (-1)%Z | Some e => se_position e end).

Definition db_add (db : InMemoryEventsDB) (event : StoredEvent) : res InMemoryEventsDB :=
  let n := se_sequence_number event in
  let category_key := se_category event in
  let stream_key := (se_category event, se_stream event) in
  let len := Z.of_nat (length (db_events db)) in
  let events :=
    if (len <=? n)%Z then db_events db ++ replicate (Z.to_nat (n - len + 1)) None
    else db_events db in
  events ← py_set events n (Some event);
  Ok (mkDB events
        (db_log_index db ++ [n])
        (<[category_key := index_get (db_category_index db) category_key ++ [n]]>
          (db_category_index db))
        (<[stream_key := index_get (db_stream_index db) stream_key ++ [n]]>
          (db_stream_index db))).

Definition select_index (db : InMemoryEventsDB) (target : EventSourceIdentifier)
    : res (list Z) :=
  match target with
  | LogIdentifier => Ok (db_log_index db)
  | CategoryIdentifier category => Ok (index_get (db_category_index db) category)
  | StreamIdentifier category stream => Ok (index_get (db_stream_index db) (category, stream))
  | _ => Raise (ValueError "Unknown target")
  end.

Definition last_event (db : InMemoryEventsDB) (target : EventSourceIdentifier)
    : res (option StoredEvent) :=
  index ← select_index db target;
  match last_or_none index with
  | Some n => py_get (db_events db) n
  | None => Ok None
  end.

Section scan.
Context (constraint_converter : QueryConstraint -> res QueryConstraintCheck).

(** The generator's loop over the index. *)
Fixpoint scan_index (events : list (option StoredEvent)) (constraints : list QueryConstraint)
    (index : list Z) : Gen StoredEvent :=
  match index with
  | [] => gen_of []
  | n :: rest =>
      match py_get events n with
      | Raise e => gen_raise e
      | Ok None => gen_raise (ValueError "Invalid state: event at sequence number is None")
      | Ok (Some event) =>
          match check_all constraint_converter constraints event with
          | Raise e => gen_raise e
          | Ok false => scan_index events constraints rest
          | Ok true => gen_cons event (scan_index events constraints rest)
          end
      end
  end.

Definition scan_events (db : InMemoryEventsDB) (target : EventSourceIdentifier)
    (constraints : list QueryConstraint) : Gen StoredEvent :=
  match select_index db target with
  | Raise e => gen_raise e
  | Ok index => scan_index (db_events db) constraints index
  end.
End scan.

(** ** [InMemoryEventsDBTransaction]: the events added so far *)

Definition tx_add (added : list StoredEvent) (event : StoredEvent) : list StoredEvent :=
  added ++ [event].

Fixpoint tx_commit (added : list StoredEvent) : ST InMemoryEventsDB () := fun db =>
  match added with
  | [] => (Ok (), db)
  | event :: rest =>
      match db_add db event with
      | Ok db' => tx_commit rest db'
      | Raise e => (Raise e, db)
      end
  end.

(** ** Specification: an append-only log *)

Definition in_target (target : EventSourceIdentifier) (e : StoredEvent) : bool :=
  match target with
  | LogIdentifier => true
  | CategoryIdentifier c => bool_decide (se_category e = c)
  | StreamIdentifier c s => bool_decide (se_category e = c /\ se_stream e = s)
  | _ => false
  end.

Definition scannable (target : EventSourceIdentifier) : bool :=
  match target with
  | LogIdentifier | CategoryIdentifier _ | StreamIdentifier _ _ => true
  | _ => false
  end.

(** The events of a target, in commit order. *)
Definition log_of (target : EventSourceIdentifier) (log : list StoredEvent)
    : list StoredEvent :=
  List.filter (in_target target) log.

Definition numbers_of (log : list StoredEvent) : list Z := se_sequence_number <$> log.

Record represents (db : InMemoryEventsDB) (log : list StoredEvent) : Prop := {
  rep_log : db_log_index db = numbers_of log;
  rep_NoDup : NoDup (numbers_of log);
  rep_events : forall e, e ∈ log ->
    (0 <= se_sequence_number e)%Z /\
    db_events db !! Z.to_nat (se_sequence_number e) = Some (Some e);
  rep_category : forall c, index_get (db_category_index db) c =
    numbers_of (log_of (CategoryIdentifier c) log);
  rep_stream : forall c s, index_get (db_stream_index db) (c, s) =
    numbers_of (log_of (StreamIdentifier c s) log)
}.

(** ** Lemmas *)

Lemma log_of_app t l1 l2 : log_of t (l1 ++ l2) = log_of t l1 ++ log_of t l2.
Proof. apply List.filter_app. Qed.

Lemma log_of_LogIdentifier log : log_of LogIdentifier log = log.
Proof. unfold log_of. induction log as [|e l IH]; cbn; [done|]. by rewrite IH. Qed.

Lemma elem_of_log_of t log e : e ∈ log_of t log <-> e ∈ log /\ in_target t e = true.
Proof. unfold log_of. rewrite !list_elem_of_In. apply filter_In. Qed.

Lemma numbers_of_app l1 l2 : numbers_of (l1 ++ l2) = numbers_of l1 ++ numbers_of l2.
Proof. apply fmap_app. Qed.

Lemma elem_of_numbers log n : n ∈ numbers_of log <-> exists e, e ∈ log /\ se_sequence_number e = n.
Proof. unfold numbers_of. rewrite list_elem_of_fmap. naive_solver. Qed.

Lemma index_get_insert `{Countable K} (index : gmap K (list Z)) k k' v :
  index_get (<[k := v]> index) k' = if decide (k = k') then v else index_get index k'.
Proof. unfold index_get. rewrite lookup_insert. by case_decide. Qed.

Lemma represents_empty : represents empty_db [].
Proof.
  split; try done; [constructor|by intros ? ?%not_elem_of_nil].
Qed.

Section represented.
Context {db : InMemoryEventsDB} {log : list StoredEvent} (Hrep : represents db log).

Lemma rep_get e : e ∈ log -> py_get (db_events db) (se_sequence_number e) = Ok (Some e).
Proof.
  intros [Hpos Hlook]%(rep_events _ _ Hrep).
  rewrite <-(Z2Nat.id (se_sequence_number e)) by done. by apply py_get_nonneg.
Qed.

Lemma rep_mapM l :
  (forall e, e ∈ l -> e ∈ log) -> mapM (py_get (db_events db)) (numbers_of l) = Ok (Some <$> l).
Proof.
  intros Hl. apply res_mapM_Ok. unfold numbers_of.
  apply Forall2_fmap_2, Forall2_same_length_lookup_2; [done|].
  intros i x y Hx Hy. simplify_eq. apply rep_get, Hl. by eapply list_elem_of_lookup_2.
Qed.

Lemma select_index_represents t :
  scannable t = true -> select_index db t = Ok (numbers_of (log_of t log)).
Proof.
  destruct t as [|?|c|? ?|c s]; try done; intros _; cbn.
  - by rewrite (rep_log _ _ Hrep), log_of_LogIdentifier.
  - by rewrite (rep_category _ _ Hrep).
  - by rewrite (rep_stream _ _ Hrep).
Qed.

Lemma stream_events_represents c s :
  stream_events db c s = Ok (log_of (StreamIdentifier c s) log).
Proof.
  unfold stream_events. rewrite (rep_stream _ _ Hrep).
  rewrite rep_mapM by (by intros e [? _]%elem_of_log_of). cbn.
  replace (existsb _ (Some <$> _)) with false.
  - f_equal. induction (log_of _ _) as [|e l IH]; cbn; [done|]. by f_equal.
  - symmetry. apply not_true_is_false. rewrite existsb_elem.
    intros (o & (e & -> & _)%list_elem_of_fmap & ?). done.
Qed.

Lemma last_stream_event_represents c s :
  last_stream_event db c s = Ok (last (log_of (StreamIdentifier c s) log)).
Proof. unfold last_stream_event. by rewrite stream_events_represents. Qed.

Lemma last_stream_position_represents c s :
  last_stream_position db c s =
  Ok (default (-1)%Z (se_position <$> last (log_of (StreamIdentifier c s) log))).
Proof.
  unfold last_stream_position. rewrite last_stream_event_represents.
  cbn. by destruct (last _).
Qed.

Lemma last_event_represents t :
  scannable t = true -> last_event db t = Ok (last (log_of t log)).
Proof.
  intros Ht. unfold last_event. rewrite select_index_represents by done. cbn.
  unfold last_or_none, numbers_of. rewrite fmap_last.
  destruct (last (log_of t log)) as [e|] eqn:El; cbn; [|done].
  apply rep_get. apply last_Some in El as [l' El].
  apply (elem_of_log_of t). rewrite El. apply elem_of_app. right. constructor.
Qed.

Lemma scan_index_represents convert holds cs l :
  (forall c, c ∈ cs -> convert c = Ok (holds c)) -> (forall e, e ∈ l -> e ∈ log) ->
  scan_index convert (db_events db) cs (numbers_of l) =
  gen_of (List.filter (fun e => forallb (fun c => holds c e) cs) l).
Proof.
  intros Hcs Hl. induction l as [|e l IH]; [done|].
  change (numbers_of (e :: l)) with (se_sequence_number e :: numbers_of l).
  cbn [scan_index List.filter]. rewrite rep_get by (apply Hl; constructor).
  assert (check_all convert cs e = Ok (forallb (fun c => holds c e) cs)) as ->.
  { clear -Hcs. induction cs as [|c cs IH]; cbn; [done|].
    rewrite Hcs by constructor. cbn. destruct (holds c e); cbn; [|done].
    apply IH. intros ? ?. apply Hcs. by constructor. }
  rewrite IH by (intros; apply Hl; by constructor). by destruct (forallb _ cs).
Qed.

Lemma db_add_represents e :
  (0 <= se_sequence_number e)%Z -> se_sequence_number e ∉ numbers_of log ->
  exists db', db_add db e = Ok db' /\ represents db' (log ++ [e]).
Proof.
  intros Hpos Hfresh. unfold db_add.
  set (n := se_sequence_number e) in *.
  set (evs := if (_ <=? _)%Z then _ else _).
  assert (length (db_events db) <= length evs /\ Z.to_nat n < length evs) as [Hge Hlt].
  { unfold evs. destruct (Z.leb_spec (Z.of_nat (length (db_events db))) n);
      rewrite ?length_app, ?length_replicate; lia. }
  rewrite py_set_nonneg by lia. cbn. eexists; split; [done|].
  split; cbn.
  - by rewrite (rep_log _ _ Hrep), numbers_of_app.
  - rewrite numbers_of_app. apply NoDup_app. split_and!; [apply Hrep| |apply NoDup_singleton].
    intros m Hm ->%list_elem_of_singleton. done.
  - intros e1 [He1| ->%list_elem_of_singleton]%elem_of_app.
    + destruct (rep_events _ _ Hrep e1 He1) as [Hp Hl]. split; [done|].
      rewrite list_lookup_insert_ne.
      * unfold evs. case_match; [|done]. by apply lookup_app_l_Some.
      * intros Heq. apply Hfresh. apply elem_of_numbers. exists e1. split; [done|]. lia.
    + split; [done|]. by apply list_lookup_insert_eq.
  - intros c. rewrite index_get_insert, log_of_app, numbers_of_app, !(rep_category _ _ Hrep).
    case_decide as Hc; subst; cbn.
    + by rewrite bool_decide_eq_true_2.
    + rewrite bool_decide_eq_false_2 by done. by rewrite app_nil_r.
  - intros c s. rewrite index_get_insert, log_of_app, numbers_of_app, !(rep_stream _ _ Hrep).
    case_decide as Hc; simplify_eq; cbn.
    + by rewrite bool_decide_eq_true_2.
    + rewrite bool_decide_eq_false_2 by naive_solver. by rewrite app_nil_r.
Qed.
End represented.

(** A commit appends the added events to the log when their numbers are new. *)
Lemma tx_commit_represents db log added :
  represents db log -> NoDup (numbers_of (log ++ added)) ->
  (forall e, e ∈ added -> (0 <= se_sequence_number e)%Z) ->
  exists db', tx_commit added db = (Ok (), db') /\ represents db' (log ++ added).
Proof.
  revert db log. induction added as [|e added IH]; intros db log Hrep Hnd Hpos; cbn.
  { exists db. by rewrite app_nil_r. }
  destruct (db_add_represents Hrep e) as (db1 & -> & Hrep1).
  - apply Hpos. constructor.
  - rewrite numbers_of_app in Hnd. apply NoDup_app in Hnd as (_ & Hd & _).
    intros Hin. apply (Hd _ Hin). cbn. constructor.
  - destruct (IH db1 (log ++ [e]) Hrep1) as (db2 & Hc & Hrep2).
    + by rewrite <-app_assoc.
    + intros; apply Hpos; by constructor.
    + exists db2. by rewrite <-app_assoc in Hrep2.
Qed.
