(* ===== verification/MemoryAdapter.v ===== *)
(** The in-memory event storage adapter: [store/adapters/base.py] and
    [store/adapters/memory/adapter.py], with the locks of [memory/locks.py].

    [save_to_stream] and [save_to_category] are the bodies of the two save paths, run
    without interruption. [run_phase] cuts the same code at its [await] points, and
    [step] interleaves any number of saves that way, taking and releasing the locks the
    serialisation guarantee asks for. *)
From S2P Require Import Prelude Values Conversion Events Conditions EventsDB.

(** ** Serialisation guarantees ([store/adapters/base.py]) *)

Inductive EventSerialisationGuarantee := LOG | CATEGORY | STREAM.

#[export] Instance EventSerialisationGuarantee_eq_dec : EqDecision EventSerialisationGuarantee.
Proof. solve_decision. Defined.

(** [lock_name]: a target without the attribute the guarantee reads raises. *)
Definition lock_name (guarantee : EventSerialisationGuarantee) (namespace : string)
    (target : EventSourceIdentifier) : res string :=
  match guarantee, target with
  | LOG, _ => Ok namespace
  | CATEGORY, (CategoryIdentifier c | CategoryPartitionIdentifier c _ | StreamIdentifier c _) =>
      Ok (namespace +:+ "." +:+ c)
  | STREAM, StreamIdentifier c s => Ok (namespace +:+ "." +:+ c +:+ "." +:+ s)
  | _, _ => Raise AttributeError
  end.

(** ** Requests *)

(** [StreamPublishDefinition]. *)
Record StreamPublishDefinition := mkDefinition {
  pd_events : list NewEvent;
  pd_condition : option WriteCondition
}.

Definition stream_publish_definition (events : list NewEvent)
    (condition : option WriteCondition) : StreamPublishDefinition :=
  mkDefinition events condition.

(** One entry of [streams]: the stream's name, its events and
    [stream_request.get("condition", NoCondition())]. *)
Record StreamRequest := mkRequest {
  rq_stream : string;
  rq_events : list NewEvent;
  rq_condition : WriteCondition
}.

Definition stream_request (name : string) (definition : StreamPublishDefinition)
    : StreamRequest :=
  mkRequest name (pd_events definition) (default NoCondition (pd_condition definition)).

(** The entries in the order of [sorted(streams.keys())]. *)
Definition sorted_requests (streams : dict string StreamPublishDefinition)
    : list StreamRequest :=
  omap (fun name => stream_request name <$> dict_get streams name)
    (sorted_strings (dict_keys streams)).

Definition memory_lock_name (guarantee : EventSerialisationGuarantee)
    (target : EventSourceIdentifier) : res string := lock_name guarantee "memory" target.

Definition determine_required_locks (guarantee : EventSerialisationGuarantee)
    (category : string) (streams : dict string StreamPublishDefinition) : res (list string) :=
  match guarantee with
  | STREAM =>
      mapM (fun stream_name => memory_lock_name guarantee (StreamIdentifier category stream_name))
        (sorted_strings (dict_keys streams))
  | _ =>
      name ← memory_lock_name guarantee (CategoryIdentifier category);
      Ok [name]
  end.

(** ** State *)

Record AdapterState := mkState {
  as_sequence : Z;          (** the next sequence number *)
  as_uuids : nat;           (** how many event ids were drawn *)
  as_db : InMemoryEventsDB
}.

Definition initial_state : AdapterState := mkState 0 0 empty_db.

Section adapter.
Context `{UserCode}.
(** [uuid4().hex], by how many were drawn before. *)
Context (uuid4 : nat -> string).
Context (condition_converter :
  gmap string (ConditionConverter (InMemoryEventsDB * list StoredEvent))).
Context (constraint_converter :
  gmap string (QueryConstraint -> res QueryConstraintCheck)).

(** One iteration of the loop over the new events: the id and the sequence number are
    drawn before the name and the payload are serialised, which may raise. *)
Definition store_event (category stream : string) (last_stream_position : Z) (count : nat)
    (event : NewEvent) : ST AdapterState (StoredEvent * StoredEvent) := fun st =>
  let position := (last_stream_position + Z.of_nat count + 1)%Z in
  let stored name payload :=
    mkStoredEvent (uuid4 (as_uuids st)) name stream category position (as_sequence st)
      payload (ne_observed_at event) (ne_occurred_at event) in
  let st' := mkState (as_sequence st + 1) (S (as_uuids st)) (as_db st) in
  match serialise_to_string (ne_name event) raising_serialisation_fallback with
  | Raise e => (Raise e, st')
  | Ok name =>
      match serialise_to_json_value (ne_payload event) raising_serialisation_fallback with
      | Raise e => (Raise e, st')
      | Ok payload =>
          (Ok (stored (ne_name event) (ne_payload event), stored (VStr name) payload), st')
      end
  end.

(** The whole loop: the events returned to the caller, and those added to the
    transaction. *)
Fixpoint store_events (category stream : string) (last_stream_position : Z) (count : nat)
    (events : list NewEvent) (new_stored_events added : list StoredEvent)
    : ST AdapterState (list StoredEvent * list StoredEvent) :=
  match events with
  | [] => mret (new_stored_events, added)
  | event :: rest =>
      stored ← store_event category stream last_stream_position count event;
      store_events category stream last_stream_position (S count) rest
        (new_stored_events ++ [stored.1]) (tx_add added stored.2)
  end.

(** Checking the condition of one request and reading the last position. *)
Definition check_request (category : string) (rq : StreamRequest)
    (latest : option StoredEvent) (added : list StoredEvent) (db : InMemoryEventsDB) : res Z :=
  enforcer ← convert_condition condition_converter (rq_condition rq);
  _ ← enforcer (mkContext (StreamIdentifier category (rq_stream rq)) latest) (db, added);
  last_stream_position db category (rq_stream rq).

Definition save_request (category : string) (rq : StreamRequest) (added : list StoredEvent)
    : ST AdapterState (list StoredEvent * list StoredEvent) := fun st =>
  (latest ← st_lift (last_stream_event (as_db st) category (rq_stream rq));
   position ← st_lift (check_request category rq latest added (as_db st));
   store_events category (rq_stream rq) position 0 (rq_events rq) [] added) st.

Definition commit_added (added : list StoredEvent) : ST AdapterState () := fun st =>
  match tx_commit added (as_db st) with
  | (r, db) => (r, mkState (as_sequence st) (as_uuids st) db)
  end.

Definition save_to_stream (category stream : string) (events : list NewEvent)
    (condition : WriteCondition) : ST AdapterState (list StoredEvent) :=
  saved ← save_request category (mkRequest stream events condition) [];
  _ ← commit_added saved.2;
  mret saved.1.

Fixpoint save_requests (category : string) (requests : list StreamRequest)
    (added : list StoredEvent) (results : dict string (list StoredEvent))
    : ST AdapterState (dict string (list StoredEvent) * list StoredEvent) :=
  match requests with
  | [] => mret (results, added)
  | rq :: rest =>
      saved ← save_request category rq added;
      save_requests category rest saved.2 (dict_set results (rq_stream rq) saved.1)
  end.

Definition save_to_category (category : string) (streams : dict string StreamPublishDefinition)
    : ST AdapterState (dict string (list StoredEvent)) :=
  saved ← save_requests category (sorted_requests streams) [] [];
  _ ← commit_added saved.2;
  mret saved.1.

(** [save]: what is returned depends on the target. *)
Inductive Saved :=
  | SavedStream (events : list StoredEvent)
  | SavedCategory (events : dict string (list StoredEvent)).

Definition save (target : EventSourceIdentifier) (events : option (list NewEvent))
    (condition : WriteCondition) (streams : option (dict string StreamPublishDefinition))
    : ST AdapterState Saved :=
  match target with
  | StreamIdentifier category stream =>
      match events with
      | None => st_lift (Raise (ValueError
          "The `events` parameter must be provided for stream level publish."))
      | Some events =>
          stored ← save_to_stream category stream events condition;
          mret (SavedStream stored)
      end
  | CategoryIdentifier category =>
      match streams with
      | None => st_lift (Raise (ValueError
          "The `streams` parameter must be provided for category level publish."))
      | Some streams =>
          stored ← save_to_category category streams;
          mret (SavedCategory stored)
      end
  | _ => st_lift (Raise (ValueError "Unsupported target type"))
  end.

Definition latest (st : AdapterState) (target : EventSourceIdentifier)
    : res (option StoredEvent) := last_event (db_snapshot (as_db st)) target.

Definition scan (st : AdapterState) (target : EventSourceIdentifier)
    (constraints : list QueryConstraint) : Gen StoredEvent :=
  scan_events (registry_convert constraint_class constraint_converter)
    (db_snapshot (as_db st)) target constraints.
End adapter.


(** ** The invariant of the store *)

(** The positions of a stream's events are 0, 1, 2, ... in commit order. *)
Definition contiguous (log : list StoredEvent) : Prop :=
  forall c s, se_position <$> log_of (StreamIdentifier c s) log =
    seqZ 0 (Z.of_nat (length (log_of (StreamIdentifier c s) log))).

Record store_inv (st : AdapterState) (log : list StoredEvent) : Prop := {
  inv_rep : represents (as_db st) log;
  inv_contiguous : contiguous log;
  inv_below : forall e, e ∈ log -> (se_sequence_number e < as_sequence st)%Z;
  inv_nonneg : (0 <= as_sequence st)%Z
}.

(** How many events a stream has. *)
Definition stream_length (log : list StoredEvent) (c s : string) : Z :=
  Z.of_nat (length (log_of (StreamIdentifier c s) log)).

(** What the [k]-th new event of a save becomes: the caller's name and payload in [raw],
    their serialised forms in [stored]. *)
Record stored_as `{UserCode} (c s : string) (position number : Z) (event : NewEvent)
    (raw stored : StoredEvent) : Prop := {
  sa_name : se_name raw = ne_name event;
  sa_payload : se_payload raw = ne_payload event;
  sa_name_string : exists name,
    serialise_to_string (ne_name event) raising_serialisation_fallback = Ok name /\
    se_name stored = VStr name;
  sa_payload_json :
    serialise_to_json_value (ne_payload event) raising_serialisation_fallback =
    Ok (se_payload stored);
  sa_same : stored = mkStoredEvent (se_id raw) (se_name stored) s c position number
    (se_payload stored) (ne_observed_at event) (ne_occurred_at event);
  sa_raw : raw = mkStoredEvent (se_id raw) (se_name raw) s c position number
    (se_payload raw) (ne_observed_at event) (ne_occurred_at event)
}.

(** A run of new events stored at consecutive positions from [p] with consecutive
    sequence numbers from [n]. *)
Definition stored_run `{UserCode} (c s : string) (p n : Z) (events : list NewEvent)
    (raws stored : list StoredEvent) : Prop :=
  length raws = length events /\ length stored = length events /\
  forall i ev, events !! i = Some ev -> exists raw st,
    raws !! i = Some raw /\ stored !! i = Some st /\
    stored_as c s (p + Z.of_nat i) (n + Z.of_nat i) ev raw st.

Lemma stored_run_cons `{UserCode} c s p n ev evs raw raws stored storeds :
  stored_as c s p n ev raw stored ->
  stored_run c s (p + 1) (n + 1) evs raws storeds ->
  stored_run c s p n (ev :: evs) (raw :: raws) (stored :: storeds).
Proof.
  intros Hsa (Hl1 & Hl2 & Hi). split_and!; [cbn; lia|cbn; lia|].
  intros [|i] ev' Hev; cbn in Hev |- *.
  - simplify_eq. exists raw, stored. by rewrite !Z.add_0_r.
  - destruct (Hi i ev' Hev) as (raw' & st' & ? & ? & ?). exists raw', st'.
    replace (p + Z.of_nat (S i))%Z with (p + 1 + Z.of_nat i)%Z by lia.
    by replace (n + Z.of_nat (S i))%Z with (n + 1 + Z.of_nat i)%Z by lia.
Qed.

(** A run of new events stored at consecutive positions from [p], whatever the sequence
    numbers, as long as they increase. *)
Record stored_batch `{UserCode} (c s : string) (p : Z) (events : list NewEvent)
    (raws stored : list StoredEvent) : Prop := {
  sb_raws : length raws = length events;
  sb_stored : length stored = length events;
  sb_each : forall i ev, events !! i = Some ev -> exists raw st n,
    raws !! i = Some raw /\ stored !! i = Some st /\
    stored_as c s (p + Z.of_nat i) n ev raw st;
  sb_numbers : StronglySorted Z.lt (numbers_of stored)
}.

Lemma stored_batch_elem `{UserCode} c s p evs raws stored e :
  stored_batch c s p evs raws stored -> e ∈ stored ->
  se_category e = c /\ se_stream e = s /\
  (p <= se_position e < p + Z.of_nat (length evs))%Z.
Proof.
  intros [Hl1 Hl2 Hi _] [i He]%list_elem_of_lookup.
  destruct (lookup_lt_is_Some_2 evs i) as [ev Hev].
  { rewrite <-Hl2. by eapply lookup_lt_Some. }
  apply lookup_lt_Some in Hev as Hlt.
  destruct (Hi i ev Hev) as (raw & st & n & _ & Hst & Hsa). simplify_eq.
  rewrite (sa_same _ _ _ _ _ _ _ Hsa). cbn. split_and!; [done|done|lia..].
Qed.

Lemma stored_run_elem `{UserCode} c s p n evs raws stored e :
  stored_run c s p n evs raws stored -> e ∈ stored ->
  se_category e = c /\ se_stream e = s /\
  (p <= se_position e < p + Z.of_nat (length evs))%Z /\
  (n <= se_sequence_number e < n + Z.of_nat (length evs))%Z.
Proof.
  intros (Hl1 & Hl2 & Hi) [i He]%list_elem_of_lookup.
  destruct (lookup_lt_is_Some_2 evs i) as [ev Hev].
  { rewrite <-Hl2. by eapply lookup_lt_Some. }
  apply lookup_lt_Some in Hev as Hlt.
  destruct (Hi i ev Hev) as (raw & st & _ & Hst & Hsa). simplify_eq.
  rewrite (sa_same _ _ _ _ _ _ _ Hsa). cbn. split_and!; [done|done|lia..].
Qed.

Lemma stored_run_numbers `{UserCode} c s p n evs raws stored :
  stored_run c s p n evs raws stored ->
  numbers_of stored = seqZ n (Z.of_nat (length evs)) /\
  se_position <$> stored = seqZ p (Z.of_nat (length evs)).
Proof.
  intros (Hl1 & Hl2 & Hi).
  assert (forall i, exists d, stored !! i = None /\ length evs <= i \/
    stored !! i = Some d /\ i < length evs /\ se_position d = (p + Z.of_nat i)%Z /\
    se_sequence_number d = (n + Z.of_nat i)%Z) as Hlook.
  { intros i. destruct (evs !! i) as [ev|] eqn:Hev.
    - destruct (Hi i ev Hev) as (raw & st & _ & Hst & Hsa). exists st. right.
      apply lookup_lt_Some in Hev. rewrite Hst, (sa_same _ _ _ _ _ _ _ Hsa). done.
    - apply lookup_ge_None in Hev.
      exists (mkStoredEvent "" VNone "" "" 0 0 VNone 0 0). left.
      split; [apply lookup_ge_None; lia|done]. }
  split; apply list_eq; intros i; unfold numbers_of; rewrite list_lookup_fmap;
    destruct (Hlook i) as (d & [[-> Hge]|(-> & Hlt & Hp & Hn)]); cbn;
    first [rewrite lookup_seqZ_ge by lia; done
          |rewrite lookup_seqZ_lt by lia; congruence].
Qed.

Lemma seqZ_sorted n len : StronglySorted Z.lt (seqZ n len).
Proof.
  destruct (decide (len <= 0)%Z) as [Hl|Hl]; [by rewrite seqZ_nil by lia; constructor|].
  replace len with (Z.of_nat (Z.to_nat len)) by lia. generalize (Z.to_nat len). clear.
  intros k. revert n. induction k as [|k IH]; intros n; [constructor|].
  rewrite seqZ_cons by lia. replace (Z.pred (Z.of_nat (S k))) with (Z.of_nat k) by lia.
  constructor; [apply IH|]. apply Forall_forall. intros x Hx%elem_of_seqZ. lia.
Qed.

Lemma stored_run_batch `{UserCode} c s p n evs raws stored :
  stored_run c s p n evs raws stored -> stored_batch c s p evs raws stored.
Proof.
  intros Hrun. pose proof Hrun as (Hl1 & Hl2 & Hi). split; [done|done| |].
  - intros i ev (raw & st & ?)%Hi. by exists raw, st, (n + Z.of_nat i)%Z.
  - destruct (stored_run_numbers _ _ _ _ _ _ _ Hrun) as [-> _]. apply seqZ_sorted.
Qed.

Lemma last_position_contiguous log c s :
  contiguous log ->
  default (-1)%Z (se_position <$> last (log_of (StreamIdentifier c s) log)) =
  (stream_length log c s - 1)%Z.
Proof.
  intros Hc. rewrite <-fmap_last, Hc. unfold stream_length.
  destruct (log_of _ _) as [|e l]; [done|]. rewrite last_lookup, length_seqZ.
  cbn [length]. rewrite lookup_seqZ_lt; [cbn; lia|]. lia.
Qed.

Section adapter_lemmas.
Context `{UserCode} (uuid4 : nat -> string).

Lemma store_event_spec c s p k ev st r st' :
  store_event uuid4 c s p k ev st = (r, st') ->
  as_db st' = as_db st /\ as_sequence st' = (as_sequence st + 1)%Z /\
  match r with
  | Ok (raw, stored) => stored_as c s (p + Z.of_nat k + 1) (as_sequence st) ev raw stored
  | Raise _ => True
  end.
Proof.
  unfold store_event. destruct (serialise_to_string _ _) as [name|] eqn:En;
    [destruct (serialise_to_json_value _ _) as [payload|] eqn:Ep|];
    intros; simplify_eq/=; split_and!; try done.
  split; cbn; eauto.
Qed.

(** The loop keeps the database, draws one sequence number per event it completes and
    stores the events at consecutive positions. *)
Lemma store_events_spec c s p k evs raws added st r st' :
  store_events uuid4 c s p k evs raws added st = (r, st') ->
  as_db st' = as_db st /\ (as_sequence st <= as_sequence st')%Z /\
  match r with
  | Raise _ => True
  | Ok (raws', added') => exists nraws nadded,
      raws' = raws ++ nraws /\ added' = added ++ nadded /\
      as_sequence st' = (as_sequence st + Z.of_nat (length evs))%Z /\
      stored_run c s (p + Z.of_nat k + 1) (as_sequence st) evs nraws nadded
  end.
Proof.
  revert k raws added st. induction evs as [|ev evs IH]; intros k raws added st; cbn.
  { intros [= <- <-]. split_and!; [done|lia|]. exists [], []. rewrite !app_nil_r.
    split_and!; try done. lia. }
  unfold mbind, ST_bind. destruct (store_event _ _ _ _ _ _ _) as [[[raw stored]|e] st1] eqn:E1.
  - apply store_event_spec in E1 as (Hdb & Hseq & Hst). intros E.
    apply IH in E as (Hdb' & Hseq' & Hr). split_and!; [congruence|lia|].
    destruct r as [[raws' added']|]; [|done].
    destruct Hr as (nraws & nadded & -> & -> & Hs' & Hrun).
    exists (raw :: nraws), (stored :: nadded). unfold tx_add. rewrite <-!app_assoc.
    split_and!; [done|done|cbn; lia|]. apply stored_run_cons; [done|].
    replace (as_sequence st + 1)%Z with (as_sequence st1) by lia.
    by replace (p + Z.of_nat k + 1 + 1)%Z with (p + Z.of_nat (S k) + 1)%Z by lia.
  - apply store_event_spec in E1 as (Hdb & Hseq & _). intros [= <- <-].
    split_and!; [done|lia|done].
Qed.
End adapter_lemmas.

(** ** Extending a contiguous log *)

Lemma in_stream c s e :
  in_target (StreamIdentifier c s) e = true <-> se_category e = c /\ se_stream e = s.
Proof. cbn. by rewrite bool_decide_eq_true. Qed.

Lemma log_of_all t l : (forall e, e ∈ l -> in_target t e = true) -> log_of t l = l.
Proof.
  unfold log_of. induction l as [|e l IH]; cbn; intros Hl; [done|].
  rewrite Hl by constructor. f_equal. apply IH. intros; apply Hl; by constructor.
Qed.

Lemma log_of_none t l : (forall e, e ∈ l -> in_target t e = false) -> log_of t l = [].
Proof.
  unfold log_of. induction l as [|e l IH]; cbn; intros Hl; [done|].
  rewrite Hl by constructor. apply IH. intros; apply Hl; by constructor.
Qed.

Lemma stream_length_app l1 l2 c s :
  stream_length (l1 ++ l2) c s = (stream_length l1 c s + stream_length l2 c s)%Z.
Proof. unfold stream_length. rewrite log_of_app, length_app. lia. Qed.

(** Appending to one stream a run of events that starts at its length. *)
Lemma contiguous_app log c s new :
  contiguous log ->
  (forall e, e ∈ new -> se_category e = c /\ se_stream e = s) ->
  se_position <$> new = seqZ (stream_length log c s) (Z.of_nat (length new)) ->
  contiguous (log ++ new).
Proof.
  intros Hlog Hnew Hpos c' s'. rewrite log_of_app, fmap_app, length_app, Hlog.
  destruct (decide (c' = c /\ s' = s)) as [[-> ->]|Hne].
  - rewrite (log_of_all _ new) by (intros; apply in_stream; auto).
    rewrite Hpos. unfold stream_length. rewrite <-seqZ_app by lia.
    f_equal. lia.
  - rewrite (log_of_none _ new).
    + cbn. by rewrite app_nil_r, Nat.add_0_r.
    + intros e He. apply not_true_is_false. rewrite in_stream.
      intros [<- <-]. apply Hne. destruct (Hnew e He). auto.
Qed.

Section save_lemmas.
Context `{UserCode} (uuid4 : nat -> string).
Context (conditions : gmap string (ConditionConverter (InMemoryEventsDB * list StoredEvent))).

Lemma check_request_position cat rq latest added db log p :
  represents db log -> contiguous log ->
  check_request conditions cat rq latest added db = Ok p ->
  p = (stream_length log cat (rq_stream rq) - 1)%Z.
Proof.
  intros Hrep Hc. unfold check_request. intros E. inv_ok.
  rewrite (last_stream_position_represents Hrep) in E. injection E as <-.
  by apply last_position_contiguous.
Qed.

(** One request of a save, over a transaction that has not touched its stream. *)
Lemma save_request_spec cat rq added st log r st' :
  represents (as_db st) log -> contiguous log -> contiguous (log ++ added) ->
  log_of (StreamIdentifier cat (rq_stream rq)) added = [] ->
  save_request uuid4 conditions cat rq added st = (r, st') ->
  as_db st' = as_db st /\ (as_sequence st <= as_sequence st')%Z /\
  match r with
  | Raise _ => True
  | Ok (raws, added') => exists new,
      added' = added ++ new /\
      as_sequence st' = (as_sequence st + Z.of_nat (length (rq_events rq)))%Z /\
      stored_run cat (rq_stream rq) (stream_length log cat (rq_stream rq)) (as_sequence st)
        (rq_events rq) raws new /\
      contiguous (log ++ added ++ new)
  end.
Proof.
  intros Hrep Hlog Hadded Hnone. unfold save_request, st_lift.
  rewrite (last_stream_event_represents Hrep). unfold mbind, ST_bind.
  destruct (check_request _ _ _ _ _ _) as [p|e] eqn:Ec;
    [|intros [= <- <-]; split_and!; [done|lia|done]].
  apply (check_request_position _ _ _ _ _ _ _ Hrep Hlog) in Ec as ->.
  intros E. apply store_events_spec in E as (Hdb & Hseq & Hr). split_and!; [done|done|].
  destruct r as [[raws added']|]; [|done].
  destruct Hr as (nraws & nadded & -> & -> & Hs' & Hrun). cbn [app] in *.
  replace (_ - 1 + Z.of_nat 0 + 1)%Z with (stream_length log cat (rq_stream rq)) in Hrun by lia.
  exists nadded. split_and!; [done|done|done|].
  rewrite app_assoc. apply (contiguous_app _ cat (rq_stream rq)); [done|..].
  - intros e He. by destruct (stored_run_elem _ _ _ _ _ _ _ _ Hrun He) as (? & ? & _).
  - rewrite stream_length_app. unfold stream_length at 2. rewrite Hnone. cbn.
    rewrite Z.add_0_r. destruct (stored_run_numbers _ _ _ _ _ _ _ Hrun) as [_ ->].
    by destruct Hrun as (_ & -> & _).
Qed.

(** What a commit does to the invariant: the added events extend the log. *)
Lemma commit_added_spec st st0 log added :
  represents (as_db st) log -> contiguous (log ++ added) ->
  (forall e, e ∈ log -> (se_sequence_number e < as_sequence st0)%Z) ->
  (0 <= as_sequence st0 <= as_sequence st)%Z ->
  NoDup (numbers_of added) ->
  (forall e, e ∈ added -> (as_sequence st0 <= se_sequence_number e < as_sequence st)%Z) ->
  exists st', commit_added added st = (Ok (), st') /\ store_inv st' (log ++ added) /\
    as_sequence st' = as_sequence st.
Proof.
  intros Hrep Hc Hlt Hpos Hnd Hrange. unfold commit_added.
  destruct (tx_commit_represents (as_db st) log added) as (db' & -> & Hrep'); [done|..].
  - rewrite numbers_of_app. apply NoDup_app. split_and!; [apply Hrep| |done].
    intros n (e & He & <-)%elem_of_numbers (e1 & He1 & Heq)%elem_of_numbers.
    specialize (Hlt e He). specialize (Hrange e1 He1). lia.
  - intros e He. specialize (Hrange e He). lia.
  - eexists; split; [done|]. split; [|done]. split; cbn; [done|done| |lia].
    intros e [He|He]%elem_of_app; [specialize (Hlt e He); lia|by apply Hrange].
Qed.

(** A stream publish either appends to the stream or leaves events and indexes as they
    were: at most sequence numbers have been used up. *)
Lemma save_to_stream_appends cat s events condition st log r st' :
  store_inv st log ->
  save_to_stream uuid4 conditions cat s events condition st = (r, st') ->
  match r with
  | Ok raws => exists new,
      store_inv st' (log ++ new) /\
      stored_run cat s (stream_length log cat s) (as_sequence st) events raws new /\
      as_sequence st' = (as_sequence st + Z.of_nat (length events))%Z
  | Raise _ => as_db st' = as_db st /\ store_inv st' log
  end.
Proof.
  intros [Hrep Hc Hlt Hpos]. unfold save_to_stream, mbind, ST_bind.
  destruct (save_request _ _ _ _ _ _) as [[[raws added]|e] st1] eqn:E;
    apply (save_request_spec _ _ _ _ log) in E as (Hdb & Hseq & Hr);
    rewrite ?app_nil_r; try done; cbn in Hr.
  - destruct Hr as (new & -> & Hs1 & Hrun & Hc').
    edestruct (commit_added_spec st1 st log new) as (st2 & Hcom & Hinv & Hs2).
    + by rewrite Hdb.
    + done.
    + done.
    + lia.
    + destruct (stored_run_numbers _ _ _ _ _ _ _ Hrun) as [-> _]. apply NoDup_seqZ.
    + intros e He. destruct (stored_run_elem _ _ _ _ _ _ _ _ Hrun He) as (_ & _ & _ & ?). lia.
    + cbn. rewrite Hcom. intros [= <- <-]. exists new.
      split_and!; [done|done|]. cbn in *. lia.
  - intros [= <- <-]. split; [done|]. split; [by rewrite Hdb|done| |lia].
    intros e1 He1. specialize (Hlt e1 He1). lia.
Qed.
End save_lemmas.

(** ** Category publishes *)

Lemma sorted_requests_streams (streams : dict string StreamPublishDefinition) :
  rq_stream <$> sorted_requests streams = sorted_strings (dict_keys streams).
Proof.
  unfold sorted_requests.
  assert (forall name, name ∈ sorted_strings (dict_keys streams) ->
    is_Some (dict_get streams name)) as Hall.
  { intros name. rewrite elem_of_sorted_strings. by intros ?%dict_get_is_Some. }
  induction (sorted_strings _) as [|name names IH]; cbn; [done|].
  destruct (Hall name) as [d ->]; [constructor|]. cbn. f_equal.
  apply IH. intros; apply Hall; by constructor.
Qed.

Lemma sorted_requests_elem (streams : dict string StreamPublishDefinition) name d :
  NoDup (dict_keys streams) -> dict_get streams name = Some d ->
  stream_request name d ∈ sorted_requests streams.
Proof.
  intros _ Hd. apply list_elem_of_omap. exists name. split; [|by rewrite Hd].
  apply elem_of_sorted_strings, dict_get_is_Some. by eexists.
Qed.

Section category.
Context `{UserCode} (uuid4 : nat -> string).
Context (conditions : gmap string (ConditionConverter (InMemoryEventsDB * list StoredEvent))).

(** The state of a transaction that started when the next number was [lo]. *)
Record tx_inv (log : list StoredEvent) (lo hi : Z) (added : list StoredEvent) : Prop := {
  tx_contiguous : contiguous (log ++ added);
  tx_NoDup : NoDup (numbers_of added);
  tx_range : forall e, e ∈ added -> (lo <= se_sequence_number e < hi)%Z
}.

Lemma tx_inv_app log lo mid hi added new :
  tx_inv log lo mid added -> contiguous (log ++ added ++ new) ->
  numbers_of new = seqZ mid (Z.of_nat (length new)) ->
  (lo <= mid)%Z -> hi = (mid + Z.of_nat (length new))%Z -> tx_inv log lo hi (added ++ new).
Proof.
  intros [_ Hnd Hr] Hc Hnum Hlo ->.
  assert (forall e, e ∈ new -> (mid <= se_sequence_number e < mid + Z.of_nat (length new))%Z) as Hn.
  { intros e He. apply elem_of_seqZ. rewrite <-Hnum. apply elem_of_numbers. by exists e. }
  split; [done| |].
  - rewrite numbers_of_app. apply NoDup_app. split_and!; [done| |rewrite Hnum; apply NoDup_seqZ].
    intros n (e & He & <-)%elem_of_numbers (e1 & He1 & Heq)%elem_of_numbers.
    specialize (Hr e He). specialize (Hn e1 He1). lia.
  - intros e [He|He]%elem_of_app; [specialize (Hr e He)|specialize (Hn e He)]; lia.
Qed.

(** The outcome recorded for one request: its events, stored after those the stream had. *)
Definition request_stored (cat : string) (log new : list StoredEvent)
    (results : dict string (list StoredEvent)) (rq : StreamRequest) : Prop :=
  exists raws n, dict_get results (rq_stream rq) = Some raws /\
    stored_run cat (rq_stream rq) (stream_length log cat (rq_stream rq)) n (rq_events rq) raws
      (log_of (StreamIdentifier cat (rq_stream rq)) new).

Lemma stored_batch_log_of cat s p evs raws new s' :
  stored_batch cat s p evs raws new ->
  log_of (StreamIdentifier cat s') new = if decide (s = s') then new else [].
Proof.
  intros Hrun. case_decide as Hs; subst.
  - apply log_of_all. intros e He. apply in_stream.
    by destruct (stored_batch_elem _ _ _ _ _ _ _ Hrun He) as (? & ? & _).
  - apply log_of_none. intros e He. apply not_true_is_false. rewrite in_stream.
    destruct (stored_batch_elem _ _ _ _ _ _ _ Hrun He) as (? & ? & _). naive_solver.
Qed.

Lemma stored_run_log_of cat s p n evs raws new s' :
  stored_run cat s p n evs raws new ->
  log_of (StreamIdentifier cat s') new = if decide (s = s') then new else [].
Proof. intros Hrun%stored_run_batch. by eapply stored_batch_log_of. Qed.

Lemma save_requests_spec cat log lo requests added results st r st' :
  represents (as_db st) log -> contiguous log -> tx_inv log lo (as_sequence st) added ->
  (lo <= as_sequence st)%Z ->
  NoDup (rq_stream <$> requests) ->
  (forall rq, rq ∈ requests -> log_of (StreamIdentifier cat (rq_stream rq)) added = []) ->
  save_requests uuid4 conditions cat requests added results st = (r, st') ->
  as_db st' = as_db st /\ (as_sequence st <= as_sequence st')%Z /\
  match r with
  | Raise _ => True
  | Ok (results', added') => exists new,
      added' = added ++ new /\ tx_inv log lo (as_sequence st') added' /\
      (forall name, name ∉ rq_stream <$> requests ->
        dict_get results' name = dict_get results name /\
        log_of (StreamIdentifier cat name) new = []) /\
      forall rq, rq ∈ requests -> request_stored cat log new results' rq
  end.
Proof.
  intros Hrep Hlog. revert added results st Hrep.
  induction requests as [|rq requests IH]; intros added results st Hrep Htx Hlo Hnd Hnone; cbn.
  { intros [= <- <-]. split_and!; [done|lia|]. exists []. rewrite app_nil_r.
    split_and!; [done|done|done|]. by intros ? ?%not_elem_of_nil. }
  rewrite fmap_cons in Hnd. apply NoDup_cons in Hnd as [Hrq Hnd]. unfold mbind, ST_bind.
  destruct (save_request _ _ _ _ _ _) as [[[raws added1]|e] st1] eqn:E1;
    apply (save_request_spec _ _ _ _ _ _ log) in E1 as (Hdb & Hseq & Hr);
    try done; [|apply Htx|apply Hnone; constructor|
      intros [= <- <-]; split_and!; [done|lia|done]|apply Htx|apply Hnone; constructor].
  destruct Hr as (new & -> & Hs1 & Hrun & Hc). cbn [fst snd].
  destruct (stored_run_numbers _ _ _ _ _ _ _ Hrun) as [Hnum _].
  pose proof Hrun as (_ & Hlen & _).
  intros E. apply IH in E as (Hdb' & Hseq' & Hr).
  - split_and!; [congruence|lia|]. destruct r as [[results' added']|]; [|done].
    destruct Hr as (new' & -> & Htx' & Hother & Hreq). exists (new ++ new').
    rewrite <-app_assoc in Htx' |- *. split_and!; [done|done| |].
    + intros name Hname. apply not_elem_of_cons in Hname as [Hne Hname].
      destruct (Hother name Hname) as [Hg Hl]. rewrite Hg, log_of_app, Hl, dict_get_set_ne by done.
      split; [done|]. rewrite (stored_run_log_of _ _ _ _ _ _ _ name Hrun).
      by rewrite decide_False.
    + intros rq' [->|Hin]%elem_of_cons.
      * destruct (Hother (rq_stream rq) Hrq) as [Hg Hl]. exists raws, (as_sequence st).
        rewrite Hg, dict_get_set_eq. split; [done|].
        rewrite log_of_app, Hl, app_nil_r, (stored_run_log_of _ _ _ _ _ _ _ _ Hrun).
        by rewrite decide_True.
      * destruct (Hreq rq' Hin) as (raws' & n & Hg & Hrun'). exists raws', n. split; [done|].
        rewrite log_of_app, (stored_run_log_of _ _ _ _ _ _ _ _ Hrun), decide_False; [done|].
        intros Heq. apply Hrq. rewrite Heq. apply list_elem_of_fmap. by exists rq'.
  - by rewrite Hdb.
  - eapply tx_inv_app; [done|done| |done|]; rewrite Hlen; [done|lia].
  - lia.
  - done.
  - intros rq' Hin. rewrite log_of_app, (stored_run_log_of _ _ _ _ _ _ _ _ Hrun).
    rewrite Hnone by by constructor. rewrite decide_False; [done|].
    intros Heq. apply Hrq. rewrite Heq. apply list_elem_of_fmap. by exists rq'.
Qed.

(** C3. A category publish is atomic over all of its streams. When it returns, every stream
    named in the request has all of its new events, at positions continuing its own,
    and the result maps each stream's name to them; when it raises at any stream, no
    stream has changed. *)
Theorem save_to_category_spec cat (streams : dict string StreamPublishDefinition)
    st log r st' :
  store_inv st log -> NoDup (dict_keys streams) ->
  save_to_category uuid4 conditions cat streams st = (r, st') ->
  match r with
  | Ok results => exists new,
      store_inv st' (log ++ new) /\
      forall name d, dict_get streams name = Some d ->
        request_stored cat log new results (stream_request name d)
  | Raise _ => as_db st' = as_db st /\ store_inv st' log
  end.
Proof.
  intros [Hrep Hc Hlt Hpos] Hnd. unfold save_to_category, mbind, ST_bind.
  destruct (save_requests _ _ _ _ _ _ _) as [[[results added]|e] st1] eqn:E;
    apply (save_requests_spec _ log (as_sequence st)) in E as (Hdb & Hseq & Hr);
    try done; try lia;
    try (rewrite sorted_requests_streams; by apply sorted_strings_NoDup);
    try (by split; rewrite ?app_nil_r; [done|constructor|intros ? ?%not_elem_of_nil]).
  - destruct Hr as (new & -> & [Hc' Hnd' Hr'] & _ & Hreq). cbn [app] in *.
    edestruct (commit_added_spec st1 st log new) as (st2 & Hcom & Hinv & Hs2);
      [by rewrite Hdb|done|done|lia|done|done|].
    cbn. rewrite Hcom. intros [= <- <-]. exists new. split; [done|].
    intros name d Hd. apply Hreq. by apply sorted_requests_elem.
  - intros [= <- <-]. split; [done|]. split; [by rewrite Hdb|done| |lia].
    intros e1 He1. specialize (Hlt e1 He1). lia.
Qed.
End category.

(** ** Conditions decide *)

Definition storable `{UserCode} (ev : NewEvent) : Prop :=
  is_ok (serialise_to_string (ne_name ev) raising_serialisation_fallback) = true /\
  is_ok (serialise_to_json_value (ne_payload ev) raising_serialisation_fallback) = true.

Section conditional.
Context `{UserCode} (uuid4 : nat -> string).
Context (reg : gmap string (ConditionConverter (InMemoryEventsDB * list StoredEvent))).
Notation conditions := (with_default_condition_converters reg).

Lemma store_events_storable c s p k evs raws added st :
  Forall storable evs ->
  exists out st', store_events uuid4 c s p k evs raws added st = (Ok out, st').
Proof.
  intros Hevs. revert k raws added st.
  induction Hevs as [|ev evs [Hn Hp] _ IH]; intros k raws added st; cbn; [by eexists _, _|].
  unfold mbind, ST_bind, store_event.
  destruct (serialise_to_string _ _); [|done].
  destruct (serialise_to_json_value _ _); [|done]. apply IH.
Qed.

Lemma check_request_standard cat rq added db log :
  represents db log -> standard (rq_condition rq) = true ->
  let latest := last (log_of (StreamIdentifier cat (rq_stream rq)) log) in
  if satisfied (rq_condition rq) latest
  then exists p, check_request conditions cat rq latest added db = Ok p
  else exists m, check_request conditions cat rq latest added db =
    Raise (UnmetWriteConditionError m).
Proof.
  intros Hrep Hstd. cbn zeta.
  destruct (convert_condition_enough reg (rq_condition rq) _ Hstd (Nat.lt_succ_diag_r _))
    as (enf & He & Henf).
  unfold check_request, convert_condition. rewrite He. cbn [mbind res_bind].
  specialize (Henf (mkContext (StreamIdentifier cat (rq_stream rq))
    (last (log_of (StreamIdentifier cat (rq_stream rq)) log))) (db, added)).
  unfold mbind, res_bind. cbn [ctx_latest_event] in Henf. destruct (satisfied _ _).
  - cbn in Henf. rewrite Henf. rewrite (last_stream_position_represents Hrep). by eexists.
  - destruct Henf as [m ->]. by exists m.
Qed.

Lemma save_to_stream_unmet cat s events condition st log :
  store_inv st log -> standard condition = true ->
  satisfied condition (last (log_of (StreamIdentifier cat s) log)) = false ->
  exists m, save_to_stream uuid4 conditions cat s events condition st =
    (Raise (UnmetWriteConditionError m), st).
Proof.
  intros [Hrep Hc Hlt Hpos] Hstd Es.
  pose proof (check_request_standard cat (mkRequest s events condition) [] (as_db st) log
    Hrep Hstd) as Hcheck. cbn [rq_stream rq_condition] in Hcheck. cbn zeta in Hcheck.
  rewrite Es in Hcheck. destruct Hcheck as [m Hm]. exists m.
  unfold save_to_stream, save_request, st_lift, mbind, ST_bind. cbn [rq_stream].
  by rewrite (last_stream_event_represents Hrep), Hm.
Qed.

Lemma save_to_stream_met cat s events condition st log :
  store_inv st log -> standard condition = true -> Forall storable events ->
  satisfied condition (last (log_of (StreamIdentifier cat s) log)) = true ->
  exists raws st', save_to_stream uuid4 conditions cat s events condition st = (Ok raws, st').
Proof.
  intros [Hrep Hc Hlt Hpos] Hstd Hevs Es.
  pose proof (check_request_standard cat (mkRequest s events condition) [] (as_db st) log
    Hrep Hstd) as Hcheck. cbn [rq_stream rq_condition] in Hcheck. cbn zeta in Hcheck.
  rewrite Es in Hcheck.
  destruct Hcheck as [p Hp].
  destruct (store_events_storable cat s p 0 events [] [] st Hevs) as ([raws added] & st1 & E).
  assert (save_request uuid4 conditions cat (mkRequest s events condition) [] st =
    (Ok (raws, added), st1)) as Es1.
  { unfold save_request, st_lift, mbind, ST_bind. cbn [rq_stream rq_events].
    by rewrite (last_stream_event_represents Hrep), Hp. }
  destruct (save_to_stream uuid4 conditions cat s events condition st) as [[raws1|e] st2] eqn:E2.
  + by exists raws1, st2.
  + exfalso. revert E2. unfold save_to_stream, mbind, ST_bind. rewrite Es1.
    apply (save_request_spec _ _ _ _ _ _ log) in Es1 as (Hdb & Hseq & new & -> & Hs1 & Hrun & Hc');
      [|done|done|by rewrite app_nil_r|done].
    edestruct (commit_added_spec st1 st log new) as (st3 & Hcom & _).
    * by rewrite Hdb.
    * done.
    * done.
    * lia.
    * destruct (stored_run_numbers _ _ _ _ _ _ _ Hrun) as [-> _]. apply NoDup_seqZ.
    * intros e0 He. destruct (stored_run_elem _ _ _ _ _ _ _ _ Hrun He) as (_ & _ & _ & ?).
      cbn in *. lia.
    * cbn in Hcom |- *. by rewrite Hcom.
Qed.

(** C2. A stream publish either appends to the stream or changes nothing. When it returns,
    the condition held of the stream's latest event and the log has grown by one event
    per event published, at positions that continue the stream's 0, 1, 2, ... and with
    fresh consecutive sequence numbers, and the caller gets the events back with their own
    names and payloads. When it raises the events and indexes are as before; and if the
    events can be serialised it raises only UnmetWriteConditionError, only when the
    condition fails, with the whole state, sequence included, untouched. *)
Theorem save_to_stream_spec cat s events condition st log r st' :
  store_inv st log -> standard condition = true ->
  save_to_stream uuid4 conditions cat s events condition st = (r, st') ->
  let met := satisfied condition (last (log_of (StreamIdentifier cat s) log)) in
  match r with
  | Ok raws => met = true /\ exists new,
      store_inv st' (log ++ new) /\
      stored_run cat s (stream_length log cat s) (as_sequence st) events raws new /\
      as_sequence st' = (as_sequence st + Z.of_nat (length events))%Z
  | Raise e => as_db st' = as_db st /\ store_inv st' log /\
      (Forall storable events -> met = false /\ is_unmet r = true /\ st' = st)
  end.
Proof.
  intros Hinv Hstd Hsave met. pose proof (save_to_stream_appends _ _ _ _ _ _ _ _ _ _ Hinv Hsave) as Hr.
  destruct met eqn:Hmet.
  - destruct r as [raws|e]; [done|]. split_and!; [apply Hr..|]. intros Hevs.
    destruct (save_to_stream_met _ _ _ _ _ _ Hinv Hstd Hevs Hmet) as (? & ? & E). congruence.
  - destruct (save_to_stream_unmet cat s events _ _ _ Hinv Hstd Hmet) as [m E].
    rewrite E in Hsave. by injection Hsave as <- <-.
Qed.
End conditional.

(** ** Reads *)

(** The constraints the default registry knows, and what they ask. *)
Definition constraint_holds (c : QueryConstraint) (e : StoredEvent) : bool :=
  match c with
  | SequenceNumberAfterConstraint n => (n <? se_sequence_number e)%Z
  | CustomConstraint _ _ => false
  end.

Definition standard_constraint (c : QueryConstraint) : bool :=
  match c with SequenceNumberAfterConstraint _ => true | CustomConstraint _ _ => false end.

Lemma default_constraint_convert reg c :
  standard_constraint c = true ->
  registry_convert constraint_class (with_default_constraint_converters reg) c =
  Ok (constraint_holds c).
Proof.
  destruct c; [|done]. intros _. unfold registry_convert, with_default_constraint_converters,
    registry_register. cbn [constraint_class]. by rewrite lookup_insert_eq.
Qed.

Section reads.
Context (reg : gmap string (QueryConstraint -> res QueryConstraintCheck)).
Context (st : AdapterState) (log : list StoredEvent) (Hinv : store_inv st log).

Lemma db_snapshot_id db : db_snapshot db = db.
Proof. by destruct db. Qed.

Lemma latest_represents t : scannable t = true -> latest st t = Ok (last (log_of t log)).
Proof. destruct Hinv. unfold latest. rewrite db_snapshot_id. by apply last_event_represents. Qed.

Lemma scan_represents t cs :
  scannable t = true -> (forall c, c ∈ cs -> standard_constraint c = true) ->
  scan (with_default_constraint_converters reg) st t cs =
  gen_of (List.filter (fun e => forallb (fun c => constraint_holds c e) cs) (log_of t log)).
Proof.
  intros Ht Hcs. destruct Hinv as [Hrep _ _ _]. unfold scan, scan_events.
  rewrite db_snapshot_id, (select_index_represents Hrep) by done.
  apply (scan_index_represents Hrep _ constraint_holds).
  - intros c Hc. by apply default_constraint_convert, Hcs.
  - by intros e [? _]%elem_of_log_of.
Qed.
End reads.

(** C4. Reads see exactly the committed log. [latest] is the last event committed to the
    target (the whole log, a category or a stream), and a scan yields the target's events
    in commit order, those that meet every constraint, without raising; identifiers of
    partitions are refused by both with a [ValueError]. *)
Theorem reads_represent reg st log t cs :
  store_inv st log -> (forall c, c ∈ cs -> standard_constraint c = true) ->
  if scannable t
  then latest st t = Ok (last (log_of t log)) /\
    scan (with_default_constraint_converters reg) st t cs =
    gen_of (List.filter (fun e => forallb (fun c => constraint_holds c e) cs) (log_of t log))
  else is_value_error (latest st t) = true /\
    exists m, scan (with_default_constraint_converters reg) st t cs = gen_raise (ValueError m).
Proof.
  intros Hinv Hcs. destruct (scannable t) eqn:Ht.
  - split; [by apply latest_represents|by apply scan_represents].
  - unfold latest, last_event, scan, scan_events. destruct t; try discriminate Ht; cbn; eauto.
Qed.

(** ** Witnesses *)

Lemma initial_store_inv : store_inv initial_state [].
Proof.
  split; [apply represents_empty|done|by intros ? ?%not_elem_of_nil|done].
Qed.

Definition default_conditions
    : gmap string (ConditionConverter (InMemoryEventsDB * list StoredEvent)) :=
  with_default_condition_converters ∅.
Definition constant_uuid (n : nat) : string := "0af3".
Definition order_placed : NewEvent := mkNewEvent (VStr "placed") (mk_obj [("id"%string, VInt 7)]) 0 0.

Lemma save_to_stream_spec_witness :
  exists r st' new,
    @save_to_stream no_user_code constant_uuid default_conditions "orders" "1"
      [order_placed; order_placed] EmptyStreamCondition initial_state = (Ok r, st') /\
    store_inv st' new /\
    @stored_run no_user_code "orders" "1" 0 0 [order_placed; order_placed] r new /\
    as_sequence st' = 2%Z.
Proof.
  destruct (@save_to_stream no_user_code constant_uuid default_conditions "orders" "1"
    [order_placed; order_placed] EmptyStreamCondition initial_state) as [r st'] eqn:E.
  pose proof (@save_to_stream_spec no_user_code _ ∅ _ _ _ EmptyStreamCondition _ [] _ _
    initial_store_inv eq_refl E) as H.
  destruct r as [r|e]; [|vm_compute in E; discriminate E].
  destruct H as (_ & new & Hinv & Hrun & Hseq). by exists r, st', new.
Defined.

Lemma save_to_category_spec_witness :
  exists r st' new,
    @save_to_category no_user_code constant_uuid default_conditions "orders"
      [("2"%string, mkDefinition [order_placed] None);
       ("1"%string, mkDefinition [order_placed] (Some EmptyStreamCondition))] initial_state
      = (Ok r, st') /\
    store_inv st' new /\
    @request_stored no_user_code "orders" [] new r
      (stream_request "2" (mkDefinition [order_placed] None)).
Proof.
  destruct (@save_to_category no_user_code constant_uuid default_conditions "orders"
      [("2"%string, mkDefinition [order_placed] None);
       ("1"%string, mkDefinition [order_placed] (Some EmptyStreamCondition))] initial_state)
    as [r st'] eqn:E.
  refine (_ (@save_to_category_spec no_user_code _ _ _ _ _ [] _ _ initial_store_inv _ E)).
  2: repeat constructor; set_solver.
  intros H.
  destruct r as [r|e]; [|vm_compute in E; discriminate E].
  destruct H as (new & Hinv & Hreq). exists r, st', new. split; [done|]. split; [done|].
  by apply Hreq.
Defined.

Lemma reads_represent_witness :
  latest initial_state LogIdentifier = Ok None /\
  scan (with_default_constraint_converters ∅) initial_state LogIdentifier
    [SequenceNumberAfterConstraint 3] = gen_of [].
Proof.
  apply (reads_represent ∅ initial_state [] LogIdentifier [SequenceNumberAfterConstraint 3]
    initial_store_inv). by intros c ->%list_elem_of_singleton.
Defined.
