(* ===== verification/AdapterConcurrency.v ===== *)
(** Concurrent saves through the in-memory adapter: the coroutines of
    [store/adapters/memory/adapter.py] cut at their [await] points and interleaved under
    the locks of [memory/locks.py].

    A step of the model runs a task at most as far as its next [await], so the
    interleavings of the program are among those of [step]. *)
From S2P Require Import Prelude Values Conversion Events Conditions EventsDB MemoryAdapter.

(** ** Calls and their locks *)

Inductive SaveCall :=
  | StreamSave (category stream : string) (events : list NewEvent) (condition : WriteCondition)
  | CategorySave (category : string) (streams : dict string StreamPublishDefinition).

Definition call_category (call : SaveCall) : string :=
  match call with StreamSave c _ _ _ => c | CategorySave c _ => c end.

Definition call_requests (call : SaveCall) : list StreamRequest :=
  match call with
  | StreamSave _ s events condition => [mkRequest s events condition]
  | CategorySave _ streams => sorted_requests streams
  end.

(** The names of the locks a save takes, in the order it takes them. *)
Definition call_locks (guarantee : EventSerialisationGuarantee) (call : SaveCall)
    : res (list string) :=
  match call with
  | StreamSave c s _ _ => (fun name => [name]) <$> memory_lock_name guarantee (StreamIdentifier c s)
  | CategorySave c streams => determine_required_locks guarantee c streams
  end.

(** A mapping has one entry per stream name. *)
Definition well_formed_call (call : SaveCall) : Prop :=
  match call with StreamSave _ _ _ _ => True | CategorySave _ streams => NoDup (dict_keys streams) end.

(** ** Tasks *)

Abbreviation Results := (dict string (list StoredEvent)).

(** Where a save stands: taking its locks, about to read the next request's stream (or to
    commit when none is left), about to check a condition against the event it read, in
    the loop over the new events, or done. *)
Inductive Phase :=
  | Acquiring (todo : list string)
  | Reading (todo : list StreamRequest) (added : list StoredEvent) (results : Results)
  | Checking (rq : StreamRequest) (latest : option StoredEvent)
      (todo : list StreamRequest) (added : list StoredEvent) (results : Results)
  | Appending (rq : StreamRequest) (position : Z) (count : nat) (events : list NewEvent)
      (stored : list StoredEvent) (todo : list StreamRequest) (added : list StoredEvent)
      (results : Results)
  | Finished (outcome : res Results).

Record Task := mkTask { tk_call : SaveCall; tk_held : list string; tk_phase : Phase }.

Record Config := mkConfig {
  cf_state : AdapterState;
  cf_locks : gmap string nat;      (** the task that holds each lock *)
  cf_tasks : gmap nat Task
}.

Definition initial_config : Config := mkConfig initial_state ∅ ∅.

Definition in_body (ph : Phase) : bool :=
  match ph with Acquiring _ | Finished _ => false | _ => true end.

(** [lock.async_release()] for each lock held. *)
Definition release (held : list string) (locks : gmap string nat) : gmap string nat :=
  foldr delete locks held.

Section concurrency.
Context `{UserCode} (uuid4 : nat -> string).
Context (conditions : gmap string (ConditionConverter (InMemoryEventsDB * list StoredEvent))).
Context (guarantee : EventSerialisationGuarantee).

(** One uninterrupted stretch of the body of a save. *)
Definition run_phase (cat : string) (st : AdapterState) (ph : Phase) : AdapterState * Phase :=
  match ph with
  | Reading [] added results =>
      match commit_added added st with
      | (Ok _, st') => (st', Finished (Ok results))
      | (Raise e, st') => (st', Finished (Raise e))
      end
  | Reading (rq :: todo) added results =>
      match last_stream_event (as_db st) cat (rq_stream rq) with
      | Ok latest => (st, Checking rq latest todo added results)
      | Raise e => (st, Finished (Raise e))
      end
  | Checking rq latest todo added results =>
      match check_request conditions cat rq latest added (as_db st) with
      | Ok position => (st, Appending rq position 0 (rq_events rq) [] todo added results)
      | Raise e => (st, Finished (Raise e))
      end
  | Appending rq position count [] stored todo added results =>
      (st, Reading todo added (dict_set results (rq_stream rq) stored))
  | Appending rq position count (event :: events) stored todo added results =>
      match store_event uuid4 cat (rq_stream rq) position count event st with
      | (Ok (raw, serialised), st') =>
          (st', Appending rq position (S count) events (stored ++ [raw]) todo
             (tx_add added serialised) results)
      | (Raise e, st') => (st', Finished (Raise e))
      end
  | Acquiring _ | Finished _ => (st, ph)
  end.

(** What the program itself does for task [id]: take the next lock, enter the critical
    section, run a stretch of its body, or leave it (the locks are given back). *)
Inductive advance (id : nat) : Config -> Config -> Prop :=
  | advance_acquire st locks tasks call held name todo :
      tasks !! id = Some (mkTask call held (Acquiring (name :: todo))) ->
      locks !! name = None ->
      advance id (mkConfig st locks tasks)
        (mkConfig st (<[name := id]> locks)
           (<[id := mkTask call (held ++ [name]) (Acquiring todo)]> tasks))
  | advance_enter st locks tasks call held :
      tasks !! id = Some (mkTask call held (Acquiring [])) ->
      advance id (mkConfig st locks tasks)
        (mkConfig st locks (<[id := mkTask call held (Reading (call_requests call) [] [])]> tasks))
  | advance_run st locks tasks call held ph st' ph' :
      tasks !! id = Some (mkTask call held ph) -> in_body ph = true ->
      run_phase (call_category call) st ph = (st', ph') -> in_body ph' = true ->
      advance id (mkConfig st locks tasks)
        (mkConfig st' locks (<[id := mkTask call held ph']> tasks))
  | advance_finish st locks tasks call held ph st' outcome :
      tasks !! id = Some (mkTask call held ph) -> in_body ph = true ->
      run_phase (call_category call) st ph = (st', Finished outcome) ->
      advance id (mkConfig st locks tasks)
        (mkConfig st' (release held locks) (<[id := mkTask call [] (Finished outcome)]> tasks)).

(** Those steps, and what the environment does: launch saves and cancel tasks. *)
Inductive step : Config -> Config -> Prop :=
  | step_advance id cfg cfg' : advance id cfg cfg' -> step cfg cfg'
  | step_launch st locks tasks id call names :
      tasks !! id = None -> well_formed_call call -> call_locks guarantee call = Ok names ->
      step (mkConfig st locks tasks)
        (mkConfig st locks (<[id := mkTask call [] (Acquiring names)]> tasks))
  | step_cancel st locks tasks id call held ph :
      (** The task is cancelled at an [await] inside the critical section. *)
      tasks !! id = Some (mkTask call held ph) -> in_body ph = true ->
      step (mkConfig st locks tasks)
        (mkConfig st (release held locks)
           (<[id := mkTask call [] (Finished (Raise CancelledError))]> tasks))
  | step_cancel_acquire st locks tasks id call held todo :
      (** Cancelled while waiting for a lock: [MultiLock.__aenter__] gives back none of
          the locks it already took. *)
      tasks !! id = Some (mkTask call held (Acquiring todo)) ->
      step (mkConfig st locks tasks)
        (mkConfig st locks (<[id := mkTask call held (Finished (Raise CancelledError))]> tasks)).

Definition reachable (cfg : Config) : Prop := rtc step initial_config cfg.

(** ** The lock that covers a stream *)

Definition stream_lock (c s : string) : string :=
  match guarantee with
  | LOG => "memory"
  | CATEGORY => "memory" +:+ "." +:+ c
  | STREAM => "memory" +:+ "." +:+ c +:+ "." +:+ s
  end.

Definition event_lock (e : StoredEvent) : string := stream_lock (se_category e) (se_stream e).

Lemma stream_lock_name c s : memory_lock_name guarantee (StreamIdentifier c s) = Ok (stream_lock c s).
Proof. unfold memory_lock_name, stream_lock. by destruct guarantee. Qed.

(** Every stream a save writes to is covered by a lock it takes. *)
Lemma call_locks_cover call names rq :
  call_locks guarantee call = Ok names -> rq ∈ call_requests call ->
  stream_lock (call_category call) (rq_stream rq) ∈ names.
Proof.
  destruct call as [c s events condition|c streams]; cbn [call_locks call_requests call_category].
  - rewrite stream_lock_name. cbn. intros [= <-] ->%list_elem_of_singleton. constructor.
  - intros Hl Hrq.
    assert (rq_stream rq ∈ sorted_strings (dict_keys streams)) as Hs.
    { rewrite <-sorted_requests_streams. apply list_elem_of_fmap. by exists rq. }
    unfold determine_required_locks in Hl. destruct guarantee eqn:Eg.
    + injection Hl as <-. unfold stream_lock. rewrite Eg. constructor.
    + injection Hl as <-. unfold stream_lock. rewrite Eg. constructor.
    + apply res_mapM_Ok in Hl. apply list_elem_of_lookup in Hs as [i Hi].
      destruct (Forall2_lookup_l _ _ _ _ _ Hl Hi) as (name & Hname & E).
      rewrite <-Eg in E. rewrite stream_lock_name in E. injection E as <-.
      by eapply list_elem_of_lookup_2.
Qed.

(** ** The invariant *)

Definition added_of (ph : Phase) : list StoredEvent :=
  match ph with
  | Reading _ added _ | Checking _ _ _ added _ | Appending _ _ _ _ _ _ added _ => added
  | _ => []
  end.

(** The requests a phase has not started to store. *)
Definition pending_of (ph : Phase) : list StreamRequest :=
  match ph with
  | Reading todo _ _ => todo
  | Checking rq _ todo _ _ => rq :: todo
  | Appending _ _ _ _ _ todo _ _ => todo
  | _ => []
  end.

(** A transaction over [log]: what it has added continues each stream's positions, with
    numbers that are new and, stream lock by stream lock, above those of the log. *)
Record tx_ok (log : list StoredEvent) (next : Z) (names : list string)
    (added : list StoredEvent) : Prop := {
  ok_contiguous : contiguous (log ++ added);
  ok_sorted : StronglySorted Z.lt (numbers_of added);
  ok_range : forall e, e ∈ added -> (0 <= se_sequence_number e < next)%Z;
  ok_locked : forall e, e ∈ added -> event_lock e ∈ names;
  ok_above : forall e e1, e ∈ log -> e1 ∈ added -> event_lock e = event_lock e1 ->
    (se_sequence_number e < se_sequence_number e1)%Z;
  ok_fresh : forall e e1, e ∈ log -> e1 ∈ added -> se_sequence_number e <> se_sequence_number e1
}.

(** The loop over the new events of [rq] stands at the stream's next position. *)
Definition loop_ok (cat : string) (log : list StoredEvent) (ph : Phase) : Prop :=
  match ph with
  | Appending rq position count _ _ _ added _ =>
      position = (stream_length log cat (rq_stream rq) - 1)%Z /\
      Z.of_nat count = stream_length added cat (rq_stream rq)
  | _ => True
  end.

(** The requests in flight: those still to do are untouched, all are covered by locks. *)
Record requests_ok (cat : string) (names : list string) (ph : Phase) : Prop := {
  rq_untouched : forall rq, rq ∈ pending_of ph ->
    log_of (StreamIdentifier cat (rq_stream rq)) (added_of ph) = [];
  rq_distinct : NoDup (rq_stream <$> pending_of ph);
  rq_covered : forall rq, rq ∈ pending_of ph -> stream_lock cat (rq_stream rq) ∈ names;
  rq_current : match ph with
    | Appending rq _ _ _ _ todo _ _ =>
        stream_lock cat (rq_stream rq) ∈ names /\ rq_stream rq ∉ rq_stream <$> todo
    | _ => True
    end
}.

Definition body_ok (log : list StoredEvent) (next : Z) (call : SaveCall)
    (held : list string) (ph : Phase) : Prop :=
  tx_ok log next held (added_of ph) /\ loop_ok (call_category call) log ph /\
  requests_ok (call_category call) held ph.

Definition task_ok (log : list StoredEvent) (next : Z) (task : Task) : Prop :=
  match tk_phase task with
  | Acquiring todo =>
      call_locks guarantee (tk_call task) = Ok (tk_held task ++ todo) /\
      well_formed_call (tk_call task)
  | Finished _ => True
  | ph => body_ok log next (tk_call task) (tk_held task) ph
  end.

(** Later events under the same lock have larger numbers. *)
Definition later (e e1 : StoredEvent) : Prop :=
  event_lock e = event_lock e1 -> (se_sequence_number e < se_sequence_number e1)%Z.

Record config_inv (cfg : Config) (log : list StoredEvent) : Prop := {
  ci_store : store_inv (cf_state cfg) log;
  ci_later : StronglySorted later log;
  ci_held : forall id task name, cf_tasks cfg !! id = Some task -> name ∈ tk_held task ->
    cf_locks cfg !! name = Some id;
  ci_tasks : forall id task, cf_tasks cfg !! id = Some task ->
    task_ok log (as_sequence (cf_state cfg)) task;
  ci_disjoint : forall i j ti tj e e1, i <> j ->
    cf_tasks cfg !! i = Some ti -> cf_tasks cfg !! j = Some tj ->
    e ∈ added_of (tk_phase ti) -> e1 ∈ added_of (tk_phase tj) ->
    se_sequence_number e <> se_sequence_number e1
}.

(** ** Preservation *)

Lemma later_app log new :
  StronglySorted later log -> StronglySorted later new ->
  (forall e e1, e ∈ log -> e1 ∈ new -> later e e1) -> StronglySorted later (log ++ new).
Proof.
  intros Hlog Hnew Hx. induction Hlog as [|e log Hlog IH He]; cbn; [done|].
  constructor.
  - apply IH. intros; apply Hx; [by constructor|done].
  - apply Forall_app. split; [done|]. apply Forall_forall. intros; apply Hx; [constructor|done].
Qed.

Lemma sorted_later l : StronglySorted Z.lt (numbers_of l) -> StronglySorted later l.
Proof.
  induction l as [|e l IH]; intros Hs; [constructor|].
  change (numbers_of (e :: l)) with (se_sequence_number e :: numbers_of l) in Hs.
  inversion Hs as [|? ? Hs' He]; subst. constructor; [auto|].
  apply Forall_forall. intros e1 He1 _.
  apply (proj1 (Forall_forall _ _) He), elem_of_numbers. by exists e1.
Qed.

Lemma sorted_lt_NoDup l : StronglySorted Z.lt l -> NoDup l.
Proof.
  induction 1 as [|n l _ IH Hn]; constructor; [|done].
  intros Hin. pose proof (proj1 (Forall_forall _ _) Hn n Hin). lia.
Qed.

Lemma sorted_lt_snoc l n :
  StronglySorted Z.lt l -> (forall m, m ∈ l -> (m < n)%Z) -> StronglySorted Z.lt (l ++ [n]).
Proof.
  induction 1 as [|m l Hl IH Hm]; cbn; intros Hn; [repeat constructor|].
  constructor.
  - apply IH. intros; apply Hn; by constructor.
  - apply Forall_app. split; [done|]. constructor; [apply Hn; constructor|constructor].
Qed.

Lemma store_inv_next st st' log :
  store_inv st log -> as_db st' = as_db st -> (as_sequence st <= as_sequence st')%Z ->
  store_inv st' log.
Proof.
  intros [Hrep Hc Hlt Hpos] Hdb Hle. split; [by rewrite Hdb|done| |lia].
  intros e He. specialize (Hlt e He). lia.
Qed.

Lemma tx_ok_next log n n' names added :
  tx_ok log n names added -> (n <= n')%Z -> tx_ok log n' names added.
Proof. intros [] Hle. split; try done. intros e He. specialize (ok_range0 e He). lia. Qed.

Lemma task_ok_next log n n' task : task_ok log n task -> (n <= n')%Z -> task_ok log n' task.
Proof.
  unfold task_ok. intros Ht Hle.
  destruct (tk_phase task); try done; destruct Ht as (Htx & ? & ?); split_and!;
    eauto using tx_ok_next.
Qed.

(** The loop's next event, numbered with the store's next number, continues the stream. *)
Lemma tx_ok_add cat log st names added s p k ev raw stored st' :
  store_inv st log -> tx_ok log (as_sequence st) names added ->
  p = (stream_length log cat s - 1)%Z -> Z.of_nat k = stream_length added cat s ->
  stream_lock cat s ∈ names ->
  store_event uuid4 cat s p k ev st = (Ok (raw, stored), st') ->
  tx_ok log (as_sequence st') names (added ++ [stored]) /\
  se_category stored = cat /\ se_stream stored = s /\
  se_sequence_number stored = as_sequence st.
Proof.
  intros [Hrep Hc Hlt Hpos] [Hok Hs Hr Hl Ha Hf] -> Hk Hname E.
  apply store_event_spec in E as (Hdb & Hseq & Hsa).
  pose proof (sa_same _ _ _ _ _ _ _ Hsa) as Est.
  assert (se_category stored = cat /\ se_stream stored = s /\
    se_sequence_number stored = as_sequence st /\
    se_position stored = stream_length (log ++ added) cat s) as (Hcat & Hstr & Hnum & Hp).
  { rewrite Est. cbn. rewrite stream_length_app. split_and!; lia || done. }
  split_and!; [|done..]. split.
  - rewrite app_assoc. apply (contiguous_app _ cat s); [done| |].
    + by intros e ->%list_elem_of_singleton.
    + cbn [length fmap list_fmap]. rewrite Hp. by rewrite seqZ_cons by lia.
  - rewrite numbers_of_app. apply sorted_lt_snoc; [done|]. rewrite Hnum.
    intros m (e & He & <-)%elem_of_numbers. specialize (Hr e He). lia.
  - intros e [He| ->%list_elem_of_singleton]%elem_of_app; [specialize (Hr e He)|]; lia.
  - intros e [He| ->%list_elem_of_singleton]%elem_of_app; [auto|].
    unfold event_lock. by rewrite Hcat, Hstr.
  - intros e e1 He [He1| ->%list_elem_of_singleton]%elem_of_app Heq; [auto|].
    rewrite Hnum. auto.
  - intros e e1 He [He1| ->%list_elem_of_singleton]%elem_of_app; [auto|].
    specialize (Hlt e He). lia.
Qed.

Lemma run_phase_body log call held st ph st' ph' :
  store_inv st log -> body_ok log (as_sequence st) call held ph ->
  run_phase (call_category call) st ph = (st', ph') ->
  in_body ph = true -> in_body ph' = true ->
  body_ok log (as_sequence st') call held ph' /\
  as_db st' = as_db st /\ (as_sequence st <= as_sequence st')%Z /\
  (forall e, e ∈ added_of ph' ->
    e ∈ added_of ph \/ (as_sequence st <= se_sequence_number e)%Z).
Proof.
  intros Hinv (Htx & Hloop & Hreq) E Hin Hin'.
  destruct ph as [?|[|rq todo] added results|rq latest todo added results
    |rq p k [|ev evs] stored todo added results|?]; try discriminate Hin; cbn [run_phase] in E.
  - destruct (commit_added _ _) as [[] ?]; by simplify_eq.
  - destruct (last_stream_event _ _ _); simplify_eq.
    split_and!; [|done|lia|by left]. by split_and!; [| |destruct Hreq; split].
  - destruct (check_request _ _ _ _ _ _) as [p|] eqn:Ec; simplify_eq.
    destruct Hreq as [Hun Hd Hcov _]. cbn [pending_of added_of] in Hun, Hd, Hcov.
    rewrite fmap_cons in Hd. apply NoDup_cons in Hd as [Hnot Hd].
    split_and!; [|done|lia|by left]. split_and!; [done| |].
    + cbn. split.
      * eapply check_request_position; [apply Hinv|apply Hinv|done].
      * unfold stream_length. rewrite Hun by constructor. done.
    + split; cbn; [intros; apply Hun; by constructor|done|intros; apply Hcov; by constructor|].
      split; [apply Hcov; constructor|done].
  - simplify_eq. destruct Hreq as [Hun Hd Hcov Hcur].
    split_and!; [|done|lia|by left]. split_and!; [done|done|]. by split.
  - destruct (store_event _ _ _ _ _ _ _) as [[[raw ser]|] st1] eqn:Es; simplify_eq.

    destruct Hreq as [Hun Hd Hcov [Hcur Hnot]].
    cbn [pending_of added_of loop_ok] in Hun, Hd, Hcov, Hloop, Htx |- *.
    destruct Hloop as [Hp Hk].
    edestruct tx_ok_add as (Htx' & Hcat & Hstr & Hnum); [done|done|done|done|done|done|].
    apply store_event_spec in Es as (Hdb & Hseq & _).
    split_and!; [|done|lia|].
    + split_and!; [done| |].
      * cbn. split; [done|]. unfold tx_add. rewrite stream_length_app, <-Hk.
        unfold stream_length. rewrite log_of_all; [cbn; lia|].
        intros e ->%list_elem_of_singleton. by apply in_stream.
      * split; cbn [pending_of added_of]; [|done|done|done]. intros rq' Hrq'. unfold tx_add.
        rewrite log_of_app, Hun by done. apply log_of_none.
        intros e ->%list_elem_of_singleton. apply not_true_is_false. rewrite in_stream.
        intros [_ Heq]. apply Hnot. rewrite <-Hstr, Heq. apply list_elem_of_fmap. by exists rq'.
    + intros e [He| ->%list_elem_of_singleton]%elem_of_app; [auto|]. right. lia.
Qed.

Lemma run_phase_finish log call held st ph st' outcome :
  store_inv st log -> body_ok log (as_sequence st) call held ph ->
  run_phase (call_category call) st ph = (st', Finished outcome) ->
  in_body ph = true ->
  exists new, (new = [] \/ new = added_of ph) /\ store_inv st' (log ++ new) /\
    (as_sequence st <= as_sequence st')%Z.
Proof.
  intros Hinv (Htx & Hloop & Hreq) E Hin.
  assert (as_db st' = as_db st /\ (as_sequence st <= as_sequence st')%Z ->
    exists new, (new = [] \/ new = added_of ph) /\ store_inv st' (log ++ new) /\
    (as_sequence st <= as_sequence st')%Z) as Hsame.
  { intros [Hdb Hle]. exists []. rewrite app_nil_r. split_and!; [by left| |done].
    by eapply store_inv_next. }
  destruct ph as [?|[|rq todo] added results|rq latest todo added results
    |rq p k [|ev evs] stored todo added results|?]; try discriminate Hin; cbn [run_phase] in E.
  - clear Hsame. destruct Htx as [Hok Hs Hr Hl Ha Hf], Hinv as [Hrep Hc Hlt Hpos].
    cbn [added_of] in *. unfold commit_added in E.
    destruct (tx_commit_represents (as_db st) log added) as (db' & Hcom & Hrep'); [done|..].
    + rewrite numbers_of_app. apply NoDup_app. split_and!; [apply Hrep| |by apply sorted_lt_NoDup].
      intros n (e & He & <-)%elem_of_numbers (e1 & He1 & Heq)%elem_of_numbers.
      by apply (Hf e e1).
    + intros e He. by apply Hr.
    + rewrite Hcom in E. simplify_eq. exists added. split_and!; [by right| |done].
      split; cbn; [done|done| |done].
      intros e [He|He]%elem_of_app; [by apply Hlt|by apply Hr].
  - destruct (last_stream_event _ _ _); simplify_eq. apply Hsame. split; [done|lia].
  - destruct (check_request _ _ _ _ _ _); simplify_eq. apply Hsame. split; [done|lia].
  - done.
  - destruct (store_event _ _ _ _ _ _ _) as [[[]|] st1] eqn:Es; simplify_eq.
    apply store_event_spec in Es as (Hdb & Hseq & _). apply Hsame. split; [done|lia].
Qed.

(** A commit under other locks leaves a task's view of its own streams intact. *)
Lemma log_of_unlocked cat s new (names : list string) :
  (forall e, e ∈ new -> event_lock e ∉ names) -> stream_lock cat s ∈ names ->
  log_of (StreamIdentifier cat s) new = [].
Proof.
  intros Hnew Hs. apply log_of_none. intros e He. apply not_true_is_false. rewrite in_stream.
  intros [<- <-]. by apply (Hnew e He).
Qed.

Lemma contiguous_merge log new added (names : list string) :
  contiguous (log ++ new) -> contiguous (log ++ added) ->
  (forall e, e ∈ new -> event_lock e ∉ names) -> (forall e, e ∈ added -> event_lock e ∈ names) ->
  contiguous ((log ++ new) ++ added).
Proof.
  intros Hn Ha Hnew Hadded c s.
  destruct (decide (stream_lock c s ∈ names)) as [Hin|Hout].
  - rewrite !log_of_app, (log_of_unlocked c s new names) by done.
    rewrite app_nil_r, <-log_of_app. apply Ha.
  - rewrite (log_of_app _ (log ++ new)), (log_of_none _ added).
    + rewrite app_nil_r. apply Hn.
    + intros e He. apply not_true_is_false. rewrite in_stream. intros [<- <-].
      by apply Hout, Hadded.
Qed.

Lemma task_ok_foreign log new n task :
  task_ok log n task -> contiguous (log ++ new) ->
  (forall e, e ∈ new -> event_lock e ∉ tk_held task) ->
  (forall e e1, e ∈ new -> e1 ∈ added_of (tk_phase task) ->
    se_sequence_number e <> se_sequence_number e1) ->
  task_ok (log ++ new) n task.
Proof.
  intros Ht Hc Hnew Hdis. destruct task as [call held ph]. unfold task_ok in *. cbn in *.
  assert (body_ok log n call held ph -> body_ok (log ++ new) n call held ph) as Hbody.
  { intros ([Hok Hs Hr Hl Ha Hf] & Hloop & Hreq). split_and!; [|clear Hok Hs Hr Hl Ha Hf|done].
    - split; [by eapply contiguous_merge|done|done|done| |].
      + intros e e1 [He|He]%elem_of_app He1 Heq; [by apply Ha|].
        exfalso. apply (Hnew e He). rewrite Heq. by apply Hl.
      + intros e e1 [He|He]%elem_of_app He1; [by apply Hf|by apply Hdis].
    - destruct ph; try done. cbn in *. destruct Hloop as [-> Hk]. split; [|done].
      destruct Hreq as [_ _ _ [Hcur _]]. rewrite stream_length_app.
      unfold stream_length at 3. rewrite (log_of_unlocked _ _ new held) by done. cbn. lia. }
  destruct ph; auto.
Qed.

(** ** Locks *)

Lemma lookup_release held locks name :
  release held locks !! name = if decide (name ∈ held) then None else locks !! name.
Proof.
  unfold release. induction held as [|h held IH]; cbn; [done|].
  rewrite lookup_delete. destruct (decide (h = name)) as [->|Hne].
  - rewrite decide_True; [done|constructor].
  - rewrite IH. destruct (decide (name ∈ held)) as [Hin|Hout].
    + rewrite decide_True; [done|by constructor].
    + rewrite decide_False; [done|]. by inversion 1.
Qed.

(** Locks held by a task are held by no other. *)
Lemma held_exclusive cfg log i j ti tj name :
  config_inv cfg log -> i <> j -> cf_tasks cfg !! i = Some ti -> cf_tasks cfg !! j = Some tj ->
  name ∈ tk_held ti -> name ∉ tk_held tj.
Proof.
  intros Hinv Hij Hi Hj Hn Hn'. apply Hij.
  pose proof (ci_held _ _ Hinv i ti name Hi Hn) as E1.
  pose proof (ci_held _ _ Hinv j tj name Hj Hn') as E2. congruence.
Qed.

(** ** Every step preserves the invariant *)

(** A step that leaves the log and adds nothing but numbers above the old counter. *)
Lemma inv_update st st' locks locks' tasks id task' log :
  config_inv (mkConfig st locks tasks) log ->
  as_db st' = as_db st -> (as_sequence st <= as_sequence st')%Z ->
  task_ok log (as_sequence st') task' ->
  (forall e, e ∈ added_of (tk_phase task') ->
    (exists task, tasks !! id = Some task /\ e ∈ added_of (tk_phase task)) \/
    (as_sequence st <= se_sequence_number e)%Z) ->
  (forall name, name ∈ tk_held task' -> locks' !! name = Some id) ->
  (forall j tj name, j <> id -> tasks !! j = Some tj -> name ∈ tk_held tj ->
    locks' !! name = locks !! name) ->
  config_inv (mkConfig st' locks' (<[id := task']> tasks)) log.
Proof.
  intros [Hst Hlater Hheld Htasks Hdis] Hdb Hle Htask Hadded Hown Hkeep. cbn in *.
  assert (forall j tj e e1, id <> j -> tasks !! j = Some tj -> e ∈ added_of (tk_phase task') ->
    e1 ∈ added_of (tk_phase tj) -> se_sequence_number e <> se_sequence_number e1) as Hfresh.
  { intros j tj e e1 Hj Htj He He1. destruct (Hadded e He) as [(ti & Hti & He')|Hge].
    - by eapply (Hdis id j).
    - specialize (Htasks j tj Htj). unfold task_ok in Htasks.
      assert (se_sequence_number e1 < as_sequence st)%Z; [|lia].
      destruct (tk_phase tj); try (by apply not_elem_of_nil in He1);
        destruct Htasks as ([_ _ Hr _ _ _] & _ & _); by apply Hr. }
  split; cbn.
  - by eapply store_inv_next.
  - done.
  - intros j tj name. rewrite lookup_insert. case_decide as Hj; subst.
    + intros [= <-]. apply Hown.
    + intros Htj Hname. rewrite (Hkeep j tj) by auto. by eapply Hheld.
  - intros j tj. rewrite lookup_insert. case_decide as Hj; subst; [by intros [= <-]|].
    intros Htj. eapply task_ok_next; [by eapply Htasks|done].
  - intros i j ti tj e e1 Hij. rewrite !lookup_insert. repeat case_decide; subst; try done.
    + intros [= <-]. by apply Hfresh.
    + intros Hti [= <-] He He1 Heq. symmetry in Heq. revert Heq. by eapply (Hfresh i).
    + by apply Hdis.
Qed.

(** A step that ends task [id], which may have committed [new]. *)
Lemma inv_finish st st' locks tasks id task log new outcome :
  config_inv (mkConfig st locks tasks) log ->
  tasks !! id = Some task -> in_body (tk_phase task) = true ->
  (new = [] \/ new = added_of (tk_phase task)) ->
  store_inv st' (log ++ new) -> (as_sequence st <= as_sequence st')%Z ->
  config_inv (mkConfig st' (release (tk_held task) locks)
    (<[id := mkTask (tk_call task) [] (Finished outcome)]> tasks)) (log ++ new).
Proof.
  intros Hinv Hid Hin Hnew Hst' Hle. pose proof Hinv as [Hst Hlater Hheld Htasks Hdis].
  cbn in *.
  assert (tx_ok log (as_sequence st) (tk_held task) (added_of (tk_phase task)))
    as [Hok Hs Hr Hl Ha Hf].
  { specialize (Htasks id task Hid). unfold task_ok in Htasks.
    destruct (tk_phase task); try discriminate Hin; by destruct Htasks. }
  assert (forall e, e ∈ new -> e ∈ added_of (tk_phase task)) as Hsub.
  { by destruct Hnew as [->| ->]; [intros ? ?%not_elem_of_nil|]. }
  split; cbn; [done| | | |].
  - destruct Hnew as [->| ->]; [by rewrite app_nil_r|].
    apply later_app; [done|by apply sorted_later|]. intros e e1 He He1 Heq. by apply Ha.
  - intros j tj name. rewrite lookup_insert. case_decide as Hj; subst.
    + intros [= <-] ?%not_elem_of_nil. done.
    + intros Htj Hname. rewrite lookup_release, decide_False; [by eapply Hheld|].
      by eapply (held_exclusive _ _ j id).
  - intros j tj. rewrite lookup_insert. case_decide as Hj; subst; [by intros [= <-]|].
    intros Htj. eapply task_ok_next; [|done].
    apply task_ok_foreign; [by eapply Htasks|apply Hst'| |].
    + intros e He. eapply (held_exclusive _ _ id j); [done..|]. by apply Hl, Hsub.
    + intros e e1 He He1. by eapply (Hdis id j); [..|apply Hsub|].
  - intros i j ti tj e e1 Hij. rewrite !lookup_insert. repeat case_decide; subst; try done.
    + intros [= <-] _ ?%not_elem_of_nil. done.
    + intros _ [= <-] _ ?%not_elem_of_nil. done.
    + by apply Hdis.
Qed.

Lemma in_body_task_ok log n call held ph :
  in_body ph = true -> task_ok log n (mkTask call held ph) = body_ok log n call held ph.
Proof. by destruct ph. Qed.

(** A save that has its locks starts with nothing added. *)
Lemma start_task_ok log st call held :
  store_inv st log -> call_locks guarantee call = Ok held -> well_formed_call call ->
  task_ok log (as_sequence st) (mkTask call held (Reading (call_requests call) [] [])).
Proof.
  intros Hst Hok Hwf. split_and!; [|done|].
  - split; cbn; try (by intros ? ?%not_elem_of_nil); try (by intros ? ? _ ?%not_elem_of_nil).
    + rewrite app_nil_r. apply Hst.
    + constructor.
  - split; cbn [pending_of added_of]; [done| | |done].
    + destruct call as [c s evs cond|c streams]; cbn [call_requests].
      * apply NoDup_singleton.
      * rewrite sorted_requests_streams. by apply sorted_strings_NoDup.
    + intros rq. by apply call_locks_cover.
Qed.

Lemma step_preserves cfg cfg' log :
  config_inv cfg log -> step cfg cfg' ->
  exists new, config_inv cfg' (log ++ new).
Proof.
  intros Hinv Hstep. destruct Hstep as
    [id cfg cfg' [st locks tasks call held name todo Hid Hfree
      |st locks tasks call held Hid
      |st locks tasks call held ph st' ph' Hid Hin Hrun Hin'
      |st locks tasks call held ph st' outcome Hid Hin Hrun]
    |st locks tasks id call names Hnone Hwf Hnames
    |st locks tasks id call held ph Hid Hin
    |st locks tasks id call held todo Hid].
  5: exists []; rewrite app_nil_r; eapply inv_update; [done|done|lia|done|..|done]; cbn;
      by intros ? ?%not_elem_of_nil.
  - exists []. rewrite app_nil_r. pose proof (ci_tasks _ _ Hinv id _ Hid) as [Hok Hwf].
    pose proof (ci_held _ _ Hinv id _ name Hid) as Hh. cbn in *.
    eapply inv_update; [done|done|lia| |by intros ? ?%not_elem_of_nil| |].
    + split; cbn; [by rewrite <-app_assoc|done].
    + cbn. intros nm [Hnm| ->%list_elem_of_singleton]%elem_of_app.
      * rewrite lookup_insert_ne; [by apply (ci_held _ _ Hinv id _ nm Hid)|].
        intros ->. specialize (Hh Hnm). congruence.
      * apply lookup_insert_eq.
    + cbn. intros j tj nm Hj Htj Hnm. rewrite lookup_insert_ne; [done|].
      intros ->. pose proof (ci_held _ _ Hinv j tj nm Htj Hnm). cbn in *. congruence.
  - exists []. rewrite app_nil_r. pose proof (ci_tasks _ _ Hinv id _ Hid) as [Hok Hwf].
    pose proof (ci_store _ _ Hinv) as Hst. cbn in *. rewrite app_nil_r in Hok.
    eapply inv_update; [done|done|lia|by apply start_task_ok|by intros ? ?%not_elem_of_nil| |done].
    intros name. apply (ci_held _ _ Hinv id _ name Hid).
  - exists []. rewrite app_nil_r. pose proof (ci_tasks _ _ Hinv id _ Hid) as Hok.
    rewrite in_body_task_ok in Hok by done. cbn in Hok.
    destruct (run_phase_body _ _ _ _ _ _ _ (ci_store _ _ Hinv) Hok Hrun Hin Hin')
      as (Hok' & Hdb & Hle & Hadded).
    eapply inv_update; [done|done|done| | | |done].
    + by rewrite in_body_task_ok.
    + intros e He. destruct (Hadded e He); [left; by eexists|by right].
    + intros name. apply (ci_held _ _ Hinv id _ name Hid).
  - pose proof (ci_tasks _ _ Hinv id _ Hid) as Hok.
    rewrite in_body_task_ok in Hok by done. cbn in Hok.
    destruct (run_phase_finish _ _ _ _ _ _ _ (ci_store _ _ Hinv) Hok Hrun Hin)
      as (new & Hnew & Hst' & Hle).
    exists new. by eapply (inv_finish _ _ _ _ _ (mkTask call held ph)).
  - exists []. eapply (inv_finish _ _ _ _ _ (mkTask call held ph)); [done|done|done|by left| |done].
    rewrite app_nil_r. apply (ci_store _ _ Hinv).
  - exists []. rewrite app_nil_r.
    eapply inv_update; [done|done|lia|done|by intros ? ?%not_elem_of_nil| |done].
    intros name. apply (ci_held _ _ Hinv id _ name Hid).
Qed.

(** The targets whose events are serialised under the guarantee. *)
Definition serialised_scope (t : EventSourceIdentifier) : bool :=
  match guarantee, t with
  | LOG, (LogIdentifier | CategoryIdentifier _ | StreamIdentifier _ _) => true
  | CATEGORY, (CategoryIdentifier _ | StreamIdentifier _ _) => true
  | STREAM, StreamIdentifier _ _ => true
  | _, _ => false
  end.

Lemma reachable_inv cfg :
  reachable cfg -> exists log, config_inv cfg log.
Proof.
  unfold reachable. intros Hr.
  enough (forall log, config_inv initial_config log -> exists log', config_inv cfg log') as Hgen.
  { apply (Hgen []). split; cbn; try done; [|constructor].
    split; cbn; [apply represents_empty|done|by intros ? ?%not_elem_of_nil|done]. }
  induction Hr as [cfg|cfg1 cfg2 cfg3 Hstep _ IH]; intros log Hlog; [by exists log|].
  destruct (step_preserves _ _ _ Hlog Hstep) as [new Hnew]. by eapply IH.
Qed.

Lemma scope_same_lock t e e1 :
  serialised_scope t = true -> in_target t e = true -> in_target t e1 = true ->
  event_lock e = event_lock e1.
Proof.
  unfold serialised_scope, event_lock, stream_lock.
  destruct guarantee, t; try done; cbn;
    rewrite ?bool_decide_eq_true; try done; intuition congruence.
Qed.

Lemma later_scope_sorted log t :
  StronglySorted later log -> serialised_scope t = true ->
  StronglySorted Z.lt (numbers_of (log_of t log)).
Proof.
  intros Hl Ht. induction Hl as [|e log Hl IH He]; [constructor|].
  unfold log_of. cbn [List.filter]. destruct (in_target t e) eqn:Ee; [|done].
  change (StronglySorted Z.lt (se_sequence_number e :: numbers_of (log_of t log))).
  constructor; [done|]. apply Forall_forall.
  intros n (e1 & He1 & <-)%elem_of_numbers. apply elem_of_log_of in He1 as [Hin1 Ht1].
  apply (proj1 (Forall_forall _ _) He); [done|]. by eapply scope_same_lock.
Qed.

(** C1. However saves interleave, fail or are cancelled, every reachable state of the
    in-memory adapter holds a well-formed log: indexes and table agree, each stream's
    positions are 0, 1, 2, ..., numbers are never reused, and within the scope the
    serialisation guarantee names (the log, each category or each stream) events appear
    in strictly increasing sequence number order. *)
Theorem concurrent_saves_safe cfg :
  reachable cfg ->
  exists log, store_inv (cf_state cfg) log /\
    forall t, serialised_scope t = true -> StronglySorted Z.lt (numbers_of (log_of t log)).
Proof.
  intros [log Hinv]%reachable_inv. exists log. split; [apply Hinv|].
  intros t. by apply later_scope_sorted, Hinv.
Qed.
End concurrency.

(** ** Witnesses *)

Definition two_streams : SaveCall :=
  CategorySave "c" [("a"%string, mkDefinition [order_placed] None);
                    ("b"%string, mkDefinition [order_placed] None)].

Lemma launch_two_streams :
  reachable (H := no_user_code) constant_uuid default_conditions STREAM
    (mkConfig initial_state ∅
      {[0 := mkTask two_streams [] (Acquiring ["memory.c.a"%string; "memory.c.b"%string])]}).
Proof.
  apply rtc_once. apply step_launch; [reflexivity| |vm_compute; reflexivity].
  repeat constructor; set_solver.
Defined.

Lemma concurrent_saves_safe_witness :
  exists log, store_inv initial_state log /\
    forall t, serialised_scope STREAM t = true -> StronglySorted Z.lt (numbers_of (log_of t log)).
Proof.
  apply (concurrent_saves_safe (H := no_user_code) constant_uuid default_conditions STREAM _
    launch_two_streams).
Defined.
