(* ===== verification/AdapterProgress.v ===== *)
(** Liveness of the in-memory adapter's locking, and its sequential meaning: saves never
    deadlock and always finish, one that runs alone is the sequential [save], and the one
    way locks are lost. *)
From S2P Require Import Prelude Values Conversion Events Conditions EventsDB MemoryAdapter.
From S2P Require Import AdapterConcurrency.

Definition finished (task : Task) : bool :=
  match tk_phase task with Finished _ => true | _ => false end.

(** No lock was lost: tasks that are done hold none. *)
Definition tidy (cfg : Config) : Prop :=
  forall id task, cf_tasks cfg !! id = Some task -> finished task = true -> tk_held task = [].

Definition all_finished (cfg : Config) : Prop :=
  forall id task, cf_tasks cfg !! id = Some task -> finished task = true.

(** The sequential meaning of a call. *)
Definition run_call `{UserCode} (uuid4 : nat -> string)
    (conditions : gmap string (ConditionConverter (InMemoryEventsDB * list StoredEvent)))
    (call : SaveCall) : ST AdapterState Results :=
  match call with
  | StreamSave c s events condition =>
      stored ← save_to_stream uuid4 conditions c s events condition;
      mret [(s, stored)]
  | CategorySave c streams => save_to_category uuid4 conditions c streams
  end.

(** How many more steps a task can take at most. *)
Definition request_measure (rq : StreamRequest) : nat := 3 + length (rq_events rq).
Definition todo_measure (todo : list StreamRequest) : nat :=
  foldr (fun rq n => request_measure rq + n) 1 todo.
Definition phase_measure (ph : Phase) : nat :=
  match ph with
  | Acquiring _ | Finished _ => 0
  | Reading todo _ _ => todo_measure todo
  | Checking rq _ todo _ _ => 2 + length (rq_events rq) + todo_measure todo
  | Appending _ _ _ events _ todo _ _ => 1 + length events + todo_measure todo
  end.
Definition task_measure (task : Task) : nat :=
  match tk_phase task with
  | Acquiring todo => S (length todo + todo_measure (call_requests (tk_call task)))
  | ph => phase_measure ph
  end.
Definition config_measure (cfg : Config) : nat :=
  map_fold (fun _ task n => task_measure task + n) 0 (cf_tasks cfg).

Lemma map_measure_replace {A} (f : A -> nat) (m : gmap nat A) (i : nat) (a b : A) :
  m !! i = Some a ->
  map_fold (fun _ x n => f x + n) 0 (<[i := b]> m) + f a =
  map_fold (fun _ x n => f x + n) 0 m + f b.
Proof.
  intros Hi.
  assert (forall (j1 j2 : nat) (x1 x2 : A) n, f x1 + (f x2 + n) = f x2 + (f x1 + n)) as Hc
    by (intros; lia).
  rewrite <-(insert_delete_eq m i b).
  rewrite map_fold_insert_L by (auto; apply lookup_delete_eq).
  rewrite (map_fold_delete_L _ _ i a m) by auto. lia.
Qed.

Lemma prefix_le (p s t : string) : String.le s t -> String.le (p +:+ s) (p +:+ t).
Proof.
  induction p as [|a p IH]; [done|]. intros Hle. specialize (IH Hle).
  assert (forall s1 s2, String.compare (String a s1) (String a s2) = String.compare s1 s2) as E.
  { intros s1 s2. change (match Ascii.compare a a with Eq => String.compare s1 s2
      | Lt => Lt | Gt => Gt end = String.compare s1 s2).
    unfold Ascii.compare. by rewrite N.compare_refl. }
  unfold String.le, String.leb in *. rewrite <-(E (p +:+ s)) in IH. exact IH.
Qed.

Section progress.
Context `{UserCode} (uuid4 : nat -> string).
Context (conditions : gmap string (ConditionConverter (InMemoryEventsDB * list StoredEvent))).
Context (guarantee : EventSerialisationGuarantee).

Abbreviation adv := (advance uuid4 conditions).
Abbreviation run_ph := (run_phase uuid4 conditions).

(** A step of some task. *)
Definition advances (cfg cfg' : Config) : Prop := exists id, adv id cfg cfg'.

(** ** Lock order *)

Lemma call_locks_NoDup call names :
  well_formed_call call -> call_locks guarantee call = Ok names -> NoDup names.
Proof.
  destruct call as [c s evs cond|c streams]; cbn [call_locks well_formed_call]; intros Hwf.
  - rewrite stream_lock_name. intros [= <-]. apply NoDup_singleton.
  - unfold determine_required_locks. destruct guarantee.
    3: intros Hl%res_mapM_Ok.
    1,2: intros; inv_ok; apply NoDup_singleton.
    assert (names = stream_lock STREAM c <$> sorted_strings (dict_keys streams))
      as ->.
    { induction Hl as [|s name ss names Hs _ IH]; cbn; [done|].
      rewrite stream_lock_name in Hs. injection Hs as <-. by rewrite IH. }
    apply NoDup_fmap_2; [|by apply sorted_strings_NoDup].
    intros s1 s2. by intros ?%(inj (String.append _))%(inj (String.append _))%(inj (String.append _))%(inj (String.append _)).
Qed.

Lemma call_locks_sorted call names :
  call_locks guarantee call = Ok names -> StronglySorted String.le names.
Proof.
  destruct call as [c s evs cond|c streams]; cbn [call_locks].
  - rewrite stream_lock_name. intros [= <-]. repeat constructor.
  - unfold determine_required_locks. destruct guarantee.
    3: intros Hl%res_mapM_Ok.
    1,2: intros; inv_ok; repeat constructor.
    pose proof (sorted_strings_sorted (dict_keys streams)) as Hs.
    induction Hl as [|s name ss names Hname Hl IH]; [constructor|].
    rewrite stream_lock_name in Hname. injection Hname as <-.
    inversion Hs as [|? ? Hs' Hle]; subst. constructor; [by apply IH|].
    apply Forall_forall. intros name [i Hi]%list_elem_of_lookup.
    destruct (Forall2_lookup_r _ _ _ _ _ Hl Hi) as (s' & Hs'' & E).
    rewrite stream_lock_name in E. injection E as <-. 
    do 4 apply prefix_le. apply (proj1 (Forall_forall _ _) Hle). by eapply list_elem_of_lookup_2.
Qed.

(** ** Every lock taken has its holder *)

Definition backed (cfg : Config) : Prop :=
  forall name id, cf_locks cfg !! name = Some id ->
  exists task, cf_tasks cfg !! id = Some task /\ name ∈ tk_held task.

Lemma backed_update st st' locks tasks id task task' :
  backed (mkConfig st locks tasks) -> tasks !! id = Some task ->
  (forall name, name ∈ tk_held task -> name ∈ tk_held task') ->
  backed (mkConfig st' locks (<[id := task']> tasks)).
Proof.
  intros Hb Hid Hsub name j Hj. cbn in *. destruct (Hb name j Hj) as (tj & Htj & Hin). cbn in Htj.
  destruct (decide (id = j)) as [<-|Hne].
  - exists task'. rewrite lookup_insert_eq. split; [done|]. simplify_eq. auto.
  - exists tj. by rewrite lookup_insert_ne.
Qed.

Lemma backed_release st st' locks tasks id task ph :
  backed (mkConfig st locks tasks) -> tasks !! id = Some task ->
  backed (mkConfig st' (release (tk_held task) locks)
    (<[id := mkTask (tk_call task) [] ph]> tasks)).
Proof.
  intros Hb Hid name j. cbn. rewrite lookup_release. case_decide as Hn; [done|]. intros Hj.
  destruct (Hb name j Hj) as (tj & Htj & Hin). cbn in Htj.
  destruct (decide (id = j)) as [<-|Hne]; [by simplify_eq|].
  exists tj. by rewrite lookup_insert_ne.
Qed.

Lemma reachable_backed cfg : reachable uuid4 conditions guarantee cfg -> backed cfg.
Proof.
  unfold reachable. apply rtc_ind_r; [by intros name id|].
  intros c1 c2 _ Hstep Hb. destruct Hstep as
    [id cfg1 cfg2 [st locks tasks call held name todo Hid Hfree
      |st locks tasks call held Hid|st locks tasks call held ph st' ph' Hid
      |st locks tasks call held ph st' outcome Hid]
    |st locks tasks id call names Hnone|st locks tasks id call held ph Hid
    |st locks tasks id call held todo Hid].
  - intros nm j. cbn. destruct (decide (name = nm)) as [<-|Hne].
    + rewrite lookup_insert_eq. intros [= <-]. eexists. rewrite lookup_insert_eq.
      split; [done|]. cbn. apply elem_of_app. right. constructor.
    + rewrite lookup_insert_ne by done. revert nm j Hne.
      assert (backed (mkConfig st locks
        (<[id := mkTask call (held ++ [name]) (Acquiring todo)]> tasks))) as Hb'.
      { eapply backed_update; [done..|]. cbn. intros nm. rewrite elem_of_app. auto. }
      intros nm j _. apply Hb'.
  - by eapply backed_update.
  - by eapply backed_update.
  - by eapply (backed_release _ _ _ _ _ (mkTask call held ph)).
  - intros nm j Hj. cbn in *. destruct (Hb nm j Hj) as (tj & Htj & Hin). cbn in Htj.
    exists tj. rewrite lookup_insert_ne; [done|congruence].
  - by eapply (backed_release _ _ _ _ _ (mkTask call held ph)).
  - by eapply backed_update.
Qed.

(** What an unfinished task waits for. *)
Definition awaited (task : Task) : option string :=
  match tk_phase task with Acquiring (name :: _) => Some name | _ => None end.

Lemma advance_unless_waiting cfg id task :
  cf_tasks cfg !! id = Some task -> finished task = false -> awaited task = None ->
  exists cfg', adv id cfg cfg'.
Proof.
  destruct cfg as [st locks tasks], task as [call held ph]. cbn. intros Hid Hf Hw.
  destruct (in_body ph) eqn:Hin.
  - destruct (run_ph (call_category call) st ph) as [st' ph'] eqn:Hrun.
    destruct (in_body ph') eqn:Hin'; [eexists; by eapply advance_run|].
    destruct ph'; try done; [|eexists; by eapply advance_finish].
    exfalso. revert Hrun. destruct ph as [|[] ? ?|?|? ? ? [] ? ? ?|]; cbn;
      repeat case_goal; naive_solver.
  - destruct ph as [[]| | | |]; try done. eexists. by eapply advance_enter.
Qed.

Lemma maximal_name (names : list string) :
  names <> [] -> exists m, m ∈ names /\ forall x, x ∈ names -> String.le x m.
Proof.
  induction names as [|n names IH]; [done|]. intros _. destruct names as [|n' names].
  { exists n. split; [constructor|]. by intros x ->%list_elem_of_singleton. }
  destruct IH as (m & Hm & Hmax); [done|].
  destruct (total String.le n m).
  - exists m. split; [by constructor|]. intros x [->|Hx]%elem_of_cons; auto.
  - exists n. split; [constructor|]. intros x [->|Hx]%elem_of_cons; [done|].
    etrans; [by apply Hmax|done].
Qed.

(** Deadlock freedom: of the tasks that wait, the one waiting for the last name in the
    lock order waits for a task that can go on. *)
Lemma no_deadlock cfg id task :
  reachable uuid4 conditions guarantee cfg -> tidy cfg ->
  cf_tasks cfg !! id = Some task -> finished task = false -> exists cfg', advances cfg cfg'.
Proof.
  intros Hr Htidy Hid Hf. destruct (awaited task) as [name|] eqn:Hw.
  2: { edestruct advance_unless_waiting as [cfg' ?]; [done..|]. exists cfg'. by exists id. }
  set (names := omap (fun '(_, t) => awaited t) (map_to_list (cf_tasks cfg))).
  assert (forall n, n ∈ names <-> exists j t, cf_tasks cfg !! j = Some t /\ awaited t = Some n)
    as Hnames.
  { intros n. unfold names. rewrite list_elem_of_omap. split.
    - intros ([j t] & Hj%elem_of_map_to_list & Ht). eauto.
    - intros (j & t & Hj & Ht). exists (j, t). by rewrite elem_of_map_to_list. }
  destruct (maximal_name names) as (m & (j & t & Hj & Ht)%Hnames & Hmax).
  { intros E. assert (name ∈ names) as Hn by (apply Hnames; eauto).
    rewrite E in Hn. by apply not_elem_of_nil in Hn. }
  destruct cfg as [st locks tasks]. cbn in *.
  destruct t as [call held ph]. destruct ph as [[|m' todo]| | | |]; try done.
  injection Ht as ->. destruct (locks !! m) as [k|] eqn:Hk.
  2: { eexists. exists j. by eapply advance_acquire. }
  destruct (reachable_backed _ Hr m k Hk) as (tk & Htk & Hheld). cbn in Htk.
  destruct (finished tk) eqn:Hfk.
  { rewrite (Htidy k tk Htk Hfk) in Hheld. by apply not_elem_of_nil in Hheld. }
  destruct (awaited tk) as [n|] eqn:Hwk.
  2: { edestruct (advance_unless_waiting (mkConfig st locks tasks)) as [cfg' ?]; [done..|].
       exists cfg'. by exists k. }
  exfalso. assert (n ∈ names) as Hn by (apply Hnames; eauto). apply Hmax in Hn.
  apply reachable_inv in Hr as [log Hinv].
  pose proof (ci_tasks _ _ _ Hinv k tk Htk) as Hok. unfold task_ok in Hok.
  destruct tk as [callk heldk [[|n' todok]| | | |]]; try done. cbn in *. injection Hwk as ->.
  destruct Hok as [Hlocks Hwf].
  pose proof (call_locks_NoDup _ _ Hwf Hlocks) as Hnd.
  pose proof (call_locks_sorted _ _ Hlocks) as Hs.
  assert (String.le m n) as Hmn by (eapply StronglySorted_app_1_elem_of; [done|done|constructor]).
  assert (m = n) as -> by by apply (anti_symm String.le).
  apply NoDup_app in Hnd as (_ & Hnd & _). apply (Hnd n Hheld). constructor.
Qed.

(** ** Termination *)

Lemma run_phase_measure c st ph st' ph' :
  in_body ph = true -> run_ph c st ph = (st', ph') -> phase_measure ph' < phase_measure ph.
Proof.
  destruct ph as [|[|rq todo] added results|rq ev todo added results
    |rq p k [|e evs] stored todo added results|]; try done; intros _;
    unfold run_phase; repeat case_match; intros; simplify_eq/=;
    unfold request_measure; lia.
Qed.

Lemma task_measure_body call held ph :
  in_body ph = true -> task_measure (mkTask call held ph) = phase_measure ph.
Proof. by destruct ph. Qed.

Lemma advances_measure cfg cfg' : advances cfg cfg' -> config_measure cfg' < config_measure cfg.
Proof.
  intros [id Hadv]. unfold config_measure.
  destruct Hadv as [st locks tasks call held name todo Hid|st locks tasks call held Hid
    |st locks tasks call held ph st' ph' Hid Hin Hrun Hin'
    |st locks tasks call held ph st' outcome Hid Hin Hrun]; cbn [cf_tasks];
    match goal with |- context [<[id := ?b]> tasks] =>
      pose proof (map_measure_replace task_measure tasks id _ b Hid) as E end.
  - cbn in E. lia.
  - cbn in E. lia.
  - rewrite !task_measure_body in E by done.
    pose proof (run_phase_measure _ _ _ _ _ Hin Hrun). lia.
  - rewrite task_measure_body in E by done. cbn in E.
    pose proof (run_phase_measure _ _ _ _ _ Hin Hrun). cbn in *. lia.
Qed.

Lemma advances_terminate cfg : sn advances cfg.
Proof.
  induction cfg as [cfg IH] using (well_founded_induction (well_founded_ltof _ config_measure)).
  constructor. intros cfg' Hadv. by apply IH, advances_measure.
Qed.

Lemma advances_tidy cfg cfg' : tidy cfg -> advances cfg cfg' -> tidy cfg'.
Proof.
  intros Ht [id Hadv] j tj. destruct Hadv as [st locks tasks call held name todo Hid
    |st locks tasks call held Hid|st locks tasks call held ph st' ph' Hid Hin Hrun Hin'
    |st locks tasks call held ph st' outcome Hid Hin Hrun]; cbn;
    (destruct (decide (id = j)) as [<-|Hne];
     [rewrite lookup_insert_eq; intros [= <-]|rewrite lookup_insert_ne by done; apply Ht]);
    cbn; try done.
  intros Hf. by destruct ph'.
Qed.

Lemma advances_reachable cfg cfg' :
  reachable uuid4 conditions guarantee cfg -> rtc advances cfg cfg' ->
  reachable uuid4 conditions guarantee cfg'.
Proof.
  intros Hr Hs. unfold reachable in *. etrans; [done|].
  induction Hs as [|c1 c2 c3 [id Hadv] _ IH]; [done|].
  eapply rtc_l; [by eapply step_advance|]. apply IH. eapply rtc_r; [done|by eapply step_advance].
Qed.

(** C22. Saves never deadlock: from every reachable state in which no lock was lost, the
    tasks can only take finitely many steps, and when none can step any more every task
    has finished. *)
Theorem saves_terminate cfg :
  reachable uuid4 conditions guarantee cfg -> tidy cfg ->
  sn advances cfg /\
  forall cfg', rtc advances cfg cfg' -> nf advances cfg' -> all_finished cfg'.
Proof.
  intros Hr Ht. split; [apply advances_terminate|]. intros cfg' Hs Hnf id task Hid.
  pose proof (advances_reachable _ _ Hr Hs) as Hr'.
  assert (tidy cfg') as Ht' by (clear -Ht Hs; induction Hs; eauto using advances_tidy).
  destruct (finished task) eqn:Hf; [done|]. exfalso. apply Hnf.
  by destruct (no_deadlock cfg' id task Hr' Ht' Hid Hf) as [cfg'' ?]; exists cfg''.
Qed.

(** ** A save that runs alone *)

(** Stretches of a body, one after the other. *)
Definition body_step (c : string) (a b : AdapterState * Phase) : Prop :=
  in_body a.2 = true /\ run_ph c a.1 a.2 = b.

Lemma store_events_run c rq todo results p evs k raws added st r st' :
  store_events uuid4 c (rq_stream rq) p k evs raws added st = (r, st') ->
  rtc (body_step c) (st, Appending rq p k evs raws todo added results)
    (st', match r with
          | Ok (raws', added') => Reading todo added' (dict_set results (rq_stream rq) raws')
          | Raise e => Finished (Raise e)
          end).
Proof.
  revert k raws added st. induction evs as [|ev evs IH]; intros k raws added st; cbn [store_events].
  - intros [= <- <-]. by apply rtc_once.
  - unfold mbind, ST_bind.
    destruct (store_event uuid4 c (rq_stream rq) p k ev st) as [[[raw stored]|e] st1] eqn:E.
    + intros Hrest%IH. eapply rtc_l; [|exact Hrest]. split; [done|]. cbn. by rewrite E.
    + intros [= <- <-]. apply rtc_once. split; [done|]. cbn. by rewrite E.
Qed.

Lemma save_request_run c rq todo added results st r st' :
  save_request uuid4 conditions c rq added st = (r, st') ->
  rtc (body_step c) (st, Reading (rq :: todo) added results)
    (st', match r with
          | Ok (raws, added') => Reading todo added' (dict_set results (rq_stream rq) raws)
          | Raise e => Finished (Raise e)
          end).
Proof.
  unfold save_request, mbind, ST_bind, st_lift.
  destruct (last_stream_event (as_db st) c (rq_stream rq)) as [latest|e] eqn:El.
  2: { intros [= <- <-]. apply rtc_once. split; [done|]. cbn. by rewrite El. }
  destruct (check_request conditions c rq latest added (as_db st)) as [position|e] eqn:Ec.
  2: { intros [= <- <-]. eapply rtc_l; [split; [done|]; cbn; by rewrite El|].
       apply rtc_once. split; [done|]. cbn [fst snd run_phase]. by rewrite Ec. }
  intros Hs. eapply rtc_l; [split; [done|]; cbn; by rewrite El|].
  eapply rtc_l; [split; [done|]; cbn [fst snd run_phase]; by rewrite Ec|]. by apply store_events_run.
Qed.

Lemma save_requests_run c requests added results st r st' :
  save_requests uuid4 conditions c requests added results st = (r, st') ->
  rtc (body_step c) (st, Reading requests added results)
    (st', match r with
          | Ok (results', added') => Reading [] added' results'
          | Raise e => Finished (Raise e)
          end).
Proof.
  revert added results st. induction requests as [|rq rest IH]; intros added results st;
    cbn [save_requests]; [by intros [= <- <-]|].
  unfold mbind at 1, ST_bind at 1.
  destruct (save_request uuid4 conditions c rq added st) as [[[raws added']|e] st1] eqn:E;
    apply (save_request_run _ _ rest _ results) in E.
  - intros Hrest%IH. by etrans.
  - by intros [= <- <-].
Qed.

Lemma run_call_run call st outcome st' :
  run_call uuid4 conditions call st = (outcome, st') ->
  rtc (body_step (call_category call)) (st, Reading (call_requests call) [] [])
    (st', Finished outcome).
Proof.
  intros Hrun.
  assert (exists r st1, save_requests uuid4 conditions (call_category call)
      (call_requests call) [] [] st = (r, st1) /\
    (outcome, st') = match r with
      | Raise e => (Raise e, st1)
      | Ok (results, added) =>
          match commit_added added st1 with
          | (Ok _, st2) => (Ok results, st2)
          | (Raise e, st2) => (Raise e, st2)
          end
      end) as (r & st1 & Hsave & Hout).
  { rewrite <-Hrun. destruct call as [c s evs cond|c streams]; cbn [call_category call_requests
      run_call]; [unfold save_to_stream; cbn [save_requests]|unfold save_to_category];
      unfold mbind, ST_bind, mret, ST_ret; eexists _, _; (split; [apply surjective_pairing|]);
      repeat (case_match; simplify_eq/=; try done). }
  apply save_requests_run in Hsave. destruct r as [[results added]|e]; [|by simplify_eq].
  etrans; [exact Hsave|]. apply rtc_once. split; [done|]. cbn.
  by destruct (commit_added added st1) as [[[]|e] st2]; simplify_eq.
Qed.

Lemma body_advances id locks tasks call held a b :
  rtc (body_step (call_category call)) a b ->
  forall outcome, b.2 = Finished outcome -> in_body a.2 = true ->
  rtc (adv id) (mkConfig a.1 locks (<[id := mkTask call held a.2]> tasks))
    (mkConfig b.1 (release held locks) (<[id := mkTask call [] (Finished outcome)]> tasks)).
Proof.
  induction 1 as [[st ph]|[st ph] [st1 ph1] [st2 ph2] [Hin Hrun] Hrest IH];
    intros outcome Hb Ha; cbn in *; [by subst|].
  destruct (in_body ph1) eqn:Hin1.
  - eapply rtc_l; [|by apply IH].
    rewrite <-(insert_insert_eq tasks id (mkTask call held ph1) (mkTask call held ph)).
    by eapply advance_run; [apply lookup_insert_eq|..].
  - inversion Hrest as [|? ? ? [? _]]; simplify_eq/=; [|congruence].
    apply rtc_once.
    rewrite <-(insert_insert_eq tasks id (mkTask call [] _) (mkTask call held ph)).
    by eapply advance_finish; [apply lookup_insert_eq|..].
Qed.

Lemma acquire_all id st tasks call names held locks :
  NoDup names -> (forall name, name ∈ names -> locks !! name = None) ->
  rtc (adv id) (mkConfig st locks (<[id := mkTask call held (Acquiring names)]> tasks))
    (mkConfig st (foldl (fun l name => <[name := id]> l) locks names)
      (<[id := mkTask call (held ++ names) (Acquiring [])]> tasks)).
Proof.
  revert held locks. induction names as [|name names IH]; intros held locks Hnd Hfree; cbn.
  { by rewrite app_nil_r. }
  apply NoDup_cons in Hnd as [Hname Hnd]. eapply rtc_l.
  - eapply advance_acquire; [apply lookup_insert_eq|]. apply Hfree. constructor.
  - rewrite insert_insert_eq. rewrite (cons_middle name held names), app_assoc. apply IH; [done|].
    intros n Hn. rewrite lookup_insert_ne; [apply Hfree; by constructor|congruence].
Qed.

Lemma release_taken id names (locks : gmap string nat) :
  (forall name, name ∈ names -> locks !! name = None) ->
  release names (foldl (fun l name => <[name := id]> l) locks names) = locks.
Proof.
  intros Hfree. apply map_eq. intros name. rewrite lookup_release. case_decide as Hn.
  - by rewrite Hfree.
  - clear Hfree. revert locks. induction names as [|n names IH]; intros locks; cbn; [done|].
    apply not_elem_of_cons in Hn as [Hne Hn]. rewrite IH by done. by rewrite lookup_insert_ne.
Qed.

(** C23. Refinement: a save launched when its locks are free and that runs alone has
    exactly the result and the effect on the store of the sequential save, and gives all
    its locks back. *)
Theorem save_alone st locks tasks id call names outcome st' :
  tasks !! id = None -> well_formed_call call -> call_locks guarantee call = Ok names ->
  (forall name, name ∈ names -> locks !! name = None) ->
  run_call uuid4 conditions call st = (outcome, st') ->
  rtc (step uuid4 conditions guarantee) (mkConfig st locks tasks)
    (mkConfig st' locks (<[id := mkTask call [] (Finished outcome)]> tasks)).
Proof.
  intros Hid Hwf Hnames Hfree Hrun%run_call_run.
  pose proof (call_locks_NoDup _ _ Hwf Hnames) as Hnd.
  eapply rtc_l; [by eapply step_launch|].
  apply (rtc_subrel (adv id)); [intros ? ?; by apply step_advance|].
  etrans; [by apply acquire_all|]. cbn. eapply rtc_l.
  - by eapply advance_enter, lookup_insert_eq.
  - rewrite insert_insert_eq. rewrite <-(release_taken id names locks) at 2 by done.
    by apply (body_advances id _ tasks call names _ _ Hrun).
Qed.

(** ** The way locks are lost *)

Lemma finished_stays cfg cfg' id task :
  step uuid4 conditions guarantee cfg cfg' -> cf_tasks cfg !! id = Some task ->
  finished task = true -> cf_tasks cfg' !! id = Some task.
Proof.
  intros Hstep Hid Hf.
  destruct Hstep as [j cfg1 cfg2 [st locks tasks call held name todo Hj|st locks tasks call held Hj
      |st locks tasks call held ph st' ph' Hj|st locks tasks call held ph st' outcome Hj]
    |st locks tasks j call names Hj|st locks tasks j call held ph Hj
    |st locks tasks j call held todo Hj]; cbn in *;
    (destruct (decide (j = id)) as [->|Hne]; [|by rewrite lookup_insert_ne]);
    rewrite Hj in Hid; simplify_eq/=;
    unfold finished in *; cbn in *; case_match; done.
Qed.

(** [MultiLock.__aenter__] cancelled while it waits loses the locks it already took:
    they stay taken for ever, and no save that waits for one of them ever gets it. *)
Theorem cancelled_acquire_leaks st locks tasks id call held todo name cfg' :
  reachable uuid4 conditions guarantee (mkConfig st locks tasks) ->
  tasks !! id = Some (mkTask call held (Acquiring todo)) -> name ∈ held ->
  rtc (step uuid4 conditions guarantee)
    (mkConfig st locks (<[id := mkTask call held (Finished (Raise CancelledError))]> tasks)) cfg' ->
  cf_locks cfg' !! name = Some id /\
  forall j task cfg'', cf_tasks cfg' !! j = Some task -> awaited task = Some name ->
    ~ adv j cfg' cfg''.
Proof.
  intros Hr Hid Hname Hs.
  set (lost := mkTask call held (Finished (Raise CancelledError))) in *.
  assert (reachable uuid4 conditions guarantee cfg') as Hr'.
  { unfold reachable in *. etrans; [done|]. eapply rtc_l; [by eapply step_cancel_acquire|done]. }
  assert (cf_tasks cfg' !! id = Some lost) as Hlost.
  { assert (forall c, rtc (step uuid4 conditions guarantee) c cfg' ->
      cf_tasks c !! id = Some lost -> cf_tasks cfg' !! id = Some lost) as Hgen.
    { induction 1; [done|]. intros. eauto using finished_stays. }
    apply (Hgen _ Hs). apply lookup_insert_eq. }
  apply reachable_inv in Hr' as [log Hinv].
  pose proof (ci_held _ _ _ Hinv id lost name Hlost Hname) as Hheld. split; [done|].
  intros j task cfg'' Hj Hw Hadv.
  unfold awaited in Hw. destruct Hadv; cbn in *; simplify_eq/=; repeat case_match; simplify_eq/=; congruence.
Qed.
End progress.

(** ** Witnesses *)

Abbreviation locks_of_two := ["memory.c.a"%string; "memory.c.b"%string].

Lemma saves_terminate_witness :
  let cfg := mkConfig initial_state ∅ {[0 := mkTask two_streams [] (Acquiring locks_of_two)]} in
  sn (advances (H := no_user_code) constant_uuid default_conditions) cfg /\
  forall cfg', rtc (advances (H := no_user_code) constant_uuid default_conditions) cfg cfg' ->
    nf (advances (H := no_user_code) constant_uuid default_conditions) cfg' -> all_finished cfg'.
Proof.
  apply (saves_terminate (H := no_user_code) constant_uuid default_conditions STREAM _
    launch_two_streams).
  intros id task. cbn. destruct id; [by rewrite lookup_singleton_eq; intros [= <-]|].
  by rewrite lookup_singleton_ne.
Defined.

Lemma save_alone_witness :
  exists outcome st',
    run_call (H := no_user_code) constant_uuid default_conditions two_streams initial_state =
      (Ok outcome, st') /\
    rtc (step (H := no_user_code) constant_uuid default_conditions STREAM) initial_config
      (mkConfig st' ∅ {[0 := mkTask two_streams [] (Finished (Ok outcome))]}).
Proof.
  destruct (run_call (H := no_user_code) constant_uuid default_conditions two_streams
    initial_state) as [outcome st'] eqn:E.
  refine (_ (save_alone (H := no_user_code) constant_uuid default_conditions STREAM
    initial_state ∅ ∅ 0 two_streams locks_of_two outcome st' eq_refl _ eq_refl _ E)).
  2: repeat constructor; set_solver.
  2: intros; apply lookup_empty.
  intros H.
  destruct outcome as [outcome|e]; [|vm_compute in E; discriminate E].
  by exists outcome, st'.
Defined.

Lemma cancelled_acquire_leaks_witness :
  let lost := mkTask two_streams ["memory.c.a"%string] (Finished (Raise CancelledError)) in
  let cfg := mkConfig initial_state {["memory.c.a"%string := 0]} {[0 := lost]} in
  cf_locks cfg !! "memory.c.a"%string = Some 0 /\
  forall j task cfg'', cf_tasks cfg !! j = Some task -> awaited task = Some "memory.c.a"%string ->
    ~ advance (H := no_user_code) constant_uuid default_conditions j cfg cfg''.
Proof.
  apply (cancelled_acquire_leaks (H := no_user_code) constant_uuid default_conditions STREAM
    initial_state {["memory.c.a"%string := 0]}
    {[0 := mkTask two_streams ["memory.c.a"%string] (Acquiring ["memory.c.b"%string])]}
    0 two_streams ["memory.c.a"%string] ["memory.c.b"%string] "memory.c.a").
  - unfold reachable. eapply rtc_r; [apply launch_two_streams|].
    apply (step_advance _ _ _ 0).
    pose proof (advance_acquire (H := no_user_code) constant_uuid default_conditions 0
      initial_state ∅ {[0 := mkTask two_streams [] (Acquiring locks_of_two)]} two_streams []
      "memory.c.a" ["memory.c.b"%string] (lookup_singleton_eq _ _) (lookup_empty _)) as Hacq.
    by rewrite insert_singleton_eq in Hacq.
  - apply lookup_singleton_eq.
  - constructor.
  - rewrite insert_singleton_eq. constructor.
Defined.
