(* ===== verification/Sources.v ===== *)
(** Event sources: the interface of [sources/base.py], the in-memory source of
    [sources/memory.py] and the source narrowed by constraints of
    [sources/constrained.py]. *)
From S2P Require Import Prelude Values Conversion Events Conditions EventsDB.

(** ** [EventSource] ([sources/base.py])

    A source reads some state [S]; iterating it is a generator over that state. *)
Record EventSource (S E : Type) := mkSource {
  src_identifier : EventSourceIdentifier;
  src_latest : S -> res (option E);
  src_iterate : S -> list QueryConstraint -> Gen E
}.
Arguments mkSource {_ _} _ _ _.
Arguments src_identifier {_ _} _.
Arguments src_latest {_ _} _ _.
Arguments src_iterate {_ _} _ _ _.

(** [EventSource.read]. *)
Definition src_read {S E} (source : EventSource S E) (s : S)
    (constraints : list QueryConstraint) : res (list E) :=
  gen_collect (src_iterate source s constraints).

(** ** [InMemoryEventSource] *)

Section memory_source.
Context {S E : Type} (constraint_converter : QueryConstraint -> res (E -> bool)).

(** The loop of [iterate]. *)
Fixpoint iterate_events (constraints : list QueryConstraint) (events : list E) : Gen E :=
  match events with
  | [] => gen_of []
  | event :: rest =>
      match check_all constraint_converter constraints event with
      | Raise e => gen_raise e
      | Ok false => iterate_events constraints rest
      | Ok true => gen_cons event (iterate_events constraints rest)
      end
  end.

Definition InMemoryEventSource (identifier : EventSourceIdentifier) (events : list E)
    : EventSource S E :=
  mkSource identifier
    (fun _ => Ok (if decide (0 < length events) then last events else None))
    (fun _ constraints => iterate_events constraints events).
End memory_source.

(** [InMemoryStoredEventSource] ([store/sources.py]), with the default constraints. *)
Definition InMemoryStoredEventSource {S} (identifier : EventSourceIdentifier)
    (events : list StoredEvent) : EventSource S StoredEvent :=
  InMemoryEventSource (registry_convert constraint_class (with_default_constraint_converters ∅))
    identifier events.

(** [InMemoryEventSource.__eq__]: same identifier and same events. *)
Definition same_memory_source {E} `{EqDecision E} (a b : EventSourceIdentifier * list E) : bool :=
  bool_decide (a = b).

(** ** [ConstrainedEventSource] *)

Definition ConstrainedEventSource `{SetOrder} {S E} (delegate : EventSource S E)
    (constraints : list QueryConstraint) : EventSource S E :=
  mkSource (src_identifier delegate) (src_latest delegate)
    (fun s more => src_iterate delegate s (set_union constraints more)).

(** ** What a source promises *)

(** [holds c e]: the event meets the constraint. *)
Definition meets {E} (holds : QueryConstraint -> E -> bool) (cs : list QueryConstraint)
    (e : E) : bool := forallb (fun c => holds c e) cs.

(** A source faithful to [events]: over the constraints it [knows], it yields exactly the
    events that meet them, in order, without raising, and its latest is the last one. *)
Record faithful {S E} (source : EventSource S E) (s : S) (events : list E)
    (knows : QueryConstraint -> bool) (holds : QueryConstraint -> E -> bool) : Prop := {
  faithful_iterate : forall cs, (forall c, c ∈ cs -> knows c = true) ->
    src_iterate source s cs = gen_of (List.filter (meets holds cs) events);
  faithful_latest : src_latest source s = Ok (last events)
}.

Lemma meets_elem {E} (holds : QueryConstraint -> E -> bool) cs e :
  meets holds cs e = true <-> forall c, c ∈ cs -> holds c e = true.
Proof. unfold meets. rewrite forallb_forall. by setoid_rewrite <-list_elem_of_In. Qed.

Lemma filter_meets_ext {E} (holds : QueryConstraint -> E -> bool) cs cs' (events : list E) :
  (forall c, c ∈ cs <-> c ∈ cs') ->
  List.filter (meets holds cs) events = List.filter (meets holds cs') events.
Proof.
  intros Hcs. apply List.filter_ext. intros e. apply eq_true_iff_eq.
  rewrite !meets_elem. by setoid_rewrite Hcs.
Qed.

Lemma filter_meets_union `{SetOrder} {E} (holds : QueryConstraint -> E -> bool) cs more
    (events : list E) :
  List.filter (meets holds (set_union cs more)) events =
  List.filter (meets holds more) (List.filter (meets holds cs) events).
Proof.
  rewrite filter_twice. apply List.filter_ext. intros e.
  apply eq_true_iff_eq. rewrite andb_true_iff, !meets_elem.
  setoid_rewrite elem_of_set_union. naive_solver.
Qed.

Lemma read_faithful {S E} (source : EventSource S E) s events knows holds cs :
  faithful source s events knows holds -> (forall c, c ∈ cs -> knows c = true) ->
  src_read source s cs = Ok (List.filter (meets holds cs) events).
Proof. intros [Hit _] Hcs. unfold src_read. by rewrite Hit. Qed.

Lemma check_all_holds {E} (convert : QueryConstraint -> res (E -> bool)) holds cs e :
  (forall c, c ∈ cs -> convert c = Ok (holds c)) ->
  check_all convert cs e = Ok (meets holds cs e).
Proof.
  induction cs as [|c cs IH]; intros Hc; cbn; [done|].
  rewrite (Hc c) by constructor. cbn. destruct (holds c e); [|done].
  apply IH. intros; apply Hc; by constructor.
Qed.

Lemma memory_source_faithful {S E} (convert : QueryConstraint -> res (E -> bool)) identifier
    (events : list E) (s : S) knows holds :
  (forall c, knows c = true -> convert c = Ok (holds c)) ->
  faithful (InMemoryEventSource convert identifier events) s events knows holds.
Proof.
  intros Hc. split; cbn.
  - intros cs Hcs. induction events as [|e events IH]; cbn [iterate_events List.filter]; [done|].
    rewrite (check_all_holds _ holds) by auto. rewrite IH. by destruct (meets holds cs e).
  - by destruct events.
Qed.

(** A constrained source is a source over the events that meet its constraints: read
    with more constraints it yields what meets both, and constraining twice is
    constraining once by the union. Its latest, though, stays the delegate's: the
    constraints do not apply to it. *)
Theorem constrained_source `{SetOrder} {S E} (source : EventSource S E) s events knows holds cs :
  faithful source s events knows holds -> (forall c, c ∈ cs -> knows c = true) ->
  (forall more, (forall c, c ∈ more -> knows c = true) ->
    src_read (ConstrainedEventSource source cs) s more =
    Ok (List.filter (meets holds more) (List.filter (meets holds cs) events)) /\
    src_read (ConstrainedEventSource (ConstrainedEventSource source cs) more) s [] =
    src_read (ConstrainedEventSource source cs) s more) /\
  src_latest (ConstrainedEventSource source cs) s = Ok (last events).
Proof.
  intros [Hit Hlast] Hcs. split; [|done]. intros more Hmore. unfold src_read. cbn.
  assert (forall c, c ∈ set_union cs more -> knows c = true) as Hu
    by (intros c [?|?]%elem_of_set_union; auto).
  assert (forall c, c ∈ set_union (set_union cs more) [] <-> c ∈ set_union cs more) as Hnil.
  { intros c. rewrite !elem_of_set_union. assert (c ∉ []) by apply not_elem_of_nil. tauto. }
  rewrite (Hit (set_union cs more)) by done.
  rewrite (Hit (set_union cs (set_union more []))); [split; cbn; f_equal|].
  - apply filter_meets_union.
  - apply filter_meets_ext. intros c. rewrite <-Hnil, !elem_of_set_union. tauto.
  - intros c. rewrite !elem_of_set_union. intros [?|[?|?%not_elem_of_nil]]; auto.
Qed.

Lemma constrained_source_witness :
  let holds := fun c (n : Z) => match c with
    | SequenceNumberAfterConstraint m => (m <? n)%Z | CustomConstraint _ _ => false end in
  let knows := fun c => match c with
    | SequenceNumberAfterConstraint _ => true | CustomConstraint _ _ => false end in
  let source := InMemoryEventSource (S := unit)
    (fun c => match c with SequenceNumberAfterConstraint m => Ok (fun n => (m <? n)%Z)
              | CustomConstraint _ _ => Raise KeyError end) LogIdentifier [1; 2; 3; 4]%Z in
  src_read (@ConstrainedEventSource insertion_order _ _ source [sequence_number_after 1]) ()
    [sequence_number_after 2] = Ok [3; 4]%Z.
Proof.
  intros holds knows source.
  assert (faithful source () [1; 2; 3; 4]%Z knows holds) as Hf.
  { apply memory_source_faithful. by intros [n|k n]. }
  destruct (@constrained_source insertion_order _ _ source () [1; 2; 3; 4]%Z knows holds
    [sequence_number_after 1] Hf) as [H _].
  - by intros c ->%list_elem_of_singleton.
  - destruct (H [sequence_number_after 2]) as [-> _]; [|reflexivity].
    by intros c ->%list_elem_of_singleton.
Defined.
