(* ===== verification/Store.v ===== *)
(** The event store: [store/store.py] (streams, categories, the log), the source factory
    of [store/source_factories.py] and the transaction decorators of
    [store/transactions.py], against the interface an adapter offers
    ([store/adapters/base.py]) and the contract it keeps. *)
From S2P Require Import Prelude Values Conversion Events Conditions EventsDB MemoryAdapter.
From S2P Require Import Sources.

(** ** [EventStorageAdapter] *)

(** The two overloads of [save], [latest] and [scan]. *)
Class EventStorageAdapter (S : Type) := {
  ea_save_stream : string -> string -> list NewEvent -> WriteCondition ->
    ST S (list StoredEvent);
  ea_save_category : string -> dict string StreamPublishDefinition ->
    ST S (dict string (list StoredEvent));
  ea_latest : S -> EventSourceIdentifier -> res (option StoredEvent);
  ea_scan : S -> EventSourceIdentifier -> list QueryConstraint -> Gen StoredEvent
}.

(** New events have greater sequence numbers than those there. *)
Definition numbers_later (log new : list StoredEvent) : Prop :=
  forall e e', e ∈ log -> e' ∈ new -> (se_sequence_number e < se_sequence_number e')%Z.

Lemma numbers_later_sorted log new :
  numbers_later log new -> StronglySorted Z.lt (numbers_of log) ->
  StronglySorted Z.lt (numbers_of new) -> StronglySorted Z.lt (numbers_of (log ++ new)).
Proof.
  intros Hl H1 H2. unfold numbers_of. rewrite fmap_app. apply StronglySorted_app_2; [|done..].
  intros n n' (e & -> & He)%list_elem_of_fmap (e' & -> & He')%list_elem_of_fmap. by apply Hl.
Qed.

Lemma sorted_app_later log new :
  StronglySorted Z.lt (numbers_of (log ++ new)) -> numbers_later log new.
Proof.
  intros Hs e e' He He'. unfold numbers_of in Hs. rewrite fmap_app in Hs.
  eapply StronglySorted_app_1_elem_of; [exact Hs|by apply list_elem_of_fmap_2..].
Qed.

(** What the rest of the library relies on, whatever the adapter: its state holds a log,
    which a save extends or leaves alone, and which reads see. An adapter says which targets
    it can read back ([ea_addresses]) and which events it can store after a log
    ([ea_accepts]); what it promises is about those. *)
Class AdapterContract (S : Type) `{UserCode} `{EventStorageAdapter S} := {
  ea_holds : S -> list StoredEvent -> Prop;
  ea_addresses : EventSourceIdentifier -> bool;
  ea_accepts : list StoredEvent -> string -> string -> list NewEvent -> Prop;
  ea_addresses_log : ea_addresses LogIdentifier = true;
  ea_save_stream_appends : forall c s events condition st log r st',
    ea_holds st log -> ea_addresses (StreamIdentifier c s) = true ->
    ea_accepts log c s events -> ea_save_stream c s events condition st = (r, st') ->
    match r with
    | Ok raws => exists new, ea_holds st' (log ++ new) /\
        stored_batch c s (stream_length log c s) events raws new /\ numbers_later log new
    | Raise _ => ea_holds st' log
    end;
  ea_save_stream_unmet : forall c s events condition st log,
    ea_holds st log -> ea_addresses (StreamIdentifier c s) = true ->
    standard condition = true ->
    satisfied condition (last (log_of (StreamIdentifier c s) log)) = false ->
    exists m st', ea_save_stream c s events condition st =
      (Raise (UnmetWriteConditionError m), st') /\ ea_holds st' log;
  ea_save_stream_met : forall c s events condition st log,
    ea_holds st log -> ea_addresses (StreamIdentifier c s) = true ->
    ea_accepts log c s events -> standard condition = true -> Forall storable events ->
    satisfied condition (last (log_of (StreamIdentifier c s) log)) = true ->
    exists raws st', ea_save_stream c s events condition st = (Ok raws, st');
  ea_latest_log : forall st log t,
    ea_holds st log -> scannable t = true -> ea_addresses t = true ->
    ea_latest st t = Ok (last (log_of t log));
  ea_scan_log : forall st log t cs,
    ea_holds st log -> scannable t = true -> ea_addresses t = true ->
    (forall c, c ∈ cs -> standard_constraint c = true) ->
    ea_scan st t cs = gen_of (List.filter (meets constraint_holds cs) (log_of t log))
}.

(** ** Sources of the store *)

Section store.
Context {S : Type} `{UserCode} `{!EventStorageAdapter S}.

(** [EventStream], [EventCategory] and [EventLog] are a target bound to the adapter. *)
Record EventStream := mkStream { stream_category : string; stream_name : string }.
Record EventCategory := mkCategory { category_name : string }.
Record EventLog := mkLog { }.

Definition stream_identifier (stream : EventStream) : EventSourceIdentifier :=
  StreamIdentifier (stream_category stream) (stream_name stream).

Definition adapter_source (identifier : EventSourceIdentifier) : EventSource S StoredEvent :=
  mkSource identifier (fun st => ea_latest st identifier)
    (fun st constraints => ea_scan st identifier constraints).

Definition stream_source (stream : EventStream) : EventSource S StoredEvent :=
  adapter_source (stream_identifier stream).
Definition category_source (category : EventCategory) : EventSource S StoredEvent :=
  adapter_source (CategoryIdentifier (category_name category)).
Definition log_source (log : EventLog) : EventSource S StoredEvent := adapter_source LogIdentifier.

(** What is logged of events: everything at debug level, a summary otherwise. *)
Definition log_published (debug : bool) (events : list StoredEvent) : res (list Val) :=
  if debug
  then mapM (fun event => serialise_stored_event_value event str_serialisation_fallback) events
  else mapM summarise_stored_event events.

(** [EventStream.publish]. The arguments of the log lines are part of it: they are
    computed whether or not the line is written, and may raise. *)
Definition publish (debug : bool) (stream : EventStream) (events : list NewEvent)
    (condition : WriteCondition) : ST S (list StoredEvent) :=
  _ ← st_lift (mapM (fun event => serialise_new_event event str_serialisation_fallback) events);
  stored ← ea_save_stream (stream_category stream) (stream_name stream) events condition;
  _ ← st_lift (log_published debug stored);
  mret stored.

(** [EventCategory.publish] and [EventCategory.stream]. *)
Definition publish_category (category : EventCategory)
    (streams : dict string StreamPublishDefinition) : ST S (dict string (list StoredEvent)) :=
  ea_save_category (category_name category) streams.
Definition category_stream (category : EventCategory) (stream : string) : EventStream :=
  mkStream (category_name category) stream.

(** [EventStore.stream], [EventStore.category] and [EventStore.log]. *)
Definition store_stream (category stream : string) : EventStream := mkStream category stream.
Definition store_category (category : string) : EventCategory := mkCategory category.
Definition store_log : EventLog := mkLog.

(** ** [EventStoreEventSourceFactory] *)

Definition identifier_class (i : EventSourceIdentifier) : string :=
  match i with
  | LogIdentifier => "LogIdentifier"
  | LogPartitionIdentifier _ => "LogPartitionIdentifier"
  | CategoryIdentifier _ => "CategoryIdentifier"
  | CategoryPartitionIdentifier _ _ => "CategoryPartitionIdentifier"
  | StreamIdentifier _ _ => "StreamIdentifier"
  end.

Definition EventSourceConstructor : Type := EventSourceIdentifier -> EventSource S StoredEvent.

Definition construct_event_log (i : EventSourceIdentifier) : EventSource S StoredEvent :=
  adapter_source i.
Definition construct_event_category (i : EventSourceIdentifier) : EventSource S StoredEvent :=
  adapter_source i.
Definition construct_event_stream (i : EventSourceIdentifier) : EventSource S StoredEvent :=
  adapter_source i.

Definition register_constructor (constructors : gmap string EventSourceConstructor)
    (identifier_type : string) (constructor : EventSourceConstructor)
    : gmap string EventSourceConstructor := <[identifier_type := constructor]> constructors.

Definition EventStoreEventSourceFactory : gmap string EventSourceConstructor :=
  register_constructor
    (register_constructor
      (register_constructor ∅ "LogIdentifier" construct_event_log)
      "CategoryIdentifier" construct_event_category)
    "StreamIdentifier" construct_event_stream.

Definition construct_source (constructors : gmap string EventSourceConstructor)
    (identifier : EventSourceIdentifier) : res (EventSource S StoredEvent) :=
  match constructors !! identifier_class identifier with
  | Some constructor => Ok (constructor identifier)
  | None => Raise KeyError
  end.

(** ** [store/transactions.py] *)

Section transactions.
Context {R : Type} (is_exception : Exn -> bool).

Fixpoint retry_loop (times : nat) (handler : ST S R) : ST S R := fun st =>
  match times with
  | O => handler st
  | Datatypes.S times' =>
      match handler st with
      | (Ok r, st') => (Ok r, st')
      | (Raise e, st') => if is_exception e then retry_loop times' handler st' else (Raise e, st')
      end
  end.

(** [retry_on_error.wrap_handler]: the loop runs over [range(tries - 1)]. *)
Definition retry_on_error (tries : Z) (handler : ST S R) : ST S R :=
  retry_loop (Z.to_nat (tries - 1)) handler.

(** [ignore_on_error.wrap_handler]. *)
Definition ignore_on_error (handler : ST S R) : ST S (option R) := fun st =>
  match handler st with
  | (Ok r, st') => (Ok (Some r), st')
  | (Raise e, st') => if is_exception e then (Ok None, st') else (Raise e, st')
  end.
End transactions.

Definition is_unmet_condition (e : Exn) : bool :=
  match e with UnmetWriteConditionError _ => true | _ => false end.

Definition retry_on_unmet_condition_error {R} : Z -> ST S R -> ST S R :=
  retry_on_error is_unmet_condition.
Definition ignore_on_unmet_condition_error {R} : ST S R -> ST S (option R) :=
  ignore_on_error is_unmet_condition.
End store.

(** ** The in-memory adapter is an adapter *)
Section memory.
Context `{UserCode} (uuid4 : nat -> string).
Context (conditions : gmap string (ConditionConverter (InMemoryEventsDB * list StoredEvent))).
Context (constraints : gmap string (QueryConstraint -> res QueryConstraintCheck)).

Definition saved_stream (saved : Saved) : list StoredEvent :=
  match saved with SavedStream events => events | SavedCategory _ => [] end.
Definition saved_category (saved : Saved) : dict string (list StoredEvent) :=
  match saved with SavedStream _ => [] | SavedCategory events => events end.

Definition InMemoryEventStorageAdapter : EventStorageAdapter AdapterState := {|
  ea_save_stream := fun c s events condition =>
    saved ← save uuid4 (with_default_condition_converters conditions) (StreamIdentifier c s)
      (Some events) condition None;
    mret (saved_stream saved);
  ea_save_category := fun c streams =>
    saved ← save uuid4 (with_default_condition_converters conditions) (CategoryIdentifier c)
      None NoCondition (Some streams);
    mret (saved_category saved);
  ea_latest := latest;
  ea_scan := scan (with_default_constraint_converters constraints)
|}.

Lemma memory_save_stream c s events condition st :
  ea_save_stream (EventStorageAdapter := InMemoryEventStorageAdapter) c s events condition st =
  save_to_stream uuid4 (with_default_condition_converters conditions) c s events condition st.
Proof.
  cbn. unfold mbind, ST_bind, mret, ST_ret.
  by destruct (save_to_stream _ _ _ _ _ _ _) as [[r|e] st'].
Qed.

#[export, refine] Instance InMemoryEventStorageAdapter_contract
    : AdapterContract AdapterState (H0 := InMemoryEventStorageAdapter) :=
  {| ea_holds := store_inv; ea_addresses := fun _ => true; ea_accepts := fun _ _ _ _ => True |}.
Proof.
  - done.
  - intros c s events condition st log r st' Hinv _ _. rewrite memory_save_stream.
    intros Hs. pose proof (save_to_stream_appends _ _ _ _ _ _ _ _ _ _ Hinv Hs) as Hr.
    destruct r; [|apply Hr]. destruct Hr as (new & ? & Hrun & _).
    exists new. split; [done|]. split; [by eapply stored_run_batch|].
    intros e e' He%(inv_below _ _ Hinv) He'%(stored_run_elem _ _ _ _ _ _ _ _ Hrun). lia.
  - intros c s events condition st log Hinv _ Hstd Hsat. rewrite memory_save_stream.
    destruct (save_to_stream_unmet uuid4 conditions c s events condition st log Hinv Hstd Hsat)
      as [m E]. by exists m, st.
  - intros. rewrite memory_save_stream. by eapply save_to_stream_met.
  - intros. by apply latest_represents.
  - intros. by apply scan_represents.
Defined.
End memory.

(** ** Properties, for every adapter that keeps the contract *)
Section contract.
Context {S : Type} `{UserCode} `{!EventStorageAdapter S} `{!AdapterContract S}.

Lemma adapter_source_faithful t st log :
  ea_holds st log -> scannable t = true -> ea_addresses t = true ->
  faithful (adapter_source t) st (log_of t log) standard_constraint constraint_holds.
Proof.
  intros Hst Ht Ha. split; cbn; [intros cs Hcs; by apply ea_scan_log|by apply ea_latest_log].
Qed.

Lemma read_target t st log :
  ea_holds st log -> scannable t = true -> ea_addresses t = true ->
  src_read (adapter_source t) st [] = Ok (log_of t log).
Proof.
  intros Hst Ht Ha. rewrite (read_faithful _ _ (log_of t log) standard_constraint constraint_holds);
    [f_equal; by apply filter_true| by apply adapter_source_faithful|by intros c ?%not_elem_of_nil].
Qed.

(** The factory gives a source for exactly the log, category and stream identifiers,
    and a [KeyError] for partitions. Each source reads, over any adapter that can read its
    target back, the events of the target in commit order, those that meet the constraints,
    and its last event. *)
Theorem factory_sources st log i :
  ea_holds st log ->
  match construct_source EventStoreEventSourceFactory i with
  | Ok source => scannable i = true /\ src_identifier source = i /\
      (ea_addresses i = true ->
        faithful source st (log_of i log) standard_constraint constraint_holds)
  | Raise e => scannable i = false /\ e = KeyError
  end.
Proof.
  intros Hst. unfold construct_source, EventStoreEventSourceFactory, register_constructor.
  destruct i; cbn [identifier_class]; simplify_map_eq; try done;
    (split; [done|]; split; [done|]; intros Ha; by apply adapter_source_faithful).
Qed.

(** The events a publish stored are what a later read of its stream adds. *)
Definition published (stream : EventStream) (log new : list StoredEvent) (st' : S) : Prop :=
  ea_holds st' (log ++ new) /\
  src_read (stream_source stream) st' [] = Ok (log_of (stream_identifier stream) log ++ new) /\
  src_read (log_source store_log) st' [] = Ok (log ++ new) /\ numbers_later log new.

Lemma published_batch stream events raws new log st' :
  ea_holds st' (log ++ new) -> ea_addresses (stream_identifier stream) = true ->
  stored_batch (stream_category stream) (stream_name stream)
    (stream_length log (stream_category stream) (stream_name stream)) events raws new ->
  numbers_later log new -> published stream log new st'.
Proof.
  intros Hst Ha Hrun Hlater. pose proof ea_addresses_log. split; [done|].
  unfold stream_source, log_source, stream_identifier.
  rewrite !(read_target _ _ _ Hst) by done. rewrite log_of_LogIdentifier, log_of_app.
  rewrite (stored_batch_log_of _ _ _ _ _ _ _ Hrun). by rewrite decide_True.
Qed.

Lemma publish_cases debug stream events condition st log r st' :
  ea_holds st log -> ea_addresses (stream_identifier stream) = true ->
  ea_accepts log (stream_category stream) (stream_name stream) events ->
  publish debug stream events condition st = (r, st') ->
  ea_holds st' log /\ (forall raws, r <> Ok raws) \/
  exists raws new, published stream log new st' /\
    stored_batch (stream_category stream) (stream_name stream)
      (stream_length log (stream_category stream) (stream_name stream)) events raws new /\
    r = (_ ← log_published debug raws; Ok raws).
Proof.
  intros Hst Ha Hacc. unfold publish, mbind, ST_bind, st_lift.
  destruct (mapM _ events) as [fields|e]; [|intros [= <- <-]; by left].
  destruct (ea_save_stream _ _ events condition st) as [rs st1] eqn:Es.
  apply (ea_save_stream_appends _ _ _ _ _ _ _ _ Hst Ha Hacc) in Es.
  destruct rs as [raws|e]; [|intros [= <- <-]; by left].
  destruct Es as (new & Hst1 & Hrun & Hlater). intros Hr. right. exists raws, new.
  assert (st' = st1) as -> by (destruct (log_published debug raws); by injection Hr).
  split_and!; [by eapply published_batch|done|].
  by destruct (log_published debug raws); injection Hr as <-.
Qed.

(** C29. On any adapter, for events it accepts on a stream it can read back, what
    [EventStream.publish] returns is what was stored: the events follow those of
    the stream in every later read, at the next positions, with greater sequence numbers than
    any event had, and with the caller's own names and payloads. If it
    raises, either nothing was stored, or the events were stored and
    it was the summary for the log line that could not be computed. *)
Theorem publish_then_read debug stream events condition st log r st' :
  ea_holds st log -> ea_addresses (stream_identifier stream) = true ->
  ea_accepts log (stream_category stream) (stream_name stream) events ->
  publish debug stream events condition st = (r, st') ->
  match r with
  | Ok raws => exists new, published stream log new st' /\
      stored_batch (stream_category stream) (stream_name stream)
        (stream_length log (stream_category stream) (stream_name stream)) events raws new
  | Raise e => ea_holds st' log \/
      exists raws new, published stream log new st' /\ log_published debug raws = Raise e
  end.
Proof.
  intros Hst Ha Hacc Hp. destruct (publish_cases _ _ _ _ _ _ _ _ Hst Ha Hacc Hp)
    as [[Hst' Hno]|(raws & new & Hpub & Hrun & Hr)].
  - destruct r as [raws|e]; [by destruct (Hno raws)|by left].
  - destruct (log_published debug raws) as [l|e] eqn:El; cbn in Hr; subst r.
    + by exists new.
    + right. by exists raws, new.
Qed.

(** ** Transactions *)

(** The outcome of the [n]-th run of a handler, from 0, when it is run over and over. *)
Fixpoint attempt {R} (handler : ST S R) (n : nat) (st : S) : res R * S :=
  match n with
  | O => handler st
  | Datatypes.S n' => attempt handler n' (handler st).2
  end.

Definition failed {R} (is_exception : Exn -> bool) (outcome : res R * S) : bool :=
  match outcome.1 with Raise e => is_exception e | Ok _ => false end.

(** [retry_on_error] runs its handler until it first does anything but raise the
    exception, at most [tries] times and at least once (even for [tries <= 0]), and what
    it returns or raises is the outcome of the last run. *)
Theorem retry_attempts {R} (is_exception : Exn -> bool) (tries : Z) (handler : ST S R) (st : S) :
  exists n, n <= Z.to_nat (tries - 1) /\
    retry_on_error is_exception tries handler st = attempt handler n st /\
    (forall m, m < n -> failed is_exception (attempt handler m st) = true) /\
    (n < Z.to_nat (tries - 1) -> failed is_exception (attempt handler n st) = false).
Proof.
  unfold retry_on_error. generalize (Z.to_nat (tries - 1)). intros k. revert st.
  induction k as [|k IH]; intros st; cbn [retry_loop].
  { exists 0. split_and!; [lia|done|lia|lia]. }
  destruct (handler st) as [[r|e] st1] eqn:E; [|destruct (is_exception e) eqn:Ee].
  - exists 0. cbn [attempt]. unfold failed. rewrite E. split_and!; [lia|done|lia|done].
  - destruct (IH st1) as (n & Hn & Hr & Hbefore & Hlast). exists (Datatypes.S n).
    cbn [attempt]. rewrite E. split_and!; [lia|done| |intros; apply Hlast; lia].
    intros [|m] Hm; cbn [attempt]; rewrite E; [done|]. apply Hbefore. lia.
  - exists 0. cbn [attempt]. unfold failed. rewrite E. split_and!; [lia|done|lia|done].
Qed.

(** C30. Publishing under [retry_on_unmet_condition_error] stores the events at most once,
    however many tries it takes: exactly once when it returns, and not at all when it
    gives up with UnmetWriteConditionError. *)
Theorem retry_publishes_once debug tries stream events condition st log r st' :
  (forall raws, is_unmet (log_published debug raws) = false) ->
  ea_holds st log -> ea_addresses (stream_identifier stream) = true ->
  ea_accepts log (stream_category stream) (stream_name stream) events ->
  retry_on_unmet_condition_error tries (publish debug stream events condition) st = (r, st') ->
  exists new, ea_holds st' (log ++ new) /\
    (is_unmet r = true -> new = []) /\
    (new = [] \/ exists raws, stored_batch (stream_category stream) (stream_name stream)
        (stream_length log (stream_category stream) (stream_name stream)) events raws new) /\
    forall raws, r = Ok raws ->
      stored_batch (stream_category stream) (stream_name stream)
        (stream_length log (stream_category stream) (stream_name stream)) events raws new.
Proof.
  intros Hlog Hst0 Ha Hacc. revert Hst0. unfold retry_on_unmet_condition_error, retry_on_error.
  assert (forall st r st', ea_holds st log -> publish debug stream events condition st = (r, st') ->
    exists new, ea_holds st' (log ++ new) /\ (is_unmet r = true -> new = []) /\
    (new = [] \/ exists raws, stored_batch (stream_category stream) (stream_name stream)
        (stream_length log (stream_category stream) (stream_name stream)) events raws new) /\
    forall raws, r = Ok raws ->
      stored_batch (stream_category stream) (stream_name stream)
        (stream_length log (stream_category stream) (stream_name stream)) events raws new)
    as Honce.
  { intros st1 r1 st2 Hst Hp. destruct (publish_cases _ _ _ _ _ _ _ _ Hst Ha Hacc Hp)
      as [[Hst' Hno]|(raws & new & (Hst' & _) & Hrun & Hr)].
    - exists []. rewrite app_nil_r. split_and!; [done|done|by left|]. intros raws ->.
      by destruct (Hno raws).
    - exists new. specialize (Hlog raws).
      destruct (log_published debug raws) as [l|e]; cbn in Hr; subst r1;
        split_and!; [done|done|eauto|intros ? [= <-]; eauto|done| |eauto|done].
      intros Hu. by destruct e. }
  generalize (Z.to_nat (tries - 1)). intros k. revert st.
  induction k as [|k IH]; intros st Hst; cbn [retry_loop]; [by apply Honce|].
  destruct (publish debug stream events condition st) as [[raws|e] st1] eqn:E.
  - intros [= <- <-]. by eapply Honce.
  - destruct (is_unmet_condition e) eqn:Ee; intros Hr.
    + apply IH in Hr; [done|]. destruct (Honce _ _ _ Hst E) as (new & Hst1 & Hnil & _).
      rewrite Hnil, app_nil_r in Hst1; [done|]. by destruct e.
    + injection Hr as <- <-. by eapply Honce.
Qed.
End contract.

(** ** Witnesses *)

#[local] Instance witness_user_code : UserCode := no_user_code.
#[local] Instance witness_adapter : EventStorageAdapter AdapterState :=
  InMemoryEventStorageAdapter constant_uuid ∅ ∅.
#[local] Instance witness_contract : AdapterContract AdapterState :=
  InMemoryEventStorageAdapter_contract constant_uuid ∅ ∅.

Lemma factory_sources_witness :
  exists source, construct_source EventStoreEventSourceFactory (CategoryIdentifier "orders") =
      Ok source /\
    faithful source initial_state [] standard_constraint constraint_holds.
Proof.
  pose proof (factory_sources initial_state [] (CategoryIdentifier "orders") initial_store_inv)
    as H. eexists. split; [reflexivity|]. apply H. reflexivity.
Defined.

Lemma publish_then_read_witness :
  exists raws new st',
    publish false (mkStream "orders" "1") [order_placed] EmptyStreamCondition initial_state =
      (Ok raws, st') /\
    published (mkStream "orders" "1") [] new st'.
Proof.
  destruct (publish false (mkStream "orders" "1") [order_placed] EmptyStreamCondition
    initial_state) as [r st'] eqn:E.
  pose proof (publish_then_read false (mkStream "orders" "1") [order_placed]
    EmptyStreamCondition initial_state [] r st' initial_store_inv eq_refl I E) as H.
  destruct r as [raws|e]; [|vm_compute in E; discriminate E].
  destruct H as (new & Hpub & _). by exists raws, new, st'.
Defined.

Lemma retry_publishes_once_witness :
  exists m st' new,
    retry_on_unmet_condition_error 3
      (publish false (mkStream "orders" "1") [] (PositionIsCondition (Some 0%Z))) initial_state
      = (Raise (UnmetWriteConditionError m), st') /\
    ea_holds st' new /\ new = [].
Proof.
  destruct (retry_on_unmet_condition_error 3
      (publish false (mkStream "orders" "1") [] (PositionIsCondition (Some 0%Z))) initial_state)
    as [r st'] eqn:E.
  destruct (retry_publishes_once false 3 (mkStream "orders" "1") []
    (PositionIsCondition (Some 0%Z)) initial_state [] r st') as (new & Hst & Hnil & _).
  - intros raws. unfold log_published.
    destruct (mapM summarise_stored_event raws) as [l|e] eqn:Em; [done|].
    apply res_mapM_Raise in Em as (raw & _ & Er). revert Er.
    unfold summarise_stored_event, serialise_to_json_value.
    destruct (se_name raw); cbn; repeat case_match; cbn; by intros [= <-].
  - apply initial_store_inv.
  - reflexivity.
  - exact I.
  - exact E.
  - destruct r as [raws|e]; [vm_compute in E; discriminate E|].
    assert (exists m, e = UnmetWriteConditionError m) as [m ->].
    { vm_compute in E. injection E as <- _. by eexists. }
    exists m, st', new. split; [done|]. split; [exact Hst|]. by apply Hnil.
Defined.
