(* ===== verification/Query.v ===== *)
(** The query language of [query/] (paths, clauses, functions, queries) and the Python
    operators its in-memory interpretation applies to values: ordering, membership,
    subscription. *)
From S2P Require Import Prelude Values Events.

(** ** [query/clauses.py], [query/functions.py], [query/queries.py], [query/utils.py] *)

(** [Path]: an attribute, then keys and indexes. *)
Record Path := mkPath { top_level : string; sub_levels : list (string + Z) }.

Definition path (top : string) (subs : list (string + Z)) : Path := mkPath top subs.
Definition is_nested (p : Path) : bool := bool_decide (0 < length (sub_levels p)).

Inductive Operator :=
  | EQUAL | NOT_EQUAL | GREATER_THAN | GREATER_THAN_OR_EQUAL | LESS_THAN
  | LESS_THAN_OR_EQUAL | IN | CONTAINS | REGEX_MATCHES | NOT_REGEX_MATCHES.

Inductive SortOrder := ASC | DESC.
Inductive PagingDirection := FORWARDS | BACKWARDS.

(** [Custom...] constructors stand for the subclasses users register converters for. *)
Inductive Function :=
  | Similarity (alias : string) (left : Path) (right : string)
  | CustomFunction (class alias : string) (data : Z).

Definition function_alias (f : Function) : string :=
  match f with Similarity alias _ _ => alias | CustomFunction _ alias _ => alias end.
Definition function_class (f : Function) : string :=
  match f with Similarity _ _ _ => "Similarity" | CustomFunction class _ _ => class end.

Record SortField := mkSortField { sf_field : Path + Function; sf_order : SortOrder }.

Inductive Clause :=
  | FilterClause (operator : Operator) (field : Path) (value : Val)
  | SortFieldClause (field : SortField)
  | SortClause (fields : list SortField)
  | KeySetPagingClause (last_id : option string) (direction : PagingDirection) (item_count : Z)
  | OffsetPagingClause (page_number item_count : Z)
  | CustomClause (class : string) (data : Z).

Definition clause_class (c : Clause) : string :=
  match c with
  | FilterClause _ _ _ => "FilterClause"
  | SortFieldClause _ => "SortField"
  | SortClause _ => "SortClause"
  | KeySetPagingClause _ _ _ => "KeySetPagingClause"
  | OffsetPagingClause _ _ => "OffsetPagingClause"
  | CustomClause class _ => class
  end.

(** [KeySetPagingClause.is_forwards], [is_backwards] and [is_first_page]. *)
Definition is_forwards (last_id : option string) (direction : PagingDirection) : bool :=
  match last_id, direction with Some _, FORWARDS => true | _, _ => false end.
Definition is_backwards (last_id : option string) (direction : PagingDirection) : bool :=
  match last_id, direction with Some _, BACKWARDS => true | _, _ => false end.
Definition is_first_page (last_id : option string) : bool :=
  match last_id with None => true | _ => false end.

(** [OffsetPagingClause.offset]. *)
Definition paging_offset (page_number item_count : Z) : Z := ((page_number - 1) * item_count)%Z.

Inductive Query :=
  | Search (filters : list Clause) (sort paging : option Clause)
  | Lookup (filters : list Clause)
  | CustomQuery (class : string) (data : Z).

Definition query_class (q : Query) : string :=
  match q with
  | Search _ _ _ => "Search" | Lookup _ => "Lookup" | CustomQuery class _ => class
  end.

(** The constructors' defaults. *)
Definition search (filters : option (list Clause)) (sort paging : option Clause) : Query :=
  Search (default [] filters) sort paging.
Definition lookup_query (filters : option (list Clause)) : Query := Lookup (default [] filters).

(** ** Ordering *)

(** Sequences compare at their first unequal elements, then by length. *)
Section list_order.
Context {A B : Type} (eqb : A -> B -> bool) (ord : A -> B -> res bool) (strict : bool).

Fixpoint list_order (l : list A) (m : list B) : res bool :=
  match l, m with
  | [], [] => Ok (negb strict)
  | [], _ => Ok true
  | _, [] => Ok false
  | x :: l', y :: m' => if eqb x y then list_order l' m' else ord x y
  end.
End list_order.

Definition float_leb (x y : PyFloat) : bool :=
  match float_compare x y with Some Lt | Some Eq => true | _ => false end.

(** [a < b], or [a <= b] when not [strict]; classes without an order raise. *)
Fixpoint py_order (strict : bool) (a b : Val) {struct a} : res bool :=
  match a, b with
  | VStr s, VStr t => Ok (if strict then String.ltb s t else String.leb s t)
  | VList l, VList m => list_order py_eqb (py_order strict) strict l m
  | VTuple l, VTuple m => list_order py_eqb (py_order strict) strict l m
  | _, _ =>
      match num_of a, num_of b with
      | Some x, Some y => Ok (if strict then float_ltb x y else float_leb x y)
      | _, _ => Raise TypeError
      end
  end.

Definition py_lt : Val -> Val -> res bool := py_order true.
Definition py_le : Val -> Val -> res bool := py_order false.

(** ** Membership *)

(** Lists and dicts have no hash, and a tuple has one when its elements have. *)
Fixpoint hashable (v : Val) : bool :=
  match v with
  | VList _ | VDict _ => false
  | VTuple l => forallb hashable l
  | _ => true
  end.

Fixpoint is_substring (needle haystack : string) : bool :=
  String.prefix needle haystack ||
  match haystack with EmptyString => false | String _ rest => is_substring needle rest end.

(** [x in container]. *)
Definition py_in (x container : Val) : res bool :=
  match container with
  | VList l | VTuple l => Ok (existsb (py_eqb x) l)
  | VDict d => if hashable x then Ok (existsb (fun kv => py_eqb x kv.1) d) else Raise TypeError
  | VStr t => match x with VStr s => Ok (is_substring s t) | _ => Raise TypeError end
  | _ => Raise TypeError
  end.

(** ** Subscription *)

Definition segment_value (segment : string + Z) : Val :=
  match segment with inl key => VStr key | inr index => VInt index end.

(** [value[segment]]. *)
Definition py_subscript (value : Val) (segment : string + Z) : res Val :=
  match value with
  | VDict d =>
      match find (fun kv => py_eqb (segment_value segment) kv.1) d with
      | Some kv => Ok kv.2
      | None => Raise KeyError
      end
  | VList l | VTuple l =>
      match segment with inr index => py_get l index | inl _ => Raise TypeError end
  | VStr s =>
      match segment with
      | inr index =>
          (fun a => VStr (String a EmptyString)) <$> py_get (String.list_ascii_of_string s) index
      | inl _ => Raise TypeError
      end
  | _ => Raise TypeError
  end.

(** ** Orders the library's sorts rely on *)

(** Numbers other than NaN are totally ordered, and so are strings. *)
Definition ordered_number (v : Val) : bool :=
  match num_of v with Some FNaN | None => false | Some _ => true end.
Definition is_string (v : Val) : bool := match v with VStr _ => true | _ => false end.
Definition ordered_keys (keys : list Val) : Prop :=
  Forall (fun v => ordered_number v = true) keys \/ Forall (fun v => is_string v = true) keys.

Definition py_ltb (a b : Val) : bool := match py_lt a b with Ok b => b | Raise _ => false end.

Lemma fin_compare_scaled m1 e1 m2 e2 e :
  (e <= e1)%Z -> (e <= e2)%Z ->
  fin_compare m1 e1 m2 e2 = Z.compare (m1 * 2 ^ (e1 - e))%Z (m2 * 2 ^ (e2 - e))%Z.
Proof.
  intros H1 H2. unfold fin_compare. set (f := Z.min e1 e2).
  assert (0 < 2 ^ (f - e))%Z as Hpos by (apply Z.pow_pos_nonneg; unfold f; lia).
  replace (e1 - e)%Z with ((e1 - f) + (f - e))%Z by lia.
  replace (e2 - e)%Z with ((e2 - f) + (f - e))%Z by lia.
  rewrite !Z.pow_add_r, !Z.mul_assoc by (unfold f; lia).
  by rewrite <-Zmult_compare_compat_r by lia.
Qed.

(** Where a non-NaN float stands: an order embedding into (class, scaled value). *)
Lemma float_order_cases x y z :
  x <> FNaN -> y <> FNaN -> z <> FNaN ->
  exists a b c : Z * Z,
    let lt := fun p q : Z * Z => (p.1 <? q.1)%Z || ((p.1 =? q.1)%Z && (p.2 <? q.2)%Z) in
    float_ltb x y = lt a b /\ float_ltb y x = lt b a /\ float_ltb y z = lt b c /\
    float_ltb z y = lt c b /\ float_ltb x z = lt a c /\ float_ltb z x = lt c a.
Proof.
  intros Hx Hy Hz.
  set (exponent := fun f => match f with FFin _ e => e | _ => 0%Z end).
  set (e := Z.min (exponent x) (Z.min (exponent y) (exponent z))).
  set (code := fun f => match f with
    | FFin m e0 => (0, m * 2 ^ (e0 - e))%Z
    | FInf negative => (if negative then -1 else 1, 0)%Z
    | FNaN => (0, 0)%Z end).
  exists (code x), (code y), (code z).
  assert (forall f g, f <> FNaN -> g <> FNaN -> (e <= exponent f)%Z -> (e <= exponent g)%Z ->
    float_ltb f g = ((code f).1 <? (code g).1)%Z ||
      (((code f).1 =? (code g).1)%Z && ((code f).2 <? (code g).2)%Z)) as Hcode.
  { intros f g Hf Hg He1 He2. destruct f as [m1 e1|[]|], g as [m2 e2|[]|]; try done.
    cbn in He1, He2. unfold float_ltb, float_compare. cbn -[Z.pow Z.mul Z.ltb fin_compare].
    rewrite (fin_compare_scaled _ _ _ _ e) by done. unfold Z.ltb at 2.
    by destruct (_ ?= _)%Z. }
  cbn zeta. split_and!; apply Hcode; try done; unfold e; lia.
Qed.

Lemma number_float v : ordered_number v = true -> exists f, num_of v = Some f /\ f <> FNaN.
Proof. unfold ordered_number. destruct (num_of v) as [[]|]; try done; eauto. Qed.

Lemma py_lt_number a b f g :
  num_of a = Some f -> num_of b = Some g -> py_lt a b = Ok (float_ltb f g).
Proof. destruct a, b; cbn; intros; simplify_eq; done. Qed.

Lemma numbers_ordered : ordering_on py_ltb (fun v => ordered_number v = true).
Proof.
  split; unfold py_ltb.
  - intros x y (f & Hf & Hfn)%number_float (g & Hg & Hgn)%number_float.
    rewrite (py_lt_number _ _ _ _ Hf Hg), (py_lt_number _ _ _ _ Hg Hf).
    destruct (float_order_cases f g g Hfn Hgn Hgn) as (a & b & c & E1 & E2 & _).
    cbn zeta in *. rewrite E1, E2. lia.
  - intros x y z (f & Hf & Hfn)%number_float (g & Hg & Hgn)%number_float
      (h & Hh & Hhn)%number_float.
    rewrite (py_lt_number _ _ _ _ Hg Hf), (py_lt_number _ _ _ _ Hh Hg),
      (py_lt_number _ _ _ _ Hh Hf).
    destruct (float_order_cases f g h Hfn Hgn Hhn) as (a & b & c & E1 & E2 & E3 & E4 & E5 & E6).
    cbn zeta in *. rewrite E2, E4, E6. lia.
Qed.

Lemma strings_ordered : ordering_on py_ltb (fun v => is_string v = true).
Proof.
  split; unfold py_ltb, py_lt.
  - intros [] []; try done. intros _ _. by apply (order_asym _ _ string_ltb_ordered).
  - intros [] [] []; try done. intros _ _ _. by apply (order_trans _ _ string_ltb_ordered).
Qed.

(** Ordered keys compare without raising, in a strict weak order. *)
Definition key_class (keys : list Val) : Val -> Prop := fun v =>
  if decide (Forall (fun v => ordered_number v = true) keys)
  then ordered_number v = true else is_string v = true.

Lemma ordered_keys_order keys :
  ordered_keys keys -> ordering_on py_ltb (key_class keys) /\ Forall (key_class keys) keys.
Proof.
  intros Hk. unfold key_class. case_decide.
  - split; [apply numbers_ordered|done].
  - destruct Hk as [?|?]; [done|]. split; [apply strings_ordered|done].
Qed.

Lemma key_class_lt keys a b :
  key_class keys a -> key_class keys b -> py_lt a b = Ok (py_ltb a b).
Proof.
  unfold key_class, py_ltb. case_decide.
  - intros (f & Hf & _)%number_float (g & Hg & _)%number_float.
    by rewrite (py_lt_number _ _ _ _ Hf Hg).
  - by destruct a, b.
Qed.
