(* ===== verification/MemoryQuery.v ===== *)
(** The in-memory interpretation of queries: [persistence/memory/converters/]. Clauses,
    functions and queries are converted, through type registries, to transformers of
    result sets. Strings are taken to be ASCII. *)
From S2P Require Import Prelude Values Conversion Events Conditions Query.

(** Python's [re] module: what a pattern matches at the start of a text, [None] for
    a pattern that does not compile. *)
Class Regex := { re_compile : string -> option (string -> bool) }.

(** What a query needs of a record: attributes and an id. *)
Class Identifiable (R : Type) := {
  record_attribute : R -> string -> option Val;
  record_id : R -> string
}.

Definition invalid_path : Exn := ValueError "Invalid projection path.".

(** ** [types.py]: results and result sets *)
Section results.
Context {R : Type} `{Identifiable R}.

Record Result := mkResult { res_record : R; res_extra : dict string Val }.
Record ResultSet := mkResultSet { rs_results : list Result; rs_extra : dict string Val }.

Definition result_of (record : R) : Result := mkResult record [].
Definition result_set_of (records : list R) : ResultSet := mkResultSet (result_of <$> records) [].
Definition rs_records (rs : ResultSet) : list R := res_record <$> rs_results rs.
Definition with_results (rs : ResultSet) (results : list Result) : ResultSet :=
  mkResultSet results (rs_extra rs).
Definition with_extra (rs : ResultSet) (extra : dict string Val) : ResultSet :=
  mkResultSet (rs_results rs) extra.

Definition add_extra (result : Result) (key : string) (value : Val) : Result :=
  mkResult (res_record result) (dict_set (res_extra result) key value).

(** Following the rest of a path: a missing key is an invalid path. *)
Fixpoint follow (value : Val) (segments : list (string + Z)) : res Val :=
  match segments with
  | [] => Ok value
  | segment :: rest =>
      match py_subscript value segment with
      | Ok value' => follow value' rest
      | Raise KeyError => Raise invalid_path
      | Raise e => Raise e
      end
  end.

Definition lookup_in_record (result : Result) (p : Path) : res Val :=
  match record_attribute (res_record result) (top_level p) with
  | Some attribute => follow attribute (sub_levels p)
  | None => Raise invalid_path
  end.

Definition lookup_in_extra (result : Result) (p : Path) : res Val :=
  match dict_get (res_extra result) (top_level p) with
  | Some value => follow value (sub_levels p)
  | None => Raise invalid_path
  end.

Definition lookup_result (result : Result) (p : Path) : res Val :=
  match lookup_in_extra result p with
  | Raise (ValueError _) => lookup_in_record result p
  | outcome => outcome
  end.

Definition ResultSetTransformer : Type := ResultSet -> res ResultSet.

(** [helpers.py]: left to right composition. *)
Definition compose_transformers (functions : list ResultSetTransformer) : ResultSetTransformer :=
  foldl (fun f g results => f results ≫= g) (fun results => Ok results) functions.
End results.
Arguments Result : clear implicits.
Arguments ResultSet : clear implicits.
Arguments ResultSetTransformer : clear implicits.

(** ** [function.py]: trigram similarity *)

Definition is_word_char (a : Ascii.ascii) : bool :=
  let n := Ascii.nat_of_ascii a in
  ((48 <=? n) && (n <=? 57)) || ((65 <=? n) && (n <=? 90)) ||
  ((97 <=? n) && (n <=? 122)) || (n =? 95).

Definition is_space (a : Ascii.ascii) : bool :=
  let n := Ascii.nat_of_ascii a in ((9 <=? n) && (n <=? 13)) || ((28 <=? n) && (n <=? 32)).

Definition lower_char (a : Ascii.ascii) : Ascii.ascii :=
  let n := Ascii.nat_of_ascii a in
  if (65 <=? n) && (n <=? 90) then Ascii.ascii_of_nat (n + 32) else a.

Fixpoint lower (s : string) : string :=
  match s with
  | EmptyString => EmptyString
  | String a rest => String (lower_char a) (lower rest)
  end.

(** [re.split(r"\W+", s)]; [skipping] is set inside a separator. *)
Fixpoint split_words (s current : string) (skipping : bool) : list string :=
  match s with
  | EmptyString => [current]
  | String a rest =>
      if is_word_char a then split_words rest (current +:+ String a EmptyString) false
      else if skipping then split_words rest current true
      else current :: split_words rest EmptyString true
  end.

(** [bool(s.strip())]. *)
Definition not_blank (s : string) : bool :=
  existsb (fun a => negb (is_space a)) (String.list_ascii_of_string s).

(** [{word[x : x + number] for x in range(0, len(word) - number + 1)}]. *)
Definition word_ngrams (number : nat) (word : string) : gset string :=
  list_to_set ((fun x => String.substring x number word) <$>
    seq 0 (String.length word + 1 - number)).

(** [not value]. *)
Definition falsy (value : Val) : bool :=
  match value with
  | VNone => true
  | VBool b => negb b
  | VInt z => (z =? 0)%Z
  | VFloat f => float_eqb f (FFin 0 0)
  | VStr s => bool_decide (s = EmptyString)
  | VList l | VTuple l => bool_decide (length l = 0)
  | VDict d => bool_decide (length d = 0)
  | VIdent _ | VObj _ => false
  end.

Definition find_ngrams (text : Val) (number : nat) : res (gset string) :=
  if falsy text then Ok ∅
  else match text with
  | VStr s =>
      let words := (fun x => ("  " +:+ x +:+ " ")%string) <$>
        List.filter not_blank (split_words (lower s) EmptyString false) in
      Ok (⋃ (word_ngrams number <$> words))
  | _ => Raise AttributeError
  end.

(** [float(a) / float(b)] for [0 <= a <= b], [0 < b]: the quotient scaled to 53 bits,
    rounded half to even. *)
Definition float_ratio (a b : Z) : PyFloat :=
  if (a =? 0)%Z then FFin 0 0
  else
    let k0 := (53 + Z.log2 b - Z.log2 a)%Z in
    let k := if (2 ^ 53 <=? (a * 2 ^ k0) / b)%Z then (k0 - 1)%Z else k0 in
    let q := ((a * 2 ^ k) / b)%Z in
    let r := ((a * 2 ^ k) mod b)%Z in
    let up := (b <? 2 * r)%Z || ((b =? 2 * r)%Z && Z.odd q) in
    FFin (if up then q + 1 else q)%Z (- k).

Definition score_similarity (text1 text2 : Val) (number : nat) : res Val :=
  ngrams1 ← find_ngrams text1 number;
  ngrams2 ← find_ngrams text2 number;
  let num_unique := Z.of_nat (size (ngrams1 ∪ ngrams2)) in
  let num_equal := Z.of_nat (size (ngrams1 ∩ ngrams2)) in
  if (num_unique =? 0)%Z then Raise ZeroDivisionError
  else Ok (VFloat (float_ratio num_equal num_unique)).

Section converters.
Context {R : Type} `{Identifiable R} `{Regex}.
Abbreviation T := (ResultSetTransformer R).

Definition SimilarityFunctionConverter (item : Function) : res T :=
  match item with
  | Similarity alias left_path text => Ok (fun result_set =>
      results ← mapM (fun result =>
          value ← lookup_result result left_path;
          score ← score_similarity value (VStr text) 3;
          Ok (add_extra result alias score)) (rs_results result_set);
      Ok (with_results result_set results))
  | _ => Raise AttributeError
  end.

(** ** [clause.py]: filters *)

Definition regex_matches (comparison_value resolved_value : Val) : res bool :=
  match comparison_value with
  | VStr pattern =>
      match re_compile pattern with
      | None => Raise (ValueError "Invalid regex pattern.")
      | Some matches =>
          match resolved_value with VStr text => Ok (matches text) | _ => Raise TypeError end
      end
  | _ => Raise TypeError
  end.

Definition not_none (value : Val) : bool := match value with VNone => false | _ => true end.

Definition apply_operator (operator : Operator) (resolved_value comparison_value : Val)
    : res bool :=
  match operator with
  | EQUAL => Ok (py_eqb resolved_value comparison_value)
  | NOT_EQUAL => Ok (negb (py_eqb resolved_value comparison_value))
  | GREATER_THAN => py_lt comparison_value resolved_value
  | GREATER_THAN_OR_EQUAL => py_le comparison_value resolved_value
  | LESS_THAN => py_lt resolved_value comparison_value
  | LESS_THAN_OR_EQUAL => py_le resolved_value comparison_value
  | IN => py_in resolved_value comparison_value
  | CONTAINS => py_in comparison_value resolved_value
  | REGEX_MATCHES =>
      if not_none resolved_value then regex_matches comparison_value resolved_value else Ok false
  | NOT_REGEX_MATCHES =>
      if not_none resolved_value
      then negb <$> regex_matches comparison_value resolved_value else Ok false
  end.

(** [FilterClauseConverter._matches]. *)
Definition matches (operator : Operator) (field : Path) (value : Val) (item : Result R)
    : res bool :=
  resolved_value ← lookup_result item field;
  apply_operator operator resolved_value value.

(** [list(x for x in xs if test(x))]: the first test to raise stops it. *)
Fixpoint filter_results (test : Result R -> res bool) (results : list (Result R))
    : res (list (Result R)) :=
  match results with
  | [] => Ok []
  | result :: rest =>
      keep ← test result;
      rest' ← filter_results test rest;
      Ok (if keep : bool then result :: rest' else rest')
  end.

Definition FilterClauseConverter (item : Clause) : res T :=
  match item with
  | FilterClause operator field value => Ok (fun result_set =>
      results ← filter_results (matches operator field value) (rs_results result_set);
      Ok (with_results result_set results))
  | _ => Raise AttributeError
  end.

(** ** Sorts *)

Definition field_key (field : Path + Function) (result : Result R) : res Val :=
  match field with
  | inr f => lookup_result result (path (function_alias f) [])
  | inl p => lookup_result result p
  end.

(** [sorted] compares only when there are two elements, and then raises if two keys that
    it must tell apart have no order. *)
Definition comparable (keys : list Val) : bool :=
  (length keys <=? 1) || forallb (fun a => forallb (fun b => is_ok (py_lt a b)) keys) keys.

Definition is_desc (order : SortOrder) : bool := match order with DESC => true | ASC => false end.

(** [SortClauseConverter._accumulator]: a stable sort on one field. *)
Definition sort_by (field : SortField) (results : list (Result R)) : res (list (Result R)) :=
  keys ← mapM (field_key (sf_field field)) results;
  if comparable keys
  then Ok (snd <$> py_sorted py_ltb fst (is_desc (sf_order field)) (zip keys results))
  else Raise TypeError.

(** [reduce(_accumulator, reversed(fields), results)]. *)
Definition sort_results (fields : list SortField) (results : list (Result R))
    : res (list (Result R)) :=
  foldl (fun acc field => acc ≫= sort_by field) (Ok results) (reverse fields).

Definition SortClauseConverter (convert_function : Function -> res T) (item : Clause) : res T :=
  match item with
  | SortClause fields =>
      function_transformers ← mapM convert_function
        (omap (fun f => match sf_field f with inr function => Some function | _ => None end) fields);
      Ok (compose_transformers (function_transformers ++
        [fun result_set => results ← sort_results fields (rs_results result_set);
                           Ok (with_results result_set results)]))
  | _ => Raise AttributeError
  end.

(** ** Paging *)

Inductive LastIndex := LastIndexNotFound | LastIndexNotProvided | LastIndexFound (index : Z).

(** The indexes, from [start], of the results with the id. *)
Fixpoint indices_of (results : list (Result R)) (last_id : string) (start : Z) : list Z :=
  match results with
  | [] => []
  | result :: rest =>
      if decide (record_id (res_record result) = last_id)
      then start :: indices_of rest last_id (start + 1)
      else indices_of rest last_id (start + 1)
  end.

Definition determine_last_index (results : list (Result R)) (last_id : option string) : LastIndex :=
  match last_id with
  | None => LastIndexNotProvided
  | Some last_id =>
      match indices_of results last_id 0 with
      | [index] => LastIndexFound index
      | _ => LastIndexNotFound
      end
  end.

Definition key_set_page (last_id : option string) (direction : PagingDirection)
    (item_count : Z) (results : list (Result R)) : list (Result R) :=
  match determine_last_index results last_id, direction with
  | LastIndexNotFound, _ | LastIndexNotProvided, BACKWARDS => []
  | LastIndexNotProvided, FORWARDS => py_slice results 0 item_count
  | LastIndexFound last_index, FORWARDS =>
      py_slice results (last_index + 1) (last_index + 1 + item_count)
  | LastIndexFound last_index, BACKWARDS =>
      py_slice results (Z.max (last_index - item_count) 0) last_index
  end.

Definition KeySetPagingClauseConverter (item : Clause) : res T :=
  match item with
  | KeySetPagingClause last_id direction item_count => Ok (fun result_set =>
      Ok (with_results result_set
        (key_set_page last_id direction item_count (rs_results result_set))))
  | _ => Raise AttributeError
  end.

Definition offset_page (page_number item_count : Z) (results : list (Result R))
    : list (Result R) :=
  let offset := paging_offset page_number item_count in
  py_slice results offset (offset + item_count).

Definition OffsetPagingClauseConverter (item : Clause) : res T :=
  match item with
  | OffsetPagingClause page_number item_count => Ok (fun result_set =>
      Ok (with_results result_set (offset_page page_number item_count (rs_results result_set))))
  | _ => Raise AttributeError
  end.

(** ** [query.py] *)

Definition SearchQueryConverter (convert_clause : Clause -> res T) (item : Query) : res T :=
  match item with
  | Search filters sort paging =>
      transformers ← mapM convert_clause
        (filters ++ from_option (fun c => [c]) [] sort ++ from_option (fun c => [c]) [] paging);
      Ok (compose_transformers transformers)
  | _ => Raise AttributeError
  end.

Definition LookupQueryConverter (convert_clause : Clause -> res T) (item : Query) : res T :=
  match item with
  | Lookup filters =>
      transformers ← mapM convert_clause filters;
      Ok (compose_transformers transformers)
  | _ => Raise AttributeError
  end.

(** The three registries of [DelegatingQueryConverter]. A converter that was given one of
    them shares it: it sees the registrations made later. *)
Record DelegatingQueryConverter := mkConverter {
  function_registry : gmap string (Function -> res T);
  clause_registry : gmap string ((Function -> res T) -> Clause -> res T);
  query_registry : gmap string ((Clause -> res T) -> Query -> res T)
}.

Definition empty_converter : DelegatingQueryConverter := mkConverter ∅ ∅ ∅.

Definition register_function_converter (c : DelegatingQueryConverter) (function_type : string)
    (converter : Function -> res T) : DelegatingQueryConverter :=
  mkConverter (registry_register (function_registry c) function_type converter)
    (clause_registry c) (query_registry c).
Definition register_clause_converter (c : DelegatingQueryConverter) (clause_type : string)
    (converter : (Function -> res T) -> Clause -> res T) : DelegatingQueryConverter :=
  mkConverter (function_registry c)
    (<[clause_type := converter]> (clause_registry c)) (query_registry c).
Definition register_query_converter (c : DelegatingQueryConverter) (query_type : string)
    (converter : (Clause -> res T) -> Query -> res T) : DelegatingQueryConverter :=
  mkConverter (function_registry c) (clause_registry c)
    (<[query_type := converter]> (query_registry c)).

Definition with_default_function_converters (c : DelegatingQueryConverter)
    : DelegatingQueryConverter :=
  register_function_converter c "Similarity" SimilarityFunctionConverter.

Definition with_default_clause_converters (c : DelegatingQueryConverter)
    : DelegatingQueryConverter :=
  register_clause_converter
    (register_clause_converter
      (register_clause_converter
        (register_clause_converter c "FilterClause" (fun _ => FilterClauseConverter))
        "SortClause" SortClauseConverter)
      "KeySetPagingClause" (fun _ => KeySetPagingClauseConverter))
    "OffsetPagingClause" (fun _ => OffsetPagingClauseConverter).

Definition with_default_query_converters (c : DelegatingQueryConverter)
    : DelegatingQueryConverter :=
  register_query_converter (register_query_converter c "Search" SearchQueryConverter)
    "Lookup" LookupQueryConverter.

Definition with_default_converters (c : DelegatingQueryConverter) : DelegatingQueryConverter :=
  with_default_query_converters
    (with_default_clause_converters (with_default_function_converters c)).

Definition convert_function (c : DelegatingQueryConverter) (item : Function) : res T :=
  registry_convert function_class (function_registry c) item.
Definition convert_clause (c : DelegatingQueryConverter) (item : Clause) : res T :=
  registry_convert clause_class
    ((fun converter => converter (convert_function c)) <$> clause_registry c) item.
Definition convert_query (c : DelegatingQueryConverter) (item : Query) : res T :=
  registry_convert query_class
    ((fun converter => converter (convert_clause c)) <$> query_registry c) item.
End converters.
