(* ===== verification/QueryTheory.v ===== *)
(** What in-memory queries mean: filters keep what matches, sorts order
    lexicographically and stably, pages cut the results without gap or overlap, and a
    search is these three in a row. *)
From S2P Require Import Prelude Values Conversion Events Conditions Query MemoryQuery.

Section theory.
Context {R : Type} `{Identifiable R} `{Regex}.
Implicit Types (results : list (Result R)) (fields : list SortField).

(** ** Sorting *)

Definition key_of (field : SortField) (r : Result R) : Val :=
  match field_key (sf_field field) r with Ok v => v | Raise _ => VNone end.

(** [x] goes before [y] on one field, and on fields in order of importance. *)
Definition field_lt (field : SortField) (x y : Result R) : bool :=
  if is_desc (sf_order field) then py_ltb (key_of field y) (key_of field x)
  else py_ltb (key_of field x) (key_of field y).
Definition fields_lt fields : Result R -> Result R -> bool :=
  foldr (fun field lt => lex_lt (field_lt field) lt) (fun _ _ => false) fields.

(** Every result has the field, and its values are all numbers or all strings. *)
Definition sortable (field : SortField) results : Prop :=
  exists keys, mapM (field_key (sf_field field)) results = Ok keys /\ ordered_keys keys.

Definition sorted_by fields results : list (Result R) :=
  foldr (fun field l => sort_stable (field_lt field) l) results fields.

Lemma sort_stable_fmap {A B} (g : A -> B) (lt : A -> A -> bool) (lt' : B -> B -> bool) l :
  (forall x y, lt' (g x) (g y) = lt x y) ->
  sort_stable lt' (g <$> l) = g <$> sort_stable lt l.
Proof.
  intros Hg. induction l as [|x l IH]; [done|].
  change (insert_stable lt' (g x) (sort_stable lt' (g <$> l)) =
    g <$> insert_stable lt x (sort_stable lt l)).
  rewrite IH. generalize (sort_stable lt l). intros m. induction m as [|y m IHm]; [done|].
  change (g <$> y :: m) with (g y :: (g <$> m)). cbn [insert_stable]. rewrite Hg.
  destruct (lt y x); [|done]. by rewrite IHm.
Qed.

Lemma sortable_keys field results :
  sortable field results ->
  mapM (field_key (sf_field field)) results = Ok (key_of field <$> results) /\
  ordered_keys (key_of field <$> results).
Proof.
  intros (keys & Hk & Ho).
  assert (keys = key_of field <$> results) as ->; [|done].
  apply res_mapM_Ok in Hk. clear Ho. unfold key_of.
  induction Hk as [|r k rs ks E _ IH]; [done|]. cbn. by rewrite E, IH.
Qed.

Lemma sortable_permutation field results results' :
  sortable field results -> results ≡ₚ results' -> sortable field results'.
Proof.
  intros [Hk Ho]%sortable_keys Hp. exists (key_of field <$> results'). split.
  - apply res_mapM_Ok in Hk. apply res_mapM_Ok.
    apply Forall2_fmap_r, Forall_Forall2_diag. rewrite <-Hp.
    apply Forall2_fmap_r in Hk. apply Forall_forall. intros r Hr.
    apply list_elem_of_lookup in Hr as [i Hi].
    by destruct (Forall2_lookup_l _ _ _ _ _ Hk Hi) as (r' & Hi' & E); simplify_eq.
  - by destruct Ho; [left|right]; rewrite <-Hp.
Qed.

(** On sortable results a field orders. *)
Lemma field_lt_ordering field results :
  sortable field results ->
  ordering_on (field_lt field)
    (fun r => key_class (key_of field <$> results) (key_of field r)) /\
  Forall (fun r => key_class (key_of field <$> results) (key_of field r)) results.
Proof.
  intros [_ Ho]%sortable_keys. apply ordered_keys_order in Ho as [[Ha Ht] Hall].
  split; [split|rewrite Forall_fmap in Hall; exact Hall]; unfold field_lt.
  - intros x y Hx Hy. destruct (is_desc _); by apply Ha.
  - intros x y z Hx Hy Hz. destruct (is_desc _); intros H1 H2.
    + by apply (Ht (key_of field z) (key_of field y) (key_of field x)).
    + by apply (Ht (key_of field x) (key_of field y) (key_of field z)).
Qed.

Lemma sort_by_sorted field results :
  sortable field results -> sort_by field results = Ok (sort_stable (field_lt field) results).
Proof.
  intros Hs. destruct (sortable_keys _ _ Hs) as [Hk Ho]. unfold sort_by. rewrite Hk. cbn.
  assert (comparable (key_of field <$> results) = true) as ->.
  { unfold comparable. apply orb_true_iff. right.
    destruct (ordered_keys_order _ Ho) as [_ Hall]. rewrite Forall_forall in Hall.
    apply forallb_forall. intros a Ha%list_elem_of_In. apply forallb_forall.
    intros b Hb%list_elem_of_In. by rewrite (key_class_lt (key_of field <$> results)) by auto. }
  f_equal.
  assert (zip (key_of field <$> results) results = (fun r => (key_of field r, r)) <$> results)
    as -> by (clear; induction results as [|r l IH]; [done|cbn; by rewrite IH]).
  unfold py_sorted. rewrite (sort_stable_fmap _ (field_lt field)).
  - rewrite <-list_fmap_compose. by apply list_fmap_id.
  - intros x y. unfold field_lt. by destruct (is_desc _).
Qed.

Lemma sorted_by_Permutation fields results : sorted_by fields results ≡ₚ results.
Proof. induction fields as [|f fs IH]; cbn; [done|]. by rewrite sort_stable_Permutation. Qed.

Lemma sort_results_sorted_by fields results :
  (forall field, field ∈ fields -> sortable field results) ->
  sort_results fields results = Ok (sorted_by fields results).
Proof.
  unfold sort_results. induction fields as [|f fs IH]; intros Hs; [done|].
  rewrite reverse_cons, foldl_app. cbn. rewrite IH by (intros; apply Hs; by constructor). cbn.
  apply sort_by_sorted. apply (sortable_permutation _ results); [apply Hs; constructor|].
  symmetry. apply sorted_by_Permutation.
Qed.

Lemma sorted_by_lexicographic fields results :
  (forall field, field ∈ fields -> sortable field results) ->
  StronglySorted (fun x y => fields_lt fields y x = false) (sorted_by fields results).
Proof.
  induction fields as [|f fs IH]; intros Hs; cbn.
  { clear. induction results as [|r l IH]; constructor; [done|by apply Forall_forall]. }
  assert (sortable f (sorted_by fs results)) as Hf.
  { apply (sortable_permutation _ results); [apply Hs; constructor|].
    symmetry. apply sorted_by_Permutation. }
  destruct (field_lt_ordering _ _ Hf) as [Hord Hall].
  apply (sort_stable_lex _ Hord _ _ Hall). apply IH. intros; apply Hs; by constructor.
Qed.

Lemma sorted_by_stable (Q : Result R -> bool) fields results :
  (forall field, field ∈ fields -> sortable field results) ->
  (forall field x y, field ∈ fields -> x ∈ results -> y ∈ results ->
    Q x = true -> Q y = true -> field_lt field y x = false) ->
  filter (fun r => Q r = true) (sorted_by fields results) = filter (fun r => Q r = true) results.
Proof.
  induction fields as [|f fs IH]; intros Hs HQ; [done|].
  change (sorted_by (f :: fs) results) with
    (sort_stable (field_lt f) (sorted_by fs results)).
  assert (sortable f (sorted_by fs results)) as Hf.
  { apply (sortable_permutation _ results); [apply Hs; constructor|].
    symmetry. apply sorted_by_Permutation. }
  destruct (field_lt_ordering _ _ Hf) as [Hord Hall].
  rewrite (sort_stable_filter _ Hord Q _ Hall).
  - apply IH; intros; [apply Hs|eapply HQ]; eauto; by constructor.
  - intros x y. rewrite !sorted_by_Permutation. apply HQ. constructor.
Qed.

(** A sort clause sorts: when every result has every field, with values that are all
    numbers or all strings, the outcome is a reordering of the results in the
    lexicographic order of the fields, each in its own direction, and results that no
    field separates keep their order, descending fields included. *)
Theorem sort_clause_sorts (Q : Result R -> bool) fields results :
  (forall field, field ∈ fields -> sortable field results) ->
  (forall field x y, field ∈ fields -> x ∈ results -> y ∈ results ->
    Q x = true -> Q y = true -> field_lt field y x = false) ->
  exists sorted, sort_results fields results = Ok sorted /\ sorted ≡ₚ results /\
    StronglySorted (fun x y => fields_lt fields y x = false) sorted /\
    filter (fun r => Q r = true) sorted = filter (fun r => Q r = true) results.
Proof.
  intros Hs HQ. exists (sorted_by fields results). split_and!.
  - by apply sort_results_sorted_by.
  - apply sorted_by_Permutation.
  - by apply sorted_by_lexicographic.
  - by apply sorted_by_stable.
Qed.

(** ** Paging *)

Lemma offset_page_take_drop k p results :
  offset_page (1 + Z.of_nat p) (Z.of_nat k) results = take k (drop (p * k) results).
Proof.
  unfold offset_page, paging_offset. rewrite py_slice_nonneg by lia. f_equal; [|f_equal]; lia.
Qed.

(** Pages 1 to [n] of [k] items. *)
Definition offset_pages (n k : nat) (results : list (Result R)) : list (list (Result R)) :=
  (fun p => offset_page (1 + Z.of_nat p) (Z.of_nat k) results) <$> seq 0 n.

(** Offset paging cuts the results without gap or overlap: pages 1, 2, ..., n of [k]
    items, for enough pages, concatenate to the results, every page has at most [k] items,
    and only the last one with items can have fewer. *)
Theorem offset_pages_partition k n results :
  0 < k -> length results <= n * k ->
  concat (offset_pages n k results) = results /\
  forall p, length (offset_page (1 + Z.of_nat p) (Z.of_nat k) results) =
    Nat.min k (length results - p * k).
Proof.
  intros Hk Hn. split.
  - unfold offset_pages. rewrite (list_fmap_ext _ (fun p => take k (drop (p * k) results)) _)
      by (intros; apply offset_page_take_drop).
    assert (forall m i, concat ((fun p => take k (drop (p * k) results)) <$> seq i m) =
      take (m * k) (drop (i * k) results)) as Hgen.
    { induction m as [|m IH]; intros i; [done|]. cbn [seq fmap list_fmap concat]. rewrite IH.
      rewrite <-(take_drop k (drop (i * k) results)) at 2.
      rewrite drop_drop. replace (S i * k) with (i * k + k) by lia.
      destruct (decide (k <= length (drop (i * k) results))) as [Hle|Hgt].
      - rewrite take_app_ge by (rewrite length_take; lia). f_equal. rewrite length_take.
        f_equal. lia.
      - rewrite (drop_ge results (i * k + k)) by (rewrite length_drop in Hgt; lia).
        rewrite take_nil, !app_nil_r. by rewrite (take_ge _ (S m * k)) by (rewrite length_take; lia). }
    rewrite Hgen. cbn. rewrite drop_0. by apply take_ge.
  - intros p. rewrite offset_page_take_drop, length_take, length_drop. done.
Qed.

(** *** Key set paging *)

Abbreviation ident r := (record_id (res_record r)).

Lemma indices_of_elem results last_id start j :
  j ∈ indices_of results last_id start <->
  exists i r, results !! i = Some r /\ ident r = last_id /\ j = (start + Z.of_nat i)%Z.
Proof.
  revert start. induction results as [|r results IH]; intros start; cbn.
  { split; [by intros ?%not_elem_of_nil|]. by intros (i & r & ? & _). }
  assert (forall i r' id, (r :: results) !! S i = Some r' -> ident r' = id ->
    exists i0 r0, results !! i0 = Some r0 /\ ident r0 = id /\
      (start + Z.of_nat (S i))%Z = (start + 1 + Z.of_nat i0)%Z) as Hshift.
  { intros i r' id Hr' Hid. exists i, r'. split_and!; [done|done|lia]. }
  destruct (decide (ident r = last_id)) as [Hr|Hr]; [rewrite elem_of_cons|]; rewrite IH; split.
  - intros [->|(i & r' & Hi & Hid & ->)]; [exists 0, r; split_and!; [done|done|lia]|].
    exists (S i), r'. split_and!; [done|done|lia].
  - intros ([|i] & r' & Hi & Hid & ->); [left; lia|right]. by eapply Hshift.
  - intros (i & r' & Hi & Hid & ->). exists (S i), r'. split_and!; [done|done|lia].
  - intros ([|i] & r' & Hi & Hid & ->); [by simplify_eq/=|]. by eapply Hshift.
Qed.

Lemma indices_of_sorted results last_id start :
  NoDup (indices_of results last_id start).
Proof.
  revert start. induction results as [|r results IH]; intros start; cbn; [constructor|].
  case_decide; [|apply IH]. constructor; [|apply IH].
  intros (i & r' & _ & _ & Heq)%indices_of_elem. lia.
Qed.

Lemma determine_last_index_found results i r :
  NoDup (record_id <$> (res_record <$> results)) -> results !! i = Some r ->
  determine_last_index results (Some (ident r)) = LastIndexFound (Z.of_nat i).
Proof.
  intros Hnd Hi. unfold determine_last_index.
  assert (indices_of results (ident r) 0 ≡ₚ [Z.of_nat i]) as Hp.
  { apply NoDup_Permutation; [apply indices_of_sorted|apply NoDup_singleton|].
    intros j. rewrite list_elem_of_singleton, indices_of_elem. split.
    - intros (i' & r' & Hi' & Hid & ->). enough (i' = i) as -> by lia.
      apply (NoDup_lookup (record_id <$> (res_record <$> results)) i' i (ident r));
        [done|by rewrite !list_lookup_fmap, Hi'; cbn; f_equal|by rewrite !list_lookup_fmap, Hi].
    - intros ->. by exists i, r. }
  by apply Permutation_singleton_r in Hp as ->.
Qed.

Lemma determine_last_index_missing results last_id :
  last_id ∉ (record_id <$> (res_record <$> results)) ->
  determine_last_index results (Some last_id) = LastIndexNotFound.
Proof.
  intros Hno. unfold determine_last_index.
  destruct (indices_of results last_id 0) as [|j l] eqn:E; [done|]. exfalso. apply Hno.
  assert (j ∈ indices_of results last_id 0) as (i & r & Hi & <- & _)%indices_of_elem
    by (rewrite E; constructor).
  apply list_elem_of_lookup. exists i. by rewrite !list_lookup_fmap, Hi.
Qed.

(** Reading all pages forwards, each after the last id of the one before. *)
Fixpoint walk_pages (fuel : nat) (k : Z) (last_id : option string) results : list (Result R) :=
  match fuel with
  | O => []
  | S fuel =>
      let page := key_set_page last_id FORWARDS k results in
      match last page with
      | None => []
      | Some r => page ++ walk_pages fuel k (Some (ident r)) results
      end
  end.

Lemma page_after results k i r :
  NoDup (record_id <$> (res_record <$> results)) -> results !! i = Some r ->
  key_set_page (Some (ident r)) FORWARDS (Z.of_nat k) results = take k (drop (S i) results).
Proof.
  intros Hnd Hi. unfold key_set_page. rewrite (determine_last_index_found _ i) by done.
  rewrite py_slice_nonneg by lia. f_equal; [|f_equal]; lia.
Qed.

Lemma page_before results k i r :
  NoDup (record_id <$> (res_record <$> results)) -> results !! i = Some r ->
  key_set_page (Some (ident r)) BACKWARDS (Z.of_nat k) results =
  take (Nat.min k i) (drop (i - k) results).
Proof.
  intros Hnd Hi. unfold key_set_page. rewrite (determine_last_index_found _ i) by done.
  rewrite py_slice_nonneg by lia. f_equal; [|f_equal]; lia.
Qed.

Lemma walk_pages_from fuel k results i r :
  NoDup (record_id <$> (res_record <$> results)) -> 0 < k ->
  results !! i = Some r -> length results <= i + fuel ->
  walk_pages fuel (Z.of_nat k) (Some (ident r)) results = drop (S i) results.
Proof.
  intros Hnd Hk. revert i r. induction fuel as [|fuel IH]; intros i r Hi Hf.
  { apply lookup_lt_Some in Hi. lia. }
  cbn [walk_pages]. rewrite (page_after _ _ i r) by done.
  destruct (last (take k (drop (S i) results))) as [r'|] eqn:El.
  - rewrite last_lookup, lookup_take_Some, length_take, length_drop in El.
    destruct El as [Hi' Hlt]. rewrite lookup_drop in Hi'.
    rewrite (IH _ _ Hi') by lia.
    rewrite <-(take_drop k (drop (S i) results)) at 2. f_equal. rewrite drop_drop.
    destruct (decide (k <= length results - S i)).
    + f_equal. lia.
    + rewrite !drop_ge; [done|lia..].
  - apply last_None in El. rewrite <-(take_drop k (drop (S i) results)), El. cbn.
    assert (length (take k (drop (S i) results)) = 0) as Hl by by rewrite El.
    rewrite length_take, length_drop in Hl. rewrite drop_ge; [done|rewrite length_drop; lia].
Qed.

(** C27. Key set paging visits everything once: when ids are unique and pages have at least one
    item, following pages forwards from the first one, each after the last id of the page
    before, yields all results in order. From any position the page backwards is the items just
    before it: a full page of them, or all there are when they are fewer; so the page
    before the item that follows a full page is that page again. An id that is not there has
    empty pages on both sides, and there is nothing before the first page. *)
Theorem key_set_paging k results :
  0 < k -> NoDup (record_id <$> (res_record <$> results)) ->
  walk_pages (S (length results)) (Z.of_nat k) None results = results /\
  (forall i r, results !! i = Some r ->
    key_set_page (Some (ident r)) BACKWARDS (Z.of_nat k) results =
    drop (i - k) (take i results)) /\
  (forall i r, results !! (i + k) = Some r ->
    key_set_page (Some (ident r)) BACKWARDS (Z.of_nat k) results = take k (drop i results)) /\
  (forall last_id direction,
    last_id ∉ (record_id <$> (res_record <$> results)) ->
    key_set_page (Some last_id) direction (Z.of_nat k) results = []) /\
  key_set_page None BACKWARDS (Z.of_nat k) results = [].
Proof.
  intros Hk Hnd. split_and!.
  - cbn [walk_pages]. unfold key_set_page. cbn [determine_last_index].
    rewrite py_slice_nonneg by lia. cbn [Z.to_nat]. rewrite drop_0, Nat2Z.id, Nat.sub_0_r.
    destruct (last (take k results)) as [r|] eqn:El.
    + rewrite last_lookup, lookup_take_Some, length_take in El. destruct El as [Hi Hlt].
      rewrite (walk_pages_from _ _ _ _ _ Hnd Hk Hi) by lia.
      destruct (decide (k <= length results)).
      * replace (S (Init.Nat.pred (k `min` length results))) with k by lia. apply take_drop.
      * rewrite take_ge, drop_ge by lia. apply app_nil_r.
    + apply last_None in El. rewrite <-(take_drop k results), El. cbn.
      assert (length (take k results) = 0) as Hl by by rewrite El.
      rewrite length_take in Hl. rewrite drop_ge; [done|lia].
  - intros i r Hi. rewrite (page_before _ _ i) by done. rewrite skipn_firstn_comm.
    destruct (decide (k <= i)) as [Hle|Hlt]; [do 2 f_equal; lia|].
    replace (i - k) with 0 by lia. do 2 f_equal; lia.
  - intros i r Hi. rewrite (page_before _ _ (i + k)) by done.
    replace (k `min` (i + k)) with k by lia. by replace (i + k - k) with i by lia.
  - intros last_id direction Hno. unfold key_set_page. by rewrite determine_last_index_missing.
  - done.
Qed.

(** ** Searches *)

Lemma compose_run (fs : list (ResultSetTransformer R)) rs :
  compose_transformers fs rs =
  foldl (fun (acc : res (ResultSet R)) f => acc ≫= f) (Ok rs) fs.
Proof.
  unfold compose_transformers.
  assert (forall (init : ResultSetTransformer R),
    foldl (fun f g x => f x ≫= g) init fs rs =
    foldl (fun (acc : res (ResultSet R)) f => acc ≫= f) (init rs) fs) as Hgen.
  { induction fs as [|f fs IH]; intros init; cbn; [done|]. by rewrite IH. }
  apply Hgen.
Qed.

Definition clause_matches (clause : Clause) (r : Result R) : bool :=
  match clause with
  | FilterClause operator field value =>
      match matches operator field value r with Ok b => b | Raise _ => false end
  | _ => true
  end.

(** A filter that can be decided of every result. *)
Definition decidable_filter results (clause : Clause) : Prop :=
  exists operator field value, clause = FilterClause operator field value /\
    forall r, r ∈ results -> is_ok (matches operator field value r) = true.

Definition page_of (paging : option Clause) results : list (Result R) :=
  match paging with
  | Some (KeySetPagingClause last_id direction item_count) =>
      key_set_page last_id direction item_count results
  | Some (OffsetPagingClause page_number item_count) => offset_page page_number item_count results
  | _ => results
  end.
Definition is_paging (paging : option Clause) : bool :=
  match paging with
  | None | Some (KeySetPagingClause _ _ _) | Some (OffsetPagingClause _ _) => true
  | _ => false
  end.

Lemma filter_results_total (test : Result R -> res bool) results :
  (forall r, r ∈ results -> is_ok (test r) = true) ->
  filter_results test results =
  Ok (List.filter (fun r => match test r with Ok b => b | Raise _ => false end) results).
Proof.
  induction results as [|r results IH]; intros Ht; cbn; [done|].
  pose proof (Ht r ltac:(constructor)) as Hr. destruct (test r) as [b|]; [|done]. cbn.
  rewrite IH by (intros; apply Ht; by constructor). cbn. by destruct b.
Qed.

Lemma convert_default_clause (c : DelegatingQueryConverter (R := R)) clause :
  convert_clause (with_default_converters c) clause =
  match clause with
  | FilterClause _ _ _ => FilterClauseConverter clause
  | SortClause _ =>
      SortClauseConverter (convert_function (with_default_converters c)) clause
  | KeySetPagingClause _ _ _ => KeySetPagingClauseConverter clause
  | OffsetPagingClause _ _ => OffsetPagingClauseConverter clause
  | _ => convert_clause (with_default_converters c) clause
  end.
Proof.
  destruct clause; try done; unfold convert_clause, registry_convert; rewrite lookup_fmap; cbn;
    by simplify_map_eq.
Qed.

Lemma convert_default_query (c : DelegatingQueryConverter (R := R)) query :
  convert_query (with_default_converters c) query =
  match query with
  | Search _ _ _ => SearchQueryConverter (convert_clause (with_default_converters c)) query
  | Lookup _ => LookupQueryConverter (convert_clause (with_default_converters c)) query
  | CustomQuery _ _ => convert_query (with_default_converters c) query
  end.
Proof.
  destruct query; try done; unfold convert_query, registry_convert; rewrite lookup_fmap; cbn;
    by simplify_map_eq.
Qed.

Lemma run_filters (c : DelegatingQueryConverter (R := R)) filters rs :
  (forall f, f ∈ filters -> decidable_filter (rs_results rs) f) ->
  exists ts, mapM (convert_clause (with_default_converters c)) filters = Ok ts /\
    foldl (fun (acc : res (ResultSet R)) f => acc ≫= f) (Ok rs) ts =
    Ok (with_results rs
      (List.filter (fun r => forallb (fun f => clause_matches f r) filters) (rs_results rs))).
Proof.
  revert rs. induction filters as [|f filters IH]; intros rs Hf.
  { exists []. split; [done|]. cbn. destruct rs as [l x]. unfold with_results. cbn.
    by rewrite filter_true. }
  destruct (Hf f) as (operator & field & value & -> & Hdec); [constructor|].
  destruct (IH (with_results rs (List.filter (clause_matches (FilterClause operator field value))
    (rs_results rs)))) as (ts & Hts & Hrun).
  { intros f Hin. destruct (Hf f) as (o & p & v & -> & Hd); [by constructor|].
    exists o, p, v. split; [done|]. cbn. intros r [Hr _]%list_elem_of_In%filter_In.
    by apply Hd, list_elem_of_In. }
  cbn [mapM]. rewrite convert_default_clause, Hts. cbn [FilterClauseConverter].
  eexists. split; [reflexivity|]. cbn [foldl]. unfold mbind at 2, res_bind at 2.
  rewrite filter_results_total by done.
  etrans; [exact Hrun|]. f_equal. unfold with_results. cbn [rs_results rs_extra]. f_equal.
  apply filter_twice.
Qed.

(** C35. A search filters, then sorts, then pages: with the default converters and clauses
    that make sense of the records, it converts, runs without raising, and returns the
    page it asks for of the sorted results that match every filter. *)
Theorem search_semantics (c : DelegatingQueryConverter (R := R)) filters sort paging rs :
  let kept :=
    List.filter (fun r => forallb (fun f => clause_matches f r) filters) (rs_results rs) in
  (forall f, f ∈ filters -> decidable_filter (rs_results rs) f) ->
  (forall field, field ∈ default [] sort ->
    sortable field kept /\ exists p, sf_field field = inl p) ->
  is_paging paging = true ->
  exists transformer,
    convert_query (with_default_converters c) (Search filters (SortClause <$> sort) paging) =
      Ok transformer /\
    transformer rs = Ok (with_results rs (page_of paging (sorted_by (default [] sort) kept))).
Proof.
  intros kept Hf Hs Hp. destruct (run_filters c filters rs Hf) as (ts & Hts & Hrun).
  assert (exists us, mapM (convert_clause (with_default_converters c))
      (from_option (fun c => [c]) [] (SortClause <$> sort) ++
       from_option (fun c => [c]) [] paging) = Ok us /\
    foldl (fun (acc : res (ResultSet R)) f => acc ≫= f) (Ok (with_results rs kept)) us =
    Ok (with_results rs (page_of paging (sorted_by (default [] sort) kept))))
    as (us & Hus & Hrun').
  { destruct sort as [fields|]; cbn [fmap option_fmap option_map from_option default] in *;
      cbn [app mapM].
    - rewrite convert_default_clause. cbn [SortClauseConverter].
      assert (omap (fun f => match sf_field f with inr function => Some function | _ => None end)
        fields = []) as ->.
      { clear -Hs. induction fields as [|f fs IH]; [done|]. cbn.
        destruct (Hs f) as [_ [p ->]]; [constructor|]. apply IH. intros; apply Hs; by constructor. }
      pose proof (sort_results_sorted_by fields kept (fun f H => proj1 (Hs f H))) as Hsort.
      destruct paging as [[]|]; try discriminate Hp; cbn [from_option mapM];
        rewrite ?convert_default_clause; eexists; (split; [reflexivity|]); cbn;
        by rewrite Hsort.
    - destruct paging as [[]|]; try discriminate Hp; cbn [from_option mapM];
        rewrite ?convert_default_clause; eexists; (split; [reflexivity|]); done. }
  rewrite convert_default_query. cbn [SearchQueryConverter].
  assert (mapM (convert_clause (with_default_converters c))
    (filters ++ from_option (fun c => [c]) [] (SortClause <$> sort) ++
     from_option (fun c => [c]) [] paging) = Ok (ts ++ us)) as Hall.
  { apply res_mapM_Ok. apply res_mapM_Ok in Hts, Hus. by apply Forall2_app. }
  rewrite Hall. eexists. split; [reflexivity|].
  by rewrite compose_run, foldl_app, Hrun.
Qed.
End theory.

(** ** Witnesses *)
Section witnesses.

(** Records with an id and one number, the attribute "n". *)
#[local] Instance pair_identifiable : Identifiable (string * Z) := {|
  record_attribute := fun r name =>
    if decide (name = "n"%string) then Some (VInt r.2) else
    if decide (name = "id"%string) then Some (VStr r.1) else None;
  record_id := fst |}.
#[local] Instance no_regex : Regex := {| re_compile := fun _ => None |}.

Definition three_results : list (Result (string * Z)) :=
  [mkResult ("a"%string, 2%Z) []; mkResult ("b"%string, 1%Z) []; mkResult ("c"%string, 2%Z) []].
Definition by_n : SortField := mkSortField (inl (path "n" [])) DESC.

Lemma by_n_sortable (l : list (Result (string * Z))) :
  Forall (fun r => res_extra r = []) l -> sortable by_n l.
Proof.
  intros Hl. exists ((fun r => VInt (res_record r).2) <$> l). split.
  - apply res_mapM_Ok, Forall2_fmap_r, Forall_Forall2_diag. eapply Forall_impl; [done|].
    intros r Hr. cbn. unfold lookup_result, lookup_in_extra. by rewrite Hr.
  - left. by apply Forall_fmap, Forall_true.
Defined.

Lemma sort_clause_sorts_witness :
  let Q := fun r : Result (string * Z) => bool_decide ((res_record r).2 = 2%Z) in
  exists sorted, sort_results [by_n] three_results = Ok sorted /\
    filter (fun r => Q r = true) sorted = filter (fun r => Q r = true) three_results.
Proof.
  intros Q.
  destruct (sort_clause_sorts Q [by_n] three_results) as (sorted & Hs & _ & _ & Hq).
  - intros field ->%list_elem_of_singleton. apply by_n_sortable. by repeat constructor.
  - intros field x y ->%list_elem_of_singleton Hx Hy HQx HQy.
    unfold three_results in *. rewrite !elem_of_cons, elem_of_nil in Hx, Hy.
    destruct Hx as [->|[->|[->|[]]]], Hy as [->|[->|[->|[]]]]; try done.
  - by exists sorted.
Defined.

Lemma offset_pages_partition_witness :
  concat (offset_pages 2 2 three_results) = three_results.
Proof. apply (offset_pages_partition 2 2 three_results); [lia|cbn; lia]. Defined.

Lemma key_set_paging_witness :
  walk_pages 4 (Z.of_nat 2) None three_results = three_results /\
  (exists r, three_results !! 1 = Some r /\
    key_set_page (Some (record_id (res_record r))) BACKWARDS 2 three_results =
    take 1 three_results) /\
  exists r, three_results !! 2 = Some r /\
    key_set_page (Some (record_id (res_record r))) BACKWARDS 2 three_results =
    take 2 three_results.
Proof.
  destruct (key_set_paging 2 three_results) as (Hall & Hback & _); [lia| |].
  { cbn. repeat constructor; set_solver. }
  split; [exact Hall|]. split.
  - eexists. split; [reflexivity|]. exact (Hback 1 _ eq_refl).
  - eexists. split; [reflexivity|]. exact (Hback 2 _ eq_refl).
Defined.

Lemma search_semantics_witness :
  let rs := mkResultSet three_results [] in
  exists transformer,
    convert_query (with_default_converters empty_converter)
      (Search [FilterClause EQUAL (path "n" []) (VInt 2)] (Some (SortClause [by_n]))
        (Some (OffsetPagingClause 1 1))) = Ok transformer /\
    transformer rs = Ok (with_results rs [mkResult ("a"%string, 2%Z) []]).
Proof.
  intros rs.
  destruct (search_semantics empty_converter [FilterClause EQUAL (path "n" []) (VInt 2)]
    (Some [by_n]) (Some (OffsetPagingClause 1 1)) rs) as (t & Ht & Hr).
  - intros f ->%list_elem_of_singleton. exists EQUAL, (path "n" []), (VInt 2).
    split; [done|]. cbn. intros r Hr. unfold three_results in Hr.
    rewrite !elem_of_cons, elem_of_nil in Hr. by destruct Hr as [->|[->|[->|[]]]].
  - intros field ->%list_elem_of_singleton. split; [|by eexists]. apply by_n_sortable.
    by repeat constructor.
  - reflexivity.
  - exists t. split; [exact Ht|]. rewrite Hr. vm_compute. reflexivity.
Defined.
End witnesses.
