(* ===== verification/Projections.v ===== *)
(** Projections: the projector of [projection/projector.py], the interface of storage adapters
    ([projection/store/adapters/base.py]) and the adapter in memory
    ([projection/store/adapters/memory.py]), the projection store of
    [projection/store/store.py] on any adapter, and the event processor that keeps a projection
    up to date event by event ([processing/consumers/projection.py]). *)
From S2P Require Import Prelude Values Conversion Events Conditions EventsDB MemoryAdapter.
From S2P Require Import Sources Query MemoryQuery QueryTheory.

(** ** [projector.py] *)

(** The case conversions of the [pyheck] package. *)
Class CaseConversion := { to_snake_case : string -> string; to_kebab_case : string -> string }.

Inductive MissingHandlerBehaviour := RAISE | IGNORE.

(** A user's subclass of [Projector]. [pj_attribute] is [getattr(self, name, None)] called
    on a state and an event: a handler, or whatever else the class has by that name. *)
Record Projector := mkProjector {
  pj_class : string;
  pj_name : option string;
  pj_missing_handler_behaviour : MissingHandlerBehaviour;
  pj_initial_state : res Val;
  pj_initial_metadata : res Val;
  pj_id : Val -> EventSourceIdentifier -> res string;
  pj_update_metadata : Val -> Val -> StoredEvent -> res Val;
  pj_attribute : string -> option (Val -> StoredEvent -> res Val)
}.

(** [Projector.update_metadata], the default. *)
Definition default_update_metadata (state metadata : Val) (event : StoredEvent) : res Val :=
  Ok metadata.

(** [s.replace(old, "")] for a non-empty [old]. *)
Fixpoint remove_all (fuel : nat) (old s : string) : string :=
  match fuel with
  | O => s
  | S fuel =>
      match s with
      | EmptyString => EmptyString
      | String a rest =>
          if String.prefix old s
          then remove_all fuel old (String.substring (String.length old)
                 (String.length s - String.length old) s)
          else String a (remove_all fuel old rest)
      end
  end.

Section projector.
Context `{UserCode} `{CaseConversion}.
Variable pj : Projector.

Definition default_name : string :=
  to_kebab_case (remove_all (String.length (pj_class pj)) "Projector" (pj_class pj)).
Definition projection_name : string := default default_name (pj_name pj).

Definition resolve_state (state : Val) : res Val :=
  match state with VNone => pj_initial_state pj | _ => Ok state end.
Definition resolve_metadata (metadata : Val) : res Val :=
  match metadata with VNone => pj_initial_metadata pj | _ => Ok metadata end.

Definition resolve_handler (event : StoredEvent) : res (Val -> StoredEvent -> res Val) :=
  match se_name event with
  | VStr name =>
      match pj_attribute pj (to_snake_case name) with
      | Some handler => Ok handler
      | None =>
          match pj_missing_handler_behaviour pj with
          | RAISE => Raise (MissingProjectionHandlerError name)
          | IGNORE => Ok (fun state _ => Ok state)
          end
      end
  | _ => Raise TypeError
  end.

(** [Projector.apply]. *)
Definition apply_event (event : StoredEvent) (state : Val) : res Val :=
  state ← resolve_state state;
  handler ← resolve_handler event;
  handler state event.

(** The loop of [project]. *)
Fixpoint project_events (events : list StoredEvent) (state metadata : Val) : res (Val * Val) :=
  match events with
  | [] => Ok (state, metadata)
  | event :: rest =>
      state ← apply_event event state;
      metadata ← pj_update_metadata pj state metadata event;
      project_events rest state metadata
  end.

Definition project (identifier : EventSourceIdentifier) (source : Gen StoredEvent)
    (state metadata : Val) : res Projection :=
  state ← resolve_state state;
  metadata ← resolve_metadata metadata;
  final ← project_events (yielded source) state metadata;
  _ ← from_option Raise (Ok ()) (raised source);
  id ← pj_id pj final.1 identifier;
  Ok (mkProjection id projection_name identifier final.1 final.2).
End projector.

(** ** [projection/store/adapters/memory.py] *)

Definition ProjectionKey : Type := string * string.
(** [_projections]: by name and id, in order of first insertion. *)
Definition Projections : Type := dict ProjectionKey Projection.

(** Attributes of a projection that are data; methods are not looked up. *)
#[export] Instance projection_identifiable : Identifiable Projection := {|
  record_attribute := fun p name =>
    if decide (name = "id"%string) then Some (VStr (pr_id p))
    else if decide (name = "name"%string) then Some (VStr (pr_name p))
    else if decide (name = "source"%string) then Some (VIdent (pr_source p))
    else if decide (name = "state"%string) then Some (pr_state p)
    else if decide (name = "metadata"%string) then Some (pr_metadata p)
    else None;
  record_id := pr_id |}.

Section projection_store.
Context `{UserCode}.
Variable convert : Query -> res (ResultSetTransformer Projection).

Definition save_projection (projection : Projection) : ST Projections () := fun projections =>
  let key := (pr_name projection, pr_id projection) in
  let saved :=
    match dict_get projections key with
    | Some existing =>
        state ← serialise_to_json_value (pr_state projection) raising_serialisation_fallback;
        metadata ← serialise_to_json_value (pr_metadata projection) raising_serialisation_fallback;
        Ok (mkProjection (pr_id existing) (pr_name existing) (pr_source existing) state metadata)
    | None => serialise_projection projection raising_serialisation_fallback
    end in
  match saved with
  | Ok p => (Ok (), dict_set projections key p)
  | Raise e => (Raise e, projections)
  end.

Definition find_raw (query : Query) (projections : Projections) : res (list Projection) :=
  transformer ← convert query;
  result_set ← transformer (result_set_of (dict_values projections));
  Ok (rs_records result_set).

Definition deserialise (p : Projection) (state_type metadata_type : Klass) : res Projection :=
  deserialise_projection p state_type metadata_type raising_deserialisation_fallback
    raising_deserialisation_fallback.

Definition find_one (lookup : Query) (state_type metadata_type : Klass)
    (projections : Projections) : res (option Projection) :=
  found ← find_raw lookup projections;
  match found with
  | [] => Ok None
  | [p] => Some <$> deserialise p state_type metadata_type
  | _ => Raise (ValueError "Expected single projection for query.")
  end.

Definition find_many (search : Query) (state_type metadata_type : Klass)
    (projections : Projections) : res (list Projection) :=
  found ← find_raw search projections;
  mapM (fun p => deserialise p state_type metadata_type) found.
End projection_store.

(** ** [projection/store/adapters/base.py] *)

Class ProjectionStorageAdapter (S : Type) := {
  pa_save : Projection -> ST S ();
  pa_find_one : Query -> Klass -> Klass -> ST S (option Projection);
  pa_find_many : Query -> Klass -> Klass -> ST S (list Projection)
}.

Definition reading {S A} (f : S -> res A) : ST S A := fun s => (f s, s).

#[export] Instance InMemoryProjectionStorageAdapter `{UserCode}
    (convert : Query -> res (ResultSetTransformer Projection))
    : ProjectionStorageAdapter Projections := {|
  pa_save := save_projection;
  pa_find_one := fun lookup state_type metadata_type =>
    reading (find_one convert lookup state_type metadata_type);
  pa_find_many := fun search state_type metadata_type =>
    reading (find_many convert search state_type metadata_type)
|}.

(** The default query converter. *)
Definition default_convert `{Regex} (query : Query) : res (ResultSetTransformer Projection) :=
  convert_query (with_default_converters empty_converter) query.

(** ** [projection/store/store.py] *)
Section projection_store.
Context `{UserCode} {S : Type} `{ProjectionStorageAdapter S}.

Definition log_saved (debug : bool) (projection : Projection) : res Val :=
  if debug then serialise_projection_value projection str_serialisation_fallback
  else Ok (summarise_projection projection).

(** [ProjectionStore.save]: the log line comes after the write. *)
Definition store_save (debug : bool) (projection : Projection) : ST S () :=
  _ ← pa_save projection;
  _ ← st_lift (log_saved debug projection);
  mret ().

Definition locate_query (source : EventSourceIdentifier) (name : string) : Query :=
  Lookup [FilterClause EQUAL (path "source" []) (VIdent source);
          FilterClause EQUAL (path "name" []) (VStr name)].
Definition load_query (id name : string) : Query :=
  Lookup [FilterClause EQUAL (path "name" []) (VStr name);
          FilterClause EQUAL (path "id" []) (VStr id)].

Definition locate (source : EventSourceIdentifier) (name : string)
    (state_type metadata_type : Klass) : ST S (option Projection) :=
  pa_find_one (locate_query source name) state_type metadata_type.
Definition load (id name : string) (state_type metadata_type : Klass)
    : ST S (option Projection) :=
  pa_find_one (load_query id name) state_type metadata_type.
Definition search_projections (filters : list Clause) (sort paging : Clause)
    (state_type metadata_type : Klass) : ST S (list Projection) :=
  pa_find_many (Search filters (Some sort) (Some paging)) state_type metadata_type.

(** ** [ProjectionEventProcessor.process_event] *)
Definition process_event `{CaseConversion} (pj : Projector) (debug : bool)
    (state_type metadata_type : Klass) (event : StoredEvent) : ST S () :=
  let identifier := se_identifier event in
  current ← locate identifier (projection_name pj) state_type metadata_type;
  let source := InMemoryStoredEventSource (S := ()) identifier [event] in
  updated ← st_lift (project pj identifier (src_iterate source () [])
    (from_option pr_state VNone current) (from_option pr_metadata VNone current));
  store_save debug updated.
End projection_store.

(** ** Projecting incrementally *)
Section incremental.
Context `{UserCode} `{CaseConversion}.
Variable pj : Projector.

Lemma project_events_app l1 l2 state metadata :
  project_events pj (l1 ++ l2) state metadata =
  (mid ← project_events pj l1 state metadata; project_events pj l2 mid.1 mid.2).
Proof.
  revert state metadata. induction l1 as [|e l1 IH]; intros state metadata; cbn; [done|].
  destruct (apply_event pj e state) as [s|]; cbn; [|done].
  destruct (pj_update_metadata pj s metadata e) as [m|]; cbn; [|done]. apply IH.
Qed.

Lemma project_app identifier l1 l2 state metadata p :
  project pj identifier (gen_of l1) state metadata = Ok p ->
  pr_state p <> VNone -> pr_metadata p <> VNone ->
  project pj identifier (gen_of (l1 ++ l2)) state metadata =
  project pj identifier (gen_of l2) (pr_state p) (pr_metadata p).
Proof.
  unfold project. cbn. intros Hp Hs Hm.
  destruct (resolve_state pj state) as [s|]; cbn in *; [|done].
  destruct (resolve_metadata pj metadata) as [m|]; cbn in *; [|done].
  rewrite project_events_app.
  destruct (project_events pj l1 s m) as [[s1 m1]|]; cbn in *; [|done].
  destruct (pj_id pj s1 identifier) as [id|]; cbn in Hp; [|done]. injection Hp as <-.
  cbn in *. by destruct s1, m1.
Qed.
End incremental.
