(* ===== verification/JsonEquivalence.v ===== *)
(** JSON values that are the same but for the order of the keys of objects, which Python's
    [==] does not see and a [jsonb] column does not keep, and results up to a relation. *)
From S2P Require Import Prelude Values Conversion.

(** The same value, but for the order of the keys of objects. *)
Inductive same_json : Val -> Val -> Prop :=
  | same_value v : same_json v v
  | same_array l l' : Forall2 same_json l l' -> same_json (VList l) (VList l')
  | same_object d d' d'' :
      Forall2 (fun x y => x.1 = y.1 /\ same_json x.2 y.2) d d'' -> d'' ≡ₚ d' ->
      same_json (VDict d) (VDict d').

Abbreviation same_entry := (fun x y : Val * Val => x.1 = y.1 /\ same_json x.2 y.2).

#[export] Instance same_json_reflexive : Reflexive same_json := same_value.

Lemma same_json_sym v w : same_json v w -> same_json w v.
Proof.
  revert w. induction v using Val_nested_ind; intros w Hw; inversion Hw; subst; try done;
    try apply same_value.
  - apply same_array. clear Hw. revert dependent l'. induction H as [|v l Hv Hl IH];
      intros l'; inversion 1; subst; constructor; auto.
  - match goal with Hd : Forall2 _ d ?e, Hp : ?e ≡ₚ ?d' |- _ =>
      assert (Forall2 same_entry e d) as Hs; [|
      destruct (Permutation_Forall2 Hp Hs) as (d1 & Hp1 & Hd1); by apply same_object with d1] end.
    clear Hw. match goal with Hp : _ ≡ₚ _ |- _ => clear Hp end.
    match goal with Hd : Forall2 _ d ?e |- _ => revert e Hd end.
    induction H as [|[k v] d [_ Hv] _ IH]; intros e; inversion 1 as [|? [k' v'] ? ? [Hk Hsv]]; subst;
      constructor; [|by apply IH]. split; [done|]. by apply Hv.
Qed.

Lemma same_json_trans u v w : same_json u v -> same_json v w -> same_json u w.
Proof.
  revert v w. induction u using Val_nested_ind; intros v w Hv Hw;
    inversion Hv; subst; try done.
  - inversion Hw; subst; [done|]. apply same_array. clear Hv Hw.
    rename l' into m. match goal with Hm : Forall2 _ m ?n |- _ => revert m H1 n Hm end.
    induction H as [|x l Hx _ IH]; intros m Hl n Hm; inversion Hl; subst; inversion Hm; subst;
      constructor; eauto.
  - inversion Hw as [|?|? d2 e2 He2 Hp2]; subst; [done|].
    match goal with Hd : Forall2 _ d ?e, Hp : ?e ≡ₚ _ |- _ => rename e into e1, Hd into He1,
      Hp into Hp1 end.
    destruct (Permutation_Forall2 (Permutation_sym Hp1) He2) as (e3 & Hp3 & He3).
    apply same_object with e3; [|by rewrite <-Hp3]. clear Hv Hw Hp1 Hp2 Hp3 He2.
    revert e1 He1 e3 He3. induction H as [|[k x] d [_ Hx] _ IH]; intros e1 He1 e3 He3;
      inversion He1 as [|? ? ? ? [Hk1 Hv1]]; subst; inversion He3 as [|? ? ? ? [Hk3 Hv3]]; subst;
      constructor; [|by eapply IH]. split; [congruence|]. eapply Hx; [exact Hv1|exact Hv3].
Qed.

#[export] Instance same_json_equivalence : Equivalence same_json.
Proof. split; [exact same_value|intros ??; apply same_json_sym|intros ???; apply same_json_trans]. Qed.

Lemma same_string s v : same_json (VStr s) v -> v = VStr s.
Proof. by inversion 1. Qed.

Lemma same_none v : same_json VNone v -> v = VNone.
Proof. by inversion 1. Qed.

#[export] Instance Json_proper : Proper (same_json ==> iff) Json.
Proof.
  enough (forall v w, same_json v w -> Json v -> Json w) as Hj.
  { intros v w Hs. split; apply Hj; [done|by symmetry]. }
  intros v. induction v using Val_nested_ind; intros w Hw Hv; inversion Hw; subst; try done;
    inversion Hv as [| | | | |? Hl|? Hl|? Hl]; subst; constructor.
  - clear Hw Hv. revert dependent l'. induction H as [|x l Hx _ IH]; intros l';
      inversion 1; subst; [done|]. apply Forall_cons in Hl as [? ?]. constructor; auto.
  - match goal with Hp : _ ≡ₚ _ |- _ => rewrite <-Hp; clear Hp Hw Hv end.
    match goal with Hd : Forall2 _ d ?e |- _ => revert e Hd end.
    induction H as [|[k x] d [_ Hx] _ IH]; intros e; inversion 1 as [|? ? ? ? [Hk Hsv]]; subst; [done|].
    apply Forall_cons in Hl as [[[k' Hk'] Hj] Hl]. cbn in *. constructor; [|by apply IH].
    split; [exists k'; congruence|by apply (Hx _ Hsv)].
Qed.

(** Results up to a relation: related values, or the same exception. *)
Inductive res_rel {A B} (R : A -> B -> Prop) : res A -> res B -> Prop :=
  | rel_ok a b : R a b -> res_rel R (Ok a) (Ok b)
  | rel_raise e : res_rel R (Raise e) (Raise e).
#[export] Hint Constructors res_rel : core.

#[export] Instance res_rel_equivalence {A} (R : relation A) :
  Equivalence R -> Equivalence (res_rel R).
Proof.
  intros HR. split.
  - intros [a|e]; by constructor.
  - intros ? ? [a b Hab|e]; by constructor.
  - intros ? ? ? [a b Hab|e]; inversion 1; subst; constructor; by etrans.
Qed.

Lemma res_rel_bind {A B A' B'} (R : A -> B -> Prop) (R' : A' -> B' -> Prop) m n f g :
  res_rel R m n -> (forall a b, R a b -> res_rel R' (f a) (g b)) ->
  res_rel R' (m ≫= f) (n ≫= g).
Proof. intros [a b Hab|e] Hfg; [by apply Hfg|constructor]. Qed.

#[export] Instance res_bind_proper {A B} (R : relation A) (R' : relation B) :
  Proper ((R ==> res_rel R') ==> res_rel R ==> res_rel R') (@mbind res res_bind A B).
Proof. intros f g Hfg m n Hmn. by apply (res_rel_bind R). Qed.
