(* ===== verification/ProjectionStore.v ===== *)
(** What a storage adapter promises to the projection store ([ProjectionAdapterLaws]), that the
    adapter in memory keeps it, and what the store and the event processor do on any adapter
    that does. *)
From S2P Require Import Prelude Values Conversion JsonEquivalence Events.
From S2P Require Import Sources Query MemoryQuery QueryTheory Projections.

(** ** The promise *)

(** The projections a store holds, by name and id. *)
Definition Stored : Type := ProjectionKey -> option Projection.

Definition projection_key (p : Projection) : ProjectionKey := (pr_name p, pr_id p).
Definition with_source (source : EventSourceIdentifier) (p : Projection) : Projection :=
  mkProjection (pr_id p) (pr_name p) source (pr_state p) (pr_metadata p).

(** After [p] is saved: it keeps the source it was first saved with. *)
Definition saved (p : Projection) (d : Stored) : Stored := fun key =>
  if decide (key = projection_key p)
  then Some (with_source (from_option pr_source (pr_source p) (d key)) p)
  else d key.

Definition by_source (source : EventSourceIdentifier) (name : string) (p : Projection) : bool :=
  bool_decide (pr_source p = source) && bool_decide (pr_name p = name).
Definition by_key (id name : string) (p : Projection) : bool :=
  bool_decide (pr_name p = name) && bool_decide (pr_id p = id).

(** The same projection, but for what [same] does not tell apart. *)
Record same_projection (same : relation Val) (p q : Projection) : Prop := {
  sp_same_id : pr_id p = pr_id q;
  sp_same_name : pr_name p = pr_name q;
  sp_same_source : pr_source p = pr_source q;
  sp_same_state : same (pr_state p) (pr_state q);
  sp_same_metadata : same (pr_metadata p) (pr_metadata q)
}.

#[export] Instance same_projection_equivalence same :
  Equivalence same -> Equivalence (same_projection same).
Proof.
  intros Hs. split.
  - intros p. by split.
  - intros p q []. split; by symmetry.
  - intros p q r [] []. split; by etrans.
Qed.

(** What is found among what is stored when at most one projection is asked for. *)
Inductive found (same : relation Val) (d : Stored) (wanted : Projection -> bool)
    : res (option Projection) -> Prop :=
  | found_none :
      (forall key p, d key = Some p -> wanted p = false) -> found same d wanted (Ok None)
  | found_one key p q :
      d key = Some p -> wanted p = true ->
      (forall key' p', d key' = Some p' -> wanted p' = true -> key' = key) ->
      same_projection same p q -> found same d wanted (Ok (Some q))
  | found_several key key' p p' message :
      d key = Some p -> wanted p = true -> d key' = Some p' -> wanted p' = true -> key <> key' ->
      found same d wanted (Raise (ValueError message)).

(** [al_json], [al_key] and [al_source] are what the adapter can store; what is read is
    [al_same] as what was saved. Lookups are promised for two conjunctions of equalities: of
    source and name, and of name and id. *)
Class ProjectionAdapterLaws (S : Type) `{UserCode} `{ProjectionStorageAdapter S} := {
  al_holds : S -> Stored -> Prop;
  al_json : Val -> Prop;
  al_key : ProjectionKey -> Prop;
  al_source : EventSourceIdentifier -> Prop;
  al_same : relation Val;
  al_equivalence :: Equivalence al_same;
  al_same_none : forall v, al_same VNone v -> v = VNone;
  al_json_json : forall v, al_json v -> Json v;
  al_keyed : forall s d key p, al_holds s d -> d key = Some p -> projection_key p = key;
  al_save_fails : forall p e s d, al_holds s d ->
    serialise_projection p raising_serialisation_fallback = Raise e ->
    exists s', pa_save p s = (Raise e, s') /\ al_holds s' d;
  al_save_law : forall p q s d, al_holds s d ->
    serialise_projection p raising_serialisation_fallback = Ok q ->
    al_json (pr_state q) -> al_json (pr_metadata q) -> al_key (projection_key p) ->
    al_source (pr_source p) ->
    exists s', pa_save p s = (Ok (), s') /\ al_holds s' (saved q d);
  al_locate_law : forall source name s d, al_holds s d -> al_source source ->
    (exists id, al_key (name, id)) ->
    let lookup := Lookup [FilterClause EQUAL (path "source" []) (VIdent source);
                          FilterClause EQUAL (path "name" []) (VStr name)] in
    exists r s', pa_find_one lookup KJsonValueType KJsonValueType s = (r, s') /\
      al_holds s' d /\ found al_same d (by_source source name) r;
  al_load_law : forall id name s d, al_holds s d -> al_key (name, id) ->
    let lookup := Lookup [FilterClause EQUAL (path "name" []) (VStr name);
                          FilterClause EQUAL (path "id" []) (VStr id)] in
    exists r s', pa_find_one lookup KJsonValueType KJsonValueType s = (r, s') /\
      al_holds s' d /\ found al_same d (by_key id name) r
}.

(** Two lookups that found the same: nothing, the same projection, or several. *)
Definition found_alike (same : relation Val) (r r' : res (option Projection)) : Prop :=
  match r, r' with
  | Ok o, Ok o' => option_Forall2 (same_projection same) o o'
  | Raise (ValueError _), Raise (ValueError _) => True
  | _, _ => False
  end.

Section found.
Context (same : relation Val) {Hsame : Equivalence same}.

(** A key identifies a projection, so that a load finds it or nothing. *)
Lemma found_by_key (d : Stored) id name r :
  (forall key p, d key = Some p -> projection_key p = key) ->
  found same d (by_key id name) r ->
  exists o, r = Ok o /\ option_Forall2 (same_projection same) (d (name, id)) o.
Proof.
  intros Hd. assert (forall key p, d key = Some p -> by_key id name p = true ->
    key = (name, id)) as Hkey.
  { intros key p Hp%Hd. unfold by_key. rewrite andb_true_iff, !bool_decide_eq_true.
    intros [<- <-]. by rewrite <-Hp. }
  intros [Hno|key p q Hp Hw _ Hpq|key key' p p' m Hp Hw Hp' Hw' Hne].
  - exists None. split; [done|]. destruct (d (name, id)) as [p|] eqn:E; [|constructor].
    exfalso. specialize (Hno _ _ E). apply Hd in E. injection E as <- <-. revert Hno.
    unfold by_key. by rewrite !bool_decide_eq_true_2.
  - exists (Some q). split; [done|]. rewrite <-(Hkey _ _ Hp Hw), Hp. by constructor.
  - destruct Hne. by rewrite (Hkey _ _ Hp Hw), (Hkey _ _ Hp' Hw').
Qed.

Lemma found_agree (d : Stored) wanted r r' :
  found eq d wanted r -> found same d wanted r' -> found_alike same r r'.
Proof.
  intros [Hno|key p q Hp Hw Hu Hpq|k k' p p' m Hp Hw Hp' Hw' Hne];
    intros [Hno2|key2 p2 q2 Hp2 Hw2 Hu2 Hpq2|k2 k2' p2 p2' m2 Hp2 Hw2 Hp2' Hw2' Hne2]; cbn; try done.
  - by rewrite (Hno _ _ Hp2) in Hw2.
  - by rewrite (Hno _ _ Hp2) in Hw2.
  - by rewrite (Hno2 _ _ Hp) in Hw.
  - constructor. rewrite (Hu _ _ Hp2 Hw2) in Hp2. simplify_eq.
    destruct Hpq as [E1 E2 E3 E4 E5], Hpq2. split; congruence.
  - destruct Hne2. by rewrite (Hu _ _ Hp2 Hw2), (Hu _ _ Hp2' Hw2').
  - by rewrite (Hno2 _ _ Hp) in Hw.
  - destruct Hne. by rewrite (Hu2 _ _ Hp Hw), (Hu2 _ _ Hp' Hw').
Qed.

(** A list of the wanted projections, each once, is what is found. *)
Lemma found_of_list (d : Stored) wanted (l : list Projection) r message :
  (forall key p, d key = Some p -> projection_key p = key) ->
  NoDup (projection_key <$> l) ->
  (forall key p, d key = Some p -> wanted p = true ->
    exists q, q ∈ l /\ same_projection same p q) ->
  (forall q, q ∈ l -> exists p, d (projection_key q) = Some p /\ wanted p = true /\
    same_projection same p q) ->
  r = match l with [] => Ok None | [q] => Ok (Some q) | _ => Raise (ValueError message) end ->
  found same d wanted r.
Proof.
  intros Hd Hnd Hin Hl ->.
  assert (forall p q, same_projection same p q -> projection_key p = projection_key q) as Hk.
  { intros p q []. unfold projection_key. congruence. }
  destruct l as [|q l].
  - apply found_none. intros key p Hp. destruct (wanted p) eqn:Hw; [|done].
    destruct (Hin _ _ Hp Hw) as (q & Hq & _). by apply not_elem_of_nil in Hq.
  - destruct (Hl q) as (p & Hp & Hw & Hpq); [by left|]. destruct l as [|q' l].
    + apply found_one with (projection_key q) p; [done..| |done]. intros key' p' Hp' Hw'.
      destruct (Hin _ _ Hp' Hw') as (q' & ->%list_elem_of_singleton & Hq').
      rewrite <-(Hd _ _ Hp'). by apply Hk.
    + destruct (Hl q') as (p' & Hp' & Hw' & _); [by right; left|].
      apply found_several with (projection_key q) (projection_key q') p p'; try done.
      cbn in Hnd. apply NoDup_cons in Hnd as [Hnd _]. intros Heq. apply Hnd. rewrite Heq. by left.
Qed.
End found.

(** ** The adapter in memory *)

Definition projections_ok (d : Projections) : Prop :=
  NoDup (dict_keys d) /\
  forall k p, dict_get d k = Some p -> k = projection_key p /\ json_projection p.

Section memory.
Context `{UserCode} `{Regex}.
Implicit Types (d : Projections) (p : Projection).

Lemma lookup_attribute p name v :
  record_attribute p name = Some v -> lookup_result (result_of p) (path name []) = Ok v.
Proof.
  intros Hv.
  unfold lookup_result, lookup_in_extra, lookup_in_record, invalid_path.
  cbn [result_of res_extra dict_get top_level path res_record sub_levels]. by rewrite Hv.
Qed.

(** A lookup by equality of attributes. *)
Lemma find_equal d attribute1 attribute2 v1 v2 get1 get2 :
  (forall p, record_attribute p attribute1 = Some (get1 p)) ->
  (forall p, record_attribute p attribute2 = Some (get2 p)) ->
  find_raw default_convert (Lookup [FilterClause EQUAL (path attribute1 []) v1;
    FilterClause EQUAL (path attribute2 []) v2]) d =
  Ok (List.filter (fun p => py_eqb (get1 p) v1 && py_eqb (get2 p) v2) (dict_values d)).
Proof.
  intros H1 H2. unfold find_raw, default_convert. rewrite convert_default_query.
  set (filters := [FilterClause EQUAL (path attribute1 []) v1;
    FilterClause EQUAL (path attribute2 []) v2]).
  assert (forall r : Result Projection, r ∈ rs_results (result_set_of (dict_values d)) ->
    exists p, r = result_of p) as Hres.
  { cbn. intros r (p & -> & _)%list_elem_of_fmap. by exists p. }
  destruct (run_filters empty_converter filters (result_set_of (dict_values d)))
    as (ts & Hts & Hrun).
  { intros f Hf. unfold filters in Hf. rewrite !elem_of_cons, elem_of_nil in Hf.
    destruct Hf as [->|[->|[]]]; (eexists _, _, _; split; [done|]);
      intros r [p ->]%Hres; unfold matches;
      [rewrite (lookup_attribute _ _ _ (H1 p))|rewrite (lookup_attribute _ _ _ (H2 p))]; done. }
  cbn [LookupQueryConverter]. rewrite Hts. cbn [mbind res_bind]. rewrite compose_run, Hrun.
  cbn [mbind res_bind with_results rs_results]. f_equal. unfold rs_records. cbn [rs_results].
  change (res_record <$> List.filter (fun r => forallb (fun f => clause_matches f r) filters)
    (result_of <$> dict_values d) =
    List.filter (fun p => py_eqb (get1 p) v1 && py_eqb (get2 p) v2) (dict_values d)).
  clear Hts Hrun Hres. induction (dict_values d) as [|p l IH]; [done|].
  cbn [result_set_of rs_results fmap list_fmap List.filter] in *.
  assert (forallb (fun f => clause_matches f (result_of p)) filters =
    py_eqb (get1 p) v1 && py_eqb (get2 p) v2) as ->.
  { unfold filters. cbn [forallb clause_matches]. unfold matches.
    rewrite (lookup_attribute _ _ _ (H1 p)), (lookup_attribute _ _ _ (H2 p)).
    cbn. by rewrite andb_true_r. }
  destruct (_ && _); [cbn [fmap list_fmap]; f_equal|]; exact IH.
Qed.

Lemma deserialise_ok p : json_projection p -> deserialise p KJsonValueType KJsonValueType = Ok p.
Proof.
  intros [Hs Hm]. unfold deserialise, deserialise_projection.
  rewrite !deserialise_json_value_type by done. by destruct p.
Qed.

Lemma find_one_found d filters wanted :
  projections_ok d ->
  find_raw default_convert (Lookup filters) d = Ok (List.filter wanted (dict_values d)) ->
  found eq (dict_get d) wanted
    (find_one default_convert (Lookup filters) KJsonValueType KJsonValueType d).
Proof.
  intros [Hnd Hok] Hfind. set (l := List.filter wanted (dict_values d)) in *.
  assert (forall q, q ∈ l <-> wanted q = true /\ dict_get d (projection_key q) = Some q) as Hl.
  { intros q. unfold l. rewrite elem_filter, dict_values_elem by done. split.
    - intros [[k Hk] Hw]. split; [done|]. by destruct (Hok _ _ Hk) as [<- _].
    - intros [Hw Hq]. by split; [exists (projection_key q)|]. }
  apply (found_of_list _ _ _ l _ "Expected single projection for query.").
  - intros key p Hp. by destruct (Hok _ _ Hp).
  - unfold l. apply filter_keys_NoDup. rewrite dict_values_keyed; [done..|].
    intros k q Hq. by destruct (Hok _ _ Hq) as [-> _].
  - intros key p Hp Hw. exists p. split; [|reflexivity]. apply Hl. split; [done|].
    by destruct (Hok _ _ Hp) as [<- _].
  - intros q [Hw Hq]%Hl. by exists q.
  - unfold find_one. rewrite Hfind. cbn [mbind res_bind].
    destruct l as [|q [|]]; [done| |done].
    rewrite deserialise_ok; [done|]. destruct (Hl q) as [[_ Hq] _]; [by left|].
    by destruct (Hok _ _ Hq).
Qed.

Definition memory_holds d (stored : Stored) : Prop :=
  projections_ok d /\ forall key, dict_get d key = stored key.

Lemma found_ext same (d d' : Stored) wanted r :
  (forall key, d key = d' key) -> found same d wanted r -> found same d' wanted r.
Proof.
  intros Hd [Hno|key p q Hp Hw Hu Hpq|key key' p p' m Hp Hw Hp' Hw' Hne].
  - apply found_none. intros key p. rewrite <-Hd. apply Hno.
  - apply found_one with key p; [by rewrite <-Hd|done| |done].
    intros key' p'. rewrite <-Hd. apply Hu.
  - apply found_several with key key' p p'; try rewrite <-Hd; done.
Qed.

Lemma save_memory p q d stored :
  memory_holds d stored -> serialise_projection p raising_serialisation_fallback = Ok q ->
  json_projection q ->
  exists d', save_projection p d = (Ok (), d') /\ memory_holds d' (saved q stored).
Proof.
  intros [[Hnd Hok] Hd] Hq Hj.
  assert (projection_key q = (pr_name p, pr_id p) /\ pr_source q = pr_source p) as [Hkey Hsource].
  { unfold serialise_projection in Hq. inv_ok. done. }
  set (q' := with_source (from_option pr_source (pr_source q) (stored (projection_key q))) q).
  exists (dict_set d (projection_key q) q'). split.
  - unfold save_projection. rewrite <-Hkey, Hd. unfold q'.
    destruct (stored (projection_key q)) as [existing|] eqn:E.
    + rewrite <-Hd in E. destruct (Hok _ _ E) as [[= Hn Hi] _].
      unfold serialise_projection in Hq. inv_ok. cbn in *. simplify_eq/=.
      repeat match goal with Hs : serialise_to_json_value _ _ = Ok _ |- _ => rewrite Hs; clear Hs end.
      cbn. by rewrite Hn, Hi.
    + rewrite Hq. by destruct q.
  - split; [split; [by apply dict_set_NoDup|]|]; intros key.
    + intros p'. rewrite dict_get_set. case_decide as Hk; [|apply Hok]. intros [= <-].
      split; [by subst|]. exact Hj.
    + rewrite dict_get_set. unfold saved, q'. rewrite Hd. repeat case_decide; congruence.
Qed.

Lemma save_memory_fails p e d :
  serialise_projection p raising_serialisation_fallback = Raise e ->
  save_projection p d = (Raise e, d).
Proof.
  unfold save_projection, serialise_projection.
  destruct (serialise_to_json_value (pr_state p) _); cbn;
    [destruct (serialise_to_json_value (pr_metadata p) _); cbn; [done|]|];
    by destruct (dict_get d _); intros [= ->].
Qed.

#[export, refine] Instance InMemoryProjectionStorageAdapter_laws :
  ProjectionAdapterLaws (H0 := InMemoryProjectionStorageAdapter default_convert) Projections := {|
  al_holds := memory_holds;
  al_json := Json;
  al_key := fun _ => True;
  al_source := fun _ => True;
  al_same := eq
|}.
Proof.
  - by intros v <-.
  - done.
  - intros d stored key p [[_ Hok] Hd] Hp. rewrite <-Hd in Hp. by destruct (Hok _ _ Hp) as [-> _].
  - intros p e d stored Hd Hp. exists d. split; [by apply save_memory_fails|done].
  - intros p q d stored Hd Hq Hs Hm _ _. by apply save_memory.
  - intros source name d stored Hd _ _. eexists _, d. split; [reflexivity|]. split; [done|].
    apply (found_ext _ (dict_get d)); [apply Hd|]. apply find_one_found; [apply Hd|].
    by apply (find_equal d "source" "name" (VIdent source) (VStr name)
      (fun p => VIdent (pr_source p)) (fun p => VStr (pr_name p))).
  - intros id name d stored Hd _. eexists _, d. split; [reflexivity|]. split; [done|].
    apply (found_ext _ (dict_get d)); [apply Hd|]. apply find_one_found; [apply Hd|].
    by apply (find_equal d "name" "id" (VStr name) (VStr id)
      (fun p => VStr (pr_name p)) (fun p => VStr (pr_id p))).
Defined.
End memory.

(** ** The store on any adapter *)
Section store_properties.
Context `{UserCode} {S : Type} `{ProjectionStorageAdapter S} {Hlaws : ProjectionAdapterLaws S}.
Implicit Types (p : Projection) (s : S) (d : Stored).

(** A serialised projection that the adapter can store. *)
Record storable p : Prop := {
  sb_key : al_key (projection_key p);
  sb_source : al_source (pr_source p);
  sb_state : al_json (pr_state p);
  sb_metadata : al_json (pr_metadata p)
}.

Lemma load_holds id name s d :
  al_holds s d -> al_key (name, id) ->
  exists o s', load id name KJsonValueType KJsonValueType s = (Ok o, s') /\ al_holds s' d /\
    option_Forall2 (same_projection al_same) (d (name, id)) o.
Proof.
  intros Hd Hkey. destruct (al_load_law id name s d Hd Hkey) as (r & s' & E & Hd' & Hr).
  apply (found_by_key al_same) in Hr as (o & -> & Ho); [by exists o, s'|].
  intros key p. by apply (al_keyed s).
Qed.

Lemma serialised_key p q fallback :
  serialise_projection p fallback = Ok q ->
  projection_key q = projection_key p /\ pr_source q = pr_source p.
Proof. unfold serialise_projection. intros Hq. by inv_ok. Qed.

Lemma save_holds debug p q s d :
  al_holds s d -> serialise_projection p raising_serialisation_fallback = Ok q -> storable q ->
  exists r s', store_save debug p s = (r, s') /\ al_holds s' (saved q d) /\
    (is_ok (log_saved debug p) = true -> r = Ok ()).
Proof.
  intros Hd Hq [Hkey Hsource Hs Hm]. destruct (serialised_key _ _ _ Hq) as [Ek Es].
  rewrite Ek in Hkey. rewrite Es in Hsource.
  destruct (al_save_law p q s d Hd Hq Hs Hm Hkey Hsource) as (s' & E & Hd').
  unfold store_save, mbind, ST_bind. rewrite E. unfold st_lift.
  destruct (log_saved debug p) as [v|e]; eexists _, s'; (split; [reflexivity|]); by split.
Qed.

(** Projections saved one after the other, and how each save went. *)
Fixpoint save_each (projections : list Projection) s : list (res ()) * S :=
  match projections with
  | [] => ([], s)
  | p :: rest =>
      let '(r, s') := store_save false p s in
      let '(rs, s'') := save_each rest s' in (r :: rs, s'')
  end.

Definition saved_each (projections : list Projection) d : Stored :=
  foldl (fun d p =>
    match serialise_projection p raising_serialisation_fallback with
    | Ok q => saved q d
    | Raise _ => d
    end) d projections.

Definition storable_if_serialised p : Prop :=
  forall q, serialise_projection p raising_serialisation_fallback = Ok q -> storable q.

Lemma save_each_holds projections s d :
  al_holds s d -> Forall storable_if_serialised projections ->
  exists s', save_each projections s =
      ((fun p => _ ← serialise_projection p raising_serialisation_fallback; Ok ()) <$> projections,
       s') /\
    al_holds s' (saved_each projections d).
Proof.
  revert s d. induction projections as [|p rest IH]; intros s d Hd Hall; [by exists s|].
  apply Forall_cons in Hall as [Hp Hrest]. unfold storable_if_serialised in Hp.
  cbn [save_each saved_each foldl fmap list_fmap].
  destruct (serialise_projection p _) as [q|e] eqn:Hq.
  - destruct (save_holds false p q s d Hd Hq (Hp q eq_refl)) as (r & s1 & E & Hd1 & Hr).
    rewrite E, Hr by done. destruct (IH s1 _ Hd1 Hrest) as (s2 & E2 & Hd2). exists s2.
    by rewrite E2.
  - destruct (al_save_fails p e s d Hd Hq) as (s1 & E & Hd1).
    unfold store_save at 1, mbind at 1, ST_bind at 1. rewrite E.
    destruct (IH s1 _ Hd1 Hrest) as (s2 & E2 & Hd2). exists s2. by rewrite E2.
Qed.

(** Saving a projection makes it the one loaded by its id and name, and leaves every other
    projection as it was, on any adapter, for what it can store. *)
Lemma saved_is_loaded debug p s d :
  al_holds s d ->
  match serialise_projection p raising_serialisation_fallback with
  | Raise e => exists s', store_save debug p s = (Raise e, s') /\ al_holds s' d
  | Ok q => storable q ->
      exists r s', store_save debug p s = (r, s') /\ al_holds s' (saved q d) /\
        (is_ok (log_saved debug p) = true -> r = Ok ()) /\
        forall id name, al_key (name, id) ->
          exists o s'', load id name KJsonValueType KJsonValueType s' = (Ok o, s'') /\
            option_Forall2 (same_projection al_same) (saved q d (name, id)) o
  end.
Proof.
  intros Hd. destruct (serialise_projection p _) as [q|e] eqn:Hq.
  - intros Hst. destruct (save_holds debug p q s d Hd Hq Hst) as (r & s' & E & Hd' & Hr).
    exists r, s'. split_and!; [done..|]. intros id name Hkey.
    destruct (load_holds id name s' _ Hd' Hkey) as (o & s'' & El & _ & Ho). by exists o, s''.
  - destruct (al_save_fails p e s d Hd Hq) as (s' & E & Hd'). exists s'. split; [|done].
    unfold store_save, mbind, ST_bind. by rewrite E.
Qed.
End store_properties.

(** ** The store on the adapter in memory *)
Section in_memory.
Context `{UserCode} `{Regex}.
#[local] Instance in_memory_adapter : ProjectionStorageAdapter Projections :=
  InMemoryProjectionStorageAdapter default_convert.

Lemma same_projection_eq p q : same_projection eq p q -> p = q.
Proof. destruct p, q. intros [? ? ? ? ?]. cbn in *. by subst. Qed.

Lemma load_memory id name (s : Projections) d :
  memory_holds s d -> load id name KJsonValueType KJsonValueType s = (Ok (d (name, id)), s).
Proof.
  intros [Hok Hd]. change (load id name KJsonValueType KJsonValueType s) with
    (find_one default_convert (load_query id name) KJsonValueType KJsonValueType s, s). f_equal.
  assert (found eq (dict_get s) (by_key id name) (find_one default_convert (load_query id name)
    KJsonValueType KJsonValueType s)) as Hf.
  { apply find_one_found; [done|].
    by apply (find_equal s "name" "id" (VStr name) (VStr id)
      (fun p => VStr (pr_name p)) (fun p => VStr (pr_id p))). }
  apply found_by_key in Hf as (o & -> & Ho).
  - f_equal. rewrite <-Hd. inversion Ho as [p q Hpq|]; [|done].
    by rewrite (same_projection_eq p q Hpq).
  - intros key p Hp. destruct Hok as [_ Hok]. by destruct (Hok _ _ Hp) as [-> _].
Qed.

(** C39. In memory, where user classes serialise to JSON as their protocol asks: saving a
    projection makes it the one loaded by its id and name, with state and metadata as
    serialised and the source of the first save, and every other id and name loads what it
    did; a save that cannot serialise the projection raises and changes nothing. What can fail
    after the save is the summary for the log. *)
Theorem save_then_load debug p (s : Projections) d :
  json_objects -> memory_holds s d ->
  match serialise_projection p raising_serialisation_fallback with
  | Raise e => store_save debug p s = (Raise e, s)
  | Ok q => exists r s', store_save debug p s = (r, s') /\ memory_holds s' (saved q d) /\
      (is_ok (log_saved debug p) = true -> r = Ok ()) /\
      load (pr_id p) (pr_name p) KJsonValueType KJsonValueType s' =
        (Ok (Some (with_source (from_option pr_source (pr_source p) (d (pr_name p, pr_id p))) q)),
         s') /\
      forall id name, (name, id) <> (pr_name p, pr_id p) ->
        load id name KJsonValueType KJsonValueType s' = (Ok (d (name, id)), s')
  end.
Proof.
  intros Hobj Hd. destruct (serialise_projection p _) as [q|e] eqn:Hq.
  - assert (json_projection q) as Hj.
    { unfold serialise_projection in Hq. inv_ok.
      by split; eapply serialise_to_json_value_json; try eassumption. }
    destruct (serialised_key _ _ _ Hq) as [Ek Es].
    destruct (save_memory p q s d Hd Hq Hj) as (s' & E & Hd').
    exists (_ ← log_saved debug p; Ok ()), s'. split_and!.
    + unfold store_save, mbind, ST_bind. cbn [pa_save in_memory_adapter
        InMemoryProjectionStorageAdapter]. rewrite E. unfold st_lift. by destruct (log_saved debug p).
    + done.
    + by destruct (log_saved debug p).
    + rewrite (load_memory _ _ _ _ Hd'). do 2 f_equal. unfold saved.
      by rewrite Ek, Es, decide_True.
    + intros id name Hne. rewrite (load_memory _ _ _ _ Hd'). unfold saved.
      by rewrite Ek, decide_False.
  - unfold store_save, mbind, ST_bind. cbn [pa_save in_memory_adapter
      InMemoryProjectionStorageAdapter]. by rewrite (save_memory_fails _ _ _ Hq).
Qed.
End in_memory.

(** ** Keeping a projection up to date *)
Section processor.
Context `{UserCode} `{CaseConversion} {S : Type} `{ProjectionStorageAdapter S}.
Context {Hlaws : ProjectionAdapterLaws S}.
Variables (pj : Projector) (debug : bool) (category stream pid : string).
Abbreviation identifier := (StreamIdentifier category stream).
Abbreviation pname := (projection_name pj).
Abbreviation same := (same_projection al_same).

(** A projector that names the projection of a stream by the stream, whose handlers produce
    what the adapter can store, other than null, and do not tell apart what it does not. *)
Record stable_projector : Prop := {
  sp_id : forall state, pj_id pj state identifier = Ok pid;
  sp_key : al_key (pname, pid);
  sp_source : al_source identifier;
  sp_state : forall event state state',
    apply_event pj event state = Ok state' -> al_json state' /\ state' <> VNone;
  sp_metadata : forall state metadata event metadata',
    pj_update_metadata pj state metadata event = Ok metadata' ->
    al_json metadata' /\ metadata' <> VNone;
  sp_apply : forall event, Proper (al_same ==> res_rel al_same) (apply_event pj event);
  sp_update : forall event, Proper (al_same ==> al_same ==> res_rel al_same)
    (fun state metadata => pj_update_metadata pj state metadata event)
}.

(** What is stored has [current] for the stream, and nothing else under its name. *)
Record tracked (d : Stored) (current : option Projection) : Prop := {
  td_current : option_Forall2 same current (d (pname, pid));
  td_source : forall p, d (pname, pid) = Some p -> pr_source p = identifier;
  td_only : forall key p, d key = Some p -> by_source identifier pname p = true ->
    key = (pname, pid)
}.

Definition tracks (s : S) (current : option Projection) : Prop :=
  exists d, al_holds s d /\ tracked d current.

Lemma locate_tracked s d current :
  stable_projector -> al_holds s d -> tracked d current ->
  exists o s', locate identifier pname KJsonValueType KJsonValueType s = (Ok o, s') /\
    al_holds s' d /\ option_Forall2 same current o.
Proof.
  intros Hsp Hd [Hcur Hsrc Honly].
  destruct (al_locate_law identifier pname s d Hd (sp_source Hsp)) as (r & s' & E & Hd' & Hr).
  { exists pid. apply Hsp. }
  destruct Hr as [Hno|key p q Hp Hw _ Hpq|key key' p p' m Hp Hw Hp' Hw' Hne].
  - exists None, s'. split_and!; [done..|].
    destruct (d (pname, pid)) as [p|] eqn:Ed; [|done].
    specialize (Hno _ _ Ed). unfold by_source in Hno. rewrite (Hsrc p eq_refl) in Hno.
    apply (al_keyed s d _ _ Hd) in Ed. injection Ed as En _.
    by rewrite En, !bool_decide_eq_true_2 in Hno.
  - exists (Some q), s'. split_and!; [done..|]. rewrite (Honly _ _ Hp Hw) in Hp. rewrite Hp in Hcur.
    inversion Hcur as [c ? Hc|]; subst. constructor. by etrans.
  - destruct Hne. by rewrite (Honly _ _ Hp Hw), (Honly _ _ Hp' Hw').
Qed.

Lemma resolve_same (initial : res Val) v w :
  al_same v w ->
  res_rel al_same (match v with VNone => initial | _ => Ok v end)
    (match w with VNone => initial | _ => Ok w end).
Proof.
  intros Hvw. assert (v = VNone \/ v <> VNone) as [->|Hv] by (destruct v; first [by left|by right]).
  - apply al_same_none in Hvw as ->. reflexivity.
  - assert (w <> VNone) as Hw by (intros ->; by apply Hv, al_same_none; symmetry).
    destruct v; try done; destruct w; try done; by constructor.
Qed.

(** A step of the projector from states that are the same. *)
Lemma project_same event state state' metadata metadata' :
  stable_projector -> al_same state state' -> al_same metadata metadata' ->
  res_rel same (project pj identifier (gen_of [event]) state metadata)
    (project pj identifier (gen_of [event]) state' metadata').
Proof.
  intros Hsp Hs Hm. unfold project. cbn [yielded raised gen_of project_events from_option].
  eapply res_rel_bind; [by apply resolve_same|]. intros s1 s1' Hs1.
  eapply res_rel_bind; [by apply resolve_same|]. intros m1 m1' Hm1.
  apply (res_rel_bind (fun x y : Val * Val => al_same x.1 y.1 /\ al_same x.2 y.2)).
  - eapply res_rel_bind; [by apply sp_apply|]. intros s2 s2' Hs2.
    eapply res_rel_bind; [by apply (sp_update Hsp)|]. intros m2 m2' Hm2. by constructor.
  - intros [s2 m2] [s2' m2'] [Hs2 Hm2]. cbn in *. rewrite !(sp_id Hsp). by constructor.
Qed.

Lemma project_one event state metadata p :
  stable_projector ->
  project pj identifier (gen_of [event]) state metadata = Ok p ->
  storable p /\ pr_state p <> VNone /\ pr_metadata p <> VNone /\
  projection_key p = (pname, pid) /\ pr_source p = identifier.
Proof.
  intros Hsp. unfold project. cbn. intros Hp. inv_ok. cbn in *.
  destruct (sp_state Hsp _ _ _ ltac:(eassumption)) as [Hj1 Hn1].
  destruct (sp_metadata Hsp _ _ _ _ ltac:(eassumption)) as [Hj2 Hn2].
  rewrite (sp_id Hsp) in *. simplify_eq/=. split_and!; try done. split; try done; apply Hsp.
Qed.

(** What is located does for what is stored. *)
Lemma project_located event current o :
  stable_projector -> option_Forall2 same current o ->
  res_rel same
    (project pj identifier (gen_of [event]) (from_option pr_state VNone current)
      (from_option pr_metadata VNone current))
    (project pj identifier (gen_of [event]) (from_option pr_state VNone o)
      (from_option pr_metadata VNone o)).
Proof.
  intros Hsp Ho. apply (project_same _ _ _ _ _ Hsp).
  all: destruct Ho as [c p Hcp|]; [apply Hcp|reflexivity].
Qed.

(** An event handled: what the projector makes of it is saved. *)
Lemma process_event_saves event s d current p :
  stable_projector -> se_identifier event = identifier -> al_holds s d -> tracked d current ->
  (forall q, is_ok (log_saved debug q) = true) ->
  project pj identifier (gen_of [event]) (from_option pr_state VNone current)
    (from_option pr_metadata VNone current) = Ok p ->
  exists q s', process_event pj debug KJsonValueType KJsonValueType event s = (Ok (), s') /\
    al_holds s' (saved q d) /\ same p q /\ projection_key q = (pname, pid) /\
    pr_source q = identifier.
Proof.
  intros Hsp Hid Hd Htr Hlog Hp.
  destruct (locate_tracked s d current Hsp Hd Htr) as (o & s1 & El & Hd1 & Ho).
  pose proof (project_located event current o Hsp Ho) as Hrel. rewrite Hp in Hrel.
  inversion Hrel as [? q Hpq Heq Hq|]; subst. symmetry in Hq.
  destruct (project_one _ _ _ _ Hsp Hq) as (Hst & _ & _ & Hkey & Hsource).
  assert (serialise_projection q raising_serialisation_fallback = Ok q) as Hser.
  { unfold serialise_projection. rewrite !serialise_json_id by apply al_json_json, Hst.
    by destruct q. }
  destruct (save_holds debug q q s1 d Hd1 Hser Hst) as (r & s2 & Es & Hd2 & Hr).
  exists q, s2. split_and!; [|done..].
  unfold process_event, mbind, ST_bind, st_lift. rewrite Hid, El.
  replace (src_iterate _ () []) with (gen_of [event]) by done. rewrite Hq, Es. by rewrite Hr.
Qed.

(** An event handled when the projector raises: nothing is saved. *)
Lemma process_event_raises event s d current e :
  stable_projector -> se_identifier event = identifier -> al_holds s d -> tracked d current ->
  project pj identifier (gen_of [event]) (from_option pr_state VNone current)
    (from_option pr_metadata VNone current) = Raise e ->
  exists s', process_event pj debug KJsonValueType KJsonValueType event s = (Raise e, s') /\
    al_holds s' d.
Proof.
  intros Hsp Hid Hd Htr Hp.
  destruct (locate_tracked s d current Hsp Hd Htr) as (o & s1 & El & Hd1 & Ho).
  exists s1. split; [|done].
  unfold process_event, mbind, ST_bind, st_lift. rewrite Hid, El.
  replace (src_iterate _ () []) with (gen_of [event]) by done.
  pose proof (project_located event current o Hsp Ho) as Hrel. rewrite Hp in Hrel.
  by inversion Hrel.
Qed.

Lemma saved_tracked d current p q :
  tracked d current -> same p q -> projection_key q = (pname, pid) -> pr_source q = identifier ->
  tracked (saved q d) (Some p).
Proof.
  intros [_ Hsrc Honly] Hpq Hkey Hsource.
  assert (with_source identifier q = q) as Hwith by (rewrite <-Hsource; by destruct q).
  assert (saved q d (pname, pid) = Some q) as Hsaved.
  { unfold saved. rewrite Hkey, decide_True by done. rewrite Hsource.
    destruct (d (pname, pid)) as [x|]; cbn; [rewrite (Hsrc x eq_refl)|]; by rewrite Hwith. }
  split.
  - rewrite Hsaved. by constructor.
  - intros x. rewrite Hsaved. by intros [= <-].
  - intros key x. unfold saved. rewrite Hkey. case_decide; [done|]. apply Honly.
Qed.

Lemma process_event_tracks event s current p :
  stable_projector -> se_identifier event = identifier -> tracks s current ->
  (forall q, is_ok (log_saved debug q) = true) ->
  project pj identifier (gen_of [event]) (from_option pr_state VNone current)
    (from_option pr_metadata VNone current) = Ok p ->
  exists s', process_event pj debug KJsonValueType KJsonValueType event s = (Ok (), s') /\
    tracks s' (Some p).
Proof.
  intros Hsp Hid (d & Hd & Htr) Hlog Hp.
  destruct (process_event_saves event s d current p) as (q & s' & E & Hd' & Hpq & Hkey & Hsrc);
    try done. exists s'. split; [done|]. exists (saved q d). split; [done|].
  by eapply saved_tracked.
Qed.

(** Handling events one after the other. *)
Fixpoint process_events (events : list StoredEvent) : ST S () :=
  match events with
  | [] => mret ()
  | event :: rest =>
      _ ← process_event pj debug KJsonValueType KJsonValueType event;
      process_events rest
  end.

(** The projection of one event, and that of the rest from it. *)
Lemma project_split event rest state metadata p :
  stable_projector -> project pj identifier (gen_of (event :: rest)) state metadata = Ok p ->
  exists p1, project pj identifier (gen_of [event]) state metadata = Ok p1 /\
    project pj identifier (gen_of rest) (pr_state p1) (pr_metadata p1) = Ok p /\
    (rest = [] -> p1 = p).
Proof.
  intros Hsp Hp.
  assert (exists p1, project pj identifier (gen_of [event]) state metadata = Ok p1) as [p1 Hp1].
  { revert Hp. unfold project. cbn [yielded gen_of raised from_option project_events].
    destruct (resolve_state pj _) as [s|]; cbn; [|done].
    destruct (resolve_metadata pj _) as [m|]; cbn; [|done].
    destruct (apply_event pj event s) as [s1|]; cbn; [|done].
    destruct (pj_update_metadata pj s1 m event) as [m1|]; cbn; [|done].
    rewrite (sp_id Hsp). by eexists. }
  exists p1. split; [done|].
  destruct (project_one _ _ _ _ Hsp Hp1) as (_ & Hs1 & Hm1 & _).
  change (gen_of (event :: rest)) with (gen_of ([event] ++ rest)) in Hp.
  split; [by rewrite <-(project_app pj _ [event] rest _ _ p1 Hp1 Hs1 Hm1)|].
  intros ->. rewrite app_nil_r, Hp1 in Hp. congruence.
Qed.

(** Processing a stream's events one by one keeps the stored projection equal to the
    projection of the whole stream, on any adapter: from any state of the store that tracks
    the stream, handling [events] in order leaves located what projecting them all at once,
    from the projection stored before, gives. *)
Theorem process_events_projects events s current p :
  stable_projector -> tracks s current -> events <> [] ->
  Forall (fun e => se_identifier e = identifier) events ->
  (forall q, is_ok (log_saved debug q) = true) ->
  project pj identifier (gen_of events) (from_option pr_state VNone current)
    (from_option pr_metadata VNone current) = Ok p ->
  exists s', process_events events s = (Ok (), s') /\ tracks s' (Some p) /\
    exists q s'', locate identifier pname KJsonValueType KJsonValueType s' = (Ok (Some q), s'') /\
      same p q.
Proof.
  intros Hsp Htr Hne Hids Hlog.
  enough (forall s current, tracks s current ->
    project pj identifier (gen_of events) (from_option pr_state VNone current)
      (from_option pr_metadata VNone current) = Ok p ->
    exists s', process_events events s = (Ok (), s') /\ tracks s' (Some p)) as Hall.
  { intros Hp. destruct (Hall s current Htr Hp) as (s' & E & Htr'). exists s'.
    split_and!; [done..|].
    destruct Htr' as (d & Hd & Htr').
    destruct (locate_tracked s' d (Some p) Hsp Hd Htr') as (o & s'' & El & _ & Ho).
    inversion Ho as [? q Hq|]; subst. by exists q, s''. }
  clear s current Htr. induction Hids as [|event rest Hid Hids IH]; [done|].
  intros s current Htr Hp.
  destruct (project_split _ _ _ _ _ Hsp Hp) as (p1 & Hp1 & Hrest & Hend).
  destruct (process_event_tracks event s current p1 Hsp Hid Htr Hlog Hp1) as (s1 & E1 & Htr1).
  cbn [process_events]. unfold mbind, ST_bind. rewrite E1.
  destruct (decide (rest = [])) as [->|Hcons].
  - exists s1. by rewrite <-(Hend eq_refl).
  - by apply (IH Hcons s1 (Some p1)).
Qed.
End processor.

(** ** Witnesses *)
Module projection_examples.
#[local] Instance projection_user_code : UserCode := no_user_code.
#[local] Instance projection_regex : Regex := {| re_compile := fun _ => None |}.
#[local] Instance identity_case : CaseConversion :=
  {| to_snake_case := fun s => s; to_kebab_case := fun s => s |}.

(** Counts the "placed" events of an order. *)
Definition order_projector : Projector := {|
  pj_class := "OrderProjector";
  pj_name := None;
  pj_missing_handler_behaviour := RAISE;
  pj_initial_state := Ok (VInt 0);
  pj_initial_metadata := Ok (mk_obj []);
  pj_id := fun _ _ => Ok "1"%string;
  pj_update_metadata := fun _ _ _ => Ok (mk_obj []);
  pj_attribute := fun name =>
    if decide (name = "placed"%string)
    then Some (fun state _ =>
      match state with VInt n => Ok (VInt ((n + 1) mod 2 ^ 62)) | _ => Raise TypeError end)
    else None
|}.

Definition placed (position : Z) : StoredEvent :=
  mkStoredEvent "0af3" (VStr "placed") "1" "orders" position position VNone 0 0.

Definition order_projection (state : Z) : Projection :=
  mkProjection "1" "Order" (StreamIdentifier "orders" "1") (VInt state) (mk_obj []).

Lemma no_projections_hold : memory_holds [] (fun _ => None).
Proof. by split; [split; [constructor|]|]. Qed.

(** What its handler gives. *)
Lemma apply_placed event state state' :
  apply_event order_projector event state = Ok state' ->
  exists n, state' = VInt n /\ (0 <= n < 2 ^ 62)%Z.
Proof.
  intros Hs. unfold apply_event in Hs. inv_ok.
  unfold resolve_handler in *. destruct (se_name event); try done. cbn in *.
  case_decide; simplify_eq. case_match; simplify_eq. eexists. split; [done|].
  by apply Z.mod_pos_bound.
Qed.

#[local] Instance memory_adapter : ProjectionStorageAdapter Projections :=
  InMemoryProjectionStorageAdapter default_convert.
#[local] Instance memory_laws : ProjectionAdapterLaws Projections.
Proof. apply InMemoryProjectionStorageAdapter_laws. Defined.

Lemma no_objects : json_objects.
Proof. done. Qed.

Lemma save_then_load_witness :
  let p := order_projection 3 in
  exists s, store_save false p [] = (Ok (), s) /\
    load "1" "Order" KJsonValueType KJsonValueType s = (Ok (Some p), s) /\
    load "2" "Order" KJsonValueType KJsonValueType s = (Ok None, s).
Proof.
  intros p. pose proof (save_then_load false p [] (fun _ => None) no_objects no_projections_hold)
    as H. change (serialise_projection p raising_serialisation_fallback) with (Ok p) in H.
  destruct H as (r & s & E & _ & Hr & Hload & Hother). rewrite Hr in E by done.
  exists s. split; [exact E|]. split; [exact Hload|]. by apply Hother.
Defined.

Lemma order_projector_stable : stable_projector order_projector "orders" "1" "1".
Proof.
  split; try done.
  - intros event state state' (n & -> & _)%apply_placed. split; [constructor|done].
  - intros ? ? ? ? [= <-]. split; [by repeat constructor|done].
  - by intros event v w <-.
  - by intros event v w <- ? ? <-.
Qed.

Lemma process_events_projects_witness :
  exists s, process_events order_projector false [placed 0; placed 1] [] = (Ok (), s) /\
    exists q s', locate (StreamIdentifier "orders" "1") "Order" KJsonValueType KJsonValueType s =
      (Ok (Some q), s') /\ same_projection eq (order_projection 2) q.
Proof.
  destruct (process_events_projects order_projector false "orders" "1" "1"
    [placed 0; placed 1] [] None (order_projection 2) order_projector_stable)
    as (s & E & _ & Hl).
  - exists (fun _ => None). split; [apply no_projections_hold|]. by split.
  - done.
  - by repeat constructor.
  - done.
  - vm_compute. reflexivity.
  - exists s. split; [exact E|exact Hl].
Defined.
End projection_examples.
