(* ===== verification/ConsumerState.v ===== *)
(** Where event consumers keep their progress: [processing/consumers/state/]. The state of
    each partition lives in memory and, every so often, in a stream of the store. *)
From S2P Require Import Prelude Values Conversion Events Conditions EventsDB MemoryAdapter.
From S2P Require Import Sources Store.

(** A JSON object with its keys as strings. *)
Definition JsonObject : Type := dict string Val.

Definition object_entries (kvs : list (Val * Val)) : JsonObject :=
  omap (fun kv => match kv.1 with VStr k => Some (k, kv.2) | _ => None end) kvs.

(** ** [EventConsumerState] ([state/base.py]) *)

(** [isinstance(value, int)]: booleans are ints. *)
Definition is_int (value : Val) : bool :=
  match value with VInt _ | VBool _ => true | _ => false end.

Definition normalise_state_for_backwards_compat (state : option JsonObject)
    (maybe_last_sequence_number : Val) : JsonObject :=
  let state := default [] state in
  if is_int maybe_last_sequence_number
  then dict_set state "last_sequence_number"%string maybe_last_sequence_number else state.

(** [value.get("state", None)] must be null or an object. *)
Definition deserialise_consumer_state (value : Val) : res JsonObject :=
  let fallback := Raise (ValueError "Cannot deserialise value.") in
  match value with
  | VDict kvs =>
      if is_json_object value then
        let last := default VNone (obj_get kvs "last_sequence_number") in
        match default VNone (obj_get kvs "state") with
        | VNone => Ok (normalise_state_for_backwards_compat None last)
        | VDict entries =>
            if is_json_object (VDict entries)
            then Ok (normalise_state_for_backwards_compat (Some (object_entries entries)) last)
            else fallback
        | _ => fallback
        end
      else fallback
  | _ => fallback
  end.

Definition serialise_consumer_state (state : JsonObject) : Val :=
  mk_obj [("state"%string, mk_obj state)].

(** ** Converters ([state/types.py], [state/memory.py]) *)

Record EventConsumerStateConverter (E : Type) := mkStateConverter {
  event_to_state : E -> JsonObject;
  initial_state_object : JsonObject;
  state_to_query_constraint : JsonObject -> option QueryConstraint
}.
Arguments mkStateConverter {_} _ _ _.
Arguments event_to_state {_} _ _.
Arguments initial_state_object {_} _.
Arguments state_to_query_constraint {_} _ _.

Definition StoredEventEventConsumerStateConverter : EventConsumerStateConverter StoredEvent := {|
  event_to_state := fun event =>
    [("last_sequence_number"%string, VInt (se_sequence_number event))];
  initial_state_object := [("last_sequence_number"%string, VNone)];
  state_to_query_constraint := fun state =>
    match default VNone (dict_get state "last_sequence_number"%string) with
    | VInt n => Some (sequence_number_after n)
    | VBool b => Some (sequence_number_after (if b then 1 else 0))
    | _ => None
    end
|}.

(** ** [EventConsumerStateStore] *)

(** [EventCount.increment]. *)
Definition increment (count : nat) : nat := S count.

(** [_states], [_positions] and [_persistence_lags] (a [defaultdict]). *)
Record EventConsumerStateStore := mkStateStore {
  css_states : dict string (option JsonObject);
  css_positions : dict string (option Z);
  css_lags : dict string nat
}.

Definition new_state_store : EventConsumerStateStore := mkStateStore [] [] [].

Definition get_state (store : EventConsumerStateStore) (partition : string) : option JsonObject :=
  mjoin (dict_get (css_states store) partition).
Definition get_position (store : EventConsumerStateStore) (partition : string) : option Z :=
  mjoin (dict_get (css_positions store) partition).
Definition get_lag (store : EventConsumerStateStore) (partition : string) : nat :=
  default 0 (dict_get (css_lags store) partition).

(** Reading a [defaultdict] creates the entry. *)
Definition touch_lag (store : EventConsumerStateStore) (partition : string)
    : EventConsumerStateStore :=
  mkStateStore (css_states store) (css_positions store)
    (dict_set (css_lags store) partition (get_lag store partition)).
Definition set_state (store : EventConsumerStateStore) (partition : string)
    (state : option JsonObject) : EventConsumerStateStore :=
  mkStateStore (dict_set (css_states store) partition state) (css_positions store)
    (css_lags store).
Definition set_position (store : EventConsumerStateStore) (partition : string)
    (position : option Z) : EventConsumerStateStore :=
  mkStateStore (css_states store) (dict_set (css_positions store) partition position)
    (css_lags store).
Definition set_lag (store : EventConsumerStateStore) (partition : string) (lag : nat)
    : EventConsumerStateStore :=
  mkStateStore (css_states store) (css_positions store) (dict_set (css_lags store) partition lag).

Section state_store.
Context {S E : Type} `{UserCode} `{!EventStorageAdapter S}.
Variables (debug : bool) (category : EventCategory)
  (converter : EventConsumerStateConverter E) (persistence_interval : option nat)
  (now : Z).

Definition record_processed (event : E) (extra_state : option JsonObject) (partition : string)
    (store : EventConsumerStateStore) : JsonObject * EventConsumerStateStore :=
  let combined := dict_update (event_to_state converter event) (default [] extra_state) in
  (combined,
   set_lag (set_state store partition (Some combined)) partition
     (increment (get_lag store partition))).

Definition reset (extra_state : option JsonObject) (partition : string)
    (store : EventConsumerStateStore) : EventConsumerStateStore :=
  let combined := dict_update (initial_state_object converter) (default [] extra_state) in
  set_lag (set_state store partition (Some combined)) partition 0.

Definition state_stream (partition : string) : EventStream := category_stream category partition.

Definition state_changed (state : JsonObject) : NewEvent :=
  new_event (VStr "state-changed") (serialise_consumer_state state) None None now.

Definition lift_store {A} (m : ST S A) : ST (S * EventConsumerStateStore) A := fun w =>
  match m w.1 with (r, s') => (r, (s', w.2)) end.
Definition modify_store (f : EventConsumerStateStore -> EventConsumerStateStore)
    : ST (S * EventConsumerStateStore) () := fun w => (Ok (), (w.1, f w.2)).

(** The stream's position as far as known: remembered, or read from the store. *)
Definition known_position (partition : string) (w : S * EventConsumerStateStore)
    : res (option Z) :=
  match get_position w.2 partition with
  | Some position => Ok (Some position)
  | None => fmap (M := res) (fmap (M := option) se_position)
      (src_latest (stream_source (state_stream partition)) w.1)
  end.

(** What [save] does for a partition. *)
Definition save_partition (partition : string) : ST (S * EventConsumerStateStore) () := fun w =>
  match get_state w.2 partition with
  | None => (Ok (), w)
  | Some state =>
      let w := (w.1, touch_lag w.2 partition) in
      if decide (get_lag w.2 partition = 0) then (Ok (), w)
      else
        match known_position partition w with
        | Raise e => (Raise e, w)
        | Ok position =>
            (stored ← lift_store (publish debug (state_stream partition) [state_changed state]
               (from_option (fun p => position_is (Some p)) stream_is_empty position));
             first ← st_lift (py_get stored 0);
             modify_store (fun store =>
               set_lag (set_position store partition (Some (se_position first))) partition 0)) w
        end
  end.

Fixpoint save_partitions (partitions : list string) : ST (S * EventConsumerStateStore) () :=
  match partitions with
  | [] => mret ()
  | partition :: rest => _ ← save_partition partition; save_partitions rest
  end.

(** [save(partition)]; without one, every partition that was ever counted. *)
Definition save_state (partition : option string) : ST (S * EventConsumerStateStore) () := fun w =>
  save_partitions (from_option (fun p => [p]) (dict_keys (css_lags w.2)) partition) w.

(** [save_if_needed]: no interval, or one of 0, means never. *)
Definition save_if_needed (partition : string) : ST (S * EventConsumerStateStore) () := fun w =>
  match persistence_interval with
  | None | Some 0 => (Ok (), w)
  | Some interval =>
      let w := (w.1, touch_lag w.2 partition) in
      if decide (interval <= get_lag w.2 partition) then save_state (Some partition) w
      else (Ok (), w)
  end.

Definition load_state (partition : string) : ST (S * EventConsumerStateStore) (option JsonObject) :=
  fun w =>
  match get_state w.2 partition with
  | Some state => (Ok (Some state), w)
  | None =>
      match src_latest (stream_source (state_stream partition)) w.1 with
      | Raise e => (Raise e, w)
      | Ok None =>
          (Ok None, (w.1, set_position (set_state w.2 partition None) partition None))
      | Ok (Some event) =>
          match deserialise_consumer_state (se_payload event) with
          | Raise e => (Raise e, w)
          | Ok state =>
              (Ok (Some state), (w.1, set_position (set_state w.2 partition (Some state))
                 partition (Some (se_position event))))
          end
      end
  end.

Definition load_to_query_constraint (partition : string)
    : ST (S * EventConsumerStateStore) (option QueryConstraint) :=
  state ← load_state partition;
  mret (state ≫= state_to_query_constraint converter).
End state_store.

(** ** Properties *)

Lemma object_entries_mk_obj (state : JsonObject) :
  object_entries ((fun kv => (VStr kv.1, kv.2)) <$> state) = state.
Proof. induction state as [|[k v] state IH]; [done|]. cbn. by f_equal. Qed.

Lemma mk_obj_json (kvs : list (string * Val)) :
  Forall (fun kv => Json kv.2) kvs -> Json (mk_obj kvs).
Proof.
  intros Hkvs. constructor. apply Forall_fmap. eapply Forall_impl; [done|].
  intros [k v] Hv. cbn in *. split; [by exists k|done].
Qed.

(** What is written of a state is read back as that state. *)
Lemma deserialise_serialise_state (state : JsonObject) :
  Json (mk_obj state) -> deserialise_consumer_state (serialise_consumer_state state) = Ok state.
Proof.
  intros Hj. assert (is_json_object (mk_obj state) = true) as Hobj.
  { apply is_json_value_spec in Hj. exact Hj. }
  unfold deserialise_consumer_state, serialise_consumer_state.
  change (mk_obj [("state"%string, mk_obj state)]) with (VDict [(VStr "state", mk_obj state)]).
  assert (is_json_object (VDict [(VStr "state", mk_obj state)]) = true) as ->.
  { cbn [is_json_object forallb]. by rewrite (proj2 (is_json_value_spec _) Hj). }
  cbn [obj_get decide]. rewrite decide_True by done.
  cbn [default from_option]. unfold mk_obj in *. cbn [id]. rewrite Hobj.
  unfold normalise_state_for_backwards_compat. cbn. by rewrite object_entries_mk_obj.
Qed.

Lemma get_lag_touch store p : get_lag (touch_lag store p) p = get_lag store p.
Proof. unfold get_lag at 1, touch_lag. cbn. by rewrite dict_get_set_eq. Qed.

Section properties.
Context {S E : Type} `{UserCode} `{!EventStorageAdapter S} `{!AdapterContract S}.
Variables (debug : bool) (category : EventCategory)
  (converter : EventConsumerStateConverter E) (now : Z).
Abbreviation stream_of p := (stream_identifier (state_stream category p)).
Abbreviation World := (S * EventConsumerStateStore)%type.

Lemma state_changed_storable state :
  Json (mk_obj state) -> Forall storable [state_changed now state].
Proof.
  intros Hj. constructor; [|constructor]. split; [done|].
  rewrite serialise_json_id; [done|]. cbn. by apply mk_obj_json; constructor.
Qed.

(** Publishing a state: it goes through when the condition holds, and is read back. *)
Lemma publish_state p state condition st log :
  ea_holds st log -> ea_addresses (stream_of p) = true ->
  ea_accepts log (category_name category) p [state_changed now state] ->
  Json (mk_obj state) -> standard condition = true ->
  if satisfied condition (last (log_of (stream_of p) log))
  then exists raw new st', publish debug (state_stream category p) [state_changed now state]
      condition st = (Ok [raw], st') /\
    ea_holds st' (log ++ [new]) /\ log_of (stream_of p) [new] = [new] /\
    se_position raw = se_position new /\ se_payload new = serialise_consumer_state state
  else exists m st', publish debug (state_stream category p) [state_changed now state]
      condition st = (Raise (UnmetWriteConditionError m), st') /\ ea_holds st' log.
Proof.
  intros Hst Ha Hacc Hj Hstd.
  assert (Json (serialise_consumer_state state)) as Hjs by by apply mk_obj_json; constructor.
  assert (exists v, serialise_new_event (state_changed now state) str_serialisation_fallback =
    Ok v) as [v Hv].
  { unfold serialise_new_event. rewrite !serialise_json_id by (try done; constructor).
    by eexists. }
  unfold publish. cbn [mapM]. rewrite Hv. unfold mbind, ST_bind, st_lift.
  cbn [res_bind mret res_ret].
  destruct (satisfied condition _) eqn:Esat.
  - destruct (ea_save_stream_met (category_name category) p [state_changed now state] condition
      st log Hst Ha Hacc Hstd (state_changed_storable _ Hj) Esat) as (raws & st' & Es).
    pose proof (ea_save_stream_appends _ _ _ _ _ _ _ _ Hst Ha Hacc Es) as (new & Hst' & Hrun & _).
    cbn [state_stream category_stream stream_category stream_name]. rewrite Es.
    pose proof (stored_batch_log_of _ _ _ _ _ _ p Hrun) as Hlog.
    rewrite decide_True in Hlog by done.
    destruct Hrun as [Hl1 Hl2 Hi _].
    destruct raws as [|raw [|]]; try discriminate Hl1. destruct new as [|e [|]]; try discriminate Hl2.
    destruct (Hi 0 _ eq_refl) as (raw' & e' & n & [= <-] & [= <-] & [Hname Hpay Hns Hpj Hsame Hraw]).
    exists raw, e, st'. split_and!.
    + assert (exists l, log_published debug [raw] = Ok l) as [l ->]; [|done].
      unfold log_published. destruct debug; cbn [mapM];
        unfold serialise_stored_event_value, summarise_stored_event; rewrite Hname, ?Hpay;
        rewrite !serialise_json_id by (try done; constructor); by eexists.
    + done.
    + exact Hlog.
    + by rewrite Hsame, Hraw.
    + rewrite serialise_json_id in Hpj by done. by injection Hpj.
  - destruct (ea_save_stream_unmet (category_name category) p [state_changed now state]
      condition st log Hst Ha Hstd Esat) as (m & st' & Es & Hst').
    exists m, st'. cbn [state_stream category_stream stream_category stream_name]. rewrite Es.
    done.
Qed.

(** What a store that was just created reads. *)
Lemma fresh_load p st log e state :
  ea_holds st log -> ea_addresses (stream_of p) = true -> last (log_of (stream_of p) log) = Some e ->
  se_payload e = serialise_consumer_state state -> Json (mk_obj state) ->
  (load_state category p (st, new_state_store)).1 = Ok (Some state).
Proof.
  intros Hst Ha He Hpay Hj. unfold load_state. cbn [get_state new_state_store css_states dict_get fst snd].
  unfold stream_source, adapter_source. cbn [src_latest mjoin option_join].
  rewrite (ea_latest_log _ _ _ Hst) by done. rewrite He, Hpay.
  by rewrite deserialise_serialise_state.
Qed.

(** Saving is guarded by the stream's position as the store knows it. *)
Definition up_to_date (store : EventConsumerStateStore) p (latest : option StoredEvent) : bool :=
  match get_position store p with
  | Some position => bool_decide (se_position <$> latest = Some position)
  | None => true
  end.

Lemma save_partition_cases p state st store log :
  ea_holds st log -> ea_addresses (stream_of p) = true ->
  ea_accepts log (category_name category) p [state_changed now state] ->
  get_state store p = Some state -> Json (mk_obj state) ->
  0 < get_lag store p ->
  let latest := last (log_of (stream_of p) log) in
  let outcome := save_partition debug category now p (st, store) in
  if up_to_date store p latest
  then exists new st' store', outcome = (Ok (), (st', store')) /\ ea_holds st' (log ++ [new]) /\
    log_of (stream_of p) [new] = [new] /\ se_payload new = serialise_consumer_state state /\
    store' = set_lag (set_position (touch_lag store p) p (Some (se_position new))) p 0
  else exists m st', outcome = (Raise (UnmetWriteConditionError m), (st', touch_lag store p)) /\
    ea_holds st' log.
Proof.
  intros Hst Ha Hacc Hstate Hj Hlag latest outcome. unfold outcome, save_partition. cbn [fst snd].
  rewrite Hstate, get_lag_touch, decide_False by lia.
  set (condition := from_option (fun q => position_is (Some q)) stream_is_empty
    (match get_position store p with Some q => Some q | None => se_position <$> latest end)).
  assert (known_position category p (st, touch_lag store p) =
    Ok (match get_position store p with Some q => Some q | None => se_position <$> latest end))
    as ->.
  { unfold known_position. cbn [fst snd].
    change (get_position (touch_lag store p) p) with (get_position store p).
    destruct (get_position store p); [done|]. unfold stream_source, adapter_source. cbn [src_latest].
    by rewrite (ea_latest_log _ _ _ Hst) by done. }
  fold condition.
  assert (satisfied condition latest = up_to_date store p latest) as Esat.
  { unfold condition, up_to_date. destruct (get_position store p); [done|].
    destruct latest as [e|]; cbn; first [done|by apply bool_decide_eq_true_2]. }
  rewrite <-Esat.
  pose proof (publish_state p state condition st log Hst Ha Hacc Hj
    ltac:(unfold condition; by destruct (match get_position store p with Some _ => _ | _ => _ end)))
    as Hpub.
  fold latest in Hpub. unfold mbind, ST_bind, lift_store. cbn [fst snd].
  destruct (satisfied condition latest).
  - destruct Hpub as (raw & new & st' & -> & Hst' & Hlog & Hpos & Hpay).
    exists new, st'. eexists. split; [reflexivity|]. split_and!; try done.
    cbn [fst snd]. by rewrite Hpos.
  - destruct Hpub as (m & st' & -> & Hst'). by exists m, st'.
Qed.
End properties.

Section restart.
Context {S : Type} `{UserCode} `{!EventStorageAdapter S} `{!AdapterContract S}.
Variables (debug : bool) (category : EventCategory) (now : Z).

(** C24. Progress survives a restart, and saving it is optimistic, on any adapter that accepts
    the state saved and reads its stream back. Once an event is recorded as processed, [save] raises
    UnmetWriteConditionError, leaving the log alone, if the store knows a position of the state
    stream, from when it last loaded or saved a state, and the stream's last event is at another.
    Otherwise (the position is the same, or the store knows none, having never loaded a state or
    found none, and takes it from the stream as it saves) it returns with nothing left to save, and
    a store created afterwards asks the source for exactly the events after that one. *)
Theorem progress_survives_restart p event st store log :
  let converter := StoredEventEventConsumerStateConverter in
  ea_holds st log -> ea_addresses (stream_identifier (state_stream category p)) = true ->
  ea_accepts log (category_name category) p [state_changed now (event_to_state converter event)] ->
  let recorded := (record_processed converter event None p store).2 in
  let latest := last (log_of (stream_identifier (state_stream category p)) log) in
  let outcome := save_state debug category now (Some p) (st, recorded) in
  if up_to_date store p latest
  then exists new st' store', outcome = (Ok (), (st', store')) /\ ea_holds st' (log ++ [new]) /\
    get_lag store' p = 0 /\
    (load_to_query_constraint category converter p (st', new_state_store)).1 =
      Ok (Some (sequence_number_after (se_sequence_number event)))
  else exists m st' store', outcome = (Raise (UnmetWriteConditionError m), (st', store')) /\
    ea_holds st' log /\ get_lag store' p = Datatypes.S (get_lag store p).
Proof.
  intros converter Hst Ha Hacc recorded latest outcome.
  assert (get_state recorded p = Some [("last_sequence_number"%string,
    VInt (se_sequence_number event))]) as Hstate.
  { unfold recorded, record_processed, get_state. cbn. by rewrite dict_get_set_eq. }
  assert (get_lag recorded p = Datatypes.S (get_lag store p)) as Hlag.
  { unfold recorded, record_processed, get_lag at 1. cbn. by rewrite dict_get_set_eq. }
  assert (Json (mk_obj [("last_sequence_number"%string, VInt (se_sequence_number event))])) as Hj
    by by apply mk_obj_json; repeat constructor.
  pose proof (save_partition_cases debug category now p _ st recorded log Hst Ha Hacc Hstate Hj
    ltac:(lia)) as Hcases. cbn zeta in Hcases.
  change (up_to_date recorded p ?l) with (up_to_date store p l) in Hcases.
  fold latest in Hcases. unfold outcome, save_state. cbn [from_option save_partitions].
  unfold mbind, ST_bind. destruct (up_to_date store p latest).
  - destruct Hcases as (new & st' & store' & -> & Hst' & Hlog & Hpay & ->).
    exists new, st'. eexists. split; [reflexivity|]. split; [done|]. split.
    { unfold get_lag at 1. cbn. by rewrite dict_get_set_eq. }
    pose proof (fresh_load category p st' (log ++ [new]) new _ Hst' Ha
      ltac:(by rewrite log_of_app, Hlog, last_snoc) Hpay Hj) as Hload.
    unfold load_to_query_constraint, mbind, ST_bind.
    destruct (load_state category p (st', new_state_store)) as [[o|] w]; [|done].
    by injection Hload as ->.
  - destruct Hcases as (m & st' & -> & Hst'). exists m, st'. eexists.
    split; [reflexivity|]. split; [done|]. by rewrite get_lag_touch.
Qed.
End restart.
