(* ===== verification/SourceConsumer.v ===== *)
(** Consuming an event source: [processing/consumers/source.py] and the subscription
    consumer of [processing/consumers/subscription.py]. The processor is user code: its
    state is a parameter of the model. *)
From S2P Require Import Prelude Values Conversion Events Conditions EventsDB MemoryAdapter.
From S2P Require Import Sources Store ConsumerState.

Definition default_partition : string := "default".

Section consumer.
Context {S E W : Type} `{UserCode} `{!EventStorageAdapter S}.
Variables (debug : bool) (category : EventCategory)
  (converter : EventConsumerStateConverter E) (persistence_interval : option nat) (now : Z).
(** [event.summarise()], computed for a log line before each event is handled. *)
Variable summarise : E -> res Val.

(** What a consumer acts on: the processor's own state, the store with the state store,
    and the counts of the processor manager. *)
Record World := mkWorld {
  w_app : W;
  w_store : S * EventConsumerStateStore;
  w_consumed : nat;
  w_processed : nat
}.

Definition lift_app {A} (m : ST W A) : ST World A := fun w =>
  match m (w_app w) with
  | (r, a) => (r, mkWorld a (w_store w) (w_consumed w) (w_processed w))
  end.
Definition lift_state {A} (m : ST (S * EventConsumerStateStore) A) : ST World A := fun w =>
  match m (w_store w) with
  | (r, s) => (r, mkWorld (w_app w) s (w_consumed w) (w_processed w))
  end.

(** ** [StateStoreEventProcessorManager] *)

Definition increment_consumed : ST World () := fun w =>
  (Ok (), mkWorld (w_app w) (w_store w) (w_consumed w + 1) (w_processed w)).

Fixpoint acknowledge (events : list E) : ST World () := fun w =>
  match events with
  | [] => (Ok (), w)
  | event :: rest =>
      acknowledge rest (mkWorld (w_app w)
        ((w_store w).1, (record_processed converter event None default_partition (w_store w).2).2)
        (w_consumed w) (w_processed w + 1))
  end.

Definition commit (force : bool) : ST World () :=
  lift_state (if force then save_state debug category now None
    else save_if_needed debug category persistence_interval now default_partition).

(** ** Processors ([consumers/types.py])

    A processor handles events one by one, or is handed an iterator. The code an iterator
    processor runs between two pulls is [ip_step]; it answers whether it pulls again, and,
    when it manages its own commits, what it asks of the manager. *)
Inductive ManagerAction := Acknowledge (events : list E) | Commit (force : bool).

Inductive Processor :=
  | EventProcessor (process_event : E -> ST W ())
  | AutoCommitEventIteratorProcessor (ip_step : E -> ST W bool) (ip_end : ST W ())
  | ManagedEventIteratorProcessor (ip_step : E -> ST W (list ManagerAction * bool))
      (ip_end : ST W (list ManagerAction)).

Fixpoint manage (actions : list ManagerAction) : ST World () :=
  match actions with
  | [] => mret ()
  | Acknowledge events :: rest => _ ← acknowledge events; manage rest
  | Commit force :: rest => _ ← commit force; manage rest
  end.

(** [async for event in source]: what is left when the source stops. *)
Definition end_of (raised : option Exn) : ST World () :=
  st_lift (from_option Raise (Ok ()) raised).

(** [process_callback_event_iterator] over [auto_commit_event_iterator]: the event is
    acknowledged when the next one is asked for. *)
Fixpoint process_callback (process_event : E -> ST W ()) (events : list E) (raised : option Exn)
    : ST World () :=
  match events with
  | [] => end_of raised
  | event :: rest =>
      _ ← st_lift (summarise event);
      _ ← lift_app (process_event event);
      _ ← acknowledge [event];
      _ ← commit false;
      _ ← increment_consumed;
      process_callback process_event rest raised
  end.

(** [process_auto_commit_event_iterator]: a processor that stops pulling leaves the last
    event it got unacknowledged. *)
Fixpoint process_auto_commit (ip_step : E -> ST W bool) (ip_end : ST W ()) (events : list E)
    (raised : option Exn) : ST World () :=
  match events with
  | [] => _ ← end_of raised; lift_app ip_end
  | event :: rest =>
      _ ← st_lift (summarise event);
      again ← lift_app (ip_step event);
      if again : bool then
        _ ← acknowledge [event];
        _ ← commit false;
        _ ← increment_consumed;
        process_auto_commit ip_step ip_end rest raised
      else mret ()
  end.

Fixpoint process_managed (ip_step : E -> ST W (list ManagerAction * bool))
    (ip_end : ST W (list ManagerAction)) (events : list E) (raised : option Exn) : ST World () :=
  match events with
  | [] => _ ← end_of raised; actions ← lift_app ip_end; manage actions
  | event :: rest =>
      _ ← st_lift (summarise event);
      answer ← lift_app (ip_step event);
      _ ← manage answer.1;
      if answer.2 : bool then
        _ ← increment_consumed;
        process_managed ip_step ip_end rest raised
      else mret ()
  end.

(** ** [EventSourceConsumer] *)

Record EventSourceConsumer := mkConsumer {
  co_source : EventSource S E;
  co_processor : Processor;
  co_save_state_after_consumption : bool
}.

Definition process_event_iterator (consumer : EventSourceConsumer) (events : Gen E) : ST World () :=
  match co_processor consumer with
  | ManagedEventIteratorProcessor ip_step ip_end =>
      process_managed ip_step ip_end (yielded events) (raised events)
  | AutoCommitEventIteratorProcessor ip_step ip_end =>
      process_auto_commit ip_step ip_end (yielded events) (raised events)
  | EventProcessor process_event =>
      _ ← process_callback process_event (yielded events) (raised events);
      if co_save_state_after_consumption consumer then commit true else mret ()
  end.

(** [consume_all]: the manager's counts start at 0. *)
Definition consume_all (consumer : EventSourceConsumer) : ST (W * (S * EventConsumerStateStore)) () :=
  fun aw =>
  match load_to_query_constraint category converter default_partition aw.2 with
  | (Raise e, s) => (Raise e, (aw.1, s))
  | (Ok constraint, s) =>
      let events := src_iterate (co_source consumer) s.1
        (from_option (fun c => [c]) [] constraint) in
      match process_event_iterator consumer events (mkWorld aw.1 s 0 0) with
      | (r, w) => (r, (w_app w, w_store w))
      end
  end.

(** ** [EventSubscriptionConsumer] ([subscription.py]) *)

(** [_delegates], by identifier. *)
Definition Delegates : Type := dict EventSourceIdentifier EventSourceConsumer.

Definition accept (delegate_factory : EventSource S E -> EventSourceConsumer)
    (source : EventSource S E) (delegates : Delegates) : Delegates :=
  if decide (src_identifier source ∈ dict_keys delegates) then delegates
  else dict_set delegates (src_identifier source) (delegate_factory source).

Definition withdraw (source : EventSource S E) (delegates : Delegates) : Delegates :=
  if decide (src_identifier source ∈ dict_keys delegates)
  then dict_pop delegates (src_identifier source) else delegates.

Fixpoint consume_delegates (delegates : list EventSourceConsumer)
    : ST (W * (S * EventConsumerStateStore)) () :=
  match delegates with
  | [] => mret ()
  | delegate :: rest => _ ← consume_all delegate; consume_delegates rest
  end.

Definition subscription_consume_all (delegates : Delegates)
    : ST (W * (S * EventConsumerStateStore)) () := consume_delegates (dict_values delegates).

(** [make_subscriber]: every delegate shares the state store and the processor. *)
Definition delegate_factory (processor : E -> ST W ()) (save_state_after_consumption : bool)
    (source : EventSource S E) : EventSourceConsumer :=
  mkConsumer source (EventProcessor processor) save_state_after_consumption.
End consumer.
Arguments World : clear implicits.
