(* ===== verification/ConsumerTheory.v ===== *)
(** What consuming promises: events are handled in order and none is skipped, whatever
    fails and whenever the consumer is restarted, and a restart repeats no more events
    than were handled since the last save. *)
From S2P Require Import Prelude Values Conversion Events Conditions EventsDB MemoryAdapter.
From S2P Require Import AdapterConcurrency Sources Store ConsumerState SourceConsumer.

Lemma dict_keys_only {V} (d : dict string V) q v :
  (forall p, p ∈ dict_keys d -> p = q) -> forall p, p ∈ dict_keys (dict_set d q v) -> p = q.
Proof.
  intros Hd p. rewrite dict_keys_set. case_decide; [apply Hd|].
  rewrite elem_of_app, list_elem_of_singleton. intros [?|?]; [by apply Hd|done].
Qed.

(** What comes after an event of a list by its sequence number. *)
Lemma filter_after (l : list StoredEvent) i e :
  StronglySorted Z.lt (numbers_of l) -> l !! i = Some e ->
  List.filter (fun x => (se_sequence_number e <? se_sequence_number x)%Z && true) l =
  drop (S i) l.
Proof.
  revert i. induction l as [|e0 l IH]; intros i Hs Hi; [done|].
  change (numbers_of (e0 :: l)) with (se_sequence_number e0 :: numbers_of l) in Hs.
  inversion Hs as [|? ? Hs' Hlt]; subst. rewrite Forall_forall in Hlt.
  assert (forall x, x ∈ l -> (se_sequence_number e0 < se_sequence_number x)%Z) as Hl.
  { intros x Hx. apply Hlt, elem_of_numbers. by exists x. }
  destruct i as [|i]; cbn in Hi; simplify_eq.
  - cbn. rewrite Z.ltb_irrefl. cbn. rewrite drop_0.
    assert (forall m, (forall x, x ∈ m -> x ∈ l) -> List.filter (fun x =>
      (se_sequence_number e <? se_sequence_number x)%Z && true) m = m) as Hall; [|by apply Hall].
    induction m as [|x m IHm]; intros Hm; [done|]. cbn.
    rewrite (proj2 (Z.ltb_lt _ _)) by (apply Hl, Hm; constructor). cbn. f_equal.
    apply IHm. intros; apply Hm; by constructor.
  - cbn. assert (e ∈ l) as He by by eapply list_elem_of_lookup_2.
    rewrite (proj2 (Z.ltb_ge _ _)) by (specialize (Hl e He); lia). cbn. by apply IH.
Qed.

Section progress.
Context {S W : Type} `{UserCode} `{!EventStorageAdapter S} `{!AdapterContract S}.
Variables (debug : bool) (category : EventCategory) (persistence_interval : option nat) (now : Z)
  (summarise : StoredEvent -> res Val).
(** The events of the source, and the processor. *)
Variables (events : list StoredEvent) (process_event : StoredEvent -> ST W ()).
Hypothesis events_summarise : forall e, e ∈ events -> is_ok (summarise e) = true.

Abbreviation converter := StoredEventEventConsumerStateConverter.
Abbreviation sstream := (stream_identifier (state_stream category default_partition)).
Abbreviation lag store := (get_lag store default_partition).
Abbreviation Stores := (S * EventConsumerStateStore)%type.

(** The adapter reads the state stream back, and stores the state of any of the events in it,
    as many times as there are events. *)
Definition keeps_state : Prop :=
  ea_addresses sstream = true /\
  forall log e, e ∈ events -> length (log_of sstream log) < length events ->
    ea_accepts log (category_name category) default_partition
      [state_changed now (event_to_state converter e)].
Hypothesis Hkeeps : keeps_state.

(** What else holds of the log, whatever states are saved to it. *)
Variable kept : list StoredEvent -> Prop.
Hypothesis kept_state : forall log new,
  kept log -> log_of sstream [new] = [new] -> kept (log ++ [new]).

(** ** How far a state stands in the events *)

Definition constraints_of (state : option JsonObject) : list QueryConstraint :=
  from_option (fun c => [c]) [] (state ≫= state_to_query_constraint converter).

(** From this state the first [k] events are not asked for again; the others are, and those
    that come later. *)
Definition resumes_at (state : option JsonObject) (k : nat) : Prop :=
  forall new, StronglySorted Z.lt (numbers_of (events ++ new)) ->
    List.filter (meets constraint_holds (constraints_of state)) (events ++ new) =
    drop k events ++ new.

Definition stored_at (log : list StoredEvent) (k : nat) : Prop :=
  match last (log_of sstream log) with
  | None => k = 0
  | Some e => exists state, se_payload e = serialise_consumer_state state /\
      Json (mk_obj state) /\ resumes_at (Some state) k
  end.

(** [k] events were handled, and all but the last [lag] of them are accounted for in the
    store, with a state saved for some of them; no other partition is in use and nobody else
    writes the state stream. *)
Record at_progress_in (w : Stores) (k : nat) : Prop := {
  ap_stored : exists log, ea_holds w.1 log /\ kept log /\ stored_at log (k - lag w.2) /\
    length (log_of sstream log) + lag w.2 <= k /\
    (get_position w.2 default_partition = None \/
     get_position w.2 default_partition = se_position <$> last (log_of sstream log));
  ap_lag : lag w.2 <= k;
  ap_bound : k <= length events;
  ap_memory : match get_state w.2 default_partition with
    | Some state => resumes_at (Some state) k /\ Json (mk_obj state) /\
        (lag w.2 = 0 \/ exists e, e ∈ events /\ state = event_to_state converter e)
    | None => lag w.2 = 0
    end;
  ap_partitions : forall p, p ∈ dict_keys (css_lags w.2) -> p = default_partition;
  ap_NoDup : NoDup (dict_keys (css_lags w.2))
}.

Lemma restart_progress w k :
  at_progress_in w k -> at_progress_in (w.1, new_state_store) (k - lag w.2).
Proof.
  intros [(log & Hst & Hkept & Hs & Hlen & _) Hl Hb Hm Hp Hn]. split; cbn; try lia; try done.
  - exists log. rewrite Nat.sub_0_r. split_and!; [done|done|done|cbn; lia|by left].
  - by intros p ?%not_elem_of_nil.
  - constructor.
Qed.

Lemma resumes_none : resumes_at None 0.
Proof. intros new _. by apply filter_true. Qed.

Lemma resumes_event i e :
  events !! i = Some e -> resumes_at (Some (event_to_state converter e)) (Datatypes.S i).
Proof.
  intros Hi new Hs. pose proof (lookup_lt_Some _ _ _ Hi) as Hlt.
  change (List.filter (fun x => (se_sequence_number e <? se_sequence_number x)%Z && true)
    (events ++ new) = drop (Datatypes.S i) events ++ new).
  rewrite (filter_after (events ++ new) i e Hs) by by apply lookup_app_l_Some.
  by rewrite drop_app_le by lia.
Qed.

(** ** Loading, recording and saving keep the account *)

Lemma load_progress w k :
  at_progress_in w k ->
  exists state w', load_to_query_constraint category converter default_partition w =
      (Ok (state ≫= state_to_query_constraint converter), w') /\
    resumes_at state k /\ at_progress_in w' k /\ w'.1 = w.1 /\ lag w'.2 = lag w.2.
Proof.
  intros Hp. pose proof Hp as [(log & Hst & Hkept & Hs & Hlen & Hpos) Hl Hb Hm Hpart Hn].
  destruct w as [st store]. cbn [fst snd] in *.
  unfold load_to_query_constraint, mbind, ST_bind, load_state. cbn [fst snd].
  destruct (get_state store default_partition) as [state|] eqn:Estate.
  { exists (Some state), (st, store). by split_and!; [| |done|..]; [|apply Hm|..]. }
  assert (src_latest (stream_source (state_stream category default_partition)) st =
    Ok (last (log_of sstream log))) as -> by by apply ea_latest_log, Hkeeps.
  rewrite Hm, Nat.sub_0_r in Hs. unfold stored_at in Hs.
  assert (forall o pos, pos = se_position <$> last (log_of sstream log) ->
    match o with Some state => resumes_at (Some state) k /\ Json (mk_obj state) | None => True end ->
    at_progress_in (st, set_position (set_state store default_partition o) default_partition pos) k)
    as Hset.
  { intros o pos Hpos' Ho. split; cbn; try done.
    - exists log. unfold get_lag in *. cbn. rewrite Hm in *.
      rewrite Nat.sub_0_r. split_and!; [done..|].
      right. unfold get_position. cbn. by rewrite dict_get_set_eq.
    - unfold get_state. cbn. rewrite dict_get_set_eq. cbn. destruct o; [|done].
      destruct Ho. split_and!; [done..|by left]. }
  destruct (last (log_of sstream log)) as [e|] eqn:El.
  - destruct Hs as (state & Hpay & Hj & Hres). rewrite Hpay, deserialise_serialise_state by done.
    eexists (Some state), _. split; [reflexivity|]. split_and!; [done| |done|done].
    apply Hset; [done|done].
  - subst k. eexists None, _. split; [reflexivity|]. split_and!; [apply resumes_none| |done|done].
    by apply Hset.
Qed.

Lemma record_progress st store k e :
  at_progress_in (st, store) k -> events !! k = Some e ->
  let store' := (record_processed converter e None default_partition store).2 in
  at_progress_in (st, store') (Datatypes.S k) /\ lag store' = Datatypes.S (lag store) /\
  is_Some (get_state store' default_partition).
Proof.
  intros [(log & Hst & Hkept & Hs & Hlen & Hpos) Hl Hb Hm Hpart Hn] He store'. cbn [fst snd] in *.
  assert (lag store' = Datatypes.S (lag store)) as Hlag.
  { unfold store', get_lag at 1. cbn. by rewrite dict_get_set_eq. }
  assert (get_state store' default_partition = Some (event_to_state converter e)) as Hstate.
  { unfold store', get_state. cbn. by rewrite dict_get_set_eq. }
  split; [split; cbn [fst snd]|split; [done|by rewrite Hstate]].
  - exists log. rewrite Hlag. split_and!; [done..|lia|done].
  - lia.
  - apply lookup_lt_Some in He. lia.
  - rewrite Hstate. split_and!; [by apply resumes_event|apply mk_obj_json; by repeat constructor|].
    right. exists e. split; [by eapply list_elem_of_lookup_2|done].
  - by apply (dict_keys_only _ _ _ Hpart).
  - by apply (dict_set_NoDup (css_lags store)).
Qed.

Lemma touch_progress st store k :
  at_progress_in (st, store) k -> at_progress_in (st, touch_lag store default_partition) k.
Proof.
  intros [Hs Hl Hb Hm Hpart Hn]. split; cbn [fst snd] in *; rewrite ?get_lag_touch; try done.
  - by apply (dict_keys_only _ _ _ Hpart).
  - by apply (dict_set_NoDup (css_lags store)).
Qed.

Lemma save_progress w k :
  at_progress_in w k -> is_Some (get_state w.2 default_partition) ->
  exists w', save_partition debug category now default_partition w = (Ok (), w') /\
    at_progress_in w' k /\ lag w'.2 = 0 /\ is_Some (get_state w'.2 default_partition).
Proof.
  intros Hp [state Hstate]. destruct w as [st store]. cbn [fst snd] in *.
  destruct (decide (lag store = 0)) as [Hz|Hnz].
  { exists (st, touch_lag store default_partition). unfold save_partition. cbn [fst snd].
    rewrite Hstate, get_lag_touch, decide_True by done.
    split_and!; [done|by apply touch_progress|done|by exists state]. }
  pose proof Hp as [(log & Hst & Hkept & Hs & Hlen & Hpos) Hl Hb Hm Hpart Hn]. cbn [fst snd] in *.
  rewrite Hstate in Hm. destruct Hm as (Hres & Hj & [Hz|(ev & Hev & Heq)]); [done|].
  pose proof (save_partition_cases debug category now default_partition state st store log Hst
    (proj1 Hkeeps) ltac:(subst state; apply (proj2 Hkeeps); [done|lia]) Hstate Hj
    ltac:(lia)) as Hcases. cbn zeta in Hcases.
  replace (up_to_date store default_partition _) with true in Hcases.
  2: { unfold up_to_date. destruct Hpos as [->| ->]; [done|].
       destruct (last (log_of sstream log)); cbn; [|done]. symmetry. by apply bool_decide_eq_true_2. }
  destruct Hcases as (new & st' & store' & E & Hst' & Hlog & Hpay & ->).
  eexists. split; [exact E|].
  set (store' := set_lag _ _ _).
  assert (lag store' = 0) as Hlag by (unfold store', get_lag; cbn; by rewrite dict_get_set_eq).
  split; [|split; [exact Hlag|by exists state]].
  destruct (touch_progress _ _ _ Hp) as [_ _ _ _ Hpart' Hn']. cbn [fst snd] in Hpart', Hn'.
  split; cbn [fst snd]; [|lia|done| | |].
  - exists (log ++ [new]). rewrite Hlag, Nat.sub_0_r. unfold stored_at.
    rewrite log_of_app, Hlog, last_snoc.
    split_and!; [done|by apply kept_state|by exists state|rewrite length_app; cbn [length]; lia|].
    right. unfold store', get_position. cbn. by rewrite dict_get_set_eq.
  - change (get_state store' default_partition) with (get_state store default_partition).
    rewrite Hstate. by split_and!; [..|left].
  - by apply (dict_keys_only _ _ _ Hpart').
  - by apply (dict_set_NoDup (css_lags (touch_lag store default_partition))).
Qed.

(** An interval, when there is one, bounds what is left unsaved after a commit. *)
Definition within_interval (store : EventConsumerStateStore) : Prop :=
  forall n, persistence_interval = Some n -> 0 < n -> lag store < n.

Lemma save_if_needed_progress w k :
  at_progress_in w k -> is_Some (get_state w.2 default_partition) ->
  exists w', save_if_needed debug category persistence_interval now default_partition w =
      (Ok (), w') /\
    at_progress_in w' k /\ within_interval w'.2 /\ is_Some (get_state w'.2 default_partition).
Proof.
  intros Hp Hstate. destruct w as [st store]. unfold save_if_needed, within_interval.
  destruct persistence_interval as [[|n]|].
  - exists (st, store). split_and!; [done|done| |done]. intros n [= <-]. lia.
  - cbn [fst snd]. rewrite get_lag_touch. case_decide as Hn.
    + destruct (save_progress (st, touch_lag store default_partition) k)
        as (w' & E & Hp' & Hlag & Hs'); [by apply touch_progress|done|].
      exists w'. unfold save_state. cbn [from_option save_partitions]. unfold mbind, ST_bind.
      rewrite E. split_and!; [done|done| |done]. intros m [= <-]. lia.
    + exists (st, touch_lag store default_partition).
      split_and!; [done|by apply touch_progress| |done].
      intros m [= <-]. cbn [fst snd]. rewrite get_lag_touch. lia.
  - by exists (st, store).
Qed.

Lemma save_all_progress w k :
  at_progress_in w k ->
  exists w', save_state debug category now None w = (Ok (), w') /\
    at_progress_in w' k /\ lag w'.2 = 0.
Proof.
  intros Hp. pose proof Hp as [_ _ _ Hm Hpart Hn]. destruct w as [st store]. cbn [fst snd] in *.
  unfold save_state. cbn [from_option fst snd].
  destruct (dict_keys (css_lags store)) as [|p keys] eqn:Ek.
  - exists (st, store). split_and!; [done|done|]. cbn. unfold get_lag.
    destruct (dict_get (css_lags store) default_partition) as [n|] eqn:En; [|done].
    assert (default_partition ∈ dict_keys (css_lags store)) as Hin
      by (apply dict_get_is_Some; by exists n).
    rewrite Ek in Hin. by apply not_elem_of_nil in Hin.
  - assert (p = default_partition) as -> by (apply Hpart; constructor).
    assert (keys = []) as ->.
    { destruct keys as [|p' keys]; [done|]. exfalso.
      apply NoDup_cons in Hn as [Hn _]. apply Hn.
      rewrite (Hpart p') by (constructor; constructor). constructor. }
    cbn [save_partitions]. unfold mbind, ST_bind.
    destruct (get_state store default_partition) as [state|] eqn:Estate.
    + destruct (save_progress (st, store) k Hp) as (w' & -> & Hp' & Hlag & _); [by exists state|].
      by exists w'.
    + exists (st, store). unfold save_partition. cbn [fst snd]. by rewrite Estate.
Qed.

(** ** Consuming *)

(** The processor run on events in order. *)
Fixpoint run_events (evs : list StoredEvent) : ST W () :=
  match evs with
  | [] => mret ()
  | e :: rest => _ ← process_event e; run_events rest
  end.

Abbreviation callback := (process_callback debug category converter persistence_interval now
  summarise process_event).

(** The events from the [k]-th to before the [k']-th went through the processor, the
    last of them not counted if it failed. *)
Definition handled (k k' : nat) (app : W) (r : res ()) (app' : W) : Prop :=
  exists mid, k <= k' /\ run_events (take (k' - k) (drop k events)) app = (Ok (), mid) /\
    match r with
    | Ok _ => k' = length events /\ app' = mid
    | Raise e => exists event, events !! k' = Some event /\ process_event event mid = (Raise e, app')
    end.

Lemma handled_cons k k' app app1 r app' event :
  events !! k = Some event -> process_event event app = (Ok (), app1) ->
  handled (Datatypes.S k) k' app1 r app' -> handled k k' app r app'.
Proof.
  intros He Hp (mid & Hk & Hrun & Hr). exists mid. split; [lia|]. split; [|done].
  rewrite (drop_S _ _ _ He). replace (k' - k) with (Datatypes.S (k' - Datatypes.S k)) by lia.
  cbn [take run_events]. unfold mbind, ST_bind. by rewrite Hp.
Qed.

(** One event handled, acknowledged and committed. *)
Lemma acknowledge_progress (w : World S W) k event :
  at_progress_in (w_store w) k -> events !! k = Some event ->
  exists w', (_ ← acknowledge converter [event];
              _ ← commit debug category persistence_interval now false;
              increment_consumed) w = (Ok (), w') /\
    w_app w' = w_app w /\ at_progress_in (w_store w') (Datatypes.S k) /\
    within_interval (w_store w').2.
Proof.
  intros Hp He. destruct w as [app [st store] consumed processed]. cbn [w_store w_app] in *.
  destruct (record_progress st store k event Hp He) as (Hp1 & _ & Hs1).
  destruct (save_if_needed_progress _ _ Hp1 Hs1) as (w2 & E2 & Hp2 & Hi2 & _).
  unfold mbind, ST_bind. cbn [acknowledge w_store w_app w_consumed w_processed fst snd].
  unfold commit, lift_state. cbn [w_store]. rewrite E2. cbn.
  eexists. split; [reflexivity|]. by split_and!.
Qed.

Lemma callback_progress rest k (w : World S W) r w' :
  drop k events = rest -> at_progress_in (w_store w) k -> within_interval (w_store w).2 ->
  callback rest None w = (r, w') ->
  exists k', at_progress_in (w_store w') k' /\ handled k k' (w_app w) r (w_app w') /\
    within_interval (w_store w').2.
Proof.
  revert k w. induction rest as [|event rest IH]; intros k w Hdrop Hp Hi.
  { cbn. intros [= <- <-]. exists k. split; [done|]. split; [|done].
    exists (w_app w). rewrite Nat.sub_diag. split_and!; [lia|done| |done].
    apply (f_equal length) in Hdrop. rewrite length_drop in Hdrop. cbn in Hdrop.
    pose proof (ap_bound _ _ Hp). lia. }
  assert (events !! k = Some event) as He.
  { rewrite <-(Nat.add_0_r k), <-lookup_drop, Hdrop. done. }
  assert (drop (Datatypes.S k) events = rest) as Hdrop'.
  { rewrite (drop_S _ _ _ He) in Hdrop. by injection Hdrop. }
  cbn [process_callback]. unfold mbind at 1, ST_bind at 1, st_lift at 1.
  pose proof (events_summarise event ltac:(by eapply list_elem_of_lookup_2)) as Hsum.
  destruct (summarise event) as [v|]; [|done].
  unfold mbind at 1, ST_bind at 1, lift_app at 1.
  destruct (process_event event (w_app w)) as [[[]|e] app1] eqn:Ep.
  - set (w1 := mkWorld app1 (w_store w) (w_consumed w) (w_processed w)).
    destruct (acknowledge_progress w1 k event Hp He) as (w2 & E2 & Happ & Hp2 & Hi2).
    intros Hrun. assert (callback rest None w2 = (r, w')) as Hrest.
    { revert E2 Hrun. unfold mbind, ST_bind.
      destruct (acknowledge converter [event] w1) as [[[]|] w3]; [|done].
      destruct (commit debug category persistence_interval now false w3) as [[[]|] w4]; [|done].
      by intros ->. }
    destruct (IH _ _ Hdrop' Hp2 Hi2 Hrest) as (k' & Hp' & Hh & Hi').
    exists k'. split; [done|]. split; [|done]. rewrite Happ in Hh.
    by eapply handled_cons.
  - intros [= <- <-]. exists k. cbn [w_store w_app]. split; [done|]. split; [|done].
    exists (w_app w). rewrite Nat.sub_diag. split_and!; [lia|done|]. by exists event.
Qed.
End progress.

(** No more is asked of the log. *)
Definition at_progress {S : Type} `{UserCode} `{!EventStorageAdapter S} `{!AdapterContract S}
    (category : EventCategory) (events : list StoredEvent) :=
  at_progress_in (S := S) category events (fun _ => True).

Definition state_identifier (category : EventCategory) : EventSourceIdentifier :=
  stream_identifier (state_stream category default_partition).

(** What a consumer does, and what it leaves of the log. *)
Lemma consume_all_run {S W : Type} `{UserCode} `{!EventStorageAdapter S}
    `{!AdapterContract S} debug category persistence_interval now summarise
    (kept : list StoredEvent -> Prop) (events : list StoredEvent)
    (process_event : StoredEvent -> ST W ()) source save
    (app : W) (w : S * EventConsumerStateStore) k r app' w' :
  keeps_state category now events ->
  (forall log new, kept log -> log_of (state_identifier category) [new] = [new] ->
    kept (log ++ [new])) ->
  StronglySorted Z.lt (numbers_of events) ->
  (forall e, e ∈ events -> is_ok (summarise e) = true) ->
  faithful source w.1 events standard_constraint constraint_holds ->
  at_progress_in category events kept w k -> within_interval persistence_interval w.2 ->
  consume_all debug category StoredEventEventConsumerStateConverter persistence_interval now
    summarise (mkConsumer source (EventProcessor process_event) save) (app, w) = (r, (app', w')) ->
  exists k', at_progress_in category events kept w' k' /\
    handled events process_event k k' app r app' /\
    within_interval persistence_interval w'.2 /\
    (is_ok r = true -> save = true -> get_lag w'.2 default_partition = 0) /\
    at_progress_in category events kept (w'.1, new_state_store)
      (k' - get_lag w'.2 default_partition).
Proof.
  intros Hk Hkept Hsorted Hsum [Hit _] Hp Hi Hrun.
  destruct (load_progress category now events Hk kept w k Hp)
    as (state & w1 & Hload & Hres & Hp1 & Hst & Hlag).
  assert (within_interval persistence_interval w1.2) as Hi1
    by (intros n Hn Hpos; rewrite Hlag; by apply Hi).
  unfold consume_all in Hrun. cbn [fst snd] in Hrun. rewrite Hload in Hrun.
  unfold process_event_iterator in Hrun. cbn [co_source co_processor
    co_save_state_after_consumption] in Hrun. rewrite Hst, Hit in Hrun.
  2: { destruct state as [o|]; cbn; [|by intros c ?%not_elem_of_nil].
       destruct (default VNone _); cbn; intros c; try (by intros ?%not_elem_of_nil);
       by intros ->%list_elem_of_singleton. }
  change (List.filter _ events) with
    (List.filter (meets constraint_holds (constraints_of state)) events) in Hrun.
  specialize (Hres []). rewrite !app_nil_r in Hres. rewrite (Hres Hsorted) in Hrun.
  cbn [gen_of yielded raised] in Hrun.
  unfold mbind, ST_bind in Hrun.
  destruct (process_callback _ _ _ _ _ _ _ (drop k events) None (mkWorld app w1 0 0))
    as [r2 w2] eqn:Ec.
  destruct (callback_progress debug category persistence_interval now summarise events
    process_event Hsum Hk kept Hkept _ k (mkWorld app w1 0 0) r2 w2 eq_refl Hp1 Hi1 Ec)
    as (k' & Hp2 & Hh & Hi2). cbn [w_app] in Hh.
  destruct r2 as [[]|e].
  - destruct save.
    + destruct (save_all_progress debug category now events Hk kept Hkept (w_store w2) k' Hp2)
        as (w3 & E3 & Hp3 & Hlag3).
      unfold commit, lift_state in Hrun. rewrite E3 in Hrun. injection Hrun as <- <- <-.
      cbn [w_app w_store]. exists k'. split; [done|]. split; [done|]. split; [|split; [done|]].
      * intros n Hn Hpos. by rewrite Hlag3.
      * by apply restart_progress.
    + injection Hrun as <- <- <-. exists k'. split_and!; [done|done|done|done|].
      by apply restart_progress.
  - injection Hrun as <- <- <-. exists k'. split_and!; [done|done|done|done|].
    by apply restart_progress.
Qed.

(** C21. Consuming with an event processor (one called for each event) neither skips nor
    reorders events, whatever the processor raises, on any adapter that can store a consumer state
    for each event and reads the state stream back, which nobody else writes. The source is one that
    does not raise and yields its events in the order of their sequence numbers (as the log does; a
    category does if its saves are serialised), and the events' summaries for the log can be
    computed. From a state that accounts for the first [k] events, [consume_all] runs the processor
    on the events from the [k]-th on, in order, and ends in a state that accounts for those that
    succeeded: all of them if it returns; those before the failing one if the processor raises, so
    that the failing event is the next one handled. A consumer restarted from the store at any such
    point goes back by the number of events handled since the last save, fewer than the persistence
    interval, and none when consumption returned and saves its state. *)
Theorem consume_all_progress {S W : Type} `{UserCode} `{!EventStorageAdapter S}
    `{!AdapterContract S} debug category persistence_interval now summarise
    (events : list StoredEvent) (process_event : StoredEvent -> ST W ()) source save
    (app : W) (w : S * EventConsumerStateStore) k r app' w' :
  keeps_state category now events ->
  StronglySorted Z.lt (numbers_of events) ->
  (forall e, e ∈ events -> is_ok (summarise e) = true) ->
  faithful source w.1 events standard_constraint constraint_holds ->
  at_progress category events w k -> within_interval persistence_interval w.2 ->
  consume_all debug category StoredEventEventConsumerStateConverter persistence_interval now
    summarise (mkConsumer source (EventProcessor process_event) save) (app, w) = (r, (app', w')) ->
  exists k', at_progress category events w' k' /\
    handled events process_event k k' app r app' /\
    within_interval persistence_interval w'.2 /\
    (is_ok r = true -> save = true -> get_lag w'.2 default_partition = 0) /\
    at_progress category events (w'.1, new_state_store) (k' - get_lag w'.2 default_partition).
Proof.
  intros Hk Hsorted Hsum Hfaithful Hp Hi Hrun.
  by eapply (consume_all_run debug category persistence_interval now summarise (fun _ => True)
    events process_event source save app w k).
Qed.

(** ** Witnesses *)
Section witnesses.
#[local] Instance consumer_user_code : UserCode := no_user_code.
#[local] Instance consumer_adapter : EventStorageAdapter AdapterState :=
  InMemoryEventStorageAdapter constant_uuid ∅ ∅.
#[local] Instance consumer_contract : AdapterContract AdapterState :=
  InMemoryEventStorageAdapter_contract constant_uuid ∅ ∅.

Definition numbered (n : Z) : StoredEvent :=
  mkStoredEvent "0af3" (VStr "placed") "1" "orders" n n VNone 0 0.
Definition two_events : list StoredEvent := [numbered 3; numbered 5].
Definition two_events_source : EventSource AdapterState StoredEvent :=
  InMemoryStoredEventSource (StreamIdentifier "orders" "1") two_events.
(** Keeps the numbers of the events it handles. *)
Definition keep_numbers (event : StoredEvent) : ST (list Z) () := fun seen =>
  (Ok (), seen ++ [se_sequence_number event]).

Lemma progress_survives_restart_witness :
  exists new st' store',
    save_state false (mkCategory "state") 0 (Some "default"%string)
      (initial_state, (record_processed StoredEventEventConsumerStateConverter (numbered 3) None
        "default" new_state_store).2) = (Ok (), (st', store')) /\
    ea_holds st' [new] /\
    (load_to_query_constraint (mkCategory "state") StoredEventEventConsumerStateConverter
      "default" (st', new_state_store)).1 = Ok (Some (sequence_number_after 3)).
Proof.
  pose proof (progress_survives_restart (S := AdapterState) false (mkCategory "state") 0 "default"
    (numbered 3) initial_state new_state_store [] initial_store_inv eq_refl I) as Hsave.
  cbv zeta in Hsave. change (up_to_date _ _ _) with true in Hsave. cbn iota in Hsave.
  destruct Hsave as (new & st' & store' & E & Hst & _ & Hl). by exists new, st', store'.
Defined.

Lemma consume_all_progress_witness :
  exists k' w', at_progress (mkCategory "state") two_events w' k' /\
    handled two_events keep_numbers 0 k' [] (Ok ()) [3; 5]%Z /\
    get_lag w'.2 default_partition = 0.
Proof.
  destruct (consume_all false (mkCategory "state") StoredEventEventConsumerStateConverter
    (Some 100) 0 summarise_stored_event
    (mkConsumer two_events_source (EventProcessor keep_numbers) true)
    ([], (initial_state, new_state_store))) as [r [app' w']] eqn:E.
  destruct (consume_all_progress false (mkCategory "state") (Some 100) 0 summarise_stored_event
    two_events keep_numbers two_events_source true [] (initial_state, new_state_store) 0 r app' w')
    as (k' & Hp & Hh & _ & Hlag & _).
  - split; [reflexivity|]. intros log e _ _. exact I.
  - by repeat constructor.
  - intros e He. unfold two_events in He. rewrite !elem_of_cons, elem_of_nil in He.
    by destruct He as [->|[->|[]]].
  - apply memory_source_faithful. by apply default_constraint_convert.
  - split.
    + exists []. split; [apply initial_store_inv|]. split; [exact I|].
      split; [reflexivity|]. split; [apply le_n|left; reflexivity].
    + apply le_n.
    + apply Nat.le_0_l.
    + reflexivity.
    + intros p Hp. change (p ∈ []) in Hp. destruct (not_elem_of_nil _ Hp).
    + constructor.
  - intros n [= <-] Hn. cbn. lia.
  - exact E.
  - exists k', w'. assert (r = Ok () /\ app' = [3; 5]%Z) as [-> ->].
    { assert ((r, app') = ((r, (app', w')).1, (r, (app', w')).2.1)) as Heq by reflexivity.
      rewrite <-E in Heq. vm_compute in Heq. injection Heq as Hr Ha. split; [exact Hr|exact Ha]. }
    split; [exact Hp|]. split; [exact Hh|]. exact (Hlag eq_refl eq_refl).
Defined.
End witnesses.
