(* ===== verification/ReadModel.v ===== *)
(** The way from a publish to a query: events are published to the streams of a category
    ([store/store.py]), a consumer reads the category ([processing/consumers/source.py]) with
    a projection processor ([processing/consumers/projection.py]), whose projections a store
    keeps ([projection/store/]). Over any adapters for events and projections. *)
From S2P Require Import Prelude Values Conversion Events JsonEquivalence Conditions EventsDB.
From S2P Require Import MemoryAdapter.
From S2P Require Import Sources Store Query MemoryQuery Projections ProjectionStore.
From S2P Require Import ConsumerState SourceConsumer ConsumerTheory.

(** ** The consumer of a category that keeps its projections *)

Section read_model.
Context `{UserCode} `{CaseConversion}.
Context {A : Type} `{!EventStorageAdapter A} {P : Type} `{ProjectionStorageAdapter P}.
Variables (pj : Projector) (debug : bool) (category : string).
(** The category of the consumer's states, how often they are saved, and whether they are when
    consumption is over. *)
Variables (state_category : EventCategory) (persistence_interval : option nat) (now : Z)
  (save : bool).

Definition projection_consumer : EventSourceConsumer :=
  mkConsumer (adapter_source (S := A) (CategoryIdentifier category))
    (EventProcessor (process_event pj debug KJsonValueType KJsonValueType)) save.

Definition Model : Type := P * (A * EventConsumerStateStore).

Definition consume : ST Model () :=
  consume_all debug state_category StoredEventEventConsumerStateConverter persistence_interval now
    summarise_stored_event projection_consumer.
End read_model.

(** * Theorems *)

(** ** The projections of the streams of a category *)
Section projecting.
Context `{UserCode} `{CaseConversion} {P : Type} `{ProjectionStorageAdapter P}.
Context {Hlaws : ProjectionAdapterLaws P}.
Variables (pj : Projector) (debug : bool) (category : string).
(** The streams there may be, and the ids of their projections. *)
Variables (known : string -> Prop) (pid : string -> string).
Hypothesis pid_inj : forall s1 s2, known s1 -> known s2 -> pid s1 = pid s2 -> s1 = s2.
Hypothesis stable : forall stream, known stream ->
  stable_projector pj category stream (pid stream).
Hypothesis quiet : forall q, is_ok (log_saved debug q) = true.
Abbreviation identifier stream := (StreamIdentifier category stream).

Definition of_category (event : StoredEvent) : Prop :=
  se_category event = category /\ known (se_stream event).

Definition events_of_stream (stream : string) (events : list StoredEvent) : list StoredEvent :=
  log_of (identifier stream) events.

(** What the projector makes of a stream, from nothing. *)
Definition projected (stream : string) (events : list StoredEvent) : res Projection :=
  project pj (identifier stream) (gen_of (events_of_stream stream events)) VNone VNone.

Definition projectable (events : list StoredEvent) : Prop :=
  forall stream, known stream -> events_of_stream stream events <> [] ->
    is_ok (projected stream events) = true.

(** The projection a stream has, when it has events. *)
Definition projection_of (events : list StoredEvent) (stream : string) : option Projection :=
  match events_of_stream stream events with
  | [] => None
  | _ => match projected stream events with Ok p => Some p | Raise _ => None end
  end.

Definition shows (s : P) (events : list StoredEvent) : Prop :=
  exists d, al_holds s d /\ forall stream, known stream ->
    tracked pj category stream (pid stream) d (projection_of events stream).

Lemma project_not_none stream events state metadata p :
  known stream -> events <> [] ->
  project pj (identifier stream) (gen_of events) state metadata = Ok p ->
  pr_state p <> VNone /\ pr_metadata p <> VNone.
Proof.
  intros Hk. revert state metadata. induction events as [|e rest IH]; intros state metadata; [done|].
  intros _ Hp. destruct (project_split pj category stream (pid stream) e rest state metadata p)
    as (p1 & Hp1 & Hrest & Hend); [by apply stable|done|].
  destruct (decide (rest = [])) as [Hr|Hr].
  - rewrite <-(Hend Hr). by destruct (project_one pj category stream (pid stream) e state metadata p1)
      as (_ & ? & ? & _); [apply stable|..].
  - by apply (IH (pr_state p1) (pr_metadata p1)).
Qed.

Lemma stream_events_snoc stream events e :
  se_category e = category ->
  events_of_stream stream (events ++ [e]) =
  if decide (se_stream e = stream) then events_of_stream stream events ++ [e]
  else events_of_stream stream events.
Proof.
  intros Hc. unfold events_of_stream. rewrite log_of_app. unfold log_of at 2. cbn.
  case_decide as Hs.
  - by rewrite bool_decide_eq_true_2.
  - rewrite bool_decide_eq_false_2 by by intros []. apply app_nil_r.
Qed.

(** The projection of a stream one event later is that event projected from it. *)
Lemma project_next events e :
  of_category e -> projectable events ->
  projected (se_stream e) (events ++ [e]) =
  project pj (identifier (se_stream e)) (gen_of [e])
    (from_option pr_state VNone (projection_of events (se_stream e)))
    (from_option pr_metadata VNone (projection_of events (se_stream e))).
Proof.
  intros [Hc Hk] Hproj. unfold projected, projection_of.
  rewrite stream_events_snoc, decide_True by done. specialize (Hproj _ Hk).
  destruct (events_of_stream (se_stream e) events) as [|e0 l] eqn:El; [done|].
  specialize (Hproj ltac:(done)). unfold projected in *. rewrite El in *.
  destruct (project pj _ (gen_of (e0 :: l)) VNone VNone) as [p0|] eqn:Ep; [|done].
  destruct (project_not_none _ (e0 :: l) VNone VNone p0 Hk) as [Hn1 Hn2]; [done..|].
  by rewrite (project_app pj _ _ [e] _ _ p0 Ep Hn1 Hn2).
Qed.

Lemma project_prefix stream l1 l2 :
  known stream -> is_ok (project pj (identifier stream) (gen_of (l1 ++ l2)) VNone VNone) = true ->
  is_ok (project pj (identifier stream) (gen_of l1) VNone VNone) = true.
Proof.
  intros Hk. unfold project. cbn [yielded gen_of raised from_option].
  change (resolve_state pj VNone) with (pj_initial_state pj).
  change (resolve_metadata pj VNone) with (pj_initial_metadata pj).
  destruct (pj_initial_state pj) as [s|]; cbn; [|done].
  destruct (pj_initial_metadata pj) as [m|]; cbn; [|done].
  rewrite project_events_app. destruct (project_events pj l1 s m) as [[s1 m1]|]; cbn; [|done].
  by rewrite (sp_id _ _ _ _ (stable stream Hk)).
Qed.

Lemma projectable_prefix events rest : projectable (events ++ rest) -> projectable events.
Proof.
  intros Hp stream Hk Hne. specialize (Hp stream Hk). unfold projected, events_of_stream in *.
  rewrite log_of_app in Hp. eapply project_prefix; [done|]. apply Hp.
  by destruct (log_of _ events).
Qed.

Lemma projectable_snoc events e :
  of_category e -> projectable events -> is_ok (projected (se_stream e) (events ++ [e])) = true ->
  projectable (events ++ [e]).
Proof.
  intros [Hc _] Hp He stream Hk. destruct (decide (se_stream e = stream)) as [<-|Hne]; [done|].
  unfold projected. rewrite stream_events_snoc, decide_False by done. by apply Hp.
Qed.

(** A projection that is saved is of its own stream only. *)
Lemma saved_elsewhere d a b current p q :
  known a -> known b -> a <> b -> tracked pj category a (pid a) d p ->
  projection_key q = (projection_name pj, pid a) -> pr_source q = identifier a ->
  tracked pj category b (pid b) d current -> tracked pj category b (pid b) (saved q d) current.
Proof.
  intros Ha Hb Hab [_ Hsrc_a _] Hkey Hsource [Hcur Hsrc Honly].
  assert (saved q d (projection_name pj, pid b) = d (projection_name pj, pid b)) as Hsame.
  { unfold saved. rewrite Hkey, decide_False; [done|]. intros [= Heq]. by apply Hab, pid_inj. }
  split; [by rewrite Hsame|by rewrite Hsame|].
  intros key x. unfold saved. rewrite Hkey. case_decide as Hk; [|by apply Honly].
  subst key. intros [= <-] Hby. exfalso. revert Hby. unfold by_source. cbn.
  rewrite andb_true_iff, !bool_decide_eq_true. rewrite Hsource.
  destruct (d (projection_name pj, pid a)) as [y|] eqn:Ey; cbn.
  - rewrite (Hsrc_a y eq_refl). intros [[= ?] _]. done.
  - intros [[= ?] _]. done.
Qed.

(** Stored, the projections are those of the events, all of which could be projected. *)
Definition up_to_events (s : P) (events : list StoredEvent) : Prop :=
  shows s events /\ projectable events.

(** An event handled, or left alone because the projector raises. *)
Lemma process_event_next event s events :
  of_category event -> up_to_events s events ->
  exists r s', process_event pj debug KJsonValueType KJsonValueType event s = (r, s') /\
    match r with
    | Ok _ => up_to_events s' (events ++ [event])
    | Raise _ => up_to_events s' events /\ ~ projectable (events ++ [event])
    end.
Proof.
  intros Hof [(d & Hd & Hall) Hproj]. pose proof (project_next events event Hof Hproj) as Hnext.
  pose proof Hof as [Hc Hk]. set (a := se_stream event) in *.
  assert (se_identifier event = identifier a) as Hid by (unfold se_identifier; by rewrite Hc).
  assert (events_of_stream a (events ++ [event]) <> []) as Hne.
  { rewrite stream_events_snoc, decide_True by done. by destruct (events_of_stream a events). }
  destruct (projected a (events ++ [event])) as [p|e] eqn:Ep; symmetry in Hnext.
  2: { destruct (process_event_raises pj debug category a (pid a) event s d
         (projection_of events a) e (stable a Hk) Hid Hd (Hall a Hk) Hnext) as (s' & E & Hd').
       exists (Raise e), s'. split; [done|]. split; [split; [by exists d|done]|].
       intros Hp. specialize (Hp a Hk Hne). by rewrite Ep in Hp. }
  destruct (process_event_saves pj debug category a (pid a) event s d
    (projection_of events a) p (stable a Hk) Hid Hd (Hall a Hk) quiet Hnext)
    as (q & s' & E & Hd' & Hpq & Hkey & Hsource).
  exists (Ok ()), s'. split; [done|].
  split; [|apply projectable_snoc; [done..|]; fold a; by rewrite Ep].
  exists (saved q d). split; [done|]. intros b Hb.
  destruct (decide (a = b)) as [<-|Hab].
  - assert (projection_of (events ++ [event]) a = Some p) as ->.
    { unfold projection_of. rewrite Ep. by destruct (events_of_stream a (events ++ [event])). }
    by eapply saved_tracked; [apply Hall| | |].
  - assert (projection_of (events ++ [event]) b = projection_of events b) as ->.
    { unfold projection_of, projected. by rewrite stream_events_snoc, decide_False by done. }
    by eapply (saved_elsewhere d a b); [..|apply Hall|done|done|apply Hall].
Qed.

Lemma run_events_next rest events s s' :
  Forall of_category rest -> up_to_events s events ->
  run_events (process_event pj debug KJsonValueType KJsonValueType) rest s = (Ok (), s') ->
  up_to_events s' (events ++ rest).
Proof.
  intros Hrest. revert events s. induction Hrest as [|e rest He _ IH]; intros events s Hs.
  { cbn. intros [= <-]. by rewrite app_nil_r. }
  destruct (process_event_next e s events He Hs) as (r & s1 & E & Hr).
  cbn [run_events]. unfold mbind, ST_bind. rewrite E. destruct r as [[]|]; [|done].
  intros Hrun. rewrite (app_assoc events [e] rest : events ++ e :: rest = _). by eapply IH.
Qed.

(** What a run of the consumer over events leaves, whether it gets to the end or stops at an
    event that cannot be projected. *)
Lemma handled_next events k k' s r s' :
  Forall of_category events -> up_to_events s (take k events) ->
  handled events (process_event pj debug KJsonValueType KJsonValueType) k k' s r s' ->
  up_to_events s' (take k' events) /\
  match r with Ok _ => k' = length events | Raise _ => ~ projectable (take (S k') events) end.
Proof.
  intros Hev Hs (mid & Hk & Hrun & Hr).
  apply (run_events_next _ (take k events)) in Hrun; [|by apply Forall_take, Forall_drop|done].
  assert (take k events ++ take (k' - k) (drop k events) = take k' events) as Htake.
  { rewrite take_drop_commute. replace (k + (k' - k)) with k' by lia.
    replace (take k events) with (take k (take k' events)); [apply take_drop|].
    rewrite take_take. by replace (k `min` k') with k by lia. }
  rewrite Htake in Hrun. destruct r as [[]|e]; [by destruct Hr as [-> ->]|].
  destruct Hr as (event & Hevent & E).
  destruct (process_event_next event mid (take k' events)) as (r1 & s1 & E1 & Hr1);
    [by eapply Forall_lookup_1|done|].
  rewrite E in E1. injection E1 as <- <-. by rewrite (take_S_r _ _ _ Hevent).
Qed.

(** ** What is looked up *)

(** Every stream's projection is found, and is that of its events. *)
Definition answers (s : P) (events : list StoredEvent) : Prop :=
  forall stream, known stream ->
  exists o s', locate (identifier stream) (projection_name pj) KJsonValueType KJsonValueType s =
      (Ok o, s') /\
    match events_of_stream stream events with
    | [] => o = None
    | _ => exists p q, projected stream events = Ok p /\ o = Some q /\ same_projection al_same p q
    end.

Lemma located_again stream s events r s' :
  known stream -> up_to_events s events ->
  locate (identifier stream) (projection_name pj) KJsonValueType KJsonValueType s = (r, s') ->
  up_to_events s' events.
Proof.
  intros Hk [(d & Hd & Hall) Hp] E.
  destruct (locate_tracked pj category stream (pid stream) s d (projection_of events stream)
    (stable stream Hk) Hd (Hall stream Hk)) as (o & s1 & E1 & Hd1 & _).
  rewrite E in E1. injection E1 as -> ->. split; [by exists d|done].
Qed.

Lemma shows_answers s events : up_to_events s events -> answers s events.
Proof.
  intros [(d & Hd & Hall) Hproj] stream Hk. specialize (Hproj stream Hk).
  destruct (locate_tracked pj category stream (pid stream) s d (projection_of events stream)
    (stable stream Hk) Hd (Hall stream Hk)) as (o & s' & E & _ & Ho).
  exists o, s'. split; [done|]. unfold projection_of in Ho.
  destruct (events_of_stream stream events) as [|e l]; [by inversion Ho|].
  specialize (Hproj ltac:(done)). destruct (projected stream events) as [p|]; [|done].
  inversion Ho as [? q Hq|]; subst. by exists p, q.
Qed.
End projecting.

(** ** Publishing, consuming, restarting and looking up, in any order *)

(** A state of the consumer that accounts for events does so when more follow. *)
Lemma resumes_grows events new state k :
  resumes_at events state k -> k <= length events -> resumes_at (events ++ new) state k.
Proof.
  intros Hres Hk later. rewrite <-app_assoc. intros Hs. rewrite (Hres (new ++ later) Hs).
  by rewrite drop_app_le, app_assoc by done.
Qed.

Lemma sorted_log_of t log :
  StronglySorted Z.lt (numbers_of log) -> StronglySorted Z.lt (numbers_of (log_of t log)).
Proof.
  induction log as [|e log IH]; [done|]. intros Hs.
  change (numbers_of (e :: log)) with (se_sequence_number e :: numbers_of log) in Hs.
  inversion Hs as [|? ? Hs' Hlt]; subst. unfold log_of. cbn [List.filter].
  destruct (in_target t e); [|by apply IH].
  change (StronglySorted Z.lt (se_sequence_number e :: numbers_of (log_of t log))).
  constructor; [by apply IH|]. rewrite Forall_forall in Hlt |- *.
  intros n (e1 & He1 & <-)%elem_of_numbers. apply elem_of_log_of in He1 as [He1 _].
  apply Hlt, elem_of_numbers. by exists e1.
Qed.

Lemma stored_summarise `{UserCode} c s p events raws new e :
  stored_batch c s p events raws new -> e ∈ new -> is_ok (summarise_stored_event e) = true.
Proof.
  intros Hb [i Hi]%list_elem_of_lookup.
  destruct (lookup_lt_is_Some_2 events i) as [ev Hev].
  { rewrite <-(sb_stored _ _ _ _ _ _ Hb). by eapply lookup_lt_Some. }
  destruct (sb_each _ _ _ _ _ _ Hb i ev Hev) as (raw & st & n & _ & Hst & Hsa). simplify_eq.
  destruct (sa_name_string _ _ _ _ _ _ _ Hsa) as (name & _ & Hname).
  unfold summarise_stored_event. by rewrite Hname.
Qed.

Section following.
Context `{UserCode} `{CaseConversion}.
Context {A : Type} `{!EventStorageAdapter A} `{!AdapterContract A}.
Context {P : Type} `{ProjectionStorageAdapter P} {Hlaws : ProjectionAdapterLaws P}.
Variables (pj : Projector) (debug : bool) (category : string) (known : string -> Prop)
  (pid : string -> string).
Hypothesis pid_inj : forall s1 s2, known s1 -> known s2 -> pid s1 = pid s2 -> s1 = s2.
Hypothesis stable : forall stream, known stream ->
  stable_projector pj category stream (pid stream).
Hypothesis quiet : forall q, is_ok (log_saved debug q) = true.
Variables (state_category : EventCategory) (persistence_interval : option nat) (now : Z)
  (save : bool).
Hypothesis elsewhere : category_name state_category <> category.
Hypothesis readable : ea_addresses (CategoryIdentifier category) = true.

Abbreviation consume := (consume pj debug category state_category persistence_interval now save).
Abbreviation kept events :=
  (fun log => log_of (CategoryIdentifier category) log = events).

(** The adapter can store the consumer's states, for as many events as there are. *)
Definition states_fit (m : Model (A := A) (P := P)) : Prop :=
  forall log, ea_holds m.2.1 log ->
    keeps_state state_category now (log_of (CategoryIdentifier category) log).

(** Anyone publishes to a stream that is not of the consumer's states; the consumer has a turn;
    it is replaced by one that loads its state, when all is saved; a projection is looked up. *)
Inductive step : Model (A := A) (P := P) -> Model (A := A) (P := P) -> Prop :=
  | step_publish stream events condition projections adapter states r adapter' :
      stream_category stream <> category_name state_category ->
      (stream_category stream = category -> known (stream_name stream)) ->
      ea_addresses (stream_identifier stream) = true ->
      (forall log, ea_holds adapter log ->
        ea_accepts log (stream_category stream) (stream_name stream) events) ->
      publish debug stream events condition adapter = (r, adapter') ->
      step (projections, (adapter, states)) (projections, (adapter', states))
  | step_consume m r m' : states_fit m -> consume m = (r, m') -> step m m'
  | step_restart projections adapter states :
      get_lag states default_partition = 0 ->
      step (projections, (adapter, states)) (projections, (adapter, new_state_store))
  | step_locate stream projections r projections' stores :
      known stream ->
      locate (StreamIdentifier category stream) (projection_name pj) KJsonValueType
        KJsonValueType projections = (r, projections') ->
      step (projections, stores) (projections', stores).

(** The first [k] events of the category are handled, and their projections stored. *)
Record following (m : Model (A := A) (P := P)) (events : list StoredEvent) (k : nat) : Prop := {
  fo_progress : at_progress_in state_category events (kept events) m.2 k;
  fo_interval : within_interval persistence_interval m.2.2;
  fo_sorted : StronglySorted Z.lt (numbers_of events);
  fo_events : Forall (of_category category known) events;
  fo_summarise : forall e, e ∈ events -> is_ok (summarise_stored_event e) = true;
  fo_shows : up_to_events pj category known pid m.1 (take k events)
}.

Lemma publish_following stream new_events condition projections adapter states r adapter' events k :
  stream_category stream <> category_name state_category ->
  (stream_category stream = category -> known (stream_name stream)) ->
  ea_addresses (stream_identifier stream) = true ->
  (forall log, ea_holds adapter log ->
    ea_accepts log (stream_category stream) (stream_name stream) new_events) ->
  publish debug stream new_events condition adapter = (r, adapter') ->
  following (projections, (adapter, states)) events k ->
  exists events', following (projections, (adapter', states)) events' k.
Proof.
  intros Hother Hknown Ha Hacc Hp [[(log & Hst & Hlog & Hs & Hlen & Hpos) Hl Hb Hm Hpart Hn] Hi Hsort
    Hev Hsum Hsh]. cbn [fst snd] in *.
  destruct (publish_cases _ _ _ _ _ _ _ _ Hst Ha (Hacc log Hst) Hp)
    as [[Hst' _]|(raws & new & (Hst' & _ & _ & Hlater) & Hbatch & _)].
  { exists events. split; [split|..]; try done. by exists log. }
  set (more := log_of (CategoryIdentifier category) new).
  assert (forall e, e ∈ more -> e ∈ new /\ se_category e = category) as Hmore.
  { intros e [He Hin]%elem_of_log_of. cbn in Hin. by rewrite bool_decide_eq_true in Hin. }
  set (states_of := stream_identifier (state_stream state_category default_partition)) in *.
  assert (log_of states_of (log ++ new) = log_of states_of log) as Hstate.
  { rewrite log_of_app, (log_of_none _ new), app_nil_r; [done|]. intros e He.
    destruct (stored_batch_elem _ _ _ _ _ _ _ Hbatch He) as (Hc & _). cbn.
    apply bool_decide_eq_false_2. intros [Hc' _]. congruence. }
  exists (events ++ more). split; cbn [fst snd].
  - split; cbn [fst snd]; try done.
    + exists (log ++ new). fold states_of in Hlen, Hpos |- *.
      split_and!; [done|by rewrite log_of_app, Hlog| |by rewrite Hstate|by rewrite Hstate].
      unfold stored_at in *. fold states_of in Hs |- *. rewrite Hstate.
      destruct (last _) as [e|]; [|done].
      destruct Hs as (state & ? & ? & ?). exists state. split_and!; [done..|].
      apply resumes_grows; [done|lia].
    + rewrite length_app. lia.
    + destruct (get_state states default_partition); [|done].
      destruct Hm as (Hres & Hj & Hsaved). split_and!; [by apply resumes_grows|done|].
      destruct Hsaved as [?|(e & He & ->)]; [by left|]. right. exists e.
      by rewrite elem_of_app; auto.
  - done.
  - apply numbers_later_sorted; [|done|apply sorted_log_of, Hbatch].
    intros e e' He He'. apply Hlater; [|by apply Hmore].
    rewrite <-Hlog in He. by apply elem_of_log_of in He as [? _].
  - apply Forall_app. split; [done|]. apply Forall_forall. intros e He.
    destruct (Hmore e He) as [Hin Hc]. split; [done|].
    destruct (stored_batch_elem _ _ _ _ _ _ _ Hbatch Hin) as (Hc' & -> & _).
    apply Hknown. congruence.
  - intros e [He|He]%elem_of_app; [by apply Hsum|].
    eapply stored_summarise; [done|by apply Hmore].
  - by rewrite take_app_le by done.
Qed.

Lemma consume_following m events k r m' :
  states_fit m -> following m events k -> consume m = (r, m') ->
  exists k', following m' events k' /\
    (is_ok r = true -> save = true -> get_lag m'.2.2 default_partition = 0) /\
    match r with Ok _ => k' = length events | Raise _ => ~ projectable pj category known events end.
Proof.
  intros Hfit [Hp Hi Hsort Hev Hsum Hsh] Hrun. destruct m as [ps w], m' as [ps' w'].
  pose proof (ap_stored _ _ _ _ _ Hp) as (log & Hst & Hlog & _).
  cbn [fst snd] in *. unfold ReadModel.consume in Hrun.
  destruct (consume_all_run debug state_category persistence_interval now
    summarise_stored_event (kept events) events
    (process_event pj debug KJsonValueType KJsonValueType)
    (adapter_source (CategoryIdentifier category)) save ps w k r ps' w')
    as (k' & Hp' & Hh & Hi' & Hlag & _); try done.
  { rewrite <-Hlog. by apply Hfit. }
  { intros l new Hl Hnew. rewrite log_of_app, Hl, (log_of_none _ [new]), app_nil_r; [done|].
    intros e ->%list_elem_of_singleton.
    assert (new ∈ log_of (state_identifier state_category) [new])
      as [_ Hin]%elem_of_log_of by (rewrite Hnew; constructor).
    cbn in *. apply bool_decide_eq_true in Hin as [Hc _]. apply bool_decide_eq_false_2. congruence. }
  { rewrite <-Hlog. by apply adapter_source_faithful. }
  destruct (handled_next pj debug category known pid pid_inj stable quiet events k k' ps r ps'
    Hev Hsh Hh) as [Hsh' Hr].
  exists k'. split; [by split|]. split; [done|]. destruct r; [done|].
  intros Hall. apply Hr. 
  eapply (projectable_prefix pj category known pid stable _ (drop (S k') events)).
  by rewrite take_drop.
Qed.

Lemma step_following m m' events k :
  step m m' -> following m events k -> exists events' k', following m' events' k'.
Proof.
  intros Hstep Hf. destruct Hstep as [stream new condition ps adapter states r adapter' Hother
    Hknown Ha Hacc Hp|m r m' Hfit Hc|ps adapter states Hlag|stream ps r ps' stores Hk Hl].
  - destruct (publish_following stream new condition ps adapter states r adapter' events k)
      as (events' & Hf'); try done. by exists events', k.
  - destruct (consume_following m events k r m' Hfit Hf Hc) as (k' & Hf' & _). by exists events, k'.
  - exists events, k. destruct Hf as [Hp Hi Hsort Hev Hsum Hsh]. cbn [fst snd] in *.
    apply restart_progress in Hp. cbn [fst snd] in Hp. rewrite Hlag, Nat.sub_0_r in Hp.
    split; try done. by intros n _ ?.
  - exists events, k. destruct Hf as [Hp Hi Hsort Hev Hsum Hsh]. split; try done.
    by eapply located_again.
Qed.

(** Nothing published, consumed or projected yet. *)
Definition fresh (m : Model (A := A) (P := P)) : Prop :=
  al_holds m.1 (fun _ => None) /\ ea_holds m.2.1 [] /\ m.2.2 = new_state_store.

Lemma fresh_following m : fresh m -> following m [] 0.
Proof.
  intros (Hal & Hst & Hnew). destruct m as [ps [adapter states]]. cbn [fst snd] in *. subst.
  split; cbn [fst snd]; try (by constructor).
  - split; cbn [fst snd]; try done.
    + exists []. by split_and!; [..|left].
    + by intros p ?%not_elem_of_nil.
    + constructor.
  - intros n _ ?. done.
  - by intros e ?%not_elem_of_nil.
  - split; [exists (fun _ => None); split; [done|]; intros stream _; by split|].
    intros stream _ Hne. by destruct Hne.
Qed.

(** C5. What is published is what is looked up, over any adapters of events and projections that
    keep their contracts, for a projector that is stable: the id of a projection depends on its
    stream only, different streams have different ids, handlers make of any event a state and
    metadata that the adapter can store and that are not null, or raise, and do not tell apart what
    the adapter does not. The consumer processes one category, whose streams are among the known
    ones, and saves its state to another, which nobody else writes; the summary of a projection for
    the log can be computed. Then, however publishes to streams (that the adapter addresses, of
    events it accepts), turns of the consumer, replacements of it when its state is saved, and
    lookups follow each other from the start, the stored projections are those of the first [k]
    events of the category, for each of its streams: none is handled twice, skipped or out of order.
    The next turn of the consumer, if the adapter can store a consumer state for each event of the
    category, brings them to all events of the category, as they are read back, and raises only if
    some stream of it cannot be projected at all. *)
Theorem read_model_follows start m :
  fresh start -> rtc step start m ->
  exists events k, src_read (category_source (mkCategory category)) m.2.1 [] = Ok events /\
    k <= length events /\ answers pj category known m.1 (take k events) /\
    forall r m', states_fit m -> consume m = (r, m') ->
      match r with
      | Ok _ => answers pj category known m'.1 events /\
          (save = true -> get_lag m'.2.2 default_partition = 0)
      | Raise _ => ~ projectable pj category known events
      end.
Proof.
  intros Hstart Hsteps.
  assert (exists events k, following m events k) as (events & k & Hf).
  { apply fresh_following in Hstart. revert Hstart. generalize (@nil StoredEvent), 0.
    induction Hsteps as [m|m m1 m2 Hs _ IH]; intros events k Hf; [by exists events, k|].
    destruct (step_following m m1 events k Hs Hf) as (events1 & k1 & Hf1).
    by apply (IH events1 k1). }
  exists events, k.
  pose proof (ap_stored _ _ _ _ _ (fo_progress _ _ _ Hf)) as (log & Hst & Hlog & _).
  split; [rewrite <-Hlog; by apply (read_target (CategoryIdentifier category))|].
  split; [apply (fo_progress _ _ _ Hf)|].
  split; [eapply shows_answers; [done|apply Hf]|].
  intros r m' Hfit Hrun.
  destruct (consume_following m events k r m' Hfit Hf Hrun) as (k' & Hf' & Hlag & Hr).
  destruct r; [|done]. subst k'. split; [|by apply Hlag].
  eapply shows_answers; [done|]. pose proof (fo_shows _ _ _ Hf') as Hs. by rewrite firstn_all in Hs.
Qed.
End following.

(** ** Witnesses *)
Module read_model_examples.
#[local] Instance read_user_code : UserCode := no_user_code.
#[local] Instance read_case : CaseConversion :=
  {| to_snake_case := fun s => s; to_kebab_case := fun s => s |}.
#[local] Instance read_regex : Regex := {| re_compile := fun _ => None |}.
#[local] Instance read_events : EventStorageAdapter AdapterState :=
  InMemoryEventStorageAdapter constant_uuid ∅ ∅.
#[local] Instance read_events_contract : AdapterContract AdapterState :=
  InMemoryEventStorageAdapter_contract constant_uuid ∅ ∅.
#[local] Instance read_projections : ProjectionStorageAdapter Projections :=
  InMemoryProjectionStorageAdapter default_convert.
#[local] Instance read_projections_laws : ProjectionAdapterLaws Projections.
Proof. apply InMemoryProjectionStorageAdapter_laws. Defined.

(** Counts the "placed" events of each order. *)
Definition orders_projector : Projector := {|
  pj_class := "OrderProjector";
  pj_name := None;
  pj_missing_handler_behaviour := RAISE;
  pj_initial_state := Ok (VInt 0);
  pj_initial_metadata := Ok (mk_obj []);
  pj_id := fun _ i => match i with StreamIdentifier _ s => Ok s | _ => Raise TypeError end;
  pj_update_metadata := fun _ _ _ => Ok (mk_obj []);
  pj_attribute := pj_attribute projection_examples.order_projector
|}.

Lemma orders_projector_stable stream :
  stable_projector orders_projector "orders" stream stream.
Proof.
  split; try done.
  - intros event state state' (n & -> & _)%projection_examples.apply_placed.
    split; [constructor|done].
  - intros ? ? ? ? [= <-]. split; [by repeat constructor|done].
  - by intros event v w <-.
  - by intros event v w <- ? ? <-.
Qed.

Abbreviation OrderModel := (Model (A := AdapterState) (P := Projections)).
Definition start : OrderModel := ([], (initial_state, new_state_store)).

Definition order_placed : NewEvent := mkNewEvent (VStr "placed") VNone 0 0.
Definition place (stream : string) (m : OrderModel) : OrderModel :=
  let '(ps, (adapter, states)) := m in
  (ps, ((publish false (mkStream "orders" stream) [order_placed] NoCondition adapter).2, states)).
Definition turn (save : bool) (m : OrderModel) : OrderModel :=
  (consume orders_projector false "orders" (mkCategory "state") None 0 save m).2.
Definition replaced (m : OrderModel) : OrderModel :=
  let '(ps, (adapter, states)) := m in (ps, (adapter, new_state_store)).
Definition count (stream : string) (m : OrderModel) : option Val :=
  match (locate (StreamIdentifier "orders" stream) "Order" KJsonValueType KJsonValueType m.1).1 with
  | Ok o => pr_state <$> o
  | Raise _ => None
  end.

Definition followed : OrderModel :=
  place "1" (replaced (turn true (place "2" (place "1" start)))).

Abbreviation order_step := (step orders_projector false "orders" (fun _ => True)
  (mkCategory "state") None 0 true).

Lemma place_step stream m : order_step m (place stream m).
Proof.
  destruct m as [ps [adapter states]]. by eapply step_publish; [| | | |apply surjective_pairing].
Qed.

Lemma memory_fits (m : OrderModel) : states_fit "orders" (mkCategory "state") 0 m.
Proof. intros log _. by split. Qed.

Lemma turn_step m : order_step m (turn true m).
Proof. eapply step_consume, surjective_pairing. apply memory_fits. Qed.

Lemma replaced_step m : get_lag m.2.2 default_partition = 0 -> order_step m (replaced m).
Proof. destruct m as [ps [adapter states]]. apply step_restart. Qed.

Lemma read_model_follows_witness :
  exists events k,
    src_read (category_source (mkCategory "orders")) followed.2.1 [] = Ok events /\
    k <= length events /\
    answers orders_projector "orders" (fun _ => True) followed.1 (take k events) /\
    answers orders_projector "orders" (fun _ => True) (turn true followed).1 events.
Proof.
  destruct (read_model_follows orders_projector false "orders" (fun _ => True) (fun s => s)
    (fun _ _ _ _ H => H) (fun s _ => orders_projector_stable s) (fun _ => eq_refl)
    (mkCategory "state") None 0 true) with (start := start) (m := followed)
    as (events & k & Hread & Hk & Ha & Hnext).
  - done.
  - done.
  - split; [apply projection_examples.no_projections_hold|].
    split; [apply initial_store_inv|done].
  - eapply rtc_l; [apply (place_step "1")|]. eapply rtc_l; [apply (place_step "2")|].
    eapply rtc_l; [apply turn_step|]. eapply rtc_l; [|eapply rtc_once, (place_step "1")].
    apply replaced_step. vm_compute. reflexivity.
  - exists events, k. split; [exact Hread|]. split; [exact Hk|]. split; [exact Ha|].
    specialize (Hnext _ _ (memory_fits _) (surjective_pairing _)).
    assert (is_ok (consume orders_projector false "orders" (mkCategory "state") None 0 true
      followed).1 = true) as Hok by (vm_compute; reflexivity).
    unfold turn. destruct (consume _ _ _ _ _ _ _ _) as [[[]|] m']; [apply Hnext|discriminate Hok].
Defined.

Example followed_counts :
  (count "1" followed, count "2" followed) = (Some (VInt 1), Some (VInt 1)) /\
  (count "1" (turn true followed), count "2" (turn true followed)) =
    (Some (VInt 2), Some (VInt 1)).
Proof. split; vm_compute; reflexivity. Qed.

(** A consumer that does not save its state, replaced, handles the events again: projections
    are not kept with the state, and handlers are run twice. *)
Example handled_twice :
  count "1" (turn false (replaced (turn false (place "1" start)))) = Some (VInt 2).
Proof. vm_compute. reflexivity. Qed.
End read_model_examples.
