(* ===== verification/ConnectionSettings.v ===== *)
(** The settings of a connection ([persistence/postgres/settings.py]): how they are shown and
    the connection string they make. *)
From Stdlib Require Import Ascii DecimalString DecimalZ DecimalFacts.
From S2P Require Import Prelude.

Record TableSettings := mkTableSettings { table_name : string }.

Record ConnectionSettings := mkConnectionSettings {
  host : string;
  port : Z;
  dbname : string;
  user : string;
  password : string
}.

(** [str(n)]. *)
Definition str_int (n : Z) : string := NilZero.string_of_int (Z.to_int n).

Fixpoint stars (n : nat) : string :=
  match n with O => EmptyString | S n => String "*" (stars n) end.

(** [__repr__] *)
Definition repr_settings (settings : ConnectionSettings) : string :=
  ("ConnectionSettings(" +:+ "host=" +:+ host settings +:+ ", " +:+
   "port=" +:+ str_int (port settings) +:+ ", " +:+ "dbname=" +:+ dbname settings +:+ ", " +:+
   "user=" +:+ user settings +:+ ", " +:+
   "password=" +:+ stars (String.length (password settings)) +:+ ")")%string.

Definition to_connection_string (settings : ConnectionSettings) : string :=
  let userspec := (user settings +:+ ":" +:+ password settings)%string in
  let hostspec := (host settings +:+ ":" +:+ str_int (port settings))%string in
  ("postgresql://" +:+ userspec +:+ "@" +:+ hostspec +:+ "/" +:+ dbname settings)%string.

(** * Theorems *)

Record ConnectionParts := mkConnectionParts {
  user_part : string; password_part : string;
  host_part : string; port_part : string; dbname_part : string
}.

(** How such a string is read: each part up to its delimiter. *)
Definition read_connection_string (s : string) : option ConnectionParts :=
  s ← strip_prefix "postgresql://" s;
  '(user, s) ← cut ":" s;
  '(password, s) ← cut "@" s;
  '(host, s) ← cut ":" s;
  '(port, dbname) ← cut "/" s;
  Some (mkConnectionParts user password host port dbname).

Lemma cons_app c (s1 s2 : string) : (String c s1 +:+ s2) = String c (s1 +:+ s2).
Proof. done. Qed.

Lemma app_cons_app (s1 s2 s3 : string) c :
  ((s1 +:+ String c s2) +:+ s3) = s1 +:+ String c (s2 +:+ s3).
Proof. induction s1 as [|c' s1 IH]; [done|]. by rewrite !cons_app, IH. Qed.

Lemma uint_digits d : lacks "/" (NilEmpty.string_of_uint d) = true.
Proof. by induction d. Qed.

Lemma str_int_digits n : lacks "/" (str_int n) = true.
Proof.
  unfold str_int, NilZero.string_of_int, NilZero.string_of_uint.
  destruct (Z.to_int n) as [d|d]; destruct d; apply uint_digits || reflexivity.
Qed.

Lemma to_int_norm n : Decimal.norm (Z.to_int n) = Z.to_int n.
Proof. by rewrite <-to_of, DecimalZ.of_to. Qed.

Lemma str_int_inj n m : str_int n = str_int m -> n = m.
Proof.
  assert (forall k, NilZero.int_of_string (str_int k) = Some (Z.to_int k)) as Hread.
  { intros k. pose proof (to_int_norm k) as Hnorm. apply NilZero.isi; intros E; rewrite E in Hnorm;
      discriminate Hnorm. }
  intros Heq. apply DecimalZ.to_int_inj. pose proof (Hread n) as Hn. rewrite Heq, Hread in Hn.
  congruence.
Qed.

(** Settings whose delimiters are where the string has them. *)
Definition unreserved (settings : ConnectionSettings) : Prop :=
  lacks ":" (user settings) = true /\ lacks "@" (password settings) = true /\
  lacks ":" (host settings) = true.

Lemma connection_string_parts settings :
  to_connection_string settings =
  "postgresql://" +:+ (user settings +:+ String ":" (password settings +:+ String "@"
    (host settings +:+ String ":" (str_int (port settings) +:+ String "/" (dbname settings))))).
Proof.
  unfold to_connection_string. cbn zeta. f_equal.
  change (":" +:+ ?s)%string with (String ":" s).
  by rewrite !app_cons_app, !cons_app.
Qed.

(** A connection string is read back part by part, when no part but the password and the
    name of the database has a colon and the password has no at sign; so such settings are
    told apart by their connection strings. *)
Theorem connection_string_read settings other :
  unreserved settings -> unreserved other ->
  read_connection_string (to_connection_string settings) =
    Some (mkConnectionParts (user settings) (password settings) (host settings)
      (str_int (port settings)) (dbname settings)) /\
  (to_connection_string settings = to_connection_string other -> settings = other).
Proof.
  assert (forall s, unreserved s -> read_connection_string (to_connection_string s) =
    Some (mkConnectionParts (user s) (password s) (host s) (str_int (port s)) (dbname s))) as Hread.
  { intros s (Hu & Hp & Hh). unfold read_connection_string.
    rewrite connection_string_parts, strip_prefix_app. cbn [mbind option_bind].
    rewrite cut_app by done. cbn. rewrite cut_app by done. cbn.
    rewrite cut_app by done. cbn. rewrite cut_app by apply str_int_digits. done. }
  intros Hs Ho. split; [by apply Hread|]. intros Heq.
  pose proof (Hread other Ho) as Hother. rewrite <-Heq, (Hread settings Hs) in Hother.
  destruct settings, other. injection Hother as -> -> -> Hport ->. cbn in *.
  by rewrite (str_int_inj _ _ Hport).
Qed.

(** What is shown does not depend on the password, but for its length. *)
Theorem repr_hides_password h p d u password1 password2 :
  String.length password1 = String.length password2 ->
  repr_settings (mkConnectionSettings h p d u password1) =
  repr_settings (mkConnectionSettings h p d u password2).
Proof. unfold repr_settings. cbn. by intros ->. Qed.

(** Nothing is escaped: a password with an at sign is cut short, and the host with it. *)
Example password_with_at_sign :
  read_connection_string (to_connection_string
    (mkConnectionSettings "db" 5432 "events" "app" "s3cret@2024")) =
  Some (mkConnectionParts "app" "s3cret" "2024@db" "5432" "events").
Proof. reflexivity. Qed.

Lemma connection_string_read_witness :
  let settings := mkConnectionSettings "db" 5432 "events" "app" "s3cret" in
  read_connection_string "postgresql://app:s3cret@db:5432/events" =
    Some (mkConnectionParts "app" "s3cret" "db" "5432" "events") /\
  to_connection_string settings <>
    to_connection_string (mkConnectionSettings "db" 5433 "events" "app" "s3cret").
Proof.
  intros settings.
  assert (forall n, unreserved (mkConnectionSettings "db" n "events" "app" "s3cret")) as Hok.
  { intros n. repeat split. }
  destruct (connection_string_read settings _ (Hok 5432%Z) (Hok 5433%Z)) as [Hread Hinj].
  split; [exact Hread|]. intros Heq%Hinj. discriminate Heq.
Defined.
