(* ===== verification/Process.v ===== *)
(** The status of a process made of others: [processing/process/]. *)
From S2P Require Import Prelude.

Inductive ProcessStatus :=
  | INITIALISED | STARTING | WAITING | RUNNING | STOPPING | STOPPED | ERRORED.

#[export] Instance ProcessStatus_eq_dec : EqDecision ProcessStatus.
Proof. solve_decision. Defined.

Definition is_status (s status : ProcessStatus) : bool := bool_decide (status = s).

Definition determine_multi_process_status (statuses : list ProcessStatus) : ProcessStatus :=
  if existsb (is_status ERRORED) statuses then ERRORED
  else if forallb (is_status STOPPED) statuses then STOPPED
  else if existsb (is_status STOPPING) statuses then STOPPING
  else if existsb (is_status STOPPED) statuses then STOPPING
  else if existsb (is_status STARTING) statuses then STARTING
  else if forallb (is_status INITIALISED) statuses then INITIALISED
  else if forallb (is_status WAITING) statuses then WAITING
  else if forallb (fun s => is_status RUNNING s || is_status WAITING s) statuses then RUNNING
  else if forallb (fun s => is_status INITIALISED s || is_status WAITING s || is_status RUNNING s)
    statuses then STARTING
  else if existsb (is_status RUNNING) statuses then RUNNING
  else if existsb (is_status WAITING) statuses then WAITING
  else INITIALISED.

(** What the status of the whole says of the parts. *)
Definition status_means (statuses : list ProcessStatus) (status : ProcessStatus) : Prop :=
  match status with
  | ERRORED => ERRORED ∈ statuses
  | STOPPED => forall s, s ∈ statuses -> s = STOPPED
  | STOPPING => ERRORED ∉ statuses /\ (STOPPING ∈ statuses \/ STOPPED ∈ statuses) /\
      exists s, s ∈ statuses /\ s <> STOPPED
  | STARTING => ERRORED ∉ statuses /\ STOPPING ∉ statuses /\ STOPPED ∉ statuses /\
      (STARTING ∈ statuses \/
       INITIALISED ∈ statuses /\ (WAITING ∈ statuses \/ RUNNING ∈ statuses))
  | INITIALISED => statuses <> [] /\ forall s, s ∈ statuses -> s = INITIALISED
  | WAITING => statuses <> [] /\ forall s, s ∈ statuses -> s = WAITING
  | RUNNING => RUNNING ∈ statuses /\ forall s, s ∈ statuses -> s = RUNNING \/ s = WAITING
  end.

Lemma existsb_status s statuses : existsb (is_status s) statuses = true <-> s ∈ statuses.
Proof.
  rewrite existsb_exists. setoid_rewrite <-list_elem_of_In. unfold is_status.
  setoid_rewrite bool_decide_eq_true. naive_solver.
Qed.

Lemma existsb_status_false s statuses : existsb (is_status s) statuses = false <-> s ∉ statuses.
Proof. rewrite <-not_true_iff_false, existsb_status. done. Qed.

Lemma forallb_status (f : ProcessStatus -> bool) statuses :
  forallb f statuses = true <-> forall s, s ∈ statuses -> f s = true.
Proof. rewrite forallb_forall. by setoid_rewrite <-list_elem_of_In. Qed.

Lemma forallb_status_false (f : ProcessStatus -> bool) statuses :
  forallb f statuses = false -> exists s, s ∈ statuses /\ f s = false.
Proof.
  induction statuses as [|s l IH]; cbn; [done|]. intros [H|H]%andb_false_iff.
  - exists s. split; [constructor|done].
  - destruct (IH H) as (s' & ? & ?). exists s'. split; [by constructor|done].
Qed.

(** Turns statements about all statuses into one about each constructor. *)
Ltac each_status :=
  repeat match goal with
  | H : forall s, s ∈ ?l -> _ |- _ =>
      pose proof (H INITIALISED); pose proof (H STARTING); pose proof (H WAITING);
      pose proof (H RUNNING); pose proof (H STOPPING); pose proof (H STOPPED);
      pose proof (H ERRORED); clear H
  | H : _ /\ _ |- _ => destruct H
  | H : exists s, _ |- _ => let s := fresh in destruct H as (s & ? & ?); destruct s
  end.

Lemma status_means_unique statuses s1 s2 :
  status_means statuses s1 -> status_means statuses s2 -> s1 = s2.
Proof.
  destruct (decide (statuses = [])) as [->|Hne].
  - pose proof (@not_elem_of_nil ProcessStatus).
    destruct s1, s2; cbn; try done; intros; each_status; intuition (try congruence; naive_solver).
  - assert (exists x, x ∈ statuses) as [x Hx].
    { destruct statuses as [|x l]; [done|]. exists x. constructor. }
    destruct s1, s2; try done; cbn; intros; each_status; destruct x;
      intuition (try congruence; done).
Qed.

(** The status of the whole is exactly what its parts say: [ERRORED] if any errored;
    [STOPPED] if all stopped (also when there are none); [STOPPING] if some but not all are
    down; [INITIALISED], [WAITING] if all are; [RUNNING] if all run or wait and one runs;
    [STARTING] in every other case. Each list has one such status, so that order and
    repetition do not count, and the last three returns of the code are never reached. *)
Theorem multi_process_status_spec statuses status :
  determine_multi_process_status statuses = status <-> status_means statuses status.
Proof.
  assert (status_means statuses (determine_multi_process_status statuses)) as Hspec.
  { unfold determine_multi_process_status.
    destruct (existsb (is_status ERRORED) statuses) eqn:E1;
      [by apply existsb_status in E1|apply existsb_status_false in E1].
    destruct (forallb (is_status STOPPED) statuses) eqn:E2.
    { rewrite forallb_status in E2. intros s Hs. by apply E2, bool_decide_eq_true in Hs. }
    apply forallb_status_false in E2 as (s2 & Hs2 & E2%bool_decide_eq_false).
    destruct (existsb (is_status STOPPING) statuses) eqn:E3.
    { apply existsb_status in E3. split; [done|]. split; [by left|by exists s2]. }
    destruct (existsb (is_status STOPPED) statuses) eqn:E4.
    { apply existsb_status in E4. split; [done|]. split; [by right|by exists s2]. }
    apply existsb_status_false in E3, E4.
    destruct (existsb (is_status STARTING) statuses) eqn:E5.
    { apply existsb_status in E5. split_and!; [done..|by left]. }
    apply existsb_status_false in E5.
    assert (statuses <> []) as Hne by (intros ->; by apply not_elem_of_nil in Hs2).
    destruct (forallb (is_status INITIALISED) statuses) eqn:E6.
    { rewrite forallb_status in E6. split; [done|].
      intros s Hs. by apply E6, bool_decide_eq_true in Hs. }
    destruct (forallb (is_status WAITING) statuses) eqn:E7.
    { rewrite forallb_status in E7. split; [done|].
      intros s Hs. by apply E7, bool_decide_eq_true in Hs. }
    apply forallb_status_false in E6 as (s6 & Hs6 & E6%bool_decide_eq_false).
    apply forallb_status_false in E7 as (s7 & Hs7 & E7%bool_decide_eq_false).
    destruct (forallb (fun s => is_status RUNNING s || is_status WAITING s) statuses) eqn:E8.
    { rewrite forallb_status in E8.
      assert (forall s, s ∈ statuses -> s = RUNNING \/ s = WAITING) as Hall.
      { intros s Hs%E8. unfold is_status in Hs. rewrite orb_true_iff, !bool_decide_eq_true in Hs.
        done. }
      split; [by destruct (Hall s7 Hs7) as [->|]|done]. }
    apply forallb_status_false in E8 as (s8 & Hs8 & E8).
    assert (forallb (fun s => is_status INITIALISED s || is_status WAITING s ||
      is_status RUNNING s) statuses = true) as ->.
    { apply forallb_status. intros s Hs. by destruct s. }
    split; [done|]. split; [done|]. split; [done|]. right. split; [by destruct s8|].
    destruct s6; auto; done. }
  split; [by intros <-|]. by apply status_means_unique.
Qed.
