(* ===== verification/LockManager.v ===== *)
(** Named locks in one process: [processing/locks/base.py] and [memory.py]. Each
    [async with] is a task cut at its [await] points; lock objects live in a heap, because
    the manager drops the object of a name from its table while tasks may still use it. *)
From S2P Require Import Prelude.

(** The [Lock] handed to the body ([locks/base.py]), without its waiting time. *)
Record Lock := mkLock { lk_name : string; lk_locked : bool; lk_timed_out : bool }.

(** [try_lock] or [wait_for_lock], the latter with its timeout. *)
Inductive LockMode := Try | Wait (timeout : option Z).

(** Where an [async with] stands: started; acquiring an object; in the body, with what it
    was given and the object it used; left. *)
Inductive LockTask :=
  | Entering (mode : LockMode) (name : string)
  | Acquiring (mode : LockMode) (name : string) (object : nat)
  | InBody (mode : LockMode) (given : Lock) (object : nat)
  | Left.

Record LockState := mkLockState {
  ls_locks : gmap string nat;      (** [_locks]: the object of each name *)
  ls_objects : gmap nat bool;      (** the heap: whether each object is locked *)
  ls_tasks : gmap nat LockTask
}.

Definition initial_locks : LockState := mkLockState ∅ ∅ ∅.

(** [self._locks[name]] on a [defaultdict]: a fresh object is allocated for a new name. *)
Definition get_control (name : string) (st : LockState) : nat * LockState :=
  match ls_locks st !! name with
  | Some object => (object, st)
  | None =>
      let object := fresh (dom (ls_objects st)) in
      (object, mkLockState (<[name := object]> (ls_locks st))
        (<[object := false]> (ls_objects st)) (ls_tasks st))
  end.

Definition set_task (id : nat) (task : LockTask) (st : LockState) : LockState :=
  mkLockState (ls_locks st) (ls_objects st) (<[id := task]> (ls_tasks st)).
Definition set_object (object : nat) (locked : bool) (st : LockState) : LockState :=
  mkLockState (ls_locks st) (<[object := locked]> (ls_objects st)) (ls_tasks st).
(** [if name in self._locks: self._locks.pop(name)]. *)
Definition pop_name (name : string) (st : LockState) : LockState :=
  mkLockState (delete name (ls_locks st)) (ls_objects st) (ls_tasks st).

Definition is_locked (object : nat) (st : LockState) : bool :=
  default false (ls_objects st !! object).

(** Leaving the body, by its end or by an exception: what is held is released, and the name
    is dropped from the table ([try_lock] without the lock drops nothing). *)
Definition leave (mode : LockMode) (given : Lock) (object : nat) (st : LockState) : LockState :=
  if lk_locked given then pop_name (lk_name given) (set_object object false st)
  else match mode with Try => st | Wait _ => pop_name (lk_name given) st end.

Inductive lock_step : LockState -> LockState -> Prop :=
  | lock_enter st id mode name :
      ls_tasks st !! id = None -> lock_step st (set_task id (Entering mode name) st)
  | lock_refused st id name object st' :
      (** [control.locked()] decides at once. *)
      ls_tasks st !! id = Some (Entering Try name) -> get_control name st = (object, st') ->
      is_locked object st' = true ->
      lock_step st (set_task id (InBody Try (mkLock name false false) object) st')
  | lock_control st id mode name object st' :
      ls_tasks st !! id = Some (Entering mode name) -> get_control name st = (object, st') ->
      (mode = Try -> is_locked object st' = false) ->
      lock_step st (set_task id (Acquiring mode name object) st')
  | lock_acquire st id mode name object :
      ls_tasks st !! id = Some (Acquiring mode name object) -> is_locked object st = false ->
      lock_step st (set_task id (InBody mode (mkLock name true false) object)
        (set_object object true st))
  | lock_time_out st id name timeout object :
      ls_tasks st !! id = Some (Acquiring (Wait (Some timeout)) name object) ->
      lock_step st
        (set_task id (InBody (Wait (Some timeout)) (mkLock name false true) object) st)
  | lock_cancel st id mode name object :
      (** Cancelled while it waits: the [finally] of [wait_for_lock] runs. *)
      ls_tasks st !! id = Some (Acquiring mode name object) ->
      lock_step st (set_task id Left (leave mode (mkLock name false false) object st))
  | lock_leave st id mode given object :
      ls_tasks st !! id = Some (InBody mode given object) ->
      lock_step st (set_task id Left (leave mode given object st)).

(** Without [wait_for_lock] nothing ever waits: [try_lock] acquires an object it just
    found unlocked before any other task runs. *)
Inductive try_step : LockState -> LockState -> Prop :=
  | try_start st id name :
      ls_tasks st !! id = None -> try_step st (set_task id (Entering Try name) st)
  | try_enter st id name object st' :
      ls_tasks st !! id = Some (Entering Try name) -> get_control name st = (object, st') ->
      try_step st
        (if is_locked object st'
         then set_task id (InBody Try (mkLock name false false) object) st'
         else set_task id (InBody Try (mkLock name true false) object)
           (set_object object true st'))
  | try_leave st id given object :
      ls_tasks st !! id = Some (InBody Try given object) ->
      try_step st (set_task id Left (leave Try given object st)).

(** Task [id] is in its body with the lock of that name. *)
Definition holds_lock (st : LockState) (id : nat) (name : string) : Prop :=
  exists mode object, ls_tasks st !! id = Some (InBody mode (mkLock name true false) object).

(** ** [try_lock] alone excludes *)

Record try_inv (st : LockState) : Prop := {
  ti_held : forall id mode given object, ls_tasks st !! id = Some (InBody mode given object) ->
    lk_locked given = true ->
    ls_locks st !! lk_name given = Some object /\ ls_objects st !! object = Some true;
  ti_free : forall name object, ls_locks st !! name = Some object ->
    ls_objects st !! object = Some true ->
    exists id mode, ls_tasks st !! id = Some (InBody mode (mkLock name true false) object);
  ti_once : forall i j mi mj gi gj object, ls_tasks st !! i = Some (InBody mi gi object) ->
    ls_tasks st !! j = Some (InBody mj gj object) ->
    lk_locked gi = true -> lk_locked gj = true -> i = j;
  ti_objects : forall name object, ls_locks st !! name = Some object ->
    is_Some (ls_objects st !! object);
  ti_names : forall n1 n2 object, ls_locks st !! n1 = Some object ->
    ls_locks st !! n2 = Some object -> n1 = n2
}.

Lemma get_control_inv name st object st' :
  try_inv st -> get_control name st = (object, st') ->
  try_inv st' /\ ls_tasks st' = ls_tasks st /\ ls_locks st' !! name = Some object /\
  exists locked, ls_objects st' !! object = Some locked.
Proof.
  intros Hinv. unfold get_control. destruct (ls_locks st !! name) as [o|] eqn:Ho.
  { intros [= <- <-]. destruct (ti_objects _ Hinv _ _ Ho) as [b Hb]. eauto. }
  intros [= <- <-]. set (o := fresh (dom (ls_objects st))).
  assert (ls_objects st !! o = None) as Hfresh by apply not_elem_of_dom, is_fresh.
  cbn. split; [|split; [done|split; [apply lookup_insert_eq|
    exists false; apply lookup_insert_eq]]].
  destruct Hinv as [Hheld Hfree Honce Hobj Hnames]. split; cbn.
  - intros id w g ob Hid Hl. destruct (Hheld _ _ _ _ Hid Hl) as [H1 H2].
    rewrite !lookup_insert_ne; [done|congruence..].
  - intros n ob [[_ <-]|[_ Hn]]%lookup_insert_Some [[He [=]]|[Hne Hl]]%lookup_insert_Some.
    + congruence.
    + by apply (Hfree n).
  - done.
  - intros n ob. destruct (decide (name = n)) as [<-|Hn].
    + rewrite lookup_insert_eq. intros [= <-]. rewrite lookup_insert_eq. by eexists.
    + rewrite lookup_insert_ne by done. intros [b Hob]%Hobj.
      destruct (decide (o = ob)) as [<-|]; [rewrite lookup_insert_eq|rewrite lookup_insert_ne by done];
        by eexists.
  - intros n1 n2 ob. destruct (decide (name = n1)) as [<-|H1], (decide (name = n2)) as [<-|H2];
      rewrite ?lookup_insert_eq, ?lookup_insert_ne by done; try done.
    + intros [= <-] [b Hob]%Hobj. congruence.
    + intros [b Hob]%Hobj [= <-]. congruence.
    + apply Hnames.
Qed.

(** A step of a task that ends up outside a body, or in one without the lock. *)
Lemma set_task_inv id task st :
  try_inv st ->
  (forall mode given object, ls_tasks st !! id = Some (InBody mode given object) ->
    lk_locked given = false) ->
  (forall mode given object, task = InBody mode given object -> lk_locked given = false) ->
  try_inv (set_task id task st).
Proof.
  intros [Hheld Hfree Honce Hobj Hnames] Hbefore Htask. split; cbn; [| | |done|done].
  - intros i m g o [[<- ->]|[_ Hi]]%lookup_insert_Some Hl; [|eauto].
    by rewrite (Htask _ _ _ eq_refl) in Hl.
  - intros n o Hn Ho. destruct (Hfree n o Hn Ho) as (i & m & Hi). exists i, m.
    rewrite lookup_insert_ne; [done|]. intros <-. by apply Hbefore in Hi.
  - intros i j mi mj gi gj o [[<- ->]|[_ Hi]]%lookup_insert_Some
      [[<- Ej]|[_ Hj]]%lookup_insert_Some Hli Hlj; [done|..|eauto].
    + by rewrite (Htask _ _ _ eq_refl) in Hli.
    + by rewrite (Htask _ _ _ Ej) in Hlj.
Qed.

Lemma acquire_inv id name object st :
  try_inv st -> ls_tasks st !! id = Some (Entering Try name) ->
  ls_locks st !! name = Some object -> ls_objects st !! object = Some false ->
  try_inv (set_task id (InBody Try (mkLock name true false) object) (set_object object true st)).
Proof.
  intros [Hheld Hfree Honce Hobj Hnames] Hid Hname Hobject. split; cbn; [| | | |done].
  - intros i m g o [[<- [= <- <- <-]]|[_ Hi]]%lookup_insert_Some Hl; cbn.
    { by rewrite lookup_insert_eq. }
    destruct (Hheld _ _ _ _ Hi Hl). split; [done|].
    rewrite lookup_insert_ne; [done|]. intros <-. congruence.
  - intros n o Hn [[<- _]|[Hne Ho]]%lookup_insert_Some.
    + rewrite (Hnames _ _ _ Hn Hname). exists id, Try. apply lookup_insert_eq.
    + destruct (Hfree n o Hn Ho) as (i & m & Hi). exists i, m.
      rewrite lookup_insert_ne; [done|]. intros <-. congruence.
  - intros i j mi mj gi gj o [[<- Ei]|[_ Hi]]%lookup_insert_Some
      [[<- Ej]|[_ Hj]]%lookup_insert_Some Hli Hlj; [done|..|eauto].
    + injection Ei as <- <- <-. destruct (Hheld _ _ _ _ Hj Hlj). congruence.
    + injection Ej as <- <- <-. destruct (Hheld _ _ _ _ Hi Hli). congruence.
  - intros n o Hn. apply lookup_insert_is_Some. destruct (decide (object = o)); eauto.
Qed.

Lemma leave_inv id given object st :
  try_inv st -> ls_tasks st !! id = Some (InBody Try given object) ->
  try_inv (set_task id Left (leave Try given object st)).
Proof.
  intros Hinv Hid. unfold leave. destruct (lk_locked given) eqn:Hlocked.
  2: { apply set_task_inv; [done| |done]. rewrite Hid. by intros m g o [= <- <- <-]. }
  destruct Hinv as [Hheld Hfree Honce Hobj Hnames].
  destruct (Hheld _ _ _ _ Hid Hlocked) as [Hname Htrue].
  assert (forall i m g o, i <> id -> ls_tasks st !! i = Some (InBody m g o) ->
    lk_locked g = true -> o <> object) as Hother.
  { intros i m g o Hne Hi Hl ->. apply Hne. eauto. }
  split; cbn.
  - intros i m g o [[_ [=]]|[Hne Hi]]%lookup_insert_Some Hl.
    destruct (Hheld _ _ _ _ Hi Hl) as [Hn Ho].
    assert (o <> object) by eauto. rewrite lookup_insert_ne by done.
    split; [|done]. rewrite lookup_delete_ne; [done|]. intros Heq. congruence.
  - intros n o [Hne Hn]%lookup_delete_Some [[_ [=]]|[Hno Ho]]%lookup_insert_Some.
    destruct (Hfree n o Hn Ho) as (i & m & Hi). exists i, m.
    rewrite lookup_insert_ne; [done|]. intros <-. rewrite Hid in Hi. congruence.
  - intros i j mi mj gi gj o [[_ [=]]|[_ Hi]]%lookup_insert_Some
      [[_ [=]]|[_ Hj]]%lookup_insert_Some. eauto.
  - intros n o [_ Hn]%lookup_delete_Some. apply lookup_insert_is_Some.
    destruct (decide (object = o)); eauto.
  - intros n1 n2 o [_ H1]%lookup_delete_Some [_ H2]%lookup_delete_Some. eauto.
Qed.

Lemma try_step_inv st st' : try_inv st -> try_step st st' -> try_inv st'.
Proof.
  intros Hinv. destruct 1 as [st id name Hid|st id name o st' Hid Hc|st id given o Hid].
  - apply set_task_inv; [done| |done]. by rewrite Hid.
  - destruct (get_control_inv _ _ _ _ Hinv Hc) as (Hinv' & Ht & Hn & b & Hb).
    unfold is_locked. rewrite Hb. destruct b; cbn.
    + apply set_task_inv; [done|by rewrite Ht, Hid|]. by intros m g o' [= <- <- <-].
    + apply acquire_inv; [done|by rewrite Ht|done..].
  - by apply leave_inv.
Qed.

Lemma initial_inv : try_inv initial_locks.
Proof. split; cbn; intros *; rewrite lookup_empty; done. Qed.

Lemma try_step_lock_steps st st' : try_step st st' -> rtc lock_step st st'.
Proof.
  destruct 1 as [st id name Hid|st id name o st' Hid Hc|st id given o Hid].
  - by apply rtc_once, lock_enter.
  - destruct (is_locked o st') eqn:Hl; [by eapply rtc_once, lock_refused|].
    eapply rtc_l; [by eapply lock_control|].
    replace (set_task id (InBody Try (mkLock name true false) o) (set_object o true st')) with
      (set_task id (InBody Try (mkLock name true false) o)
        (set_object o true (set_task id (Acquiring Try name o) st'))).
    { apply rtc_once. eapply lock_acquire; [apply lookup_insert_eq|done]. }
    unfold set_task, set_object. cbn. by rewrite insert_insert_eq.
  - by apply rtc_once, lock_leave.
Qed.

Lemma try_reachable_inv st : rtc try_step initial_locks st -> try_inv st.
Proof.
  intros Hst. pose proof initial_inv as Hinv. revert Hinv.
  induction Hst as [|? ? ? Hstep _ IH]; [done|]. intros Hinv. apply IH. by eapply try_step_inv.
Qed.

Lemma held_once st i j name :
  try_inv st -> holds_lock st i name -> holds_lock st j name -> i = j.
Proof.
  intros Hst (mi & oi & Hi) (mj & oj & Hj).
  destruct (ti_held _ Hst _ _ _ _ Hi eq_refl) as [Hni _].
  destruct (ti_held _ Hst _ _ _ _ Hj eq_refl) as [Hnj _].
  cbn in Hni, Hnj. assert (oi = oj) as -> by congruence. by eapply (ti_once _ Hst).
Qed.

Lemma refused_held st name object st' :
  try_inv st -> get_control name st = (object, st') ->
  is_locked object st' = true <-> exists i, holds_lock st i name.
Proof.
  intros Hst Hc. destruct (get_control_inv _ _ _ _ Hst Hc) as (Hst' & Ht & Hn & b & Hb).
  unfold is_locked, holds_lock. rewrite Hb. cbn. rewrite <-Ht. split.
  - intros ->. destruct (ti_free _ Hst' _ _ Hn Hb) as (i & m & Hi). eauto.
  - intros (i & m & o & Hi). destruct (ti_held _ Hst' _ _ _ _ Hi eq_refl) as [Hni Hoi].
    cbn in Hni. congruence.
Qed.

(** C31. As long as every task uses [try_lock], at most one task at a time is inside its body
    with the lock of a name; and a task that asks for a name is given the lock exactly when
    no task holds it, however the object of the name was dropped and made anew. *)
Theorem try_lock_excludes st id name object st' :
  rtc try_step initial_locks st ->
  ls_tasks st !! id = Some (Entering Try name) -> get_control name st = (object, st') ->
  (forall i j n, holds_lock st i n -> holds_lock st j n -> i = j) /\
  (is_locked object st' = true <-> exists i, holds_lock st i name).
Proof.
  intros Hst%try_reachable_inv Hid Hc. split.
  - intros i j n. by apply held_once.
  - by apply refused_held.
Qed.

(** ** [wait_for_lock] does not exclude *)

Lemma try_lock_gets_new st id name :
  ls_tasks st !! id = None -> ls_locks st !! name = None ->
  exists st', rtc lock_step st st' /\ holds_lock st' id name /\
    forall i m, holds_lock st i m -> holds_lock st' i m.
Proof.
  intros Hid Hname. set (st1 := set_task id (Entering Try name) st).
  destruct (get_control name st1) as [o st2] eqn:Hc.
  assert (is_locked o st2 = false /\ ls_tasks st2 = ls_tasks st1) as [Hfree Htasks].
  { unfold get_control, st1 in Hc. cbn in Hc. rewrite Hname in Hc. injection Hc as <- <-.
    split; [|done]. unfold is_locked. cbn. by rewrite lookup_insert_eq. }
  eexists. split_and!.
  - eapply rtc_l; [by apply lock_enter|]. fold st1.
    eapply rtc_l; [eapply lock_control; [apply lookup_insert_eq|done|done]|].
    apply rtc_once. eapply lock_acquire; [apply lookup_insert_eq|done].
  - exists Try, o. apply lookup_insert_eq.
  - intros i m (mode & o' & Hi). exists mode, o'. assert (i <> id) by congruence. cbn.
    rewrite !lookup_insert_ne by done. rewrite Htasks. cbn. by rewrite lookup_insert_ne.
Qed.

(** C32. The manager drops a name when its holder leaves, also when another task waits for
    it: whenever a task waits with [wait_for_lock] on the object that a holder of the name
    uses, the holder can leave, the waiter get that object, and a third task take a new
    object under the same name with [try_lock]; then both are in their bodies with the lock
    of that name. *)
Theorem wait_for_lock_shares st i j k name timeout mode object timed_out :
  ls_tasks st !! i = Some (InBody mode (mkLock name true timed_out) object) ->
  ls_tasks st !! j = Some (Acquiring (Wait timeout) name object) ->
  ls_tasks st !! k = None ->
  exists st', rtc lock_step st st' /\ j <> k /\ holds_lock st' j name /\ holds_lock st' k name.
Proof.
  intros Hi Hj Hk. assert (i <> j /\ i <> k /\ j <> k) as (Hij & Hik & Hjk).
  { split_and!; congruence. }
  set (st1 := set_task i Left (leave mode (mkLock name true timed_out) object st)).
  set (st2 := set_task j (InBody (Wait timeout) (mkLock name true false) object)
    (set_object object true st1)).
  destruct (try_lock_gets_new st2 k name) as (st' & Hst' & Hk' & Hkeep).
  { cbn. by rewrite !lookup_insert_ne by done. }
  { cbn. apply lookup_delete_eq. }
  exists st'. split_and!; [|done| |done].
  - eapply rtc_l; [by eapply lock_leave|]. eapply rtc_l; [|exact Hst'].
    eapply lock_acquire; [cbn; by rewrite lookup_insert_ne|].
    unfold is_locked. cbn. by rewrite lookup_insert_eq.
  - apply Hkeep. exists (Wait timeout), object. apply lookup_insert_eq.
Qed.

(** ** Witnesses *)

(** Task 0 holds the lock of a subscriber's node, task 1 waits for it. *)
Definition contended_locks : LockState :=
  mkLockState {[ "node" := 0%nat ]} {[ 0%nat := true ]}
    {[ 0%nat := InBody (Wait None) (mkLock "node" true false) 0;
       1%nat := Acquiring (Wait None) "node" 0 ]}.

Lemma contended_reachable : rtc lock_step initial_locks contended_locks.
Proof.
  eapply rtc_l; [apply (lock_enter _ 0%nat (Wait None) "node"); reflexivity|].
  eapply rtc_l; [eapply (lock_control _ 0%nat); [reflexivity|reflexivity|done]|].
  eapply rtc_l; [eapply (lock_acquire _ 0%nat); [reflexivity|reflexivity]|].
  eapply rtc_l; [apply (lock_enter _ 1%nat (Wait None) "node"); reflexivity|].
  eapply rtc_l; [eapply (lock_control _ 1%nat); [reflexivity|reflexivity|done]|].
  match goal with |- rtc _ _ ?st => change (rtc lock_step st st) end. apply rtc_refl.
Qed.

Lemma wait_for_lock_shares_witness :
  rtc lock_step initial_locks contended_locks /\
  exists st', rtc lock_step contended_locks st' /\ 1%nat <> 2%nat /\
    holds_lock st' 1 "node" /\ holds_lock st' 2 "node".
Proof.
  split; [apply contended_reachable|].
  exact (wait_for_lock_shares contended_locks 0 1 2 "node" None (Wait None) 0 false
    eq_refl eq_refl eq_refl).
Defined.

(** Task 0 holds the lock of a name and task 1 asks for it. *)
Definition refused_locks : LockState :=
  mkLockState {[ "node" := 0%nat ]} {[ 0%nat := true ]}
    {[ 0%nat := InBody Try (mkLock "node" true false) 0; 1%nat := Entering Try "node" ]}.

Lemma try_lock_excludes_witness :
  (forall i j n, holds_lock refused_locks i n -> holds_lock refused_locks j n -> i = j) /\
  (is_locked 0 refused_locks = true <-> exists i, holds_lock refused_locks i "node").
Proof.
  apply (try_lock_excludes refused_locks 1 "node" 0 refused_locks); [|reflexivity|reflexivity].
  eapply rtc_l; [apply (try_start _ 0%nat "node"); reflexivity|].
  eapply rtc_l; [eapply (try_enter _ 0%nat); reflexivity|].
  eapply rtc_l; [apply (try_start _ 1%nat "node"); reflexivity|].
  match goal with |- rtc _ _ ?st => change (rtc try_step st st) end. apply rtc_refl.
Defined.
