(* ===== verification/ErrorHandling.v ===== *)
(** Error handling services: [processing/services/error.py]. A handler decides what becomes
    of an exception; the service runs its callable again for as long as the decision is to
    retry. Callables are functions of a world [W], which they may change, and may raise. *)
From S2P Require Import Prelude.

(** An exception object: [type(exception).__mro__], most specific class first, and its
    argument. *)
Inductive Argument := Message (message : string) | Code (code : Z).
Record PyException := mkException { exn_mro : list string; exn_argument : Argument }.

(** [isinstance(exception, Exception)]: not so for [SystemExit], [KeyboardInterrupt] and
    [asyncio.CancelledError], which derive from [BaseException] directly. *)
Definition is_exception (e : PyException) : bool := bool_decide ("Exception" ∈ exn_mro e).

Inductive Outcome (A : Type) := Returned (a : A) | Raised (e : PyException).
Arguments Returned {_} _.
Arguments Raised {_} _.

Definition unknown_decision : PyException :=
  mkException ["ValueError"; "Exception"; "BaseException"; "object"]
    (Message "Unknown error handler decision").

(** [SystemExit(exit_code)], [KeyError(key)] and the [TypeError] of an index that is not one. *)
Definition system_exit (exit_code : Z) : PyException :=
  mkException ["SystemExit"; "BaseException"; "object"] (Code exit_code).
Definition key_error (key : string) : PyException :=
  mkException ["KeyError"; "LookupError"; "Exception"; "BaseException"; "object"] (Message key).
Definition list_index_error : PyException :=
  mkException ["TypeError"; "Exception"; "BaseException"; "object"]
    (Message "list indices must be integers or slices, not str").

Section services.
Context {W T : Type}.

(** A Python callable of one exception. *)
Definition Callable (A : Type) : Type := PyException -> W -> Outcome A * W.

Inductive ErrorHandlerDecision :=
  | ExitErrorHandlerDecision (exit_code : Z)
  | RaiseErrorHandlerDecision (exception : PyException)
  | ContinueErrorHandlerDecision (value : T)
  | RetryErrorHandlerDecision
  | OtherDecision.

Definition default_exit_code_factory : Callable Z := fun _ w => (Returned 1%Z, w).
Definition default_exception_factory : Callable PyException := fun e w => (Returned e, w).
Definition default_callback : Callable () := fun _ w => (Returned (), w).

(** The handlers of the module and one for those written elsewhere; a
    [TypeMappingErrorHandler] holds handlers of its own. *)
Inductive ErrorHandler :=
  | ExitErrorHandler (exit_code_factory : Callable Z)
  | RaiseErrorHandler (exception_factory : option (Callable PyException))
  | ContinueErrorHandler (value_factory : Callable T)
  | RetryErrorHandler
  | TypeMappingErrorHandler (type_mappings : list (string * ErrorHandlingDefinition))
      (default_error_handler : ErrorHandler)
  | OtherErrorHandler (handle : Callable ErrorHandlerDecision)
with ErrorHandlingDefinition :=
  | mkDefinition (handler : ErrorHandler) (callback : Callable ()).

Definition TypeMappings : Type := dict string ErrorHandlingDefinition.

(** Runs [m], then [f] on what it returns; what it raises goes on. *)
Definition then_do {A B} (m : Outcome A * W) (f : A -> W -> Outcome B * W) : Outcome B * W :=
  match m with
  | (Returned a, w) => f a w
  | (Raised e, w) => (Raised e, w)
  end.

(** The first class of an MRO with an entry in the mappings. *)
Fixpoint find_mapping {A} (mro : list string) (mappings : dict string A) : option A :=
  match mro with
  | [] => None
  | cls :: mro' =>
      match dict_get mappings cls with
      | Some definition => Some definition
      | None => find_mapping mro' mappings
      end
  end.

(** [ErrorHandler.handle], for each kind of handler. *)
Fixpoint handle (handler : ErrorHandler) (e : PyException) (w : W) :
    Outcome ErrorHandlerDecision * W :=
  match handler with
  | ExitErrorHandler factory =>
      then_do (factory e w) (fun code w' => (Returned (ExitErrorHandlerDecision code), w'))
  | RaiseErrorHandler None => (Returned (RaiseErrorHandlerDecision e), w)
  | RaiseErrorHandler (Some factory) =>
      then_do (factory e w) (fun e' w' => (Returned (RaiseErrorHandlerDecision e'), w'))
  | ContinueErrorHandler factory =>
      if is_exception e then
        then_do (factory e w) (fun v w' => (Returned (ContinueErrorHandlerDecision v), w'))
      else (Returned (RaiseErrorHandlerDecision e), w)
  | RetryErrorHandler =>
      (Returned (if is_exception e then RetryErrorHandlerDecision
                 else RaiseErrorHandlerDecision e), w)
  | TypeMappingErrorHandler mappings default =>
      match find_mapping (exn_mro e)
        ((fix handles mappings := match mappings with
          | [] => []
          | (cls, mkDefinition handler callback) :: mappings' =>
              (cls, (callback, handle handler)) :: handles mappings'
          end) mappings) with
      | Some (callback, handle_mapped) =>
          then_do (callback e w) (fun _ w' => handle_mapped e w')
      | None => handle default e w
      end
  | OtherErrorHandler custom => custom e w
  end.

(** What the [except] block does with the outcome of [handle]: [None] to go round again. *)
Definition decide_outcome (decision : Outcome ErrorHandlerDecision) : option (Outcome T) :=
  match decision with
  | Returned (RaiseErrorHandlerDecision e) => Some (Raised e)
  | Returned (ContinueErrorHandlerDecision v) => Some (Returned v)
  | Returned (ExitErrorHandlerDecision code) => Some (Raised (system_exit code))
  | Returned RetryErrorHandlerDecision => None
  | Returned OtherDecision => Some (Raised unknown_decision)
  | Raised e => Some (Raised e)
  end.

(** One turn of the loop of [ErrorHandlingServiceMixin.execute]. *)
Definition execute_once (do_execute : W -> Outcome T * W) (handler : ErrorHandler) (w : W) :
    option (Outcome T) * W :=
  match do_execute w with
  | (Returned v, w') => (Some (Returned v), w')
  | (Raised e, w') => let '(decision, w'') := handle handler e w' in (decide_outcome decision, w'')
  end.

(** The loop, for at most [fuel] turns. *)
Fixpoint execute (fuel : nat) (do_execute : W -> Outcome T * W) (handler : ErrorHandler)
    (w : W) : option (Outcome T * W) :=
  match fuel with
  | O => None
  | S fuel' =>
      match execute_once do_execute handler w with
      | (Some outcome, w') => Some (outcome, w')
      | (None, w') => execute fuel' do_execute handler w'
      end
  end.

(** ** The mappings of [error_handler_type_mappings] *)

(** The four [...TypeMappingDict]s: [NotRequired] keys may be missing. [X] is the factory
    ([unit] for [retry_execution], which has none). *)
Record TypeMappingDict (X : Type) := mkTypeMappingDict {
  md_types : list string;
  md_callback : option (Callable ());
  md_factory : option X
}.
#[global] Arguments mkTypeMappingDict {_} _ _ _.
#[global] Arguments md_types {_} _.
#[global] Arguments md_callback {_} _.
#[global] Arguments md_factory {_} _.

(** What is passed for one kind: [None], a sequence of types, or a dict. *)
Inductive TypeMappingValue (X : Type) :=
  | NoMapping
  | MappedTypes (types : list string)
  | MappingDict (d : TypeMappingDict X).
#[global] Arguments NoMapping {_}.
#[global] Arguments MappedTypes {_} _.
#[global] Arguments MappingDict {_} _.

Definition resolve_exception_types {X} (value : TypeMappingValue X) : list string :=
  match value with
  | NoMapping => []
  | MappedTypes types => types
  | MappingDict d => md_types d
  end.

(** [d[key]]. *)
Definition required {A} (key : string) (a : option A) : Outcome A :=
  match a with Some a => Returned a | None => Raised (key_error key) end.

Definition resolve_callback {X} (value : TypeMappingValue X) : Outcome (Callable ()) :=
  match value with
  | NoMapping | MappedTypes _ => Returned default_callback
  | MappingDict d => required "callback" (md_callback d)
  end.

(** The factory of a kind: [default] is what a plain sequence of types stands for, when the
    kind allows one. *)
Definition resolve_factory {X} (key : string) (default : option X) (value : TypeMappingValue X) :
    Outcome X :=
  match value with
  | MappingDict d => required key (md_factory d)
  | _ => match default with Some x => Returned x | None => Raised list_index_error end
  end.

(** A resolved dict: its types, callback and factory are all there. *)
Definition resolve_type_mapping_dict {X} (key : string) (default : option X)
    (value : TypeMappingValue X) : Outcome (option (list string * Callable () * X)) :=
  match value with
  | NoMapping => Returned None
  | _ =>
      match resolve_callback value with
      | Raised e => Raised e
      | Returned callback =>
          match resolve_factory key default value with
          | Raised e => Raised e
          | Returned factory =>
              Returned (Some (resolve_exception_types value, callback, factory))
          end
      end
  end.

Definition resolve_exit_fatally_type_mapping_dict :=
  resolve_type_mapping_dict "exit_code_factory" (Some default_exit_code_factory).
Definition resolve_raise_exception_type_mapping_dict :=
  resolve_type_mapping_dict "exception_factory" (Some default_exception_factory).
Definition resolve_continue_execution_type_mapping_dict :=
  resolve_type_mapping_dict (X := Callable T) "value_factory" None.

(** [retry_execution] has no factory to look up. *)
Definition resolve_retry_execution_type_mapping_dict (value : TypeMappingValue ()) :
    Outcome (option (list string * Callable () * ())) :=
  match value with
  | NoMapping => Returned None
  | _ =>
      match resolve_callback value with
      | Raised e => Raised e
      | Returned callback => Returned (Some (resolve_exception_types value, callback, ()))
      end
  end.

(** The dict comprehension over the resolved types. *)
Definition resolve_type_mappings {X} (make : X -> ErrorHandler)
    (resolved : Outcome (option (list string * Callable () * X))) : Outcome TypeMappings :=
  match resolved with
  | Raised e => Raised e
  | Returned None => Returned []
  | Returned (Some (types, callback, factory)) =>
      Returned (dict_of id (fun _ => mkDefinition (make factory) callback) types)
  end.

Definition resolve_exit_fatally_type_mappings (value : TypeMappingValue (Callable Z)) :=
  resolve_type_mappings ExitErrorHandler (resolve_exit_fatally_type_mapping_dict value).
Definition resolve_raise_exception_type_mappings (value : TypeMappingValue (Callable PyException)) :=
  resolve_type_mappings (fun factory => RaiseErrorHandler (Some factory))
    (resolve_raise_exception_type_mapping_dict value).
Definition resolve_continue_execution_type_mappings (value : TypeMappingValue (Callable T)) :=
  resolve_type_mappings ContinueErrorHandler (resolve_continue_execution_type_mapping_dict value).
Definition resolve_retry_execution_type_mappings (value : TypeMappingValue ()) :=
  resolve_type_mappings (fun _ => RetryErrorHandler)
    (resolve_retry_execution_type_mapping_dict value).

(** [{**exit, **raise, **continue, **retry}]. *)
Definition error_handler_type_mappings (exit_fatally : TypeMappingValue (Callable Z))
    (raise_exception : TypeMappingValue (Callable PyException))
    (continue_execution : TypeMappingValue (Callable T)) (retry_execution : TypeMappingValue ()) :
    Outcome TypeMappings :=
  match resolve_exit_fatally_type_mappings exit_fatally with
  | Raised e => Raised e
  | Returned exits =>
  match resolve_raise_exception_type_mappings raise_exception with
  | Raised e => Raised e
  | Returned raises =>
  match resolve_continue_execution_type_mappings continue_execution with
  | Raised e => Raised e
  | Returned continues =>
  match resolve_retry_execution_type_mappings retry_execution with
  | Raised e => Raised e
  | Returned retries =>
      Returned (dict_update (dict_update (dict_update (dict_update [] exits) raises) continues)
        retries)
  end end end end.

(** The [..._type_mapping] functions build dicts with every key. *)
Definition type_mapping {X} (types : list string) (factory : X) (callback : option (Callable ())) :
    TypeMappingValue X :=
  MappingDict (mkTypeMappingDict types (Some (default default_callback callback)) (Some factory)).
Definition exit_fatally_type_mapping (types : list string) (factory : option (Callable Z)) :=
  type_mapping types (default default_exit_code_factory factory).
Definition raise_exception_type_mapping (types : list string) (factory : Callable PyException) :=
  type_mapping types factory.
Definition continue_execution_type_mapping (types : list string) (factory : Callable T) :=
  type_mapping types factory.
Definition retry_execution_type_mapping (types : list string) :=
  type_mapping types ().

(** ** The loop *)

(** [n] turns that end in a retry lead from [w] to [w']. *)
Inductive retries (do_execute : W -> Outcome T * W) (handler : ErrorHandler) :
    nat -> W -> W -> Prop :=
  | retries_none w : retries do_execute handler 0 w w
  | retries_more n w w1 w2 :
      execute_once do_execute handler w = (None, w1) -> retries do_execute handler n w1 w2 ->
      retries do_execute handler (S n) w w2.

Lemma execute_iff do_execute handler fuel w outcome w' :
  execute fuel do_execute handler w = Some (outcome, w') <->
  exists n w1, (n < fuel)%nat /\ retries do_execute handler n w w1 /\
    execute_once do_execute handler w1 = (Some outcome, w').
Proof.
  revert w. induction fuel as [|fuel IH]; intros w; cbn.
  { split; [done|]. intros (n & _ & Hn & _). lia. }
  destruct (execute_once do_execute handler w) as [[o|] w1] eqn:E.
  - split.
    + intros [= -> ->]. exists 0%nat, w. split_and!; [lia|constructor|done].
    + intros (n & w2 & _ & Hr & H2). inversion Hr; subst; congruence.
  - rewrite IH. split.
    + intros (n & w2 & Hn & Hr & H2). exists (S n), w2. split_and!; [lia| |done].
      by econstructor.
    + intros (n & w2 & Hn & Hr & H2). inversion Hr as [|n' ? w1' ? E' Hr']; subst; [congruence|].
      exists n', w2. split_and!; [lia| |done]. congruence.
Qed.

(** [n] runs that fail with an ordinary exception lead from [w] to [w']. *)
Inductive failures (do_execute : W -> Outcome T * W) : nat -> W -> W -> Prop :=
  | failures_none w : failures do_execute 0 w w
  | failures_more n w w1 w2 e :
      do_execute w = (Raised e, w1) -> is_exception e = true ->
      failures do_execute n w1 w2 -> failures do_execute (S n) w w2.

(** C40. A service that retries runs its callable until it succeeds: after exactly [n]
    ordinary failures and one success it returns that value, having run the callable
    [n + 1] times, and with any fewer turns it has not returned. *)
Theorem retry_until_success do_execute n w w1 v w2 fuel :
  failures do_execute n w w1 -> do_execute w1 = (Returned v, w2) ->
  execute fuel do_execute RetryErrorHandler w =
  if (n <? fuel)%nat then Some (Returned v, w2) else None.
Proof.
  intros Hf Hv. revert fuel. induction Hf as [w|n w w1 w2' e He Hx _ IH]; intros [|fuel].
  - done.
  - cbn. unfold execute_once. by rewrite Hv.
  - done.
  - cbn [execute]. unfold execute_once. rewrite He. cbn [handle]. rewrite Hx. cbn.
    rewrite IH by done. done.
Qed.

(** Handlers all of whose leaves continue or retry, and whose callables do not raise. *)
Definition never_raises {A} (f : Callable A) : Prop :=
  forall e w, exists a w', f e w = (Returned a, w').

Inductive contains : ErrorHandler -> Prop :=
  | contains_continue factory : never_raises factory -> contains (ContinueErrorHandler factory)
  | contains_retry : contains RetryErrorHandler
  | contains_mapping mappings default :
      (forall cls handler callback, (cls, mkDefinition handler callback) ∈ mappings ->
        never_raises callback) ->
      (forall cls handler callback, (cls, mkDefinition handler callback) ∈ mappings ->
        contains handler) ->
      contains default -> contains (TypeMappingErrorHandler mappings default).

(** The handler of the class an exception is mapped by, and how it is called. *)
Lemma handle_mapping mappings default e w :
  handle (TypeMappingErrorHandler mappings default) e w =
  match find_mapping (exn_mro e) mappings with
  | Some (mkDefinition handler callback) =>
      then_do (callback e w) (fun _ w' => handle handler e w')
  | None => handle default e w
  end.
Proof.
  cbn [handle].
  match goal with |- context [find_mapping _ ?handles] => set (table := handles) end.
  assert (forall cls, dict_get table cls = (fun '(mkDefinition handler callback) =>
    (callback, handle handler)) <$> dict_get mappings cls) as Htable.
  { intros cls. subst table. induction mappings as [|[c [h cb]] ms IH]; cbn; [done|].
    case_decide; [done|apply IH]. }
  induction (exn_mro e) as [|cls mro IH]; [done|]. cbn. rewrite Htable.
  destruct (dict_get mappings cls) as [[h cb]|]; [done|apply IH].
Qed.

Lemma find_mapping_elem {A} mro (mappings : dict string A) d :
  find_mapping mro mappings = Some d -> exists cls, cls ∈ mro /\ (cls, d) ∈ mappings.
Proof.
  induction mro as [|cls mro IH]; cbn; [done|].
  destruct (dict_get mappings cls) as [d'|] eqn:E.
  - intros [= ->]. exists cls. split; [constructor|by apply dict_get_Some_elem].
  - intros (c & Hc & Hd)%IH. exists c. split; [by constructor|done].
Qed.

Lemma handle_contains handler e w :
  contains handler -> exists decision w', handle handler e w = (Returned decision, w') /\
    if is_exception e then decision = RetryErrorHandlerDecision \/
      exists v, decision = ContinueErrorHandlerDecision v
    else decision = RaiseErrorHandlerDecision e.
Proof.
  intros Hh. revert w.
  induction Hh as [factory Hf| |mappings default Hcb _ IH _ IHdefault]; intros w.
  - cbn. destruct (is_exception e); [|by do 2 eexists].
    destruct (Hf e w) as (v & w' & ->). cbn. do 2 eexists. split; [done|]. right. by exists v.
  - cbn. do 2 eexists. split; [done|]. destruct (is_exception e); [by left|done].
  - rewrite handle_mapping.
    destruct (find_mapping (exn_mro e) mappings) as [[h cb]|] eqn:E; [|apply IHdefault].
    destruct (find_mapping_elem _ _ _ E) as (cls & _ & Hin).
    destruct (Hcb _ _ _ Hin e w) as (u & w' & ->). cbn. by apply (IH _ _ _ Hin).
Qed.

(** A service whose handlers continue or retry (mapped by type or not) lets no ordinary
    exception out: what it raises is the exception its callable raised last, it is a
    [SystemExit], [KeyboardInterrupt], [CancelledError] or the like, and it is raised at
    once, without running the callable again. *)
Theorem ordinary_errors_contained do_execute handler :
  contains handler ->
  (forall fuel w e w', execute fuel do_execute handler w = Some (Raised e, w') ->
    is_exception e = false /\ exists n w1 w2,
      retries do_execute handler n w w1 /\ do_execute w1 = (Raised e, w2)) /\
  (forall fuel w e w1, do_execute w = (Raised e, w1) -> is_exception e = false ->
    exists w', execute (S fuel) do_execute handler w = Some (Raised e, w')).
Proof.
  intros Hh. split.
  - intros fuel w e w' (n & w1 & _ & Hr & He)%execute_iff. unfold execute_once in He.
    destruct (do_execute w1) as [[v|e1] w2] eqn:E; [done|].
    destruct (handle_contains handler e1 w2 Hh) as (d & w3 & Hd & Hx). rewrite Hd in He.
    destruct (is_exception e1) eqn:Ee.
    + destruct Hx as [->|[v ->]]; done.
    + rewrite Hx in He. injection He as -> _. eauto 6.
  - intros fuel w e w1 E Ee. cbn. unfold execute_once. rewrite E.
    destruct (handle_contains handler e w1 Hh) as (d & w2 & -> & Hd). rewrite Ee in Hd.
    rewrite Hd. cbn. eauto.
Qed.

(** ** Which handler a type gets *)

(** The keys the code looks up are there. *)
Definition has_callback {X} (value : TypeMappingValue X) : Prop :=
  match value with MappingDict d => is_Some (md_callback d) | _ => True end.
Definition has_factory {X} (value : TypeMappingValue X) : Prop :=
  match value with MappingDict d => is_Some (md_factory d) | _ => True end.
Definition is_types {X} (value : TypeMappingValue X) : Prop :=
  match value with MappedTypes _ => True | _ => False end.

(** The definition a value gives one of its types. *)
Definition callback_of {X} (value : TypeMappingValue X) : Callable () :=
  match value with
  | MappingDict d => default default_callback (md_callback d) | _ => default_callback
  end.
Definition factory_of {X} (default_factory : X) (value : TypeMappingValue X) : X :=
  match value with
  | MappingDict d => default default_factory (md_factory d) | _ => default_factory
  end.

Definition continue_definition (value : TypeMappingValue (Callable T)) :
    option ErrorHandlingDefinition :=
  match value with
  | MappingDict d =>
      (fun factory => mkDefinition (ContinueErrorHandler factory) (callback_of value)) <$>
        md_factory d
  | _ => None
  end.

Lemma dict_get_types (definition : ErrorHandlingDefinition) (types : list string) cls :
  dict_get (dict_of id (fun _ => definition) types) cls =
  if decide (cls ∈ types) then Some definition else None.
Proof. by rewrite dict_get_of_const, list_fmap_id. Qed.

Definition mappings_ok (result : Outcome TypeMappings) (complete : Prop)
    (get : string -> option ErrorHandlingDefinition) : Prop :=
  match result with
  | Returned mappings => complete /\ NoDup (dict_keys mappings) /\
      forall cls, dict_get mappings cls = get cls
  | Raised _ => ~ complete
  end.

Lemma resolve_with_default {X} (make : X -> ErrorHandler) key default_factory value :
  mappings_ok (resolve_type_mappings make
      (resolve_type_mapping_dict key (Some default_factory) value))
    (has_callback value /\ has_factory value)
    (fun cls => if decide (cls ∈ resolve_exception_types value)
      then Some (mkDefinition (make (factory_of default_factory value)) (callback_of value))
      else None).
Proof.
  destruct value as [|types|[types [cb|] [f|]]]; cbn.
  - split_and!; [done..|constructor|]. intros cls.
    rewrite decide_False; [done|apply not_elem_of_nil].
  - split_and!; [done..|apply dict_of_NoDup|]. intros cls.
    apply dict_get_types.
  - split_and!; [by eexists..|apply dict_of_NoDup|]. intros cls.
    apply dict_get_types.
  - by intros [_ [? [=]]].
  - by intros [[? [=]] _].
  - by intros [[? [=]] _].
Qed.

Lemma resolve_continue value :
  mappings_ok (resolve_continue_execution_type_mappings value)
    (has_callback value /\ has_factory value /\ ~ is_types value)
    (fun cls => if decide (cls ∈ resolve_exception_types value)
      then continue_definition value else None).
Proof.
  destruct value as [|types|[types [cb|] [f|]]]; cbn.
  - split_and!; [by auto..|constructor|]. intros cls. by case_decide.
  - tauto.
  - split_and!; [by eexists|by eexists|tauto|apply dict_of_NoDup|]. intros cls.
    apply dict_get_types.
  - by intros (_ & [? [=]] & _).
  - by intros ([? [=]] & _).
  - by intros ([? [=]] & _).
Qed.

Lemma resolve_retry value :
  mappings_ok (resolve_retry_execution_type_mappings value)
    (has_callback value)
    (fun cls => if decide (cls ∈ resolve_exception_types value)
      then Some (mkDefinition RetryErrorHandler (callback_of value)) else None).
Proof.
  destruct value as [|types|[types [cb|] f]]; cbn.
  - split_and!; [done..|constructor|]. intros cls.
    rewrite decide_False; [done|apply not_elem_of_nil].
  - split_and!; [done..|apply dict_of_NoDup|]. intros cls.
    apply dict_get_types.
  - split_and!; [by eexists|apply dict_of_NoDup|]. intros cls.
    apply dict_get_types.
  - by intros [? [=]].
Qed.

Lemma find_mapping_first {A} (mappings : dict string A) pre cls post d :
  (forall c, c ∈ pre -> dict_get mappings c = None) -> dict_get mappings cls = Some d ->
  find_mapping (pre ++ cls :: post) mappings = Some d.
Proof.
  intros Hpre Hd. induction pre as [|c pre IH]; cbn; [by rewrite Hd|].
  rewrite Hpre by constructor. apply IH. intros c' Hc. apply Hpre. by constructor.
Qed.

(** The mappings of an error handler can be built exactly when every dict holds the keys
    the code looks up, the callback and the factory included, which the types call
    [NotRequired] (else [KeyError]). Then a class that is listed under several kinds is
    retried before it is continued, raised or exits; and an exception is handled, after the
    callback, by the entry of the most specific of its classes that has one, not by those of
    the classes above it. *)
Theorem type_mappings_resolution exit_fatally raise_exception continue_execution
    retry_execution :
  match error_handler_type_mappings exit_fatally raise_exception continue_execution
    retry_execution with
  | Raised _ =>
      ~ ((has_callback exit_fatally /\ has_factory exit_fatally) /\
         (has_callback raise_exception /\ has_factory raise_exception) /\
         (has_callback continue_execution /\ has_factory continue_execution /\
          ~ is_types continue_execution) /\ has_callback retry_execution)
  | Returned mappings =>
      ((has_callback exit_fatally /\ has_factory exit_fatally) /\
       (has_callback raise_exception /\ has_factory raise_exception) /\
       (has_callback continue_execution /\ has_factory continue_execution /\
        ~ is_types continue_execution) /\ has_callback retry_execution) /\
      (forall cls, dict_get mappings cls =
        if decide (cls ∈ resolve_exception_types retry_execution)
        then Some (mkDefinition RetryErrorHandler (callback_of retry_execution))
        else if decide (cls ∈ resolve_exception_types continue_execution)
        then continue_definition continue_execution
        else if decide (cls ∈ resolve_exception_types raise_exception)
        then Some (mkDefinition
          (RaiseErrorHandler (Some (factory_of default_exception_factory raise_exception)))
          (callback_of raise_exception))
        else if decide (cls ∈ resolve_exception_types exit_fatally)
        then Some (mkDefinition
          (ExitErrorHandler (factory_of default_exit_code_factory exit_fatally))
          (callback_of exit_fatally))
        else None) /\
      forall default e w pre cls post handler callback,
        exn_mro e = pre ++ cls :: post -> (forall c, c ∈ pre -> dict_get mappings c = None) ->
        dict_get mappings cls = Some (mkDefinition handler callback) ->
        handle (TypeMappingErrorHandler mappings default) e w =
        then_do (callback e w) (fun _ w' => handle handler e w')
  end.
Proof.
  unfold error_handler_type_mappings, resolve_exit_fatally_type_mappings,
    resolve_raise_exception_type_mappings.
  pose proof (resolve_with_default ExitErrorHandler "exit_code_factory"
    default_exit_code_factory exit_fatally) as Ha.
  pose proof (resolve_with_default (fun f => RaiseErrorHandler (Some f)) "exception_factory"
    default_exception_factory raise_exception) as Hb.
  pose proof (resolve_continue continue_execution) as Hc.
  pose proof (resolve_retry retry_execution) as Hd.
  unfold resolve_exit_fatally_type_mapping_dict, resolve_raise_exception_type_mapping_dict.
  destruct (resolve_type_mappings ExitErrorHandler _) as [ma|]; cbn in Ha; [|tauto].
  destruct (resolve_type_mappings (fun f => RaiseErrorHandler (Some f)) _) as [mb|];
    cbn in Hb; [|tauto].
  destruct (resolve_continue_execution_type_mappings _) as [mc|]; cbn in Hc; [|tauto].
  destruct (resolve_retry_execution_type_mappings _) as [md|]; cbn in Hd; [|tauto].
  destruct Ha as (? & Na & Ga), Hb as (? & Nb & Gb), Hc as (Hc & Nc & Gc), Hd as (? & Nd & Gd).
  split; [done|]. split.
  - intros cls. rewrite !dict_get_update by done. rewrite Ga, Gb, Gc, Gd.
    case_decide; [done|]. destruct (decide (cls ∈ resolve_exception_types continue_execution)).
    { destruct continue_execution as [| |[? ? [f|]]]; cbn; [by apply not_elem_of_nil in e|..].
      - by destruct Hc as (_ & _ & []).
      - done.
      - by destruct Hc as (_ & [? [=]] & _). }
    repeat (case_decide; [done|]). done.
  - intros default e w pre cls post handler callback He Hpre Hcls.
    by rewrite handle_mapping, He, (find_mapping_first _ _ _ _ _ Hpre Hcls).
Qed.

End services.

(** ** Witnesses *)

Definition connection_error : PyException :=
  mkException ["ConnectionError"; "OSError"; "Exception"; "BaseException"; "object"]
    (Message "refused").

(** Fails [w] times, then returns. *)
Definition flaky (w : nat) : Outcome string * nat :=
  match w with
  | O => (Returned "done", O)
  | S w' => (Raised connection_error, w')
  end.

Lemma retry_until_success_witness :
  execute 5 flaky RetryErrorHandler 3%nat = Some (Returned "done", 0%nat) /\
  execute 3 flaky RetryErrorHandler 3%nat = None.
Proof.
  assert (failures flaky 3 3%nat 0%nat) as Hf.
  { do 3 (eapply failures_more; [reflexivity|reflexivity|]). constructor. }
  split; exact (retry_until_success flaky 3 3%nat 0%nat "done" 0%nat _ Hf eq_refl).
Defined.

(** Connection errors are retried, a missing file gives a default, anything else ordinary is
    retried too. *)
Definition lenient : ErrorHandler (W := nat) (T := string) :=
  TypeMappingErrorHandler
    [("FileNotFoundError", mkDefinition (ContinueErrorHandler (fun _ w => (Returned "none", w)))
       default_callback)]
    RetryErrorHandler.

Lemma lenient_contains : contains lenient.
Proof.
  apply contains_mapping; [| |apply contains_retry].
  - intros cls h cb [= -> -> ->]%list_elem_of_singleton e w. by exists (), w.
  - intros cls h cb [= -> -> ->]%list_elem_of_singleton. constructor. intros e w. by eexists _, w.
Qed.

Definition interrupted (w : nat) : Outcome string * nat :=
  match w with
  | O => (Raised (mkException ["KeyboardInterrupt"; "BaseException"; "object"] (Message "")), O)
  | S w' => (Raised connection_error, w')
  end.

Lemma ordinary_errors_contained_witness :
  (exists e, execute 5 interrupted lenient 2%nat = Some (Raised e, 0%nat)) /\
  forall fuel w e w', execute fuel interrupted lenient w = Some (Raised e, w') ->
    is_exception e = false.
Proof.
  split; [eexists; reflexivity|]. intros fuel w e w' He.
  exact (proj1 (proj1 (ordinary_errors_contained interrupted lenient lenient_contains)
    fuel w e w' He)).
Defined.
