(* ===== verification/ServiceManager.v ===== *)
(** The service manager ([processing/services/manager.py]): which executor runs which service,
    and starting and stopping as calls that run next to each other and to the services, on the
    event loops of the main thread and of the threads the manager makes. *)
From S2P Require Import Prelude Values.

Inductive ExecutionMode := FOREGROUND | BACKGROUND.
Inductive IsolationMode := MAIN_THREAD | SHARED_THREAD | DEDICATED_THREAD.

#[export] Instance ExecutionMode_eq_dec : EqDecision ExecutionMode.
Proof. solve_decision. Defined.
#[export] Instance IsolationMode_eq_dec : EqDecision IsolationMode.
Proof. solve_decision. Defined.

(** [Service] stands for the services of the user: what the coroutine of one does, and how it
    ends, is open. *)
Record ServiceDefinition (Service : Type) := mkServiceDefinition {
  sd_service : Service;
  sd_execution_mode : ExecutionMode;
  sd_isolation_mode : IsolationMode
}.
Arguments mkServiceDefinition {_} _ _ _.
Arguments sd_service {_} _.
Arguments sd_execution_mode {_} _.
Arguments sd_isolation_mode {_} _.

(** An isolated executor's thread, and the loop it runs: made; running; stopped, closed and
    joined. *)
Inductive ThreadState := Unstarted | LoopRunning | LoopClosed.
Inductive ServiceExecutor :=
  | MainThreadServiceExecutor
  | IsolatedThreadServiceExecutor (thread : ThreadState).

(** A task of a loop: the coroutine of a service, with or without a cancellation on its way,
    or how it ended. *)
Inductive TaskState := Executing (cancelled : bool) | Ended (outcome : res Val).
Record Task (Service : Type) := mkTask {
  tk_definition : ServiceDefinition Service;
  tk_executor : nat;
  tk_state : TaskState
}.
Arguments mkTask {_} _ _ _.
Arguments tk_definition {_} _.
Arguments tk_executor {_} _.
Arguments tk_state {_} _.

(** The state of [IsolationModeAwareServiceExecutor], [_all_executors] in order, with the tasks
    scheduled on them. A future is the index of its task. *)
Record Executors (Service : Type) := mkExecutors {
  all_executors : list ServiceExecutor;
  tasks : list (Task Service)
}.
Arguments mkExecutors {_} _ _.
Arguments all_executors {_} _.
Arguments tasks {_} _.

Section executors.
Context {Service : Type}.
Implicit Types (definition : ServiceDefinition Service) (x : Executors Service).

Definition new_executors : Executors Service :=
  mkExecutors [MainThreadServiceExecutor; IsolatedThreadServiceExecutor Unstarted] [].

Definition main_executor : nat := 0.
Definition shared_executor : nat := 1.

Definition set_executor (i : nat) (e : ServiceExecutor) x : Executors Service :=
  mkExecutors (<[i := e]> (all_executors x)) (tasks x).

(** [start] of an executor: a thread can be started once. *)
Definition executor_start (i : nat) : ST (Executors Service) () := fun x =>
  match all_executors x !! i with
  | Some (IsolatedThreadServiceExecutor Unstarted) =>
      (Ok (), set_executor i (IsolatedThreadServiceExecutor LoopRunning) x)
  | Some (IsolatedThreadServiceExecutor _) =>
      (Raise (RuntimeError "threads can only be started once"), x)
  | _ => (Ok (), x)
  end.

(** [schedule] of an executor. *)
Definition executor_schedule (i : nat) definition : ST (Executors Service) nat := fun x =>
  match all_executors x !! i with
  | Some (IsolatedThreadServiceExecutor LoopClosed) =>
      (Raise (RuntimeError "Event loop is closed"), x)
  | _ =>
      (Ok (length (tasks x)),
       mkExecutors (all_executors x) (tasks x ++ [mkTask definition i (Executing false)]))
  end.

(** [asyncio.gather] of calls that do not wait: all are made, and the first exception is
    raised. *)
Fixpoint gather {S} (calls : list (ST S ())) : ST S () := fun s =>
  match calls with
  | [] => (Ok (), s)
  | call :: rest =>
      let '(r, s1) := call s in
      let '(r', s2) := gather rest s1 in
      (match r with Ok _ => r' | Raise e => Raise e end, s2)
  end.

(** [IsolationModeAwareServiceExecutor.start], of the executors there were when it was
    called. *)
Definition start_executors (count : nat) : ST (Executors Service) () :=
  gather (executor_start <$> seq 0 count).

Definition prepare_dedicated_executor : ST (Executors Service) nat := fun x =>
  (Ok (length (all_executors x)),
   mkExecutors (all_executors x ++ [IsolatedThreadServiceExecutor LoopRunning]) (tasks x)).

Definition schedule definition : ST (Executors Service) nat :=
  match sd_isolation_mode definition with
  | MAIN_THREAD => executor_schedule main_executor definition
  | SHARED_THREAD => executor_schedule shared_executor definition
  | DEDICATED_THREAD =>
      dedicated_executor ← prepare_dedicated_executor;
      executor_schedule dedicated_executor definition
  end.

Fixpoint schedule_all (definitions : list (ServiceDefinition Service))
    : ST (Executors Service) (list nat) :=
  match definitions with
  | [] => mret []
  | definition :: rest =>
      future ← schedule definition;
      futures ← schedule_all rest;
      mret (future :: futures)
  end.

(** The futures of foreground services. *)
Definition blocking_futures (all_futures : list nat)
    (definitions : list (ServiceDefinition Service)) : list nat :=
  (List.filter (fun fd => bool_decide (sd_execution_mode fd.2 = FOREGROUND))
    (zip all_futures definitions)).*1.

(** [task.cancel()] for each task of an executor that has not ended. *)
Definition cancel_task (i : nat) (t : Task Service) : Task Service :=
  match tk_state t with
  | Executing _ => if decide (tk_executor t = i)
      then mkTask (tk_definition t) i (Executing true) else t
  | Ended _ => t
  end.
Definition cancel_tasks (i : nat) x : Executors Service :=
  mkExecutors (all_executors x) (cancel_task i <$> tasks x).

Definition executing_on (i : nat) (t : Task Service) : bool :=
  match tk_state t with
  | Executing _ => bool_decide (tk_executor t = i)
  | Ended _ => false
  end.

(** The tasks of an executor that have not ended. *)
Definition service_tasks (i : nat) x : list nat :=
  List.filter (fun f => from_option (executing_on i) false (tasks x !! f))
    (seq 0 (length (tasks x))).

Definition has_ended x (f : nat) : bool :=
  match tk_state <$> tasks x !! f with Some (Ended _) => true | _ => false end.
Definition all_ended (futures : list nat) x : bool := forallb (has_ended x) futures.
End executors.

(** ** Calls

    A call of [start] waits while the executors start and while foreground services execute;
    one of [stop] waits for the [stop] of each executor there was when it was called. *)

(** [stop] of an executor: not begun; the shutdown queued on the loop of its thread; waiting
    for the tasks it cancelled; done. *)
Inductive StopProgress :=
  | StopCalled
  | ShutdownQueued
  | AwaitingTasks (futures : list nat)
  | ExecutorStopped
  | StopFailed (e : Exn).

(** The outcome of [stop] is there once all executors are stopped or one has failed. *)
Inductive Call :=
  | StartCalled (count : nat)
  | ExecutorsStarted
  | AwaitingForeground (all_futures blocking : list nat)
  | StartDone (outcome : res (list nat))
  | Stopping (progress : list StopProgress) (outcome : option (res ())).

Record Manager (Service : Type) := mkManager {
  service_definitions : list (ServiceDefinition Service);
  stop_on_signals : list Z;
  service_executor : Executors Service;
  signal_handlers : list Z;
  calls : list Call
}.
Arguments mkManager {_} _ _ _ _ _.
Arguments service_definitions {_} _.
Arguments stop_on_signals {_} _.
Arguments service_executor {_} _.
Arguments signal_handlers {_} _.
Arguments calls {_} _.

Section manager.
Context {Service : Type}.
Implicit Types (m : Manager Service) (x : Executors Service).

Definition new_manager : Manager Service := mkManager [] [] new_executors [] [].

Definition register (service : Service) (execution_mode : ExecutionMode)
    (isolation_mode : IsolationMode) m : Manager Service :=
  mkManager (service_definitions m ++ [mkServiceDefinition service execution_mode isolation_mode])
    (stop_on_signals m) (service_executor m) (signal_handlers m) (calls m).

Definition stop_on (signals : list Z) m : Manager Service :=
  mkManager (service_definitions m) (stop_on_signals m ++ signals) (service_executor m)
    (signal_handlers m) (calls m).

Definition with_executors x m : Manager Service :=
  mkManager (service_definitions m) (stop_on_signals m) x (signal_handlers m) (calls m).
Definition with_calls (cs : list Call) m : Manager Service :=
  mkManager (service_definitions m) (stop_on_signals m) (service_executor m) (signal_handlers m)
    cs.
Definition set_call (c : nat) (call : Call) m : Manager Service :=
  with_calls (<[c := call]> (calls m)) m.

(** [start] installs the handlers of the signals before it first waits. *)
Definition call_start m : Manager Service :=
  mkManager (service_definitions m) (stop_on_signals m) (service_executor m)
    (signal_handlers m ++ stop_on_signals m)
    (calls m ++ [StartCalled (length (all_executors (service_executor m)))]).

Definition call_stop m : Manager Service :=
  with_calls (calls m ++
    [Stopping (replicate (length (all_executors (service_executor m))) StopCalled) None]) m.

(** What [start] does next, if it need not wait. *)
Definition continue_start (c : nat) m : option (Manager Service) :=
  match calls m !! c with
  | Some (StartCalled count) =>
      let '(r, x) := start_executors count (service_executor m) in
      let call := match r with Ok _ => ExecutorsStarted | Raise e => StartDone (Raise e) end in
      Some (set_call c call (with_executors x m))
  | Some ExecutorsStarted =>
      let '(r, x) := schedule_all (service_definitions m) (service_executor m) in
      let call := match r with
        | Ok all_futures =>
            AwaitingForeground all_futures (blocking_futures all_futures (service_definitions m))
        | Raise e => StartDone (Raise e)
        end in
      Some (set_call c call (with_executors x m))
  | Some (AwaitingForeground all_futures blocking) =>
      if all_ended blocking (service_executor m)
      then Some (set_call c (StartDone (Ok all_futures)) m) else None
  | _ => None
  end.

Definition is_stopped (p : StopProgress) : bool :=
  match p with ExecutorStopped => true | _ => false end.

(** A call of [stop] when the one of executor [i] has got on. *)
Definition stop_outcome (progress : list StopProgress) (outcome : option (res ())) (p : StopProgress)
    : option (res ()) :=
  match outcome, p with
  | Some r, _ => Some r
  | None, StopFailed e => Some (Raise e)
  | None, _ =>
      if forallb is_stopped progress then Some (Ok ()) else None
  end.
Definition got_on (i : nat) (p : StopProgress) (call : Call) : Call :=
  match call with
  | Stopping progress outcome =>
      let progress := <[i := p]> progress in Stopping progress (stop_outcome progress outcome p)
  | _ => call
  end.
Definition set_stop (c i : nat) (p : StopProgress) m : Manager Service :=
  with_calls (alter (got_on i p) c (calls m)) m.

Definition stop_progress (c i : nat) m : option StopProgress :=
  match calls m !! c with Some (Stopping progress _) => progress !! i | _ => None end.

(** The shutdown on a loop cancels all its other tasks, those of other shutdowns too. *)
Definition cancel_shutdown (i : nat) (call : Call) : Call :=
  match call with
  | Stopping progress _ =>
      match progress !! i with
      | Some (AwaitingTasks _) => got_on i (StopFailed CancelledError) call
      | _ => call
      end
  | _ => call
  end.

(** What [stop] of executor [i] does next in call [c], if it need not wait. *)
Definition continue_stop (c i : nat) m : option (Manager Service) :=
  let x := service_executor m in
  match all_executors x !! i, stop_progress c i m with
  | Some MainThreadServiceExecutor, Some StopCalled =>
      Some (set_stop c i (AwaitingTasks (service_tasks i x)) (with_executors (cancel_tasks i x) m))
  | Some MainThreadServiceExecutor, Some (AwaitingTasks futures) =>
      if all_ended futures x then Some (set_stop c i ExecutorStopped m) else None
  | Some (IsolatedThreadServiceExecutor LoopClosed),
    Some (StopCalled | AwaitingTasks _) =>
      Some (set_stop c i (StopFailed (RuntimeError "Event loop is closed")) m)
  | Some (IsolatedThreadServiceExecutor _), Some StopCalled =>
      Some (set_stop c i ShutdownQueued m)
  | Some (IsolatedThreadServiceExecutor LoopRunning), Some ShutdownQueued =>
      let m := with_calls (cancel_shutdown i <$> calls m) m in
      Some (set_stop c i (AwaitingTasks (service_tasks i x)) (with_executors (cancel_tasks i x) m))
  | Some (IsolatedThreadServiceExecutor LoopRunning), Some (AwaitingTasks futures) =>
      if all_ended futures x
      then Some (set_stop c i ExecutorStopped
        (with_executors (set_executor i (IsolatedThreadServiceExecutor LoopClosed) x) m))
      else None
  | _, _ => None
  end.

Definition loop_runs (i : nat) x : bool :=
  match all_executors x !! i with
  | Some (MainThreadServiceExecutor | IsolatedThreadServiceExecutor LoopRunning) => true
  | _ => false
  end.

Definition end_task (f : nat) (outcome : res Val) x : Executors Service :=
  mkExecutors (all_executors x)
    (alter (fun t => mkTask (tk_definition t) (tk_executor t) (Ended outcome)) f (tasks x)).

(** What happens without another call: a call goes on, a service ends, or the shutdown of a
    call is cancelled, before it began, by the one of another. *)
Inductive work_step : Manager Service -> Manager Service -> Prop :=
  | start_continues c m m' : continue_start c m = Some m' -> work_step m m'
  | stop_continues c i m m' : continue_stop c i m = Some m' -> work_step m m'
  | service_ends f t cancelled outcome m :
      tasks (service_executor m) !! f = Some t -> tk_state t = Executing cancelled ->
      loop_runs (tk_executor t) (service_executor m) = true ->
      work_step m (with_executors (end_task f outcome (service_executor m)) m)
  | shutdown_cancelled c c' i futures m :
      stop_progress c i m = Some ShutdownQueued ->
      stop_progress c' i m = Some (AwaitingTasks futures) ->
      work_step m (set_stop c i (StopFailed CancelledError) m).

(** What can happen to a manager that is not started again. *)
Inductive manager_step : Manager Service -> Manager Service -> Prop :=
  | work m m' : work_step m m' -> manager_step m m'
  | stop_called m : manager_step m (call_stop m)
  | signal_received sig m : sig ∈ signal_handlers m -> manager_step m (call_stop m).
End manager.
