(* ===== verification/ServiceManagerTheory.v ===== *)
(** What the service manager does: [start] runs every registered service where it should run and
    returns, and [stop] ends them all, in finitely many steps; but [stop] before [start] waits
    for ever, and a second [stop] raises. *)
From S2P Require Import Prelude Values ServiceManager.

(** ** Scheduling *)
Section scheduling.
Context {Service : Type}.
Implicit Types (x : Executors Service) (definitions : list (ServiceDefinition Service)).
Implicit Types (ts : list (Task Service)).

(** Tasks on [n] executors, each where the isolation mode of its service says, and those of a
    dedicated thread alone there. *)
Definition placed (n : nat) ts : Prop := forall f t, ts !! f = Some t ->
  match sd_isolation_mode (tk_definition t) with
  | MAIN_THREAD => tk_executor t = main_executor
  | SHARED_THREAD => tk_executor t = shared_executor
  | DEDICATED_THREAD => (shared_executor < tk_executor t < n)%nat /\
      forall f' t', ts !! f' = Some t' -> tk_executor t' = tk_executor t -> f' = f
  end.

Lemma placed_app n n' ts t :
  (2 <= n <= n')%nat -> placed n ts ->
  match sd_isolation_mode (tk_definition t) with
  | MAIN_THREAD => tk_executor t = main_executor
  | SHARED_THREAD => tk_executor t = shared_executor
  | DEDICATED_THREAD => (n <= tk_executor t < n')%nat
  end -> placed n' (ts ++ [t]).
Proof.
  unfold main_executor, shared_executor. intros Hn Hts Ht.
  assert (forall f u, ts !! f = Some u -> (tk_executor u < n)%nat) as Hlt.
  { intros f u Hu. specialize (Hts f u Hu). unfold main_executor, shared_executor in *.
    destruct (sd_isolation_mode _); lia. }
  assert (forall f u, (ts ++ [t]) !! f = Some u ->
    ts !! f = Some u \/ (f = length ts /\ u = t)) as Hinv.
  { intros f u [Hf|[Hf Hu]]%lookup_app_Some; [by left|right].
    apply list_lookup_singleton_Some in Hu as [? ->]. split; [lia|done]. }
  intros f u [Hu|[-> ->]]%Hinv.
  - specialize (Hts f u Hu). unfold main_executor, shared_executor in *.
    destruct (sd_isolation_mode (tk_definition u)); [done..|].
    destruct Hts as [Hp Hd]. split; [lia|]. intros f' u' [Hu'|[-> ->]]%Hinv; [by apply Hd|].
    destruct (sd_isolation_mode (tk_definition t)); lia.
  - unfold main_executor, shared_executor. destruct (sd_isolation_mode (tk_definition t)); [done..|].
    split; [lia|]. intros f' u' [Hu'|[-> ->]]%Hinv; [|done]. apply Hlt in Hu'. lia.
Qed.

Definition place (t : Task Service) : ServiceDefinition Service * nat :=
  (tk_definition t, tk_executor t).

Lemma placed_places n ts ts' : place <$> ts' = place <$> ts -> placed n ts -> placed n ts'.
Proof.
  intros Hp Hts. assert (forall f t, ts' !! f = Some t -> exists u, ts !! f = Some u /\
    tk_definition u = tk_definition t /\ tk_executor u = tk_executor t) as Hold.
  { intros f t Ht. assert ((place <$> ts) !! f = Some (place t)) as Hf
      by by rewrite <-Hp, list_lookup_fmap, Ht.
    apply list_lookup_fmap_Some in Hf as (u & [= -> ->] & Hu). by exists u. }
  intros f t Ht. destruct (Hold f t Ht) as (u & Hu & <- & <-). specialize (Hts f u Hu).
  destruct (sd_isolation_mode (tk_definition u)); [done..|].
  destruct Hts as [Hl Hd]. split; [done|]. intros f' t' Ht' He.
  destruct (Hold f' t' Ht') as (u' & Hu' & _ & E). apply (Hd f' u'); [done|congruence].
Qed.

(** The main executor and the shared one come first, and [definitions] have been scheduled. *)
Record scheduled definitions x : Prop := {
  sc_main : all_executors x !! main_executor = Some MainThreadServiceExecutor;
  sc_isolated : forall i e, i <> main_executor -> all_executors x !! i = Some e ->
    exists thread, e = IsolatedThreadServiceExecutor thread;
  sc_shared : is_Some (all_executors x !! shared_executor);
  sc_definitions : tk_definition <$> tasks x = definitions;
  sc_placed : placed (length (all_executors x)) (tasks x)
}.

Lemma scheduled_two definitions x : scheduled definitions x -> (2 <= length (all_executors x))%nat.
Proof. intros [_ _ [e He%lookup_lt_Some] _ _]. unfold shared_executor in He. lia. Qed.

Lemma places_definitions ts ts' :
  place <$> ts' = place <$> ts -> tk_definition <$> ts' = tk_definition <$> ts.
Proof.
  intros Hp. assert (forall l, tk_definition <$> l = fst <$> (place <$> l)) as E
    by (intros l; by rewrite <-list_fmap_compose). by rewrite !E, Hp.
Qed.

(** Tasks that go on where they are, on executors of the same kind. *)
Lemma scheduled_tasks definitions x ts :
  place <$> ts = place <$> tasks x -> scheduled definitions x ->
  scheduled definitions (mkExecutors (all_executors x) ts).
Proof.
  intros Hp [Hmain Hiso Hshared Hdefs Hplaced]. split; [done..| |]; cbn.
  - by rewrite (places_definitions _ _ Hp).
  - by eapply placed_places.
Qed.

Lemma scheduled_thread definitions i thread thread' x :
  all_executors x !! i = Some (IsolatedThreadServiceExecutor thread) -> scheduled definitions x ->
  scheduled definitions (set_executor i (IsolatedThreadServiceExecutor thread') x).
Proof.
  intros Hi [Hmain Hiso Hshared Hdefs Hplaced].
  assert (i <> main_executor) as Hne by (intros ->; congruence). split; cbn.
  - by rewrite list_lookup_insert_ne.
  - intros j e Hj. destruct (decide (j = i)) as [->|Hij].
    + rewrite list_lookup_insert_eq by by eapply lookup_lt_Some. intros [= <-]. by eexists.
    + rewrite list_lookup_insert_ne by done. by apply Hiso.
  - destruct (decide (shared_executor = i)) as [<-|Hij].
    + rewrite list_lookup_insert_eq by by eapply lookup_lt_Some. by eexists.
    + by rewrite list_lookup_insert_ne.
  - done.
  - by rewrite length_insert.
Qed.

Lemma scheduled_append definition definitions x extra i :
  scheduled definitions x ->
  Forall (fun e => exists thread, e = IsolatedThreadServiceExecutor thread) extra ->
  match sd_isolation_mode definition with
  | MAIN_THREAD => i = main_executor
  | SHARED_THREAD => i = shared_executor
  | DEDICATED_THREAD =>
      (length (all_executors x) <= i < length (all_executors x) + length extra)%nat
  end ->
  scheduled (definitions ++ [definition]) (mkExecutors (all_executors x ++ extra)
    (tasks x ++ [mkTask definition i (Executing false)])).
Proof.
  intros Hx Hextra Hi. pose proof (scheduled_two _ _ Hx) as Hl.
  destruct Hx as [Hmain Hiso [e Hshared] Hdefs Hplaced]. split; cbn [all_executors tasks].
  - by apply lookup_app_l_Some.
  - intros j e' Hj [He|[_ He]]%lookup_app_Some; [by eapply Hiso|].
    rewrite Forall_lookup in Hextra. by eapply Hextra.
  - exists e. by apply lookup_app_l_Some.
  - by rewrite fmap_app, Hdefs.
  - rewrite length_app. eapply placed_app; [|exact Hplaced|done]. lia.
Qed.

(** A service is scheduled, unless it is for the shared thread and that has been closed. *)
Lemma schedule_scheduled definition definitions x :
  scheduled definitions x ->
  exists r x', schedule definition x = (r, x') /\
    ((r = Ok (length (tasks x)) /\ scheduled (definitions ++ [definition]) x' /\
      length (tasks x') = S (length (tasks x))) \/
     (r = Raise (RuntimeError "Event loop is closed") /\ x' = x)).
Proof.
  intros Hx. pose proof (scheduled_append definition definitions x) as Happ.
  assert (all_executors x ++ [] = all_executors x) as Hnil by apply app_nil_r.
  pose proof (sc_main _ _ Hx) as Hmain. destruct (sc_shared _ _ Hx) as [e Hshared].
  unfold schedule. destruct (sd_isolation_mode definition) eqn:Em.
  - unfold executor_schedule. rewrite Hmain. eexists _, _. split; [reflexivity|]. left.
    split; [done|]. split; [|cbn; rewrite length_app; cbn; lia].
    rewrite <-Hnil. by apply Happ.
  - destruct (sc_isolated _ _ Hx shared_executor e) as [thread ->]; [done..|].
    unfold executor_schedule. rewrite Hshared.
    destruct thread; (eexists _, _; split; [reflexivity|]); [left..|by right];
      (split; [done|]); (split; [|cbn; rewrite length_app; cbn; lia]); rewrite <-Hnil;
      by apply Happ.
  - unfold prepare_dedicated_executor, mbind, ST_bind, executor_schedule. cbn.
    rewrite (lookup_app_r _ _ (length (all_executors x))), Nat.sub_diag by done. cbn.
    eexists _, _. split; [reflexivity|]. left. split; [done|].
    split; [|cbn; rewrite length_app; cbn; lia]. apply Happ; [done| |cbn; lia].
    constructor; [by eexists|done].
Qed.

Lemma schedule_all_scheduled definitions before x :
  scheduled before x ->
  exists r x' done_ left_, schedule_all definitions x = (r, x') /\ definitions = done_ ++ left_ /\
    scheduled (before ++ done_) x' /\
    forall futures, r = Ok futures ->
      futures = seq (length (tasks x)) (length definitions) /\ left_ = [].
Proof.
  revert before x. induction definitions as [|definition rest IH]; intros before x Hx.
  - exists (Ok []), x, [], []. rewrite !app_nil_r. split_and!; [done..|]. by intros ? [= <-].
  - destruct (schedule_scheduled definition before x Hx) as
      (r & x1 & E1 & [(-> & Hx1 & Hlen)|[-> ->]]).
    + destruct (IH _ x1 Hx1) as (r2 & x2 & l1 & l2 & E2 & -> & Hx2 & Hr).
      rewrite <-app_assoc in Hx2. cbn [schedule_all]. unfold mbind, ST_bind, mret, ST_ret.
      rewrite E1, E2. destruct r2 as [futures|e].
      * eexists _, x2, (definition :: l1), l2. split_and!; [reflexivity|done..|].
        intros ? [= <-]. destruct (Hr futures eq_refl) as [-> ->]. by rewrite Hlen.
      * by eexists _, x2, (definition :: l1), l2.
    + cbn [schedule_all]. unfold mbind, ST_bind. rewrite E1.
      exists (Raise (RuntimeError "Event loop is closed")), x, [], (definition :: rest).
      by rewrite !app_nil_r.
Qed.

(** Every foreground future is awaited. *)
Lemma blocking_foreground (definitions : list (ServiceDefinition Service)) f definition :
  definitions !! f = Some definition -> sd_execution_mode definition = FOREGROUND ->
  f ∈ blocking_futures (seq 0 (length definitions)) definitions.
Proof.
  intros Hf Hm. unfold blocking_futures. apply list_elem_of_fmap. exists (f, definition).
  split; [done|]. apply elem_filter. split; [|by apply bool_decide_eq_true].
  apply list_elem_of_lookup. exists f. apply lookup_zip_Some. split; [|done].
  apply lookup_seq. split; [done|]. by apply lookup_lt_Some in Hf.
Qed.

(** Starting executors leaves what has been scheduled. *)
Lemma start_executors_scheduled definitions count x :
  scheduled definitions x -> scheduled definitions (start_executors count x).2.
Proof.
  unfold start_executors. generalize (seq 0 count) as l. intros l. revert x.
  induction l as [|i l IH]; intros x Hx; [done|]. cbn [fmap list_fmap gather].
  assert (scheduled definitions (executor_start i x).2) as H1.
  { unfold executor_start. destruct (all_executors x !! i) as [[|[]]|] eqn:E; try done.
    by eapply scheduled_thread. }
  destruct (executor_start i x) as [r x1]. specialize (IH x1 H1).
  by destruct (gather (executor_start <$> l) x1) as [r' x2].
Qed.

Lemma new_scheduled : scheduled [] (new_executors (Service := Service)).
Proof.
  split; cbn; [done| |by eexists|done|intros ? ?; by rewrite lookup_nil].
  intros [|[|i]] e Hi; cbn; [done|intros [= <-]; by eexists|done].
Qed.
End scheduling.

(** ** What steps keep *)
Section steady.
Context {Service : Type}.
Implicit Types (m : Manager Service) (x : Executors Service).

(** A task that has ended, or has been told to. *)
Definition told_to_end x (f : nat) : bool :=
  match tk_state <$> tasks x !! f with
  | Some (Executing cancelled) => cancelled
  | Some (Ended _) => true
  | None => false
  end.

(** What has been scheduled stays where it is, and what has ended has, as what has been told
    to end has been. *)
Record steady x x' : Prop := {
  st_places : place <$> tasks x' = place <$> tasks x;
  st_ended : forall f, has_ended x f = true -> has_ended x' f = true;
  st_told : forall f, told_to_end x f = true -> told_to_end x' f = true;
  st_scheduled : forall definitions, scheduled definitions x -> scheduled definitions x';
  st_closed : forall i, all_executors x !! i = Some (IsolatedThreadServiceExecutor LoopClosed) ->
    all_executors x' !! i = Some (IsolatedThreadServiceExecutor LoopClosed);
  st_main : forall i, all_executors x !! i = Some MainThreadServiceExecutor ->
    all_executors x' !! i = Some MainThreadServiceExecutor;
  st_count : length (all_executors x') = length (all_executors x)
}.

#[export] Instance steady_preorder : PreOrder steady.
Proof.
  split; [by intros x; split|]. intros x y z [] []. split; [congruence|auto..|congruence].
Qed.

Lemma steady_tasks x (g : nat -> Task Service -> Task Service) :
  (forall f t, place (g f t) = place t) ->
  (forall f t r, tk_state t = Ended r -> exists r', tk_state (g f t) = Ended r') ->
  (forall f t, tk_state t = Executing true -> tk_state (g f t) <> Executing false) ->
  steady x (mkExecutors (all_executors x) (imap g (tasks x))).
Proof.
  intros Hplace Hended Htold.
  assert (place <$> imap g (tasks x) = place <$> tasks x) as Hp.
  { apply list_eq. intros f. rewrite !list_lookup_fmap, list_lookup_imap.
    destruct (tasks x !! f); cbn; [by rewrite Hplace|done]. }
  split; cbn; [done| | |intros definitions; by apply scheduled_tasks|done..].
  - intros f. unfold has_ended. cbn. rewrite list_lookup_imap.
    destruct (tasks x !! f) as [t|]; cbn; [|done]. destruct (tk_state t) as [|r] eqn:Et; [done|].
    by destruct (Hended f t r Et) as [r' ->].
  - intros f. unfold told_to_end. cbn. rewrite list_lookup_imap.
    destruct (tasks x !! f) as [t|]; cbn; [|done]. specialize (Htold f t).
    destruct (tk_state t) as [[]|r] eqn:Et; [|done|by destruct (Hended f t r Et) as [r' ->]].
    intros _. by destruct (tk_state (g f t)) as [[]|]; [|destruct Htold|].
Qed.

Lemma steady_cancel i x : steady x (cancel_tasks i x).
Proof.
  unfold cancel_tasks.
  replace (cancel_task i <$> tasks x) with (imap (fun _ => cancel_task i) (tasks x))
    by apply imap_const.
  apply steady_tasks.
  - intros _ [d e []]; unfold cancel_task; cbn; [|done]. by case_decide; subst.
  - intros _ [d e s] r; cbn. intros ->. by exists r.
  - intros _ [d e s]; unfold cancel_task; cbn. intros ->. by case_decide.
Qed.

Lemma steady_end f outcome x : steady x (end_task f outcome x).
Proof.
  unfold end_task. set (ended := fun t : Task Service =>
    mkTask (tk_definition t) (tk_executor t) (Ended outcome)).
  replace (alter ended f (tasks x)) with
    (imap (fun g t => if decide (g = f) then ended t else t) (tasks x)).
  - apply steady_tasks; intros g t; [by case_decide| |by case_decide; [|intros ->]].
    intros r Hr. case_decide; eauto.
  - apply list_eq. intros g. rewrite list_lookup_imap.
    destruct (decide (g = f)) as [->|Hne].
    + rewrite list_lookup_alter_eq. by destruct (tasks x !! f).
    + rewrite list_lookup_alter_ne by done. by destruct (tasks x !! g).
Qed.

Lemma steady_close i thread x :
  all_executors x !! i = Some (IsolatedThreadServiceExecutor thread) ->
  steady x (set_executor i (IsolatedThreadServiceExecutor LoopClosed) x).
Proof.
  intros Hi. split; [done..|intros definitions; by eapply scheduled_thread| | |].
  - intros j Hj. cbn. destruct (decide (j = i)) as [->|Hne].
    + apply list_lookup_insert_eq. by eapply lookup_lt_Some.
    + by rewrite list_lookup_insert_ne.
  - intros j Hj. cbn. rewrite list_lookup_insert_ne; [done|]. intros ->. congruence.
  - apply length_insert.
Qed.

(** A call of [start] as it is; nothing for one of [stop]. *)
Definition start_of (call : Call) : option Call :=
  match call with Stopping _ _ => None | _ => Some call end.

Lemma got_on_start i p call : start_of (got_on i p call) = start_of call.
Proof. by destruct call. Qed.
Lemma cancel_shutdown_start i call : start_of (cancel_shutdown i call) = start_of call.
Proof. destruct call; cbn; try done. by destruct (progress !! i) as [[]|]. Qed.

Lemma alter_starts c i p (cs : list Call) : start_of <$> alter (got_on i p) c cs = start_of <$> cs.
Proof.
  apply list_eq. intros k. rewrite !list_lookup_fmap. destruct (decide (k = c)) as [->|Hne].
  - rewrite list_lookup_alter_eq. destruct (cs !! c); cbn; [by rewrite got_on_start|done].
  - by rewrite list_lookup_alter_ne.
Qed.

Lemma cancel_starts i m : start_of <$> (cancel_shutdown i <$> calls m) = start_of <$> calls m.
Proof.
  rewrite <-list_fmap_compose. apply list_fmap_ext. intros ? call _. apply cancel_shutdown_start.
Qed.

Record undisturbed m m' : Prop := {
  ud_definitions : service_definitions m' = service_definitions m;
  ud_handlers : signal_handlers m' = signal_handlers m;
  ud_steady : steady (service_executor m) (service_executor m');
  ud_starts : start_of <$> calls m' = start_of <$> calls m
}.

Lemma continue_stop_undisturbed c i m m' :
  continue_stop c i m = Some m' -> undisturbed m m'.
Proof.
  unfold continue_stop. intros H. repeat case_match; simplify_eq; split; cbn; try done;
    rewrite ?alter_starts, ?cancel_starts; try done;
    first [apply steady_cancel|by eapply steady_close|reflexivity].
Qed.

(** A step that is not one of [start]. *)
Lemma undisturbed_step m m' :
  work_step m m' -> (exists c, continue_start c m = Some m') \/ undisturbed m m'.
Proof.
  intros [c m1 m2 H|c i m1 m2 H|f t cancelled outcome m1 Hf Ht Hl|c c' i futures m1 Hc Hc'].
  - left. by exists c.
  - right. by eapply continue_stop_undisturbed.
  - right. split; cbn; [done..|apply steady_end|done].
  - right. split; cbn; [done..|reflexivity|apply alter_starts].
Qed.
End steady.

(** ** Starting *)
Section starting.
Context {Service : Type}.
Variables (definitions : list (ServiceDefinition Service)) (signals : list Z).
Implicit Types (m : Manager Service) (x : Executors Service).

(** A manager on which services have been registered, and [stop_on] called. *)
Definition prepared : Manager Service := mkManager definitions signals new_executors [] [].

Abbreviation all_futures := (seq 0 (length definitions)).
Abbreviation blocking := (blocking_futures all_futures definitions).

(** How far [start] is, and what has been scheduled. *)
Definition start_state (call : Call) x : Prop :=
  match call with
  | StartCalled _ | ExecutorsStarted => scheduled [] x
  | AwaitingForeground futures waited =>
      futures = all_futures /\ waited = blocking /\ scheduled definitions x
  | StartDone (Ok futures) =>
      futures = all_futures /\ scheduled definitions x /\ all_ended blocking x = true
  | StartDone (Raise _) => exists done_ left_, definitions = done_ ++ left_ /\ scheduled done_ x
  | Stopping _ _ => False
  end.

Record starting m (call : Call) : Prop := {
  sg_definitions : service_definitions m = definitions;
  sg_calls : exists rest, start_of <$> calls m = Some call :: rest /\ Forall (eq None) rest;
  sg_state : start_state call (service_executor m)
}.

Lemma all_ended_steady futures x x' :
  steady x x' -> all_ended futures x = true -> all_ended futures x' = true.
Proof.
  intros Hx. unfold all_ended. rewrite !forallb_forall. intros H f Hf.
  by apply (st_ended _ _ Hx), H.
Qed.

Lemma start_state_steady call x x' : steady x x' -> start_state call x -> start_state call x'.
Proof.
  intros Hx. pose proof (st_scheduled _ _ Hx) as Hs.
  destruct call as [| |fs bl|[fs|e]|]; cbn; try solve [naive_solver].
  intros (-> & H1 & H2). split_and!; [done|auto|]. by eapply all_ended_steady.
Qed.

Lemma starting_undisturbed m m' call : undisturbed m m' -> starting m call -> starting m' call.
Proof.
  intros [Hd _ Hx Hs] [Hdef Hcalls Hst]. split; [congruence|by rewrite Hs|].
  by eapply start_state_steady.
Qed.

Lemma starting_call m call c call' :
  starting m call -> calls m !! c = Some call' -> start_of call' <> None -> c = 0%nat /\ call' = call.
Proof.
  intros [_ (rest & Hcalls & Hrest) _] Hc Hs.
  assert ((start_of <$> calls m) !! c = Some (start_of call')) as Hl
    by by rewrite list_lookup_fmap, Hc.
  rewrite Hcalls in Hl. destruct c as [|c]; cbn in Hl.
  - injection Hl as Hl. by destruct call'; cbn in *; simplify_eq.
  - rewrite Forall_lookup in Hrest. by specialize (Hrest _ _ Hl).
Qed.

(** [start] goes on. *)
Lemma starting_continues m call c m' :
  starting m call -> continue_start c m = Some m' -> exists call', starting m' call'.
Proof.
  intros Hm H. unfold continue_start in H. destruct (calls m !! c) as [call0|] eqn:Ec; [|done].
  destruct (decide (start_of call0 = None)) as [Hno|Hstart]; [by destruct call0|].
  destruct (starting_call _ _ _ _ Hm Ec Hstart) as [-> ->].
  destruct Hm as [Hd (rest & Hcalls & Hrest) Hst].
  assert (forall call' x, start_of call' = Some call' -> start_state call' x ->
    starting (set_call 0 call' (with_executors x m)) call') as Hnext.
  { intros call' x Hc' Hx. split; [done| |done]. exists rest. split; [|done].
    cbn. destruct (calls m) as [|c0 cs]; [done|]. cbn in *. rewrite Hc'. congruence. }
  destruct call as [count| |fs bl|r|]; simplify_eq.
  - pose proof (start_executors_scheduled [] count _ Hst) as Hx.
    destruct (start_executors count (service_executor m)) as [[|e] x]; simplify_eq;
      eexists; (apply Hnext; [done|]); [done|]. by exists [], definitions.
  - rewrite Hd in H. destruct (schedule_all_scheduled definitions [] _ Hst) as
      (r & x & l1 & l2 & E & Hl & Hx & Hr). rewrite E in H. destruct r as [fs|e]; simplify_eq;
      eexists; (apply Hnext; [done|]); [|by exists l1, l2].
    destruct (Hr fs eq_refl) as [-> ->]. pose proof (sc_definitions _ _ Hst) as Hnil.
    apply fmap_nil_inv in Hnil. rewrite app_nil_r in Hl. rewrite <-Hl in Hx. cbn [app] in Hx.
    rewrite Hnil. by split_and!.
  - case_match; simplify_eq. destruct Hst as (-> & -> & Hx). eexists.
    replace m with (with_executors (service_executor m) m) by by destruct m. by apply Hnext.
Qed.

Lemma starting_manager_step m m' call :
  manager_step m m' -> starting m call -> exists call', starting m' call'.
Proof.
  assert (forall m, starting m call -> starting (call_stop m) call) as Hstop.
  { intros m0 [Hd (rest & Hcalls & Hrest) Hst]. split; [done| |done]. exists (rest ++ [None]).
    cbn. rewrite fmap_app, Hcalls. split; [done|]. apply Forall_app. split; [done|by constructor]. }
  intros [m1 m2 Hw|m1|sig m1 _] Hm; [|exists call; by apply Hstop..].
  destruct (undisturbed_step _ _ Hw) as [[c Hc]|Hu]; [by eapply starting_continues|].
  exists call. by eapply starting_undisturbed.
Qed.

Lemma starting_reachable m :
  rtc manager_step (call_start prepared) m -> exists call, starting m call.
Proof.
  assert (starting (call_start prepared) (StartCalled 2)) as H0.
  { split; [done|by exists []|apply new_scheduled]. }
  revert H0. generalize (StartCalled 2). intros call H0 Hr. revert call H0.
  induction Hr as [|m1 m2 m3 Hs _ IH]; intros call H0; [by exists call|].
  destruct (starting_manager_step _ _ _ Hs H0) as [call' H1]. by apply (IH call').
Qed.

(** What has been scheduled, whatever [start] has come to. *)
Lemma start_state_scheduled call x :
  start_state call x -> exists done_ left_, definitions = done_ ++ left_ /\ scheduled done_ x.
Proof.
  destruct call as [| |fs bl|[fs|e]|]; cbn; try done.
  - intros Hx. by exists [], definitions.
  - intros Hx. by exists [], definitions.
  - intros (_ & _ & Hx). exists definitions, []. by rewrite app_nil_r.
  - intros (_ & Hx & _). exists definitions, []. by rewrite app_nil_r.
Qed.
End starting.

(** ** Every run comes to an end *)
Section measure.
Context {Service : Type}.
Implicit Types (m : Manager Service) (x : Executors Service).

Definition task_work (t : Task Service) : nat :=
  match tk_state t with Executing _ => 1 | Ended _ => 0 end.
Definition stop_work (p : StopProgress) : nat :=
  match p with
  | StopCalled => 3 | ShutdownQueued => 2 | AwaitingTasks _ => 1
  | ExecutorStopped | StopFailed _ => 0
  end.
Definition call_work (services : nat) (call : Call) : nat :=
  match call with
  | StartCalled _ => services + 3
  | ExecutorsStarted => services + 2
  | AwaitingForeground _ _ => 1
  | StartDone _ => 0
  | Stopping progress _ => sum_list_with stop_work progress
  end.

(** What is left to do, at most. *)
Definition work_left m : nat :=
  sum_list_with (call_work (length (service_definitions m))) (calls m) +
  sum_list_with task_work (tasks (service_executor m)).

Lemma sum_alter {A} (f : A -> nat) (g : A -> A) i (l : list A) a :
  l !! i = Some a -> sum_list_with f (alter g i l) + f a = sum_list_with f l + f (g a).
Proof.
  revert i. induction l as [|b l IH]; intros [|i]; [done..| |].
  - cbn. intros [= ->]. lia.
  - intros Hi. change (alter g (S i) (b :: l)) with (b :: alter g i l). cbn [sum_list_with].
    specialize (IH i Hi). lia.
Qed.

Lemma sum_map_le {A} (f : A -> nat) (g : A -> A) (l : list A) :
  (forall a, f (g a) <= f a) -> sum_list_with f (g <$> l) <= sum_list_with f l.
Proof. intros Hg. induction l as [|a l IH]; cbn; [lia|]. specialize (Hg a). lia. Qed.

Lemma got_on_work services i p q progress outcome :
  progress !! i = Some q ->
  call_work services (got_on i p (Stopping progress outcome)) + stop_work q =
  call_work services (Stopping progress outcome) + stop_work p.
Proof.
  intros Hi. cbn. pose proof (sum_alter stop_work (fun _ => p) i progress q Hi) as H.
  by rewrite <-list_insert_alter in H.
Qed.

Lemma stop_progress_Some c i m p :
  stop_progress c i m = Some p ->
  exists progress outcome, calls m !! c = Some (Stopping progress outcome) /\
    progress !! i = Some p.
Proof.
  unfold stop_progress. destruct (calls m !! c) as [[]|]; try done. intros Hp. eauto.
Qed.

Lemma set_stop_work c i p q m :
  stop_progress c i m = Some q -> stop_work p < stop_work q ->
  work_left (set_stop c i p m) < work_left m.
Proof.
  intros (progress & outcome & Hc & Hi)%stop_progress_Some Hlt. unfold work_left. cbn.
  set (n := length (service_definitions m)).
  pose proof (sum_alter (call_work n) (got_on i p) c (calls m) _ Hc) as H1.
  pose proof (got_on_work n i p q progress outcome Hi) as H2. lia.
Qed.

Lemma cancel_shutdown_work n i call : call_work n (cancel_shutdown i call) <= call_work n call.
Proof.
  destruct call as [| | | |progress outcome]; cbn [cancel_shutdown]; try done.
  destruct (progress !! i) as [[| |fs| |]|] eqn:E; try done.
  pose proof (got_on_work n i (StopFailed CancelledError) _ progress outcome E). cbn in *. lia.
Qed.

Lemma cancel_tasks_work i x : sum_list_with task_work (tasks (cancel_tasks i x)) =
  sum_list_with task_work (tasks x).
Proof.
  unfold cancel_tasks. cbn [tasks]. induction (tasks x) as [|t l IH]; [done|].
  rewrite fmap_cons. cbn [sum_list_with]. rewrite IH. f_equal.
  destruct t as [d e []]; unfold cancel_task; cbn; [by case_decide|done].
Qed.

Lemma continue_stop_work c i m m' : continue_stop c i m = Some m' -> work_left m' < work_left m.
Proof.
  unfold continue_stop. intros H. repeat case_match; simplify_eq;
    try (eapply set_stop_work; [eassumption|cbn; lia]).
  - eapply Nat.lt_le_trans; [eapply set_stop_work; [eassumption|cbn; lia]|].
    unfold work_left. cbn. by rewrite <-(cancel_tasks_work i (service_executor m)).
  - set (m0 := with_calls (cancel_shutdown i <$> calls m) m).
    assert (stop_progress c i m0 = Some ShutdownQueued) as Hc.
    { destruct (stop_progress_Some _ _ _ _ ltac:(eassumption)) as (progress & outcome & Hc & Hi).
      unfold stop_progress, m0. cbn. rewrite list_lookup_fmap, Hc. cbn. by rewrite Hi. }
    apply Nat.lt_le_trans with (work_left (with_executors (cancel_tasks i (service_executor m)) m0)).
    + eapply set_stop_work; [exact Hc|cbn; lia].
    + unfold work_left. cbn. rewrite <-(cancel_tasks_work i (service_executor m)). cbn.
      pose proof (sum_map_le (call_work (length (service_definitions m))) (cancel_shutdown i)
        (calls m) (cancel_shutdown_work _ i)). lia.
  - eapply Nat.lt_le_trans; [eapply set_stop_work; [eassumption|cbn; lia]|done].
Qed.

Lemma schedule_all_work definitions x :
  sum_list_with task_work (tasks (schedule_all definitions x).2) <=
  length definitions + sum_list_with task_work (tasks x).
Proof.
  assert (forall i definition y, sum_list_with task_work (tasks (executor_schedule i definition y).2)
    <= 1 + sum_list_with task_work (tasks y)) as H1.
  { intros i definition y. unfold executor_schedule.
    destruct (all_executors y !! i) as [[|[]]|]; cbn; rewrite ?sum_list_with_app; cbn; lia. }
  revert x. induction definitions as [|definition rest IH]; intros x; [done|].
  assert (sum_list_with task_work (tasks (schedule definition x).2) <=
    1 + sum_list_with task_work (tasks x)) as Hs.
  { unfold schedule. destruct (sd_isolation_mode definition); [apply H1..|].
    unfold mbind, ST_bind, prepare_dedicated_executor. etrans; [apply H1|done]. }
  cbn [schedule_all length]. unfold mbind, ST_bind.
  destruct (schedule definition x) as [[future|e] x1]; cbn in Hs |- *; [|lia].
  specialize (IH x1). destruct (schedule_all rest x1) as [[futures|e] x2]; cbn in *; lia.
Qed.

Lemma start_executors_tasks count x : tasks (start_executors count x).2 = tasks x.
Proof.
  unfold start_executors. generalize (seq 0 count) as l. intros l. revert x.
  induction l as [|i l IH]; intros x; [done|]. cbn [fmap list_fmap gather].
  assert (tasks (executor_start i x).2 = tasks x) as H1.
  { unfold executor_start. by destruct (all_executors x !! i) as [[|[]]|]. }
  destruct (executor_start i x) as [r x1]. specialize (IH x1). cbn in H1.
  destruct (gather (executor_start <$> l) x1) as [r' x2]. cbn in *. congruence.
Qed.

Lemma set_call_work c call call' x m :
  calls m !! c = Some call ->
  call_work (length (service_definitions m)) call' + sum_list_with task_work (tasks x) <
    call_work (length (service_definitions m)) call +
    sum_list_with task_work (tasks (service_executor m)) ->
  work_left (set_call c call' (with_executors x m)) < work_left m.
Proof.
  intros Hc Hlt. unfold work_left, set_call. cbn. rewrite list_insert_alter.
  pose proof (sum_alter (call_work (length (service_definitions m))) (fun _ => call') c (calls m)
    call Hc). lia.
Qed.

Lemma continue_start_work c m m' : continue_start c m = Some m' -> work_left m' < work_left m.
Proof.
  unfold continue_start. destruct (calls m !! c) as [[count| |fs bl|r|]|] eqn:Ec; try done.
  - pose proof (start_executors_tasks count (service_executor m)) as Ht.
    destruct (start_executors count (service_executor m)) as [[|e] x]; intros [= <-];
      (eapply set_call_work; [exact Ec|]); cbn in *; rewrite Ht; lia.
  - pose proof (schedule_all_work (service_definitions m) (service_executor m)) as Ht.
    destruct (schedule_all _ _) as [[fs|e] x]; intros [= <-];
      (eapply set_call_work; [exact Ec|]); cbn in *; lia.
  - case_match; [|done]. intros [= <-].
    apply (set_call_work c _ (StartDone (Ok fs)) (service_executor m) m Ec). cbn. lia.
Qed.

Lemma end_task_work f t cancelled outcome x :
  tasks x !! f = Some t -> tk_state t = Executing cancelled ->
  sum_list_with task_work (tasks (end_task f outcome x)) < sum_list_with task_work (tasks x).
Proof.
  intros Hf Ht. unfold end_task. cbn.
  pose proof (sum_alter task_work (fun t => mkTask (tk_definition t) (tk_executor t) (Ended outcome))
    f (tasks x) t Hf) as H. unfold task_work at 2 4 in H. rewrite Ht in H. cbn in H. lia.
Qed.

(** Each step leaves less to do. *)
Lemma work_step_decreases m m' : work_step m m' -> work_left m' < work_left m.
Proof.
  intros [c m1 m2 H|c i m1 m2 H|f t cancelled outcome m1 Hf Ht Hl|c c' i futures m1 Hc Hc'].
  - by eapply continue_start_work.
  - by eapply continue_stop_work.
  - unfold work_left. cbn [service_definitions calls service_executor with_executors].
    pose proof (end_task_work f t cancelled outcome _ Hf Ht). lia.
  - eapply set_stop_work; [exact Hc|cbn; lia].
Qed.

Lemma runs_bounded n m m' : nsteps work_step n m m' -> n + work_left m' <= work_left m.
Proof.
  induction 1 as [|n m1 m2 m3 Hs _ IH]; [done|]. apply work_step_decreases in Hs. lia.
Qed.
End measure.

(** ** Stopping *)
Section stopping.
Context {Service : Type}.
Variables (definitions : list (ServiceDefinition Service)) (signals : list Z).
Implicit Types (m : Manager Service) (x : Executors Service).

(** Every task of executor [i] that has not ended is among [futures]. *)
Definition awaited x (i : nat) (futures : list nat) : Prop :=
  forall f t, tasks x !! f = Some t -> executing_on i t = true -> f ∈ futures.

(** Nothing executes on executor [i], and nothing will. *)
Definition quiet x (i : nat) : Prop :=
  awaited x i [] /\ forall thread,
    all_executors x !! i = Some (IsolatedThreadServiceExecutor thread) -> thread = LoopClosed.

Definition safe_progress x (i : nat) (p : StopProgress) : Prop :=
  match p with
  | AwaitingTasks futures => awaited x i futures
  | ExecutorStopped => quiet x i
  | _ => True
  end.

Definition stop_safe x (call : Call) : Prop :=
  match call with
  | Stopping progress outcome =>
      (forall i p, progress !! i = Some p -> safe_progress x i p) /\
      (outcome = Some (Ok ()) -> forallb is_stopped progress = true)
  | _ => True
  end.

Lemma executing_steady x x' i f t' :
  steady x x' -> tasks x' !! f = Some t' -> executing_on i t' = true ->
  exists t, tasks x !! f = Some t /\ executing_on i t = true.
Proof.
  intros Hx Hf Ht. pose proof (st_places _ _ Hx) as Hp.
  assert ((place <$> tasks x) !! f = Some (place t')) as Hl by by rewrite <-Hp, list_lookup_fmap, Hf.
  apply list_lookup_fmap_Some in Hl as (t & [= Hd He] & Hft). exists t. split; [done|].
  pose proof (st_ended _ _ Hx f) as Hend. unfold has_ended in Hend. rewrite Hft, Hf in Hend.
  unfold executing_on in *. cbn in Hend. rewrite <-He.
  destruct (tk_state t') eqn:E'; [|done]. destruct (tk_state t); [done|]. by specialize (Hend eq_refl).
Qed.

Lemma awaited_steady x x' i futures : steady x x' -> awaited x i futures -> awaited x' i futures.
Proof.
  intros Hx Ha f t Hf Ht. destruct (executing_steady _ _ _ _ _ Hx Hf Ht) as (u & Hu & Hex).
  by eapply Ha.
Qed.

Lemma safe_progress_steady x x' i p :
  steady x x' -> (i < length (all_executors x))%nat -> safe_progress x i p -> safe_progress x' i p.
Proof.
  intros Hx Hi. destruct p; cbn; try done; [by apply awaited_steady|].
  intros [Ha Hth]. split; [by eapply awaited_steady|]. intros thread Hi'.
  destruct (all_executors x !! i) as [[|th]|] eqn:E.
  - rewrite (st_main _ _ Hx _ E) in Hi'. done.
  - specialize (Hth th eq_refl) as ->. rewrite (st_closed _ _ Hx _ E) in Hi'. congruence.
  - apply lookup_ge_None in E. lia.
Qed.

(** A stop is about all executors there are. *)
Definition within x (call : Call) : Prop :=
  match call with
  | Stopping progress _ => length progress = length (all_executors x)
  | _ => True
  end.

Definition stops_safe x (cs : list Call) : Prop :=
  Forall (fun call => stop_safe x call /\ within x call) cs.

Lemma stops_safe_steady x x' cs : steady x x' -> stops_safe x cs -> stops_safe x' cs.
Proof.
  intros Hx Hcs. eapply Forall_impl; [exact Hcs|].
  intros [| | | |progress o] [Hs Hw]; try done. split.
  - destruct Hs as [Hp Ho]. split; [|done]. intros i p Hi. eapply safe_progress_steady; [done| |].
    + apply lookup_lt_Some in Hi. cbn in Hw. lia.
    + by apply Hp.
  - cbn in *. by rewrite (st_count _ _ Hx).
Qed.

Lemma stop_safe_got_on x i p q progress o :
  progress !! i = Some q -> is_stopped q = false -> safe_progress x i p ->
  stop_safe x (Stopping progress o) -> stop_safe x (got_on i p (Stopping progress o)).
Proof.
  intros Hi Hq Hp [Hs Ho]. split.
  - intros j r Hj. apply list_lookup_insert_Some in Hj as [(<- & <- & _)|[_ Hj]]; [done|by apply Hs].
  - destruct o as [r|]; cbn.
    + intros [= ->]. specialize (Ho eq_refl). rewrite forallb_forall in Ho.
      rewrite (Ho q) in Hq; [done|]. apply list_elem_of_In. by eapply list_elem_of_lookup_2.
    + unfold stop_outcome. destruct (forallb is_stopped (<[i:=p]> progress)); by destruct p.
Qed.

Lemma within_got_on x i p call : within x call -> within x (got_on i p call).
Proof. destruct call; cbn; try done. by rewrite length_insert. Qed.

Lemma stops_safe_set x c i p q m :
  stop_progress c i m = Some q -> is_stopped q = false -> safe_progress x i p ->
  stops_safe x (calls m) -> stops_safe x (calls (set_stop c i p m)).
Proof.
  intros (progress & o & Hc & Hi)%stop_progress_Some Hq Hp Hs. cbn.
  unfold stops_safe. rewrite Forall_lookup. intros k call Hk.
  destruct (decide (k = c)) as [->|Hne].
  - rewrite list_lookup_alter_eq, Hc in Hk. injection Hk as <-.
    eapply Forall_lookup_1 in Hs as [Hs Hw]; [|exact Hc].
    split; [by eapply stop_safe_got_on|exact (within_got_on x i p _ Hw)].
  - rewrite list_lookup_alter_ne in Hk by done. by eapply Forall_lookup_1 in Hs.
Qed.

Lemma stops_safe_cancel x i cs : stops_safe x cs -> stops_safe x (cancel_shutdown i <$> cs).
Proof.
  intros Hs. apply Forall_fmap. eapply Forall_impl; [exact Hs|]. intros call [Hc Hw].
  destruct call as [| | | |progress o]; try done. cbn [cancel_shutdown compose].
  unfold compose. cbn [cancel_shutdown]. destruct (progress !! i) as [[]|] eqn:E; try done.
  split; [by eapply stop_safe_got_on|exact (within_got_on x i (StopFailed CancelledError) _ Hw)].
Qed.

Lemma service_tasks_awaited x i : awaited x i (service_tasks i x).
Proof.
  intros f t Hf Ht. apply elem_filter. rewrite Hf. split; [|done].
  apply list_elem_of_lookup. exists f. apply lookup_seq. split; [done|]. by eapply lookup_lt_Some.
Qed.

Lemma ended_awaited x i futures :
  awaited x i futures -> all_ended futures x = true -> awaited x i [].
Proof.
  intros Ha He f t Hf Ht. specialize (Ha f t Hf Ht). unfold all_ended in He.
  rewrite forallb_forall in He. specialize (He f). unfold has_ended in He. rewrite Hf in He.
  unfold executing_on in Ht. cbn in He. destruct (tk_state t); [|done].
  discriminate He. by apply list_elem_of_In.
Qed.

Lemma continue_stop_safe c i m m' :
  continue_stop c i m = Some m' -> stops_safe (service_executor m) (calls m) ->
  stops_safe (service_executor m') (calls m').
Proof.
  intros H Hs. set (x := service_executor m) in *.
  assert (stops_safe (cancel_tasks i x) (calls m)) as Hcancel
    by (eapply stops_safe_steady; [apply steady_cancel|done]).
  assert (awaited (cancel_tasks i x) i (service_tasks i x)) as Hawait
    by (eapply awaited_steady; [apply steady_cancel|apply service_tasks_awaited]).
  assert (forall futures, stop_progress c i m = Some (AwaitingTasks futures) ->
    awaited x i futures) as Hold.
  { intros futures (progress & o & Hc & Hi)%stop_progress_Some.
    destruct (Forall_lookup_1 _ _ _ _ Hs Hc) as [[Hp _] _]. by apply (Hp i _ Hi). }
  unfold continue_stop in H. fold x in H.
  destruct (all_executors x !! i) as [[|[]]|] eqn:Ex; [| | | |done];
    destruct (stop_progress c i m) as [[]|] eqn:Ep; try done; try case_match; simplify_eq;
    try (by eapply (stops_safe_set _ c i); [exact Ep|done..|exact Hs]).
  - by eapply (stops_safe_set _ c i _ _ (with_executors (cancel_tasks i x) m)).
  - eapply (stops_safe_set _ c i); [exact Ep|done| |exact Hs].
    split; [apply (ended_awaited x i futures); [by apply Hold|done]|]. intros thread. change (service_executor _) with x.
    congruence.
  - eapply (stops_safe_set _ c i _ ShutdownQueued
      (with_executors (cancel_tasks i x) (with_calls (cancel_shutdown i <$> calls m) m)));
      [|done|exact Hawait|by apply stops_safe_cancel].
    destruct (stop_progress_Some _ _ _ _ Ep) as (progress & o & Hc & Hi).
    unfold stop_progress. cbn. rewrite list_lookup_fmap, Hc. cbn. by rewrite Hi.
  - eapply (stops_safe_set _ c i _ _ (with_executors
      (set_executor i (IsolatedThreadServiceExecutor LoopClosed) x) m)); [exact Ep|done| |].
    + split.
      * eapply awaited_steady; [by eapply steady_close|]. apply (ended_awaited x i futures); [by apply Hold|done].
      * intros thread. cbn. rewrite list_lookup_insert_eq by by eapply lookup_lt_Some. congruence.
    + eapply stops_safe_steady; [by eapply steady_close|done].
Qed.

(** [start] has scheduled the services. *)
Definition past_scheduling (call : Call) : bool :=
  match call with AwaitingForeground _ _ | StartDone (Ok _) => true | _ => false end.

Record started m : Prop := {
  sd_starting : exists call, starting definitions m call /\ past_scheduling call = true;
  sd_safe : stops_safe (service_executor m) (calls m)
}.

Lemma started_scheduled m : started m -> scheduled definitions (service_executor m).
Proof.
  intros [(call & Hm & Hp) _]. pose proof (sg_state _ _ _ Hm) as Hst.
  destruct call as [| |fs bl|[fs|e]|]; try done; apply Hst.
Qed.

Lemma started_continue c m m' :
  started m -> continue_start c m = Some m' ->
  started m' /\ service_executor m' = service_executor m /\
  forall k, k <> 0%nat -> calls m' !! k = calls m !! k.
Proof.
  intros [(call & Hm & Hp) Hs] H. pose proof H as Hcont. unfold continue_start in H.
  destruct (calls m !! c) as [call0|] eqn:Ec; [|done].
  destruct (decide (start_of call0 = None)) as [Hno|Hstart]; [by destruct call0|].
  destruct (starting_call _ _ _ _ _ Hm Ec Hstart) as [-> ->].
  destruct call as [| |fs bl|r|]; try done. case_match; simplify_eq.
  destruct (starting_continues _ _ _ _ _ Hm Hcont) as [call' Hm'].
  split; [|split; [done|]; intros k Hk; cbn; by rewrite list_lookup_insert_ne].
  split.
  - exists call'. split; [done|].
    assert (calls (set_call 0 (StartDone (Ok fs)) m) !! 0%nat = Some (StartDone (Ok fs))) as Hdone.
    { cbn. apply list_lookup_insert_eq. by eapply lookup_lt_Some. }
    by destruct (starting_call _ _ _ _ _ Hm' Hdone) as [_ <-].
  - cbn. apply Forall_insert; done.
Qed.

Lemma started_undisturbed m m' :
  undisturbed m m' -> stops_safe (service_executor m') (calls m') -> started m -> started m'.
Proof.
  intros Hu Hs [(call & Hm & Hp) _]. split; [|done]. exists call. split; [|done].
  by eapply starting_undisturbed.
Qed.

Lemma started_step m m' : manager_step m m' -> started m -> started m'.
Proof.
  assert (forall m, started m -> started (call_stop m)) as Hstop.
  { intros m0 Hm. destruct (Hm) as [(call & Hst & Hp) Hs].
    destruct Hst as [Hd (rest & Hcalls & Hrest) Hst]. split.
    - exists call. split; [|done]. split; [done| |done]. exists (rest ++ [None]).
      cbn. rewrite fmap_app, Hcalls. split; [done|]. apply Forall_app. split; [done|by constructor].
    - apply Forall_app. split; [done|]. constructor; [|done]. split.
      + split; [|done]. intros i p [-> _]%lookup_replicate. done.
      + cbn. by rewrite length_replicate. }
  intros [m1 m2 Hw|m1|sig m1 _] Hm; [|by apply Hstop..].
  destruct Hw as [c m1 m2 H|c i m1 m2 H|f t cancelled outcome m1 Hf Ht Hl|c c' i futures m1 Hc Hc'].
  - by eapply started_continue.
  - eapply started_undisturbed; [by eapply continue_stop_undisturbed| |done].
    eapply continue_stop_safe; [done|apply Hm].
  - eapply started_undisturbed; [split; cbn; [done..|apply steady_end|done]| |done].
    eapply stops_safe_steady; [apply steady_end|apply Hm].
  - eapply started_undisturbed; [split; cbn; [done..|reflexivity|apply alter_starts]| |done].
    eapply stops_safe_set; [exact Hc|done..|apply Hm].
Qed.

(** When a call of [stop] about every executor has succeeded, nothing is left running. *)
Lemma stopped_all m c progress :
  started m -> calls m !! c = Some (Stopping progress (Some (Ok ()))) ->
  (forall f t, tasks (service_executor m) !! f = Some t -> exists r, tk_state t = Ended r) /\
  forall i thread, all_executors (service_executor m) !! i =
    Some (IsolatedThreadServiceExecutor thread) -> thread = LoopClosed.
Proof.
  intros Hm Hc. pose proof (started_scheduled _ Hm) as Hx. destruct Hm as [_ Hs].
  destruct (Forall_lookup_1 _ _ _ _ Hs Hc) as [[Hp Ho] Hlen]. specialize (Ho eq_refl).
  cbn in Hlen.
  rewrite forallb_forall in Ho.
  assert (forall i, (i < length (all_executors (service_executor m)))%nat ->
    quiet (service_executor m) i) as Hq.
  { intros i Hi. destruct (lookup_lt_is_Some_2 progress i) as [p Hip]; [lia|].
    specialize (Ho p). specialize (Hp i p Hip).
    destruct p; try (discriminate Ho; apply list_elem_of_In; by eapply list_elem_of_lookup_2). done. }
  split.
  - intros f t Hf. destruct (tk_state t) as [cancelled|r] eqn:Et; [|by exists r].
    assert (tk_executor t < length (all_executors (service_executor m)))%nat as Hlt.
    { pose proof (scheduled_two _ _ Hx). pose proof (sc_placed _ _ Hx f t Hf) as Hpl.
      unfold main_executor, shared_executor in Hpl. destruct (sd_isolation_mode _); lia. }
    destruct (Hq _ Hlt) as [Ha _]. specialize (Ha f t Hf). unfold executing_on in Ha.
    rewrite Et, bool_decide_eq_true_2 in Ha by done. by apply not_elem_of_nil in Ha.
  - intros i thread Hi. destruct (Hq i) as [_ Hth]; [by eapply lookup_lt_Some|]. by apply Hth.
Qed.

(** *** Nothing has stopped *)

Definition all_running x : Prop := forall i thread,
  all_executors x !! i = Some (IsolatedThreadServiceExecutor thread) -> thread = LoopRunning.

Lemma schedule_running definition x :
  all_running x -> is_ok (schedule definition x).1 = true /\ all_running (schedule definition x).2.
Proof.
  intros Hx. assert (forall i y, all_running y ->
    is_ok (executor_schedule i definition y).1 = true /\
    all_running (executor_schedule i definition y).2) as H1.
  { intros i y Hy. unfold executor_schedule.
    destruct (all_executors y !! i) as [[|th]|] eqn:E; cbn; [done| |done].
    by rewrite (Hy _ _ E). }
  unfold schedule. destruct (sd_isolation_mode definition); [by apply H1..|].
  unfold mbind, ST_bind, prepare_dedicated_executor. apply H1.
  intros i thread [Hi|[_ Hi]]%lookup_app_Some; [by eapply Hx|].
  apply list_lookup_singleton_Some in Hi as [_ Hi]. congruence.
Qed.

Lemma schedule_all_running ds x :
  all_running x -> is_ok (schedule_all ds x).1 = true /\ all_running (schedule_all ds x).2.
Proof.
  revert x. induction ds as [|d ds IH]; intros x Hx; [done|].
  cbn [schedule_all]. unfold mbind, ST_bind, mret, ST_ret.
  destruct (schedule_running d x Hx) as [Hok H1].
  destruct (schedule d x) as [[f|e] x1]; [|done]. destruct (IH x1 H1) as [Hok2 H2].
  by destruct (schedule_all ds x1) as [[fs|e] x2].
Qed.

(** A manager that was started, and not stopped. *)
Record unstopped m : Prop := {
  us_starting : exists call, starting definitions m call /\ calls m = [call] /\
    match call with
    | StartCalled count => count = 2%nat /\ service_executor m = new_executors
    | StartDone (Raise _) => False
    | _ => all_running (service_executor m)
    end
}.

Lemma unstopped_new : unstopped (call_start (prepared definitions signals)).
Proof.
  split. exists (StartCalled 2). split; [|done]. split; [done|by exists []|apply new_scheduled].
Qed.

Lemma unstopped_continue c m m' : unstopped m -> continue_start c m = Some m' -> unstopped m'.
Proof.
  intros [(call & Hm & Hcs & Hst)] H. destruct (starting_continues _ _ _ _ _ Hm H) as [call' Hm'].
  assert (forall call2 x, m' = set_call c call2 (with_executors x m) -> c = 0%nat ->
    start_of call2 = Some call2 ->
    match call2 with
    | StartCalled _ | StartDone (Raise _) => False
    | _ => all_running x
    end -> unstopped m') as Hnext.
  { intros call2 x -> -> Hcall2 Hx. assert (calls (set_call 0 call2 (with_executors x m)) = [call2])
      as Hcs2 by (cbn; by rewrite Hcs).
    destruct (starting_call _ _ _ 0 call2 Hm') as [_ <-]; [by rewrite Hcs2|by rewrite Hcall2|].
    split. exists call2. split; [done|]. split; [done|]. by destruct call2 as [| | |[]|]. }
  unfold continue_start in H. destruct c as [|c]; rewrite Hcs in H; cbn in H; [|done].
  destruct call as [count| |fs bl|r|]; try done.
  - destruct Hst as [-> Hx]. rewrite Hx in H. cbn in H. injection H as <-.
    eapply Hnext; [done..|]. intros [|[|i]] thread Hi; cbv in Hi; congruence.
  - destruct (schedule_all_running (service_definitions m) _ Hst) as [Hok Hrun].
    destruct (schedule_all _ _) as [[fs|e] x]; [|done]. injection H as <-. by eapply Hnext.
  - case_match; [|done]. injection H as <-. by apply (Hnext (StartDone (Ok fs)) (service_executor m)).
Qed.

Lemma all_running_end f outcome x : all_running x -> all_running (end_task f outcome x).
Proof. done. Qed.

Lemma no_stop m c i : unstopped m -> stop_progress c i m = None.
Proof.
  intros [(call & Hm & Hcs & _)]. destruct (stop_progress c i m) as [p|] eqn:E; [|done].
  destruct (stop_progress_Some _ _ _ _ E) as (progress & o & Hc & _). rewrite Hcs in Hc.
  apply list_lookup_singleton_Some in Hc as [-> ->].
  by destruct (sg_state _ _ _ Hm).
Qed.

Lemma unstopped_work m m' : work_step m m' -> unstopped m -> unstopped m'.
Proof.
  intros Hw Hm. pose proof (no_stop m) as Hno.
  destruct Hw as [c m1 m2 H|c i m1 m2 H|f t cancelled outcome m1 Hf Ht Hl|c c' i futures m1 Hc Hc'].
  - by eapply unstopped_continue.
  - exfalso. unfold continue_stop in H. rewrite (Hno c i Hm) in H.
    by destruct (all_executors _ !! i) as [[|[]]|].
  - destruct Hm as [(call & Hst & Hcs & Hr)]. split. exists call.
    split; [|split; [done|]].
    + eapply starting_undisturbed; [|done]. split; cbn; [done..|apply steady_end|done].
    + destruct call as [count| |fs bl|[r|e]|]; try done. destruct Hr as [-> Hr].
      rewrite Hr in Hf. change (tasks new_executors) with (@nil (Task Service)) in Hf.
      by rewrite lookup_nil in Hf.
  - by rewrite (Hno c i Hm) in Hc.
Qed.

Lemma unstopped_reachable m :
  rtc work_step (call_start (prepared definitions signals)) m -> unstopped m.
Proof.
  intros Hr. pose proof unstopped_new as H0. induction Hr as [|m1 m2 m3 Hs _ IH]; [done|].
  apply IH. by eapply unstopped_work.
Qed.

(** *** Services that never end by themselves *)

(** What happens when services that are [endless] end only once they have been cancelled. *)
Definition step_with_endless (endless : Service -> bool) m m' : Prop :=
  work_step m m' /\
  forall f t, tasks (service_executor m) !! f = Some t -> tk_state t = Executing false ->
    endless (sd_service (tk_definition t)) = true -> has_ended (service_executor m') f = false.

(** A step of a call ends no task. *)
Lemma continue_start_endless endless c m m' :
  started m -> continue_start c m = Some m' -> step_with_endless endless m m'.
Proof.
  intros Hm H. pose proof (started_continue _ _ _ Hm H) as (_ & Hx & _).
  split; [by eapply start_continues|]. rewrite Hx. intros f t Ht Hs _. unfold has_ended.
  by rewrite Ht; cbn; rewrite Hs.
Qed.

Lemma continue_stop_endless endless c i m m' :
  continue_stop c i m = Some m' -> step_with_endless endless m m'.
Proof.
  intros H. split; [by eapply stop_continues|]. intros f t Ht Hs _.
  assert (tasks (service_executor m') = tasks (service_executor m) \/
    tasks (service_executor m') = tasks (cancel_tasks i (service_executor m))) as Hx.
  { unfold continue_stop in H. repeat case_match; simplify_eq; cbn; auto. }
  unfold has_ended. destruct Hx as [-> | ->]; cbn; rewrite ?list_lookup_fmap, Ht; cbn.
  - by rewrite Hs.
  - unfold cancel_task. rewrite Hs. case_decide; [done|]. by rewrite Hs.
Qed.

(** A task that has been told to end can, when its loop runs. *)
Lemma told_can_end endless m f t :
  tasks (service_executor m) !! f = Some t ->
  loop_runs (tk_executor t) (service_executor m) = true ->
  told_to_end (service_executor m) f = true ->
  (forall m', ~ step_with_endless endless m m') -> has_ended (service_executor m) f = true.
Proof.
  intros Hf Hl Htold Hno. unfold told_to_end in Htold. unfold has_ended. rewrite Hf in *. cbn in *.
  destruct (tk_state t) as [cancelled|r] eqn:Et; [subst cancelled|done]. exfalso.
  apply (Hno (with_executors (end_task f (Ok VNone) (service_executor m)) m)).
  split; [by eapply service_ends|]. intros g u Hg Hu _. unfold has_ended. cbn.
  destruct (decide (g = f)) as [->|Hne]; [congruence|].
  rewrite list_lookup_alter_ne, Hg by done. cbn. by rewrite Hu.
Qed.

(** A task whose loop runs can end. *)
Lemma executing_can_end m f t :
  tasks (service_executor m) !! f = Some t ->
  loop_runs (tk_executor t) (service_executor m) = true ->
  (forall m', ~ work_step m m') -> has_ended (service_executor m) f = true.
Proof.
  intros Hf Hl Hno. unfold has_ended. rewrite Hf. cbn.
  destruct (tk_state t) as [cancelled|r] eqn:Et; [|done].
  by destruct (Hno (with_executors (end_task f (Ok VNone) (service_executor m)) m));
    eapply service_ends.
Qed.

Lemma scheduled_executor x f t :
  scheduled definitions x -> tasks x !! f = Some t -> (tk_executor t < length (all_executors x))%nat.
Proof.
  intros Hx Hf. pose proof (scheduled_two _ _ Hx). pose proof (sc_placed _ _ Hx f t Hf) as Hpl.
  unfold main_executor, shared_executor in Hpl. destruct (sd_isolation_mode _); lia.
Qed.

Lemma blocking_scheduled f x :
  scheduled definitions x ->
  f ∈ blocking_futures (seq 0 (length definitions)) definitions -> is_Some (tasks x !! f).
Proof.
  intros Hx ([f' d] & -> & [Hin _]%elem_filter)%list_elem_of_fmap.
  apply list_elem_of_lookup in Hin as [i Hi]. apply lookup_zip_Some in Hi as [Hi _].
  apply lookup_seq in Hi as [-> Hi]. cbn. apply lookup_lt_is_Some.
  pose proof (sc_definitions _ _ Hx) as Hd. by rewrite <-Hd, length_fmap in Hi.
Qed.

(** A manager that nobody stops comes to rest with [start] having returned. *)
Lemma unstopped_rest m :
  unstopped m -> (forall m', ~ work_step m m') ->
  calls m = [StartDone (Ok (seq 0 (length definitions)))].
Proof.
  intros [(call & Hm & Hcs & Hst)] Hno.
  assert (forall m', continue_start 0 m <> Some m') as Hnot.
  { intros m' H. by apply (Hno m'), (start_continues 0). }
  unfold continue_start in Hnot. rewrite Hcs in Hnot. cbn in Hnot.
  pose proof (sg_state _ _ _ Hm) as Hs. destruct call as [count| |fs bl|[fs|e]|]; try done.
  - destruct (start_executors count _). by edestruct Hnot.
  - destruct (schedule_all _ _). by edestruct Hnot.
  - destruct Hs as (-> & -> & Hx). destruct (all_ended _ _) eqn:E; [by edestruct Hnot|].
    exfalso. apply not_true_iff_false in E. apply E. unfold all_ended. apply forallb_forall.
    intros f Hf%list_elem_of_In. destruct (blocking_scheduled _ _ Hx Hf) as [t Ht].
    apply (executing_can_end m f t Ht); [|done]. unfold loop_runs.
    destruct (lookup_lt_is_Some_2 (all_executors (service_executor m)) (tk_executor t)) as [e He];
      [by eapply scheduled_executor|]. rewrite He.
    destruct e as [|th]; [done|]. by rewrite (Hst _ _ He).
  - destruct Hs as (-> & _). done.
Qed.

(** *** One call of [stop] *)

(** The progress of the [stop] of an executor when no other [stop] interferes. *)
Definition live x (i : nat) (p : StopProgress) : Prop :=
  match p with
  | StopCalled => loop_runs i x = true
  | ShutdownQueued => all_executors x !! i = Some (IsolatedThreadServiceExecutor LoopRunning)
  | AwaitingTasks futures => loop_runs i x = true /\
      forall f, f ∈ futures -> told_to_end x f = true /\
        exists t, tasks x !! f = Some t /\ tk_executor t = i
  | ExecutorStopped => True
  | StopFailed _ => False
  end.

Record stopping_once m (progress : list StopProgress) (o : option (res ())) : Prop := {
  so_count : length (calls m) = 2%nat;
  so_call : calls m !! 1%nat = Some (Stopping progress o);
  so_live : forall i p, progress !! i = Some p -> live (service_executor m) i p;
  so_outcome : o = if forallb is_stopped progress then Some (Ok ()) else None
}.

Lemma live_steady x x' i p :
  steady x x' -> all_executors x' !! i = all_executors x !! i -> live x i p -> live x' i p.
Proof.
  intros Hx Hi. unfold live, loop_runs. rewrite Hi. destruct p as [| |fs| |]; try done.
  intros [Hr Hf]. split; [done|]. intros f (Htold & t & Ht & He)%Hf.
  split; [by apply (st_told _ _ Hx)|].
  assert ((place <$> tasks x') !! f = Some (place t)) as Hl
    by by rewrite (st_places _ _ Hx), list_lookup_fmap, Ht.
  apply list_lookup_fmap_Some in Hl as (t' & [= _ He'] & Ht'). exists t'. split; congruence.
Qed.

Lemma stop_one m c i p progress o :
  started m -> stopping_once m progress o -> stop_progress c i m = Some p ->
  c = 1%nat /\ progress !! i = Some p.
Proof.
  intros [(call & Hm & _) _] [Hcount Hcall _ _] (progress' & o' & Hc & Hi)%stop_progress_Some.
  pose proof (lookup_lt_Some _ _ _ Hc) as Hlt. destruct c as [|[|c]]; [|split; congruence|lia].
  destruct (sg_calls _ _ _ Hm) as (rest & Hrest & _).
  assert ((start_of <$> calls m) !! 0%nat = Some None) as Hl by by rewrite list_lookup_fmap, Hc.
  by rewrite Hrest in Hl.
Qed.

(** The stop of executor [i] has got on to [p], the other executors being as they were. *)
Lemma stopping_once_set m x cs progress o i p q :
  stopping_once m progress o -> progress !! i = Some q -> is_stopped q = false ->
  length cs = length (calls m) -> cs !! 1%nat = calls m !! 1%nat ->
  steady (service_executor m) x ->
  (forall j, j <> i -> all_executors x !! j = all_executors (service_executor m) !! j) ->
  live x i p ->
  exists progress' o',
    stopping_once (set_stop 1 i p (with_calls cs (with_executors x m))) progress' o'.
Proof.
  intros [Hcount Hcall Hlive Ho] Hi Hq Hlen Hcs Hx Hother Hp.
  assert (forallb is_stopped progress = false) as Hno.
  { apply not_true_iff_false. rewrite forallb_forall. intros Hall. rewrite (Hall q) in Hq; [done|].
    apply list_elem_of_In. by eapply list_elem_of_lookup_2. }
  rewrite Hno in Ho. subst o.
  exists (<[i:=p]> progress), (if forallb is_stopped (<[i:=p]> progress) then Some (Ok ()) else None).
  split.
  - cbn. rewrite length_alter. congruence.
  - cbn. rewrite list_lookup_alter_eq, Hcs, Hcall. cbn. do 2 f_equal.
    unfold stop_outcome. by destruct p.
  - cbn. intros j r Hj. apply list_lookup_insert_Some in Hj as [(<- & <- & _)|[Hne Hj]]; [done|].
    eapply live_steady; [exact Hx|by apply Hother|by apply Hlive].
  - done.
Qed.

Lemma stopping_once_continue c i m m' progress o :
  started m -> stopping_once m progress o -> continue_stop c i m = Some m' ->
  exists progress' o', stopping_once m' progress' o'.
Proof.
  intros Hm Hone H. set (x := service_executor m) in *.
  assert (forall f, f ∈ service_tasks i x -> told_to_end (cancel_tasks i x) f = true /\
    exists t, tasks (cancel_tasks i x) !! f = Some t /\ tk_executor t = i) as Htasks.
  { intros f [_ Hf]%elem_filter. unfold told_to_end. cbn. rewrite list_lookup_fmap.
    destruct (tasks x !! f) as [t|]; [|done]. cbn in *.
    unfold executing_on, cancel_task in *. destruct (tk_state t); [|done].
    apply bool_decide_eq_true in Hf. rewrite decide_True by done. split; [done|by eexists]. }
  unfold continue_stop in H. fold x in H.
  destruct (all_executors x !! i) as [e|] eqn:Ex; [|done].
  destruct (stop_progress c i m) as [q|] eqn:Eq; [|by destruct e as [|[]]].
  destruct (stop_one _ _ _ _ _ _ Hm Hone Eq) as [-> Hi].
  pose proof (so_live _ _ _ Hone i q Hi) as Hlive. fold x in Hlive.
  pose proof (fun p y cs => stopping_once_set m y cs progress o i p q Hone Hi) as Hset.
  assert (loop_runs i x = true -> e <> IsolatedThreadServiceExecutor LoopClosed) as Hopen
    by (unfold loop_runs; rewrite Ex; by intros Hr ->).
  destruct e as [|[]], q; cbn in Hlive; try done; try (by destruct Hopen; first [done|apply Hlive]);
    try case_match; simplify_eq.
  - apply (Hset (AwaitingTasks _) (cancel_tasks i x) (calls m)); try done. apply steady_cancel.
  - by apply (Hset ExecutorStopped x (calls m)).
  - unfold loop_runs in Hlive. by rewrite Ex in Hlive.
  - by apply (Hset ShutdownQueued x (calls m)).
  - apply (Hset (AwaitingTasks _) (cancel_tasks i x) (cancel_shutdown i <$> calls m)); try done.
    + by rewrite length_fmap.
    + rewrite list_lookup_fmap, (so_call _ _ _ Hone). cbn. by rewrite Hi.
    + apply steady_cancel.
    + split; [|done]. unfold loop_runs. cbn. by rewrite Ex.
  - apply (Hset ExecutorStopped _ (calls m)); try done; [by eapply steady_close|].
    intros j Hj. cbn. by rewrite list_lookup_insert_ne.
Qed.

Lemma stopping_once_work m m' progress o :
  work_step m m' -> started m -> stopping_once m progress o ->
  exists progress' o', stopping_once m' progress' o'.
Proof.
  intros Hw Hm Hone.
  destruct Hw as [c m1 m2 H|c i m1 m2 H|f t cancelled outcome m1 Hf Ht Hl|c c' i futures m1 Hc Hc'].
  - exists progress, o. pose proof (started_continue _ _ _ Hm H) as (_ & Hx & Hother).
    destruct Hone as [Hcount Hcall Hlive Ho]. split; [|by rewrite Hother|by rewrite Hx|done].
    rewrite <-Hcount. unfold continue_start in H. repeat case_match; simplify_eq;
      cbn; by rewrite length_insert.
  - by eapply stopping_once_continue.
  - exists progress, o. destruct Hone as [Hcount Hcall Hlive Ho]. split; [done..| |done].
    intros j p Hj. eapply live_steady; [apply steady_end|done|by apply Hlive].
  - destruct (stop_one _ _ _ _ _ _ Hm Hone Hc) as [_ H1].
    destruct (stop_one _ _ _ _ _ _ Hm Hone Hc') as [_ H2]. congruence.
Qed.

(** At rest, the stop of every executor is done. *)
Lemma stopping_once_rest endless m progress o :
  stopping_once m progress o -> (forall m', ~ step_with_endless endless m m') ->
  forallb is_stopped progress = true.
Proof.
  intros [Hcount Hcall Hlive Ho] Hno. apply forallb_forall.
  intros p [i Hi]%list_elem_of_In%list_elem_of_lookup. specialize (Hlive i p Hi).
  assert (forall m', continue_stop 1 i m <> Some m') as Hnot.
  { intros m' H. by apply (Hno m'), (continue_stop_endless _ 1 i). }
  assert (stop_progress 1 i m = Some p) as Ep by (unfold stop_progress; by rewrite Hcall).
  unfold continue_stop in Hnot. rewrite Ep in Hnot. unfold live, loop_runs in Hlive.
  destruct p as [| |fs| |e]; [| | |done|done].
  - destruct (all_executors _ !! i) as [[|[]]|]; try done; by edestruct Hnot.
  - rewrite Hlive in Hnot. by edestruct Hnot.
  - destruct Hlive as [Hrun Hfs].
    assert (all_ended fs (service_executor m) = true) as Hended.
    { apply forallb_forall. intros f Hf%list_elem_of_In. destruct (Hfs f Hf) as (Htold & t & Ht & He).
      apply (told_can_end endless m f t Ht); [|done..]. unfold loop_runs. by rewrite He. }
    rewrite Hended in Hnot.
    destruct (all_executors _ !! i) as [[|[]]|]; try done; by edestruct Hnot.
Qed.

(** [stop] called once [start] has scheduled the services. *)
Lemma stop_starts m :
  unstopped m ->
  (exists call, calls m = [call] /\ past_scheduling call = true) ->
  started (call_stop m) /\ exists progress o, stopping_once (call_stop m) progress o.
Proof.
  intros [(call & Hm & Hcs & Hr)] (call' & Hcs' & Hp).
  assert (call' = call) as -> by congruence.
  assert (started m) as Hs.
  { split; [by exists call|]. rewrite Hcs. constructor; [|done]. by destruct call. }
  split; [eapply started_step; [apply stop_called|done]|].
  pose proof (started_scheduled _ Hs) as Hx. eexists _, _. split.
  - cbn. by rewrite Hcs.
  - cbn. by rewrite Hcs.
  - intros i p [-> Hi]%lookup_replicate. cbn. unfold loop_runs.
    destruct (lookup_lt_is_Some_2 (all_executors (service_executor m)) i) as [e He]; [done|].
    rewrite He. destruct e as [|th]; [done|].
    assert (th = LoopRunning) as ->; [|done]. destruct call as [| | |[]|]; try done; by eapply Hr.
  - destruct (all_executors (service_executor m)) eqn:E; [|done].
    pose proof (scheduled_two _ _ Hx) as Hl. rewrite E in Hl. cbn in Hl. lia.
Qed.

(** At rest, with all services ended, [start] has returned. *)
Lemma started_rest endless m :
  started m -> (forall f t, tasks (service_executor m) !! f = Some t ->
    exists r, tk_state t = Ended r) ->
  (forall m', ~ step_with_endless endless m m') ->
  calls m !! 0%nat = Some (StartDone (Ok (seq 0 (length definitions)))).
Proof.
  intros Hm Hended Hno. pose proof Hm as Hm0. pose proof (started_scheduled _ Hm) as Hx.
  destruct Hm as [(call & Hst & Hpast) _].
  assert (calls m !! 0%nat = Some call) as Hcall.
  { destruct (sg_calls _ _ _ Hst) as (rest & Hrest & _).
    destruct (calls m) as [|c0 cs]; [done|]. injection Hrest as Hc0 _. by destruct c0; simplify_eq/=. }
  pose proof (sg_state _ _ _ Hst) as Hstate. destruct call as [| |fs bl|[fs|e]|]; try done.
  - destruct Hstate as (-> & -> & _).
    destruct (Hno (set_call 0 (StartDone (Ok (seq 0 (length definitions)))) m)).
    apply (continue_start_endless _ 0); [done|]. unfold continue_start. rewrite Hcall.
    assert (all_ended (blocking_futures (seq 0 (length definitions)) definitions)
      (service_executor m) = true) as ->; [|done].
    apply forallb_forall. intros f Hf%list_elem_of_In.
    destruct (blocking_scheduled _ _ Hx Hf) as [t Ht]. unfold has_ended. rewrite Ht. cbn.
    by destruct (Hended f t Ht) as [r ->].
  - by destruct Hstate as (-> & _).
Qed.

(** The futures of a [start] that has returned. *)
Lemma start_done m futures f definition :
  starting definitions m (StartDone (Ok futures)) -> definitions !! f = Some definition ->
  exists t, tasks (service_executor m) !! f = Some t /\ tk_definition t = definition /\
    (sd_execution_mode definition = FOREGROUND -> exists r, tk_state t = Ended r).
Proof.
  intros Hm Hf. destruct (sg_state _ _ _ Hm) as (_ & Hall & Hended).
  pose proof (sc_definitions _ _ Hall) as Hd. pose proof Hf as Hf'. rewrite <-Hd in Hf.
  apply list_lookup_fmap_Some in Hf as (t & -> & Ht). exists t. split; [done|]. split; [done|].
  intros Hmode. unfold all_ended in Hended. rewrite forallb_forall in Hended.
  specialize (Hended f). unfold has_ended in Hended. rewrite Ht in Hended. cbn in Hended.
  destruct (tk_state t) as [|r]; [|by exists r]. discriminate Hended.
  by apply list_elem_of_In, (blocking_foreground definitions f (tk_definition t)).
Qed.

(** C20. [start] runs each registered service once, where its isolation mode says, whatever else
    is called meanwhile: at any time the tasks are those of the first services registered, in
    order, on the main thread, on the shared one, or alone on a thread of their own. When
    [start] returns, it returns a future for each service, in order, and the foreground
    services have ended; and it does return, without an exception, if nothing is stopped and
    services come to an end. *)
Theorem start_runs_services m :
  rtc manager_step (call_start (prepared definitions signals)) m ->
  ((exists left_, (tk_definition <$> tasks (service_executor m)) ++ left_ = definitions) /\
   placed (length (all_executors (service_executor m))) (tasks (service_executor m)) /\
   forall futures, calls m !! 0%nat = Some (StartDone (Ok futures)) ->
     futures = seq 0 (length definitions) /\
     forall f definition, definitions !! f = Some definition ->
       exists t, tasks (service_executor m) !! f = Some t /\ tk_definition t = definition /\
         (sd_execution_mode definition = FOREGROUND -> exists r, tk_state t = Ended r)) /\
  forall m', rtc work_step (call_start (prepared definitions signals)) m' ->
    (forall m'', ~ work_step m' m'') ->
    calls m' = [StartDone (Ok (seq 0 (length definitions)))].
Proof.
  intros [call Hm]%starting_reachable. split.
  - destruct (start_state_scheduled _ _ _ (sg_state _ _ _ Hm)) as (l1 & l2 & Hl & Hx).
    split_and!; [exists l2; by rewrite (sc_definitions _ _ Hx)|apply Hx|].
    intros futures Hc. destruct (starting_call _ _ _ _ _ Hm Hc) as [_ <-]; [done|].
    split; [apply (sg_state _ _ _ Hm)|]. intros f definition. by apply start_done with futures.
  - intros m' Hr. apply unstopped_rest. by apply unstopped_reachable.
Qed.

(** C19. [stop] ends every service, on every thread, also services that never end unless they are
    cancelled. Once [start] has scheduled the services, a call of [stop] has only finitely many
    steps before it, of its own and of services that end. Where there is none left, even if
    [endless] services end only once they have been cancelled (a service that is cancelled ends
    some time), [stop] has returned, so has [start], every service has ended, and every thread
    has been stopped, closed and joined. However often [stop] is called, by signals or
    otherwise, when a call returns without an exception all services have ended and all threads
    are closed. *)
Theorem stop_ends_services m :
  rtc work_step (call_start (prepared definitions signals)) m ->
  (exists call, calls m = [call] /\ past_scheduling call = true) ->
  let nothing_runs m' :=
    (forall f t, tasks (service_executor m') !! f = Some t -> exists r, tk_state t = Ended r) /\
    forall i thread, all_executors (service_executor m') !! i =
      Some (IsolatedThreadServiceExecutor thread) -> thread = LoopClosed in
  (forall n m', nsteps work_step n (call_stop m) m' -> n <= work_left (call_stop m)) /\
  (forall endless m', rtc work_step (call_stop m) m' ->
    (forall m'', ~ step_with_endless endless m' m'') ->
    calls m' !! 0%nat = Some (StartDone (Ok (seq 0 (length definitions)))) /\
    (exists progress, calls m' !! 1%nat = Some (Stopping progress (Some (Ok ())))) /\
    nothing_runs m') /\
  forall m' c progress, rtc manager_step (call_stop m) m' ->
    calls m' !! c = Some (Stopping progress (Some (Ok ()))) -> nothing_runs m'.
Proof.
  intros Hm%unstopped_reachable Hp nothing_runs.
  destruct (stop_starts m Hm Hp) as (Hs & progress & o & Hone). split_and!.
  - intros n m' Hn%runs_bounded. lia.
  - intros endless m' Hr Hno.
    assert (started m' /\ exists progress o, stopping_once m' progress o) as (Hs' & pr & o' & Hone').
    { revert Hs progress o Hone. clear -Hr. induction Hr as [|m1 m2 m3 Hw _ IH]; [by eauto|].
      intros Hs progress o Hone. destruct (stopping_once_work _ _ _ _ Hw Hs Hone) as (p2 & o2 & H2).
      eapply IH; [|exact H2]. eapply started_step; [by apply work|done]. }
    pose proof (stopping_once_rest _ _ _ _ Hone' Hno) as Hall.
    pose proof (so_call _ _ _ Hone') as Hcall. rewrite (so_outcome _ _ _ Hone'), Hall in Hcall.
    pose proof (stopped_all _ _ _ Hs' Hcall) as [Hended Hclosed].
    split; [|split; [by exists pr|done]].
    by apply (started_rest endless).
  - intros m' c pr Hr Hc. assert (started m') as Hs'; [|by eapply stopped_all].
    clear -Hr Hs. induction Hr as [|m1 m2 m3 Hw _ IH]; [done|]. apply IH. by eapply started_step.
Qed.
End stopping.

(** ** [stop] is for once, after [start] *)
Section once.
Context {Service : Type}.
Implicit Types (m : Manager Service) (x : Executors Service).

(** A call of [stop] of [n] executors, each part of which satisfies [P], with no outcome or one
    of [Q]. *)
Definition stop_is (n : nat) (P : nat -> StopProgress -> Prop) (Q : res () -> Prop)
    (call : Call) : Prop :=
  match call with
  | Stopping progress outcome =>
      length progress = n /\ (forall i p, progress !! i = Some p -> P i p) /\
      (forall r, outcome = Some r -> Q r)
  | _ => False
  end.

Lemma stop_is_got_on n P Q i p call :
  P i p -> (forall e, p = StopFailed e -> Q (Raise e)) ->
  (forall j, P j ExecutorStopped -> j = main_executor) -> 2 <= n ->
  stop_is n P Q call -> stop_is n P Q (got_on i p call).
Proof.
  intros Hp Hfail Hmain Hn. destruct call as [| | | |progress o]; try done. intros (Hlen & HP & HQ).
  assert (forall j q, <[i:=p]> progress !! j = Some q -> P j q) as HP'.
  { intros j q [(<- & <- & _)|[_ Hj]]%list_lookup_insert_Some; [done|by apply HP]. }
  cbn. split; [by rewrite length_insert|]. split; [exact HP'|]. intros r.
  unfold stop_outcome. destruct o as [r0|]; [apply HQ|].
  assert (forallb is_stopped (<[i:=p]> progress) = false) as ->.
  { apply not_true_iff_false. rewrite forallb_forall. intros Hall.
    destruct (lookup_lt_is_Some_2 (<[i:=p]> progress) shared_executor) as [q Hq];
      [rewrite length_insert; unfold shared_executor; lia|].
    assert (is_stopped q = true) as Hs
      by (apply Hall, list_elem_of_In; by eapply list_elem_of_lookup_2).
    destruct q; try done. apply HP' in Hq. by apply Hmain in Hq. }
  destruct p; try done. intros [= <-]. by apply Hfail.
Qed.

Lemma stop_is_progress n P Q c i m p call :
  calls m !! c = Some call -> stop_is n P Q call -> stop_progress c i m = Some p -> P i p.
Proof.
  intros Hc Hs (progress & o & Hc' & Hi)%stop_progress_Some. rewrite Hc in Hc'.
  injection Hc' as ->. by apply Hs.
Qed.

(** Before the threads have been started, [stop] waits for them. *)
Definition waits (i : nat) (p : StopProgress) : Prop :=
  match p with
  | StopCalled => True
  | ShutdownQueued => i <> main_executor
  | AwaitingTasks _ | ExecutorStopped => i = main_executor
  | StopFailed _ => False
  end.

(** After they have been closed, [stop] raises. *)
Definition refused (i : nat) (p : StopProgress) : Prop :=
  match p with
  | StopCalled => True
  | ShutdownQueued => False
  | AwaitingTasks _ | ExecutorStopped => i = main_executor
  | StopFailed e => i <> main_executor /\ e = RuntimeError "Event loop is closed"
  end.

Definition loop_closed (r : res ()) : Prop := r = Raise (RuntimeError "Event loop is closed").

(** A manager that has not been started and is not: [stop] never returns. *)
Record not_started m : Prop := {
  ns_executors : service_executor m = new_executors;
  ns_handlers : signal_handlers m = [];
  ns_calls : forall c call, calls m !! c = Some call ->
    stop_is 2 waits (fun _ => False) call
}.

Lemma not_started_set c i p q m :
  not_started m -> stop_progress c i m = Some q -> waits i p -> not_started (set_stop c i p m).
Proof.
  intros [Hx Hh Hcs] Hc Hp. split; [done..|]. intros k call Hk. cbn in Hk.
  destruct (decide (k = c)) as [->|Hne].
  - rewrite list_lookup_alter_eq in Hk. apply fmap_Some in Hk as (call0 & Hk & ->).
    apply stop_is_got_on; [done|by intros e ->|by intros j|done|by eapply Hcs].
  - rewrite list_lookup_alter_ne in Hk by done. by eapply Hcs.
Qed.

Lemma not_started_step m m' : manager_step m m' -> not_started m -> not_started m'.
Proof.
  intros Hs [Hx Hh Hcs].
  assert (not_started (call_stop m)) as Hstop.
  { split; [done..|]. intros c call. cbn. rewrite Hx.
    intros [Hc|[_ Hc]]%lookup_app_Some; [by eapply Hcs|].
    apply list_lookup_singleton_Some in Hc as [_ <-]. split; [done|]. split; [|done].
    intros i p [-> _]%lookup_replicate. done. }
  destruct Hs as [m m' Hw|m|sig m Hsig]; [|done..]. clear Hstop.
  destruct Hw as [c m m' H|c i m m' H|f t cancelled outcome m Hf Ht Hl|c c' i futures m Hc Hc'].
  - unfold continue_start in H. destruct (calls m !! c) as [call|] eqn:Ec; [|done].
    specialize (Hcs c call Ec). by destruct call.
  - destruct (stop_progress c i m) as [p|] eqn:Ep.
    2: { unfold continue_stop in H. rewrite Ep in H. by destruct (all_executors _ !! i) as [[|[]]|]. }
    destruct (stop_progress_Some _ _ _ _ Ep) as (progress & o & Hc & _).
    pose proof (stop_is_progress _ _ _ _ _ _ _ _ Hc (Hcs _ _ Hc) Ep) as Hp.
    unfold continue_stop in H. rewrite Ep, Hx in H. destruct i as [|[|i]]; cbn in H.
    + destruct p; try done; try case_match; simplify_eq.
      * apply (not_started_set _ _ _ StopCalled); [|done|done]. by split.
      * by eapply not_started_set.
    + destruct p; try done. injection H as <-. by eapply not_started_set.
    + done.
  - rewrite Hx in Hf. by destruct f.
  - destruct (stop_progress_Some _ _ _ _ Hc) as (progress & o & E & _).
    destruct (stop_progress_Some _ _ _ _ Hc') as (progress' & o' & E' & _).
    pose proof (stop_is_progress _ _ _ _ _ _ _ _ E (Hcs _ _ E) Hc) as Hne.
    by pose proof (stop_is_progress _ _ _ _ _ _ _ _ E' (Hcs _ _ E') Hc').
Qed.

(** [stop] before [start] waits for ever: whatever else is called, short of [start]. *)
Theorem stop_before_start_waits (definitions : list (ServiceDefinition Service)) signals m c call :
  rtc manager_step (call_stop (prepared definitions signals)) m -> calls m !! c = Some call ->
  exists progress, call = Stopping progress None.
Proof.
  intros Hr Hc. assert (not_started (call_stop (prepared definitions signals))) as H0.
  { eapply not_started_step; [apply stop_called|]. by split. }
  assert (not_started m) as [_ _ Hcs].
  { induction Hr as [|m1 m2 m3 Hs _ IH]; [done|]. by apply IH, (not_started_step m1). }
  specialize (Hcs c call Hc). destruct call as [| | | |progress [r|]]; try done; [|by exists progress].
  destruct Hcs as (_ & _ & Hno). by destruct (Hno r).
Qed.

(** A manager whose threads are closed, and call [c] of [stop] on it. *)
Record closed_again (definitions : list (ServiceDefinition Service)) (c : nat) m : Prop := {
  ca_started : started definitions m;
  ca_closed : forall i thread, all_executors (service_executor m) !! i =
    Some (IsolatedThreadServiceExecutor thread) -> thread = LoopClosed;
  ca_call : c <> 0%nat /\ exists call, calls m !! c = Some call /\
    stop_is (length (all_executors (service_executor m))) refused loop_closed call
}.

Lemma closed_again_set definitions c c' i p q m x :
  closed_again definitions c m -> stop_progress c' i m = Some q ->
  (refused i q -> refused i p) ->
  all_executors x = all_executors (service_executor m) ->
  started definitions (set_stop c' i p (with_executors x m)) ->
  closed_again definitions c (set_stop c' i p (with_executors x m)).
Proof.
  intros [Hs Hclosed (Hc0 & call & Hc & Hcall)] Hq Hp Hx Hs'. split; [done|cbn; by rewrite Hx|].
  split; [done|]. cbn. rewrite Hx. destruct (decide (c = c')) as [<-|Hne].
  - exists (got_on i p call). rewrite list_lookup_alter_eq, Hc. split; [done|].
    pose proof (stop_is_progress _ _ _ _ _ _ _ _ Hc Hcall Hq) as Hold. specialize (Hp Hold).
    apply stop_is_got_on; [done|by intros e ->; destruct Hp as [_ ->]|by intros j| |done].
    by apply (scheduled_two definitions), started_scheduled.
  - exists call. by rewrite list_lookup_alter_ne.
Qed.

Lemma closed_again_step definitions c m m' :
  work_step m m' -> closed_again definitions c m -> closed_again definitions c m'.
Proof.
  intros Hw Hm. pose proof (ca_started _ _ _ Hm) as Hs.
  assert (started definitions m') as Hs' by (eapply started_step; [by apply work|done]).
  pose proof (sc_main _ _ (started_scheduled _ _ Hs)) as Hmain.
  pose proof (sc_isolated _ _ (started_scheduled _ _ Hs)) as Hiso.
  destruct Hw as [k m m' H|k i m m' H|f t cancelled outcome m Hf Ht Hl|k c' i futures m Hc Hc'].
  - destruct (started_continue _ _ _ _ Hs H) as (_ & Hx & Hother).
    destruct Hm as [_ Hcl (Hc0 & Hcall)]. split; [done|by rewrite Hx|]. split; [done|].
    by rewrite Hx, Hother.
  - pose proof (ca_closed _ _ _ Hm i) as Hcl. unfold continue_stop in H.
    destruct (all_executors (service_executor m) !! i) as [[|th]|] eqn:Ei; [| |done].
    + assert (i = main_executor) as ->.
      { destruct (decide (i = main_executor)) as [|Hne]; [done|].
        by destruct (Hiso _ _ Hne Ei) as [th Hth]. }
      destruct (stop_progress k main_executor m) as [p|] eqn:Ep; [|done].
      destruct p; try done; try case_match; simplify_eq.
      * by eapply closed_again_set.
      * by apply (closed_again_set _ _ _ _ _ _ _ (service_executor m) Hm Ep).
    + specialize (Hcl th eq_refl) as ->. assert (i <> main_executor) as Hne by by intros ->; congruence.
      destruct (stop_progress k i m) as [p|] eqn:Ep; [|done].
      destruct p; try done; simplify_eq;
        by apply (closed_again_set _ _ _ _ _ _ _ (service_executor m) Hm Ep).
  - destruct Hm as [_ Hcl Hcall]. by split.
  - by apply (closed_again_set _ _ _ _ _ _ _ (service_executor m) Hm Hc).
Qed.

(** Once the threads are closed, as after a [stop] that returned, another [stop] raises. *)
Theorem stop_again_raises (definitions : list (ServiceDefinition Service)) m m' progress r :
  started definitions m ->
  (forall i thread, all_executors (service_executor m) !! i =
    Some (IsolatedThreadServiceExecutor thread) -> thread = LoopClosed) ->
  rtc work_step (call_stop m) m' ->
  calls m' !! length (calls m) = Some (Stopping progress (Some r)) ->
  r = Raise (RuntimeError "Event loop is closed").
Proof.
  intros Hs Hcl Hr Hc. assert (closed_again definitions (length (calls m)) (call_stop m)) as H0.
  { split; [eapply started_step; [apply stop_called|done]|done|]. split.
    - destruct Hs as [(call & Hst & _) _]. destruct (sg_calls _ _ _ Hst) as (rest & Hrest & _).
      by destruct (calls m).
    - eexists. split; [apply list_lookup_middle; done|]. split; [apply length_replicate|].
      split; [|done]. intros i p [-> _]%lookup_replicate. done. }
  revert Hc H0. generalize (length (calls m)) as c. intros c Hc.
  induction Hr as [|m1 m2 m3 Hw _ IH]; intros H0.
  - destruct H0 as [_ _ (_ & call & Hc' & Hcall)]. rewrite Hc in Hc'. injection Hc' as <-.
    destruct Hcall as (_ & _ & Hq). by apply Hq.
  - apply IH; [done|]. by eapply closed_again_step.
Qed.
End once.

(** ** Witnesses *)
Module service_examples.

(** A run, by the choices made in it. *)
Inductive Choice :=
  | StartGoesOn (c : nat)
  | StopGoesOn (c i : nat)
  | ServiceEnds (f : nat) (outcome : res Val).

Definition choose (choice : Choice) (m : Manager string) : option (Manager string) :=
  match choice with
  | StartGoesOn c => continue_start c m
  | StopGoesOn c i => continue_stop c i m
  | ServiceEnds f outcome =>
      match tasks (service_executor m) !! f with
      | Some t =>
          match tk_state t with
          | Executing _ =>
              if loop_runs (tk_executor t) (service_executor m)
              then Some (with_executors (end_task f outcome (service_executor m)) m) else None
          | Ended _ => None
          end
      | None => None
      end
  end.

Fixpoint run (choices : list Choice) (m : Manager string) : option (Manager string) :=
  match choices with
  | [] => Some m
  | choice :: rest => m' ← choose choice m; run rest m'
  end.

Lemma choose_step choice m m' : choose choice m = Some m' -> work_step m m'.
Proof.
  destruct choice as [c|c i|f outcome]; cbn.
  - apply start_continues.
  - apply stop_continues.
  - intros H. repeat case_match; simplify_eq. by eapply service_ends.
Qed.

Lemma run_steps choices m m' : run choices m = Some m' -> rtc work_step m m'.
Proof.
  revert m. induction choices as [|choice rest IH]; intros m; cbn; [by intros [= ->]|].
  destruct (choose choice m) as [m1|] eqn:E; [|done]. cbn. intros H.
  eapply rtc_l; [by eapply choose_step|by apply IH].
Qed.

Definition services : list (ServiceDefinition string) :=
  [mkServiceDefinition "migrate"%string FOREGROUND MAIN_THREAD;
   mkServiceDefinition "broker"%string BACKGROUND SHARED_THREAD;
   mkServiceDefinition "poll"%string BACKGROUND DEDICATED_THREAD].

(** The manager they have been registered on, to be stopped by two signals. *)
Example registered :
  stop_on [2; 15]%Z (register "poll" BACKGROUND DEDICATED_THREAD
    (register "broker" BACKGROUND SHARED_THREAD
      (register "migrate" FOREGROUND MAIN_THREAD new_manager))) =
  prepared services [2; 15]%Z.
Proof. reflexivity. Qed.

Definition starts : list Choice :=
  [StartGoesOn 0; StartGoesOn 0; ServiceEnds 0 (Ok VNone); StartGoesOn 0].

Definition running : Manager string :=
  default new_manager (run starts (call_start (prepared services [2; 15]%Z))).

Lemma running_steps : rtc work_step (call_start (prepared services [2; 15]%Z)) running.
Proof. apply (run_steps starts). vm_compute. reflexivity. Qed.

Lemma start_runs_services_witness :
  calls running = [StartDone (Ok [0; 1; 2]%nat)] /\
  exists t, tasks (service_executor running) !! 0%nat = Some t /\
    tk_definition t = mkServiceDefinition "migrate"%string FOREGROUND MAIN_THREAD /\
    exists r, tk_state t = Ended r.
Proof.
  split; [vm_compute; reflexivity|].
  destruct (start_runs_services services [2; 15]%Z running) as [(_ & _ & H) _].
  - eapply rtc_subrel; [|exact running_steps]. intros m m'. apply work.
  - destruct (H [0; 1; 2]%nat) as [_ Hall]; [vm_compute; reflexivity|].
    destruct (Hall 0%nat _ eq_refl) as (t & Ht & Hd & Hended). exists t.
    split; [exact Ht|]. split; [exact Hd|]. by apply Hended.
Defined.

Definition stops : list Choice :=
  [StopGoesOn 1 0; StopGoesOn 1 1; StopGoesOn 1 2; StopGoesOn 1 0; StopGoesOn 1 2; StopGoesOn 1 1;
   ServiceEnds 2 (Raise CancelledError); ServiceEnds 1 (Raise CancelledError);
   StopGoesOn 1 1; StopGoesOn 1 2].

Lemma stop_ends_services_witness :
  exists m, run stops (call_stop running) = Some m /\
    (forall f t, tasks (service_executor m) !! f = Some t -> exists r, tk_state t = Ended r) /\
    length stops <= work_left (call_stop running).
Proof.
  destruct (stop_ends_services services [2; 15]%Z running running_steps) as (Hbound & _ & Hsafe).
  - eexists. split; vm_compute; reflexivity.
  - eexists. split; [vm_compute; reflexivity|]. split.
    + eapply (Hsafe _ 1%nat); [|vm_compute; reflexivity].
      eapply rtc_subrel; [intros m m'; apply work|].
      apply (run_steps stops). vm_compute. reflexivity.
    + vm_compute. lia.
Defined.

Lemma stop_before_start_waits_witness :
  exists progress, calls (call_stop (prepared services [])) = [Stopping progress None].
Proof.
  destruct (stop_before_start_waits services [] (call_stop (prepared services [])) 0%nat
    (Stopping [StopCalled; StopCalled] None)) as [progress H].
  - apply rtc_refl.
  - reflexivity.
  - exists progress. rewrite <-H. reflexivity.
Defined.

(** A signal that stops the services, and the end of an [async with] that stops them again. *)
Example signal_then_exit :
  (m ← run stops (call_stop running);
   m ← run [StopGoesOn 2 0; StopGoesOn 2 1] (call_stop m);
   calls m !! 2%nat) =
  Some (Stopping [AwaitingTasks []; StopFailed (RuntimeError "Event loop is closed"); StopCalled]
    (Some (Raise (RuntimeError "Event loop is closed")))).
Proof. vm_compute. reflexivity. Qed.
End service_examples.
