(* ===== verification/BrokerState.v ===== *)
(** The state the nodes of a distributed broker share: which subscribers there are and which
    event sources each is subscribed to
    ([processing/broker/strategies/distributed/{subscribers,subscriptions}/stores/state/]),
    with the stores that keep it in memory. *)
From S2P Require Import Prelude Values.

(** [EventSubscriberKey] and [EventSubscriptionKey]: the same group and id. *)
Record EventKey := mkKey { key_group : string; key_id : string }.

#[export] Instance EventKey_eq_dec : EqDecision EventKey.
Proof. solve_decision. Defined.

(** What the broker sees of an [EventSubscriber] ([broker/types.py]). *)
Record EventSubscriber := mkSubscriber {
  es_key : EventKey;
  es_requests : list EventSourceIdentifier;
  es_healthy : bool
}.

Record EventSubscriberState := mkSubscriberState {
  ss_group : string;
  ss_id : string;
  ss_node_id : string;
  ss_requests : list EventSourceIdentifier;
  ss_last_seen : Z
}.

#[export] Instance EventSubscriberState_eq_dec : EqDecision EventSubscriberState.
Proof. solve_decision. Defined.

(** [key] and [subscription_key]. *)
Definition subscriber_key (s : EventSubscriberState) : EventKey := mkKey (ss_group s) (ss_id s).

Record EventSubscriptionState := mkSubscriptionState {
  sn_group : string;
  sn_id : string;
  sn_node_id : string;
  sn_event_sources : list EventSourceIdentifier
}.

#[export] Instance EventSubscriptionState_eq_dec : EqDecision EventSubscriptionState.
Proof. solve_decision. Defined.

(** [key] and [subscriber_key]. *)
Definition subscription_key (s : EventSubscriptionState) : EventKey :=
  mkKey (sn_group s) (sn_id s).

Inductive EventSubscriptionStateChangeType := ADD | REMOVE | REPLACE.

Record EventSubscriptionStateChange := mkChange {
  ch_type : EventSubscriptionStateChangeType;
  ch_subscription : EventSubscriptionState
}.

Definition change_key (change : EventSubscriptionStateChange) : EventKey :=
  subscription_key (ch_subscription change).

(** ** [InMemoryEventSubscriberStateStore] *)

(** The clock is read once by each operation: [now]. *)
Record SubscriberStateStore := mkSubscriberStateStore {
  su_node_id : string;
  su_subscribers : list EventSubscriberState
}.

(** The state of a subscriber seen now by the store's node. *)
Definition seen (node_id : string) (now : Z) (subscriber : EventSubscriber) :
    EventSubscriberState :=
  mkSubscriberState (key_group (es_key subscriber)) (key_id (es_key subscriber)) node_id
    (es_requests subscriber) now.

Definition set_subscribers (subscribers : list EventSubscriberState)
    (store : SubscriberStateStore) : SubscriberStateStore :=
  mkSubscriberStateStore (su_node_id store) subscribers.

(** [next(... if subscriber.key == candidate.key)] with its index. *)
Definition find_subscriber (key : EventKey) (subscribers : list EventSubscriberState) :
    option (nat * EventSubscriberState) :=
  list_find (fun candidate => key = subscriber_key candidate) subscribers.

Definition heartbeat (now : Z) (subscriber : EventSubscriber) (store : SubscriberStateStore) :
    SubscriberStateStore :=
  match find_subscriber (es_key subscriber) (su_subscribers store) with
  | None => store
  | Some (index, _) =>
      set_subscribers (<[index := seen (su_node_id store) now subscriber]> (su_subscribers store))
        store
  end.

Definition add_subscriber (now : Z) (subscriber : EventSubscriber)
    (store : SubscriberStateStore) : SubscriberStateStore :=
  match find_subscriber (es_key subscriber) (su_subscribers store) with
  | Some _ => heartbeat now subscriber store
  | None => set_subscribers (su_subscribers store ++ [seen (su_node_id store) now subscriber]) store
  end.

(** [list.remove]: the first equal element. *)
Fixpoint list_remove_first (x : EventSubscriberState) (l : list EventSubscriberState) :
    list EventSubscriberState :=
  match l with
  | [] => []
  | y :: l' => if decide (y = x) then l' else y :: list_remove_first x l'
  end.

Definition remove_subscriber (subscriber : EventSubscriber) (store : SubscriberStateStore) :
    SubscriberStateStore :=
  match find_subscriber (es_key subscriber) (su_subscribers store) with
  | None => store
  | Some (_, existing) => set_subscribers (list_remove_first existing (su_subscribers store)) store
  end.

Definition list_subscribers (group : option string) (max_time_since_last_seen : option Z) (now : Z)
    (store : SubscriberStateStore) : list EventSubscriberState :=
  let subscribers :=
    match group with
    | None => su_subscribers store
    | Some g => List.filter (fun s => bool_decide (ss_group s = g)) (su_subscribers store)
    end in
  match max_time_since_last_seen with
  | None => subscribers
  | Some age => List.filter (fun s => (now - age <? ss_last_seen s)%Z) subscribers
  end.

(** [for subscriber in self.subscribers: if stale: self.subscribers.remove(subscriber)]: the
    iterator holds an index into the list that the loop shortens. *)
Fixpoint purge_from (fuel index : nat) (cutoff : Z) (subscribers : list EventSubscriberState) :
    list EventSubscriberState :=
  match fuel with
  | O => subscribers
  | S fuel' =>
      match subscribers !! index with
      | None => subscribers
      | Some subscriber =>
          purge_from fuel' (S index) cutoff
            (if (ss_last_seen subscriber <=? cutoff)%Z
             then list_remove_first subscriber subscribers else subscribers)
      end
  end.

(** The index grows at each turn, so that as many turns as there are subscribers are enough. *)
Definition purge (max_time_since_last_seen now : Z) (store : SubscriberStateStore) :
    SubscriberStateStore :=
  set_subscribers (purge_from (length (su_subscribers store)) 0 (now - max_time_since_last_seen)
    (su_subscribers store)) store.

(** ** [InMemoryEventSubscriptionStateStore] *)

Record SubscriptionStateStore := mkSubscriptionStateStore {
  st_node_id : string;
  st_subscriptions : dict EventKey EventSubscriptionState
}.

Definition set_subscriptions (subscriptions : dict EventKey EventSubscriptionState)
    (store : SubscriptionStateStore) : SubscriptionStateStore :=
  mkSubscriptionStateStore (st_node_id store) subscriptions.

(** What [add] and [replace] keep: the node is the store's own. *)
Definition kept (node_id : string) (subscription : EventSubscriptionState) :
    EventSubscriptionState :=
  mkSubscriptionState (sn_group subscription) (sn_id subscription) node_id
    (sn_event_sources subscription).

Definition list_subscriptions (store : SubscriptionStateStore) : list EventSubscriptionState :=
  dict_values (st_subscriptions store).

Definition put_subscription (subscription : EventSubscriptionState) :
    ST SubscriptionStateStore () := fun store =>
  (Ok (), set_subscriptions (dict_set (st_subscriptions store) (subscription_key subscription)
    (kept (st_node_id store) subscription)) store).

Definition get_subscription (key : EventKey) (store : SubscriptionStateStore) :
    option EventSubscriptionState := dict_get (st_subscriptions store) key.

Definition add_subscription (subscription : EventSubscriptionState) :
    ST SubscriptionStateStore () := fun store =>
  match get_subscription (subscription_key subscription) store with
  | Some _ => (Raise (ValueError "Can't add existing subscription."), store)
  | None => put_subscription subscription store
  end.

Definition remove_subscription (subscription : EventSubscriptionState) :
    ST SubscriptionStateStore () := fun store =>
  match get_subscription (subscription_key subscription) store with
  | None => (Raise (ValueError "Can't remove missing subscription."), store)
  | Some _ =>
      (Ok (), set_subscriptions (dict_pop (st_subscriptions store)
        (subscription_key subscription)) store)
  end.

Definition replace_subscription (subscription : EventSubscriptionState) :
    ST SubscriptionStateStore () := fun store =>
  match get_subscription (subscription_key subscription) store with
  | None => (Raise (ValueError "Can't replace missing subscription."), store)
  | Some _ => put_subscription subscription store
  end.

Definition apply_change (change : EventSubscriptionStateChange) :
    ST SubscriptionStateStore () :=
  match ch_type change with
  | ADD => add_subscription (ch_subscription change)
  | REPLACE => replace_subscription (ch_subscription change)
  | REMOVE => remove_subscription (ch_subscription change)
  end.

Fixpoint apply_all (changes : list EventSubscriptionStateChange) : ST SubscriptionStateStore () :=
  match changes with
  | [] => mret ()
  | change :: rest => _ ← apply_change change; apply_all rest
  end.

(** [apply]: the keys of the changes must differ ([len(set(keys)) != len(changes)]). *)
Definition apply_changes (changes : list EventSubscriptionStateChange) :
    ST SubscriptionStateStore () :=
  if decide (length (remove_dups (change_key <$> changes)) = length changes)
  then apply_all changes
  else st_lift (Raise (ValueError "Multiple changes present for same subscription key.")).

(** * Theorems *)

(** ** Purging *)

Definition stale (cutoff : Z) (s : EventSubscriberState) : bool := (ss_last_seen s <=? cutoff)%Z.

(** What the loop leaves, read off the list: the subscriber after a removed one is not
    looked at. *)
Fixpoint skip_purge (cutoff : Z) (l : list EventSubscriberState) : list EventSubscriberState :=
  match l with
  | [] => []
  | s :: rest =>
      if stale cutoff s then
        match rest with [] => [] | next :: rest' => next :: skip_purge cutoff rest' end
      else s :: skip_purge cutoff rest
  end.

Lemma list_remove_first_app s pre rest :
  s ∉ pre -> list_remove_first s (pre ++ s :: rest) = pre ++ rest.
Proof.
  induction pre as [|x pre IH]; cbn; [by rewrite decide_True|].
  rewrite not_elem_of_cons. intros [Hx Hpre]. rewrite decide_False by done. by rewrite IH.
Qed.

Lemma purge_from_skip fuel cutoff pre l :
  (length l <= fuel)%nat -> NoDup (pre ++ l) ->
  purge_from fuel (length pre) cutoff (pre ++ l) = pre ++ skip_purge cutoff l.
Proof.
  revert pre l. induction fuel as [|fuel IH]; intros pre l Hl Hnd.
  { destruct l; cbn in *; [done|lia]. }
  destruct l as [|s rest]; cbn [purge_from skip_purge].
  { by rewrite lookup_ge_None_2 by (rewrite length_app; cbn; lia). }
  rewrite list_lookup_middle by done. cbn in Hl. fold (stale cutoff s).
  destruct (stale cutoff s).
  - rewrite list_remove_first_app.
    2: { intros Hs. apply NoDup_app in Hnd as (_ & Hd & _). apply (Hd s Hs). constructor. }
    assert (NoDup (pre ++ rest)) as Hnd'.
    { revert Hnd. rewrite <-Permutation_middle. by intros [_ ?]%NoDup_cons. }
    destruct rest as [|next rest'].
    + specialize (IH (pre ++ []) []). rewrite app_nil_r in IH. destruct fuel; cbn; [done|].
      by rewrite app_nil_r, lookup_ge_None_2 by lia.
    + rewrite (cons_middle next pre rest'), (cons_middle next pre (skip_purge _ _)), !app_assoc.
      replace (S (length pre)) with (length (pre ++ [next])) by (rewrite length_app; cbn; lia).
      apply IH; [cbn in *; lia|]. by rewrite <-app_assoc.
  - rewrite (cons_middle s pre rest), (cons_middle s pre (skip_purge _ _)), !app_assoc.
    replace (S (length pre)) with (length (pre ++ [s])) by (rewrite length_app; cbn; lia).
    apply IH; [lia|]. by rewrite <-app_assoc.
Qed.

(** Two at a time, as the loop goes. *)
Lemma skip_purge_ind cutoff (P : list EventSubscriberState -> Prop) :
  P [] -> (forall s, stale cutoff s = true -> P [s]) ->
  (forall s next l, stale cutoff s = true -> P l -> P (s :: next :: l)) ->
  (forall s l, stale cutoff s = false -> P l -> P (s :: l)) -> forall l, P l.
Proof.
  intros H0 H1 H2 H3.
  enough (forall n l, (length l <= n)%nat -> P l) as H by (intros l; by apply (H (length l))).
  induction n as [|n IH]; intros [|s l] Hl; cbn in Hl; [done|lia|done|].
  destruct (stale cutoff s) eqn:E; [|apply H3; [done|apply IH; lia]].
  destruct l as [|next l]; [by apply H1|]. apply H2; [done|]. apply IH. cbn in *. lia.
Qed.

(** A purge ends with the subscribers seen since the cutoff, all of them and in order,
    and leaves out one who was not and the next one unexamined, whoever that is: so at most
    half of the stale subscribers are left, and of two in a row the second is. *)
Theorem purge_skips max_age now store :
  NoDup (subscriber_key <$> su_subscribers store) ->
  let cutoff := (now - max_age)%Z in
  let before := su_subscribers store in
  let after := su_subscribers (purge max_age now store) in
  after = skip_purge cutoff before /\
  List.filter (fun s => negb (stale cutoff s)) after =
    List.filter (fun s => negb (stale cutoff s)) before /\
  (2 * length (List.filter (stale cutoff) after) <= length (List.filter (stale cutoff) before))%nat.
Proof.
  intros Hnd cutoff before after. assert (after = skip_purge cutoff before) as Hafter.
  { unfold after, purge. cbn. apply (purge_from_skip _ _ []); [done|].
    by apply NoDup_fmap_1 in Hnd. }
  split; [done|]. rewrite Hafter. generalize before as l. clear. intros l.
  induction l as [|s Hs|s next l Hs [IH1 IH2]|s l Hs [IH1 IH2]] using (skip_purge_ind cutoff);
    cbn; rewrite ?Hs; cbn; rewrite ?Hs; cbn; [split; [done|lia]..| |].
  - rewrite IH1. destruct (stale cutoff next); cbn; split; (done || lia).
  - rewrite IH1. split; [done|lia].
Qed.

(** ** Applying changes *)

(** What a change needs of the store: [add] a new key, the others one that is there. *)
Definition applicable (store : SubscriptionStateStore) (change : EventSubscriptionStateChange) :
    Prop :=
  match ch_type change with
  | ADD => get_subscription (change_key change) store = None
  | REMOVE | REPLACE => is_Some (get_subscription (change_key change) store)
  end.

#[export] Instance applicable_dec store change : Decision (applicable store change).
Proof. unfold applicable. destruct (ch_type change); apply _. Defined.

(** The subscription of a key after some changes with different keys. *)
Fixpoint changed (changes : list EventSubscriptionStateChange) (store : SubscriptionStateStore)
    (key : EventKey) : option EventSubscriptionState :=
  match changes with
  | [] => get_subscription key store
  | change :: rest =>
      if decide (change_key change = key) then
        match ch_type change with
        | REMOVE => None
        | _ => Some (kept (st_node_id store) (ch_subscription change))
        end
      else changed rest store key
  end.

Lemma apply_change_spec change store :
  exists result store', apply_change change store = (result, store') /\
    st_node_id store' = st_node_id store /\
    if decide (applicable store change)
    then result = Ok () /\ forall key, get_subscription key store' = changed [change] store key
    else is_value_error result = true /\ store' = store.
Proof.
  destruct change as [type subscription]. case_decide as Ha; revert Ha;
    unfold apply_change, applicable, change_key; cbn [ch_type ch_subscription];
    destruct type; unfold add_subscription, remove_subscription, replace_subscription,
      put_subscription;
    destruct (get_subscription (subscription_key subscription) store) as [s|] eqn:E;
    intros Ha; try (by destruct Ha); try (by exfalso; apply Ha; eauto);
    do 2 eexists; (split; [done|]); (split; [done|]); (split; [done|]); try done;
    intros key; unfold get_subscription; cbn; unfold change_key; cbn;
    rewrite ?dict_get_set, ?dict_get_pop; done.
Qed.

Lemma changed_app pre post store key :
  changed (pre ++ post) store key =
  if decide (key ∈ change_key <$> pre) then changed pre store key else changed post store key.
Proof.
  induction pre as [|change pre IH]; cbn.
  { by rewrite decide_False by apply not_elem_of_nil. }
  destruct (decide (change_key change = key)) as [Hk|Hk].
  - rewrite decide_True; [done|]. subst. constructor.
  - rewrite IH. destruct (decide (key ∈ change_key <$> pre)) as [Hin|Hin].
    + rewrite decide_True; [done|by constructor].
    + rewrite decide_False; [done|]. intros [->|?]%elem_of_cons; done.
Qed.

Lemma changed_out changes store key :
  key ∉ change_key <$> changes -> changed changes store key = get_subscription key store.
Proof.
  induction changes as [|c cs IH]; cbn; [done|]. rewrite not_elem_of_cons. intros [Hc Hk].
  rewrite decide_False by done. by apply IH.
Qed.

Lemma changed_ext changes s1 s2 key :
  st_node_id s1 = st_node_id s2 -> get_subscription key s1 = get_subscription key s2 ->
  changed changes s1 key = changed changes s2 key.
Proof. intros Hn Hg. induction changes as [|c cs IH]; cbn; [done|]. by rewrite IH, Hn. Qed.

Lemma applicable_ext s1 s2 change :
  get_subscription (change_key change) s1 = get_subscription (change_key change) s2 ->
  applicable s1 change <-> applicable s2 change.
Proof. unfold applicable. by intros ->. Qed.

Lemma apply_all_app pre post store :
  NoDup (change_key <$> pre) -> Forall (applicable store) pre ->
  exists store', apply_all (pre ++ post) store = apply_all post store' /\
    st_node_id store' = st_node_id store /\
    forall key, get_subscription key store' = changed pre store key.
Proof.
  revert store. induction pre as [|change pre IH]; intros store; [by exists store|].
  intros [Hk Hnd]%NoDup_cons [Ha Hpre]%Forall_cons.
  destruct (apply_change_spec change store) as (r & s1 & E & Hn & Hs).
  rewrite decide_True in Hs by done. destruct Hs as [-> Hs].
  assert (forall key, change_key change <> key ->
    get_subscription key s1 = get_subscription key store) as Hother.
  { intros key Hne. rewrite Hs. cbn. by rewrite decide_False. }
  destruct (IH s1 Hnd) as (s2 & E2 & Hn2 & Hs2).
  { apply Forall_forall. intros c Hc. rewrite Forall_forall in Hpre.
    eapply applicable_ext; [|by apply Hpre]. apply Hother. intros Heq. apply Hk.
    rewrite Heq. by apply list_elem_of_fmap_2. }
  exists s2. split; [|split; [congruence|]].
  - cbn [app apply_all]. change ((apply_change change ≫= (fun _ => apply_all (pre ++ post))) store =
      apply_all post s2). unfold mbind, ST_bind. by rewrite E.
  - intros key. rewrite Hs2. cbn. destruct (decide (change_key change = key)) as [<-|Hne].
    + rewrite changed_out by done. rewrite Hs. cbn. by rewrite decide_True.
    + apply changed_ext; [done|by apply Hother].
Qed.

Lemma remove_dups_length_NoDup {A} `{EqDecision A} (l : list A) :
  length (remove_dups l) = length l <-> NoDup l.
Proof.
  assert (forall l : list A, (length (remove_dups l) <= length l)%nat) as Hle.
  { intros k. induction k as [|x k IH]; cbn; [done|]. destruct (decide_rel _ _ _); cbn; lia. }
  split.
  - induction l as [|x l IH]; cbn; [constructor|].
    destruct (decide_rel _ x l) as [Hx|Hx]; cbn; [specialize (Hle l); lia|].
    intros [= H]. by constructor; [|apply IH].
  - intros H. apply Permutation_length, NoDup_Permutation; [apply NoDup_remove_dups|done|].
    apply elem_of_remove_dups.
Qed.

Lemma apply_change_NoDup change store r store' :
  apply_change change store = (r, store') ->
  NoDup (dict_keys (st_subscriptions store)) -> NoDup (dict_keys (st_subscriptions store')).
Proof.
  unfold apply_change, add_subscription, remove_subscription, replace_subscription,
    put_subscription.
  destruct (ch_type change), (get_subscription _ store); intros [= _ <-]; try done;
    by first [apply dict_set_NoDup|apply dict_pop_NoDup].
Qed.

Lemma apply_all_NoDup changes store r store' :
  apply_all changes store = (r, store') ->
  NoDup (dict_keys (st_subscriptions store)) -> NoDup (dict_keys (st_subscriptions store')).
Proof.
  revert store. induction changes as [|c cs IH]; intros store; [by intros [= _ <-]|].
  change (apply_all (c :: cs) store) with ((apply_change c ≫= (fun _ => apply_all cs)) store).
  unfold mbind, ST_bind. destruct (apply_change c store) as [[u|e] s1] eqn:E.
  - intros Ha Hnd. apply (IH _ Ha). by eapply apply_change_NoDup.
  - intros [= _ <-]. by eapply apply_change_NoDup.
Qed.

(** Changes that can be made are all made. *)
Lemma apply_changes_ok changes store :
  NoDup (change_key <$> changes) -> Forall (applicable store) changes ->
  exists store', apply_changes changes store = (Ok (), store') /\
    (NoDup (dict_keys (st_subscriptions store)) -> NoDup (dict_keys (st_subscriptions store'))) /\
    forall key, get_subscription key store' = changed changes store key.
Proof.
  intros Hnd Ha. unfold apply_changes. rewrite <-(length_fmap change_key changes).
  rewrite decide_True by by rewrite remove_dups_length_NoDup.
  destruct (apply_all_app changes [] store Hnd Ha) as (s & E & _ & Hs).
  rewrite app_nil_r in E. exists s. split_and!; [done|by eapply apply_all_NoDup|done].
Qed.

(** [apply] refuses changes with a key twice before it touches the store. Otherwise it
    makes the changes in turn: all of them when each adds a key that is not there or removes
    or replaces one that is, and each subscription kept is then the one of its change, under
    the store's node; at the first change that cannot be made it raises, and the changes
    before that one stay made. *)
Theorem apply_changes_spec changes store :
  (~ NoDup (change_key <$> changes) ->
    apply_changes changes store =
      (Raise (ValueError "Multiple changes present for same subscription key."), store)) /\
  (NoDup (change_key <$> changes) -> Forall (applicable store) changes ->
    exists store', apply_changes changes store = (Ok (), store') /\
      forall key, get_subscription key store' = changed changes store key) /\
  (forall pre change post, changes = pre ++ change :: post ->
    NoDup (change_key <$> changes) -> Forall (applicable store) pre ->
    ~ applicable store change ->
    exists message store', apply_changes changes store = (Raise (ValueError message), store') /\
      forall key, get_subscription key store' = changed pre store key).
Proof.
  split_and!.
  - intros Hnd. unfold apply_changes. rewrite <-(length_fmap change_key changes).
    rewrite decide_False; [done|]. by rewrite remove_dups_length_NoDup.
  - intros Hnd Ha. destruct (apply_changes_ok changes store Hnd Ha) as (s & E & _ & Hs). by exists s.
  - intros pre change post -> Hnd Hpre Hbad. unfold apply_changes.
    rewrite <-(length_fmap change_key (pre ++ change :: post)).
    rewrite decide_True by by rewrite remove_dups_length_NoDup.
    rewrite fmap_app in Hnd. apply NoDup_app in Hnd as (Hndp & Hd & _).
    destruct (apply_all_app pre (change :: post) store Hndp Hpre) as (s & -> & _ & Hs).
    destruct (apply_change_spec change s) as (r & s' & E & _ & Hr).
    rewrite decide_False in Hr.
    + destruct Hr as [Hr ->]. destruct r as [|[message| | | | | | | | | |]]; try done.
      exists message, s. split; [|done].
      change ((apply_change change ≫= (fun _ => apply_all post)) s = (Raise (ValueError message), s)).
      unfold mbind, ST_bind. by rewrite E.
    + intros Ha. apply Hbad. eapply applicable_ext; [|exact Ha]. rewrite Hs.
      symmetry. apply changed_out. intros Hin. apply (Hd _ Hin). constructor.
Qed.

(** ** Witnesses *)

(** Two subscribers of a node that died, then one that is alive. *)
Definition dead_node : SubscriberStateStore :=
  mkSubscriberStateStore "node-2"
    [mkSubscriberState "orders" "1" "node-1" [LogIdentifier] 10;
     mkSubscriberState "orders" "2" "node-1" [LogIdentifier] 11;
     mkSubscriberState "orders" "3" "node-2" [LogIdentifier] 90].

Lemma purge_skips_witness :
  su_subscribers (purge 50 100 dead_node) = skip_purge 50 (su_subscribers dead_node) /\
  ss_id <$> su_subscribers (purge 50 100 dead_node) = ["2"; "3"].
Proof.
  split; [|reflexivity].
  refine (proj1 (purge_skips 50 100 dead_node _)). apply (bool_decide_unpack _). reflexivity.
Defined.
