(* ===== verification/Coordinator.v ===== *)
(** Distributing event sources over subscribers:
    [processing/broker/strategies/distributed/coordinator.py]. *)
From S2P Require Import Prelude Values Conversion BrokerState.

(** [values[start::step]] for a positive step: [fuel] elements at most, of which a list has
    no more than its length. *)
Fixpoint stride {A} (fuel start step : nat) (values : list A) : list A :=
  match fuel with
  | O => []
  | S fuel' =>
      match values !! start with
      | None => []
      | Some value => value :: stride fuel' (start + step) step values
      end
  end.

Definition chunk {A} (values : list A) (chunks : nat) : list (list A) :=
  (fun i => stride (length values) i chunks values) <$> seq 0 chunks.

(** [itertools.groupby]: neighbours with the same key. *)
Fixpoint groupby {A K} `{EqDecision K} (key : A -> K) (l : list A) : list (K * list A) :=
  match l with
  | [] => []
  | x :: rest =>
      match groupby key rest with
      | (k, xs) :: groups =>
          if decide (key x = k) then (k, x :: xs) :: groups else (key x, [x]) :: (k, xs) :: groups
      | [] => [(key x, [x])]
      end
  end.

Section coordinator.
Context `{SetOrder}.

(** [{s.key: s for s in ...}]. *)
Definition subscription_map (subscriptions : list EventSubscriptionState) :
    dict EventKey EventSubscriptionState := dict_of subscription_key id subscriptions.
Definition subscriber_map (subscribers : list EventSubscriberState) :
    dict EventKey EventSubscriberState := dict_of subscriber_key id subscribers.

Definition remove_change (subscription : EventSubscriptionState) : EventSubscriptionStateChange :=
  mkChange REMOVE subscription.

(** The changes for the subscriptions whose subscriber is not there any more. *)
Definition orphan_changes (subscriptions : list EventSubscriptionState)
    (live : dict EventKey EventSubscriberState) : list EventSubscriptionStateChange :=
  remove_change <$>
    List.filter (fun s => negb (bool_decide (subscription_key s ∈ dict_keys live))) subscriptions.

(** The largest set of requests of a group: the one all its subscribers are given. *)
Definition requests_by_count (group : list EventSubscriberState) :
    list (list EventSourceIdentifier) :=
  py_sorted Nat.ltb length true (set_iter (ss_requests <$> group)).

(** The subscription an eligible subscriber ends up with. *)
Definition eligible_change (group : string) (existing : dict EventKey EventSubscriptionState)
    (removed : list EventSourceIdentifier) (subscriber : EventSubscriberState)
    (new_event_sources : list EventSourceIdentifier) : EventSubscriptionStateChange :=
  match dict_get existing (subscriber_key subscriber) with
  | None =>
      mkChange ADD (mkSubscriptionState group (ss_id subscriber) (ss_node_id subscriber)
        new_event_sources)
  | Some subscription =>
      mkChange REPLACE (mkSubscriptionState group (ss_id subscriber) (ss_node_id subscriber)
        (set_diff (sn_event_sources subscription) removed ++ new_event_sources))
  end.

(** One round of the loop over the groups. *)
Definition group_changes (existing : dict EventKey EventSubscriptionState)
    (live : dict EventKey EventSubscriberState) (group : string)
    (subscribers : list EventSubscriberState) : res (list EventSubscriptionStateChange) :=
  let group_subscriptions := omap (fun s => dict_get existing (subscriber_key s)) subscribers in
  match requests_by_count subscribers with
  | [] => Raise (RuntimeError "coroutine raised StopIteration")
  | target :: _ =>
      let ineligible := set_iter
        (List.filter (fun s => negb (bool_decide (ss_requests s = target))) subscribers) in
      let eligible := set_iter
        (List.filter (fun s => bool_decide (ss_requests s = target)) subscribers) in
      let eligible_map := subscriber_map eligible in
      let all_allocated := concat (sn_event_sources <$>
        List.filter (fun s => bool_decide (subscription_key s ∈ dict_keys live))
          group_subscriptions) in
      let correctly_allocated := List.filter (fun source => bool_decide (source ∈ target))
        (concat (sn_event_sources <$>
          List.filter (fun s => bool_decide (subscription_key s ∈ dict_keys eligible_map))
            group_subscriptions)) in
      let removed := List.filter (fun source => negb (bool_decide (source ∈ target)))
        all_allocated in
      let new_event_sources := set_diff target correctly_allocated in
      let chunks := chunk new_event_sources (length eligible) in
      Ok ((remove_change <$> omap (fun s => dict_get existing (subscriber_key s)) ineligible) ++
          zip_with (eligible_change group existing removed) eligible chunks)
  end.

(** The changes of one [distribute]. *)
Definition distribution_changes (subscriptions : list EventSubscriptionState)
    (subscribers : list EventSubscriberState) : res (list EventSubscriptionStateChange) :=
  let existing := subscription_map subscriptions in
  let sorted := py_sorted String.ltb ss_group false subscribers in
  let live := subscriber_map sorted in
  changes ← mapM (fun group => group_changes existing live group.1 group.2)
    (groupby ss_group sorted);
  mret (orphan_changes subscriptions live ++ concat changes).
End coordinator.

(** * Chunks and groups *)

Lemma stride_elem {A} fuel start step (l : list A) x :
  x ∈ stride fuel start step l -> exists k, l !! (start + k * step)%nat = Some x.
Proof.
  revert start. induction fuel as [|fuel IH]; intros start; cbn; [by intros ?%not_elem_of_nil|].
  destruct (l !! start) as [y|] eqn:E; [|by intros ?%not_elem_of_nil].
  intros [->|(k & Hk)%IH]%elem_of_cons.
  - exists 0%nat. by rewrite Nat.add_0_r.
  - exists (S k). rewrite <-Hk. f_equal. lia.
Qed.

Lemma stride_lookup {A} fuel start step (l : list A) k x :
  l !! (start + k * step)%nat = Some x -> (k < fuel)%nat -> x ∈ stride fuel start step l.
Proof.
  revert start fuel. induction k as [|k IH]; intros start [|fuel] Hx Hk; try lia; cbn.
  - rewrite Nat.add_0_r in Hx. rewrite Hx. constructor.
  - destruct (lookup_lt_is_Some_2 l start) as [y ->].
    { apply lookup_lt_Some in Hx. cbn in Hx. lia. }
    right. apply IH; [|lia]. rewrite <-Hx. f_equal. cbn. lia.
Qed.

Lemma chunk_length {A} (l : list A) n : length (chunk l n) = n.
Proof. unfold chunk. by rewrite length_fmap, length_seq. Qed.

Lemma chunk_lookup {A} (l : list A) n i c :
  chunk l n !! i = Some c -> (i < n)%nat /\ c = stride (length l) i n l.
Proof.
  unfold chunk. rewrite list_lookup_fmap. intros (j & Hj & ->)%fmap_Some.
  apply lookup_seq in Hj as [-> Hi]. done.
Qed.

Lemma chunk_sound {A} (l : list A) n i c x : chunk l n !! i = Some c -> x ∈ c -> x ∈ l.
Proof.
  intros [_ ->]%chunk_lookup [k Hk]%stride_elem. by eapply list_elem_of_lookup_2.
Qed.

Lemma chunk_covers {A} (l : list A) n x :
  (0 < n)%nat -> x ∈ l -> exists i c, chunk l n !! i = Some c /\ x ∈ c.
Proof.
  intros Hn [p Hp]%list_elem_of_lookup.
  assert (p mod n < n)%nat as Hi by (apply Nat.mod_upper_bound; lia).
  exists (p mod n)%nat, (stride (length l) (p mod n) n l). split.
  - unfold chunk. rewrite list_lookup_fmap, lookup_seq_lt by done. done.
  - apply stride_lookup with (k := (p / n)%nat).
    + rewrite <-Hp. f_equal. rewrite (Nat.div_mod_eq p n) at 3. lia.
    + apply lookup_lt_Some in Hp. pose proof (Nat.div_le_upper_bound p n p). nia.
Qed.

Lemma chunk_disjoint {A} (l : list A) n i j c d x :
  NoDup l -> chunk l n !! i = Some c -> chunk l n !! j = Some d -> x ∈ c -> x ∈ d -> i = j.
Proof.
  intros Hnd [Hi ->]%chunk_lookup [Hj ->]%chunk_lookup [k Hk]%stride_elem [m Hm]%stride_elem.
  pose proof (NoDup_lookup _ _ _ _ Hnd Hk Hm) as He.
  rewrite <-(Nat.mod_small i n), <-(Nat.mod_small j n) by done.
  rewrite <-(Nat.Div0.mod_add i k n), <-(Nat.Div0.mod_add j m n). by rewrite He.
Qed.

Lemma groupby_head {A K} `{EqDecision K} (key : A -> K) x l :
  exists xs groups, groupby key (x :: l) = (key x, x :: xs) :: groups.
Proof.
  cbn. destruct (groupby key l) as [|[k xs] groups]; [by eexists _, _|].
  case_decide as Hk; subst; by eexists _, _.
Qed.

Lemma groupby_concat {A K} `{EqDecision K} (key : A -> K) l :
  concat (snd <$> groupby key l) = l.
Proof.
  induction l as [|x l IH]; cbn; [done|].
  destruct (groupby key l) as [|[k xs] groups]; cbn in *; [by rewrite <-IH|].
  case_decide; cbn; by rewrite <-IH.
Qed.

Lemma groupby_keys {A K} `{EqDecision K} (key : A -> K) l g xs x :
  (g, xs) ∈ groupby key l -> x ∈ xs -> key x = g.
Proof.
  revert g xs x. induction l as [|y l IH]; intros g xs x; cbn; [by intros ?%not_elem_of_nil|].
  destruct (groupby key l) as [|[k ys] groups] eqn:E; cbn in *.
  { intros [= -> ->]%list_elem_of_singleton ->%list_elem_of_singleton. done. }
  assert (forall z, z ∈ ys -> key z = k) as Hys by (intros z; apply IH; constructor).
  case_decide as Hk.
  - intros [[= -> ->]|Hin]%elem_of_cons.
    + intros [->|Hx]%elem_of_cons; auto.
    + apply IH. by constructor 2.
  - intros [[= -> ->]|Hin]%elem_of_cons; [by intros ->%list_elem_of_singleton|by apply IH].
Qed.

Lemma groupby_nonempty {A K} `{EqDecision K} (key : A -> K) l g : (g, []) ∉ groupby key l.
Proof.
  induction l as [|x l IH]; cbn; [apply not_elem_of_nil|].
  destruct (groupby key l) as [|[k xs] groups]; [by intros ?%list_elem_of_singleton|].
  case_decide; intros [[=]|Hin]%elem_of_cons; [|done]. apply IH. by constructor 2.
Qed.

Lemma ltb_antisym s t : String.ltb s t = false -> String.ltb t s = false -> s = t.
Proof.
  rewrite !ltb_leb, !negb_false_iff. intros H1%Is_true_true_2 H2%Is_true_true_2.
  by apply (anti_symm String.le).
Qed.

Lemma groupby_NoDup {A} (key : A -> string) l :
  StronglySorted (fun x y => String.ltb (key y) (key x) = false) l ->
  NoDup (fst <$> groupby key l).
Proof.
  induction 1 as [|x l Hl IH Hx]; cbn; [constructor|].
  destruct l as [|z l']; [apply NoDup_singleton|].
  destruct (groupby_head key z l') as (zs & groups & E). rewrite E in *.
  case_decide as Hk; [done|]. cbn [fmap list_fmap fst] in *. constructor; [|done].
  intros Hin. change (key x ∈ fst <$> ((key z, z :: zs) :: groups)) in Hin. rewrite <-E in Hin.
  apply list_elem_of_fmap in Hin as ([g ys] & Hg & Hin). cbn in Hg. subst g.
  destruct ys as [|y ys]; [by apply groupby_nonempty in Hin|].
  assert (y ∈ y :: ys) as Hy by constructor.
  pose proof (groupby_keys _ _ _ _ _ Hin Hy) as Hyx.
  assert (y ∈ z :: l') as Hyl.
  { rewrite <-(groupby_concat key (z :: l')). apply elem_of_concat_fmap.
    by exists (key x, y :: ys). }
  apply Hk. rewrite Forall_forall in Hx. apply ltb_antisym.
  - inversion Hl as [|? ? _ Hz]; subst. apply elem_of_cons in Hyl as [->|Hyl]; [done|].
    rewrite Forall_forall in Hz. rewrite <-Hyx. by apply Hz.
  - apply Hx. constructor.
Qed.

(** The groups of a sorted list: one for each key, with all its elements. *)
Lemma groupby_elem {A} (key : A -> string) l g xs x :
  StronglySorted (fun x y => String.ltb (key y) (key x) = false) l ->
  (g, xs) ∈ groupby key l -> x ∈ xs <-> x ∈ l /\ key x = g.
Proof.
  intros Hl Hg. split.
  - intros Hx. split; [|by eapply groupby_keys].
    rewrite <-(groupby_concat key l). apply elem_of_concat_fmap. by exists (g, xs).
  - intros [Hx Hk]. rewrite <-(groupby_concat key l) in Hx.
    apply elem_of_concat_fmap in Hx as ([g' ys] & Hg' & Hx). cbn in Hx.
    pose proof (groupby_keys _ _ _ _ _ Hg' Hx) as Hk'. assert (g' = g) as -> by congruence.
    apply groupby_NoDup in Hl.
    apply (dict_elem_get _ _ _ Hl) in Hg, Hg'. congruence.
Qed.

Lemma groupby_has {A K} `{EqDecision K} (key : A -> K) l x :
  x ∈ l -> exists xs, (key x, xs) ∈ groupby key l.
Proof.
  intros Hx. rewrite <-(groupby_concat key l) in Hx.
  apply elem_of_concat_fmap in Hx as ([g ys] & Hg & Hx). exists ys.
  by rewrite (groupby_keys _ _ _ _ _ Hg Hx).
Qed.

Lemma groupby_group_NoDup {A K} `{EqDecision K} (key : A -> K) l g xs :
  (g, xs) ∈ groupby key l -> NoDup l -> NoDup xs.
Proof.
  intros [i Hi]%list_elem_of_lookup Hl. rewrite <-(groupby_concat key l) in Hl.
  revert i Hi Hl. generalize (groupby key l) as gs.
  induction gs as [|[k ys] gs IH]; intros [|i]; cbn; try done.
  - intros [= -> ->] [? _]%NoDup_app. done.
  - intros Hi (_ & _ & ?)%NoDup_app. by eapply IH.
Qed.

(** ** Changes with different keys *)

Definition change_result (node_id : string) (change : EventSubscriptionStateChange) :
    option EventSubscriptionState :=
  match ch_type change with
  | REMOVE => None
  | _ => Some (kept node_id (ch_subscription change))
  end.

Lemma changed_in changes store change :
  NoDup (change_key <$> changes) -> change ∈ changes ->
  changed changes store (change_key change) = change_result (st_node_id store) change.
Proof.
  induction changes as [|c cs IH]; cbn; [by intros _ ?%not_elem_of_nil|].
  intros [Hc Hnd]%NoDup_cons [->|Hin]%elem_of_cons; [by rewrite decide_True|].
  rewrite decide_False; [by apply IH|]. intros Heq. apply Hc. rewrite Heq.
  by apply list_elem_of_fmap_2.
Qed.

(** What part of the changes says of a key, all of them say, if the others are about other
    keys. *)
Lemma changed_part part changes store key :
  NoDup (change_key <$> changes) -> (forall c, c ∈ part -> c ∈ changes) ->
  NoDup (change_key <$> part) ->
  (forall c, c ∈ changes -> change_key c = key -> c ∈ part) ->
  changed changes store key = changed part store key.
Proof.
  intros Hnd Hpart Hndp Hkey. destruct (decide (key ∈ change_key <$> part)) as [Hin|Hout].
  - apply list_elem_of_fmap in Hin as (c & -> & Hc). rewrite !changed_in; auto.
  - rewrite (changed_out part) by done. apply changed_out. intros Hin.
    apply list_elem_of_fmap in Hin as (c & -> & Hc). apply Hout.
    apply list_elem_of_fmap_2. by apply Hkey.
Qed.

(** ** One group *)

Section group_theory.
Context `{SetOrder}.

Lemma longer_ordered {A} : ordering_on (fun x y : list A => Nat.ltb (length y) (length x))
  (fun _ => True).
Proof.
  split; intros *; rewrite ?Nat.ltb_lt, ?Nat.ltb_ge; lia.
Qed.

(** The requests all eligible subscribers of the group have. *)
Lemma requests_by_count_head subscribers :
  subscribers <> [] -> exists target rest, requests_by_count subscribers = target :: rest /\
    (exists s, s ∈ subscribers /\ ss_requests s = target) /\
    forall s, s ∈ subscribers -> (length (ss_requests s) <= length target)%nat.
Proof.
  intros Hne. unfold requests_by_count. set (sorted := py_sorted _ _ _ _).
  assert (forall r, r ∈ sorted <-> r ∈ ss_requests <$> subscribers) as Hin.
  { intros r. unfold sorted. rewrite py_sorted_Permutation. apply set_iter_elem_of. }
  assert (StronglySorted (not_after (fun x y => Nat.ltb (length y) (length x))) sorted) as Hs.
  { eapply sort_stable_Sorted; [apply longer_ordered|by apply Forall_true]. }
  destruct sorted as [|target rest].
  { destruct subscribers as [|s l]; [done|]. exfalso.
    apply (not_elem_of_nil (ss_requests s)), Hin. constructor. }
  exists target, rest. split; [done|]. split.
  - assert (target ∈ target :: rest) as (s & -> & Hs')%Hin%list_elem_of_fmap by constructor.
    by exists s.
  - intros s Hsub. assert (ss_requests s ∈ target :: rest) as Hr
      by by apply Hin, list_elem_of_fmap_2.
    apply elem_of_cons in Hr as [->|Hr]; [done|].
    inversion Hs as [|? ? _ Hall]; subst. rewrite Forall_forall in Hall.
    specialize (Hall _ Hr). apply Nat.ltb_ge in Hall. done.
Qed.

(** What the changes of a group make of it, [target] being its requests. *)
Record group_ok (store : SubscriptionStateStore) (group : string)
    (subscribers : list EventSubscriberState) (target : list EventSourceIdentifier)
    (changes : list EventSubscriptionStateChange) : Prop := {
  go_target : exists s, s ∈ subscribers /\ ss_requests s = target;
  go_largest : forall s, s ∈ subscribers -> (length (ss_requests s) <= length target)%nat;
  go_NoDup : NoDup (change_key <$> changes);
  go_keys : forall c, c ∈ changes -> exists s, s ∈ subscribers /\ change_key c = subscriber_key s;
  go_applicable : Forall (applicable store) changes;
  go_ineligible : forall s, s ∈ subscribers -> ss_requests s <> target ->
    changed changes store (subscriber_key s) = None;
  go_eligible : forall s, s ∈ subscribers -> ss_requests s = target ->
    exists sn, changed changes store (subscriber_key s) = Some sn /\
      subscription_key sn = subscriber_key s;
  go_sound : forall s sn x, s ∈ subscribers ->
    changed changes store (subscriber_key s) = Some sn -> x ∈ sn_event_sources sn -> x ∈ target;
  go_covers : forall x, x ∈ target -> exists s sn, s ∈ subscribers /\
    changed changes store (subscriber_key s) = Some sn /\ x ∈ sn_event_sources sn;
  go_disjoint : forall s1 s2 sn1 sn2 x, s1 ∈ subscribers -> s2 ∈ subscribers ->
    changed changes store (subscriber_key s1) = Some sn1 ->
    changed changes store (subscriber_key s2) = Some sn2 ->
    x ∈ sn_event_sources sn1 -> x ∈ sn_event_sources sn2 ->
    subscriber_key s1 = subscriber_key s2;
  go_sticky : forall s sn x, s ∈ subscribers -> ss_requests s = target ->
    get_subscription (subscriber_key s) store = Some sn -> x ∈ sn_event_sources sn ->
    x ∈ target -> exists sn', changed changes store (subscriber_key s) = Some sn' /\
      x ∈ sn_event_sources sn'
}.

(** What the coordinator relies on, and keeps: subscriptions are kept under their keys, and
    no source of a group is in two of them. *)
Record subscriptions_ok (store : SubscriptionStateStore) : Prop := {
  so_NoDup : NoDup (dict_keys (st_subscriptions store));
  so_keyed : forall k sn, get_subscription k store = Some sn -> subscription_key sn = k;
  so_disjoint : forall k1 k2 sn1 sn2 x, get_subscription k1 store = Some sn1 ->
    get_subscription k2 store = Some sn2 -> key_group k1 = key_group k2 ->
    x ∈ sn_event_sources sn1 -> x ∈ sn_event_sources sn2 -> k1 = k2
}.

Section one_group.
Context (store : SubscriptionStateStore) (existing : dict EventKey EventSubscriptionState)
  (live : dict EventKey EventSubscriberState) (group : string)
  (subscribers : list EventSubscriberState) (target : list EventSourceIdentifier).
Hypothesis Hstore : subscriptions_ok store.
Hypothesis Hexisting : forall k, dict_get existing k = get_subscription k store.
Hypothesis Hgroup : forall s, s ∈ subscribers -> ss_group s = group.
Hypothesis Hkeys : NoDup (subscriber_key <$> subscribers).
Hypothesis Hlive : forall s, s ∈ subscribers -> subscriber_key s ∈ dict_keys live.

Let is_eligible s := bool_decide (ss_requests s = target).
Let eligible := set_iter (List.filter is_eligible subscribers).
Let ineligible := set_iter (List.filter (fun s => negb (is_eligible s)) subscribers).
Let group_subscriptions := omap (fun s => dict_get existing (subscriber_key s)) subscribers.
Let allocated := concat (sn_event_sources <$>
  List.filter (fun s => bool_decide (subscription_key s ∈ dict_keys live)) group_subscriptions).
Let correct := List.filter (fun source => bool_decide (source ∈ target))
  (concat (sn_event_sources <$> List.filter (fun s =>
    bool_decide (subscription_key s ∈ dict_keys (subscriber_map eligible))) group_subscriptions)).
Let removed := List.filter (fun source => negb (bool_decide (source ∈ target))) allocated.
Let new := set_diff target correct.
Let chunks := chunk new (length eligible).
Let removals := remove_change <$> omap (fun s => dict_get existing (subscriber_key s)) ineligible.
Let allocations := zip_with (eligible_change group existing removed) eligible chunks.

Lemma subscriber_key_inj s1 s2 :
  s1 ∈ subscribers -> s2 ∈ subscribers -> subscriber_key s1 = subscriber_key s2 -> s1 = s2.
Proof.
  intros [i Hi]%list_elem_of_lookup [j Hj]%list_elem_of_lookup Heq.
  assert (i = j) as ->; [|congruence].
  eapply (NoDup_lookup _ _ _ _ Hkeys); rewrite list_lookup_fmap; [by rewrite Hi|].
  rewrite Hj. cbn. by rewrite Heq.
Qed.

Lemma elem_of_eligible s : s ∈ eligible <-> s ∈ subscribers /\ ss_requests s = target.
Proof.
  unfold eligible. rewrite set_iter_elem_of, elem_filter.
  unfold is_eligible. by rewrite bool_decide_eq_true.
Qed.

Lemma elem_of_ineligible s : s ∈ ineligible <-> s ∈ subscribers /\ ss_requests s <> target.
Proof.
  unfold ineligible. rewrite set_iter_elem_of, elem_filter.
  unfold is_eligible. by rewrite negb_true_iff, bool_decide_eq_false.
Qed.

Lemma elem_of_group_subscriptions sn :
  sn ∈ group_subscriptions <-> exists s, s ∈ subscribers /\
    get_subscription (subscriber_key s) store = Some sn.
Proof.
  unfold group_subscriptions. rewrite list_elem_of_omap. by setoid_rewrite Hexisting.
Qed.

(** The sources an eligible subscriber holds and keeps. *)
Lemma elem_of_correct x :
  x ∈ correct <-> x ∈ target /\ exists s sn, s ∈ eligible /\
    get_subscription (subscriber_key s) store = Some sn /\ x ∈ sn_event_sources sn.
Proof.
  unfold correct. rewrite elem_filter, bool_decide_eq_true, elem_of_concat_fmap.
  setoid_rewrite elem_filter. setoid_rewrite bool_decide_eq_true.
  setoid_rewrite elem_of_group_subscriptions. unfold subscriber_map.
  split.
  - intros [(sn & [(s & Hs & Hsn) Hk] & Hx) Ht]. split; [done|].
    rewrite (so_keyed _ Hstore _ _ Hsn) in Hk. apply dict_get_is_Some in Hk as [e He].
    apply dict_of_get in He as (e' & He & Hke & _).
    + exists e', sn. by rewrite Hke.
    + apply NoDup_fmap_2_strong; [|apply set_iter_NoDup].
      intros a b [Ha _]%elem_of_eligible [Hb _]%elem_of_eligible. by apply subscriber_key_inj.
  - intros [Ht (s & sn & He & Hsn & Hx)]. split; [|done]. exists sn.
    pose proof (proj1 (elem_of_eligible s) He) as [Hs _]. split_and!; [by exists s| |done].
    rewrite (so_keyed _ Hstore _ _ Hsn). apply dict_get_is_Some. exists s.
    apply dict_of_get; [|by exists s].
    apply NoDup_fmap_2_strong; [|apply set_iter_NoDup].
    intros a b [Ha _]%elem_of_eligible [Hb _]%elem_of_eligible. by apply subscriber_key_inj.
Qed.

Lemma elem_of_remaining s sn x :
  s ∈ subscribers -> get_subscription (subscriber_key s) store = Some sn ->
  x ∈ set_diff (sn_event_sources sn) removed <-> x ∈ sn_event_sources sn /\ x ∈ target.
Proof.
  intros Hs Hsn. rewrite elem_of_set_diff. unfold removed.
  rewrite elem_filter, negb_true_iff, bool_decide_eq_false.
  split; intros [Hx Ht]; (split; [done|]).
  - apply dec_stable. intros Hn. apply Ht. split; [|done]. apply elem_of_concat_fmap.
    exists sn. split; [|done]. apply elem_filter. split.
    + apply elem_of_group_subscriptions. by exists s.
    + rewrite bool_decide_eq_true, (so_keyed _ Hstore _ _ Hsn). by apply Hlive.
  - by intros [_ ?].
Qed.

Let changes := removals ++ allocations.

Lemma eligible_change_key s c :
  s ∈ subscribers -> change_key (eligible_change group existing removed s c) = subscriber_key s.
Proof.
  intros Hs. unfold eligible_change, change_key, subscriber_key. rewrite <-(Hgroup s Hs).
  by destruct (dict_get existing _).
Qed.

Lemma allocations_keys : change_key <$> allocations = subscriber_key <$> eligible.
Proof.
  unfold allocations, chunks. generalize (chunk_length new (length eligible)).
  generalize (chunk new (length eligible)) as cs.
  assert (forall s, s ∈ eligible -> s ∈ subscribers) as Hsub by (intros s [? _]%elem_of_eligible; done).
  revert Hsub. generalize eligible as es. induction es as [|e es IH]; intros Hsub [|c cs]; try done.
  intros [= Hlen]. cbn. rewrite eligible_change_key by (apply Hsub; constructor).
  f_equal. apply IH; [|done]. intros s Hs. apply Hsub. by constructor 2.
Qed.

Lemma removals_keys l :
  (forall s, s ∈ l -> s ∈ subscribers) ->
  sublist (change_key <$> (remove_change <$>
    omap (fun s => dict_get existing (subscriber_key s)) l)) (subscriber_key <$> l).
Proof.
  induction l as [|s l IH]; cbn; [done|]. intros Hl.
  rewrite Hexisting. destruct (get_subscription (subscriber_key s) store) as [sn|] eqn:E; cbn.
  - unfold change_key at 1. cbn. rewrite (so_keyed _ Hstore _ _ E). constructor. apply IH.
    intros x Hx. apply Hl. by constructor 2.
  - constructor. apply IH. intros x Hx. apply Hl. by constructor 2.
Qed.

Lemma changes_NoDup : NoDup (change_key <$> changes).
Proof.
  assert (forall l, NoDup l -> (forall s, s ∈ l -> s ∈ subscribers) ->
    NoDup (subscriber_key <$> l)) as Hl.
  { intros l Hnd Hsub. apply NoDup_fmap_2_strong; [|done].
    intros a b Ha Hb. apply subscriber_key_inj; auto. }
  unfold changes. rewrite fmap_app, allocations_keys. apply NoDup_app. split_and!.
  - eapply sublist_NoDup; [|apply removals_keys].
    + apply Hl; [apply set_iter_NoDup|]. by intros s [? _]%elem_of_ineligible.
    + by intros s [? _]%elem_of_ineligible.
  - intros k Hk (e & -> & He)%list_elem_of_fmap. eapply elem_of_submseteq in Hk.
    2: { apply sublist_submseteq, removals_keys. by intros s [? _]%elem_of_ineligible. }
    apply list_elem_of_fmap in Hk as (s & Hes & Hs).
    apply elem_of_eligible in He as [He Hte]. apply elem_of_ineligible in Hs as [Hs Hts].
    apply Hts. by rewrite <-(subscriber_key_inj _ _ He Hs Hes).
  - apply Hl; [apply set_iter_NoDup|]. by intros s [? _]%elem_of_eligible.
Qed.

Lemma eligible_index s : s ∈ eligible -> exists i c, eligible !! i = Some s /\ chunks !! i = Some c.
Proof.
  intros [i Hi]%list_elem_of_lookup. exists i.
  destruct (lookup_lt_is_Some_2 chunks i) as [c Hc]; [|by exists c].
  unfold chunks. rewrite chunk_length. by eapply lookup_lt_Some.
Qed.

Lemma allocation_in i s c :
  eligible !! i = Some s -> chunks !! i = Some c ->
  eligible_change group existing removed s c ∈ changes.
Proof.
  intros Hs Hc. apply elem_of_app. right. apply (list_elem_of_lookup_2 _ i).
  unfold allocations. rewrite lookup_zip_with, Hs. cbn. by rewrite Hc.
Qed.

(** What an eligible subscriber ends up with: what it holds of the target, and its chunk. *)
Lemma changed_eligible i s c :
  eligible !! i = Some s -> chunks !! i = Some c ->
  exists sn, changed changes store (subscriber_key s) = Some sn /\
    subscription_key sn = subscriber_key s /\
    forall x, x ∈ sn_event_sources sn <-> x ∈ c \/ x ∈ target /\ exists sn0,
      get_subscription (subscriber_key s) store = Some sn0 /\ x ∈ sn_event_sources sn0.
Proof.
  intros Hs Hc. assert (s ∈ eligible) as [Hsub Ht]%elem_of_eligible
    by by eapply list_elem_of_lookup_2.
  pose proof (changed_in _ store _ changes_NoDup (allocation_in _ _ _ Hs Hc)) as Hch.
  rewrite (eligible_change_key _ _ Hsub) in Hch. rewrite Hch. clear Hch.
  unfold eligible_change. rewrite Hexisting.
  destruct (get_subscription (subscriber_key s) store) as [sn0|] eqn:E.
  - eexists. split; [done|]. split; [unfold subscription_key; cbn; by rewrite <-(Hgroup s Hsub)|].
    intros x. cbn. rewrite elem_of_app, (elem_of_remaining s sn0) by done. naive_solver.
  - eexists. split; [done|]. split; [unfold subscription_key; cbn; by rewrite <-(Hgroup s Hsub)|].
    intros x. cbn. naive_solver.
Qed.

Lemma changed_ineligible s :
  s ∈ subscribers -> ss_requests s <> target -> changed changes store (subscriber_key s) = None.
Proof.
  intros Hs Ht. destruct (get_subscription (subscriber_key s) store) as [sn|] eqn:E.
  - pose proof (so_keyed _ Hstore _ _ E) as Hk. rewrite <-Hk.
    apply (changed_in changes store (remove_change sn)); [apply changes_NoDup|].
    apply elem_of_app. left. apply list_elem_of_fmap_2. apply list_elem_of_omap.
    exists s. rewrite Hexisting. split; [|done]. by apply elem_of_ineligible.
  - rewrite <-E. apply changed_out. unfold changes. rewrite fmap_app, allocations_keys.
    rewrite elem_of_app. intros [Hk|(e & Hes & He)%list_elem_of_fmap].
    + apply list_elem_of_fmap in Hk as (c & Hk & Hc).
      apply list_elem_of_fmap in Hc as (sn & -> & Hsn).
      apply list_elem_of_omap in Hsn as (s' & _ & Hsn). rewrite Hexisting in Hsn.
      unfold change_key in Hk. cbn in Hk. rewrite (so_keyed _ Hstore _ _ Hsn) in Hk. congruence.
    + apply elem_of_eligible in He as [He Hte]. apply Ht.
      by rewrite (subscriber_key_inj _ _ Hs He Hes).
Qed.

Lemma changes_keys c : c ∈ changes -> exists s, s ∈ subscribers /\ change_key c = subscriber_key s.
Proof.
  intros [Hc|Hc]%elem_of_app.
  - apply list_elem_of_fmap in Hc as (sn & -> & Hsn).
    apply list_elem_of_omap in Hsn as (s & [Hs _]%elem_of_ineligible & Hsn).
    rewrite Hexisting in Hsn. exists s. split; [done|]. by apply (so_keyed _ Hstore).
  - assert (change_key c ∈ subscriber_key <$> eligible) as Hk.
    { rewrite <-allocations_keys. by apply list_elem_of_fmap_2. }
    apply list_elem_of_fmap in Hk as (s & Hk & [Hs _]%elem_of_eligible). by exists s.
Qed.

Lemma changes_applicable : Forall (applicable store) changes.
Proof.
  apply Forall_app. split; apply Forall_forall; intros c Hc.
  - apply list_elem_of_fmap in Hc as (sn & -> & Hsn).
    apply list_elem_of_omap in Hsn as (s & _ & Hsn). rewrite Hexisting in Hsn.
    unfold applicable, change_key. cbn. rewrite (so_keyed _ Hstore _ _ Hsn). by eexists.
  - apply list_elem_of_lookup in Hc as [i Hc]. unfold allocations in Hc.
    apply lookup_zip_with_Some in Hc as (s & ch & -> & Hs & _).
    assert (s ∈ eligible) as [Hsub _]%elem_of_eligible by by eapply list_elem_of_lookup_2.
    unfold applicable. rewrite eligible_change_key by done. unfold eligible_change.
    rewrite Hexisting. destruct (get_subscription (subscriber_key s) store); cbn; [by eexists|done].
Qed.

Hypothesis Htarget : exists s, s ∈ subscribers /\ ss_requests s = target.

Lemma eligible_nonempty : (0 < length eligible)%nat.
Proof.
  destruct Htarget as (s & Hs & Ht).
  assert (s ∈ eligible) as He by by apply elem_of_eligible.
  destruct eligible; [by apply not_elem_of_nil in He|cbn; lia].
Qed.

(** A subscriber that has a subscription in the end is eligible. *)
Lemma changed_some s sn :
  s ∈ subscribers -> changed changes store (subscriber_key s) = Some sn ->
  exists i c, eligible !! i = Some s /\ chunks !! i = Some c.
Proof.
  intros Hs Hsn. apply eligible_index, elem_of_eligible. split; [done|].
  apply dec_stable. intros Ht. by rewrite changed_ineligible in Hsn.
Qed.

Lemma group_sound s sn x :
  s ∈ subscribers -> changed changes store (subscriber_key s) = Some sn ->
  x ∈ sn_event_sources sn -> x ∈ target.
Proof.
  intros Hs Hsn Hx. destruct (changed_some _ _ Hs Hsn) as (i & c & Hi & Hc).
  destruct (changed_eligible _ _ _ Hi Hc) as (sn' & Hsn' & _ & Hel).
  assert (sn' = sn) as -> by congruence.
  apply Hel in Hx as [Hx|[Hx _]]; [|done].
  pose proof (chunk_sound _ _ _ _ _ Hc Hx) as Hnew. by apply elem_of_set_diff in Hnew as [? _].
Qed.

Lemma group_covers x :
  x ∈ target -> exists s sn, s ∈ subscribers /\
    changed changes store (subscriber_key s) = Some sn /\ x ∈ sn_event_sources sn.
Proof.
  intros Hx. destruct (decide (x ∈ correct)) as [Hc|Hc].
  - apply elem_of_correct in Hc as [_ (s & sn0 & He & Hsn0 & Hx0)].
    destruct (eligible_index _ He) as (i & c & Hi & Hci).
    destruct (changed_eligible _ _ _ Hi Hci) as (sn & Hsn & _ & Hel).
    apply elem_of_eligible in He as [Hs _]. exists s, sn. split_and!; [done|done|].
    apply Hel. right. split; [done|]. by exists sn0.
  - assert (x ∈ new) as Hnew by by apply elem_of_set_diff.
    destruct (chunk_covers new (length eligible) x eligible_nonempty Hnew) as (i & c & Hi & Hxc).
    assert (is_Some (eligible !! i)) as [s Hs].
    { apply lookup_lt_is_Some_2. by apply chunk_lookup in Hi as [? _]. }
    destruct (changed_eligible _ _ _ Hs Hi) as (sn & Hsn & _ & Hel).
    assert (s ∈ eligible) as [Hsub _]%elem_of_eligible by by eapply list_elem_of_lookup_2.
    exists s, sn. split_and!; [done|done|]. apply Hel. by left.
Qed.

Lemma group_disjoint s1 s2 sn1 sn2 x :
  s1 ∈ subscribers -> s2 ∈ subscribers ->
  changed changes store (subscriber_key s1) = Some sn1 ->
  changed changes store (subscriber_key s2) = Some sn2 ->
  x ∈ sn_event_sources sn1 -> x ∈ sn_event_sources sn2 -> subscriber_key s1 = subscriber_key s2.
Proof.
  intros Hs1 Hs2 H1 H2 Hx1 Hx2.
  destruct (changed_some _ _ Hs1 H1) as (i & c & Hi & Hc).
  destruct (changed_some _ _ Hs2 H2) as (j & d & Hj & Hd).
  destruct (changed_eligible _ _ _ Hi Hc) as (sn1' & H1' & _ & He1).
  destruct (changed_eligible _ _ _ Hj Hd) as (sn2' & H2' & _ & He2).
  assert (sn1' = sn1) as -> by congruence. assert (sn2' = sn2) as -> by congruence.
  apply He1 in Hx1. apply He2 in Hx2.
  assert (forall k s b sn0, eligible !! k = Some s -> chunks !! k = Some b ->
    get_subscription (subscriber_key s) store = Some sn0 -> x ∈ sn_event_sources sn0 ->
    x ∈ target -> forall m b', chunks !! m = Some b' -> x ∈ b' -> False) as Hno.
  { intros k s b sn0 Hk Hb Hsn0 Hx0 Ht m b' Hm Hxb.
    pose proof (chunk_sound _ _ _ _ _ Hm Hxb) as Hnew. apply elem_of_set_diff in Hnew as [_ Hn].
    apply Hn, elem_of_correct. split; [done|]. exists s, sn0.
    split_and!; [by eapply list_elem_of_lookup_2|done|done]. }
  destruct Hx1 as [Hx1|[Ht1 (sn01 & G1 & Hx1)]], Hx2 as [Hx2|[Ht2 (sn02 & G2 & Hx2)]].
  - assert (i = j) as ->; [|congruence].
    eapply chunk_disjoint; [|exact Hc|exact Hd|done|done]. apply set_iter_NoDup.
  - destruct (Hno _ _ _ _ Hj Hd G2 Hx2 Ht2 _ _ Hc Hx1).
  - destruct (Hno _ _ _ _ Hi Hc G1 Hx1 Ht1 _ _ Hd Hx2).
  - apply (so_disjoint _ Hstore _ _ _ _ x G1 G2); [|done|done].
    cbn. by rewrite (Hgroup _ Hs1), (Hgroup _ Hs2).
Qed.

Lemma group_is_ok :
  (forall s, s ∈ subscribers -> (length (ss_requests s) <= length target)%nat) ->
  group_ok store group subscribers target changes.
Proof.
  intros Hmax. split; [done|done|apply changes_NoDup|apply changes_keys|apply changes_applicable|
    apply changed_ineligible| |apply group_sound|apply group_covers|apply group_disjoint|].
  - intros s Hs Ht. destruct (eligible_index s) as (i & c & Hi & Hc); [by apply elem_of_eligible|].
    destruct (changed_eligible _ _ _ Hi Hc) as (sn & Hsn & Hk & _). by exists sn.
  - intros s sn x Hs Ht Hsn Hx Hxt.
    destruct (eligible_index s) as (i & c & Hi & Hc); [by apply elem_of_eligible|].
    destruct (changed_eligible _ _ _ Hi Hc) as (sn' & Hsn' & _ & Hel).
    exists sn'. split; [done|]. apply Hel. right. split; [done|]. by exists sn.
Qed.
End one_group.

Lemma group_changes_ok store existing live group subscribers :
  subscriptions_ok store -> (forall k, dict_get existing k = get_subscription k store) ->
  subscribers <> [] -> (forall s, s ∈ subscribers -> ss_group s = group) ->
  NoDup (subscriber_key <$> subscribers) ->
  (forall s, s ∈ subscribers -> subscriber_key s ∈ dict_keys live) ->
  exists changes, group_changes existing live group subscribers = Ok changes /\
    exists target, group_ok store group subscribers target changes.
Proof.
  intros Hstore Hex Hne Hgroup Hkeys Hlive.
  destruct (requests_by_count_head subscribers Hne) as (target & rest & E & Htarget & Hmax).
  unfold group_changes. rewrite E. eexists. split; [done|]. exists target.
  by apply group_is_ok.
Qed.

(** ** All groups *)

Lemma subscription_map_get store k :
  subscriptions_ok store ->
  dict_get (subscription_map (list_subscriptions store)) k = get_subscription k store.
Proof.
  intros Hstore. apply option_eq. intros sn. unfold subscription_map, list_subscriptions.
  rewrite dict_of_get.
  - setoid_rewrite dict_values_elem; [|apply Hstore]. split.
    + intros (x & [k' Hk'] & <- & <-). by rewrite (so_keyed _ Hstore _ _ Hk').
    + intros Hk. exists sn. split_and!; [by exists k|by apply (so_keyed _ Hstore)|done].
  - rewrite dict_values_keyed; [apply Hstore|apply Hstore|apply (so_keyed _ Hstore)].
Qed.

Section all_groups.
Context (store : SubscriptionStateStore) (subscribers : list EventSubscriberState).
Hypothesis Hstore : subscriptions_ok store.
Hypothesis Hkeys : NoDup (subscriber_key <$> subscribers).

Let sorted := py_sorted String.ltb ss_group false subscribers.
Let live := subscriber_map sorted.
Let groups := groupby ss_group sorted.

Lemma sorted_sorted :
  StronglySorted (fun x y => String.ltb (ss_group y) (ss_group x) = false) sorted.
Proof.
  unfold sorted, py_sorted. apply (sort_stable_Sorted _ (P := fun _ => True)).
  - split; intros *; [by apply (order_asym _ _ string_ltb_ordered)|
      by apply (order_trans _ _ string_ltb_ordered)].
  - by apply Forall_true.
Qed.

Lemma elem_of_sorted s : s ∈ sorted <-> s ∈ subscribers.
Proof. unfold sorted. by rewrite py_sorted_Permutation. Qed.

Lemma sorted_NoDup : NoDup (subscriber_key <$> sorted).
Proof. unfold sorted. by rewrite py_sorted_Permutation. Qed.

Lemma elem_of_live k : k ∈ dict_keys live <-> exists s, s ∈ subscribers /\ subscriber_key s = k.
Proof.
  rewrite <-dict_get_is_Some. unfold live, subscriber_map. split.
  - intros [s Hs]. apply dict_of_get in Hs as (s' & Hs' & Hk & _); [|apply sorted_NoDup].
    exists s'. by rewrite <-elem_of_sorted.
  - intros (s & Hs & Hk). exists s. apply dict_of_get; [apply sorted_NoDup|].
    exists s. by rewrite elem_of_sorted.
Qed.

Lemma elem_of_group g xs s :
  (g, xs) ∈ groups -> s ∈ xs <-> s ∈ subscribers /\ ss_group s = g.
Proof. intros Hg. rewrite <-elem_of_sorted. apply groupby_elem; [apply sorted_sorted|done]. Qed.

Lemma group_of_exists s : s ∈ subscribers -> exists xs, (ss_group s, xs) ∈ groups.
Proof. intros Hs. by apply groupby_has, elem_of_sorted. Qed.

Lemma group_keys_NoDup g xs : (g, xs) ∈ groups -> NoDup (subscriber_key <$> xs).
Proof.
  intros Hg. apply NoDup_fmap_2_strong.
  - intros a b Ha Hb. apply (elem_of_group _ _ _ Hg) in Ha as [Ha _], Hb as [Hb _].
    by apply (subscriber_key_inj subscribers Hkeys).
  - eapply groupby_group_NoDup; [exact Hg|]. apply NoDup_fmap_1 with (f := subscriber_key).
    apply sorted_NoDup.
Qed.

(** The groups and their changes, one by one. *)
Definition groups_ok (css : list (list EventSubscriptionStateChange)) : Prop :=
  Forall2 (fun group cs => exists target, group_ok store group.1 group.2 target cs) groups css.

Lemma groups_changes_ok :
  exists css, mapM (fun group => group_changes (subscription_map (list_subscriptions store)) live
    group.1 group.2) groups = Ok css /\ groups_ok css.
Proof.
  apply res_mapM_total, Forall_forall. intros [g xs] Hg. cbn.
  apply group_changes_ok; [done|intros k; by apply subscription_map_get| | | |].
  - intros ->. by apply groupby_nonempty in Hg.
  - intros s Hs. by apply (elem_of_group _ _ _ Hg) in Hs as [_ ?].
  - by eapply group_keys_NoDup.
  - intros s Hs. apply (elem_of_group _ _ _ Hg) in Hs as [Hs _]. apply elem_of_live. by exists s.
Qed.

Context (css : list (list EventSubscriptionStateChange)) (Hcss : groups_ok css).
Let orphans := orphan_changes (list_subscriptions store) live.
Let all := orphans ++ concat css.

Lemma group_change_key j cs c :
  css !! j = Some cs -> c ∈ cs -> exists g xs s, groups !! j = Some (g, xs) /\ s ∈ subscribers /\
    ss_group s = g /\ change_key c = subscriber_key s.
Proof.
  intros Hj Hc. destruct (Forall2_lookup_r _ _ _ _ _ Hcss Hj) as ([g xs] & Hg & target & Hok).
  destruct (go_keys _ _ _ _ _ Hok _ Hc) as (s & Hs & Hk).
  apply (elem_of_group g) in Hs as [Hs Hsg]; [|by eapply list_elem_of_lookup_2].
  by exists g, xs, s.
Qed.

Lemma same_group i j g xs ys :
  groups !! i = Some (g, xs) -> groups !! j = Some (g, ys) -> i = j.
Proof.
  intros Hi Hj. eapply (NoDup_lookup (fst <$> groups)).
  - apply groupby_NoDup, sorted_sorted.
  - rewrite list_lookup_fmap, Hi. done.
  - rewrite list_lookup_fmap, Hj. done.
Qed.

Lemma elem_of_concat_css c : c ∈ concat css <-> exists j cs, css !! j = Some cs /\ c ∈ cs.
Proof.
  rewrite <-(list_fmap_id css) at 1. rewrite elem_of_concat_fmap. cbn. split.
  - intros (cs & [j Hj]%list_elem_of_lookup & Hc). eauto.
  - intros (j & cs & Hj & Hc). exists cs. split; [by eapply list_elem_of_lookup_2|done].
Qed.

Lemma elem_of_orphans c :
  c ∈ orphans <-> exists sn, c = remove_change sn /\
    get_subscription (subscription_key sn) store = Some sn /\
    subscription_key sn ∉ dict_keys live.
Proof.
  unfold orphans, orphan_changes. rewrite list_elem_of_fmap.
  setoid_rewrite elem_filter. setoid_rewrite negb_true_iff.
  setoid_rewrite bool_decide_eq_false. unfold list_subscriptions.
  setoid_rewrite dict_values_elem; [|apply Hstore]. split.
  - intros (sn & -> & [k Hk] & Hl). exists sn. split_and!; [done| |done].
    by rewrite (so_keyed _ Hstore _ _ Hk).
  - intros (sn & -> & Hk & Hl). exists sn. split_and!; [done| |done]. by eexists.
Qed.

Lemma orphans_NoDup : NoDup (change_key <$> orphans).
Proof.
  unfold orphans, orphan_changes. rewrite <-list_fmap_compose.
  change (NoDup (subscription_key <$> List.filter (fun s =>
    negb (bool_decide (subscription_key s ∈ dict_keys live))) (list_subscriptions store))).
  apply filter_keys_NoDup. unfold list_subscriptions.
  rewrite dict_values_keyed; [apply Hstore..|apply (so_keyed _ Hstore)].
Qed.

Lemma concat_NoDup (l : list (list EventSubscriptionStateChange)) :
  (forall i cs, l !! i = Some cs -> NoDup (change_key <$> cs)) ->
  (forall i j cs ds c d, l !! i = Some cs -> l !! j = Some ds -> c ∈ cs -> d ∈ ds ->
    change_key c = change_key d -> i = j) -> NoDup (change_key <$> concat l).
Proof.
  induction l as [|cs l IH]; cbn; [constructor|]. intros Hnd Hd.
  rewrite fmap_app. apply NoDup_app. split_and!.
  - by apply (Hnd 0%nat).
  - intros k (c & -> & Hc)%list_elem_of_fmap (d & Hk & Hin)%list_elem_of_fmap.
    rewrite <-(list_fmap_id l), elem_of_concat_fmap in Hin.
    destruct Hin as (ds & [j Hj]%list_elem_of_lookup & Hds).
    discriminate (Hd 0%nat (S j) cs ds c d eq_refl Hj Hc Hds Hk).
  - apply IH; [intros i; apply (Hnd (S i))|]. intros i j cs' ds c d Hi Hj Hc Hd' Hk.
    by injection (Hd (S i) (S j) cs' ds c d Hi Hj Hc Hd' Hk).
Qed.

Lemma all_NoDup : NoDup (change_key <$> all).
Proof.
  unfold all. rewrite fmap_app. apply NoDup_app. split_and!; [apply orphans_NoDup| |].
  - intros k (c & -> & Hc)%list_elem_of_fmap (d & Hk & Hd)%list_elem_of_fmap.
    apply elem_of_orphans in Hc as (sn & -> & _ & Hl).
    apply elem_of_concat_css in Hd as (j & cs & Hj & Hd).
    destruct (group_change_key _ _ _ Hj Hd) as (g & xs & s & _ & Hs & _ & Hks).
    apply Hl, elem_of_live. exists s. split; [done|]. rewrite <-Hks, <-Hk. done.
  - apply concat_NoDup.
    + intros i cs Hi. destruct (Forall2_lookup_r _ _ _ _ _ Hcss Hi) as (g & _ & target & Hok).
      apply (go_NoDup _ _ _ _ _ Hok).
    + intros i j cs ds c d Hi Hj Hc Hd Hk.
      destruct (group_change_key _ _ _ Hi Hc) as (g & xs & s & Hg & _ & Hsg & Hks).
      destruct (group_change_key _ _ _ Hj Hd) as (g' & ys & s' & Hg' & _ & Hsg' & Hks').
      assert (g = g') as -> by (unfold subscriber_key in *; congruence).
      by eapply same_group.
Qed.

(** A subscriber's subscription is decided by the changes of its group. *)
Lemma changed_all_group j g xs cs s :
  groups !! j = Some (g, xs) -> css !! j = Some cs -> s ∈ xs ->
  changed all store (subscriber_key s) = changed cs store (subscriber_key s).
Proof.
  intros Hg Hj Hs. destruct (Forall2_lookup_lr _ _ _ _ _ _ Hcss Hg Hj) as [target Hok].
  apply (elem_of_group g) in Hs as [Hs Hsg]; [|by eapply list_elem_of_lookup_2].
  apply changed_part; [apply all_NoDup| |apply (go_NoDup _ _ _ _ _ Hok)|].
  - intros c Hc. apply elem_of_app. right. apply elem_of_concat_css. eauto.
  - intros c [Hc|Hc]%elem_of_app Hk.
    + apply elem_of_orphans in Hc as (sn & -> & _ & Hl). exfalso. apply Hl, elem_of_live.
      exists s. split; [done|]. rewrite <-Hk. done.
    + apply elem_of_concat_css in Hc as (i & ds & Hi & Hc).
      destruct (group_change_key _ _ _ Hi Hc) as (g' & ys & s' & Hg' & _ & Hsg' & Hks').
      assert (g' = g) as -> by (unfold subscriber_key in *; congruence).
      assert (i = j) as -> by by eapply same_group. congruence.
Qed.

Lemma changed_all_dead k : k ∉ dict_keys live -> changed all store k = None.
Proof.
  intros Hk. destruct (get_subscription k store) as [sn|] eqn:E.
  - pose proof (so_keyed _ Hstore _ _ E) as <-.
    apply (changed_in all store (remove_change sn)); [apply all_NoDup|].
    apply elem_of_app. left. apply elem_of_orphans. by exists sn.
  - rewrite <-E. apply changed_out. intros (c & -> & [Hc|Hc]%elem_of_app)%list_elem_of_fmap.
    + apply elem_of_orphans in Hc as (sn & -> & Hsn & _). unfold change_key in E. cbn in E.
      congruence.
    + apply elem_of_concat_css in Hc as (j & cs & Hj & Hc).
      destruct (group_change_key _ _ _ Hj Hc) as (g & xs & s & _ & Hs & _ & Hks).
      apply Hk. rewrite Hks. apply elem_of_live. by exists s.
Qed.

Lemma all_applicable : Forall (applicable store) all.
Proof.
  apply Forall_forall. intros c [Hc|Hc]%elem_of_app.
  - apply elem_of_orphans in Hc as (sn & -> & Hsn & _). by exists sn.
  - apply elem_of_concat_css in Hc as (j & cs & Hj & Hc).
    destruct (Forall2_lookup_r _ _ _ _ _ Hcss Hj) as (g & _ & target & Hok).
    pose proof (go_applicable _ _ _ _ _ Hok) as Ha. rewrite Forall_forall in Ha. by apply Ha.
Qed.
End all_groups.

(** What a distribution makes of one group with live subscribers, by the subscriptions [before]
    and [after]. *)
Record distributed (live : list EventSubscriberState)
    (before after : EventKey -> option EventSubscriptionState) (group : string) (target : list EventSourceIdentifier) : Prop := {
  di_target : exists s, s ∈ live /\ ss_group s = group /\ ss_requests s = target;
  di_largest : forall s, s ∈ live -> ss_group s = group ->
    (length (ss_requests s) <= length target)%nat;
  di_eligible : forall s, s ∈ live -> ss_group s = group ->
    is_Some (after (subscriber_key s)) <-> ss_requests s = target;
  di_covers : forall x, x ∈ target <-> exists k sn, key_group k = group /\
    after k = Some sn /\ x ∈ sn_event_sources sn;
  di_sticky : forall s sn x, s ∈ live -> ss_group s = group -> ss_requests s = target ->
    before (subscriber_key s) = Some sn -> x ∈ sn_event_sources sn ->
    x ∈ target -> exists sn', after (subscriber_key s) = Some sn' /\
      x ∈ sn_event_sources sn'
}.

Lemma group_distributed live group xs target cs store store' :
  (forall s, s ∈ xs <-> s ∈ live /\ ss_group s = group) ->
  group_ok store group xs target cs ->
  (forall s, s ∈ xs -> get_subscription (subscriber_key s) store' =
    changed cs store (subscriber_key s)) ->
  (forall k sn, get_subscription k store' = Some sn ->
    exists s, s ∈ live /\ subscriber_key s = k) ->
  distributed live (fun k => get_subscription k store) (fun k => get_subscription k store')
    group target.
Proof.
  intros Hxs [Ht Hmax _ _ _ Hin Hel Hsound Hcov _ Hsticky] Hget Hlive. split.
  - destruct Ht as (s & [Hs Hg]%Hxs & Ht). by exists s.
  - intros s Hs Hg. by apply Hmax, Hxs.
  - intros s Hs Hg. assert (s ∈ xs) as Hx by by apply Hxs. rewrite Hget by done. split.
    + intros [sn Hsn]. apply dec_stable. intros Hne. by rewrite Hin in Hsn.
    + intros Heq. destruct (Hel s Hx Heq) as (sn & -> & _). by eexists.
  - intros x. split.
    + intros (s & sn & Hs & Hsn & Hx)%Hcov. exists (subscriber_key s), sn.
      rewrite Hget by done. split_and!; [|done|done]. by apply Hxs in Hs as [_ ?].
    + intros (k & sn & Hk & Hsn & Hx). destruct (Hlive k sn Hsn) as (s & Hs & <-).
      assert (s ∈ xs) as Hsx by by apply Hxs. rewrite Hget in Hsn by done. by eapply Hsound.
  - intros s sn x Hs Hg Hr Hsn Hx Hxt. assert (s ∈ xs) as Hsx by by apply Hxs.
    rewrite Hget by done. by eapply Hsticky.
Qed.

Section distribution.
Context (store : SubscriptionStateStore) (live : list EventSubscriberState).
Hypothesis Hstore : subscriptions_ok store.
Hypothesis Hkeys : NoDup (subscriber_key <$> live).

Lemma distribution_changes_ok :
  exists changes, distribution_changes (list_subscriptions store) live = Ok changes /\
    NoDup (change_key <$> changes) /\ Forall (applicable store) changes /\
    (forall k sn, changed changes store k = Some sn -> exists s, s ∈ live /\ subscriber_key s = k) /\
    forall s, s ∈ live -> exists xs target cs,
      (forall s', s' ∈ xs <-> s' ∈ live /\ ss_group s' = ss_group s) /\
      group_ok store (ss_group s) xs target cs /\
      forall s', s' ∈ xs -> changed changes store (subscriber_key s') =
        changed cs store (subscriber_key s').
Proof.
  destruct (groups_changes_ok store live Hstore Hkeys) as (css & E & Hcss).
  unfold distribution_changes. rewrite E. cbn [mbind res_bind].
  eexists. split; [done|]. split; [by apply all_NoDup|]. split; [by apply all_applicable|]. split.
  - intros k sn Hsn.
    assert (k ∈ dict_keys (subscriber_map (py_sorted String.ltb ss_group false live))) as Hk.
    { apply dec_stable. intros Hk. by rewrite changed_all_dead in Hsn. }
    by apply elem_of_live in Hk.
  - intros s Hs. destruct (group_of_exists live s Hs) as (xs & [j Hj]%list_elem_of_lookup).
    destruct (Forall2_lookup_l _ _ _ _ _ Hcss Hj) as (cs & Hcs & target & Hok).
    exists xs, target, cs. split_and!; [|done|].
    + intros s'. apply elem_of_group. by eapply list_elem_of_lookup_2.
    + intros s' Hs'. by eapply changed_all_group.
Qed.

(** What there is after the changes of a distribution were applied. *)
Lemma distribution_outcome changes store' :
  distribution_changes (list_subscriptions store) live = Ok changes ->
  NoDup (dict_keys (st_subscriptions store')) ->
  (forall key, get_subscription key store' = changed changes store key) ->
  subscriptions_ok store' /\
  (forall k sn, get_subscription k store' = Some sn ->
    exists s, s ∈ live /\ subscriber_key s = k) /\
  forall group, (exists s, s ∈ live /\ ss_group s = group) ->
    exists target, distributed live (fun k => get_subscription k store)
      (fun k => get_subscription k store') group target.
Proof.
  intros E' Hnd' Hget. destruct distribution_changes_ok as (changes' & E & Hnd & Ha & Hlive & Hgroups).
  rewrite E in E'. injection E' as ->.
  assert (forall k sn, get_subscription k store' = Some sn ->
    exists s, s ∈ live /\ subscriber_key s = k) as Hlive'.
  { intros k sn. rewrite Hget. apply Hlive. }
  split_and!; [split|done|].
  - done.
  - intros k sn Hsn. destruct (Hlive' k sn Hsn) as (s & Hs & <-).
    destruct (Hgroups s Hs) as (xs & target & cs & Hxs & Hok & Hcs).
    assert (s ∈ xs) as Hsx by by apply Hxs. rewrite Hget, Hcs in Hsn by done.
    destruct (decide (ss_requests s = target)) as [Ht|Ht].
    + destruct (go_eligible _ _ _ _ _ Hok s Hsx Ht) as (sn' & Hsn' & Hk). congruence.
    + by rewrite (go_ineligible _ _ _ _ _ Hok s Hsx Ht) in Hsn.
  - intros k1 k2 sn1 sn2 x H1 H2 Hg Hx1 Hx2.
    destruct (Hlive' k1 sn1 H1) as (s1 & Hs1 & <-), (Hlive' k2 sn2 H2) as (s2 & Hs2 & <-).
    destruct (Hgroups s1 Hs1) as (xs & target & cs & Hxs & Hok & Hcs).
    assert (s1 ∈ xs) as Hx1' by by apply Hxs. assert (s2 ∈ xs) as Hx2' by by apply Hxs.
    rewrite Hget, Hcs in H1, H2 by done. by apply (go_disjoint _ _ _ _ _ Hok s1 s2 sn1 sn2 x).
  - intros group (s & Hs & <-). destruct (Hgroups s Hs) as (xs & target & cs & Hxs & Hok & Hcs).
    exists target. eapply group_distributed; [done|done| |done].
    intros s' Hs'. rewrite Hget. by apply Hcs.
Qed.
End distribution.

End group_theory.

(** ** Summaries for the log *)

(** [if existing.get(group) is None: existing[group] = {}], then an entry under the id. *)
Definition put_entry {V} (group id : string) (entry : V) (existing : dict string (dict string V)) :
    dict string (dict string V) :=
  let existing := match dict_get existing group with
    | None => dict_set existing group []
    | Some _ => existing
    end in
  dict_set existing group (dict_set (default [] (dict_get existing group)) id entry).

Definition subscription_status (subscriptions : list EventSubscriptionState) :
    dict string (dict string Val) :=
  foldl (fun existing subscription =>
    put_entry (sn_group subscription) (sn_id subscription)
      (VDict [(VStr "sources",
        VList (serialise_identifier <$> sn_event_sources subscription))]) existing)
    [] subscriptions.

Definition subscriber_group_status (subscribers : list EventSubscriberState) :
    dict string (dict string Val) :=
  foldl (fun latest subscriber =>
    put_entry (ss_group subscriber) (ss_id subscriber)
      (VDict [(VStr "subscription_requests",
        VList (serialise_identifier <$> ss_requests subscriber))]) latest)
    [] subscribers.

Definition count_type (type : EventSubscriptionStateChangeType)
    (changes : list EventSubscriptionStateChange) : nat :=
  length (List.filter (fun change =>
    match ch_type change, type with
    | ADD, ADD | REMOVE, REMOVE | REPLACE, REPLACE => true
    | _, _ => false
    end) changes).

Definition subscription_change_summary (changes : list EventSubscriptionStateChange) :
    dict string nat :=
  [("additions"%string, count_type ADD changes); ("removals"%string, count_type REMOVE changes);
   ("replacements"%string, count_type REPLACE changes)].

Definition entry_of {V} (status : dict string (dict string V)) (group id : string) : option V :=
  dict_get status group ≫= fun entries => dict_get entries id.

Lemma entry_of_put {V} (status : dict string (dict string V)) group id entry g i :
  entry_of (put_entry group id entry status) g i =
  if decide (mkKey group id = mkKey g i) then Some entry else entry_of status g i.
Proof.
  unfold entry_of, put_entry.
  destruct (dict_get status group) as [entries|] eqn:E; rewrite !dict_get_set, ?E;
    destruct (decide (group = g)) as [->|Hg]; cbn; rewrite ?E; cbn; rewrite ?dict_get_set;
    repeat case_decide; simplify_eq; done.
Qed.

(** The last entry of a key is the one shown. *)
Lemma status_entries {X V} (group id : X -> string) (entry : X -> V) l g i :
  entry_of (foldl (fun status x => put_entry (group x) (id x) (entry x) status) [] l) g i =
  entry <$> last (List.filter (fun x => bool_decide (mkKey (group x) (id x) = mkKey g i)) l).
Proof.
  induction l as [|x l IH] using rev_ind; [done|].
  rewrite foldl_snoc, entry_of_put, List.filter_app. cbn. case_decide as Hk.
  - rewrite bool_decide_true by done. by rewrite last_snoc.
  - rewrite bool_decide_false by done. by rewrite app_nil_r.
Qed.

(** The summaries show every subscription and subscriber, by group and id. *)
Lemma subscription_status_shows subscriptions s :
  NoDup (subscription_key <$> subscriptions) -> s ∈ subscriptions ->
  entry_of (subscription_status subscriptions) (sn_group s) (sn_id s) =
  Some (VDict [(VStr "sources", VList (serialise_identifier <$> sn_event_sources s))]).
Proof.
  intros Hnd Hs. unfold subscription_status.
  rewrite (status_entries sn_group sn_id (fun s => VDict [(VStr "sources",
    VList (serialise_identifier <$> sn_event_sources s))])).
  assert (List.filter (fun x => bool_decide (mkKey (sn_group x) (sn_id x) =
    mkKey (sn_group s) (sn_id s))) subscriptions = [s]) as ->; [|done].
  change (List.filter (fun x => bool_decide (subscription_key x = subscription_key s))
    subscriptions = [s]).
  induction Hs as [s l|s x l Hs IH]; cbn in *; apply NoDup_cons in Hnd as [Hx Hnd].
  - rewrite bool_decide_true by done. f_equal. clear -Hx. induction l as [|y l IH]; [done|].
    cbn in *. apply not_elem_of_cons in Hx as [Hy Hx].
    rewrite bool_decide_false by congruence. by apply IH.
  - rewrite bool_decide_false; [by apply IH|]. intros Heq. apply Hx. rewrite Heq.
    by apply list_elem_of_fmap_2.
Qed.

Lemma change_summary_total changes :
  (count_type ADD changes + count_type REMOVE changes + count_type REPLACE changes =
    length changes)%nat.
Proof.
  induction changes as [|c l IH]; [done|]. unfold count_type in *. cbn.
  destruct (ch_type c); cbn; lia.
Qed.
