(* ===== verification/Observer.v ===== *)
(** Following the distribution on a node: the difference of two sets of subscriptions
    ([distributed/difference.py]), the observer that passes it on to the node's subscribers
    ([distributed/observer.py], [broker/subscribers/stores/instances/memory.py]) and the
    broker of a single node ([singleton/broker.py]). *)
From S2P Require Import Prelude Values Conversion Events Conditions EventsDB MemoryAdapter.
From S2P Require Import Sources Store ConsumerState SourceConsumer BrokerState Coordinator.

(** ** [EventSubscriptionDifference] *)

(** [EventSubscriptionChange]: the group and id, and the source. *)
Definition EventSubscriptionChange : Type := EventKey * EventSourceIdentifier.

Record EventSubscriptionChangeset := mkChangeset {
  allocations : list EventSubscriptionChange;
  revocations : list EventSubscriptionChange
}.

Section difference.
Context `{SetOrder}.

Definition source_changes (subscription : EventSubscriptionState)
    (sources : list EventSourceIdentifier) : list EventSubscriptionChange :=
  (fun source => (subscription_key subscription, source)) <$> sources.

Definition has_key (subscriptions : dict EventKey EventSubscriptionState)
    (subscription : EventSubscriptionState) : bool :=
  bool_decide (subscription_key subscription ∈ dict_keys subscriptions).

(** [existing_map[key]] for a key that is there. *)
Definition sources_of (subscriptions : dict EventKey EventSubscriptionState) (key : EventKey) :
    list EventSourceIdentifier :=
  from_option sn_event_sources [] (dict_get subscriptions key).

(** The sets are built by [add] in this order, and iterated in any. *)
Definition diff (existing updated : list EventSubscriptionState) : EventSubscriptionChangeset :=
  let existing_map := subscription_map existing in
  let updated_map := subscription_map updated in
  let new_subscriptions := List.filter (fun s => negb (has_key existing_map s)) updated in
  let old_subscriptions := List.filter (fun s => negb (has_key updated_map s)) existing in
  let updated_subscriptions := List.filter (has_key existing_map) updated in
  mkChangeset
    (set_iter (concat ((fun s => source_changes s (sn_event_sources s)) <$> new_subscriptions) ++
      concat ((fun s => source_changes s (set_diff (sn_event_sources s)
        (sources_of existing_map (subscription_key s)))) <$> updated_subscriptions)))
    (set_iter (concat ((fun s => source_changes s (sn_event_sources s)) <$> old_subscriptions) ++
      concat ((fun s => source_changes s (set_diff
        (sources_of existing_map (subscription_key s)) (sn_event_sources s))) <$>
        updated_subscriptions))).

(** Who is subscribed to what. *)
Definition subscribed (subscriptions : list EventSubscriptionState) (key : EventKey)
    (source : EventSourceIdentifier) : Prop :=
  exists s, s ∈ subscriptions /\ subscription_key s = key /\ source ∈ sn_event_sources s.

Lemma elem_of_source_changes s sources key x :
  (key, x) ∈ source_changes s sources <-> subscription_key s = key /\ x ∈ sources.
Proof. unfold source_changes. rewrite list_elem_of_fmap. naive_solver. Qed.

Lemma subscription_map_list subscriptions key s :
  NoDup (subscription_key <$> subscriptions) ->
  dict_get (subscription_map subscriptions) key = Some s <->
  s ∈ subscriptions /\ subscription_key s = key.
Proof.
  intros Hnd. unfold subscription_map. rewrite dict_of_get by done. split.
  - by intros (x & Hx & Hk & <-).
  - intros [Hs Hk]. by exists s.
Qed.

Lemma has_key_spec subscriptions s :
  NoDup (subscription_key <$> subscriptions) ->
  has_key (subscription_map subscriptions) s = true <->
  exists s', s' ∈ subscriptions /\ subscription_key s' = subscription_key s.
Proof.
  intros Hnd. unfold has_key. rewrite bool_decide_eq_true, <-dict_get_is_Some. unfold is_Some.
  by setoid_rewrite subscription_map_list.
Qed.

Lemma sources_of_spec subscriptions key x :
  NoDup (subscription_key <$> subscriptions) ->
  x ∈ sources_of (subscription_map subscriptions) key <-> subscribed subscriptions key x.
Proof.
  intros Hnd. unfold sources_of, subscribed.
  destruct (dict_get (subscription_map subscriptions) key) as [s|] eqn:E; cbn.
  - apply subscription_map_list in E as [Hs Hk]; [|done]. split; [by exists s|].
    intros (s' & Hs' & Hk' & Hx).
    pose proof (proj2 (subscription_map_list subscriptions key s Hnd) (conj Hs Hk)) as E1.
    pose proof (proj2 (subscription_map_list subscriptions key s' Hnd) (conj Hs' Hk')) as E2.
    congruence.
  - split; [by intros ?%not_elem_of_nil|]. intros (s & Hs & Hk & _).
    assert (dict_get (subscription_map subscriptions) key = Some s); [|congruence].
    by apply subscription_map_list.
Qed.

Section two_lists.
Context (existing updated : list EventSubscriptionState).
Hypothesis Hexisting : NoDup (subscription_key <$> existing).
Hypothesis Hupdated : NoDup (subscription_key <$> updated).

Lemma elem_of_allocations key x :
  (key, x) ∈ allocations (diff existing updated) <->
  subscribed updated key x /\ ~ subscribed existing key x.
Proof.
  unfold diff. cbn [allocations]. rewrite set_iter_elem_of, elem_of_app, !elem_of_concat_fmap.
  setoid_rewrite elem_filter. setoid_rewrite elem_of_source_changes.
  setoid_rewrite elem_of_set_diff. setoid_rewrite sources_of_spec; [|done..].
  setoid_rewrite negb_true_iff. setoid_rewrite <-not_true_iff_false.
  setoid_rewrite has_key_spec; [|done..]. split.
  - intros [(s & [Hs Hn] & <- & Hx)|(s & [Hs Hn] & <- & Hx & Hnx)].
    + split; [by exists s|]. intros (s' & Hs' & Hk' & _). apply Hn. by exists s'.
    + split; [by exists s|done].
  - intros [(s & Hs & <- & Hx) Hn].
    destruct (has_key (subscription_map existing) s) eqn:E.
    + apply has_key_spec in E; [|done]. right. by exists s.
    + apply not_true_iff_false in E. rewrite has_key_spec in E by done. left. by exists s.
Qed.

Lemma elem_of_revocations key x :
  (key, x) ∈ revocations (diff existing updated) <->
  subscribed existing key x /\ ~ subscribed updated key x.
Proof.
  unfold diff. cbn [revocations]. rewrite set_iter_elem_of, elem_of_app, !elem_of_concat_fmap.
  setoid_rewrite elem_filter. setoid_rewrite elem_of_source_changes.
  setoid_rewrite elem_of_set_diff. setoid_rewrite sources_of_spec; [|done..].
  setoid_rewrite negb_true_iff. setoid_rewrite <-not_true_iff_false.
  setoid_rewrite has_key_spec; [|done..]. split.
  - intros [(s & [Hs Hn] & <- & Hx)|(s & [Hs Hk] & <- & Hx & Hnx)].
    + split; [by exists s|]. intros (s' & Hs' & Hk' & _). apply Hn. by exists s'.
    + split; [done|]. intros (s' & Hs' & Hk' & Hx').
      assert (s' = s) as ->; [|done].
      pose proof (proj2 (subscription_map_list updated _ s' Hupdated) (conj Hs' Hk')) as E1.
      pose proof (proj2 (subscription_map_list updated _ s Hupdated) (conj Hs eq_refl)) as E2.
      congruence.
  - intros [(s & Hs & <- & Hx) Hn].
    destruct (has_key (subscription_map updated) s) eqn:E.
    + apply has_key_spec in E as (s' & Hs' & Hk'); [|done]. right. exists s'.
      split_and!; [done|by exists s|done|by exists s|].
      intros Hx'. apply Hn. by exists s'.
    + apply not_true_iff_false in E. rewrite has_key_spec in E by done. left. by exists s.
Qed.

(** The difference of two lists of subscriptions, each with a key once, is exact: what is
    allocated is what the updated list subscribes a key to and the existing one does not,
    what is revoked the other way round, each once; so nothing is both. *)
Theorem diff_exact :
  (forall key x, (key, x) ∈ allocations (diff existing updated) <->
    subscribed updated key x /\ ~ subscribed existing key x) /\
  (forall key x, (key, x) ∈ revocations (diff existing updated) <->
    subscribed existing key x /\ ~ subscribed updated key x) /\
  NoDup (allocations (diff existing updated)) /\ NoDup (revocations (diff existing updated)).
Proof.
  split_and!; [apply elem_of_allocations|apply elem_of_revocations|apply set_iter_NoDup..].
Qed.
End two_lists.
End difference.

(** ** The subscribers of a node *)

Section observer.
Context `{SetOrder} {S E W : Type} `{UserCode} `{!EventStorageAdapter S}.

(** What the node's [EventSubscriptionConsumer]s hold. *)
Record SubscriptionConsumer := mkSubscriptionConsumer {
  sc_requests : list EventSourceIdentifier;
  sc_delegate_factory : EventSource S E -> EventSourceConsumer (S := S) (E := E) (W := W);
  sc_delegates : Delegates (S := S) (E := E) (W := W)
}.

(** [EventSourceFactory]: gives the source of an identifier, or raises. *)
Class EventSourceFactory := {
  construct_event_source : EventSourceIdentifier -> res (EventSource S E);
  construct_identifier : forall i source,
    construct_event_source i = Ok source -> src_identifier source = i
}.
Context `{EventSourceFactory}.

Definition on_delegates (f : Delegates -> Delegates) (subscriber : SubscriptionConsumer) :
    SubscriptionConsumer :=
  mkSubscriptionConsumer (sc_requests subscriber) (sc_delegate_factory subscriber)
    (f (sc_delegates subscriber)).

Definition subscriber_accept (source : EventSource S E) (subscriber : SubscriptionConsumer) :
    SubscriptionConsumer :=
  on_delegates (accept (sc_delegate_factory subscriber) source) subscriber.
Definition subscriber_withdraw (source : EventSource S E) (subscriber : SubscriptionConsumer) :
    SubscriptionConsumer := on_delegates (withdraw source) subscriber.

(** [InMemoryEventSubscriberStore]. *)
Definition EventSubscriberStore : Type := dict EventKey SubscriptionConsumer.

Definition store_add (key : EventKey) (subscriber : SubscriptionConsumer)
    (subscribers : EventSubscriberStore) : EventSubscriberStore :=
  dict_set subscribers key subscriber.
Definition store_remove (key : EventKey) (subscribers : EventSubscriberStore) :
    EventSubscriberStore :=
  if decide (key ∈ dict_keys subscribers) then dict_pop subscribers key else subscribers.

(** [DefaultEventSubscriptionObserver]. *)
Record Observer := mkObserver {
  ob_existing_subscriptions : list EventSubscriptionState;
  ob_subscribers : EventSubscriberStore
}.

Definition set_observed (subscribers : EventSubscriberStore) (observer : Observer) : Observer :=
  mkObserver (ob_existing_subscriptions observer) subscribers.

(** A loop over changes: the source is constructed for the subscribers of this node only. *)
Fixpoint pass_on (act : EventSource S E -> SubscriptionConsumer -> SubscriptionConsumer)
    (changes : list EventSubscriptionChange) : ST Observer () :=
  match changes with
  | [] => mret ()
  | (key, identifier) :: rest =>
      observer ← st_get;
      match dict_get (ob_subscribers observer) key with
      | None => pass_on act rest
      | Some subscriber =>
          source ← st_lift (construct_event_source identifier);
          _ ← st_modify (set_observed
            (dict_set (ob_subscribers observer) key (act source subscriber)));
          pass_on act rest
      end
  end.

(** [synchronise], with what the subscription state store lists. *)
Definition synchronise (updated : list EventSubscriptionState) : ST Observer () :=
  observer ← st_get;
  let changeset := diff (ob_existing_subscriptions observer) updated in
  _ ← pass_on subscriber_withdraw (revocations changeset);
  _ ← pass_on subscriber_accept (allocations changeset);
  st_modify (fun observer => mkObserver updated (ob_subscribers observer)).

(** ** [SingletonEventBroker]: every subscriber is given all it requests *)

Fixpoint accept_requests (requests : list EventSourceIdentifier) (key : EventKey) :
    ST EventSubscriberStore () :=
  match requests with
  | [] => mret ()
  | identifier :: rest =>
      subscribers ← st_get;
      match dict_get subscribers key with
      | None => mret ()
      | Some subscriber =>
          source ← st_lift (construct_event_source identifier);
          _ ← st_put (dict_set subscribers key (subscriber_accept source subscriber));
          accept_requests rest key
      end
  end.

Fixpoint distribute_to (subscribers : list (EventKey * SubscriptionConsumer)) :
    ST EventSubscriberStore () :=
  match subscribers with
  | [] => mret ()
  | (key, subscriber) :: rest =>
      _ ← accept_requests (sc_requests subscriber) key; distribute_to rest
  end.

(** One turn of the loop of [_do_execute]. *)
Definition singleton_distribute : ST EventSubscriberStore () :=
  subscribers ← st_get; distribute_to subscribers.

(** * Theorems *)

Definition changes_of (key : EventKey) (changes : list EventSubscriptionChange) :
    list EventSourceIdentifier :=
  snd <$> List.filter (fun c => bool_decide (c.1 = key)) changes.

Lemma elem_of_changes_of key changes x : x ∈ changes_of key changes <-> (key, x) ∈ changes.
Proof.
  unfold changes_of. rewrite list_elem_of_fmap. setoid_rewrite elem_filter.
  setoid_rewrite bool_decide_eq_true. split.
  - by intros ([k y] & -> & Hin & <-).
  - intros Hin. by exists (key, x).
Qed.

Lemma changes_of_cons key k x changes :
  changes_of key ((k, x) :: changes) =
  if decide (k = key) then x :: changes_of key changes else changes_of key changes.
Proof.
  unfold changes_of. cbn. destruct (decide (k = key)) as [Hk|Hk].
  - by rewrite bool_decide_eq_true_2.
  - by rewrite bool_decide_eq_false_2.
Qed.

(** A loop that gets its sources does to each local subscriber what its changes say. *)
Lemma pass_on_ok act changes observer :
  (forall key x, (key, x) ∈ changes -> is_Some (dict_get (ob_subscribers observer) key) ->
    exists source, construct_event_source x = Ok source) ->
  exists observer', pass_on act changes observer = (Ok (), observer') /\
    ob_existing_subscriptions observer' = ob_existing_subscriptions observer /\
    forall key, match dict_get (ob_subscribers observer) key with
      | None => dict_get (ob_subscribers observer') key = None
      | Some subscriber => exists sources,
          Forall2 (fun x source => construct_event_source x = Ok source)
            (changes_of key changes) sources /\
          dict_get (ob_subscribers observer') key =
            Some (foldl (fun subscriber source => act source subscriber) subscriber sources)
      end.
Proof.
  revert observer. induction changes as [|[k x] changes IH]; intros observer Hok.
  { exists observer. split_and!; [done|done|]. intros key.
    destruct (dict_get (ob_subscribers observer) key); [|done]. exists []. split; [constructor|done]. }
  cbn [pass_on]. unfold mbind, ST_bind, st_get, st_lift, st_modify.
  destruct (dict_get (ob_subscribers observer) k) as [subscriber|] eqn:Hq.
  - destruct (Hok k x) as [source Hsource]; [constructor|by eexists|]. rewrite Hsource.
    destruct (IH (set_observed (dict_set (ob_subscribers observer) k (act source subscriber))
      observer)) as (observer' & Hrun & Hex & Hsubs).
    { intros key y Hy [s Hs]. apply (Hok key); [by constructor 2|]. cbn in Hs.
      rewrite dict_get_set in Hs. case_decide; subst; eauto. }
    exists observer'. split_and!; [done|done|]. intros key. specialize (Hsubs key). cbn in Hsubs.
    rewrite dict_get_set in Hsubs. rewrite changes_of_cons. destruct (decide (k = key)) as [<-|Hk].
    + rewrite Hq. destruct Hsubs as (sources & Hf & Hs). exists (source :: sources).
      split; [by constructor|done].
    + done.
  - destruct (IH observer) as (observer' & Hrun & Hex & Hsubs).
    { intros key y Hy. apply Hok. by constructor 2. }
    exists observer'. split_and!; [done|done|]. intros key. specialize (Hsubs key).
    rewrite changes_of_cons. destruct (decide (k = key)) as [<-|Hk]; [|done]. by rewrite Hq in *.
Qed.

Definition delegate_of (subscriber : SubscriptionConsumer) (x : EventSourceIdentifier) :=
  dict_get (sc_delegates subscriber) x.

Lemma constructed_identifiers xs sources :
  Forall2 (fun x source => construct_event_source x = Ok source) xs sources ->
  src_identifier <$> sources = xs.
Proof.
  induction 1 as [|x source xs sources Hx _ IH]; cbn; [done|].
  by rewrite (construct_identifier _ _ Hx), IH.
Qed.

Lemma delegate_withdraw source subscriber x :
  delegate_of (subscriber_withdraw source subscriber) x =
  if decide (src_identifier source = x) then None else delegate_of subscriber x.
Proof.
  unfold delegate_of, subscriber_withdraw, on_delegates, withdraw. cbn [sc_delegates].
  destruct (decide (src_identifier source ∈ dict_keys (sc_delegates subscriber))) as [Hin|Hin].
  - apply dict_get_pop.
  - destruct (decide (src_identifier source = x)) as [<-|]; [|done]. by apply dict_get_None.
Qed.

Lemma delegate_accept source subscriber x :
  delegate_of (subscriber_accept source subscriber) x =
  match delegate_of subscriber x with
  | Some delegate => Some delegate
  | None => if decide (src_identifier source = x)
      then Some (sc_delegate_factory subscriber source) else None
  end.
Proof.
  unfold delegate_of, subscriber_accept, on_delegates, accept. cbn [sc_delegates].
  destruct (decide (src_identifier source ∈ dict_keys (sc_delegates subscriber))) as [Hin|Hin].
  - destruct (dict_get (sc_delegates subscriber) x) eqn:Hq; [done|]. rewrite decide_False; [done|].
    intros Heq. rewrite Heq in Hin. by apply dict_get_None in Hq.
  - rewrite dict_get_set. destruct (decide (src_identifier source = x)) as [<-|].
    + by rewrite (proj2 (dict_get_None _ _) Hin).
    + by destruct (dict_get (sc_delegates subscriber) x).
Qed.

Lemma withdraw_all sources subscriber x :
  delegate_of (foldl (fun subscriber source => subscriber_withdraw source subscriber) subscriber
    sources) x =
  if decide (x ∈ src_identifier <$> sources) then None else delegate_of subscriber x.
Proof.
  revert subscriber. induction sources as [|source sources IH]; intros subscriber; cbn.
  { by rewrite decide_False by apply not_elem_of_nil. }
  rewrite IH, delegate_withdraw. destruct (decide (x ∈ src_identifier <$> sources)) as [Hx|Hx].
  { by rewrite decide_True by by constructor 2. }
  destruct (decide (src_identifier source = x)) as [<-|Hne].
  - by rewrite decide_True by constructor.
  - rewrite decide_False; [done|]. intros [?|?]%elem_of_cons; congruence.
Qed.

Lemma accept_all sources subscriber x :
  let after := delegate_of (foldl (fun subscriber source => subscriber_accept source subscriber)
    subscriber sources) x in
  match delegate_of subscriber x with
  | Some delegate => after = Some delegate
  | None => is_Some after <-> x ∈ src_identifier <$> sources
  end.
Proof.
  revert subscriber. induction sources as [|source sources IH]; intros subscriber; cbn.
  { destruct (delegate_of subscriber x); [done|].
    split; [by intros []|by intros ?%not_elem_of_nil]. }
  specialize (IH (subscriber_accept source subscriber)). cbn zeta in IH. revert IH.
  rewrite delegate_accept. destruct (delegate_of subscriber x) as [d|]; [done|].
  destruct (decide (src_identifier source = x)) as [<-|Hne].
  - intros ->. split; [constructor|by eexists].
  - intros ->. rewrite elem_of_cons. split; [by right|by intros [?|?]].
Qed.

(** Each local subscriber has a consumer for exactly the sources it is subscribed to. *)
Definition in_sync (subscriptions : list EventSubscriptionState)
    (subscribers : EventSubscriberStore) : Prop :=
  forall key subscriber, dict_get subscribers key = Some subscriber ->
    forall x, is_Some (delegate_of subscriber x) <-> subscribed subscriptions key x.

#[export] Instance subscribed_dec subscriptions key x : Decision (subscribed subscriptions key x).
Proof.
  refine (cast_if (decide (Exists (fun s => subscription_key s = key /\ x ∈ sn_event_sources s)
    subscriptions))); unfold subscribed; rewrite <-Exists_exists; done.
Defined.

Lemma subscribed_exclusive store k1 k2 x :
  subscriptions_ok store -> key_group k1 = key_group k2 ->
  subscribed (list_subscriptions store) k1 x -> subscribed (list_subscriptions store) k2 x ->
  k1 = k2.
Proof.
  intros Hstore Hg (s1 & G1 & <- & Hx1) (s2 & G2 & <- & Hx2).
  unfold list_subscriptions in *.
  apply dict_values_elem in G1 as [k1 G1]; [|apply Hstore].
  apply dict_values_elem in G2 as [k2 G2]; [|apply Hstore].
  rewrite (so_keyed _ Hstore _ _ G1), (so_keyed _ Hstore _ _ G2) in *.
  by apply (so_disjoint _ Hstore k1 k2 s1 s2 x).
Qed.

(** The two loops of a synchronisation, for one subscriber. *)
Lemma synchronise_run observer updated :
  (forall key x, is_Some (dict_get (ob_subscribers observer) key) ->
    subscribed (ob_existing_subscriptions observer) key x \/ subscribed updated key x ->
    exists source, construct_event_source x = Ok source) ->
  NoDup (subscription_key <$> ob_existing_subscriptions observer) ->
  NoDup (subscription_key <$> updated) ->
  exists observer', synchronise updated observer = (Ok (), observer') /\
    ob_existing_subscriptions observer' = updated /\
    forall key, match dict_get (ob_subscribers observer) key with
      | None => dict_get (ob_subscribers observer') key = None
      | Some subscriber => exists subscriber',
          dict_get (ob_subscribers observer') key = Some subscriber' /\
          forall x, match delegate_of subscriber x with
            | Some delegate => delegate_of subscriber' x =
                if decide (subscribed (ob_existing_subscriptions observer) key x /\
                  ~ subscribed updated key x)
                then None else Some delegate
            | None => is_Some (delegate_of subscriber' x) <->
                subscribed updated key x /\
                ~ subscribed (ob_existing_subscriptions observer) key x
            end
      end.
Proof.
  intros Hok Hex Hup. set (existing := ob_existing_subscriptions observer) in *.
  destruct (pass_on_ok subscriber_withdraw (revocations (diff existing updated)) observer)
    as (ob1 & E1 & Hex1 & G1).
  { intros key x Hx%elem_of_revocations Hk; [|done..]. apply (Hok key x Hk). left. apply Hx. }
  destruct (pass_on_ok subscriber_accept (allocations (diff existing updated)) ob1)
    as (ob2 & E2 & _ & G2).
  { intros key x Hx%elem_of_allocations Hk; [|done..]. apply (Hok key x); [|right; apply Hx].
    specialize (G1 key). destruct (dict_get (ob_subscribers observer) key); [by eexists|].
    rewrite G1 in Hk. by destruct Hk. }
  exists (mkObserver updated (ob_subscribers ob2)). split_and!; [|done|].
  - unfold synchronise, mbind, ST_bind, st_get, st_modify. fold existing. by rewrite E1, E2.
  - intros key. specialize (G1 key). specialize (G2 key). cbn [ob_subscribers].
    destruct (dict_get (ob_subscribers observer) key) as [subscriber|]; [|by rewrite G1 in G2].
    destruct G1 as (withdrawn & Hw%constructed_identifiers & Hs1). rewrite Hs1 in G2.
    destruct G2 as (accepted & Ha%constructed_identifiers & Hs2).
    eexists. split; [done|]. intros x.
    pose proof (accept_all accepted (foldl (fun subscriber source =>
      subscriber_withdraw source subscriber) subscriber withdrawn) x) as Hacc.
    cbn zeta in Hacc. rewrite withdraw_all, Hw, Ha in Hacc.
    assert (x ∈ changes_of key (allocations (diff existing updated)) <->
      subscribed updated key x /\ ~ subscribed existing key x) as Hall
      by by rewrite elem_of_changes_of, elem_of_allocations.
    assert (x ∈ changes_of key (revocations (diff existing updated)) <->
      subscribed existing key x /\ ~ subscribed updated key x) as Hrev
      by by rewrite elem_of_changes_of, elem_of_revocations.
    destruct (decide (x ∈ changes_of key (revocations (diff existing updated)))) as [Hx|Hx].
    + apply Hrev in Hx. destruct (delegate_of subscriber x) as [d|].
      * rewrite decide_True by done. apply eq_None_not_Some. rewrite Hacc. tauto.
      * by rewrite Hacc.
    + assert (~ (subscribed existing key x /\ ~ subscribed updated key x)) as Hx' by tauto.
      destruct (delegate_of subscriber x) as [d|]; [by rewrite decide_False|by rewrite Hacc].
Qed.

(** A synchronisation keeps the node in step. *)
Lemma synchronise_in_sync observer updated :
  (forall key x, is_Some (dict_get (ob_subscribers observer) key) ->
    subscribed (ob_existing_subscriptions observer) key x \/ subscribed updated key x ->
    exists source, construct_event_source x = Ok source) ->
  NoDup (subscription_key <$> ob_existing_subscriptions observer) ->
  NoDup (subscription_key <$> updated) ->
  in_sync (ob_existing_subscriptions observer) (ob_subscribers observer) ->
  exists observer', synchronise updated observer = (Ok (), observer') /\
    ob_existing_subscriptions observer' = updated /\
    in_sync updated (ob_subscribers observer') /\
    (forall key, is_Some (dict_get (ob_subscribers observer') key) <->
      is_Some (dict_get (ob_subscribers observer) key)) /\
    forall key subscriber x delegate, dict_get (ob_subscribers observer) key = Some subscriber ->
      delegate_of subscriber x = Some delegate -> subscribed updated key x ->
      exists subscriber', dict_get (ob_subscribers observer') key = Some subscriber' /\
        delegate_of subscriber' x = Some delegate.
Proof.
  intros Hok Hex Hup Hsync.
  destruct (synchronise_run observer updated Hok Hex Hup) as (observer' & Hrun & Hex' & Hsubs).
  exists observer'. split_and!; [done..| | |].
  - intros key s' Hs' x. specialize (Hsubs key).
    destruct (dict_get (ob_subscribers observer) key) as [s|] eqn:Hs; [|congruence].
    destruct Hsubs as (s'' & Hs'' & Hx). assert (s'' = s') as -> by congruence.
    specialize (Hx x). specialize (Hsync key s Hs x).
    destruct (delegate_of s x) as [d|].
    + rewrite Hx. assert (subscribed (ob_existing_subscriptions observer) key x) as He
        by (apply Hsync; by eexists).
      case_decide as Hd; [split; [by intros []|tauto]|].
      split; [intros _; apply dec_stable; tauto|by eexists].
    + rewrite Hx. split; [tauto|]. intros Hu. split; [done|]. intros He%Hsync. by destruct He.
  - intros key. specialize (Hsubs key).
    destruct (dict_get (ob_subscribers observer) key); [|by rewrite Hsubs].
    destruct Hsubs as (s' & -> & _). by split; eexists.
  - intros key s x d Hs Hd Hu. specialize (Hsubs key). rewrite Hs in Hsubs.
    destruct Hsubs as (s' & Hs' & Hx). exists s'. split; [done|]. specialize (Hx x).
    rewrite Hd in Hx. rewrite Hx, decide_False; [done|]. tauto.
Qed.

(** A synchronisation whose sources can all be constructed ends with every subscriber of
    the node consuming exactly the sources the updated subscriptions give it, when it did so
    for the subscriptions seen last; a source that stays keeps its consumer. When the
    subscriptions are those a coordinator keeps, no source is consumed by two subscribers of
    one group. *)
Theorem synchronise_follows observer updated :
  (forall key x, is_Some (dict_get (ob_subscribers observer) key) ->
    subscribed (ob_existing_subscriptions observer) key x \/ subscribed updated key x ->
    exists source, construct_event_source x = Ok source) ->
  NoDup (subscription_key <$> ob_existing_subscriptions observer) ->
  NoDup (subscription_key <$> updated) ->
  in_sync (ob_existing_subscriptions observer) (ob_subscribers observer) ->
  exists observer', synchronise updated observer = (Ok (), observer') /\
    ob_existing_subscriptions observer' = updated /\
    in_sync updated (ob_subscribers observer') /\
    (forall key subscriber x delegate, dict_get (ob_subscribers observer) key = Some subscriber ->
      delegate_of subscriber x = Some delegate -> subscribed updated key x ->
      exists subscriber', dict_get (ob_subscribers observer') key = Some subscriber' /\
        delegate_of subscriber' x = Some delegate) /\
    forall store k1 k2 s1 s2 x, subscriptions_ok store -> updated = list_subscriptions store ->
      dict_get (ob_subscribers observer') k1 = Some s1 ->
      dict_get (ob_subscribers observer') k2 = Some s2 -> key_group k1 = key_group k2 ->
      is_Some (delegate_of s1 x) -> is_Some (delegate_of s2 x) -> k1 = k2.
Proof.
  intros Hok Hex Hup Hsync.
  destruct (synchronise_in_sync observer updated Hok Hex Hup Hsync)
    as (observer' & Hrun & Hex' & Hsync' & _ & Hkept).
  exists observer'. split_and!; [done..|].
  intros store k1 k2 s1 s2 x Hstore -> G1 G2 Hg Hx1 Hx2.
  apply (subscribed_exclusive store k1 k2 x Hstore Hg).
  - by apply (Hsync' k1 s1 G1).
  - by apply (Hsync' k2 s2 G2).
Qed.

(** ** The broker of one node *)

Definition accept_sources (sources : list (EventSource S E)) (subscriber : SubscriptionConsumer) :
    SubscriptionConsumer :=
  foldl (fun subscriber source => subscriber_accept source subscriber) subscriber sources.

Definition sources_for (requests : list EventSourceIdentifier) (sources : list (EventSource S E)) :
    Prop := Forall2 (fun x source => construct_event_source x = Ok source) requests sources.

Lemma accept_requests_ok requests sources key subscriber subscribers :
  sources_for requests sources -> dict_get subscribers key = Some subscriber ->
  exists subscribers', accept_requests requests key subscribers = (Ok (), subscribers') /\
    forall k, dict_get subscribers' k =
      if decide (key = k) then Some (accept_sources sources subscriber)
      else dict_get subscribers k.
Proof.
  intros Hsources. revert subscriber subscribers.
  induction Hsources as [|x source requests sources Hx _ IH]; intros subscriber subscribers Hk.
  - exists subscribers. split; [done|]. intros k. case_decide; by subst.
  - cbn [accept_requests]. unfold mbind, ST_bind, st_get, st_lift, st_put. rewrite Hk, Hx.
    destruct (IH (subscriber_accept source subscriber)
      (dict_set subscribers key (subscriber_accept source subscriber))) as (s' & Hrun & Hs').
    { apply dict_get_set_eq. }
    exists s'. split; [done|]. intros k. rewrite Hs'. case_decide; [done|].
    by rewrite dict_get_set_ne.
Qed.

Lemma distribute_to_ok l subscribers :
  NoDup (dict_keys l) -> (forall k s, (k, s) ∈ l -> dict_get subscribers k = Some s) ->
  (forall k s, (k, s) ∈ l -> exists sources, sources_for (sc_requests s) sources) ->
  exists subscribers', distribute_to l subscribers = (Ok (), subscribers') /\
    forall k, match dict_get l k with
      | None => dict_get subscribers' k = dict_get subscribers k
      | Some s => exists sources, sources_for (sc_requests s) sources /\
          dict_get subscribers' k = Some (accept_sources sources s)
      end.
Proof.
  revert subscribers. induction l as [|[key s] l IH]; intros subscribers Hnd Hget Hsources.
  { by exists subscribers. }
  apply NoDup_cons in Hnd as [Hkey Hnd]. cbn [distribute_to]. unfold mbind, ST_bind.
  destruct (Hsources key s) as [sources Hs]; [constructor|].
  destruct (accept_requests_ok _ _ key s subscribers Hs) as (s1 & Hrun & Hs1).
  { apply Hget. constructor. }
  rewrite Hrun. destruct (IH s1 Hnd) as (s2 & Hrun2 & Hs2).
  - intros k x Hx. rewrite Hs1, decide_False; [apply Hget; by constructor 2|].
    intros <-. apply Hkey. apply list_elem_of_fmap. by exists (key, x).
  - intros k x Hx. apply (Hsources k). by constructor 2.
  - exists s2. split; [done|]. intros k. specialize (Hs2 k). cbn [dict_get].
    destruct (decide (k = key)) as [->|Hne].
    + rewrite (proj2 (dict_get_None l key) Hkey) in Hs2. exists sources. split; [done|].
      by rewrite Hs2, Hs1, decide_True.
    + destruct (dict_get l k); [done|]. rewrite Hs2, Hs1. by rewrite decide_False.
Qed.

(** The broker of a single node gives every subscriber a consumer for each source it
    requests, when they can all be constructed: after each round a subscriber consumes what
    it did before, by the same consumers, and what it requests. *)
Theorem singleton_serves_requests subscribers :
  NoDup (dict_keys subscribers) ->
  (forall key subscriber x, dict_get subscribers key = Some subscriber ->
    x ∈ sc_requests subscriber -> exists source, construct_event_source x = Ok source) ->
  exists subscribers', singleton_distribute subscribers = (Ok (), subscribers') /\
    forall key, match dict_get subscribers key with
      | None => dict_get subscribers' key = None
      | Some subscriber => exists subscriber', dict_get subscribers' key = Some subscriber' /\
          forall x, match delegate_of subscriber x with
            | Some delegate => delegate_of subscriber' x = Some delegate
            | None => is_Some (delegate_of subscriber' x) <-> x ∈ sc_requests subscriber
            end
      end.
Proof.
  intros Hnd Hok. destruct (distribute_to_ok subscribers subscribers Hnd) as (s' & Hrun & Hs').
  - intros k s Hs. by apply dict_elem_get.
  - intros k s Hs. apply dict_elem_get in Hs; [|done]. specialize (Hok k s).
    specialize (fun x => Hok x Hs). revert Hok. generalize (sc_requests s). clear.
    induction l as [|x l IH]; intros Hok; [exists []; constructor|].
    destruct (Hok x) as [source Hx]; [constructor|].
    destruct IH as [sources Hl]; [intros y Hy; apply Hok; by constructor 2|].
    exists (source :: sources). by constructor.
  - exists s'. split; [done|]. intros key. specialize (Hs' key).
    destruct (dict_get subscribers key) as [s|]; [|done].
    destruct Hs' as (sources & Hsources & Hkey). eexists. split; [done|]. intros x.
    pose proof (accept_all sources s x) as Hacc.
    by rewrite (constructed_identifiers _ _ Hsources) in Hacc.
Qed.
End observer.

(** ** Over an event store *)

Section event_store_observer.
Context {S W : Type} `{UserCode} `{!EventStorageAdapter S}.

Lemma event_store_source_identifier i (source : EventSource S StoredEvent) :
  construct_source EventStoreEventSourceFactory i = Ok source -> src_identifier source = i.
Proof.
  unfold construct_source, EventStoreEventSourceFactory, register_constructor.
  destruct i; cbn [identifier_class]; simplify_map_eq; try done; by intros [= <-].
Qed.

#[export] Instance event_store_source_factory : EventSourceFactory (S := S) (E := StoredEvent) := {|
  construct_event_source := construct_source EventStoreEventSourceFactory;
  construct_identifier := event_store_source_identifier
|}.

Definition orders_1 : EventKey := mkKey "orders" "1".

(** A node with one subscriber, which consumes nothing yet. *)
Definition idle_observer (consumer_of : EventSource S StoredEvent -> EventSourceConsumer) :
    Observer (S := S) (E := StoredEvent) (W := W) :=
  mkObserver [] [(orders_1, mkSubscriptionConsumer [] consumer_of [])].

Definition subscribe_to (sources : list EventSourceIdentifier) : list EventSubscriptionState :=
  [mkSubscriptionState "orders" "1" "node-1" sources].

(** A synchronisation that fails part way leaves consumers behind: a subscriber that is
    given a category and a partition, which the event store's factory has no source for,
    has accepted the category when the failure comes; the observer still takes the
    subscriptions before that for the existing ones, so that when both are taken back the
    next synchronisation succeeds and the category stays consumed. *)
Theorem failed_synchronise_leaks
    (consumer_of : EventSource S StoredEvent -> EventSourceConsumer (W := W)) :
  let sources := [CategoryIdentifier "a";
    CategoryPartitionIdentifier "a" (StreamNamePrefixPartitionIdentifier "p")] in
  let failed := synchronise (H := insertion_order) (subscribe_to sources)
    (idle_observer consumer_of) in
  let next := synchronise (H := insertion_order) (subscribe_to []) failed.2 in
  failed.1 = Raise KeyError /\ next.1 = Ok () /\
  ob_existing_subscriptions next.2 = subscribe_to [] /\
  exists subscriber, dict_get (ob_subscribers next.2) orders_1 = Some subscriber /\
    is_Some (delegate_of subscriber (CategoryIdentifier "a")) /\
    ~ subscribed (subscribe_to []) orders_1 (CategoryIdentifier "a").
Proof.
  cbn zeta. split; [reflexivity|]. split; [reflexivity|]. split; [reflexivity|].
  eexists. split; [reflexivity|]. split; [eexists; reflexivity|].
  intros (s & ->%list_elem_of_singleton & _ & ?%not_elem_of_nil). done.
Qed.
End event_store_observer.

(** ** Witnesses *)

Definition moved_from : list EventSubscriptionState :=
  [mkSubscriptionState "orders" "1" "node-1" [CategoryIdentifier "a"; CategoryIdentifier "b"];
   mkSubscriptionState "orders" "2" "node-2" []].
Definition moved_to : list EventSubscriptionState :=
  [mkSubscriptionState "orders" "1" "node-1" [CategoryIdentifier "a"];
   mkSubscriptionState "orders" "2" "node-2" [CategoryIdentifier "b"]].

Lemma moved_NoDup : NoDup (subscription_key <$> moved_from) /\ NoDup (subscription_key <$> moved_to).
Proof. split; apply (bool_decide_unpack _); reflexivity. Qed.

Lemma diff_exact_witness :
  (mkKey "orders" "2", CategoryIdentifier "b") ∈
    allocations (diff (H := insertion_order) moved_from moved_to).
Proof.
  apply (proj1 (diff_exact (H := insertion_order) moved_from moved_to (proj1 moved_NoDup)
    (proj2 moved_NoDup))). split.
  - exists (mkSubscriptionState "orders" "2" "node-2" [CategoryIdentifier "b"]).
    split; [right; left|split; [reflexivity|left]].
  - intros (s & Hs & Hk & Hx). apply elem_of_cons in Hs as [Hs|Hs%list_elem_of_singleton]; subst s;
      [discriminate Hk|by apply not_elem_of_nil in Hx].
Defined.

#[local] Instance observer_adapter : EventStorageAdapter AdapterState :=
  @InMemoryEventStorageAdapter no_user_code constant_uuid ∅ ∅.

Definition log_consumer (source : EventSource AdapterState StoredEvent) :
    EventSourceConsumer (W := unit) :=
  mkConsumer source (EventProcessor (fun _ => mret ())) true.

(** Subscriber 1 consumes [a] and [b]; [b] moves to the other node. *)
Definition moving_observer : Observer (S := AdapterState) (E := StoredEvent) (W := unit) :=
  mkObserver moved_from
    [(orders_1, mkSubscriptionConsumer [] log_consumer
      [(CategoryIdentifier "a", log_consumer (adapter_source (CategoryIdentifier "a")));
       (CategoryIdentifier "b", log_consumer (adapter_source (CategoryIdentifier "b")))])].

Lemma subscribed_moved key x :
  subscribed moved_from key x \/ subscribed moved_to key x ->
  x = CategoryIdentifier "a" \/ x = CategoryIdentifier "b".
Proof.
  intros [(s & Hs & _ & Hx)|(s & Hs & _ & Hx)]; apply list_elem_of_In in Hs, Hx;
    destruct Hs as [Hs|[Hs|[]]]; subst s; cbn in Hx; intuition congruence.
Qed.

Lemma moving_in_sync : in_sync moved_from (ob_subscribers moving_observer).
Proof.
  intros key subscriber. cbn. case_decide as Hk; [|done]. intros [= <-] x.
  unfold delegate_of. rewrite dict_get_is_Some. subst. unfold dict_keys. cbn. split.
  - intros Hx. exists (mkSubscriptionState "orders" "1" "node-1"
      [CategoryIdentifier "a"; CategoryIdentifier "b"]). split; [left|done].
  - intros (s & Hs & Hk & Hx). apply elem_of_cons in Hs as [Hs|Hs%list_elem_of_singleton]; by subst s.
Qed.

Lemma synchronise_follows_witness :
  exists observer', synchronise (H := insertion_order) moved_to moving_observer =
      (Ok (), observer') /\
    in_sync moved_to (ob_subscribers observer').
Proof.
  destruct (synchronise_follows (H := insertion_order) moving_observer moved_to) as
    (observer' & Hrun & _ & Hsync & _).
  - intros key x _ Hx%subscribed_moved; destruct Hx as [->| ->]; eexists; reflexivity.
  - exact (proj1 moved_NoDup).
  - exact (proj2 moved_NoDup).
  - exact moving_in_sync.
  - exists observer'. split; [exact Hrun|exact Hsync].
Defined.

Lemma singleton_serves_requests_witness :
  exists subscribers', singleton_distribute (S := AdapterState) (E := StoredEvent) (W := unit)
      [(orders_1, mkSubscriptionConsumer [LogIdentifier] log_consumer [])] = (Ok (), subscribers') /\
    exists subscriber', dict_get subscribers' orders_1 = Some subscriber' /\
      is_Some (delegate_of subscriber' LogIdentifier).
Proof.
  destruct (singleton_serves_requests (S := AdapterState) (E := StoredEvent) (W := unit)
    [(orders_1, mkSubscriptionConsumer [LogIdentifier] log_consumer [])]) as (s' & Hrun & Hs').
  - apply NoDup_singleton.
  - intros key subscriber x Hs Hx. cbn in Hs. case_decide; [|discriminate Hs].
    injection Hs as <-. apply list_elem_of_singleton in Hx as ->. eexists. reflexivity.
  - exists s'. split; [exact Hrun|]. destruct (Hs' orders_1) as (subscriber' & Hk & Hx).
    exists subscriber'. split; [exact Hk|]. apply (Hx LogIdentifier). left.
Defined.
