(* ===== verification/SubscriberManager.v ===== *)
(** The subscriber manager of a node
    ([processing/broker/strategies/distributed/subscribers/manager.py]), over any store of
    subscriber states ([stores/state/base.py]): its subscribers are registered in the store
    that the nodes share, kept there by heartbeats, purged when they are not, and removed in
    the end. The store in memory is one such store. *)
From S2P Require Import Prelude Values BrokerState.

(** ** Stores of subscriber states *)

(** [EventSubscriberStateStore]; an operation that needs the time reads the clock once. *)
Class EventSubscriberStateStore (S : Type) := {
  sb_add : Z -> EventSubscriber -> ST S ();
  sb_remove : EventSubscriber -> ST S ();
  sb_list : option string -> option Z -> Z -> ST S (list EventSubscriberState);
  sb_heartbeat : Z -> EventSubscriber -> ST S ();
  sb_purge : Z -> Z -> ST S ()
}.

(** What a listing shows: the subscribers of a group, seen since some age ago. *)
Definition shown (group : option string) (age : option Z) (now : Z) (key : EventKey) (t : Z) :
    bool :=
  from_option (fun g => bool_decide (key_group key = g)) true group &&
  from_option (fun a => (now - a <? t)%Z) true age.

(** The promise of a store: [sb_seen] is when a key was last seen, if it is there, and
    [sb_kept] is of every state it lists. A purge removes no key seen since the cutoff, and
    brings none. *)
Class SubscriberStoreLaws (S : Type) `{EventSubscriberStateStore S} := {
  sb_holds : S -> Prop;
  sb_accepts : EventSubscriber -> Prop;
  sb_groups : string -> Prop;
  sb_kept : EventSubscriberState -> Prop;
  sb_seen : S -> EventKey -> option Z;
  sb_add_law : forall now subscriber s, sb_holds s -> sb_accepts subscriber ->
    exists s', sb_add now subscriber s = (Ok (), s') /\ sb_holds s' /\
      forall key, sb_seen s' key =
        if decide (key = es_key subscriber) then Some now else sb_seen s key;
  sb_remove_law : forall subscriber s, sb_holds s -> sb_accepts subscriber ->
    exists s', sb_remove subscriber s = (Ok (), s') /\ sb_holds s' /\
      forall key, sb_seen s' key =
        if decide (key = es_key subscriber) then None else sb_seen s key;
  sb_heartbeat_law : forall now subscriber s, sb_holds s -> sb_accepts subscriber ->
    exists s', sb_heartbeat now subscriber s = (Ok (), s') /\ sb_holds s' /\
      forall key, sb_seen s' key =
        if decide (key = es_key subscriber) then (fun _ => now) <$> sb_seen s key
        else sb_seen s key;
  sb_purge_law : forall age now s, sb_holds s ->
    exists s', sb_purge age now s = (Ok (), s') /\ sb_holds s' /\
      forall key, sb_seen s' key = sb_seen s key \/
        sb_seen s' key = None /\ exists t, sb_seen s key = Some t /\ (t <= now - age)%Z;
  sb_list_law : forall group age now s, sb_holds s -> from_option sb_groups True group ->
    exists l s', sb_list group age now s = (Ok l, s') /\ sb_holds s' /\
      (forall key, sb_seen s' key = sb_seen s key) /\
      Forall sb_kept l /\ NoDup (subscriber_key <$> l) /\
      forall key, key ∈ subscriber_key <$> l <->
        exists t, sb_seen s key = Some t /\ shown group age now key t = true
}.

(** ** The store in memory *)

#[export] Instance InMemoryEventSubscriberStateStore :
    EventSubscriberStateStore SubscriberStateStore := {|
  sb_add := fun now subscriber store => (Ok (), add_subscriber now subscriber store);
  sb_remove := fun subscriber store => (Ok (), remove_subscriber subscriber store);
  sb_list := fun group age now store => (Ok (list_subscribers group age now store), store);
  sb_heartbeat := fun now subscriber store => (Ok (), heartbeat now subscriber store);
  sb_purge := fun age now store => (Ok (), purge age now store)
|}.

(** When a key was last seen, by a list of states. *)
Fixpoint seen_in (l : list EventSubscriberState) (key : EventKey) : option Z :=
  match l with
  | [] => None
  | s :: rest => if decide (key = subscriber_key s) then Some (ss_last_seen s) else seen_in rest key
  end.

Lemma seen_in_None l key : seen_in l key = None <-> key ∉ subscriber_key <$> l.
Proof.
  induction l as [|s l IH]; cbn; [split; [by intros _ ?%not_elem_of_nil|done]|].
  rewrite not_elem_of_cons. case_decide; naive_solver.
Qed.

Lemma seen_in_elem l key t :
  seen_in l key = Some t -> exists s, s ∈ l /\ subscriber_key s = key /\ ss_last_seen s = t.
Proof.
  induction l as [|s l IH]; cbn; [done|]. case_decide.
  - intros [= <-]. exists s. split; [constructor|done].
  - intros (s' & Hs & Hk)%IH. exists s'. split; [by constructor|done].
Qed.

Lemma elem_seen_in l s :
  NoDup (subscriber_key <$> l) -> s ∈ l -> seen_in l (subscriber_key s) = Some (ss_last_seen s).
Proof.
  intros Hnd Hs. induction Hs as [s l|s s' l Hs IH]; cbn in *; [by rewrite decide_True|].
  apply NoDup_cons in Hnd as [Hs' Hnd]. rewrite decide_False; [by apply IH|].
  intros Heq. apply Hs'. rewrite <-Heq. by apply list_elem_of_fmap_2.
Qed.

Lemma seen_in_app l s key :
  seen_in (l ++ [s]) key =
  match seen_in l key with
  | Some t => Some t
  | None => if decide (key = subscriber_key s) then Some (ss_last_seen s) else None
  end.
Proof.
  induction l as [|x l IH]; cbn; [done|]. by destruct (decide (key = subscriber_key x)).
Qed.

Lemma keys_insert (l : list EventSubscriberState) i s s' :
  l !! i = Some s -> subscriber_key s' = subscriber_key s ->
  subscriber_key <$> <[i := s']> l = subscriber_key <$> l.
Proof.
  intros Hl Hk. rewrite list_fmap_insert, Hk. apply list_insert_id. by rewrite list_lookup_fmap, Hl.
Qed.

Lemma seen_in_insert (l : list EventSubscriberState) i s s' key :
  NoDup (subscriber_key <$> l) -> l !! i = Some s -> subscriber_key s' = subscriber_key s ->
  seen_in (<[i := s']> l) key =
  if decide (key = subscriber_key s') then Some (ss_last_seen s') else seen_in l key.
Proof.
  revert i. induction l as [|x l IH]; intros i Hnd Hi Hk; [done|].
  cbn in Hnd. apply NoDup_cons in Hnd as [Hx Hnd]. destruct i as [|i].
  - injection Hi as ->. change (<[0 := s']> (s :: l)) with (s' :: l). cbn [seen_in]. rewrite <-Hk. by repeat case_decide.
  - cbn in Hi. change (<[S i := s']> (x :: l)) with (x :: <[i := s']> l). cbn [seen_in].
    rewrite (IH i) by done. destruct (decide (key = subscriber_key x)) as [->|]; [|done].
    rewrite decide_False; [done|]. intros Heq. apply Hx. rewrite Heq, Hk.
    by apply list_elem_of_fmap_2, list_elem_of_lookup_2 with i.
Qed.

Lemma seen_in_remove l s key :
  NoDup (subscriber_key <$> l) -> s ∈ l ->
  seen_in (list_remove_first s l) key =
    (if decide (key = subscriber_key s) then None else seen_in l key) /\
  NoDup (subscriber_key <$> list_remove_first s l).
Proof.
  intros Hnd Hs. assert (exists pre post, l = pre ++ s :: post /\ s ∉ pre) as (pre & post & -> & Hpre)
    by by apply list_elem_of_split_l.
  rewrite list_remove_first_app by done. rewrite fmap_app, fmap_cons in Hnd.
  assert (NoDup (subscriber_key <$> pre ++ post)) as Hnd'.
  { revert Hnd. rewrite fmap_app, <-Permutation_middle. by intros [_ ?]%NoDup_cons. }
  split; [|done]. apply NoDup_app in Hnd as (_ & Hd & [Hs' _]%NoDup_cons).
  clear -Hd Hs'. induction pre as [|x pre IH]; cbn.
  - case_decide as Hk; [|done]. rewrite Hk. by apply seen_in_None.
  - rewrite IH by (intros k Hk; apply Hd; by constructor).
    case_decide as Hx; [|done]. rewrite decide_False; [done|].
    intros Heq. apply (Hd (subscriber_key x)); [constructor|]. rewrite <-Hx, Heq. constructor.
Qed.

Lemma find_subscriber_seen l key :
  match find_subscriber key l with
  | Some (i, s) => l !! i = Some s /\ subscriber_key s = key
  | None => seen_in l key = None
  end.
Proof.
  unfold find_subscriber. destruct (list_find _ l) as [[i s]|] eqn:E.
  - apply list_find_Some in E as (Hi & -> & _). done.
  - apply list_find_None in E. rewrite Forall_forall in E. apply seen_in_None.
    intros (s & -> & Hs)%list_elem_of_fmap. by apply (E s).
Qed.

Definition store_holds (store : SubscriberStateStore) : Prop :=
  NoDup (subscriber_key <$> su_subscribers store).

Definition store_seen (store : SubscriberStateStore) : EventKey -> option Z :=
  seen_in (su_subscribers store).

Lemma seen_key node now subscriber : subscriber_key (seen node now subscriber) = es_key subscriber.
Proof. unfold subscriber_key, seen. cbn. by destruct (es_key subscriber). Qed.

Lemma heartbeat_memory now subscriber store :
  store_holds store ->
  store_holds (heartbeat now subscriber store) /\
  forall key, store_seen (heartbeat now subscriber store) key =
    if decide (key = es_key subscriber) then (fun _ => now) <$> store_seen store key
    else store_seen store key.
Proof.
  intros Hnd. unfold heartbeat.
  pose proof (find_subscriber_seen (su_subscribers store) (es_key subscriber)) as Hfind.
  destruct (find_subscriber _ _) as [[i s]|].
  - destruct Hfind as [Hi Hs]. split.
    + unfold store_holds. cbn. by rewrite (keys_insert _ _ s) by (done || by rewrite seen_key).
    + intros key. unfold store_seen. cbn [su_subscribers set_subscribers].
      rewrite (seen_in_insert _ _ s) by (done || by rewrite seen_key). rewrite seen_key. case_decide as Hk; [|done].
      rewrite Hk, <-Hs, elem_seen_in; [done..|]. by apply list_elem_of_lookup_2 with i.
  - split; [done|]. intros key. case_decide as Hk; [|done]. subst. unfold store_seen.
    by rewrite Hfind.
Qed.

Lemma add_memory now subscriber store :
  store_holds store ->
  store_holds (add_subscriber now subscriber store) /\
  forall key, store_seen (add_subscriber now subscriber store) key =
    if decide (key = es_key subscriber) then Some now else store_seen store key.
Proof.
  intros Hnd. unfold add_subscriber.
  pose proof (find_subscriber_seen (su_subscribers store) (es_key subscriber)) as Hfind.
  destruct (find_subscriber _ _) as [[i s]|].
  - destruct (heartbeat_memory now subscriber store Hnd) as [Hh Hseen]. split; [done|].
    intros key. rewrite Hseen. case_decide as Hk; [|done]. destruct Hfind as [Hi Hs].
    unfold store_seen. rewrite Hk, <-Hs, elem_seen_in; [done..|].
    by apply list_elem_of_lookup_2 with i.
  - split.
    + unfold store_holds. cbn. rewrite fmap_app. apply NoDup_app. split_and!; [done| |].
      * apply seen_in_None in Hfind. cbn. rewrite seen_key. intros k Hk ->%list_elem_of_singleton. done.
      * apply NoDup_singleton.
    + intros key. unfold store_seen. cbn [su_subscribers set_subscribers].
      rewrite seen_in_app, seen_key. case_decide as Hk; [by rewrite Hk, Hfind|].
      by destruct (seen_in _ key).
Qed.

Lemma remove_memory subscriber store :
  store_holds store ->
  store_holds (remove_subscriber subscriber store) /\
  forall key, store_seen (remove_subscriber subscriber store) key =
    if decide (key = es_key subscriber) then None else store_seen store key.
Proof.
  intros Hnd. unfold remove_subscriber.
  pose proof (find_subscriber_seen (su_subscribers store) (es_key subscriber)) as Hfind.
  destruct (find_subscriber _ _) as [[i s]|].
  - destruct Hfind as [Hi Hs].
    assert (s ∈ su_subscribers store) as Hin by by apply list_elem_of_lookup_2 with i.
    split; [by apply (seen_in_remove _ _ (es_key subscriber) Hnd Hin)|].
    intros key. rewrite <-Hs. apply (seen_in_remove _ _ key Hnd Hin).
  - split; [done|]. intros key. case_decide as Hk; [|done]. by rewrite Hk.
Qed.

Lemma skip_purge_elem cutoff l s : s ∈ skip_purge cutoff l -> s ∈ l.
Proof.
  induction l as [|x|x y l Hx IH|x l Hx IH] using (skip_purge_ind cutoff); cbn;
    rewrite ?H, ?Hx; set_solver.
Qed.

Lemma skip_purge_NoDup cutoff l :
  NoDup (subscriber_key <$> l) -> NoDup (subscriber_key <$> skip_purge cutoff l).
Proof.
  induction l as [|x|x y l Hx IH|x l Hx IH] using (skip_purge_ind cutoff); cbn;
    rewrite ?H, ?Hx; cbn; rewrite ?NoDup_cons; intros Hnd; [done|constructor| |].
  - destruct Hnd as (_ & Hy & Hnd). split; [|by apply IH].
    intros (s & Hk & Hs%skip_purge_elem)%list_elem_of_fmap. apply Hy. rewrite Hk.
    by apply list_elem_of_fmap_2.
  - destruct Hnd as [Hy Hnd]. split; [|by apply IH].
    intros (s & Hk & Hs%skip_purge_elem)%list_elem_of_fmap. apply Hy. rewrite Hk.
    by apply list_elem_of_fmap_2.
Qed.

Lemma skip_purge_seen cutoff l key :
  NoDup (subscriber_key <$> l) ->
  seen_in (skip_purge cutoff l) key = seen_in l key \/
  seen_in (skip_purge cutoff l) key = None /\ exists t, seen_in l key = Some t /\ (t <= cutoff)%Z.
Proof.
  induction l as [|x Hx|x y l Hx IH|x l Hx IH] using (skip_purge_ind cutoff); cbn;
    rewrite ?Hx; cbn; rewrite ?NoDup_cons; [by left|intros _|intros (Hxl & _ & Hnd)|intros [_ Hnd]].
  - unfold stale in Hx. case_decide; [right|by left]. split; [done|].
    eexists. split; [done|lia].
  - unfold stale in Hx. destruct (decide (key = subscriber_key x)) as [->|Hk].
    + right. split; [|eexists; split; [done|lia]]. apply not_elem_of_cons in Hxl as [Hne Hxl].
      rewrite decide_False by done. apply seen_in_None. intros (s & Hs & Hin%skip_purge_elem)%list_elem_of_fmap.
      apply Hxl. rewrite Hs. by apply list_elem_of_fmap_2.
    + case_decide; [by left|]. by apply IH.
  - case_decide; [by left|]. by apply IH.
Qed.

(** A filter of distinct subscribers, by what it keeps of each. *)
Lemma filter_listed (keep : EventSubscriberState -> bool) l :
  NoDup (subscriber_key <$> l) ->
  NoDup (subscriber_key <$> List.filter keep l) /\
  forall key, key ∈ subscriber_key <$> List.filter keep l <->
    exists s, s ∈ l /\ subscriber_key s = key /\ keep s = true.
Proof.
  intros Hnd. split.
  - by apply filter_keys_NoDup.
  - intros key. rewrite list_elem_of_fmap. setoid_rewrite elem_filter. naive_solver.
Qed.

Lemma list_memory group age now store :
  store_holds store ->
  let l := list_subscribers group age now store in
  NoDup (subscriber_key <$> l) /\
  forall key, key ∈ subscriber_key <$> l <->
    exists t, store_seen store key = Some t /\ shown group age now key t = true.
Proof.
  intros Hnd l.
  assert (l = List.filter (fun s => shown group age now (subscriber_key s) (ss_last_seen s))
    (su_subscribers store)) as ->.
  { unfold l, list_subscribers, shown. generalize (su_subscribers store) as m. intros m.
    destruct group, age; cbn [from_option]; rewrite ?filter_twice; try done.
    - apply List.filter_ext. intros x. by rewrite andb_true_r.
    - symmetry. apply filter_all. done. }
  destruct (filter_listed (fun s => shown group age now (subscriber_key s) (ss_last_seen s)) _ Hnd)
    as [Hnd' Hin]. split; [done|].
  intros key. rewrite Hin. split.
  - intros (s & Hs & <- & Hshown). exists (ss_last_seen s). split; [by apply elem_seen_in|done].
  - intros (t & (s & Hs & Hk & <-)%seen_in_elem & Hshown). exists s. by rewrite Hk.
Qed.

#[export, refine] Instance SubscriberStateStore_laws : SubscriberStoreLaws SubscriberStateStore := {|
  sb_holds := store_holds;
  sb_accepts := fun _ => True;
  sb_groups := fun _ => True;
  sb_kept := fun _ => True;
  sb_seen := store_seen
|}.
Proof.
  - intros now subscriber s Hs _. eexists. split; [done|]. by apply add_memory.
  - intros subscriber s Hs _. eexists. split; [done|]. by apply remove_memory.
  - intros now subscriber s Hs _. eexists. split; [done|]. by apply heartbeat_memory.
  - intros age now s Hs. eexists. split; [done|].
    destruct (purge_skips age now s Hs) as [Heq _]. unfold store_holds, store_seen. rewrite Heq.
    split; [by apply skip_purge_NoDup|]. intros key. by apply skip_purge_seen.
  - intros group age now s Hs _. do 2 eexists. split; [done|]. split; [done|]. split; [done|].
    split; [by apply Forall_true|]. by apply list_memory.
Defined.

(** ** [DefaultEventSubscriberManager]

    [subscribers] are those the node's subscriber store lists, each with the health it
    reports; [clock i] is the [i]-th reading of the clock by a loop over them. *)
Module manager.
Section manager.
Context {S : Type} `{EventSubscriberStateStore S}.

Fixpoint register (clock : nat -> Z) (subscribers : list EventSubscriber) : ST S () :=
  match subscribers with
  | [] => mret ()
  | subscriber :: rest =>
      _ ← sb_add (clock 0) subscriber;
      register (fun i => clock (Datatypes.S i)) rest
  end.

Fixpoint unregister (subscribers : list EventSubscriber) : ST S () :=
  match subscribers with
  | [] => mret ()
  | subscriber :: rest => _ ← sb_remove subscriber; unregister rest
  end.

Definition start (clock : nat -> Z) (subscribers : list EventSubscriber) : ST S () :=
  register clock subscribers.
Definition stop (subscribers : list EventSubscriber) : ST S () := unregister subscribers.

(** One turn of the loops of [heartbeat], for one subscriber and for all, and of [purge]. *)
Definition heartbeat_one (now : Z) (subscriber : EventSubscriber) : ST S () :=
  if es_healthy subscriber then sb_heartbeat now subscriber else mret ().

Fixpoint heartbeat (clock : nat -> Z) (subscribers : list EventSubscriber) : ST S () :=
  match subscribers with
  | [] => mret ()
  | subscriber :: rest =>
      _ ← heartbeat_one (clock 0) subscriber;
      heartbeat (fun i => clock (Datatypes.S i)) rest
  end.

Definition purge (subscriber_max_age now : Z) : ST S () := sb_purge subscriber_max_age now.

(** [maintain]: the two loops as tasks that take turns at their awaits. [pending] are the
    subscribers the heartbeat loop has still to see in its turn, out of those of the node;
    sleeping passes time only. *)
Inductive maintain_step (of_node : EventSubscriber -> Prop) (subscriber_max_age : Z) :
    list EventSubscriber * S -> list EventSubscriber * S -> Prop :=
  | heartbeat_turn subscribers s :
      Forall of_node subscribers ->
      maintain_step of_node subscriber_max_age ([], s) (subscribers, s)
  | heartbeat_next now subscriber pending s s' :
      heartbeat_one now subscriber s = (Ok (), s') ->
      maintain_step of_node subscriber_max_age (subscriber :: pending, s) (pending, s')
  | purge_turn now pending s s' :
      purge subscriber_max_age now s = (Ok (), s') ->
      maintain_step of_node subscriber_max_age (pending, s) (pending, s').

(** [DistributedEventBroker._do_execute]: the subscribers are registered, the tasks of the
    group run (here [group]), and the subscribers are unregistered, whatever happened. *)
Definition try_finally {A} (body : ST S A) (final : ST S ()) : ST S A := fun s =>
  match body s with
  | (r, s1) =>
      match final s1 with
      | (Ok _, s2) => (r, s2)
      | (Raise e, s2) => (Raise e, s2)
      end
  end.

Definition do_execute (clock : nat -> Z) (subscribers : list EventSubscriber) (group : ST S ())
    : ST S () :=
  try_finally (_ ← start clock subscribers; group) (stop subscribers).
End manager.
End manager.

(** ** What all nodes do to the store *)

Inductive StoreOperation :=
  | Added (subscriber : EventSubscriber)
  | Beat (subscriber : EventSubscriber)
  | Removed (subscriber : EventSubscriber)
  | Purged (age : Z).

(** A history of operations with their times. *)
Definition History : Type := list (Z * StoreOperation).

Section histories.
Context {S : Type} `{Hops : EventSubscriberStateStore S} {Hlaws : SubscriberStoreLaws S}.

Definition perform (entry : Z * StoreOperation) : ST S () :=
  match entry.2 with
  | Added subscriber => sb_add entry.1 subscriber
  | Beat subscriber => sb_heartbeat entry.1 subscriber
  | Removed subscriber => sb_remove subscriber
  | Purged age => sb_purge age entry.1
  end.

Fixpoint perform_all (history : History) : ST S () :=
  match history with [] => mret () | entry :: rest => _ ← perform entry; perform_all rest end.

Definition entry_accepted (entry : Z * StoreOperation) : Prop :=
  match entry.2 with
  | Added subscriber | Beat subscriber | Removed subscriber => sb_accepts subscriber
  | Purged _ => True
  end.

(** Times go on, from [t] up to [now]. *)
Fixpoint ordered (t now : Z) (history : History) : Prop :=
  match history with
  | [] => (t <= now)%Z
  | entry :: rest => (t <= entry.1)%Z /\ ordered entry.1 now rest
  end.

(** A subscriber last seen at [last] sends heartbeats no more than [gap] apart, up to [now],
    and is not removed. *)
Fixpoint beating (key : EventKey) (gap last now : Z) (history : History) : Prop :=
  match history with
  | [] => (now - last <= gap)%Z
  | (t, operation) :: rest =>
      match operation with
      | Added subscriber | Beat subscriber =>
          if decide (key = es_key subscriber)
          then (t - last <= gap)%Z /\ beating key gap t now rest
          else beating key gap last now rest
      | Removed subscriber => key <> es_key subscriber /\ beating key gap last now rest
      | Purged _ => beating key gap last now rest
      end
  end.

Definition purges_later (gap : Z) (entry : Z * StoreOperation) : Prop :=
  match entry.2 with Purged age => (gap < age)%Z | _ => True end.

Lemma beating_bound key gap last now t history :
  ordered t now history -> beating key gap last now history -> (t - last <= gap)%Z.
Proof.
  revert t. induction history as [|[t' op] rest IH]; intros t; cbn; [lia|].
  intros [Ht Hord] Hbeat. assert (beating key gap last now rest -> (t - last <= gap)%Z) as Hlater.
  { intros Hrest. specialize (IH t' Hord Hrest). lia. }
  destruct op; try case_decide; try (destruct Hbeat as [? Hbeat]); first [lia|by apply Hlater].
Qed.

Lemma perform_seen entry s :
  sb_holds s -> entry_accepted entry ->
  exists s', perform entry s = (Ok (), s') /\ sb_holds s' /\
    forall key, match entry.2 with
      | Added subscriber => sb_seen s' key =
          if decide (key = es_key subscriber) then Some entry.1 else sb_seen s key
      | Beat subscriber => sb_seen s' key =
          if decide (key = es_key subscriber) then (fun _ => entry.1) <$> sb_seen s key
          else sb_seen s key
      | Removed subscriber => sb_seen s' key =
          if decide (key = es_key subscriber) then None else sb_seen s key
      | Purged age => sb_seen s' key = sb_seen s key \/
          sb_seen s' key = None /\ exists t, sb_seen s key = Some t /\ (t <= entry.1 - age)%Z
      end.
Proof.
  intros Hs Hacc. destruct entry as [t []]; cbn in *;
    [by apply sb_add_law|by apply sb_heartbeat_law|by apply sb_remove_law|by apply sb_purge_law].
Qed.

Lemma perform_all_cons entry rest s s' :
  perform entry s = (Ok (), s') -> perform_all (entry :: rest) s = perform_all rest s'.
Proof.
  intros E. change (perform_all (entry :: rest) s) with
    ((perform entry ≫= fun _ => perform_all rest) s). unfold mbind, ST_bind. by rewrite E.
Qed.

Lemma beating_seen key gap history s last now t :
  sb_holds s -> Forall entry_accepted history -> Forall (purges_later gap) history ->
  ordered t now history -> sb_seen s key = Some last -> beating key gap last now history ->
  exists s' last', perform_all history s = (Ok (), s') /\ sb_holds s' /\
    sb_seen s' key = Some last' /\ (now - last' <= gap)%Z.
Proof.
  revert s last t. induction history as [|[t' op] rest IH]; intros s last t Hs Hacc Hpurge Hord Hseen
    Hbeat.
  - by exists s, last.
  - apply Forall_cons in Hacc as [Ha Hacc], Hpurge as [Hp Hpurge]. destruct Hord as [Ht Hord].
    destruct (perform_seen (t', op) s Hs Ha) as (s1 & E & Hs1 & Hk). specialize (Hk key).
    rewrite (perform_all_cons _ _ _ _ E). cbn in Hk, Hbeat, Hp, Hord.
    destruct op as [x|x|x|age]; cbn in Hk, Hbeat, Hp; try case_decide;
      try (destruct Hbeat as [Hb Hbeat]); rewrite ?Hseen in Hk; try done; try (by eapply IH).
    destruct Hk as [Hk|[_ (? & [= <-] & Hle)]]; [by eapply IH|].
    pose proof (beating_bound _ _ _ _ _ _ Hord Hbeat). unfold purges_later in Hp. cbn in Hp. lia.
Qed.

(** What is seen after a history without purges. *)
Fixpoint seen_after (history : History) (seen : EventKey -> option Z) (key : EventKey)
    : option Z :=
  match history with
  | [] => seen key
  | (t, operation) :: rest =>
      seen_after rest (fun key => match operation with
        | Added subscriber => if decide (key = es_key subscriber) then Some t else seen key
        | Beat subscriber =>
            if decide (key = es_key subscriber) then (fun _ => t) <$> seen key else seen key
        | Removed subscriber => if decide (key = es_key subscriber) then None else seen key
        | Purged _ => seen key
        end) key
  end.

Definition no_purge (entry : Z * StoreOperation) : Prop :=
  match entry.2 with Purged _ => False | _ => True end.

Lemma seen_after_ext history seen seen' key :
  (forall key, seen key = seen' key) -> seen_after history seen key = seen_after history seen' key.
Proof.
  revert seen seen'. induction history as [|[t op] rest IH]; intros seen seen' Hs; [apply Hs|].
  cbn. apply IH. intros key'. by rewrite !Hs.
Qed.

Lemma perform_all_seen history s :
  sb_holds s -> Forall entry_accepted history -> Forall no_purge history ->
  exists s', perform_all history s = (Ok (), s') /\ sb_holds s' /\
    forall key, sb_seen s' key = seen_after history (sb_seen s) key.
Proof.
  revert s. induction history as [|[t op] rest IH]; intros s Hs Hacc Hno; [by exists s|].
  apply Forall_cons in Hacc as [Ha Hacc], Hno as [Hn Hno].
  destruct (perform_seen (t, op) s Hs Ha) as (s1 & E & Hs1 & Hk).
  destruct (IH s1 Hs1 Hacc Hno) as (s2 & E2 & Hs2 & Hk2).
  exists s2. rewrite (perform_all_cons _ _ _ _ E). split; [done|]. split; [done|].
  intros key. rewrite Hk2. cbn. apply seen_after_ext. intros key'. specialize (Hk key').
  by destruct op.
Qed.

(** C16. A subscriber that goes on sending heartbeats stays listed: when it is not removed, its
    heartbeats are at most some gap apart, and purges and the listing only leave out subscribers not
    seen for longer than that, then whatever else is done to the store in the meantime - other
    subscribers, of any node, added, removed and seen, and purges, in any interleaving, as long as
    the clocks of the nodes agree enough for times not to go back, and the store accepts the
    subscribers - every operation goes through and the subscriber is listed in the end, once, by a
    listing of all groups or of its own. *)
Theorem heartbeats_keep_listed key gap history s last t now group age :
  sb_holds s -> Forall entry_accepted history -> Forall (purges_later gap) history ->
  ordered t now history -> sb_seen s key = Some last -> beating key gap last now history ->
  from_option sb_groups True group -> from_option (eq (key_group key)) True group ->
  from_option (Z.lt gap) True age ->
  exists s' l s'', perform_all history s = (Ok (), s') /\ sb_list group age now s' = (Ok l, s'') /\
    NoDup (subscriber_key <$> l) /\ key ∈ subscriber_key <$> l.
Proof.
  intros Hs Hacc Hpurge Hord Hseen Hbeat Hg Hgroup Hage.
  destruct (beating_seen key gap history s last now t Hs Hacc Hpurge Hord Hseen Hbeat)
    as (s' & last' & E & Hs' & Hseen' & Hlast).
  destruct (sb_list_law group age now s' Hs' Hg) as (l & s'' & El & _ & _ & _ & Hnd & Hin).
  exists s', l, s''. split_and!; [done..|]. apply Hin. exists last'. split; [done|].
  unfold shown. apply andb_true_iff. split.
  - destruct group; [by apply bool_decide_eq_true|done].
  - destruct age; [|done]. cbn in *. lia.
Qed.

(** *** Maintenance *)

Lemma heartbeat_one_seen now subscriber s r s' :
  sb_holds s -> sb_accepts subscriber -> manager.heartbeat_one now subscriber s = (r, s') ->
  sb_holds s' /\ forall key, sb_seen s key = None -> sb_seen s' key = None.
Proof.
  intros Hs Hacc. unfold manager.heartbeat_one. destruct (es_healthy subscriber).
  - destruct (sb_heartbeat_law now subscriber s Hs Hacc) as (s1 & -> & Hs1 & Hk). intros [= _ <-].
    split; [done|]. intros key Hkey. rewrite Hk. case_decide; [by rewrite Hkey|done].
  - intros [= _ <-]. done.
Qed.

Lemma maintain_holds of_node age p p' :
  (forall x, of_node x -> sb_accepts x) -> rtc (manager.maintain_step of_node age) p p' ->
  sb_holds p.2 -> Forall of_node p.1 ->
  sb_holds p'.2 /\ forall key, sb_seen p.2 key = None -> sb_seen p'.2 key = None.
Proof.
  intros Hof Hsteps. induction Hsteps as [p|p1 p2 p3 Hstep _ IH]; [done|]. intros Hs Hp.
  enough (sb_holds p2.2 /\ Forall of_node p2.1 /\
    forall key, sb_seen p1.2 key = None -> sb_seen p2.2 key = None) as (H2 & Hp2 & Hk).
  { destruct (IH H2 Hp2). split; [done|]. intros key Hkey. auto. }
  destruct Hstep as [subscribers s Hsubs|now x pending s s' E|now pending s s' E]; cbn in *.
  - done.
  - apply Forall_cons in Hp as [Hx Hp]. apply heartbeat_one_seen in E as [H2 Hk]; auto.
  - destruct (sb_purge_law age now s Hs) as (s1 & E1 & Hs1 & Hk). unfold manager.purge in E.
    rewrite E1 in E. injection E as <-. split_and!; [done..|]. intros key Hkey.
    destruct (Hk key) as [->|[-> _]]; done.
Qed.

(** C17. A subscriber that is not in the store stays out of it: no turns of the heartbeats and
    of the purges, on however many subscribers, however healthy, bring it back. So one that
    was purged, say after it was unhealthy for a while, is listed no more for as long as the
    node goes on, and gets no event sources. *)
Theorem lost_subscriber_stays_lost of_node max_age pending s pending' s' key group age now l s'' :
  (forall x, of_node x -> sb_accepts x) -> Forall of_node pending -> sb_holds s ->
  sb_seen s key = None ->
  rtc (manager.maintain_step of_node max_age) (pending, s) (pending', s') ->
  from_option sb_groups True group -> sb_list group age now s' = (Ok l, s'') ->
  key ∉ subscriber_key <$> l.
Proof.
  intros Hof Hp Hs Hkey Hsteps Hg E.
  destruct (maintain_holds of_node max_age _ _ Hof Hsteps Hs Hp) as [Hs' Hk]. cbn in *.
  destruct (sb_list_law group age now s' Hs' Hg) as (l' & s1 & E' & _ & _ & _ & _ & Hin).
  rewrite E in E'. injection E' as <- <-. intros (t & Hseen & _)%Hin. by rewrite Hk in Hseen.
Qed.

(** *** Execution *)

Lemma register_seen clock subscribers s :
  sb_holds s -> Forall sb_accepts subscribers ->
  exists s', manager.register clock subscribers s = (Ok (), s') /\ sb_holds s' /\
    (forall x, x ∈ subscribers -> is_Some (sb_seen s' (es_key x))) /\
    forall key, is_Some (sb_seen s key) -> is_Some (sb_seen s' key).
Proof.
  revert clock s. induction subscribers as [|x subscribers IH]; intros clock s Hs Hacc.
  - exists s. split_and!; [done..| |done]. by intros x ?%not_elem_of_nil.
  - apply Forall_cons in Hacc as [Hx Hacc].
    destruct (sb_add_law (clock 0) x s Hs Hx) as (s1 & E1 & Hs1 & Hk1).
    destruct (IH (fun i => clock (Datatypes.S i)) s1 Hs1 Hacc) as (s2 & E2 & Hs2 & Hin & Hkeep).
    exists s2. split_and!; [|done| |].
    + cbn [manager.register]. unfold mbind, ST_bind. by rewrite E1.
    + intros y [->|Hy]%elem_of_cons; [|by apply Hin]. apply Hkeep. rewrite Hk1.
      by rewrite decide_True.
    + intros key Hkey. apply Hkeep. rewrite Hk1. by case_decide.
Qed.

Lemma unregister_seen subscribers s :
  sb_holds s -> Forall sb_accepts subscribers ->
  exists s', manager.unregister subscribers s = (Ok (), s') /\ sb_holds s' /\
    forall key, sb_seen s' key =
      if decide (key ∈ es_key <$> subscribers) then None else sb_seen s key.
Proof.
  revert s. induction subscribers as [|x subscribers IH]; intros s Hs Hacc.
  - exists s. done.
  - apply Forall_cons in Hacc as [Hx Hacc].
    destruct (sb_remove_law x s Hs Hx) as (s1 & E1 & Hs1 & Hk1).
    destruct (IH s1 Hs1 Hacc) as (s2 & E2 & Hs2 & Hk2).
    exists s2. split_and!; [|done|].
    + cbn [manager.unregister]. unfold mbind, ST_bind. by rewrite E1.
    + intros key. rewrite Hk2, Hk1. cbn. repeat case_decide; set_solver.
Qed.

(** Running a distributed broker registers every subscriber of the node before its tasks
    start, and when they end, however they end, unregisters them all: none is listed any
    longer, others are as the tasks left them, and what the tasks raised is raised. *)
Theorem execution_unregisters clock subscribers (group : ST S ()) s :
  sb_holds s -> Forall sb_accepts subscribers ->
  (forall s1 r s2, sb_holds s1 -> group s1 = (r, s2) -> sb_holds s2) ->
  exists s1 r s2 s3, sb_holds s1 /\ group s1 = (r, s2) /\
    (forall x, x ∈ subscribers -> is_Some (sb_seen s1 (es_key x))) /\
    manager.do_execute clock subscribers group s = (r, s3) /\ sb_holds s3 /\
    forall key, sb_seen s3 key =
      if decide (key ∈ es_key <$> subscribers) then None else sb_seen s2 key.
Proof.
  intros Hs Hacc Hgroup.
  destruct (register_seen clock subscribers s Hs Hacc) as (s1 & E1 & Hs1 & Hin & _).
  destruct (group s1) as [r s2] eqn:E2. pose proof (Hgroup _ _ _ Hs1 E2) as Hs2.
  destruct (unregister_seen subscribers s2 Hs2 Hacc) as (s3 & E3 & Hs3 & Hk).
  exists s1, r, s2, s3. split_and!; [done..| |done|done].
  unfold manager.do_execute, manager.try_finally, manager.start, manager.stop.
  unfold mbind, ST_bind. by rewrite E1, E2, E3.
Qed.
End histories.

(** ** Witnesses *)

Definition subscriber_1 : EventSubscriber := mkSubscriber (mkKey "orders" "1") [LogIdentifier] true.
Definition subscriber_2 : EventSubscriber := mkSubscriber (mkKey "orders" "2") [LogIdentifier] true.
Definition one_node : SubscriberStateStore :=
  mkSubscriberStateStore "node-1" [seen "node-1" 0 subscriber_1; seen "node-1" 0 subscriber_2].

Lemma one_node_holds : store_holds one_node.
Proof. apply (bool_decide_unpack _). reflexivity. Qed.

(** One subscriber beats every ten seconds, the other stops. *)
Lemma heartbeats_keep_listed_witness :
  exists s' l s'',
    perform_all [(10, Beat subscriber_1); (20, Beat subscriber_1); (25, Purged 15);
      (30, Beat subscriber_1)]%Z one_node = (Ok (), s') /\
    sb_list (Some "orders"%string) (Some 15%Z) 35 s' = (Ok l, s'') /\
    NoDup (subscriber_key <$> l) /\ mkKey "orders" "1" ∈ subscriber_key <$> l.
Proof.
  apply (heartbeats_keep_listed (mkKey "orders" "1") 10 _ one_node 0 0 35 (Some "orders"%string)
    (Some 15%Z)); cbn; try done.
  - apply one_node_holds.
  - by repeat constructor.
  - by repeat constructor.
Defined.

(** The second subscriber is purged, and then healthy again. *)
Lemma lost_subscriber_stays_lost_witness :
  let s := mkSubscriberStateStore "node-1" [seen "node-1" 20 subscriber_1] in
  mkKey "orders" "2" ∉ subscriber_key <$>
    list_subscribers None (Some 60%Z) 35 (manager.heartbeat_one 30 subscriber_2 s).2.
Proof.
  intros s. apply (lost_subscriber_stays_lost (fun _ => True) 600 [subscriber_2] s []
    (manager.heartbeat_one 30 subscriber_2 s).2 (mkKey "orders" "2") None (Some 60%Z) 35
    _ (manager.heartbeat_one 30 subscriber_2 s).2); try done.
  - by repeat constructor.
  - apply (bool_decide_unpack _). reflexivity.
  - apply rtc_once. by apply manager.heartbeat_next with 30%Z.
Defined.

Lemma execution_unregisters_witness :
  exists s3, manager.do_execute (fun i => Z.of_nat i) [subscriber_1; subscriber_2]
      (st_lift (Raise CancelledError)) (mkSubscriberStateStore "node-1" []) =
    (Raise CancelledError, s3) /\
    sb_seen s3 (mkKey "orders" "2") = None.
Proof.
  destruct (execution_unregisters (fun i => Z.of_nat i) [subscriber_1; subscriber_2]
    (st_lift (Raise CancelledError)) (mkSubscriberStateStore "node-1" []))
    as (s1 & r & s2 & s3 & _ & E & _ & E3 & _ & Hk).
  - constructor.
  - by repeat constructor.
  - intros s1 r s2 Hs1 [= _ <-]. done.
  - injection E as <- <-. exists s3. split; [exact E3|]. by rewrite Hk.
Defined.
