(* ===== verification/BrokerFactories.v ===== *)
(** What the factories of brokers put together ([broker/factories.py] and the [builder.py] and
    [factories.py] of [broker/strategies/singleton/] and [broker/strategies/distributed/]):
    which objects are made, which of them share which, and which settings go where. *)
From S2P Require Import Prelude Values BrokerState SubscriberManager.

(** ** Objects *)

(** The objects a program makes are told apart by their number: the state is the next one. *)
Record Object (A : Type) := mkObject { identity : nat; made : A }.
Arguments mkObject {_} _ _.
Arguments identity {_} _.
Arguments made {_} _.

Definition make {A} (a : A) : ST nat (Object A) := fun next => (Ok (mkObject next a), S next).

(** A [timedelta], in microseconds. *)
Definition seconds (n : Z) : Z := n * 1000000.
Definition minutes (n : Z) : Z := seconds (n * 60).

(** ** Settings *)

Record DistributedEventBrokerSettings := mkDistributedSettings {
  subscriber_manager_heartbeat_interval : Z;
  subscriber_manager_purge_interval : Z;
  subscriber_manager_subscriber_max_age : Z;
  coordinator_subscriber_max_time_since_last_seen : Z;
  coordinator_distribution_interval : Z;
  coordinator_leadership_max_duration : Z;
  coordinator_leadership_attempt_interval : Z;
  observer_synchronisation_interval : Z
}.

Definition default_distributed_settings : DistributedEventBrokerSettings := {|
  subscriber_manager_heartbeat_interval := seconds 10;
  subscriber_manager_purge_interval := minutes 1;
  subscriber_manager_subscriber_max_age := minutes 10;
  coordinator_subscriber_max_time_since_last_seen := seconds 60;
  coordinator_distribution_interval := seconds 20;
  coordinator_leadership_max_duration := minutes 15;
  coordinator_leadership_attempt_interval := seconds 5;
  observer_synchronisation_interval := seconds 20
|}.

Record SingletonEventBrokerSettings := mkSingletonSettings { distribution_interval : Z }.

Definition default_singleton_settings : SingletonEventBrokerSettings :=
  mkSingletonSettings (seconds 60).

(** [settings] is of one class or the other; the attributes of the other are not there. *)
Inductive Settings :=
  | DistributedSettings (settings : DistributedEventBrokerSettings)
  | SingletonSettings (settings : SingletonEventBrokerSettings).

Definition distributed_attributes (settings : Settings) : res DistributedEventBrokerSettings :=
  match settings with
  | DistributedSettings settings => Ok settings
  | SingletonSettings _ => Raise AttributeError
  end.
Definition singleton_attributes (settings : Settings) : res SingletonEventBrokerSettings :=
  match settings with
  | SingletonSettings settings => Ok settings
  | DistributedSettings _ => Raise AttributeError
  end.

(** [EventBrokerType] and [EventBrokerStorageType]: classes, which may be any other. *)
Inductive EventBrokerType := Singleton | Distributed | OtherBrokerType (name : string).
Inductive EventBrokerStorageType := InMemory | Postgres | OtherStorageType (name : string).

Section factories.
(** What the caller has: event storage adapters, with their truth value, the settings of a
    connection and pools of connections. *)
Context {Adapter ConnectionSettings Pool : Type} (truthy : Adapter -> bool).

(** ** The parts of a broker *)

Inductive StorageAdapter :=
  | GivenAdapter (adapter : Adapter)
  | PostgresEventStorageAdapter (adapter : Object Pool).

(** [EventStoreEventSourceFactory]: its adapter. *)
Definition SourceFactory : Type := Object (option StorageAdapter).

Inductive LockManager :=
  | InMemoryLockManager
  | PostgresLockManager (connection_settings : ConnectionSettings).

(** A store of subscriber or subscription states, for a node. *)
Inductive StateStore :=
  | InMemoryStateStore (node_id : string)
  | PostgresStateStore (node_id : string) (connection_source : Pool).

(** [InMemoryEventSubscriberStore] *)
Definition SubscriberStore : Type := Object ().

Record ManagerParts := mkManagerParts {
  mp_node_id : string;
  mp_subscriber_store : SubscriberStore;
  mp_subscriber_state_store : Object StateStore;
  mp_heartbeat_interval : Z;
  mp_purge_interval : Z;
  mp_subscriber_max_age : Z
}.

Record CoordinatorParts := mkCoordinatorParts {
  cp_node_id : string;
  cp_lock_manager : Object LockManager;
  cp_subscriber_state_store : Object StateStore;
  cp_subscription_state_store : Object StateStore;
  cp_subscriber_max_time_since_last_seen : Z;
  cp_distribution_interval : Z;
  cp_leadership_max_duration : Z;
  cp_leadership_attempt_interval : Z
}.

Record ObserverParts := mkObserverParts {
  op_node_id : string;
  op_subscriber_store : SubscriberStore;
  op_subscription_state_store : Object StateStore;
  op_event_source_factory : SourceFactory;
  op_synchronisation_interval : Z
}.

Record DistributedEventBroker := mkDistributedEventBroker {
  db_event_subscriber_manager : Object ManagerParts;
  db_event_subscription_coordinator : Object CoordinatorParts;
  db_event_subscription_observer : Object ObserverParts
}.

Record SingletonEventBroker := mkSingletonEventBroker {
  sb_node_id : string;
  sb_event_subscriber_store : SubscriberStore;
  sb_event_source_factory : SourceFactory;
  sb_distribution_interval : Z
}.

Inductive EventBroker :=
  | DistributedBroker (broker : Object DistributedEventBroker)
  | SingletonBroker (broker : Object SingletonEventBroker).

(** ** [DistributedEventBrokerBuilder] *)

Record DistributedEventBrokerDependencies := mkDistributedDependencies {
  lock_manager : Object LockManager;
  dd_event_source_factory : SourceFactory;
  event_subscriber_state_store : Object StateStore;
  event_subscription_state_store : Object StateStore
}.

(** [build], of a builder that is prepared with these dependencies. *)
Definition distributed_build (node_id : string) (builder : DistributedEventBrokerDependencies)
    (settings : Settings) : ST nat EventBroker :=
  event_subscriber_store ← make ();
  settings ← st_lift (distributed_attributes settings);
  event_subscriber_manager ← make (mkManagerParts node_id event_subscriber_store
    (event_subscriber_state_store builder) (subscriber_manager_heartbeat_interval settings)
    (subscriber_manager_purge_interval settings)
    (subscriber_manager_subscriber_max_age settings));
  event_subscription_coordinator ← make (mkCoordinatorParts node_id (lock_manager builder)
    (event_subscriber_state_store builder) (event_subscription_state_store builder)
    (coordinator_subscriber_max_time_since_last_seen settings)
    (coordinator_distribution_interval settings) (coordinator_leadership_max_duration settings)
    (coordinator_leadership_attempt_interval settings));
  event_subscription_observer ← make (mkObserverParts node_id event_subscriber_store
    (event_subscription_state_store builder) (dd_event_source_factory builder)
    (observer_synchronisation_interval settings));
  broker ← make (mkDistributedEventBroker event_subscriber_manager
    event_subscription_coordinator event_subscription_observer);
  mret (DistributedBroker broker).

Definition in_memory_distributed_dependencies (node_id : string) (adapter : option Adapter) :
    ST nat DistributedEventBrokerDependencies :=
  lock_manager ← make InMemoryLockManager;
  event_source_factory ← make (GivenAdapter <$> adapter);
  event_subscriber_state_store ← make (InMemoryStateStore node_id);
  event_subscription_state_store ← make (InMemoryStateStore node_id);
  mret (mkDistributedDependencies lock_manager event_source_factory
    event_subscriber_state_store event_subscription_state_store).

Definition new_postgres_adapter (connection_pool : Pool) : ST nat StorageAdapter :=
  adapter ← make connection_pool; mret (PostgresEventStorageAdapter adapter).

(** [adapter or PostgresEventStorageAdapter(connection_source=connection_pool)] *)
Definition adapter_or_postgres (adapter : option Adapter) (connection_pool : Pool) :
    ST nat StorageAdapter :=
  match adapter with
  | Some adapter =>
      if truthy adapter then mret (GivenAdapter adapter) else new_postgres_adapter connection_pool
  | None => new_postgres_adapter connection_pool
  end.

Definition postgres_distributed_dependencies (node_id : string)
    (connection_settings : ConnectionSettings) (connection_pool : Pool) (adapter : option Adapter) :
    ST nat DistributedEventBrokerDependencies :=
  event_storage_adapter ← adapter_or_postgres adapter connection_pool;
  lock_manager ← make (PostgresLockManager connection_settings);
  event_source_factory ← make (Some event_storage_adapter);
  event_subscriber_state_store ← make (PostgresStateStore node_id connection_pool);
  event_subscription_state_store ← make (PostgresStateStore node_id connection_pool);
  mret (mkDistributedDependencies lock_manager event_source_factory
    event_subscriber_state_store event_subscription_state_store).

(** [XBuilder(node_id).prepare(...).build(settings)] *)
Definition make_in_memory_distributed_event_broker (node_id : string) (settings : Settings)
    (adapter : option Adapter) : ST nat EventBroker :=
  builder ← in_memory_distributed_dependencies node_id adapter;
  distributed_build node_id builder settings.

Definition make_postgres_distributed_event_broker (node_id : string)
    (connection_settings : ConnectionSettings) (connection_pool : Pool) (settings : Settings)
    (adapter : option Adapter) : ST nat EventBroker :=
  builder ← postgres_distributed_dependencies node_id connection_settings connection_pool adapter;
  distributed_build node_id builder settings.

(** ** [SingletonEventBrokerBuilder] *)

Definition singleton_build (node_id : string) (event_source_factory : SourceFactory)
    (settings : Settings) : ST nat EventBroker :=
  event_subscriber_store ← make ();
  settings ← st_lift (singleton_attributes settings);
  broker ← make (mkSingletonEventBroker node_id event_subscriber_store event_source_factory
    (distribution_interval settings));
  mret (SingletonBroker broker).

Definition in_memory_singleton_dependencies (adapter : option Adapter) : ST nat SourceFactory :=
  make (GivenAdapter <$> adapter).

Definition postgres_singleton_dependencies (connection_pool : Pool) (adapter : option Adapter) :
    ST nat SourceFactory :=
  event_storage_adapter ← adapter_or_postgres adapter connection_pool;
  make (Some event_storage_adapter).

Definition make_in_memory_singleton_event_broker (node_id : string) (settings : Settings)
    (adapter : option Adapter) : ST nat EventBroker :=
  event_source_factory ← in_memory_singleton_dependencies adapter;
  singleton_build node_id event_source_factory settings.

(** The connection settings are not used. *)
Definition make_postgres_singleton_event_broker (node_id : string)
    (connection_settings : ConnectionSettings) (connection_pool : Pool) (settings : Settings)
    (adapter : option Adapter) : ST nat EventBroker :=
  event_source_factory ← postgres_singleton_dependencies connection_pool adapter;
  singleton_build node_id event_source_factory settings.

(** ** [make_event_broker] *)

(** The keyword arguments, each if it is given; an adapter may be given as [None]. *)
Record CombinedBrokerParams := mkBrokerParams {
  kw_settings : option Settings;
  kw_connection_settings : option ConnectionSettings;
  kw_connection_pool : option Pool;
  kw_adapter : option (option Adapter)
}.

(** A call with [**kwargs]: one argument too many or missing is a [TypeError]. *)
Definition call_in_memory (f : Settings -> option Adapter -> ST nat EventBroker)
    (kwargs : CombinedBrokerParams) : ST nat EventBroker :=
  match kwargs with
  | mkBrokerParams (Some settings) None None (Some adapter) => f settings adapter
  | _ => st_lift (Raise TypeError)
  end.

Definition call_postgres
    (f : ConnectionSettings -> Pool -> Settings -> option Adapter -> ST nat EventBroker)
    (kwargs : CombinedBrokerParams) : ST nat EventBroker :=
  match kwargs with
  | mkBrokerParams (Some settings) (Some connection_settings) (Some connection_pool) adapter =>
      f connection_settings connection_pool settings (default None adapter)
  | _ => st_lift (Raise TypeError)
  end.

Definition make_event_broker (node_id : string) (broker_type : EventBrokerType)
    (storage_type : EventBrokerStorageType) (kwargs : CombinedBrokerParams) : ST nat EventBroker :=
  match broker_type, storage_type with
  | Distributed, InMemory => call_in_memory (make_in_memory_distributed_event_broker node_id) kwargs
  | Distributed, Postgres => call_postgres (make_postgres_distributed_event_broker node_id) kwargs
  | Singleton, InMemory => call_in_memory (make_in_memory_singleton_event_broker node_id) kwargs
  | Singleton, Postgres => call_postgres (make_postgres_singleton_event_broker node_id) kwargs
  | _, _ => st_lift (Raise (ValueError "Invalid broker or storage type"))
  end.

(** The deprecated functions. *)
Definition make_in_memory_event_broker (node_id : string) (settings : Settings)
    (adapter : option Adapter) : ST nat EventBroker :=
  make_in_memory_distributed_event_broker node_id settings adapter.
Definition make_postgres_event_broker (node_id : string)
    (connection_settings : ConnectionSettings) (connection_pool : Pool) (settings : Settings) :
    ST nat EventBroker :=
  make_postgres_distributed_event_broker node_id connection_settings connection_pool settings None.

(** * Theorems *)

(** ** What a call comes to *)

Definition broker_kind (broker_type : EventBrokerType) (settings : Settings) : bool :=
  match broker_type, settings with
  | Distributed, DistributedSettings _ | Singleton, SingletonSettings _ => true
  | _, _ => false
  end.

Definition well_called (storage_type : EventBrokerStorageType) (kwargs : CombinedBrokerParams) :
    bool :=
  match storage_type, kwargs with
  | InMemory, mkBrokerParams (Some _) None None (Some _) => true
  | Postgres, mkBrokerParams (Some _) (Some _) (Some _) _ => true
  | _, _ => false
  end.

Definition known_types (broker_type : EventBrokerType) (storage_type : EventBrokerStorageType) :
    bool :=
  match broker_type, storage_type with
  | OtherBrokerType _, _ | _, OtherStorageType _ => false
  | _, _ => true
  end.

(** How a call fails, if it does. *)
Definition call_error (broker_type : EventBrokerType) (storage_type : EventBrokerStorageType)
    (kwargs : CombinedBrokerParams) : option Exn :=
  if negb (known_types broker_type storage_type) then
    Some (ValueError "Invalid broker or storage type")
  else if negb (well_called storage_type kwargs) then Some TypeError
  else if forallb (broker_kind broker_type) (option_list (kw_settings kwargs)) then None
  else Some AttributeError.

(** ** What is put together *)

(** The stores of states are where the storage type says. *)
Definition stored_as (storage_type : EventBrokerStorageType) (kwargs : CombinedBrokerParams)
    (node_id : string) (store : Object StateStore) : Prop :=
  match storage_type with
  | InMemory => made store = InMemoryStateStore node_id
  | _ => exists pool, kw_connection_pool kwargs = Some pool /\
      made store = PostgresStateStore node_id pool
  end.

(** The events are those of the adapter given, or else of the pool. *)
Definition events_from (storage_type : EventBrokerStorageType) (kwargs : CombinedBrokerParams)
    (factory : SourceFactory) : Prop :=
  match storage_type, default None (kw_adapter kwargs) with
  | InMemory, adapter => made factory = GivenAdapter <$> adapter
  | _, adapter =>
      match adapter with
      | Some adapter => if truthy adapter then made factory = Some (GivenAdapter adapter)
          else exists adapter', made factory = Some (PostgresEventStorageAdapter adapter') /\
            kw_connection_pool kwargs = Some (made adapter')
      | None => exists adapter', made factory = Some (PostgresEventStorageAdapter adapter') /\
          kw_connection_pool kwargs = Some (made adapter')
      end
  end.

Definition locked_by (storage_type : EventBrokerStorageType) (kwargs : CombinedBrokerParams)
    (manager : Object LockManager) : Prop :=
  match storage_type with
  | InMemory => made manager = InMemoryLockManager
  | _ => exists settings, kw_connection_settings kwargs = Some settings /\
      made manager = PostgresLockManager settings
  end.

(** The parts of a distributed broker: who shares what, and who is told what. *)
Record distributed_wired (storage_type : EventBrokerStorageType) (kwargs : CombinedBrokerParams)
    (node_id : string) (settings : DistributedEventBrokerSettings) (manager : ManagerParts)
    (coordinator : CoordinatorParts) (observer : ObserverParts) : Prop := {
  dw_subscribers : mp_subscriber_store manager = op_subscriber_store observer;
  dw_subscriber_states :
    mp_subscriber_state_store manager = cp_subscriber_state_store coordinator;
  dw_subscription_states :
    cp_subscription_state_store coordinator = op_subscription_state_store observer;
  dw_nodes : mp_node_id manager = node_id /\ cp_node_id coordinator = node_id /\
    op_node_id observer = node_id;
  dw_stores : stored_as storage_type kwargs node_id (cp_subscriber_state_store coordinator) /\
    stored_as storage_type kwargs node_id (cp_subscription_state_store coordinator);
  dw_lock : locked_by storage_type kwargs (cp_lock_manager coordinator);
  dw_events : events_from storage_type kwargs (op_event_source_factory observer);
  dw_settings : settings = mkDistributedSettings (mp_heartbeat_interval manager)
    (mp_purge_interval manager) (mp_subscriber_max_age manager)
    (cp_subscriber_max_time_since_last_seen coordinator) (cp_distribution_interval coordinator)
    (cp_leadership_max_duration coordinator) (cp_leadership_attempt_interval coordinator)
    (op_synchronisation_interval observer)
}.

Definition wired (storage_type : EventBrokerStorageType) (kwargs : CombinedBrokerParams)
    (node_id : string) (broker : EventBroker) : Prop :=
  match broker with
  | DistributedBroker broker =>
      exists settings, kw_settings kwargs = Some (DistributedSettings settings) /\
        distributed_wired storage_type kwargs node_id settings
          (made (db_event_subscriber_manager (made broker)))
          (made (db_event_subscription_coordinator (made broker)))
          (made (db_event_subscription_observer (made broker)))
  | SingletonBroker broker =>
      sb_node_id (made broker) = node_id /\
      events_from storage_type kwargs (sb_event_source_factory (made broker)) /\
      kw_settings kwargs =
        Some (SingletonSettings (mkSingletonSettings (sb_distribution_interval (made broker))))
  end.

Definition of_type (broker_type : EventBrokerType) (broker : EventBroker) : Prop :=
  match broker with
  | DistributedBroker _ => broker_type = Distributed
  | SingletonBroker _ => broker_type = Singleton
  end.

(** The objects of a broker. *)
Definition factory_objects (factory : SourceFactory) : list nat :=
  identity factory ::
  match made factory with Some (PostgresEventStorageAdapter a) => [identity a] | _ => [] end.

Definition broker_objects (broker : EventBroker) : list nat :=
  match broker with
  | DistributedBroker broker =>
      let manager := db_event_subscriber_manager (made broker) in
      let coordinator := db_event_subscription_coordinator (made broker) in
      let observer := db_event_subscription_observer (made broker) in
      [identity broker; identity manager; identity coordinator; identity observer;
       identity (mp_subscriber_store (made manager));
       identity (cp_lock_manager (made coordinator));
       identity (cp_subscriber_state_store (made coordinator));
       identity (cp_subscription_state_store (made coordinator))] ++
      factory_objects (op_event_source_factory (made observer))
  | SingletonBroker broker =>
      [identity broker; identity (sb_event_subscriber_store (made broker))] ++
      factory_objects (sb_event_source_factory (made broker))
  end.

Definition new_objects (next next' : nat) (objects : list nat) : Prop :=
  NoDup objects /\ Forall (fun i => next <= i < next')%nat objects.

Definition broker_made (broker_type : EventBrokerType) (storage_type : EventBrokerStorageType)
    (kwargs : CombinedBrokerParams) (node_id : string) (next : nat) (result : res EventBroker * nat) :
    Prop :=
  match result with
  | (Ok broker, next') => call_error broker_type storage_type kwargs = None /\
      of_type broker_type broker /\ wired storage_type kwargs node_id broker /\
      new_objects next next' (broker_objects broker)
  | (Raise e, _) => call_error broker_type storage_type kwargs = Some e
  end.

Ltac fresh_objects :=
  split; [repeat (apply NoDup_cons; split; [set_solver by lia|]); apply NoDup_nil_2
         |repeat (constructor; [cbn; lia|]); constructor].

(** [make_event_broker] makes the broker it is asked for, or raises: [ValueError] for types it
    does not know, [TypeError] for keyword arguments that the kind of storage does not take or
    that it lacks, [AttributeError] for settings of the other kind of broker. In a distributed
    broker the manager and the observer share the subscribers, the manager and the coordinator
    the subscriber states, and the coordinator and the observer the subscriptions; every part
    is told the node and the settings given; the stores, the lock and the events are where the
    storage type says, or come from the adapter given. All its objects are new, and there are
    no others of one kind. *)
Theorem make_event_broker_wires node_id broker_type storage_type kwargs next :
  broker_made broker_type storage_type kwargs node_id next
    (make_event_broker node_id broker_type storage_type kwargs next).
Proof.
  destruct kwargs as [settings cs pool adapter].
  destruct broker_type, storage_type; try reflexivity.
  all: destruct settings as [[settings|settings]|], cs as [cs|], pool as [pool|],
    adapter as [[adapter|]|]; try reflexivity.
  all: cbn; try (destruct (truthy adapter) eqn:Htruthy); cbn; try reflexivity.
  all: split; [done|]; split; [done|]; split; [|fresh_objects].
  all: destruct settings; unfold wired; cbn [made db_event_subscriber_manager
    db_event_subscription_coordinator db_event_subscription_observer].
  all: try (eexists; split; [done|]; split; [..|reflexivity]).
  all: unfold events_from; cbn; rewrite ?Htruthy; split_and?; eauto.
Qed.
End factories.

(** ** The default settings *)

Section defaults.
Context {S : Type} `{SubscriberStoreLaws S}.

(** What the managers of nodes with these settings do to the store: they purge with the age
    that is set. *)
Definition by_settings (settings : DistributedEventBrokerSettings) (history : History) : Prop :=
  Forall (fun entry => entry_accepted entry /\
    forall age, entry.2 = Purged age -> age = subscriber_manager_subscriber_max_age settings)
    history.

(** With the default settings a subscriber can be up to six heartbeats late: as long as they
    come less than a minute apart, it is among those a coordinator distributes to, whatever
    other nodes do, and no node purges it. *)
Theorem default_settings_keep_listed key gap history s last t now :
  let settings := default_distributed_settings in
  (gap < 6 * subscriber_manager_heartbeat_interval settings)%Z ->
  sb_holds s -> by_settings settings history -> ordered t now history ->
  sb_seen s key = Some last -> beating key gap last now history ->
  exists s' l s'', perform_all history s = (Ok (), s') /\
    sb_list None (Some (coordinator_subscriber_max_time_since_last_seen settings)) now s' =
      (Ok l, s'') /\ NoDup (subscriber_key <$> l) /\ key ∈ subscriber_key <$> l.
Proof.
  intros settings Hgap Hs Hby Hord Hseen Hbeat.
  assert (gap < seconds 60)%Z as Hlimit by exact Hgap.
  destruct (beating_seen key gap history s last now t Hs) as (s' & last' & E & Hs' & Hseen' & Hlast);
    try done.
  - eapply Forall_impl; [exact Hby|]. by intros entry [? _].
  - eapply Forall_impl; [exact Hby|]. intros entry [_ Hage]. unfold purges_later.
    destruct (entry.2); try done. rewrite (Hage age eq_refl).
    unfold settings, default_distributed_settings, minutes, seconds in *. cbn. lia.
  - destruct (sb_list_law None (Some (seconds 60)) now s' Hs' I)
      as (l & s'' & El & _ & _ & _ & Hnd & Hin).
    exists s', l, s''. split_and!; [done..|]. apply Hin. exists last'. split; [done|].
    unfold shown. cbn. apply Z.ltb_lt. lia.
Qed.
End defaults.

(** ** Examples *)

(** Settings of the other kind are found out when an attribute is missing. *)
Example settings_of_the_other_kind :
  (make_event_broker (Adapter := nat) (ConnectionSettings := ()) (Pool := ()) (fun _ => true)
    "node-1" Distributed InMemory (mkBrokerParams
      (Some (SingletonSettings default_singleton_settings)) None None (Some (Some 1))) 0).1 =
  Raise AttributeError.
Proof. reflexivity. Qed.
