(* ===== verification/Distribution.v ===== *)
(** A distribution as the coordinator runs it
    ([processing/broker/strategies/distributed/coordinator.py]): over any store of subscriber
    states and any store of subscription states
    ([subscriptions/stores/state/base.py]), each with what it promises. *)
From S2P Require Import Prelude Values BrokerState SubscriberManager Coordinator.

(** ** Stores of subscription states *)

Definition Subscriptions : Type := EventKey -> option EventSubscriptionState.

(** [EventSubscriptionStateStore] *)
Class EventSubscriptionStateStore (T : Type) := {
  sp_list : ST T (list EventSubscriptionState);
  sp_get : EventKey -> ST T (option EventSubscriptionState);
  sp_add : EventSubscriptionState -> ST T ();
  sp_remove : EventSubscriptionState -> ST T ();
  sp_replace : EventSubscriptionState -> ST T ();
  sp_apply : list EventSubscriptionStateChange -> ST T ()
}.

(** What a change needs of the subscriptions. *)
Definition can_change (d : Subscriptions) (change : EventSubscriptionStateChange) : Prop :=
  match ch_type change with
  | ADD => d (change_key change) = None
  | REMOVE | REPLACE => is_Some (d (change_key change))
  end.

(** The subscription of a key after some changes with different keys. *)
Fixpoint after_changes (changes : list EventSubscriptionStateChange) (d : Subscriptions)
    (key : EventKey) : option EventSubscriptionState :=
  match changes with
  | [] => d key
  | change :: rest =>
      if decide (change_key change = key) then
        match ch_type change with REMOVE => None | _ => Some (ch_subscription change) end
      else after_changes rest d key
  end.

(** The promise of a store: what it holds is listed, once, and changes that can be made and
    that it accepts are made. Whose node a subscription is kept under is not part of it. *)
Class SubscriptionStoreLaws (T : Type) `{EventSubscriptionStateStore T} := {
  sp_holds : T -> Subscriptions -> Prop;
  sp_accepts_key : EventKey -> Prop;
  sp_accepts_source : EventSourceIdentifier -> Prop;
  sp_keyed : forall t d key s, sp_holds t d -> d key = Some s ->
    subscription_key s = key /\ sp_accepts_key key;
  sp_list_law : forall t d, sp_holds t d ->
    exists l t', sp_list t = (Ok l, t') /\ sp_holds t' d /\ NoDup (subscription_key <$> l) /\
      forall s, s ∈ l <-> d (subscription_key s) = Some s;
  sp_apply_law : forall changes t d, sp_holds t d ->
    NoDup (change_key <$> changes) -> Forall (can_change d) changes ->
    Forall (fun c => sp_accepts_key (change_key c) /\ (ch_type c <> REMOVE ->
      Forall sp_accepts_source (sn_event_sources (ch_subscription c)))) changes ->
    exists t' d', sp_apply changes t = (Ok (), t') /\ sp_holds t' d' /\
      forall key, sn_event_sources <$> d' key = sn_event_sources <$> after_changes changes d key
}.

(** ** [distribute] *)
Module coordinator.
Section coordinator.
Context `{SetOrder}.
Context {S T : Type} `{EventSubscriberStateStore S} `{EventSubscriptionStateStore T}.

(** An operation of one of the two stores. *)
Definition subscribers_store {A} (m : ST S A) : ST (S * T) A := fun st =>
  let '(r, s) := m st.1 in (r, (s, st.2)).
Definition subscriptions_store {A} (m : ST T A) : ST (S * T) A := fun st =>
  let '(r, t) := m st.2 in (r, (st.1, t)).

(** The last listing is for the log. *)
Definition distribute (max_time_since_last_seen now : Z) : ST (S * T) () :=
  subscriptions ← subscriptions_store sp_list;
  subscribers ← subscribers_store (sb_list None (Some max_time_since_last_seen) now);
  changes ← st_lift (distribution_changes subscriptions subscribers);
  _ ← subscriptions_store (sp_apply changes);
  _ ← subscriptions_store sp_list;
  mret ().
End coordinator.
End coordinator.

(** ** The store in memory *)

#[export] Instance InMemoryEventSubscriptionStateStore :
    EventSubscriptionStateStore SubscriptionStateStore := {|
  sp_list := fun store => (Ok (list_subscriptions store), store);
  sp_get := fun key store => (Ok (get_subscription key store), store);
  sp_add := add_subscription;
  sp_remove := remove_subscription;
  sp_replace := replace_subscription;
  sp_apply := apply_changes
|}.

Definition memory_subscriptions (store : SubscriptionStateStore) : Subscriptions :=
  fun key => get_subscription key store.

Lemma changed_sources changes store key :
  sn_event_sources <$> changed changes store key =
  sn_event_sources <$> after_changes changes (memory_subscriptions store) key.
Proof.
  induction changes as [|c cs IH]; cbn; [done|]. case_decide; [|done].
  by destruct (ch_type c).
Qed.

Lemma changed_keyed changes store key s :
  (forall key s, get_subscription key store = Some s -> subscription_key s = key) ->
  changed changes store key = Some s -> subscription_key s = key.
Proof.
  intros Hkeyed. induction changes as [|c cs IH]; cbn; [apply Hkeyed|].
  case_decide as Hk; [|done]. destruct (ch_type c); [|done|]; by intros [= <-].
Qed.

Record memory_holds (store : SubscriptionStateStore) (d : Subscriptions) : Prop := {
  mh_NoDup : NoDup (dict_keys (st_subscriptions store));
  mh_keyed : forall key s, get_subscription key store = Some s -> subscription_key s = key;
  mh_same : forall key, d key = get_subscription key store
}.

Lemma list_memory_subscriptions store d :
  memory_holds store d ->
  NoDup (subscription_key <$> list_subscriptions store) /\
  forall s, s ∈ list_subscriptions store <-> d (subscription_key s) = Some s.
Proof.
  intros [Hnd Hkeyed Hsame]. split.
  - unfold list_subscriptions. by rewrite dict_values_keyed.
  - intros s. rewrite Hsame. unfold list_subscriptions. rewrite dict_values_elem by done. split.
    + intros [k Hk]. by rewrite (Hkeyed _ _ Hk).
    + intros Hs. by eexists.
Qed.

Lemma can_change_ext d d' change :
  (forall key, d key = d' key) -> can_change d change -> can_change d' change.
Proof. intros Hd. unfold can_change. by rewrite Hd. Qed.

Lemma after_changes_ext changes d d' key :
  (forall key, d key = d' key) -> after_changes changes d key = after_changes changes d' key.
Proof. intros Hd. induction changes as [|c cs IH]; cbn; [done|]. by rewrite IH. Qed.

#[export, refine] Instance SubscriptionStateStore_laws :
    SubscriptionStoreLaws SubscriptionStateStore := {|
  sp_holds := memory_holds;
  sp_accepts_key := fun _ => True;
  sp_accepts_source := fun _ => True
|}.
Proof.
  - intros store d key s [_ Hkeyed Hsame]. rewrite Hsame. intros Hs. split; [by apply Hkeyed|done].
  - intros store d Hs. do 2 eexists. split; [done|]. split; [done|].
    by apply list_memory_subscriptions.
  - intros changes store d [Hnd Hkeyed Hsame] Hchanges Hcan _.
    destruct (apply_changes_ok changes store Hchanges) as (store' & E & Hnd' & Hget).
    { eapply Forall_impl; [exact Hcan|]. intros c. by apply can_change_ext. }
    exists store', (memory_subscriptions store'). split; [done|]. split; [split|].
    + by apply Hnd'.
    + intros key s. rewrite Hget. by apply changed_keyed.
    + done.
    + intros key. unfold memory_subscriptions. rewrite Hget, changed_sources.
      f_equal. by apply after_changes_ext.
Defined.

(** ** The outcome of a distribution *)

(** No source is in two subscriptions of a group. *)
Definition sources_disjoint (d : Subscriptions) : Prop :=
  forall k1 k2 s1 s2 x, d k1 = Some s1 -> d k2 = Some s2 -> key_group k1 = key_group k2 ->
    x ∈ sn_event_sources s1 -> x ∈ sn_event_sources s2 -> k1 = k2.

(** The subscriptions of a list, as the store in memory would have them. *)
Definition view (l : list EventSubscriptionState) : SubscriptionStateStore :=
  mkSubscriptionStateStore EmptyString ((fun s => (subscription_key s, s)) <$> l).

Lemma list_view l : list_subscriptions (view l) = l.
Proof.
  unfold list_subscriptions, view, dict_values. cbn. rewrite <-list_fmap_compose.
  by apply list_fmap_id.
Qed.

Lemma view_keys l : dict_keys (st_subscriptions (view l)) = subscription_key <$> l.
Proof. unfold dict_keys, view. cbn. by rewrite <-list_fmap_compose. Qed.

Lemma view_get l (d : Subscriptions) key :
  NoDup (subscription_key <$> l) -> (forall s, s ∈ l <-> d (subscription_key s) = Some s) ->
  (forall key s, d key = Some s -> subscription_key s = key) ->
  get_subscription key (view l) = d key.
Proof.
  intros Hnd Hl Hkeyed. unfold get_subscription. destruct (d key) as [s|] eqn:E.
  - apply dict_elem_get; [by rewrite view_keys|]. apply list_elem_of_fmap. exists s.
    pose proof (Hkeyed _ _ E) as <-. split; [done|]. by apply Hl.
  - apply dict_get_None. rewrite view_keys. intros (s & -> & Hs%Hl)%list_elem_of_fmap. congruence.
Qed.

Lemma distributed_ext live before before' after after' group target :
  (forall key, before key = before' key) ->
  (forall key, sn_event_sources <$> after key = sn_event_sources <$> after' key) ->
  distributed live before after group target -> distributed live before' after' group target.
Proof.
  intros Hb Ha. assert (forall key s x, after key = Some s -> x ∈ sn_event_sources s ->
    exists s', after' key = Some s' /\ x ∈ sn_event_sources s') as Hto.
  { intros key s x Hs Hx. specialize (Ha key). rewrite Hs in Ha.
    destruct (after' key) as [s'|]; [|done]. injection Ha as Ha. exists s'. by rewrite <-Ha. }
  assert (forall key s x, after' key = Some s -> x ∈ sn_event_sources s ->
    exists s', after key = Some s' /\ x ∈ sn_event_sources s') as Hof.
  { intros key s x Hs Hx. specialize (Ha key). rewrite Hs in Ha.
    destruct (after key) as [s'|]; [|done]. injection Ha as Ha. exists s'. by rewrite Ha. }
  intros [Ht Hlargest Hel Hcov Hsticky]. split; [done|done| | |].
  - intros s Hs Hg. rewrite <-Hel by done. rewrite <-!(fmap_is_Some sn_event_sources).
    by rewrite Ha.
  - intros x. rewrite Hcov. split; intros (k & s & Hk & Hs & Hx).
    + destruct (Hto k s x Hs Hx) as (s' & ? & ?). by exists k, s'.
    + destruct (Hof k s x Hs Hx) as (s' & ? & ?). by exists k, s'.
  - intros s sn x Hs Hg Hr Hsn Hx Hxt. rewrite <-Hb in Hsn.
    destruct (Hsticky s sn x Hs Hg Hr Hsn Hx Hxt) as (sn' & Hsn' & Hx'). by eapply Hto.
Qed.

Lemma sources_disjoint_ext (d d' : Subscriptions) :
  (forall key, sn_event_sources <$> d key = sn_event_sources <$> d' key) ->
  sources_disjoint d -> sources_disjoint d'.
Proof.
  intros Hsame Hd k1 k2 s1 s2 x H1 H2 Hg Hx1 Hx2.
  pose proof (Hsame k1) as E1. pose proof (Hsame k2) as E2. rewrite H1 in E1. rewrite H2 in E2.
  apply fmap_Some in E1 as (y1 & H1' & E1). apply fmap_Some in E2 as (y2 & H2' & E2).
  apply (Hd k1 k2 y1 y2 x); try done; [by rewrite <-E1|by rewrite <-E2].
Qed.

Section outcome.
Context `{SetOrder}.

(** What a distribution writes is of live subscribers, and was requested. *)
Lemma written_sources store live changes c :
  subscriptions_ok store -> NoDup (subscriber_key <$> live) ->
  distribution_changes (list_subscriptions store) live = Ok changes ->
  c ∈ changes -> ch_type c <> REMOVE ->
  (exists s, s ∈ live /\ subscriber_key s = change_key c) /\
  forall x, x ∈ sn_event_sources (ch_subscription c) -> exists s, s ∈ live /\ x ∈ ss_requests s.
Proof.
  intros Hstore Hlive E Hc Htype.
  destruct (distribution_changes_ok store live Hstore Hlive)
    as (changes' & E' & Hnd & _ & Halive & Hgroups).
  rewrite E in E'. injection E' as <-.
  pose proof (changed_in changes store c Hnd Hc) as Hchanged.
  assert (change_result (st_node_id store) c = Some (kept (st_node_id store) (ch_subscription c)))
    as Hresult by by (unfold change_result; destruct (ch_type c)).
  rewrite Hresult in Hchanged. destruct (Halive _ _ Hchanged) as (s & Hs & Hk).
  split; [by exists s|]. intros x Hx.
  destruct (Hgroups s Hs) as (xs & target & cs & Hxs & Hok & Hcs).
  assert (s ∈ xs) as Hsx by by apply Hxs. rewrite <-Hk, Hcs in Hchanged by done.
  pose proof (go_sound _ _ _ _ _ Hok s _ x Hsx Hchanged Hx) as Hxt.
  destruct (go_target _ _ _ _ _ Hok) as (s' & [Hs' _]%Hxs & Ht). exists s'. by rewrite Ht.
Qed.

Context {S T : Type} `{Hsubscribers : SubscriberStoreLaws S} `{Hsubscriptions : SubscriptionStoreLaws T}.
Context (kept_accepted : forall s : EventSubscriberState, sb_kept s ->
  sp_accepts_key (subscriber_key s) /\ Forall sp_accepts_source (ss_requests s)).

Lemma distribution_accepted (store : SubscriptionStateStore) (t : T) d live changes :
  subscriptions_ok store -> NoDup (subscriber_key <$> live) -> Forall sb_kept live ->
  sp_holds t d -> (forall key, get_subscription key store = d key) ->
  distribution_changes (list_subscriptions store) live = Ok changes ->
  Forall (applicable store) changes ->
  Forall (fun c => sp_accepts_key (change_key c) /\ (ch_type c <> REMOVE ->
    Forall sp_accepts_source (sn_event_sources (ch_subscription c)))) changes.
Proof.
  intros Hstore Hlive Hkept Ht Hd E Hcan. rewrite Forall_forall in Hkept. rewrite Forall_forall in Hcan.
  apply Forall_forall. intros c Hc. split.
  - specialize (Hcan c Hc). unfold applicable in Hcan. destruct (ch_type c) eqn:Etype.
    { destruct (written_sources store live changes c Hstore Hlive E Hc) as [(s & Hs & <-) _];
        [by rewrite Etype|]. by apply kept_accepted, Hkept. }
    all: destruct Hcan as [s Hs]; rewrite Hd in Hs; by apply (sp_keyed t d _ s Ht).
  - intros Htype. destruct (written_sources store live changes c Hstore Hlive E Hc Htype)
      as [_ Hx]. apply Forall_forall. intros x (s & Hs & Hxs)%Hx.
    destruct (kept_accepted s (Hkept s Hs)) as [_ Hr]. rewrite Forall_forall in Hr. by apply Hr.
Qed.

(** A list of the subscriptions. *)
Definition listed (d : Subscriptions) (l : list EventSubscriptionState) : Prop :=
  NoDup (subscription_key <$> l) /\ forall s, s ∈ l <-> d (subscription_key s) = Some s.

(** What a distribution is for: the subscriptions of each group with live subscribers are a
    partition of its target, and there are no others. *)
Record partitioned (live : list EventSubscriberState) (before after : Subscriptions) : Prop := {
  pa_disjoint : sources_disjoint after;
  pa_live : forall key s, after key = Some s -> key ∈ subscriber_key <$> live;
  pa_groups : forall group, (exists x, x ∈ live /\ ss_group x = group) ->
    exists target, distributed live before after group target
}.

Lemma listed_view (t : T) d l :
  sp_holds t d -> sources_disjoint d -> listed d l ->
  subscriptions_ok (view l) /\ forall key, get_subscription key (view l) = d key.
Proof.
  intros Ht Hdisjoint [Hnd Hin]. assert (forall key, get_subscription key (view l) = d key) as Hview.
  { intros key. apply view_get; [done|done|]. intros k x. by apply (sp_keyed t d). }
  split; [|done]. split; [by rewrite view_keys|..].
  - intros k x. rewrite Hview. by apply (sp_keyed t d).
  - intros k1 k2 s1 s2 x. rewrite !Hview. apply Hdisjoint.
Qed.

(** The changes of a distribution can be made. *)
Lemma plan_ok (t : T) d l live :
  sp_holds t d -> sources_disjoint d -> listed d l ->
  NoDup (subscriber_key <$> live) -> Forall sb_kept live ->
  exists changes, distribution_changes l live = Ok changes /\ NoDup (change_key <$> changes) /\
    Forall (can_change d) changes /\
    Forall (fun c => sp_accepts_key (change_key c) /\ (ch_type c <> REMOVE ->
      Forall sp_accepts_source (sn_event_sources (ch_subscription c)))) changes.
Proof.
  intros Ht Hdisjoint Hl Hlive Hkept. destruct (listed_view t d l Ht Hdisjoint Hl) as [Hstore Hview].
  destruct (distribution_changes_ok (view l) live Hstore Hlive) as (changes & E & Hnd & Hcan & _).
  pose proof (distribution_accepted (view l) t d live changes Hstore Hlive Hkept Ht Hview E Hcan).
  rewrite list_view in E. exists changes. split_and!; [done..| |done].
  eapply Forall_impl; [exact Hcan|]. intros c. by apply can_change_ext.
Qed.

(** What there is when they are made. *)
Lemma outcome_ok (t : T) d l live changes d' :
  sp_holds t d -> sources_disjoint d -> listed d l ->
  NoDup (subscriber_key <$> live) -> distribution_changes l live = Ok changes ->
  (forall key, sn_event_sources <$> d' key = sn_event_sources <$> after_changes changes d key) ->
  partitioned live d d'.
Proof.
  intros Ht Hdisjoint Hl Hlive E Hd'. destruct (listed_view t d l Ht Hdisjoint Hl) as [Hstore Hview].
  destruct (distribution_changes_ok (view l) live Hstore Hlive) as (changes' & E' & Hnd & Hcan & _).
  assert (changes' = changes) as -> by (rewrite list_view in E'; congruence).
  destruct (apply_changes_ok changes (view l) Hnd Hcan) as (store' & _ & Hnd' & Hget).
  destruct (distribution_outcome (view l) live Hstore Hlive changes store' E') as
    ([_ _ Hdis] & Halive & Hpart); [by apply Hnd', Hstore|done|].
  assert (forall key, sn_event_sources <$> get_subscription key store' =
    sn_event_sources <$> d' key) as Hsame.
  { intros key. rewrite Hget, Hd', changed_sources. f_equal. by apply after_changes_ext. }
  split.
  - by eapply sources_disjoint_ext.
  - intros k sn Hsn. pose proof (Hsame k) as E1. rewrite Hsn in E1.
    apply fmap_Some in E1 as (y & Hy & _). destruct (Halive k y Hy) as (x & Hx & <-).
    by apply list_elem_of_fmap_2.
  - intros group Hgroup. destruct (Hpart group Hgroup) as [target Htarget]. exists target.
    eapply distributed_ext; [|exact Hsame|exact Htarget]. exact Hview.
Qed.

(** A distribution, step by step. *)
Lemma distribute_run max_age now (s : S) (t : T) d :
  sb_holds s -> sp_holds t d -> sources_disjoint d ->
  exists live s' t' d', coordinator.distribute max_age now (s, t) = (Ok (), (s', t')) /\
    sb_list None (Some max_age) now s = (Ok live, s') /\
    NoDup (subscriber_key <$> live) /\
    (forall key, key ∈ subscriber_key <$> live <->
      exists seen, sb_seen s key = Some seen /\ shown None (Some max_age) now key seen = true) /\
    sb_holds s' /\ sp_holds t' d' /\ partitioned live d d'.
Proof.
  intros Hs Ht Hdisjoint.
  destruct (sp_list_law t d Ht) as (l & t1 & El & Ht1 & Hl).
  destruct (sb_list_law None (Some max_age) now s Hs I) as (live & s' & Elive & Hs' & _ & Hkept &
    Hlive & Hshown).
  destruct (plan_ok t1 d l live Ht1 Hdisjoint Hl Hlive Hkept) as (changes & E & Hnd & Hcan & Hacc).
  destruct (sp_apply_law changes t1 d Ht1 Hnd Hcan Hacc) as (t2 & d' & Eapply & Ht2 & Hd').
  destruct (sp_list_law t2 d' Ht2) as (l' & t3 & El' & Ht3 & _).
  exists live, s', t3, d'. split_and!; try done; [|by apply (outcome_ok t1 d l live changes)].
  unfold coordinator.distribute, coordinator.subscriptions_store, coordinator.subscribers_store.
  unfold mbind, ST_bind, st_lift. cbn. rewrite El. cbn. rewrite Elive. cbn.
  rewrite E. cbn. rewrite Eapply. cbn. by rewrite El'.
Qed.
(** C9. A distribution over stores that keep their promises never fails, whatever order sets
    are iterated in, and leaves the subscriptions of each group that has live subscribers a
    partition of the group's target, the largest requests any of them makes: each source of
    the target is in exactly one subscription and no other source is in any; the subscribers
    with a subscription are those that request exactly the target; a source stays with the
    eligible subscriber that held it. Subscriptions of subscribers that are not live, those
    not seen since the cutoff, are gone. The stores go on keeping their promises. *)
Theorem distribution_partitions max_age now (s : S) (t : T) d :
  sb_holds s -> sp_holds t d -> sources_disjoint d ->
  exists live s' t' d', coordinator.distribute max_age now (s, t) = (Ok (), (s', t')) /\
    sb_list None (Some max_age) now s = (Ok live, s') /\
    NoDup (subscriber_key <$> live) /\
    (forall key, key ∈ subscriber_key <$> live <->
      exists seen, sb_seen s key = Some seen /\ shown None (Some max_age) now key seen = true) /\
    sb_holds s' /\ sp_holds t' d' /\ partitioned live d d'.
Proof. apply distribute_run. Qed.
End outcome.

(** ** Witness *)

(** Node 2 died with the subscription of subscriber 2; subscriber 3 has just come. *)
Definition three_subscribers : SubscriberStateStore :=
  let requests := [CategoryIdentifier "a"; CategoryIdentifier "b"; CategoryIdentifier "c"] in
  mkSubscriberStateStore "node-1"
    [mkSubscriberState "orders" "1" "node-1" requests 95;
     mkSubscriberState "orders" "2" "node-2" requests 10;
     mkSubscriberState "orders" "3" "node-1" requests 99].

Definition two_subscriptions : SubscriptionStateStore :=
  mkSubscriptionStateStore "node-1"
    [(mkKey "orders" "1", mkSubscriptionState "orders" "1" "node-1" [CategoryIdentifier "a"]);
     (mkKey "orders" "2", mkSubscriptionState "orders" "2" "node-2"
       [CategoryIdentifier "b"; CategoryIdentifier "c"])].

Lemma two_subscriptions_ok : subscriptions_ok two_subscriptions.
Proof.
  split.
  - apply (bool_decide_unpack _). reflexivity.
  - intros k sn. unfold get_subscription. cbn. repeat case_decide; intros; simplify_eq; done.
  - intros k1 k2 sn1 sn2 x. unfold get_subscription. cbn.
    repeat case_decide; intros; simplify_eq; cbn in *; try done; set_solver.
Qed.

Lemma no_shared_source : sources_disjoint (memory_subscriptions two_subscriptions).
Proof. exact (so_disjoint _ two_subscriptions_ok). Qed.

Lemma memory_accepts (s : EventSubscriberState) :
  sb_kept (S := SubscriberStateStore) s ->
  sp_accepts_key (T := SubscriptionStateStore) (subscriber_key s) /\
  Forall (sp_accepts_source (T := SubscriptionStateStore)) (ss_requests s).
Proof. intros _. split; [done|by apply Forall_true]. Qed.

Lemma distribution_partitions_witness :
  exists live s' t' d', @coordinator.distribute insertion_order _ _ _ _ 60 100
      (three_subscribers, two_subscriptions) = (Ok (), (s', t')) /\
    subscriber_key <$> live = [mkKey "orders" "1"; mkKey "orders" "3"] /\ memory_holds t' d' /\
    (sn_event_sources <$> list_subscriptions t') =
      [[CategoryIdentifier "a"; CategoryIdentifier "b"]; [CategoryIdentifier "c"]].
Proof.
  destruct (@distribution_partitions insertion_order SubscriberStateStore SubscriptionStateStore
    _ _ _ _ memory_accepts 60 100 three_subscribers
    two_subscriptions (memory_subscriptions two_subscriptions))
    as (live & s' & t' & d' & E & El & _ & _ & _ & Ht & _).
  - apply (bool_decide_unpack _). reflexivity.
  - split; [apply two_subscriptions_ok..|done].
  - exact no_shared_source.
  - exists live, s', t', d'. split; [exact E|]. split_and!; [|exact Ht|].
    + injection El as <- _. reflexivity.
    + assert (t' = (@coordinator.distribute insertion_order _ _ _ _ 60 100
        (three_subscribers, two_subscriptions)).2.2) as -> by (rewrite E; reflexivity).
      vm_compute. reflexivity.
Defined.
