(* ===== verification/ServiceLoops.v ===== *)
(** The loops that never end by themselves: the polling service ([services/polling.py]), the
    observer's [observe] ([distributed/observer.py]) and the execution of the broker of a
    single node ([singleton/broker.py]), each a body and a sleep, under the statuses their
    exception handlers set. *)
From S2P Require Import Prelude Values Process Conversion Events Conditions EventsDB.
From S2P Require Import MemoryAdapter Sources Store ConsumerState SourceConsumer BrokerState.
From S2P Require Import Coordinator Observer.

(** ** A loop that sleeps *)

(** Some turns of a [while True] loop. A turn is what the awaits of the body are answered and
    how its sleep ends, which may be with an exception, as when the task is cancelled. [Ok] is
    a loop that goes on after these turns. *)
Fixpoint run_turns {St In} (body : In -> ST St ()) (turns : list (In * res ())) : ST St () :=
  match turns with
  | [] => mret ()
  | (input, nap) :: rest => _ ← body input; _ ← st_lift nap; run_turns body rest
  end.

(** A process: its status beside its state. *)
Definition set_status {St} (status : ProcessStatus) : ST (ProcessStatus * St) () :=
  st_modify (fun process => (status, process.2)).
Definition on_state {St} (m : ST St ()) : ST (ProcessStatus * St) () := fun process =>
  let '(r, s) := m process.2 in (r, (process.1, s)).

(** [except CancelledError: STOPPED; raise] and [except BaseException: ERRORED; raise]. *)
Definition except_status {St} (m : ST (ProcessStatus * St) ()) : ST (ProcessStatus * St) () :=
  fun process =>
    match m process with
    | (Raise CancelledError, process) => (Raise CancelledError, (STOPPED, process.2))
    | (Raise e, process) => (Raise e, (ERRORED, process.2))
    | (Ok _, process) => (Ok (), process)
    end.

(** ** [PollingService] *)

Definition polling_execute {W T} (callable : ST W T) (naps : list (res ())) : ST W () :=
  run_turns (fun _ : () => _ ← callable; mret ()) ((fun nap => ((), nap)) <$> naps).

Section loops.
Context `{SetOrder} {S E W : Type} `{UserCode} `{!EventStorageAdapter S}.
Context `{!EventSourceFactory (S := S) (E := E)}.

(** ** [DefaultEventSubscriptionObserver.observe] *)

(** A turn is given what the subscription state store lists. *)
Definition observe_turn (listing : res (list EventSubscriptionState)) :
    ST (Observer (S := S) (E := E) (W := W)) () :=
  updated ← st_lift listing; synchronise updated.

Definition observe (turns : list (res (list EventSubscriptionState) * res ())) :
    ST (ProcessStatus * Observer (S := S) (E := E) (W := W)) () :=
  _ ← set_status RUNNING; except_status (on_state (run_turns observe_turn turns)).

(** ** [SingletonEventBroker._do_execute] *)

(** [register]; a turn is given the subscribers registered since the turn before. *)
Definition register_all (subscribers : list (EventKey * SubscriptionConsumer))
    (store : EventSubscriberStore (S := S) (E := E) (W := W)) : EventSubscriberStore :=
  foldl (fun store '(key, subscriber) => store_add key subscriber store) store subscribers.

Definition singleton_turn (registered : list (EventKey * SubscriptionConsumer)) :
    ST (EventSubscriberStore (S := S) (E := E) (W := W)) () :=
  _ ← st_modify (register_all registered); singleton_distribute.

Definition singleton_do_execute
    (turns : list (list (EventKey * SubscriptionConsumer) * res ())) :
    ST (ProcessStatus * EventSubscriberStore (S := S) (E := E) (W := W)) () :=
  _ ← set_status STARTING;
  except_status (_ ← set_status RUNNING; on_state (run_turns singleton_turn turns)).
End loops.

(** ** [DistributedEventBroker.status] *)

Definition distributed_broker_status (coordinator observer : ProcessStatus) : ProcessStatus :=
  determine_multi_process_status [coordinator; observer].

(** * Theorems *)

(** A distributed broker has failed when either of its processes has, runs when one runs and
    the other runs or waits, as a coordinator does that does not lead, and has stopped when
    both have. *)
Theorem distributed_broker_status_means coordinator observer :
  let status := distributed_broker_status coordinator observer in
  (status = ERRORED <-> coordinator = ERRORED \/ observer = ERRORED) /\
  (status = RUNNING <-> (coordinator = RUNNING /\ (observer = RUNNING \/ observer = WAITING)) \/
    (coordinator = WAITING /\ observer = RUNNING)) /\
  (status = STOPPED <-> coordinator = STOPPED /\ observer = STOPPED).
Proof. destruct coordinator, observer; cbn; intuition discriminate. Qed.

(** What a handler leaves the status at. *)
Definition status_after (r : res ()) : ProcessStatus :=
  match r with Ok _ => RUNNING | Raise CancelledError => STOPPED | Raise _ => ERRORED end.

Lemma run_process {St} (m : ST St ()) s :
  except_status (on_state m) (RUNNING, s) = ((m s).1, (status_after (m s).1, (m s).2)).
Proof.
  unfold except_status, on_state. cbn [fst snd]. destruct (m s) as [[[]|e] s']; [done|].
  by destruct e.
Qed.

(** Calls of a function that raises nothing, one after the other. *)
Inductive calls {W T} (callable : ST W T) : nat -> W -> W -> Prop :=
  | calls_none w : calls callable 0 w w
  | calls_more n w a w1 w2 : callable w = (Ok a, w1) -> calls callable n w1 w2 ->
      calls callable (1 + n) w w2.

Lemma run_turn {St In} (body : In -> ST St ()) input nap rest s :
  run_turns body ((input, nap) :: rest) s =
  match body input s with
  | (Ok _, s1) => match nap with
      | Ok _ => run_turns body rest s1
      | Raise e => (Raise e, s1)
      end
  | (Raise e, s1) => (Raise e, s1)
  end.
Proof.
  cbn [run_turns]. unfold mbind, ST_bind, st_lift. destruct (body input s) as [[]]; [|done].
  by destruct nap.
Qed.

Lemma polling_turn {W T} (callable : ST W T) nap naps w :
  polling_execute callable (nap :: naps) w =
  match callable w with
  | (Ok _, w1) => match nap with
      | Ok _ => polling_execute callable naps w1
      | Raise e => (Raise e, w1)
      end
  | (Raise e, w1) => (Raise e, w1)
  end.
Proof.
  unfold polling_execute. cbn [fmap list_fmap]. rewrite run_turn. unfold mbind, ST_bind.
  by destruct (callable w) as [[]].
Qed.

(** A polling service that goes on has made one call a turn; one that has ended raises what
    ended it, which is what the last call raised, or what its sleep did after that call. *)
Theorem polling_polls {W T} (callable : ST W T) naps w r w' :
  polling_execute callable naps w = (r, w') ->
  match r with
  | Ok _ => naps = replicate (length naps) (Ok ()) /\ calls callable (length naps) w w'
  | Raise e => exists n w1, take n naps = replicate n (Ok ()) /\ calls callable n w w1 /\
      (callable w1 = (Raise e, w') \/
       exists a, callable w1 = (Ok a, w') /\ naps !! n = Some (Raise e))
  end.
Proof.
  revert w. induction naps as [|nap naps IH]; intros w; [intros [= <- <-]; split; constructor|].
  rewrite polling_turn. destruct (callable w) as [[a|e] w1] eqn:E.
  - destruct nap as [[]|e].
    + intros Hr%IH. destruct r as [[]|e].
      * destruct Hr as [Hn Hc]. cbn. split; [by f_equal|by econstructor].
      * destruct Hr as (n & w2 & Hn & Hc & Hend). exists (1 + n)%nat, w2. cbn.
        split; [by f_equal|]. split; [by econstructor|done].
    + intros [= <- <-]. exists 0%nat, w. split_and!; [done|constructor|right; by exists a].
  - intros [= <- <-]. exists 0%nat, w. split_and!; [done|constructor|by left].
Qed.

Section observing.
Context `{SetOrder} {S E W : Type} `{UserCode} `{!EventStorageAdapter S}.
Context `{!EventSourceFactory (S := S) (E := E)}.
Notation Observer := (Observer (S := S) (E := E) (W := W)).

(** The sources a list subscribes a node's subscribers to can be constructed. *)
Definition constructible (observer : Observer) (subscriptions : list EventSubscriptionState) :
    Prop :=
  forall key x, is_Some (dict_get (ob_subscribers observer) key) ->
    subscribed subscriptions key x -> exists source, construct_event_source x = Ok source.

(** What an observer relies on, and keeps. *)
Record observer_ok (observer : Observer) : Prop := {
  oo_NoDup : NoDup (subscription_key <$> ob_existing_subscriptions observer);
  oo_constructible : constructible observer (ob_existing_subscriptions observer);
  oo_in_sync : in_sync (ob_existing_subscriptions observer) (ob_subscribers observer)
}.

Definition can_follow (observer : Observer) (subscriptions : list EventSubscriptionState) :
    Prop :=
  NoDup (subscription_key <$> subscriptions) /\ constructible observer subscriptions.

(** The same subscribers, each with the consumer it had for a source it kept. *)
Record followed (keeps : EventKey -> EventSourceIdentifier -> Prop)
    (observer observer' : Observer) : Prop := {
  fo_subscribers : forall key, is_Some (dict_get (ob_subscribers observer') key) <->
    is_Some (dict_get (ob_subscribers observer) key);
  fo_delegates : forall key subscriber x delegate,
    dict_get (ob_subscribers observer) key = Some subscriber ->
    delegate_of subscriber x = Some delegate -> keeps key x ->
    exists subscriber', dict_get (ob_subscribers observer') key = Some subscriber' /\
      delegate_of subscriber' x = Some delegate
}.

Lemma followed_refl keeps observer : followed keeps observer observer.
Proof. split; [done|]. intros key subscriber x d Hs Hd _. by exists subscriber. Qed.

Lemma followed_trans (keeps keeps1 keeps2 : EventKey -> EventSourceIdentifier -> Prop) o1 o2 o3 :
  (forall key x, keeps key x -> keeps1 key x /\ keeps2 key x) ->
  followed keeps1 o1 o2 -> followed keeps2 o2 o3 -> followed keeps o1 o3.
Proof.
  intros Hk [K1 D1] [K2 D2]. split; [intros key; by rewrite K2|].
  intros key subscriber x d Hs Hd [Hk1 Hk2]%Hk.
  destruct (D1 key subscriber x d Hs Hd Hk1) as (s2 & Hs2 & Hd2). by apply (D2 key s2).
Qed.

Lemma can_follow_followed keeps o o' l :
  followed keeps o o' -> can_follow o l -> can_follow o' l.
Proof.
  intros [K _] [Hnd Hc]. split; [done|]. intros key x. rewrite K. apply Hc.
Qed.

Lemma synchronise_ok observer updated :
  observer_ok observer -> can_follow observer updated ->
  exists observer', synchronise updated observer = (Ok (), observer') /\
    ob_existing_subscriptions observer' = updated /\ observer_ok observer' /\
    followed (subscribed updated) observer observer'.
Proof.
  intros [Hnd Hc Hsync] [Hnd' Hc'].
  destruct (synchronise_in_sync observer updated) as (o' & Hrun & Hex & Hsync' & Hk & Hd); try done.
  { intros key x Hkey [Hx|Hx]; eauto. }
  exists o'. split_and!; [done..| |by split]. split; rewrite Hex; [done| |done].
  intros key x. rewrite Hk. apply Hc'.
Qed.

(** ** What the turns of an observer come to *)

(** The first failure, of a listing or a sleep. *)
Fixpoint first_failure (turns : list (res (list EventSubscriptionState) * res ())) : res () :=
  match turns with
  | [] => Ok ()
  | (listing, nap) :: rest => _ ← listing; _ ← nap; first_failure rest
  end.

(** The listings up to there, oldest first. *)
Fixpoint listings (turns : list (res (list EventSubscriptionState) * res ())) :
    list (list EventSubscriptionState) :=
  match turns with
  | [] | (Raise _, _) :: _ => []
  | (Ok l, Raise _) :: _ => [l]
  | (Ok l, Ok _) :: rest => l :: listings rest
  end.

Lemma run_observe_turns turns observer :
  observer_ok observer -> Forall (can_follow observer) (listings turns) ->
  exists observer', run_turns observe_turn turns observer = (first_failure turns, observer') /\
    ob_existing_subscriptions observer' =
      default (ob_existing_subscriptions observer) (last (listings turns)) /\
    observer_ok observer' /\
    followed (fun key x => Forall (fun l => subscribed l key x) (listings turns))
      observer observer'.
Proof.
  revert observer. induction turns as [|[listing nap] turns IH]; intros o Ho Hturns.
  { exists o. split_and!; [done..|apply followed_refl]. }
  destruct listing as [l|e]; [|exists o; split_and!; [done..|apply followed_refl]].
  assert (can_follow o l) as Hl by (destruct nap; by apply Forall_cons in Hturns as [? _]).
  destruct (synchronise_ok o l Ho Hl) as (o1 & E1 & Hex1 & Ho1 & Hf1).
  rewrite run_turn. change (observe_turn (Ok l) o) with (synchronise l o). rewrite E1.
  destruct nap as [[]|e]; cbn [listings] in Hturns |- *.
  - apply Forall_cons in Hturns as [_ Hturns]. destruct (IH o1) as (o2 & E2 & Hex2 & Ho2 & Hf2).
    { done. } { eapply Forall_impl; [exact Hturns|]. intros l'. by apply (can_follow_followed _ o o1 l' Hf1). }
    exists o2. split_and!; [exact E2| |done|].
    + rewrite Hex2, Hex1, last_cons. by destruct (last (listings turns)).
    + eapply followed_trans; [|exact Hf1|exact Hf2]. by intros key x [? ?]%Forall_cons.
  - exists o1. split_and!; [done..|]. eapply followed_trans; [|exact Hf1|apply followed_refl].
    intros key x [? _]%Forall_cons. by split.
Qed.

(** C18. An observer whose listings can be followed goes on until a listing fails or its sleep
    is interrupted, and then raises that: it is [RUNNING] till then, [STOPPED] by a
    cancellation and [ERRORED] by anything else. Whichever it is, the node's subscribers
    consume exactly what the last listing that succeeded gives them, over the consumers they
    had for the sources that were in every listing, and the observer can be started again. *)
Theorem observe_follows status observer turns :
  observer_ok observer -> Forall (can_follow observer) (listings turns) ->
  exists observer', observe turns (status, observer) =
      (first_failure turns, (status_after (first_failure turns), observer')) /\
    ob_existing_subscriptions observer' =
      default (ob_existing_subscriptions observer) (last (listings turns)) /\
    observer_ok observer' /\
    followed (fun key x => Forall (fun l => subscribed l key x) (listings turns))
      observer observer'.
Proof.
  intros Ho Hturns. destruct (run_observe_turns turns observer Ho Hturns) as (o' & Hrun & Hrest).
  exists o'. split; [|exact Hrest]. unfold observe, set_status, mbind, ST_bind, st_modify.
  cbn [snd]. rewrite run_process. by rewrite Hrun.
Qed.

(** A subscriber of a key the observer has not seen subscribed can be added at any time. *)
Lemma register_ok observer key subscriber :
  observer_ok observer -> sc_delegates subscriber = [] ->
  (forall x, ~ subscribed (ob_existing_subscriptions observer) key x) ->
  observer_ok (set_observed (store_add key subscriber (ob_subscribers observer)) observer).
Proof.
  intros [Hnd Hc Hsync] Hnone Hnew. split; [done|..].
  - intros k x. cbn. unfold store_add. rewrite dict_get_set. case_decide; [|apply Hc].
    subst k. intros _ Hx. by apply Hnew in Hx.
  - intros k s. cbn. unfold store_add. rewrite dict_get_set. case_decide; [|apply Hsync].
    subst k. intros [= <-] x. unfold delegate_of. rewrite Hnone. cbn. split; [by intros []|].
    by intros ?%Hnew.
Qed.

(** A subscriber added under a key the observer has seen subscribed, as when a subscriber is
    registered anew, is not given the sources of that key for as long as the subscription
    keeps them: the difference to what was seen before is empty. *)
Definition waits (key : EventKey) (x : EventSourceIdentifier) (observer : Observer) : Prop :=
  subscribed (ob_existing_subscriptions observer) key x /\
  exists subscriber, dict_get (ob_subscribers observer) key = Some subscriber /\
    delegate_of subscriber x = None.

Lemma synchronise_waits observer updated key x :
  NoDup (subscription_key <$> ob_existing_subscriptions observer) ->
  constructible observer (ob_existing_subscriptions observer) ->
  can_follow observer updated -> subscribed updated key x -> waits key x observer ->
  exists observer', synchronise updated observer = (Ok (), observer') /\
    ob_existing_subscriptions observer' = updated /\ waits key x observer' /\
    forall k, is_Some (dict_get (ob_subscribers observer') k) <->
      is_Some (dict_get (ob_subscribers observer) k).
Proof.
  intros Hnd Hc [Hnd' Hc'] Hx [Hseen (s & Hs & Hd)].
  destruct (synchronise_run observer updated) as (o' & Hrun & Hex & Hsubs); try done.
  { intros k y Hk [Hy|Hy]; eauto. }
  exists o'. split_and!; [done..| |].
  - split; [by rewrite Hex|]. specialize (Hsubs key). rewrite Hs in Hsubs.
    destruct Hsubs as (s' & Hs' & Hy). exists s'. split; [done|]. specialize (Hy x).
    rewrite Hd in Hy. apply eq_None_not_Some. tauto.
  - intros k. specialize (Hsubs k). destruct (dict_get (ob_subscribers observer) k).
    + destruct Hsubs as (s' & -> & _). by split; eexists.
    + by rewrite Hsubs.
Qed.

Theorem late_subscriber_waits key x turns observer :
  NoDup (subscription_key <$> ob_existing_subscriptions observer) ->
  constructible observer (ob_existing_subscriptions observer) ->
  Forall (fun l => can_follow observer l /\ subscribed l key x) (listings turns) ->
  waits key x observer -> waits key x (run_turns observe_turn turns observer).2.
Proof.
  revert observer. induction turns as [|[listing nap] turns IH]; intros o Hnd Hc Hturns Hw; [done|].
  destruct listing as [l|e]; [|done].
  assert (can_follow o l /\ subscribed l key x) as [Hl Hx]
    by (destruct nap; by apply Forall_cons in Hturns as [? _]).
  destruct (synchronise_waits o l key x Hnd Hc Hl Hx Hw) as (o1 & E1 & Hex1 & Hw1 & Hk).
  rewrite run_turn. change (observe_turn (Ok l) o) with (synchronise l o). rewrite E1.
  destruct nap; [|done]. apply Forall_cons in Hturns as [_ Hturns]. destruct Hl as [Hndl Hcl].
  apply IH; rewrite ?Hex1; [done| | |done].
  - intros k y. rewrite Hk. apply Hcl.
  - eapply Forall_impl; [exact Hturns|]. intros l' [[Hnd' Hc'] Hx']. split; [|done].
    split; [done|]. intros k y. rewrite Hk. apply Hc'.
Qed.

(** ** What the turns of the broker of a single node come to *)

Notation SubscriptionConsumer := (SubscriptionConsumer (S := S) (E := E) (W := W)).
Notation SubscriberStore := (EventSubscriberStore (S := S) (E := E) (W := W)).

(** Each subscriber consumes all it requests, and it can. *)
Definition can_serve (subscriber : SubscriptionConsumer) : Prop :=
  forall x, x ∈ sc_requests subscriber -> exists source, construct_event_source x = Ok source.
Definition served (subscriber : SubscriptionConsumer) : Prop :=
  forall x, x ∈ sc_requests subscriber -> is_Some (delegate_of subscriber x).

Fixpoint first_interrupt {In} (turns : list (In * res ())) : res () :=
  match turns with [] => Ok () | (_, nap) :: rest => _ ← nap; first_interrupt rest end.

(** The store between turns: one subscriber a key, each of whose requests can be served. *)
Record store_ok (store : EventSubscriberStore (S := S) (E := E) (W := W)) : Prop := {
  so_keys : NoDup (dict_keys store);
  so_serve : forall key subscriber, dict_get store key = Some subscriber -> can_serve subscriber
}.

Lemma accept_sources_requests sources (subscriber : SubscriptionConsumer) :
  sc_requests (accept_sources sources subscriber) = sc_requests subscriber.
Proof.
  revert subscriber. induction sources as [|source sources IH]; intros subscriber; [done|].
  apply (IH (subscriber_accept source subscriber)).
Qed.

Lemma can_serve_sources subscriber :
  can_serve subscriber -> exists sources, sources_for (sc_requests subscriber) sources.
Proof.
  unfold can_serve, sources_for. induction (sc_requests subscriber) as [|x l IH]; intros Hx.
  { exists []. constructor. }
  destruct (Hx x) as [source Hsource]; [constructor|].
  destruct IH as [sources Hl]; [intros y Hy; apply Hx; by constructor 2|].
  exists (source :: sources). by constructor.
Qed.

Lemma accept_requests_keys requests key store :
  NoDup (dict_keys store) ->
  NoDup (dict_keys (accept_requests requests key store : _ * SubscriberStore).2).
Proof.
  revert store. induction requests as [|x requests IH]; intros store Hnd; [done|].
  cbn [accept_requests]. unfold mbind, ST_bind, st_get, st_lift, st_put.
  destruct (dict_get store key) as [subscriber|]; [|done].
  destruct (construct_event_source x) as [source|]; [|done]. apply IH. by apply dict_set_NoDup.
Qed.

Lemma distribute_to_keys l store :
  NoDup (dict_keys store) ->
  NoDup (dict_keys (distribute_to l store : _ * SubscriberStore).2).
Proof.
  revert store. induction l as [|[key subscriber] l IH]; intros store Hnd; [done|].
  cbn [distribute_to]. unfold mbind, ST_bind.
  pose proof (accept_requests_keys (sc_requests subscriber) key store Hnd) as Hkeys.
  destruct (accept_requests _ key store) as [[]]; [by apply IH|done].
Qed.

Lemma register_all_ok registered store :
  store_ok store -> Forall (fun r => can_serve r.2) registered ->
  store_ok (register_all registered store).
Proof.
  intros Hstore Hall. revert store Hstore.
  induction Hall as [|[key s] registered Hs _ IH]; intros store [Hnd Hserve]; [done|].
  apply IH. split; unfold store_add; [by apply dict_set_NoDup|].
  intros k subscriber. rewrite dict_get_set. case_decide; [by intros [= <-]|apply Hserve].
Qed.

Lemma singleton_turn_ok registered store :
  store_ok store -> Forall (fun r => can_serve r.2) registered ->
  exists store', singleton_turn registered store = (Ok (), store') /\ store_ok store' /\
    forall key subscriber, dict_get store' key = Some subscriber -> served subscriber.
Proof.
  intros Hstore Hall. destruct (register_all_ok _ _ Hstore Hall) as [Hnd Hserve].
  unfold singleton_turn, singleton_distribute, mbind, ST_bind, st_modify, st_get.
  set (store1 := register_all registered store) in *.
  destruct (distribute_to_ok store1 store1 Hnd) as (store' & Hrun & Hs').
  { intros k s Hs. by apply dict_elem_get. }
  { intros k s Hs%dict_elem_get; [|done]. by apply can_serve_sources, (Hserve k). }
  exists store'. split; [exact Hrun|].
  assert (forall key s', dict_get store' key = Some s' -> exists s sources,
    dict_get store1 key = Some s /\ sources_for (sc_requests s) sources /\
    s' = accept_sources sources s) as Hfrom.
  { intros key s' Hkey. specialize (Hs' key). destruct (dict_get store1 key) as [s|]; [|congruence].
    destruct Hs' as (sources & Hsources & Hs'). exists s, sources. split_and!; congruence || done. }
  split; [split|].
  - pose proof (distribute_to_keys store1 store1 Hnd) as Hkeys. by rewrite Hrun in Hkeys.
  - intros key s' (s & sources & Hs & _ & ->)%Hfrom x. rewrite accept_sources_requests.
    by apply (Hserve key).
  - intros key s' (s & sources & _ & Hsources & ->)%Hfrom x. rewrite accept_sources_requests.
    intros Hx. pose proof (accept_all sources s x) as Hacc. cbn zeta in Hacc.
    rewrite (constructed_identifiers _ _ Hsources) in Hacc. unfold accept_sources.
    destruct (delegate_of s x); [by rewrite Hacc|by apply Hacc].
Qed.

(** The broker of a single node goes on until its sleep is interrupted, whatever subscribers
    are registered as it runs, when all they request can be constructed; from the first turn
    on, every subscriber registered before the last turn consumes each source it requests. *)
Theorem singleton_serves status store turns :
  store_ok store -> Forall (fun turn => Forall (fun r => can_serve r.2) turn.1) turns ->
  exists store', singleton_do_execute turns (status, store) =
      (first_interrupt turns, (status_after (first_interrupt turns), store')) /\
    store_ok store' /\
    (turns <> [] -> forall key subscriber,
      dict_get store' key = Some subscriber -> served subscriber).
Proof.
  intros Hstore Hturns. assert (exists store', run_turns singleton_turn turns store =
    (first_interrupt turns, store') /\ store_ok store' /\ (turns <> [] ->
    forall key subscriber, dict_get store' key = Some subscriber -> served subscriber))
    as (store' & Hrun & Hrest).
  { revert store Hstore. induction Hturns as [|[registered nap] turns Hr _ IH]; intros store Hstore.
    { by exists store. }
    destruct (singleton_turn_ok registered store Hstore Hr) as (store1 & Hrun & Hstore1 & Hserved).
    rewrite run_turn, Hrun. destruct nap as [[]|]; [|by exists store1].
    destruct (IH store1 Hstore1) as (store2 & Hrun2 & Hstore2 & Hserved2). exists store2.
    split_and!; [done..|]. intros _. destruct turns as [|turn turns]; [|by apply Hserved2].
    injection Hrun2 as <-. exact Hserved. }
  exists store'. split; [|exact Hrest].
  unfold singleton_do_execute, set_status, mbind, ST_bind, st_modify, except_status, on_state.
  cbn [fst snd]. rewrite Hrun. by destruct (first_interrupt turns) as [[]|[]].
Qed.
End observing.

(** ** Witnesses *)

Module loops_examples.
#[local] Instance loops_adapter : EventStorageAdapter AdapterState :=
  @InMemoryEventStorageAdapter no_user_code constant_uuid ∅ ∅.

Lemma moved_can_follow (subscriptions : list EventSubscriptionState) :
  subscriptions = moved_from \/ subscriptions = moved_to ->
  can_follow moving_observer subscriptions.
Proof.
  intros Hl. split.
  - destruct Hl as [->| ->]; apply moved_NoDup.
  - intros key x _ Hx. destruct (subscribed_moved key x) as [->| ->]; [|by eexists..].
    destruct Hl as [->| ->]; [by left|by right].
Qed.

Lemma moving_ok : observer_ok moving_observer.
Proof.
  destruct (moved_can_follow moved_from) as [Hnd Hc]; [by left|].
  split; [exact Hnd|exact Hc|exact moving_in_sync].
Qed.

(** The subscriptions move and move back; then the listing fails. *)
Lemma observe_follows_witness :
  exists observer', observe (H := insertion_order)
      [(Ok moved_to, Ok ()); (Ok moved_from, Ok ()); (Ok moved_to, Ok ());
       (Raise (UserError "OperationalError"), Ok ())] (INITIALISED, moving_observer) =
      (Raise (UserError "OperationalError"), (ERRORED, observer')) /\
    in_sync moved_to (ob_subscribers observer').
Proof.
  destruct (observe_follows (H := insertion_order) INITIALISED moving_observer
    [(Ok moved_to, Ok ()); (Ok moved_from, Ok ()); (Ok moved_to, Ok ());
     (Raise (UserError "OperationalError"), Ok ())]) as (observer' & Hrun & Hex & Hok & _).
  - exact moving_ok.
  - apply Forall_forall. intros l Hl. apply moved_can_follow. cbn in Hl. set_solver.
  - exists observer'. split; [exact Hrun|]. cbn in Hex. rewrite <-Hex. apply Hok.
Defined.
End loops_examples.
