(* ===== verification/ClusterConsumption.v ===== *)
(** A round of the distributed broker over a cluster
    ([processing/broker/strategies/distributed/]): a coordinator distributes over the shared
    stores, then the observer of every node lists the shared subscriptions and passes them on
    to the subscribers of the node. *)
From S2P Require Import Prelude Values Conversion Events Conditions EventsDB MemoryAdapter.
From S2P Require Import Sources Store ConsumerState SourceConsumer BrokerState.
From S2P Require Import SubscriberManager Coordinator Distribution Process Observer ServiceLoops.

Section cluster.
Context `{SetOrder} {A E W : Type} `{UserCode} `{!EventStorageAdapter A}.
Context `{!EventSourceFactory (S := A) (E := E)}.
Context {S T : Type} `{Hsubscribers : SubscriberStoreLaws S}.
Context `{Hsubscriptions : SubscriptionStoreLaws T}.
Context (kept_accepted : forall s : EventSubscriberState, sb_kept s ->
  sp_accepts_key (subscriber_key s) /\ Forall sp_accepts_source (ss_requests s)).
Notation Observer := (Observer (S := A) (E := E) (W := W)).

(** The nodes, each with its observer. *)
Definition Nodes : Type := list (string * Observer).

(** The turn of one observer, against the shared store. *)
Definition node_turn (observer : Observer) : ST T Observer :=
  listing ← sp_list;
  let '(r, observer) := observe_turn (Ok listing) observer in
  _ ← st_lift r; mret observer.

Fixpoint synchronise_nodes (nodes : Nodes) : ST T Nodes :=
  match nodes with
  | [] => mret []
  | (node, observer) :: rest =>
      observer ← node_turn observer;
      rest ← synchronise_nodes rest;
      mret ((node, observer) :: rest)
  end.

Definition cluster_round (max_time_since_last_seen now : Z) (nodes : Nodes) : ST (S * T) Nodes :=
  _ ← coordinator.distribute max_time_since_last_seen now;
  coordinator.subscriptions_store (synchronise_nodes nodes).

(** ** The cluster *)

Definition hosts (nodes : Nodes) (node : string) (key : EventKey) : Prop :=
  exists observer, (node, observer) ∈ nodes /\
    is_Some (dict_get (ob_subscribers observer) key).

Definition consumes (nodes : Nodes) (node : string) (key : EventKey) (x : EventSourceIdentifier) :
    Prop :=
  exists observer subscriber, (node, observer) ∈ nodes /\
    dict_get (ob_subscribers observer) key = Some subscriber /\
    is_Some (delegate_of subscriber x).

(** Each node by one name, its observer in step with what it listed last, and each subscriber
    on one node. *)
Record nodes_ok (nodes : Nodes) : Prop := {
  no_NoDup : NoDup nodes.*1;
  no_observers : forall node observer, (node, observer) ∈ nodes -> observer_ok observer;
  no_once : forall n1 n2 key, hosts nodes n1 key -> hosts nodes n2 key -> n1 = n2
}.

(** The sources of some subscriptions that are for subscribers of these nodes can be
    constructed. *)
Definition sources_served (d : Subscriptions) : Prop :=
  forall key sn x, d key = Some sn -> x ∈ sn_event_sources sn ->
    exists source, construct_event_source (EventSourceFactory := EventSourceFactory0) x = Ok source.

Lemma listed_subscribed (t : T) d l key x :
  sp_holds t d -> listed d l ->
  subscribed l key x <-> exists sn, d key = Some sn /\ x ∈ sn_event_sources sn.
Proof.
  intros Ht [_ Hl]. split.
  - intros (s & Hs & <- & Hx). exists s. split; [by apply Hl|done].
  - intros (s & Hs & Hx). destruct (sp_keyed t d key s Ht Hs) as [<- _]. exists s.
    split; [by apply Hl|done].
Qed.

(** A node after its turn: the same subscribers, which consume what the subscriptions give
    them. *)
Record in_turn (d : Subscriptions) (node node' : string * Observer) : Prop := {
  it_name : node'.1 = node.1;
  it_ok : observer_ok node'.2;
  it_hosts : forall key, is_Some (dict_get (ob_subscribers node'.2) key) <->
    is_Some (dict_get (ob_subscribers node.2) key);
  it_consumes : forall key subscriber x,
    dict_get (ob_subscribers node'.2) key = Some subscriber ->
    is_Some (delegate_of subscriber x) <-> exists sn, d key = Some sn /\ x ∈ sn_event_sources sn
}.

Lemma node_turn_ok (t : T) d node observer :
  sp_holds t d -> sources_served d -> observer_ok observer ->
  exists observer' t', node_turn observer t = (Ok observer', t') /\ sp_holds t' d /\
    in_turn d (node, observer) (node, observer').
Proof.
  intros Ht Hserved Ho. destruct (sp_list_law t d Ht) as (l & t' & El & Ht' & Hl).
  destruct (synchronise_ok observer l Ho) as (o' & Hrun & Hex & Ho' & Hf).
  { split; [apply Hl|]. intros key x _ Hx. apply (listed_subscribed t d l) in Hx as (sn & Hsn & Hx);
      [|done..]. by eapply Hserved. }
  exists o', t'. split_and!; [|done|].
  - unfold node_turn, mbind, ST_bind. rewrite El.
    change (observe_turn (Ok l) observer) with (synchronise l observer). by rewrite Hrun.
  - split; [done|done|apply Hf|]. intros key s x Hs.
    rewrite <-(listed_subscribed t d l key x Ht Hl), <-Hex. by apply (oo_in_sync _ Ho').
Qed.

Lemma synchronise_nodes_ok nodes (t : T) d :
  sp_holds t d -> sources_served d ->
  (forall node observer, (node, observer) ∈ nodes -> observer_ok observer) ->
  exists nodes' t', synchronise_nodes nodes t = (Ok nodes', t') /\ sp_holds t' d /\
    Forall2 (in_turn d) nodes nodes'.
Proof.
  intros Ht Hserved. revert t Ht. induction nodes as [|[node o] nodes IH]; intros t Ht Hnodes.
  { exists [], t. split; [done|]. split; [done|constructor]. }
  destruct (node_turn_ok t d node o Ht Hserved) as (o' & t1 & E1 & Ht1 & Hturn).
  { apply (Hnodes node). constructor. }
  destruct (IH t1 Ht1) as (nodes' & t2 & E2 & Ht2 & Hall).
  { intros n o2 Ho2. apply (Hnodes n). by constructor. }
  exists ((node, o') :: nodes'), t2. split_and!; [|done|by constructor].
  cbn [synchronise_nodes]. unfold mbind, ST_bind. by rewrite E1, E2.
Qed.

(** ** The nodes after a turn each *)
Section after.
Context (d : Subscriptions) (nodes nodes' : Nodes).
Hypothesis Hturns : Forall2 (in_turn d) nodes nodes'.

Lemma turned_names : nodes'.*1 = nodes.*1.
Proof.
  induction Hturns as [|node node' ? ? [Hn _ _ _] Hrest IH]; [done|].
  rewrite !fmap_cons, Hn. f_equal. by apply IH.
Qed.

Lemma turned_of node' : node' ∈ nodes' -> exists node, node ∈ nodes /\ in_turn d node node'.
Proof.
  intros (i & Hi)%list_elem_of_lookup.
  destruct (Forall2_lookup_r _ _ _ _ _ Hturns Hi) as (node & Hnode & Hturn).
  exists node. split; [by eapply list_elem_of_lookup_2|done].
Qed.

Lemma turned_to node : node ∈ nodes -> exists node', node' ∈ nodes' /\ in_turn d node node'.
Proof.
  intros (i & Hi)%list_elem_of_lookup.
  destruct (Forall2_lookup_l _ _ _ _ _ Hturns Hi) as (node' & Hnode & Hturn).
  exists node'. split; [by eapply list_elem_of_lookup_2|done].
Qed.

Lemma turned_hosts node key : hosts nodes' node key <-> hosts nodes node key.
Proof.
  split.
  - intros (o' & Ho' & Hk). destruct (turned_of _ Ho') as ([n o] & Ho & [Hn _ Hh _]).
    cbn in *. subst n. exists o. split; [done|]. by apply Hh.
  - intros (o & Ho & Hk). destruct (turned_to _ Ho) as ([n o'] & Ho' & [Hn _ Hh _]).
    cbn in *. subst n. exists o'. split; [done|]. by apply Hh.
Qed.

Lemma turned_ok : nodes_ok nodes -> nodes_ok nodes'.
Proof.
  intros [Hnd _ Honce]. split; [by rewrite turned_names| |].
  - intros n o Ho. by destruct (turned_of _ Ho) as (? & _ & [_ ? _ _]).
  - intros n1 n2 key. rewrite !turned_hosts. apply Honce.
Qed.

Lemma turned_consumes node key x :
  consumes nodes' node key x <->
  hosts nodes node key /\ exists sn, d key = Some sn /\ x ∈ sn_event_sources sn.
Proof.
  rewrite <-turned_hosts. split.
  - intros (o & s & Ho & Hs & Hx). split; [by exists o; split; [|exists s]|].
    destruct (turned_of _ Ho) as (? & _ & [_ _ _ Hc]). by apply (Hc key s x Hs).
  - intros [(o & Ho & s & Hs) Hx]. exists o, s. split_and!; [done..|].
    destruct (turned_of _ Ho) as (? & _ & [_ _ _ Hc]). by apply (Hc key s x Hs).
Qed.
End after.

(** The consumption of a group: the sources of its target by one subscriber each, and no
    others. *)
Record consumed_once (nodes : Nodes) (group : string) (target : list EventSourceIdentifier) :
    Prop := {
  co_target : forall x, x ∈ target -> exists node key, key_group key = group /\
    consumes nodes node key x /\
    forall node2 key2, key_group key2 = group -> consumes nodes node2 key2 x ->
      node2 = node /\ key2 = key;
  co_only : forall node key x, key_group key = group -> consumes nodes node key x -> x ∈ target
}.

(** The target of a group: the largest of the requests of its live subscribers. *)
Definition largest_requests (live : list EventSubscriberState) (group : string)
    (target : list EventSourceIdentifier) : Prop :=
  (exists s, s ∈ live /\ ss_group s = group /\ ss_requests s = target) /\
  forall s, s ∈ live -> ss_group s = group -> (length (ss_requests s) <= length target)%nat.

Lemma partitioned_consumed live before d nodes nodes' group target :
  Forall2 (in_turn d) nodes nodes' -> nodes_ok nodes -> partitioned live before d ->
  (forall key, key ∈ subscriber_key <$> live -> exists node, hosts nodes node key) ->
  distributed live before d group target -> consumed_once nodes' group target.
Proof.
  intros Hturns Hnodes Hpart Hhosted Hdist. split.
  - intros x (key & sn & Hg & Hsn & Hx)%(di_covers _ _ _ _ _ Hdist).
    destruct (Hhosted key) as [node Hnode]; [by eapply pa_live|].
    exists node, key. split_and!; [done|apply (turned_consumes d nodes nodes' Hturns); eauto|].
    intros node2 key2 Hg2 (Hn2 & sn2 & Hsn2 & Hx2)%(turned_consumes d nodes nodes' Hturns).
    assert (key2 = key) as ->; [|by split; [eapply no_once|]].
    apply (pa_disjoint _ _ _ Hpart key2 key sn2 sn x Hsn2 Hsn); [congruence|done..].
  - intros node key x Hg (_ & sn & Hsn & Hx)%(turned_consumes d nodes nodes' Hturns).
    apply (di_covers _ _ _ _ _ Hdist). by exists key, sn.
Qed.

Lemma partitioned_served live before d :
  partitioned live before d ->
  (forall s x, s ∈ live -> x ∈ ss_requests s ->
    exists source, construct_event_source (EventSourceFactory := EventSourceFactory0) x = Ok source) ->
  sources_served d.
Proof.
  intros Hpart Hrequests key sn x Hsn Hx.
  destruct (proj1 (list_elem_of_fmap _ _ _) (pa_live _ _ _ Hpart key sn Hsn)) as (s & -> & Hs).
  destruct (pa_groups _ _ _ Hpart (ss_group s)) as [target Hdist]; [by exists s|].
  destruct (di_target _ _ _ _ _ Hdist) as (s' & Hs' & _ & Ht). apply (Hrequests s'); [done|].
  rewrite Ht. apply (di_covers _ _ _ _ _ Hdist). by exists (subscriber_key s), sn.
Qed.

(** C10. A round of the cluster, over stores that keep their promises and nodes in step with
    what they listed last: when the sources of the subscriptions it makes can be constructed,
    it does not fail, and when each live subscriber is on a node, each source of a group's
    target, the largest requests any of its live subscribers makes, is consumed by exactly
    one subscriber of the group on one node of the cluster. No other source is consumed for
    the group, and a subscriber that is not live consumes nothing. The nodes and the stores
    are left as a next round needs them. *)
Theorem cluster_consumes_once max_age now (s : S) (t : T) d nodes :
  sb_holds s -> sp_holds t d -> sources_disjoint d -> nodes_ok nodes ->
  (forall live s' x i, sb_list None (Some max_age) now s = (Ok live, s') ->
    x ∈ live -> i ∈ ss_requests x -> exists source, construct_event_source i = Ok source) ->
  (forall key seen, sb_seen s key = Some seen -> shown None (Some max_age) now key seen = true ->
    exists node, hosts nodes node key) ->
  exists live nodes' s' t' d', cluster_round max_age now nodes (s, t) = (Ok nodes', (s', t')) /\
    sb_list None (Some max_age) now s = (Ok live, s') /\
    (forall group, (exists x, x ∈ live /\ ss_group x = group) ->
      exists target, largest_requests live group target /\ consumed_once nodes' group target) /\
    (forall node key x, consumes nodes' node key x -> key ∈ subscriber_key <$> live) /\
    sb_holds s' /\ sp_holds t' d' /\ sources_disjoint d' /\ nodes_ok nodes' /\
    forall node key, hosts nodes' node key <-> hosts nodes node key.
Proof.
  intros Hs Ht Hdisjoint Hnodes Hrequests Hhosted.
  destruct (distribute_run kept_accepted max_age now s t d Hs Ht Hdisjoint)
    as (live & s' & t1 & d' & E1 & El & _ & Hlive & Hs' & Ht1 & Hpart).
  assert (sources_served d') as Hserved by (eapply partitioned_served; eauto).
  destruct (synchronise_nodes_ok nodes t1 d' Ht1 Hserved) as (nodes' & t2 & E2 & Ht2 & Hturns).
  { apply Hnodes. }
  exists live, nodes', s', t2, d'. split_and!; try done.
  - unfold cluster_round, mbind, ST_bind. rewrite E1.
    unfold coordinator.subscriptions_store. cbn [fst snd]. by rewrite E2.
  - intros group Hgroup. destruct (pa_groups _ _ _ Hpart group Hgroup) as [target Hdist].
    exists target. split; [split; [apply Hdist|apply Hdist]|].
    eapply partitioned_consumed; eauto. intros key (seen & Hseen & Hshown)%Hlive. eauto.
  - intros node key x (_ & sn & Hsn & _)%(turned_consumes d' nodes nodes' Hturns).
    by eapply pa_live.
  - apply Hpart.
  - by eapply turned_ok.
  - by apply (turned_hosts d').
Qed.
End cluster.

(** ** Witness *)

Module cluster_examples.
#[local] Instance cluster_adapter : EventStorageAdapter AdapterState :=
  @InMemoryEventStorageAdapter no_user_code constant_uuid ∅ ∅.

Definition orders_3 : EventKey := mkKey "orders" "3".

(** Node 1 has the two subscribers that live, and node 3 none; node 2 has gone. *)
Definition waiting : SubscriptionConsumer (S := AdapterState) (E := StoredEvent) (W := unit) :=
  mkSubscriptionConsumer [] log_consumer [].
Definition two_nodes : Nodes (A := AdapterState) (E := StoredEvent) (W := unit) :=
  [("node-1"%string, mkObserver [] [(orders_1, waiting); (orders_3, waiting)]);
   ("node-3"%string, mkObserver [] [])].

Lemma observer_waits subscribers :
  Forall (fun p => p.2 = waiting) subscribers -> observer_ok (mkObserver [] subscribers).
Proof.
  intros Hall. split.
  - constructor.
  - intros key x _ (? & ?%not_elem_of_nil & _). done.
  - intros key s Hs x. split; [|intros (? & ?%not_elem_of_nil & _); done].
    apply dict_get_Some_elem in Hs. rewrite Forall_forall in Hall.
    pose proof (Hall _ Hs) as Hw. cbn in Hw. rewrite Hw. by intros [].
Qed.

Lemma two_nodes_ok : nodes_ok two_nodes.
Proof.
  split.
  - apply (bool_decide_unpack _). reflexivity.
  - intros node o Ho. apply list_elem_of_In in Ho.
    destruct Ho as [Ho|[Ho|[]]]; injection Ho as _ <-; apply observer_waits; repeat constructor.
  - assert (forall n key, hosts two_nodes n key -> n = "node-1"%string) as Hn.
    { intros n key (o & Ho & [s Hs]). apply list_elem_of_In in Ho.
      destruct Ho as [Ho|[Ho|[]]]; injection Ho as <- <-; [done|discriminate Hs]. }
    intros n1 n2 key H1%Hn H2%Hn. congruence.
Qed.

Definition cluster_nodes (r : res (Nodes (A := AdapterState) (E := StoredEvent) (W := unit))) :=
  match r with Ok nodes => nodes | Raise _ => [] end.

Lemma cluster_consumes_once_witness :
  exists nodes' s' t', cluster_round (H := insertion_order) 60 100 two_nodes
      (three_subscribers, two_subscriptions) = (Ok nodes', (s', t')) /\
    consumes nodes' "node-1" orders_3 (CategoryIdentifier "c") /\
    consumed_once nodes' "orders" [CategoryIdentifier "a"; CategoryIdentifier "b";
      CategoryIdentifier "c"].
Proof.
  destruct (cluster_consumes_once (H := insertion_order) memory_accepts 60 100 three_subscribers
    two_subscriptions (memory_subscriptions two_subscriptions) two_nodes)
    as (live & nodes' & s' & t' & d' & E & El & Hgroups & _).
  - apply (bool_decide_unpack _). reflexivity.
  - split; [apply two_subscriptions_ok..|done].
  - exact no_shared_source.
  - exact two_nodes_ok.
  - intros live s' x i [= <- _] Hx Hi. apply list_elem_of_In in Hx, Hi. vm_compute in Hx.
    destruct Hx as [Hx|[Hx|[]]]; subst x; cbn in Hi;
      destruct Hi as [Hi|[Hi|[Hi|[]]]]; subst i; eexists; reflexivity.
  - intros key seen Hseen Hshown. exists "node-1"%string. eexists. split; [left|].
    revert Hseen Hshown. cbn. unfold store_seen. cbn. repeat case_decide; subst; try done.
    all: intros [= <-]; discriminate.
  - exists nodes', s', t'. split; [exact E|]. split.
    + assert (nodes' = cluster_nodes (cluster_round (H := insertion_order) 60 100
        two_nodes (three_subscribers, two_subscriptions)).1) as -> by (rewrite E; reflexivity).
      do 2 eexists. split; [left|]. split; [reflexivity|]. eexists. reflexivity.
    + assert (exists x, x ∈ live /\ ss_group x = "orders"%string) as Hgroup
        by (injection El as <- _; eexists; split; [left|reflexivity]).
      destruct (Hgroups "orders"%string Hgroup) as (target & ((x & Hx & _ & Ht) & _) & Honce).
      injection El as <- _. apply list_elem_of_In in Hx. vm_compute in Hx.
      destruct Hx as [Hx|[Hx|[]]]; subst x; cbn in Ht; subst target; exact Honce.
Defined.
End cluster_examples.
