(* ===== verification/Leadership.v ===== *)
(** Many coordinators over the same stores: [coordinate]
    ([processing/broker/strategies/distributed/coordinator.py]) on each node of a cluster, cut
    at its [await] points. Whoever gets the lock distributes for a while, then gives it up. *)
From S2P Require Import Prelude Values BrokerState SubscriberManager Coordinator Distribution.
From S2P Require Import Process LockManager.

(** ** [try_lock], as coordinators use it *)

(** Entering gives the task of the [async with] and whether it has the lock. *)
Class TryLocks (L : Type) := {
  tk_enter : string -> L -> nat * bool * L;
  tk_leave : nat -> L -> L
}.

(** The promise of a lock manager: no two tasks hold a name; a task is refused a name only
    when one holds it; what a task holds, it holds until it leaves. *)
Class TryLocksLaws (L : Type) `{TryLocks L} := {
  tk_holds : L -> Prop;
  tk_used : L -> nat -> Prop;
  tk_held : L -> nat -> string -> Prop;
  tk_exclusive : forall l i j name,
    tk_holds l -> tk_held l i name -> tk_held l j name -> i = j;
  tk_enter_law : forall name l i locked l', tk_holds l -> tk_enter name l = (i, locked, l') ->
    tk_holds l' /\ ~ tk_used l i /\ (forall j, tk_used l' j <-> tk_used l j \/ j = i) /\
    (forall j, tk_held l' j name <-> tk_held l j name \/ locked = true /\ j = i) /\
    (locked = false -> exists j, tk_held l j name);
  tk_leave_law : forall i l, tk_holds l -> tk_holds (tk_leave i l) /\
    (forall j, tk_used (tk_leave i l) j <-> tk_used l j) /\
    forall j m, tk_held (tk_leave i l) j m <-> j <> i /\ tk_held l j m
}.

(** ** [DefaultEventSubscriptionCoordinator.coordinate] *)

Definition LOCK_NAME : string :=
  "logicblocks.event.processing.broker.strategies.distributed.coordinator" +:+
  ".DefaultEventSubscriptionCoordinator".

(** Where it goes once it has left the lock. *)
Inductive AfterLock := ToWaiting | ToStopped | ToErrored.

(** Where it stands, with its local variables: the lock's task, when it was acquired, and
    those of [distribute]. When it has left the lock its status is the one before. *)
Inductive Phase :=
  | Initialised
  | Waiting
  | Refused (task : nat)
  | Leading (task : nat) (lock_acquired : Z)
  | Listed (task : nat) (lock_acquired : Z) (subscriptions : list EventSubscriptionState)
  | Planned (task : nat) (lock_acquired : Z) (subscriptions : list EventSubscriptionState)
      (subscribers : list EventSubscriberState) (changes : list EventSubscriptionStateChange)
  | Applied (task : nat) (lock_acquired : Z) (subscriptions : list EventSubscriptionState)
      (subscribers : list EventSubscriberState) (changes : list EventSubscriptionStateChange)
  | LeftLock (status : ProcessStatus) (next : AfterLock)
  | Stopped
  | Errored.

Definition coordinator_status (phase : Phase) : ProcessStatus :=
  match phase with
  | Initialised => INITIALISED
  | Waiting | Refused _ => WAITING
  | Leading _ _ | Listed _ _ _ | Planned _ _ _ _ _ | Applied _ _ _ _ _ => RUNNING
  | LeftLock status _ => status
  | Stopped => STOPPED
  | Errored => ERRORED
  end.

(** The task of the [async with] it is in. *)
Definition body_task (phase : Phase) : option nat :=
  match phase with
  | Refused task | Leading task _ | Listed task _ _ | Planned task _ _ _ _
  | Applied task _ _ _ _ => Some task
  | _ => None
  end.

Record CoordinatorSettings := mkCoordinatorSettings {
  cs_subscriber_max_time_since_last_seen : Z;
  cs_leadership_max_duration : Z
}.

Record Cluster (L S T : Type) := mkCluster {
  cl_locks : L;
  cl_subscribers : S;
  cl_subscriptions : T;
  cl_phases : gmap nat Phase
}.
Arguments mkCluster {_ _ _} _ _ _ _.
Arguments cl_locks {_ _ _} _.
Arguments cl_subscribers {_ _ _} _.
Arguments cl_subscriptions {_ _ _} _.
Arguments cl_phases {_ _ _} _.

Section cluster.
Context `{SetOrder} {L S T : Type} `{TryLocks L} `{EventSubscriberStateStore S}.
(** Each node has a store object of its own for the subscriptions they share. *)
Context (stores : nat -> EventSubscriptionStateStore T) (settings : nat -> CoordinatorSettings).
Notation Cluster := (Cluster L S T).

Definition set_phase (node : nat) (phase : Phase) (c : Cluster) : Cluster :=
  mkCluster (cl_locks c) (cl_subscribers c) (cl_subscriptions c) (<[node := phase]> (cl_phases c)).
Definition set_locks (l : L) (c : Cluster) : Cluster :=
  mkCluster l (cl_subscribers c) (cl_subscriptions c) (cl_phases c).
Definition set_cluster_subscribers (s : S) (c : Cluster) : Cluster :=
  mkCluster (cl_locks c) s (cl_subscriptions c) (cl_phases c).
Definition set_cluster_subscriptions (t : T) (c : Cluster) : Cluster :=
  mkCluster (cl_locks c) (cl_subscribers c) t (cl_phases c).

(** Out of the [async with]. *)
Definition leave_lock (node task : nat) (status : ProcessStatus) (next : AfterLock) (c : Cluster) :
    Cluster :=
  set_phase node (LeftLock status next) (set_locks (tk_leave task (cl_locks c)) c).

Definition after_lock (next : AfterLock) : Phase :=
  match next with ToWaiting => Waiting | ToStopped => Stopped | ToErrored => Errored end.

(** From one [await] to the next: [monotonic] and [now] are the node's clocks. *)
Definition advance (node : nat) (monotonic now : Z) (c : Cluster) : Cluster :=
  match cl_phases c !! node with
  | None | Some Stopped | Some Errored => c
  | Some Initialised => set_phase node Waiting c
  | Some Waiting =>
      let '(task, locked, l) := tk_enter LOCK_NAME (cl_locks c) in
      set_phase node (if locked then Leading task monotonic else Refused task) (set_locks l c)
  | Some (Refused task) => leave_lock node task WAITING ToWaiting c
  | Some (LeftLock _ next) => set_phase node (after_lock next) c
  | Some (Leading task lock_acquired) =>
      if (cs_leadership_max_duration (settings node) <? monotonic - lock_acquired)%Z
      then leave_lock node task RUNNING ToWaiting c
      else match @sp_list T (stores node) (cl_subscriptions c) with
        | (Ok subscriptions, t) =>
            set_phase node (Listed task lock_acquired subscriptions)
              (set_cluster_subscriptions t c)
        | (Raise _, t) => leave_lock node task RUNNING ToErrored (set_cluster_subscriptions t c)
        end
  | Some (Listed task lock_acquired subscriptions) =>
      match sb_list None (Some (cs_subscriber_max_time_since_last_seen (settings node))) now
          (cl_subscribers c) with
      | (Ok subscribers, s) =>
          match distribution_changes subscriptions subscribers with
          | Ok changes =>
              set_phase node (Planned task lock_acquired subscriptions subscribers changes)
                (set_cluster_subscribers s c)
          | Raise _ => leave_lock node task RUNNING ToErrored (set_cluster_subscribers s c)
          end
      | (Raise _, s) => leave_lock node task RUNNING ToErrored (set_cluster_subscribers s c)
      end
  | Some (Planned task lock_acquired subscriptions subscribers changes) =>
      match @sp_apply T (stores node) changes (cl_subscriptions c) with
      | (Ok _, t) =>
          set_phase node (Applied task lock_acquired subscriptions subscribers changes)
            (set_cluster_subscriptions t c)
      | (Raise _, t) => leave_lock node task RUNNING ToErrored (set_cluster_subscriptions t c)
      end
  | Some (Applied task lock_acquired _ _ _) =>
      match @sp_list T (stores node) (cl_subscriptions c) with
      | (Ok _, t) => set_phase node (Leading task lock_acquired) (set_cluster_subscriptions t c)
      | (Raise _, t) => leave_lock node task RUNNING ToErrored (set_cluster_subscriptions t c)
      end
  end.

(** [CancelledError] at an [await]: the lock is left, the status is stopped. *)
Definition cancel (node : nat) (c : Cluster) : Cluster :=
  match cl_phases c !! node with
  | None | Some Initialised | Some Stopped | Some Errored
  | Some (LeftLock _ ToStopped) | Some (LeftLock _ ToErrored) => c
  | Some phase =>
      match body_task phase with
      | Some task => leave_lock node task (coordinator_status phase) ToStopped c
      | None => set_phase node Stopped c
      end
  end.
End cluster.

(** ** The cluster *)
Section theory.
Context {Horder : SetOrder} {L S T : Type} {Htry : TryLocks L} {Hlocks : TryLocksLaws L}.
Context {Hstore : EventSubscriberStateStore S} {Hsubscribers : SubscriberStoreLaws S}.
Context (stores : nat -> EventSubscriptionStateStore T) (settings : nat -> CoordinatorSettings).
Context {Hstores : forall node, @SubscriptionStoreLaws T (stores node)}.
Notation Cluster := (Cluster L S T).
Abbreviation holds node := (@sp_holds T (stores node) (Hstores node)).

(** The nodes' stores are of the same subscriptions, and take what the coordinator writes. *)
Context (holds_shared : forall i j t d, holds i t d -> holds j t d).
Context (kept_accepted : forall node (s : EventSubscriberState), sb_kept s ->
  @sp_accepts_key T (stores node) (Hstores node) (subscriber_key s) /\
  Forall (@sp_accepts_source T (stores node) (Hstores node)) (ss_requests s)).

(** What happens in a cluster: a node comes, goes on, or is cancelled; subscribers come, go
    and send heartbeats; observers list subscriptions; others use locks. Nobody else writes
    subscriptions, and nobody else leaves a coordinator's lock. *)
Inductive cluster_step : Cluster -> Cluster -> Prop :=
  | node_comes node c :
      cl_phases c !! node = None -> cluster_step c (set_phase node Initialised c)
  | node_advances node monotonic now c :
      cluster_step c (advance stores settings node monotonic now c)
  | node_cancelled node c : cluster_step c (cancel node c)
  | subscribers_change s c : sb_holds s -> cluster_step c (set_cluster_subscribers s c)
  | subscriptions_read t c :
      (forall node d, holds node (cl_subscriptions c) d -> holds node t d) ->
      cluster_step c (set_cluster_subscriptions t c)
  | locks_used l c :
      tk_holds l -> (forall i, tk_used (cl_locks c) i -> tk_used l i) ->
      (forall node phase task name, cl_phases c !! node = Some phase ->
        body_task phase = Some task -> tk_held l task name <-> tk_held (cl_locks c) task name) ->
      cluster_step c (set_locks l c).

(** A cluster before any node has come. *)
Record new_cluster (c : Cluster) : Prop := {
  nc_locks : tk_holds (cl_locks c);
  nc_subscribers : sb_holds (cl_subscribers c);
  nc_subscriptions : exists d, (forall node, holds node (cl_subscriptions c) d) /\
    sources_disjoint d;
  nc_phases : cl_phases c = ∅
}.

(** With the lock, and since when. *)
Definition leader_since (phase : Phase) : option (nat * Z) :=
  match phase with
  | Leading task acquired | Applied task acquired _ _ _ | Planned task acquired _ _ _
  | Listed task acquired _ => Some (task, acquired)
  | _ => None
  end.
Definition is_leading (phase : Phase) : Prop := is_Some (leader_since phase).
Definition fails (phase : Phase) : bool :=
  match phase with Errored | LeftLock _ ToErrored => true | _ => false end.

(** The locals of a coordinator, against the subscriptions there are. *)
Definition phase_ok (d : Subscriptions) (phase : Phase) : Prop :=
  match phase with
  | Listed _ _ l => listed d l
  | Planned _ _ l live changes =>
      listed d l /\ NoDup (subscriber_key <$> live) /\ Forall sb_kept live /\
      distribution_changes l live = Ok changes
  | Applied _ _ l live _ => exists before, listed before l /\ partitioned live before d
  | _ => True
  end.

Record tasks_ok (l : L) (phases : gmap nat Phase) : Prop := {
  to_locks : tk_holds l;
  to_used : forall node phase task, phases !! node = Some phase ->
    body_task phase = Some task -> tk_used l task;
  to_own : forall n1 n2 p1 p2 task, phases !! n1 = Some p1 -> phases !! n2 = Some p2 ->
    body_task p1 = Some task -> body_task p2 = Some task -> n1 = n2;
  to_leading : forall node phase task, phases !! node = Some phase ->
    body_task phase = Some task -> is_leading phase -> tk_held l task LOCK_NAME
}.

Record data_ok (s : S) (t : T) (phases : gmap nat Phase) : Prop := {
  do_subscribers : sb_holds s;
  do_subscriptions : exists d, (forall node, holds node t d) /\ sources_disjoint d /\
    forall node phase, phases !! node = Some phase -> phase_ok d phase;
  do_healthy : forall node phase, phases !! node = Some phase -> fails phase = false
}.

Record cluster_ok (c : Cluster) : Prop := {
  co_tasks : tasks_ok (cl_locks c) (cl_phases c);
  co_data : data_ok (cl_subscribers c) (cl_subscriptions c) (cl_phases c)
}.

Lemma leading_task phase : is_leading phase -> exists task, body_task phase = Some task.
Proof. intros [? ?]. destruct phase; try done; by eexists. Qed.

Lemma one_leading l phases n1 n2 p1 p2 :
  tasks_ok l phases -> phases !! n1 = Some p1 -> phases !! n2 = Some p2 ->
  is_leading p1 -> is_leading p2 -> n1 = n2.
Proof.
  intros Hl H1 H2 L1 L2. destruct (leading_task p1 L1) as [t1 E1], (leading_task p2 L2) as [t2 E2].
  assert (t1 = t2) as ->.
  { apply (tk_exclusive l _ _ LOCK_NAME); [apply Hl| |].
    - by apply (to_leading l phases Hl n1 p1).
    - by apply (to_leading l phases Hl n2 p2). }
  by apply (to_own l phases Hl n1 n2 p1 p2 t2).
Qed.

(** *** Locks *)

(** A phase that is in the same [async with], or in none. *)
Lemma tasks_same l phases node phase phase' :
  tasks_ok l phases -> phases !! node = Some phase ->
  body_task phase' = None \/
    body_task phase' = body_task phase /\ (is_leading phase' -> is_leading phase) ->
  tasks_ok l (<[node := phase']> phases).
Proof.
  intros [Hl Hused Hown Hlead] Hp Hbody.
  assert (forall n p task, <[node := phase']> phases !! n = Some p -> body_task p = Some task ->
    exists p', phases !! n = Some p' /\ body_task p' = Some task /\
      (is_leading p -> is_leading p')) as Hold.
  { intros n p task [[<- <-]|[Hn Hp']]%lookup_insert_Some Ht; [|by exists p].
    exists phase. destruct Hbody as [Hb|[Hb Hlead']]; [congruence|]. by rewrite <-Hb. }
  split; [done|..].
  - intros n p task Hn Ht. destruct (Hold n p task Hn Ht) as (p' & ? & ? & _). by eapply Hused.
  - intros n1 n2 p1 p2 task H1 H2 T1 T2.
    destruct (Hold n1 p1 task H1 T1) as (? & ? & ? & _), (Hold n2 p2 task H2 T2) as (? & ? & ? & _).
    by eapply Hown.
  - intros n p task Hn Ht Hl'. destruct (Hold n p task Hn Ht) as (p' & ? & ? & ?).
    eapply Hlead; [done|done|auto].
Qed.

Lemma tasks_new l phases node phase :
  tasks_ok l phases -> phases !! node = None -> body_task phase = None ->
  tasks_ok l (<[node := phase]> phases).
Proof.
  intros [Hl Hused Hown Hlead] Hnode Hbody.
  assert (forall n p task, <[node := phase]> phases !! n = Some p -> body_task p = Some task ->
    phases !! n = Some p) as Hold.
  { intros n p task [[<- <-]|[Hn Hp']]%lookup_insert_Some Ht; [congruence|done]. }
  split; [done|..].
  - intros n p task Hn Ht. by eapply Hused; [eapply Hold|].
  - intros n1 n2 p1 p2 task H1 H2 T1 T2. eapply Hown; [by eapply Hold|by eapply Hold|done..].
  - intros n p task Hn Ht. by eapply Hlead; [eapply Hold|].
Qed.

Lemma tasks_leave l phases node phase task phase' :
  tasks_ok l phases -> phases !! node = Some phase -> body_task phase = Some task ->
  body_task phase' = None -> tasks_ok (tk_leave task l) (<[node := phase']> phases).
Proof.
  intros [Hl Hused Hown Hlead] Hp Htask Hbody.
  destruct (tk_leave_law task l Hl) as (Hl' & Hused' & Hheld').
  assert (forall n p j, <[node := phase']> phases !! n = Some p -> body_task p = Some j ->
    phases !! n = Some p /\ j <> task) as Hold.
  { intros n p j [[<- <-]|[Hn Hp']]%lookup_insert_Some Hj; [congruence|]. split; [done|].
    intros ->. apply Hn. by eapply Hown. }
  split; [done|..].
  - intros n p j Hn Hj. apply Hused'. destruct (Hold n p j Hn Hj). by eapply Hused.
  - intros n1 n2 p1 p2 j H1 H2 T1 T2. destruct (Hold _ _ _ H1 T1), (Hold _ _ _ H2 T2).
    by eapply Hown.
  - intros n p j Hn Hj Hlead'. destruct (Hold _ _ _ Hn Hj). apply Hheld'. split; [done|].
    by eapply Hlead.
Qed.

Lemma tasks_enter l phases node task (locked : bool) l' phase :
  tasks_ok l phases -> phases !! node = Some Waiting ->
  tk_enter LOCK_NAME l = (task, locked, l') -> body_task phase = Some task ->
  (is_leading phase -> locked = true) -> tasks_ok l' (<[node := phase]> phases).
Proof.
  intros [Hl Hused Hown Hlead] Hp E Htask Hlocked.
  destruct (tk_enter_law _ _ _ _ _ Hl E) as (Hl' & Hnew & Hused' & Hheld' & _).
  assert (forall n p j, <[node := phase]> phases !! n = Some p -> body_task p = Some j ->
    n = node /\ p = phase /\ j = task \/ phases !! n = Some p /\ j <> task) as Hold.
  { intros n p j [[<- <-]|[Hn Hp']]%lookup_insert_Some Hj; [left; split_and!; congruence|right].
    split; [done|]. intros ->. apply Hnew. by eapply Hused. }
  split; [done|..].
  - intros n p j Hn Hj. apply Hused'. destruct (Hold n p j Hn Hj) as [(_ & _ & ->)|[? _]]; [by right|].
    left. by eapply Hused.
  - intros n1 n2 p1 p2 j H1 H2 T1 T2.
    destruct (Hold _ _ _ H1 T1) as [(-> & _ & ?)|[? ?]], (Hold _ _ _ H2 T2) as [(-> & _ & ?)|[? ?]];
      [done|congruence..|by eapply Hown].
  - intros n p j Hn Hj Hlead'. apply Hheld'.
    destruct (Hold _ _ _ Hn Hj) as [(_ & -> & ->)|[? ?]]; [right; auto|left; by eapply Hlead].
Qed.

(** *** Subscriptions *)

Lemma phase_ok_idle d phase : ~ is_leading phase -> phase_ok d phase.
Proof. unfold is_leading. intros Hidle. destruct phase; try done; destruct Hidle; by eexists. Qed.

Lemma data_phase s t phases d node phase :
  sb_holds s -> (forall i, holds i t d) -> sources_disjoint d ->
  (forall n p, phases !! n = Some p -> n <> node -> phase_ok d p) ->
  (forall n p, phases !! n = Some p -> fails p = false) -> phase_ok d phase -> fails phase = false ->
  data_ok s t (<[node := phase]> phases).
Proof.
  intros Hs Ht Hd Hothers Hhealthy Hphase Hne. split; [done| |].
  - exists d. split; [done|]. split; [done|].
    intros n p [[<- <-]|[Hn Hp]]%lookup_insert_Some; [done|]. apply (Hothers n); congruence.
  - intros n p [[_ <-]|[_ Hn]]%lookup_insert_Some; [done|by eapply Hhealthy].
Qed.

(** A phase that claims nothing of the subscriptions. *)
Lemma data_idle s t phases node phase :
  data_ok s t phases -> (forall d, phase_ok d phase) -> fails phase = false ->
  data_ok s t (<[node := phase]> phases).
Proof.
  intros [Hs (d & Ht & Hd & Hp) Hhealthy] Hphase Hne. apply data_phase with d; auto.
  intros n p Hn _. by eapply Hp.
Qed.

Lemma advance_leading c node task acquired monotonic now :
  cluster_ok c -> cl_phases c !! node = Some (Leading task acquired) ->
  cluster_ok (advance stores settings node monotonic now c).
Proof.
  intros [Htasks Hdata] E. unfold advance. rewrite E. destruct (_ <? _)%Z.
  { split; [by eapply tasks_leave|by apply data_idle]. }
  destruct Hdata as [Hs (d & Ht & Hd & Hp) Hhealthy].
  destruct (@sp_list_law T (stores node) (Hstores node) _ d (Ht node)) as (l & t' & -> & Ht' & Hl).
  split; cbn.
  - eapply tasks_same; [done|exact E|by right].
  - apply data_phase with d; try done; [intros i; by apply (holds_shared node)|].
    intros n p Hn _. by eapply Hp.
Qed.

Lemma advance_listed c node task acquired l monotonic now :
  cluster_ok c -> cl_phases c !! node = Some (Listed task acquired l) ->
  cluster_ok (advance stores settings node monotonic now c).
Proof.
  intros [Htasks Hdata] E. unfold advance. rewrite E.
  destruct Hdata as [Hs (d & Ht & Hd & Hp) Hhealthy]. pose proof (Hp _ _ E) as Hl. cbn in Hl.
  destruct (sb_list_law None (Some (cs_subscriber_max_time_since_last_seen (settings node))) now _
    Hs I) as (live & s' & -> & Hs' & _ & Hkept & Hlive & _).
  destruct (plan_ok (Hsubscriptions := Hstores node) (kept_accepted node) _ d l live (Ht node) Hd Hl
    Hlive Hkept) as (changes & Echanges & _). rewrite Echanges. split; cbn.
  - eapply tasks_same; [done|exact E|by right].
  - apply data_phase with d; try done. intros n p Hn _. by eapply Hp.
Qed.

Lemma advance_planned c node task acquired l live changes monotonic now :
  cluster_ok c -> cl_phases c !! node = Some (Planned task acquired l live changes) ->
  cluster_ok (advance stores settings node monotonic now c).
Proof.
  intros [Htasks Hdata] E. unfold advance. rewrite E.
  destruct Hdata as [Hs (d & Ht & Hd & Hp) Hhealthy].
  pose proof (Hp _ _ E) as (Hl & Hlive & Hkept & Echanges).
  destruct (plan_ok (Hsubscriptions := Hstores node) (kept_accepted node) _ d l live (Ht node) Hd Hl
    Hlive Hkept) as (changes' & Echanges' & Hnd & Hcan & Hacc).
  assert (changes' = changes) as -> by congruence.
  destruct (@sp_apply_law T (stores node) (Hstores node) changes _ d (Ht node) Hnd Hcan Hacc)
    as (t' & d' & -> & Ht' & Hd').
  pose proof (outcome_ok (Hsubscriptions := Hstores node) _ d l live changes d'
    (Ht node) Hd Hl Hlive Echanges Hd') as Hpart.
  split; cbn.
  - eapply tasks_same; [done|exact E|by right].
  - apply data_phase with d'; try done.
    + intros i. by apply (holds_shared node).
    + apply Hpart.
    + intros n p Hn Hne. apply phase_ok_idle. intros Hlead. apply Hne.
      apply (one_leading _ _ _ _ _ _ Htasks Hn E Hlead). by eexists.
    + exists d. done.
Qed.

Lemma advance_applied c node task acquired l live changes monotonic now :
  cluster_ok c -> cl_phases c !! node = Some (Applied task acquired l live changes) ->
  cluster_ok (advance stores settings node monotonic now c).
Proof.
  intros [Htasks Hdata] E. unfold advance. rewrite E.
  destruct Hdata as [Hs (d & Ht & Hd & Hp) Hhealthy].
  destruct (@sp_list_law T (stores node) (Hstores node) _ d (Ht node)) as (l' & t' & -> & Ht' & _).
  split; cbn.
  - eapply tasks_same; [done|exact E|by right].
  - apply data_phase with d; try done; [intros i; by apply (holds_shared node)|].
    intros n p Hn _. by eapply Hp.
Qed.

Lemma advance_ok c node monotonic now :
  cluster_ok c -> cluster_ok (advance stores settings node monotonic now c).
Proof.
  intros Hc. destruct (cl_phases c !! node) as [phase|] eqn:E;
    [|by unfold advance; rewrite E].
  destruct phase as [| | | | | | |status next| |]; [| | |by eapply advance_leading
    |by eapply advance_listed|by eapply advance_planned|by eapply advance_applied|
    |by unfold advance; rewrite E..];
    destruct Hc as [Htasks Hdata]; unfold advance; rewrite E.
  - split; cbn; [eapply tasks_same; [done|exact E|by left]|by apply data_idle].
  - destruct (tk_enter LOCK_NAME (cl_locks c)) as [[task locked] l] eqn:El.
    split; cbn; [|by destruct locked; apply data_idle].
    eapply tasks_enter; [done|done|exact El|by destruct locked|by destruct locked; [|intros [? ?]]].
  - split; cbn; [by eapply tasks_leave|by apply data_idle].
  - pose proof (do_healthy _ _ _ Hdata _ _ E) as Hnext. split; cbn.
    + eapply tasks_same; [done|exact E|left; by destruct next].
    + apply data_idle; [done|by destruct next|by destruct next].
Qed.

Lemma cancel_ok c node : cluster_ok c -> cluster_ok (cancel node c).
Proof.
  intros Hc. unfold cancel. destruct (cl_phases c !! node) as [phase|] eqn:E; [|done].
  assert (cluster_ok (match body_task phase with
    | Some task => leave_lock node task (coordinator_status phase) ToStopped c
    | None => set_phase node Stopped c end)) as Hok.
  { destruct Hc as [Htasks Hdata]. destruct (body_task phase) as [task|] eqn:Etask; split; cbn;
      try by apply data_idle.
    - by eapply tasks_leave.
    - eapply tasks_same; [done|exact E|by left]. }
  destruct phase as [| | | | | | |status []| |]; done.
Qed.

Lemma step_ok c c' : cluster_ok c -> cluster_step c c' -> cluster_ok c'.
Proof.
  intros Hc Hstep. destruct Hstep as [node c Hnode|node m now c|node c|s c Hs|t c Ht|l c Hl Hused Hheld];
    [|by apply advance_ok|by apply cancel_ok| | |]; destruct Hc as [Htasks Hdata].
  - split; cbn; [by apply tasks_new|by apply data_idle].
  - split; [done|]. destruct Hdata as [_ Hd Hhealthy]. by split.
  - split; [done|]. destruct Hdata as [Hs (d & Hd & Hdis & Hp) Hhealthy]. split; [done| |done].
    exists d. split; [|done]. intros i. by apply Ht.
  - split; [|done]. destruct Htasks as [Hl0 Hused0 Hown Hlead]. split; [done|..]; cbn.
    + intros n p task Hn Hbody. by eapply Hused, Hused0.
    + done.
    + intros n p task Hn Hbody Hlead'. rewrite Hheld by done. by eapply Hlead.
Qed.

Lemma steps_ok c c' : cluster_ok c -> rtc cluster_step c c' -> cluster_ok c'.
Proof. intros Hc Hsteps. induction Hsteps; [done|]. eauto using step_ok. Qed.

Lemma new_cluster_ok c : new_cluster c -> cluster_ok c.
Proof.
  intros [Hl Hs (d & Hd & Hdis) Hp]. split; split; try done; rewrite Hp.
  1-3: by intros *; rewrite lookup_empty.
  - exists d. split; [done|]. split; [done|]. by intros n p; rewrite lookup_empty.
  - intros n p. by rewrite lookup_empty.
Qed.

Lemma reachable_ok c0 c : new_cluster c0 -> rtc cluster_step c0 c -> cluster_ok c.
Proof. intros Hc0. apply steps_ok. by apply new_cluster_ok. Qed.

(** A coordinator without the lock writes no subscriptions, nor does one that is cancelled. *)
Lemma follower_keeps node phase monotonic now c :
  cl_phases c !! node = Some phase -> ~ is_leading phase ->
  cl_subscriptions (advance stores settings node monotonic now c) = cl_subscriptions c.
Proof.
  intros Hp Hno. unfold advance. rewrite Hp.
  destruct phase; try done; try (by destruct Hno; eexists).
  by destruct (tk_enter LOCK_NAME (cl_locks c)) as [[task locked] l].
Qed.

Lemma cancel_keeps node (c : Cluster) : cl_subscriptions (cancel node c) = cl_subscriptions c.
Proof. unfold cancel. by repeat case_match. Qed.

(** C11. At most one coordinator of a cluster leads, from getting the lock to leaving it, and only
    a leader changes the subscriptions: what any other coordinator does next, and cancelling any
    of them, leaves them as they are. Nodes and subscribers come and go and observers read the
    subscriptions in any order. Of the lock manager it needs the laws of [TryLocks], and of its
    other users that they leave alone what the coordinators hold: they neither release a lock
    that is not theirs, nor replace it, as [wait_for_lock] for the coordinators' name does in
    memory. *)
Theorem one_leader c0 c n1 n2 p1 p2 :
  new_cluster c0 -> rtc cluster_step c0 c ->
  cl_phases c !! n1 = Some p1 -> cl_phases c !! n2 = Some p2 ->
  (is_leading p1 -> is_leading p2 -> n1 = n2) /\
  (~ is_leading p1 -> forall monotonic now,
    cl_subscriptions (advance stores settings n1 monotonic now c) = cl_subscriptions c) /\
  cl_subscriptions (cancel n1 c) = cl_subscriptions c.
Proof.
  intros Hc0 Hsteps H1 H2. split_and!.
  - by apply (one_leading (cl_locks c) (cl_phases c)); [apply (reachable_ok c0 c Hc0 Hsteps)|..].
  - intros Hno monotonic now. by apply follower_keeps with p1.
  - apply cancel_keeps.
Qed.

(** C12. In a cluster whose stores and locks keep their laws no coordinator fails: as long as
    listing works, since every subscriber in the store is one it can read back (on Postgres, one
    that requests no partition), nobody but coordinators writes subscriptions, and other users of
    locks leave alone what coordinators hold, the changes a leader computed can still be made when
    it comes to apply them, since nobody changed the subscriptions since it listed them. No source
    is ever in two subscriptions of a group, and while a leader has just applied its changes the
    subscriptions are the partition it was after, for the live subscribers it saw. *)
Theorem leaders_never_fail c0 c :
  new_cluster c0 -> rtc cluster_step c0 c ->
  (forall node phase, cl_phases c !! node = Some phase -> fails phase = false) /\
  exists d, (forall node, holds node (cl_subscriptions c) d) /\ sources_disjoint d /\
    forall node task acquired l live changes,
      cl_phases c !! node = Some (Applied task acquired l live changes) ->
      exists before, listed before l /\ partitioned live before d.
Proof.
  intros Hc0 Hsteps. destruct (reachable_ok c0 c Hc0 Hsteps) as [_ [_ (d & Hd & Hdis & Hp) Hhealthy]].
  split.
  - exact Hhealthy.
  - exists d. split; [done|]. split; [done|]. intros * Happlied. by apply (Hp _ _ Happlied).
Qed.

(** *** Handing over *)

Fixpoint advances (node : nat) (monotonic now : Z) (k : nat) (c : Cluster) : Cluster :=
  match k with
  | O => c
  | Datatypes.S k' =>
      advances node monotonic now k' (advance stores settings node monotonic now c)
  end.

(** How far a leader is from looking at the clock again. *)
Definition steps_left (phase : Phase) : nat :=
  match phase with
  | Leading _ _ => 1 | Applied _ _ _ _ _ => 2 | Planned _ _ _ _ _ => 3 | Listed _ _ _ => 4
  | _ => 0
  end.

(** A step of a leader that goes on. *)
Lemma leader_goes_on c a phase task acquired monotonic now :
  cluster_ok c -> cl_phases c !! a = Some phase -> leader_since phase = Some (task, acquired) ->
  (2 <= steps_left phase)%nat ->
  let c' := advance stores settings a monotonic now c in
  exists phase', cl_phases c' = <[a := phase']> (cl_phases c) /\ cl_locks c' = cl_locks c /\
    leader_since phase' = Some (task, acquired) /\
    Datatypes.S (steps_left phase') = steps_left phase.
Proof.
  intros Hc E Hsince Hsteps c'. pose proof (advance_ok c a monotonic now Hc) as [_ [_ _ Hhealthy]].
  specialize (Hhealthy a). unfold c', advance in *. rewrite E in *.
  destruct phase; try done; cbn in Hsince, Hsteps; injection Hsince as -> ->; [lia|..].
  - destruct (sb_list _ _ _ _) as [[live|e] s]; [|by cbn in Hhealthy; rewrite lookup_insert_eq in Hhealthy; specialize (Hhealthy _ eq_refl)].
    destruct (distribution_changes _ _);
      [|by cbn in Hhealthy; rewrite lookup_insert_eq in Hhealthy; specialize (Hhealthy _ eq_refl)]. by eexists.
  - destruct (sp_apply _ _) as [[?|e] t]; [|by cbn in Hhealthy; rewrite lookup_insert_eq in Hhealthy; specialize (Hhealthy _ eq_refl)].
    by eexists.
  - destruct (sp_list _) as [[?|e] t]; [|by cbn in Hhealthy; rewrite lookup_insert_eq in Hhealthy; specialize (Hhealthy _ eq_refl)].
    by eexists.
Qed.

Lemma leader_steps_down k c a phase task acquired monotonic now :
  cluster_ok c -> cl_phases c !! a = Some phase -> leader_since phase = Some (task, acquired) ->
  steps_left phase = k -> (cs_leadership_max_duration (settings a) < monotonic - acquired)%Z ->
  let c' := advances a monotonic now k c in
  cl_locks c' = tk_leave task (cl_locks c) /\
  cl_phases c' = <[a := LeftLock RUNNING ToWaiting]> (cl_phases c).
Proof.
  revert c phase. induction k as [|k IH]; intros c phase Hc E Hsince Hk Hlate.
  { by destruct phase. }
  cbn [advances]. destruct k as [|k].
  - destruct phase; try done. injection Hsince as -> ->. cbn. unfold advance. rewrite E.
    by rewrite (proj2 (Z.ltb_lt _ _) Hlate).
  - destruct (leader_goes_on c a phase task acquired monotonic now Hc E Hsince) as
      (phase' & Hp & Hl & Hsince' & Hk'); [lia|].
    destruct (IH (advance stores settings a monotonic now c) phase') as [Hl' Hp']; try done.
    + by apply advance_ok.
    + by rewrite Hp, lookup_insert_eq.
    + lia.
    + rewrite Hl', Hl, Hp', Hp. by rewrite insert_insert_eq.
Qed.

Lemma free_lock_is_taken c a b phase task c1 monotonic now :
  cluster_ok c -> cl_phases c !! a = Some phase -> is_leading phase -> body_task phase = Some task ->
  cl_locks c1 = tk_leave task (cl_locks c) -> cl_phases c1 !! b = Some Waiting ->
  exists task', cl_phases (advance stores settings b monotonic now c1) !! b =
    Some (Leading task' monotonic).
Proof.
  intros [[Hl _ _ Hlead] _] E Hphase Htask Hlocks1 Hb.
  destruct (tk_leave_law task (cl_locks c) Hl) as (Hl1 & _ & Hheld1).
  unfold advance. rewrite Hb, Hlocks1.
  destruct (tk_enter LOCK_NAME (tk_leave task (cl_locks c))) as [[task' locked] l'] eqn:Eenter.
  destruct (tk_enter_law _ _ _ _ _ Hl1 Eenter) as (_ & _ & _ & _ & Hrefused).
  destruct locked; [by exists task'; cbn; rewrite lookup_insert_eq|].
  destruct (Hrefused eq_refl) as (j & [Hj Hheld]%Hheld1). exfalso. apply Hj.
  apply (tk_exclusive (cl_locks c) _ _ LOCK_NAME Hl Hheld). by apply (Hlead a phase).
Qed.

(** C13. Leadership is handed over. A leader whose time is over finishes the distribution it is
    in and steps down at the next look at its clock, within four steps; one that is cancelled
    stops. Either way the next coordinator to try for the lock leads. *)
Theorem leadership_passes_on c0 c a b phase task acquired late now monotonic c1 :
  new_cluster c0 -> rtc cluster_step c0 c ->
  cl_phases c !! a = Some phase -> leader_since phase = Some (task, acquired) ->
  cl_phases c !! b = Some Waiting ->
  (c1 = cancel a c \/
   (cs_leadership_max_duration (settings a) < late - acquired)%Z /\
   c1 = advances a late now (steps_left phase) c) ->
  (steps_left phase <= 4)%nat /\
  (exists p, cl_phases c1 !! a = Some p /\ ~ is_leading p) /\
  exists task', cl_phases (advance stores settings b monotonic now c1) !! b =
    Some (Leading task' monotonic).
Proof.
  intros Hc0 Hsteps E Hsince Hb Hc1. pose proof (reachable_ok c0 c Hc0 Hsteps) as Hc.
  assert (body_task phase = Some task /\ is_leading phase /\ (steps_left phase <= 4)%nat)
    as (Htask & Hlead & Hfour) by (destruct phase; try done; injection Hsince as -> ->;
      (split_and!; [done|by eexists|cbn; lia])).
  assert (a <> b) as Hab by (intros ->; rewrite E in Hb; by injection Hb as ->).
  assert (exists p, ~ is_leading p /\ cl_locks c1 = tk_leave task (cl_locks c) /\
    cl_phases c1 = <[a := p]> (cl_phases c)) as (p & Hp & Hl1 & Hp1).
  { destruct Hc1 as [->|[Hlate ->]].
    - exists (LeftLock (coordinator_status phase) ToStopped). split; [by intros [? ?]|].
      unfold cancel. rewrite E, Htask. by destruct phase.
    - exists (LeftLock RUNNING ToWaiting). split; [by intros [? ?]|]. by eapply leader_steps_down. }
  split; [done|]. split; [exists p; by rewrite Hp1, lookup_insert_eq|].
  apply (free_lock_is_taken c a b phase task); try done. by rewrite Hp1, lookup_insert_ne.
Qed.
End theory.

(** ** Locks in one process *)

(** A process in which every task uses [try_lock]. *)
#[export] Instance InMemoryTryLocks : TryLocks LockState := {|
  tk_enter := fun name st =>
    let id := fresh (dom (ls_tasks st)) in
    let '(object, st') := get_control name (set_task id (Entering Try name) st) in
    if is_locked object st'
    then (id, false, set_task id (InBody Try (mkLock name false false) object) st')
    else (id, true, set_task id (InBody Try (mkLock name true false) object)
      (set_object object true st'));
  tk_leave := fun id st =>
    match ls_tasks st !! id with
    | Some (InBody mode given object) => set_task id Left (leave mode given object st)
    | _ => st
    end
|}.

Definition only_try (st : LockState) : Prop :=
  forall id mode given object, ls_tasks st !! id = Some (InBody mode given object) -> mode = Try.

Lemma get_control_tasks name st object st' :
  get_control name st = (object, st') -> ls_tasks st' = ls_tasks st.
Proof. unfold get_control. destruct (ls_locks st !! name); by intros [= _ <-]. Qed.

Lemma leave_tasks mode given object st : ls_tasks (leave mode given object st) = ls_tasks st.
Proof. unfold leave. destruct (lk_locked given); [done|]. by destruct mode. Qed.

Lemma enter_memory name st i (locked : bool) st' :
  try_inv st /\ only_try st -> tk_enter name st = (i, locked, st') ->
  (try_inv st' /\ only_try st') /\ ls_tasks st !! i = None /\
  (exists object, ls_tasks st' =
    <[i := InBody Try (mkLock name locked false) object]> (ls_tasks st)) /\
  (locked = false -> exists j, holds_lock st j name).
Proof.
  intros [Hinv Honly]. cbn. set (id := fresh (dom (ls_tasks st))).
  assert (ls_tasks st !! id = None) as Hid by apply not_elem_of_dom, is_fresh.
  set (st1 := set_task id (Entering Try name) st).
  assert (try_inv st1) as Hinv1 by by eapply try_step_inv; [|apply try_start].
  assert (ls_tasks st1 !! id = Some (Entering Try name)) as Hid1 by apply lookup_insert_eq.
  destruct (get_control name st1) as [object st2] eqn:Ec.
  pose proof (get_control_tasks _ _ _ _ Ec) as Ht.
  pose proof (try_step_inv _ _ Hinv1 (try_enter st1 id name object st2 Hid1 Ec)) as Hinv'.
  pose proof (refused_held _ _ _ _ Hinv1 Ec) as Hrefused.
  destruct (is_locked object st2); intros [= <- <- <-];
    (split; [split; [done|]|split; [done|split; [exists object; cbn; rewrite Ht; cbn;
      by rewrite insert_insert_eq|]]]); try done.
  1,3: intros j mode given o; cbn; rewrite Ht; cbn; rewrite insert_insert_eq;
    intros [[_ [= <- _ _]]|[_ Hj]]%lookup_insert_Some; [done|by eapply Honly].
  intros _. destruct (proj1 Hrefused eq_refl) as (j & mode & o & Hj).
  exists j, mode, o. cbn in Hj. apply lookup_insert_Some in Hj as [[_ [=]]|[_ Hj]]. done.
Qed.

Lemma leave_memory i st :
  try_inv st /\ only_try st ->
  (try_inv (tk_leave i st) /\ only_try (tk_leave i st)) /\
  (forall j, is_Some (ls_tasks (tk_leave i st) !! j) <-> is_Some (ls_tasks st !! j)) /\
  forall j name, holds_lock (tk_leave i st) j name <-> j <> i /\ holds_lock st j name.
Proof.
  intros [Hinv Honly]. cbn.
  destruct (ls_tasks st !! i) as [[m n|m n o|mode given object|]|] eqn:Ei.
  3: { pose proof (Honly _ _ _ _ Ei) as ->. split; [split; [by apply leave_inv|]|split].
    - intros j mode g o. cbn. rewrite leave_tasks.
      intros [[_ [=]]|[_ Hj]]%lookup_insert_Some. by eapply Honly.
    - intros j. cbn. rewrite leave_tasks, lookup_insert_is_Some'. split; [|by right].
      intros [->|?]; [by eexists|done].
    - intros j name. unfold holds_lock. cbn. rewrite leave_tasks.
      setoid_rewrite lookup_insert_Some. naive_solver. }
  all: split; [done|]; (split; [done|]); intros j lock_name; (split; [|by intros [_ ?]]);
    intros Hj; (split; [|done]); intros ->; destruct Hj as (? & ? & Hj); congruence.
Qed.

#[export, refine] Instance InMemoryTryLocks_laws : TryLocksLaws LockState := {|
  tk_holds := fun st => try_inv st /\ only_try st;
  tk_used := fun st i => is_Some (ls_tasks st !! i);
  tk_held := holds_lock
|}.
Proof.
  - intros st i j name [Hinv _]. by apply held_once.
  - intros lock_name st i locked st' Hst E.
    destruct (enter_memory lock_name st i locked st' Hst E) as (Hst' & Hi & (object & Ht) & Hrefused).
    split_and!; [apply Hst'..|by rewrite Hi; intros [? [=]]| | |done].
    + intros j. rewrite Ht, lookup_insert_is_Some'. naive_solver.
    + intros j. unfold holds_lock. rewrite Ht. setoid_rewrite lookup_insert_Some.
      split; [naive_solver|]. intros [(mode & o & Hj)|(-> & ->)]; [|eauto 6].
      exists mode, o. right. split; [|done]. intros <-. congruence.
  - intros i st. apply leave_memory.
Defined.

(** ** Witnesses *)
Module cluster_examples.
#[local] Existing Instance insertion_order.

Definition stores (_ : nat) : EventSubscriptionStateStore SubscriptionStateStore :=
  InMemoryEventSubscriptionStateStore.
Definition settings (_ : nat) : CoordinatorSettings := mkCoordinatorSettings 60 900.
#[local] Instance stores_laws (node : nat) : @SubscriptionStoreLaws _ (stores node) :=
  SubscriptionStateStore_laws.

Lemma stores_shared i j t d :
  @sp_holds _ (stores i) (stores_laws i) t d -> @sp_holds _ (stores j) (stores_laws j) t d.
Proof. done. Qed.

Lemma stores_accept node (s : EventSubscriberState) :
  sb_kept (S := SubscriberStateStore) s ->
  @sp_accepts_key _ (stores node) (stores_laws node) (subscriber_key s) /\
  Forall (@sp_accepts_source _ (stores node) (stores_laws node)) (ss_requests s).
Proof. exact (memory_accepts s). Qed.

Abbreviation MemoryCluster := (Cluster LockState SubscriberStateStore SubscriptionStateStore).

Definition no_nodes : MemoryCluster :=
  mkCluster initial_locks three_subscribers two_subscriptions ∅.

Lemma no_nodes_new : new_cluster stores no_nodes.
Proof.
  split; [split; [apply initial_inv|]| | |done].
  - intros id mode given object. cbn. by rewrite lookup_empty.
  - apply (bool_decide_unpack _). reflexivity.
  - exists (memory_subscriptions two_subscriptions). split; [|exact no_shared_source].
    intros node. split; [apply two_subscriptions_ok..|done].
Qed.

Definition goes (node : nat) (monotonic : Z) (c : MemoryCluster) : MemoryCluster :=
  advance stores settings node monotonic 100 c.

(** Node 1 gets the lock and lists the subscriptions; then node 2 tries and is refused. *)
Definition listed_by_1 : MemoryCluster :=
  goes 2 12 (goes 1 11 (goes 1 10 (goes 2 1 (goes 1 1
    (set_phase 2 Initialised (set_phase 1 Initialised no_nodes)))))).

Lemma listed_reachable : rtc (cluster_step stores settings) no_nodes listed_by_1.
Proof.
  apply rtc_l with (set_phase 1 Initialised no_nodes); [by apply node_comes|].
  eapply rtc_l; [by apply (node_comes _ _ 2)|]. unfold listed_by_1, goes.
  repeat (eapply rtc_r; [|apply node_advances]). reflexivity.
Qed.

Lemma one_leader_witness :
  rtc (cluster_step stores settings) no_nodes listed_by_1 /\
  coordinator_status <$> (cl_phases listed_by_1 !! 1%nat) = Some RUNNING /\
  coordinator_status <$> (cl_phases listed_by_1 !! 2%nat) = Some WAITING /\
  forall n p, cl_phases listed_by_1 !! n = Some p -> is_leading p -> n = 1%nat.
Proof.
  split; [exact listed_reachable|]. split; [vm_compute; reflexivity|].
  split; [vm_compute; reflexivity|]. intros n p Hn Hp.
  destruct (cl_phases listed_by_1 !! 1%nat) as [p1|] eqn:E1; [|vm_compute in E1; discriminate E1].
  apply (one_leader stores settings stores_shared stores_accept no_nodes listed_by_1 n 1 p p1
    no_nodes_new listed_reachable Hn E1); [exact Hp|].
  vm_compute in E1. injection E1 as <-. by eexists.
Defined.

(** Node 1 distributes while node 2 leaves and tries again. *)
Definition applied_by_1 : MemoryCluster := goes 1 13 (goes 2 13 (goes 1 12 (goes 2 12 listed_by_1))).

Lemma applied_reachable : rtc (cluster_step stores settings) no_nodes applied_by_1.
Proof.
  unfold applied_by_1. do 4 (eapply rtc_r; [|apply node_advances]).
  exact listed_reachable.
Qed.

Lemma leaders_never_fail_witness :
  exists task acquired l live changes d,
    cl_phases applied_by_1 !! 1%nat = Some (Applied task acquired l live changes) /\
    memory_holds (cl_subscriptions applied_by_1) d /\
    exists before, listed before l /\ partitioned live before d.
Proof.
  destruct (leaders_never_fail stores settings stores_shared stores_accept
    no_nodes applied_by_1 no_nodes_new applied_reachable) as (_ & d & Hd & _ & Hp).
  do 5 eexists. exists d. split; [vm_compute; reflexivity|]. split; [exact (Hd 1%nat)|].
  eapply (Hp 1%nat). vm_compute. reflexivity.
Defined.

(** The leader dies between listing and applying. *)
Lemma leadership_passes_on_witness :
  exists task', cl_phases (goes 2 20 (cancel 1 (goes 2 12 (goes 2 12 listed_by_1)))) !! 2%nat =
    Some (Leading task' 20).
Proof.
  assert (rtc (cluster_step stores settings) no_nodes (goes 2 12 (goes 2 12 listed_by_1))) as Hsteps.
  { do 2 (eapply rtc_r; [|apply node_advances]). exact listed_reachable. }
  destruct (leadership_passes_on stores settings stores_shared stores_accept
    no_nodes (goes 2 12 (goes 2 12 listed_by_1)) 1 2 (Listed 0 10 (list_subscriptions two_subscriptions)) 0 10
    0 100 20 (cancel 1 (goes 2 12 (goes 2 12 listed_by_1)))) as (_ & _ & Hlead).
  - exact no_nodes_new.
  - exact Hsteps.
  - vm_compute. reflexivity.
  - reflexivity.
  - vm_compute. reflexivity.
  - left. reflexivity.
  - exact Hlead.
Defined.
End cluster_examples.
