(* ===== verification/PostgresQuery.v ===== *)
(** The Postgres query builder of [persistence/postgres/query.py]: expressions, conditions
    and queries, and the parameterised text they are rendered to. *)
From S2P Require Import Prelude Values.

(** ** psycopg's composables and parameters

    A [sql.Composed] is the sequence of the parts it is made of: [+], [join] and [format] of
    that library build such sequences, and rendering concatenates the parts. How an
    identifier is quoted is left to the library. *)
Inductive Composable :=
  | SQL (text : string)
  | Identifier (name : string)
  | Placeholder.

Abbreviation Composed := (list Composable).

#[export] Instance Composable_eq_dec : EqDecision Composable.
Proof. solve_decision. Defined.

(** [separator.join(parts)]. *)
Fixpoint sql_join (separator : string) (parts : list Composed) : Composed :=
  match parts with
  | [] => []
  | [part] => part
  | part :: rest => part ++ SQL separator :: sql_join separator rest
  end.

(** The values the library passes as parameters: plain ones, those wrapped in [Jsonb], and
    datetimes. *)
Inductive Param :=
  | PValue (v : Val)
  | PJsonb (v : Val)
  | PDateTime (t : Z).

Definition PStr (s : string) : Param := PValue (VStr s).
Definition PInt (z : Z) : Param := PValue (VInt z).

(** [ParameterisedQuery] and [ParameterisedQueryFragment]. *)
Definition ParameterisedQuery : Type := Composed * list Param.
Definition ParameterisedQueryFragment : Type := option Composed * list Param.

(** [[f[0] for f in fragments if f[0] is not None]] and
    [[p for f in fragments for p in f[1]]]. *)
Definition sql_fragments (l : list ParameterisedQueryFragment) : list Composed := omap fst l.
Definition fragment_params (l : list ParameterisedQueryFragment) : list Param :=
  concat (snd <$> l).

Module postgres.

(** ** Operators and directions *)
Inductive ComparisonType := TEXT | JSONB.

Inductive Operator :=
  | EQUALS | NOT_EQUALS | GREATER_THAN | GREATER_THAN_OR_EQUAL | LESS_THAN
  | LESS_THAN_OR_EQUAL | IN | CONTAINS | REGEX_MATCHES | NOT_REGEX_MATCHES
  | IS_NULL | IS_NOT_NULL.

#[global] Instance Operator_eq_dec : EqDecision Operator.
Proof. solve_decision. Defined.

Definition operator_value (o : Operator) : string :=
  match o with
  | EQUALS => "=" | NOT_EQUALS => "!=" | GREATER_THAN => ">"
  | GREATER_THAN_OR_EQUAL => ">=" | LESS_THAN => "<" | LESS_THAN_OR_EQUAL => "<="
  | IN => "IN" | CONTAINS => "@>" | REGEX_MATCHES => "~" | NOT_REGEX_MATCHES => "!~"
  | IS_NULL => "IS NULL" | IS_NOT_NULL => "IS NOT NULL"
  end.

Definition comparison_type (o : Operator) : ComparisonType :=
  match o with
  | REGEX_MATCHES | NOT_REGEX_MATCHES | IS_NULL | IS_NOT_NULL => TEXT
  | _ => JSONB
  end.

Definition has_value (o : Operator) : bool :=
  match o with IS_NULL | IS_NOT_NULL => false | _ => true end.

Inductive SetQuantifier := ALL | DISTINCT.

Inductive SortDirection := ASC | DESC.

#[global] Instance SortDirection_eq_dec : EqDecision SortDirection.
Proof. solve_decision. Defined.

Definition direction_value (d : SortDirection) : string :=
  match d with ASC => "ASC" | DESC => "DESC" end.

(** [SortDirection.reverse]. *)
Definition reverse_direction (d : SortDirection) : SortDirection :=
  match d with DESC => ASC | ASC => DESC end.

(** ** The syntax

    Conditions refer to queries and queries to conditions, so the classes are one mutual
    family. A condition operand is an expression, an iterable of operands, or a query. *)
Inductive Expression :=
  | FunctionApplication (function_name : string) (arguments : list Expression)
  | Cast (expression : Expression) (typename : string)
  | ColumnReference (schema table : option string) (field : string)
  | Constant (value : Param)
  | Raw (sql : string)
  | StarExpression (star : Star)
  | ConditionExpression (condition : Condition)
with Star := mkStar (star_schema star_table : option string)
with Condition := mkCondition
    (_left _right : option ConditionOperand) (_operator : option Operator)
with ConditionOperand :=
  | OExpression (e : Expression)
  | OIterable (operands : list ConditionOperand)
  | OQuery (q : Query)
with ResultTarget := mkResultTarget (expression : Expression) (label : option string)
with Target :=
  | TResult (target : ResultTarget)
  | TStar (star : Star)
with SortBy := mkSortBy (expression : Expression) (direction : option SortDirection)
with Query := mkQuery
    (common_table_expressions : list (Query * string))
    (unions : option (list Query * SetQuantifier))
    (select_target_list : list Target)
    (from_tables : list string)
    (from_subqueries : list (Query * string))
    (where_conditions : list Condition)
    (sortby_list : list SortBy)
    (limit_value offset_value : option Z).

Definition column (field : string) : Expression := ColumnReference None None field.
Definition null : Expression := Raw "NULL".
Definition empty : Expression := Raw "".

(** ** Builders *)

(** [Condition._clone] and the methods that call it. *)
Definition condition : Condition := mkCondition None None None.
Definition left_operand (operand : ConditionOperand) (c : Condition) : Condition :=
  match c with mkCondition _ r o => mkCondition (Some operand) r o end.
Definition right_operand (operand : ConditionOperand) (c : Condition) : Condition :=
  match c with mkCondition l _ o => mkCondition l (Some operand) o end.
Definition with_operator (operator : Operator) (c : Condition) : Condition :=
  match c with mkCondition l r _ => mkCondition l r (Some operator) end.

(** [Condition().left(l).operator(operator).right(r)]. *)
Definition compare (l : ConditionOperand) (operator : Operator) (r : ConditionOperand)
    : Condition :=
  right_operand r (with_operator operator (left_operand l condition)).

Definition sortby_expression (s : SortBy) : Expression :=
  match s with mkSortBy e _ => e end.
Definition sortby_direction (s : SortBy) : option SortDirection :=
  match s with mkSortBy _ d => d end.
Definition is_ascending (s : SortBy) : bool :=
  match sortby_direction s with Some ASC | None => true | _ => false end.
Definition is_descending (s : SortBy) : bool :=
  match sortby_direction s with Some DESC => true | _ => false end.
Definition reverse_sortby (s : SortBy) : SortBy :=
  mkSortBy (sortby_expression s) (reverse_direction <$> sortby_direction s).

(** What [Query.select] accepts, and its conversion. *)
Inductive Selection :=
  | SelectStr (field : string)
  | SelectExpression (e : Expression)
  | SelectTarget (target : ResultTarget).

Definition to_result_target_or_star (selection : Selection) : Target :=
  match selection with
  | SelectStr field => TResult (mkResultTarget (column field) None)
  | SelectExpression e => TResult (mkResultTarget e None)
  | SelectTarget target => TResult target
  end.

Definition to_sortby (sortby : string + SortBy) : SortBy :=
  match sortby with inl field => mkSortBy (column field) None | inr s => s end.

(** [Query()] and [Query.union]. *)
Definition query : Query := mkQuery [] None [] [] [] [] [] None None.
Definition union (query1 query2 : Query) (more_queries : list Query) (mode : SetQuantifier)
    : Query :=
  mkQuery [] (Some (query1 :: query2 :: more_queries, mode)) [] [] [] [] [] None None.

Definition sortby_list (q : Query) : list SortBy :=
  match q with mkQuery _ _ _ _ _ _ s _ _ => s end.

(** The methods that [clone] a query with one field changed. *)
Definition with_query (subquery : Query) (name : string) (q : Query) : Query :=
  match q with mkQuery c u t f s w o l k =>
    mkQuery (c ++ [(subquery, name)]) u t f s w o l k end.
Definition select (target_list : list Selection) (q : Query) : Query :=
  match q with mkQuery c u t f s w o l k =>
    mkQuery c u (t ++ (to_result_target_or_star <$> target_list)) f s w o l k end.
Definition select_all (q : Query) : Query :=
  match q with mkQuery c u t f s w o l k =>
    mkQuery c u (t ++ [TStar (mkStar None None)]) f s w o l k end.
Definition from_table (table : string) (q : Query) : Query :=
  match q with mkQuery c u t f s w o l k => mkQuery c u t (f ++ [table]) s w o l k end.
Definition from_subquery (subquery : Query) (alias : string) (q : Query) : Query :=
  match q with mkQuery c u t f s w o l k =>
    mkQuery c u t f (s ++ [(subquery, alias)]) w o l k end.
Definition where_ (conditions : list Condition) (q : Query) : Query :=
  match q with mkQuery c u t f s w o l k => mkQuery c u t f s (w ++ conditions) o l k end.
Definition replace_order_by (sortbys : list (string + SortBy)) (q : Query) : Query :=
  match q with mkQuery c u t f s w _ l k =>
    mkQuery c u t f s w (to_sortby <$> sortbys) l k end.
Definition order_by (sortbys : list (string + SortBy)) (q : Query) : Query :=
  match q with mkQuery c u t f s w o l k =>
    mkQuery c u t f s w (o ++ (to_sortby <$> sortbys)) l k end.
Definition limit (value : option Z) (q : Query) : Query :=
  match q with mkQuery c u t f s w o _ k => mkQuery c u t f s w o value k end.
Definition offset (value : option Z) (q : Query) : Query :=
  match q with mkQuery c u t f s w o l _ => mkQuery c u t f s w o l value end.

(** ** Fragments

    Each [to_fragment] is cut into what it does with the fragments of its parts, below, and
    the recursion over the parts, [expression_to_fragment] and the functions with it. *)

Definition function_application_fragment (function_name : string)
    (argument_query_fragments : list ParameterisedQueryFragment) : ParameterisedQueryFragment :=
  (Some ([Identifier function_name; SQL "("]
         ++ sql_join ", " (sql_fragments argument_query_fragments) ++ [SQL ")"]),
   fragment_params argument_query_fragments).

Definition cast_fragment (expression_fragment : ParameterisedQueryFragment)
    (typename : string) : ParameterisedQueryFragment :=
  match expression_fragment with
  | (None, _) => expression_fragment
  | (Some sql, params) =>
      (Some ([SQL "CAST("] ++ sql ++ [SQL " AS "; Identifier typename; SQL ")"]), params)
  end.

Definition schema_without_table : Exn :=
  ValueError "Cannot resolve column reference with schema but no table.".

Definition column_reference_fragment (schema table : option string) (field : string)
    : res ParameterisedQueryFragment :=
  match schema, table with
  | Some _, None => Raise schema_without_table
  | Some schema, Some table =>
      Ok (Some [Identifier schema; SQL "."; Identifier table; SQL "."; Identifier field], [])
  | None, Some table => Ok (Some [Identifier table; SQL "."; Identifier field], [])
  | None, None => Ok (Some [Identifier field], [])
  end.

Definition star_fragment (star : Star) : res ParameterisedQueryFragment :=
  match star with
  | mkStar (Some _) None => Raise schema_without_table
  | mkStar (Some schema) (Some table) =>
      Ok (Some [Identifier schema; SQL "."; Identifier table; SQL "."; SQL "*"], [])
  | mkStar None (Some table) => Ok (Some [Identifier table; SQL "."; SQL "*"], [])
  | mkStar None None => Ok (Some [SQL "*"], [])
  end.

Definition result_target_fragment (expression_fragment : ParameterisedQueryFragment)
    (label : option string) : ParameterisedQueryFragment :=
  match label, expression_fragment with
  | Some label, (Some sql, params) => (Some (sql ++ [SQL " AS "; Identifier label]), params)
  | _, _ => expression_fragment
  end.

Definition constant_fragment (value : Param) : ParameterisedQueryFragment :=
  (Some [SQL "%s"], [value]).

Definition raw_fragment (sql : string) : ParameterisedQueryFragment := (Some [SQL sql], []).

Definition sortby_fragment (expression_fragment : ParameterisedQueryFragment)
    (direction : option SortDirection) : ParameterisedQueryFragment :=
  match expression_fragment, direction with
  | (Some sql, params), Some direction =>
      (Some (sql ++ [SQL " "; SQL (direction_value direction)]), params)
  | _, _ => expression_fragment
  end.

(** The branches of [Condition._operand_fragment] for a query and for an iterable. *)
Definition subquery_operand_fragment (query_fragment : ParameterisedQueryFragment)
    : ParameterisedQueryFragment :=
  match query_fragment with
  | (None, _) => (None, [])
  | (Some subquery, params) => (Some ([SQL "("] ++ subquery ++ [SQL ")"]), params)
  end.

Definition iterable_operand_fragment (fragments : list ParameterisedQueryFragment)
    : ParameterisedQueryFragment :=
  (Some ([SQL "("] ++ sql_join ", " (sql_fragments fragments) ++ [SQL ")"]),
   fragment_params fragments).

Definition not_fully_specified : Exn := ValueError "Condition not fully specified.".

Definition condition_fragment (left_fragment right_fragment : ParameterisedQueryFragment)
    (operator : Operator) : res ParameterisedQueryFragment :=
  match left_fragment, right_fragment with
  | (Some left_sql, left_params), (Some right_sql, right_params) =>
      Ok (Some (left_sql ++ [SQL " "; SQL (operator_value operator); SQL " "] ++ right_sql),
          left_params ++ right_params)
  | _, _ => Raise not_fully_specified
  end.

Definition no_fragment : ParameterisedQueryFragment := (None, []).

(** [Query._common_table_expressions_fragment] and the other parts of a query. *)
Definition cte_fragment (fragments : list (ParameterisedQueryFragment * string))
    : ParameterisedQueryFragment :=
  match fragments with
  | [] => no_fragment
  | _ =>
      let expressions :=
        omap (fun f : ParameterisedQueryFragment * string =>
          (fun sql => [Identifier f.2; SQL " AS ("] ++ sql ++ [SQL ")"]) <$> f.1.1) fragments in
      (Some (SQL "WITH " :: sql_join ", " expressions), fragment_params fragments.*1)
  end.

Definition union_fragment (unions : option (list ParameterisedQueryFragment * SetQuantifier))
    : ParameterisedQueryFragment :=
  match unions with
  | None => no_fragment
  | Some (fragments, mode) =>
      let clauses := (fun sql => [SQL "("] ++ sql ++ [SQL ")"]) <$> sql_fragments fragments in
      let union_part :=
        match mode with DISTINCT => " UNION DISTINCT " | ALL => " UNION ALL " end%string in
      (Some (sql_join union_part clauses), fragment_params fragments)
  end.

(** [_select_fragment], [_where_fragment] and [_order_by_fragment] all have this shape. *)
Definition clause_fragment (keyword separator : string)
    (fragments : list ParameterisedQueryFragment) : ParameterisedQueryFragment :=
  match fragments with
  | [] => no_fragment
  | _ => (Some (SQL keyword :: sql_join separator (sql_fragments fragments)),
          fragment_params fragments)
  end.

Definition select_fragment := clause_fragment "SELECT " ", ".
Definition where_fragment := clause_fragment "WHERE " " AND ".
Definition order_by_fragment := clause_fragment "ORDER BY " ", ".

Definition from_fragment (tables : list string)
    (subqueries : list (ParameterisedQueryFragment * string)) : ParameterisedQueryFragment :=
  match tables, subqueries with
  | [], [] => no_fragment
  | _, _ =>
      let table_from_parts := (fun table => [Identifier table]) <$> tables in
      let subquery_from_parts :=
        omap (fun f : ParameterisedQueryFragment * string =>
          (fun sql => [SQL "("] ++ sql ++ [SQL ") AS "; Identifier f.2]) <$> f.1.1)
          subqueries in
      (Some (SQL "FROM " :: sql_join ", " (table_from_parts ++ subquery_from_parts)),
       fragment_params subqueries.*1)
  end.

Definition limit_fragment (limit_value : option Z) : ParameterisedQueryFragment :=
  match limit_value with
  | None => no_fragment
  | Some limit => (Some [SQL "LIMIT %s"], [PInt limit])
  end.

Definition offset_fragment (offset_value : option Z) : ParameterisedQueryFragment :=
  match offset_value with
  | None => no_fragment
  | Some offset => (Some [SQL "OFFSET %s"], [PInt offset])
  end.

(** The clauses of [Query.to_fragment] that are there, separated by spaces. *)
Definition query_fragment (clauses : list ParameterisedQueryFragment)
    : ParameterisedQueryFragment :=
  (Some (sql_join " " (sql_fragments clauses)), fragment_params clauses).

(** [f] of the first components, in order. *)
Definition mapM_fst {A B C} (f : A -> res B) : list (A * C) -> res (list (B * C)) :=
  mapM (fun p => match p with (a, c) => b ← f a; Ok (b, c) end).

Definition mapM_union {A B} (f : A -> res B) (unions : option (list A * SetQuantifier))
    : res (option (list B * SetQuantifier)) :=
  match unions with
  | None => Ok None
  | Some (queries, mode) => fragments ← mapM f queries; Ok (Some (fragments, mode))
  end.

Fixpoint expression_to_fragment (e : Expression) : res ParameterisedQueryFragment :=
  match e with
  | FunctionApplication function_name arguments =>
      function_application_fragment function_name <$> mapM expression_to_fragment arguments
  | Cast expression typename =>
      fragment ← expression_to_fragment expression;
      Ok (cast_fragment fragment typename)
  | ColumnReference schema table field => column_reference_fragment schema table field
  | Constant value => Ok (constant_fragment value)
  | Raw sql => Ok (raw_fragment sql)
  | StarExpression star => star_fragment star
  | ConditionExpression condition => condition_to_fragment condition
  end
with condition_to_fragment (c : Condition) : res ParameterisedQueryFragment :=
  match c with
  | mkCondition (Some l) (Some r) (Some operator) =>
      left_fragment ← operand_to_fragment l;
      right_fragment ← operand_to_fragment r;
      condition_fragment left_fragment right_fragment operator
  | _ => Raise not_fully_specified
  end
with operand_to_fragment (o : ConditionOperand) : res ParameterisedQueryFragment :=
  match o with
  | OExpression e => expression_to_fragment e
  | OIterable operands => iterable_operand_fragment <$> mapM operand_to_fragment operands
  | OQuery q => subquery_operand_fragment <$> query_to_fragment q
  end
with target_to_fragment (t : Target) : res ParameterisedQueryFragment :=
  match t with
  | TResult (mkResultTarget expression label) =>
      fragment ← expression_to_fragment expression;
      Ok (result_target_fragment fragment label)
  | TStar star => star_fragment star
  end
with sortby_to_fragment (s : SortBy) : res ParameterisedQueryFragment :=
  match s with
  | mkSortBy expression direction =>
      fragment ← expression_to_fragment expression;
      Ok (sortby_fragment fragment direction)
  end
with query_to_fragment (q : Query) : res ParameterisedQueryFragment :=
  match q with
  | mkQuery ctes unions targets tables subqueries conditions sortbys limit offset =>
      cte_fragments ← mapM_fst query_to_fragment ctes;
      union_fragments ← mapM_union query_to_fragment unions;
      target_fragments ← mapM target_to_fragment targets;
      subquery_fragments ← mapM_fst query_to_fragment subqueries;
      condition_fragments ← mapM condition_to_fragment conditions;
      sortby_fragments ← mapM sortby_to_fragment sortbys;
      Ok (query_fragment
        [cte_fragment cte_fragments; union_fragment union_fragments;
         select_fragment target_fragments; from_fragment tables subquery_fragments;
         where_fragment condition_fragments; order_by_fragment sortby_fragments;
         limit_fragment limit; offset_fragment offset])
  end.

(** [Query.build]. *)
Definition build (q : Query) : res ParameterisedQuery :=
  fragment ← query_to_fragment q;
  match fragment with
  | (Some sql, params) => Ok (sql, params)
  | (None, _) => Raise (ValueError "Empty query.")
  end.
End postgres.
