(* ===== verification/PostgresQueryTheory.v ===== *)
(** Theory of the Postgres query builder: induction over its syntax, the agreement of
    placeholders and parameters, and the independence of the text from the parameters. *)
From Stdlib Require Import Ascii.
From S2P Require Import Prelude Values PostgresQuery.

(** ** Induction over the syntax *)
Section syntax_induction.
Variables (PE : postgres.Expression -> Prop) (PC : postgres.Condition -> Prop)
  (PO : postgres.ConditionOperand -> Prop) (PT : postgres.Target -> Prop)
  (PS : postgres.SortBy -> Prop) (PQ : postgres.Query -> Prop).
Import postgres.

Hypotheses
  (HFunction : forall n l, Forall PE l -> PE (FunctionApplication n l))
  (HCast : forall e t, PE e -> PE (Cast e t))
  (HColumn : forall s t f, PE (ColumnReference s t f))
  (HConstant : forall v, PE (Constant v)) (HRaw : forall s, PE (Raw s))
  (HStar : forall s, PE (StarExpression s))
  (HCondition : forall c, PC c -> PE (ConditionExpression c))
  (HCompare : forall l r o, from_option PO True l -> from_option PO True r ->
    PC (mkCondition l r o))
  (HOExpression : forall e, PE e -> PO (OExpression e))
  (HOIterable : forall l, Forall PO l -> PO (OIterable l))
  (HOQuery : forall q, PQ q -> PO (OQuery q))
  (HResult : forall e l, PE e -> PT (TResult (mkResultTarget e l)))
  (HTStar : forall s, PT (TStar s))
  (HSortBy : forall e d, PE e -> PS (mkSortBy e d))
  (HQuery : forall c u t f s w o l k,
    Forall (fun p => PQ p.1) c -> from_option (fun u => Forall PQ u.1) True u ->
    Forall PT t -> Forall (fun p => PQ p.1) s -> Forall PC w -> Forall PS o ->
    PQ (mkQuery c u t f s w o l k)).

Definition all_of {A} {P : A -> Prop} (f : forall a, P a) : forall l, Forall P l :=
  fix go l := match l with [] => Forall_nil_2 P | x :: l' => Forall_cons_2 P x l' (f x) (go l') end.
Definition all_fst {A B} {P : A -> Prop} (f : forall a, P a)
    : forall l : list (A * B), Forall (fun p => P p.1) l :=
  fix go l := match l with
  | [] => Forall_nil_2 _
  | (a, b) :: l' => Forall_cons_2 (fun p => P p.1) (a, b) l' (f a) (go l')
  end.

Fixpoint expression_rule (e : Expression) : PE e :=
  match e with
  | FunctionApplication n l => HFunction n l (all_of expression_rule l)
  | Cast e t => HCast e t (expression_rule e)
  | ColumnReference s t f => HColumn s t f
  | Constant v => HConstant v
  | Raw s => HRaw s
  | StarExpression s => HStar s
  | ConditionExpression c => HCondition c (condition_rule c)
  end
with condition_rule (c : Condition) : PC c :=
  match c with
  | mkCondition l r o =>
      HCompare l r o
        (match l with Some a => operand_rule a | None => I end)
        (match r with Some a => operand_rule a | None => I end)
  end
with operand_rule (o : ConditionOperand) : PO o :=
  match o with
  | OExpression e => HOExpression e (expression_rule e)
  | OIterable l => HOIterable l (all_of operand_rule l)
  | OQuery q => HOQuery q (query_rule q)
  end
with target_rule (t : Target) : PT t :=
  match t with
  | TResult (mkResultTarget e l) => HResult e l (expression_rule e)
  | TStar s => HTStar s
  end
with sortby_rule (s : SortBy) : PS s :=
  match s with mkSortBy e d => HSortBy e d (expression_rule e) end
with query_rule (q : Query) : PQ q :=
  match q with
  | mkQuery c u t f s w o l k =>
      HQuery c u t f s w o l k (all_fst query_rule c)
        (match u with Some (qs, _) => all_of query_rule qs | None => I end)
        (all_of target_rule t) (all_fst query_rule s) (all_of condition_rule w)
        (all_of sortby_rule o)
  end.

Lemma syntax_rule :
  (forall e, PE e) /\ (forall c, PC c) /\ (forall o, PO o) /\ (forall t, PT t) /\
  (forall s, PS s) /\ (forall q, PQ q).
Proof.
  exact (conj expression_rule (conj condition_rule (conj operand_rule
    (conj target_rule (conj sortby_rule query_rule))))).
Qed.
End syntax_induction.

(** ** Text

    How psycopg prints an identifier, and the text of a composable. *)
Class Psycopg := { quote_identifier : string -> string }.

Definition part_text `{Psycopg} (part : Composable) : string :=
  match part with
  | SQL text => text
  | Identifier name => quote_identifier name
  | Placeholder => "%s"
  end.

Fixpoint as_string `{Psycopg} (sql : Composed) : string :=
  match sql with [] => EmptyString | part :: rest => part_text part +:+ as_string rest end.

(** The placeholders [%s] of a text; [None] when some [%] does not begin one. *)
Fixpoint placeholders (text : string) : option nat :=
  match text with
  | EmptyString => Some 0
  | String "%"%char (String "s"%char rest) => S <$> placeholders rest
  | String "%"%char _ => None
  | String _ rest => placeholders rest
  end.

Lemma placeholders_plain a rest :
  a <> "%"%char -> placeholders (String a rest) = placeholders rest.
Proof. by destruct a as [[] [] [] [] [] [] [] []]. Qed.

Lemma placeholders_percent rest n :
  placeholders (String "%"%char rest) = Some n ->
  exists rest' m, rest = String "s"%char rest' /\ placeholders rest' = Some m /\ n = S m.
Proof.
  destruct rest as [|b rest]; [done|]. destruct (decide (b = "s"%char)) as [->|Hb].
  - cbn. destruct (placeholders rest) as [m|] eqn:Em; [|done]. intros [= <-]. by exists rest, m.
  - destruct b as [[] [] [] [] [] [] [] []]; cbn; congruence.
Qed.

Lemma placeholders_app s t n :
  placeholders s = Some n ->
  placeholders (s +:+ t) = (fun m => n + m)%nat <$> placeholders t.
Proof.
  revert n. induction s as [s IH] using (induction_ltof1 _ String.length); unfold ltof in IH.
  intros n Hn. destruct s as [|a s].
  { injection Hn as <-. change ("" +:+ t) with t. by destruct (placeholders t). }
  destruct (decide (a = "%"%char)) as [->|Ha].
  - apply placeholders_percent in Hn as (s' & m & -> & Hm & ->).
    specialize (IH s' ltac:(cbn; lia) m Hm).
    change (String _ (String _ s') +:+ t) with
      (String "%"%char (String "s"%char (s' +:+ t))).
    cbn. rewrite IH. by destruct (placeholders t).
  - rewrite placeholders_plain in Hn by done. specialize (IH s ltac:(cbn; lia) n Hn).
    change (String a s +:+ t) with (String a (s +:+ t)). by rewrite placeholders_plain.
Qed.

(** *** What a query prints besides its own keywords *)
Module names.
Import postgres.

Definition qualified (names : list (option string)) : list Composable :=
  Identifier <$> omap id names.

Definition names_of {A} (f : A -> list Composable) (l : list A) : list Composable :=
  concat (f <$> l).

Definition star_names (s : Star) : list Composable :=
  match s with mkStar schema table => qualified [schema; table] end.

Fixpoint expression_names (e : Expression) : list Composable :=
  match e with
  | FunctionApplication n l => Identifier n :: names_of expression_names l
  | Cast e t => Identifier t :: expression_names e
  | ColumnReference s t f => qualified [s; t; Some f]
  | Constant _ => []
  | Raw s => [SQL s]
  | StarExpression s => star_names s
  | ConditionExpression c => condition_names c
  end
with condition_names (c : Condition) : list Composable :=
  match c with
  | mkCondition l r _ =>
      match l with Some a => operand_names a | None => [] end ++
      match r with Some a => operand_names a | None => [] end
  end
with operand_names (o : ConditionOperand) : list Composable :=
  match o with
  | OExpression e => expression_names e
  | OIterable l => names_of operand_names l
  | OQuery q => query_names q
  end
with target_names (t : Target) : list Composable :=
  match t with
  | TResult (mkResultTarget e l) => qualified [l] ++ expression_names e
  | TStar s => star_names s
  end
with sortby_names (s : SortBy) : list Composable :=
  match s with mkSortBy e _ => expression_names e end
with query_names (q : Query) : list Composable :=
  match q with
  | mkQuery c u t f s w o _ _ =>
      names_of (fun p => match p with (q, n) => Identifier n :: query_names q end) c ++
      match u with Some (qs, _) => names_of query_names qs | None => [] end ++
      names_of target_names t ++ (Identifier <$> f) ++
      names_of (fun p => match p with (q, n) => Identifier n :: query_names q end) s ++
      names_of condition_names w ++ names_of sortby_names o
  end.
End names.

(** ** Placeholders and parameters *)
Section balance.
Context `{Psycopg}.

Definition plain (part : Composable) : Prop := placeholders (part_text part) = Some 0%nat.

(** The placeholders of the parts of [sql] add up to [n]. *)
Fixpoint carries (n : nat) (sql : Composed) : Prop :=
  match sql with
  | [] => n = 0%nat
  | part :: rest => exists k m,
      placeholders (part_text part) = Some k /\ carries m rest /\ n = (k + m)%nat
  end.

Lemma carries_text n sql : carries n sql -> placeholders (as_string sql) = Some n.
Proof.
  revert n. induction sql as [|part sql IH]; intros n; cbn; [by intros ->|].
  intros (k & m & Hk & Hm & ->). rewrite (placeholders_app _ _ _ Hk).
  by rewrite (IH m Hm).
Qed.

Lemma carries_plain part n sql : plain part -> carries n sql -> carries n (part :: sql).
Proof. intros Hp Hn. by exists 0%nat, n. Qed.

Lemma carries_app n m sql1 sql2 :
  carries n sql1 -> carries m sql2 -> carries (n + m) (sql1 ++ sql2).
Proof.
  revert n. induction sql1 as [|part sql1 IH]; intros n; cbn; [by intros ->|].
  intros (k & j & Hk & Hj & ->) Hm. exists k, (j + m)%nat.
  split_and!; [done|by apply IH|lia].
Qed.

#[local] Arguments carries : simpl never.

Lemma carries_join separator sqls ns :
  placeholders separator = Some 0%nat -> Forall2 carries ns sqls ->
  carries (sum_list ns) (sql_join separator sqls).
Proof.
  intros Hsep. induction 1 as [|n sql ns sqls Hn Hns IH]; [done|].
  destruct Hns as [|n' sql' ns sqls Hn' Hns]; cbn [sum_list sql_join].
  - by rewrite Nat.add_0_r.
  - apply carries_app; [done|]. by apply carries_plain.
Qed.

(** A fragment whose text has one placeholder for each of its parameters. *)
Definition balanced (f : ParameterisedQueryFragment) : Prop :=
  exists sql, f.1 = Some sql /\ carries (length f.2) sql.

(** ... or the fragment of a clause that is not there. *)
Definition clause_balanced (f : ParameterisedQueryFragment) : Prop :=
  f = postgres.no_fragment \/ balanced f.

(** Fragments wrapped, joined and put together. *)
Lemma carries_fragments {X} (fragment : X -> ParameterisedQueryFragment)
    (wrap : X -> Composed -> Composed) (l : list X) :
  (forall x n sql, x ∈ l -> carries n sql -> carries n (wrap x sql)) ->
  Forall (fun x => clause_balanced (fragment x)) l ->
  exists ns, Forall2 carries ns (omap (fun x => wrap x <$> (fragment x).1) l) /\
    length (fragment_params (fragment <$> l)) = sum_list ns.
Proof.
  intros Hwrap Hl. induction l as [|x l IH]; [by exists []|].
  apply Forall_cons in Hl as [Hx Hl]. destruct IH as (ns & Hns & Hlen).
  { intros; apply Hwrap; [by constructor|done]. }
  { done. }
  unfold fragment_params in *. cbn. destruct Hx as [->|(sql & Hsql & Hc)].
  - exists ns. by cbn.
  - rewrite Hsql. exists (length (fragment x).2 :: ns). cbn. split.
    + constructor; [|done]. apply Hwrap; [constructor|done].
    + by rewrite length_app, Hlen.
Qed.

Lemma carries_join_fragments {X} (separator : string)
    (fragment : X -> ParameterisedQueryFragment) (wrap : X -> Composed -> Composed) (l : list X) :
  placeholders separator = Some 0%nat ->
  (forall x n sql, x ∈ l -> carries n sql -> carries n (wrap x sql)) ->
  Forall (fun x => clause_balanced (fragment x)) l ->
  carries (length (fragment_params (fragment <$> l)))
    (sql_join separator (omap (fun x => wrap x <$> (fragment x).1) l)).
Proof.
  intros Hsep Hwrap Hl. destruct (carries_fragments fragment wrap l Hwrap Hl) as (ns & Hns & ->).
  by apply carries_join.
Qed.

Lemma sql_fragments_omap l : sql_fragments l = omap (fun f => (fun sql => sql) <$> f.1) l.
Proof.
  unfold sql_fragments. induction l as [|[[sql|] ps] l IH]; cbn; [done| |done]. by rewrite IH.
Qed.

Lemma carries_join_sql separator l :
  placeholders separator = Some 0%nat -> Forall clause_balanced l ->
  carries (length (fragment_params l)) (sql_join separator (sql_fragments l)).
Proof.
  intros Hsep Hl. rewrite sql_fragments_omap, <-(list_fmap_id l) at 1.
  by apply (carries_join_fragments separator id (fun _ sql => sql)).
Qed.

Ltac plain_parts := repeat (apply carries_plain; [first [done|reflexivity]|]).

Lemma carries_wrapped n sql before after :
  Forall plain before -> Forall plain after -> carries n sql ->
  carries n (before ++ sql ++ after).
Proof.
  intros Hb Ha Hn. induction Hb as [|part before Hp Hb IH]; cbn [app]; [|by apply carries_plain].
  rewrite <-(Nat.add_0_r n). apply carries_app; [done|].
  induction Ha; [done|]. by apply carries_plain.
Qed.

Lemma function_application_balanced n fs :
  plain (Identifier n) -> Forall balanced fs ->
  balanced (postgres.function_application_fragment n fs).
Proof.
  intros Hn Hfs. eexists. split; [done|]. cbn [snd postgres.function_application_fragment].
  apply (carries_wrapped _ _ [Identifier n; SQL "("]); [by repeat constructor..|].
  apply carries_join_sql; [done|]. eapply Forall_impl; [done|]. by right.
Qed.

Lemma cast_balanced f t : plain (Identifier t) -> balanced f -> balanced (postgres.cast_fragment f t).
Proof.
  destruct f as [sql ps]. intros Ht (s & [= ->] & Hs). eexists. split; [done|]. cbn [snd].
  apply (carries_wrapped _ s [SQL "CAST("]); by repeat constructor.
Qed.

Lemma result_target_balanced f label :
  Forall plain (names.qualified [label]) -> balanced f ->
  balanced (postgres.result_target_fragment f label).
Proof.
  destruct f as [sql ps], label as [l|]; [|done]. intros Hl (s & [= ->] & Hs).
  apply Forall_cons in Hl as [Hl _]. eexists. split; [done|]. cbn [snd]. apply (carries_wrapped _ s []); by repeat constructor.
Qed.

Lemma sortby_balanced f d : balanced f -> balanced (postgres.sortby_fragment f d).
Proof.
  destruct f as [sql ps], d as [d|]; [|by destruct sql]. intros (s & [= ->] & Hs).
  eexists. split; [done|]. cbn [snd]. apply (carries_wrapped _ s []); by destruct d; repeat constructor.
Qed.

Lemma subquery_operand_balanced f : balanced f -> balanced (postgres.subquery_operand_fragment f).
Proof.
  destruct f as [sql ps]. intros (s & [= ->] & Hs). eexists. split; [done|]. cbn [snd].
  apply (carries_wrapped _ s [SQL "("]); by repeat constructor.
Qed.

Lemma iterable_operand_balanced fs :
  Forall balanced fs -> balanced (postgres.iterable_operand_fragment fs).
Proof.
  intros Hfs. eexists. split; [done|]. cbn [snd].
  apply (carries_wrapped _ _ [SQL "("]); [by repeat constructor..|].
  apply carries_join_sql; [done|]. eapply Forall_impl; [done|]. by right.
Qed.

Lemma condition_balanced f g o h :
  balanced f -> balanced g -> postgres.condition_fragment f g o = Ok h -> balanced h.
Proof.
  destruct f as [sql ps], g as [sql' ps']. intros (s & [= ->] & Hs) (s' & [= ->] & Hs') [= <-].
  eexists. split; [done|]. cbn [snd]. rewrite length_app. apply carries_app; [done|].
  destruct o; by plain_parts.
Qed.

Lemma star_balanced s f :
  Forall plain (names.star_names s) -> postgres.star_fragment s = Ok f -> balanced f.
Proof.
  destruct s as [[s|] [t|]]; cbn; intros Hn [= <-]; repeat (apply Forall_cons in Hn as [? Hn]);
    (eexists; split; [done|by plain_parts]).
Qed.

Lemma column_reference_balanced s t c f :
  Forall plain (names.qualified [s; t; Some c]) ->
  postgres.column_reference_fragment s t c = Ok f -> balanced f.
Proof.
  destruct s as [s|], t as [t|]; cbn; intros Hn [= <-];
    repeat (apply Forall_cons in Hn as [? Hn]); (eexists; split; [done|by plain_parts]).
Qed.

Lemma clause_fragment_balanced keyword separator fs :
  plain (SQL keyword) -> placeholders separator = Some 0%nat -> Forall balanced fs ->
  clause_balanced (postgres.clause_fragment keyword separator fs).
Proof.
  intros Hk Hsep Hfs. destruct fs as [|f fs]; [by left|]. right. eexists. split; [done|].
  cbn [snd]. apply carries_plain; [done|]. apply carries_join_sql; [done|].
  eapply Forall_impl; [done|]. by right.
Qed.

Lemma cte_balanced fs :
  Forall (fun f => plain (Identifier f.2) /\ balanced f.1) fs ->
  clause_balanced (postgres.cte_fragment fs).
Proof.
  intros Hfs. destruct fs as [|f fs]; [by left|]. right. eexists. split; [done|]. cbn [snd].
  apply carries_plain; [done|].
  apply (carries_join_fragments ", " fst
    (fun f sql => [Identifier f.2; SQL " AS ("] ++ sql ++ [SQL ")"])); [done| |].
  - intros x n sql Hx Hn. rewrite Forall_forall in Hfs. destruct (Hfs x Hx) as [Hp _].
    apply (carries_wrapped n sql [Identifier x.2; SQL " AS ("]); by repeat constructor.
  - eapply Forall_impl; [done|]. intros x [_ Hb]. by right.
Qed.

Lemma union_balanced u :
  from_option (fun u => Forall balanced u.1) True u -> clause_balanced (postgres.union_fragment u).
Proof.
  destruct u as [[fs mode]|]; [|by left]. cbn. intros Hfs. right. eexists. split; [done|].
  cbn [snd]. unfold sql_fragments. rewrite list_fmap_omap. rewrite <-(list_fmap_id fs) at 1.
  apply (carries_join_fragments _ id (fun _ sql => [SQL "("] ++ sql ++ [SQL ")"])).
  - by destruct mode.
  - intros x n sql _ Hn. apply (carries_wrapped n sql [SQL "("]); by repeat constructor.
  - eapply Forall_impl; [done|]. by right.
Qed.

Lemma from_balanced tables fs :
  Forall plain (Identifier <$> tables) ->
  Forall (fun f => plain (Identifier f.2) /\ balanced f.1) fs ->
  clause_balanced (postgres.from_fragment tables fs).
Proof.
  intros Ht Hfs.
  destruct (carries_fragments fst
    (fun f sql => [SQL "("] ++ sql ++ [SQL ") AS "; Identifier f.2]) fs) as (ns & Hns & Hlen).
  { intros x n sql Hx Hn. rewrite Forall_forall in Hfs. destruct (Hfs x Hx) as [Hp _].
    apply (carries_wrapped n sql [SQL "("]); by repeat constructor. }
  { eapply Forall_impl; [done|]. intros x [_ Hb]. by right. }
  assert (carries (length (fragment_params fs.*1)) (SQL "FROM " :: sql_join ", "
    (((fun table => [Identifier table]) <$> tables) ++
     omap (fun f : ParameterisedQueryFragment * string =>
       (fun sql => [SQL "("] ++ sql ++ [SQL ") AS "; Identifier f.2]) <$> f.1.1) fs))) as Hc.
  { apply carries_plain; [done|]. rewrite Hlen.
    replace (sum_list ns) with (sum_list (((fun _ : string => 0%nat) <$> tables) ++ ns)).
    - apply carries_join; [done|]. apply Forall2_app; [|done].
      clear -Ht. induction tables as [|t tables IH]; [constructor|].
      apply Forall_cons in Ht as [Ht Hts]. constructor; [by plain_parts|auto].
    - clear. by induction tables. }
  destruct tables, fs; [by left|right; by eexists..].
Qed.

(** What is known of the outcome of a [to_fragment]. *)
Definition good (names : list Composable) (m : res ParameterisedQueryFragment) : Prop :=
  Forall plain names -> forall f, m = Ok f -> balanced f.

Lemma good_mapM {A} (names : A -> list Composable) (fragment : A -> res ParameterisedQueryFragment)
    l fs :
  Forall (fun a => good (names a) (fragment a)) l -> Forall plain (names.names_of names l) ->
  mapM fragment l = Ok fs -> Forall balanced fs.
Proof.
  intros Hl Hn Hfs%res_mapM_Ok. revert Hl Hn. unfold names.names_of.
  induction Hfs as [|a f l fs Hf Hfs IH]; intros Hl Hn; [constructor|].
  apply Forall_cons in Hl as [Ha Hl]. cbn in Hn. apply Forall_app in Hn as [Hna Hnl].
  constructor; [by apply Ha|auto].
Qed.

Lemma good_mapM_fst {A} (names : A -> list Composable)
    (fragment : A -> res ParameterisedQueryFragment) (l : list (A * string)) fs :
  Forall (fun p => good (names p.1) (fragment p.1)) l ->
  Forall plain (names.names_of (fun p => match p with (a, n) => Identifier n :: names a end) l) ->
  postgres.mapM_fst fragment l = Ok fs ->
  Forall (fun f => plain (Identifier f.2) /\ balanced f.1) fs.
Proof.
  intros Hl Hn Hfs%res_mapM_Ok. revert Hl Hn. unfold names.names_of.
  induction Hfs as [|[a n] f l fs Hf Hfs IH]; intros Hl Hn; [constructor|].
  apply Forall_cons in Hl as [Ha Hl]. cbn in Hn. apply Forall_cons in Hn as [Hni Hn].
  apply Forall_app in Hn as [Hna Hnl]. inv_ok. constructor; [|auto].
  cbn. split; [done|by apply Ha].
Qed.

Lemma query_fragment_balanced fs :
  Forall clause_balanced fs -> balanced (postgres.query_fragment fs).
Proof. intros Hfs. eexists. split; [done|]. by apply carries_join_sql. Qed.

Lemma limit_balanced z : clause_balanced (postgres.limit_fragment z).
Proof. destruct z; [right|by left]. eexists. split; [done|]. by exists 1%nat, 0%nat. Qed.

Lemma offset_balanced z : clause_balanced (postgres.offset_fragment z).
Proof. destruct z; [right|by left]. eexists. split; [done|]. by exists 1%nat, 0%nat. Qed.

Import names.

Lemma query_good c u t f s w o l k :
  Forall (fun p => good (query_names p.1) (postgres.query_to_fragment p.1)) c ->
  from_option (fun u => Forall (fun q => good (query_names q) (postgres.query_to_fragment q)) u.1)
    True u ->
  Forall (fun t => good (target_names t) (postgres.target_to_fragment t)) t ->
  Forall (fun p => good (query_names p.1) (postgres.query_to_fragment p.1)) s ->
  Forall (fun c => good (condition_names c) (postgres.condition_to_fragment c)) w ->
  Forall (fun b => good (sortby_names b) (postgres.sortby_to_fragment b)) o ->
  let q := postgres.mkQuery c u t f s w o l k in
  good (query_names q) (postgres.query_to_fragment q).
Proof.
  intros Hc Hu Ht Hs Hw Ho q Hn g Hg. cbn in Hn, Hg.
  apply Forall_app in Hn as [Hnc Hn]. apply Forall_app in Hn as [Hnu Hn].
  apply Forall_app in Hn as [Hnt Hn]. apply Forall_app in Hn as [Hnf Hn].
  apply Forall_app in Hn as [Hns Hn]. apply Forall_app in Hn as [Hnw Hno].
  apply res_bind_Ok in Hg as (fc & Hfc & Hg). apply res_bind_Ok in Hg as (fu & Hfu & Hg).
  apply res_bind_Ok in Hg as (ft & Hft & Hg). apply res_bind_Ok in Hg as (fs & Hfs & Hg).
  apply res_bind_Ok in Hg as (fw & Hfw & Hg). apply res_bind_Ok in Hg as (fo & Hfo & [= <-]).
  apply query_fragment_balanced.
  repeat (apply Forall_cons; split); [..|constructor];
    auto using limit_balanced, offset_balanced.
  - apply cte_balanced. exact (good_mapM_fst _ _ c fc Hc Hnc Hfc).
  - apply union_balanced. destruct u as [[qs mode]|]; cbn in Hfu; inv_ok; [|done].
    cbn. exact (good_mapM _ _ qs _ Hu Hnu ltac:(eassumption)).
  - apply clause_fragment_balanced; [done..|]. exact (good_mapM _ _ t ft Ht Hnt Hft).
  - apply from_balanced; [done|]. exact (good_mapM_fst _ _ s fs Hs Hns Hfs).
  - apply clause_fragment_balanced; [done..|]. exact (good_mapM _ _ w fw Hw Hnw Hfw).
  - apply clause_fragment_balanced; [done..|]. exact (good_mapM _ _ o fo Ho Hno Hfo).
Qed.

Lemma syntax_good :
  (forall e, good (expression_names e) (postgres.expression_to_fragment e)) /\
  (forall c, good (condition_names c) (postgres.condition_to_fragment c)) /\
  (forall o, good (operand_names o) (postgres.operand_to_fragment o)) /\
  (forall t, good (target_names t) (postgres.target_to_fragment t)) /\
  (forall s, good (sortby_names s) (postgres.sortby_to_fragment s)) /\
  (forall q, good (query_names q) (postgres.query_to_fragment q)).
Proof.
  apply syntax_rule; cycle -1.
  { intros. by apply query_good. }
  all: unfold good; cbn.
  - intros n l Hl [Hn Hns]%Forall_cons f Hf.
    unfold fmap, res_fmap in Hf. destruct (mapM _ l) as [fs|] eqn:Efs; simplify_eq.
    apply function_application_balanced; [done|]. by eapply good_mapM.
  - intros e t He [Ht Hn]%Forall_cons f Hf. inv_ok. apply cast_balanced; auto.
  - intros s t c Hn f. by apply column_reference_balanced.
  - intros v _ f [= <-]. eexists. split; [done|]. by exists 1%nat, 0%nat.
  - intros s Hn f [= <-]. apply Forall_cons in Hn as [Hs _]. eexists. split; [done|]. by plain_parts.
  - intros s Hn f. by apply star_balanced.
  - auto.
  - intros [l|] [r|] [o|] Hl Hr Hn f Hf; try done. cbn in *. apply Forall_app in Hn as [Hnl Hnr].
    inv_ok. eapply condition_balanced; [| |done]; eauto.
  - auto.
  - intros l Hl Hn f Hf. unfold fmap, res_fmap in Hf.
    destruct (mapM _ l) as [fs|] eqn:Efs; simplify_eq.
    apply iterable_operand_balanced. by eapply good_mapM.
  - intros q Hq Hn f Hf. unfold fmap, res_fmap in Hf.
    destruct (postgres.query_to_fragment q) as [g|] eqn:Eg; simplify_eq.
    apply subquery_operand_balanced. eauto.
  - intros e l He Hn f Hf. apply Forall_app in Hn as [Hl Hn]. inv_ok.
    apply result_target_balanced; eauto.
  - intros s Hn f. by apply star_balanced.
  - intros e d He Hn f Hf. inv_ok. apply sortby_balanced. eauto.
Qed.

(** C38. The text a query builds to has exactly one placeholder [%s] for each parameter built
    with it, and no other [%], provided that the names and raw fragments the query is given
    hold none: executing it never fails on the number of its parameters. *)
Theorem build_placeholders q sql params :
  Forall plain (query_names q) -> postgres.build q = Ok (sql, params) ->
  placeholders (as_string sql) = Some (length params).
Proof.
  intros Hn Hb. apply carries_text. unfold postgres.build in Hb.
  destruct syntax_good as (_ & _ & _ & _ & _ & Hq).
  apply res_bind_Ok in Hb as (f & Hf & Hb). destruct (Hq q Hn f Hf) as (s & Hs & Hc).
  destruct f as [s' ps]. cbn in Hs, Hc. by simplify_eq.
Qed.
End balance.

(** Identifiers between double quotes. *)
Definition double_quotes : Psycopg := {|
  quote_identifier := fun name => String "034" (name +:+ String "034" EmptyString)
|}.

(** ** Parameters stay out of the text *)
Section map_params.
Variables (f : Param -> Param) (g : Z -> Z).
Import postgres.

Definition map_fst {A B} (h : A -> B) (l : list (A * string)) : list (B * string) :=
  (fun p => match p with (a, n) => (h a, n) end) <$> l.

Definition map_union {A B} (h : A -> B) (u : option (list A * SetQuantifier))
    : option (list B * SetQuantifier) :=
  match u with Some (l, mode) => Some (h <$> l, mode) | None => None end.

Fixpoint map_expression (e : Expression) : Expression :=
  match e with
  | FunctionApplication n l => FunctionApplication n (map_expression <$> l)
  | Cast e t => Cast (map_expression e) t
  | Constant v => Constant (f v)
  | ConditionExpression c => ConditionExpression (map_condition c)
  | _ => e
  end
with map_condition (c : Condition) : Condition :=
  match c with
  | mkCondition l r o =>
      mkCondition (match l with Some a => Some (map_operand a) | None => None end)
        (match r with Some a => Some (map_operand a) | None => None end) o
  end
with map_operand (o : ConditionOperand) : ConditionOperand :=
  match o with
  | OExpression e => OExpression (map_expression e)
  | OIterable l => OIterable (map_operand <$> l)
  | OQuery q => OQuery (map_query q)
  end
with map_target (t : Target) : Target :=
  match t with
  | TResult (mkResultTarget e l) => TResult (mkResultTarget (map_expression e) l)
  | TStar s => TStar s
  end
with map_sortby (s : SortBy) : SortBy :=
  match s with mkSortBy e d => mkSortBy (map_expression e) d end
with map_query (q : Query) : Query :=
  match q with
  | mkQuery c u t t' s w o l k =>
      mkQuery (map_fst map_query c)
        (map_union map_query u)
        (map_target <$> t) t' (map_fst map_query s)
        (map_condition <$> w) (map_sortby <$> o) (g <$> l) (g <$> k)
  end.

Definition map_built (p : ParameterisedQuery) : ParameterisedQuery := (p.1, f <$> p.2).
Definition map_fragment (x : ParameterisedQueryFragment) : ParameterisedQueryFragment :=
  (x.1, f <$> x.2).

Lemma sql_fragments_map l : sql_fragments (map_fragment <$> l) = sql_fragments l.
Proof. unfold sql_fragments. induction l as [|[[]] l IH]; cbn; by rewrite ?IH. Qed.

Lemma fragment_params_map l : fragment_params (map_fragment <$> l) = f <$> fragment_params l.
Proof.
  unfold fragment_params. induction l as [|x l IH]; cbn; [done|]. by rewrite fmap_app, <-IH.
Qed.

Definition follows (m' m : res ParameterisedQueryFragment) : Prop := m' = map_fragment <$> m.

Lemma follows_mapM {A} (h : A -> A) (fragment : A -> res ParameterisedQueryFragment) l :
  Forall (fun a => follows (fragment (h a)) (fragment a)) l ->
  mapM fragment (h <$> l) = fmap map_fragment <$> mapM fragment l.
Proof.
  induction 1 as [|a l Ha Hl IH]; [done|]. cbn. rewrite IH, Ha.
  destruct (fragment a); [|done]. cbn. by destruct (mapM fragment l).
Qed.

Lemma follows_mapM_fst {A} (h : A -> A) (fragment : A -> res ParameterisedQueryFragment)
    (l : list (A * string)) :
  Forall (fun p => follows (fragment (h p.1)) (fragment p.1)) l ->
  mapM_fst fragment (map_fst h l) = map_fst map_fragment <$> mapM_fst fragment l.
Proof.
  unfold mapM_fst, map_fst.
  induction 1 as [|[a n] l Ha Hl IH]; [done|]. cbn in *. rewrite IH, Ha.
  destruct (fragment a); [|done]. cbn. by destruct (mapM _ l).
Qed.

Lemma follows_mapM_union {A} (h : A -> A) (fragment : A -> res ParameterisedQueryFragment) u :
  from_option (fun u => Forall (fun a => follows (fragment (h a)) (fragment a)) u.1) True u ->
  mapM_union fragment (map_union h u) = map_union map_fragment <$> mapM_union fragment u.
Proof.
  destruct u as [[l mode]|]; [|done]. cbn. intros Hl. rewrite (follows_mapM h fragment l Hl).
  by destruct (mapM fragment l).
Qed.

Lemma clause_fragment_map keyword separator l :
  clause_fragment keyword separator (map_fragment <$> l) =
  map_fragment (clause_fragment keyword separator l).
Proof.
  destruct l as [|x l]; [done|].
  pose proof (fragment_params_map (x :: l)) as E1. pose proof (sql_fragments_map (x :: l)) as E2.
  cbn [fmap list_fmap] in *. unfold clause_fragment. by rewrite E1, E2.
Qed.

Lemma map_fst_fst {A B} (h : A -> B) (l : list (A * string)) : (map_fst h l).*1 = h <$> l.*1.
Proof. unfold map_fst. induction l as [|[a n] l IH]; [done|]. cbn. by f_equal. Qed.

Lemma omap_map_fst (wrap : string -> Composed -> Composed)
    (l : list (ParameterisedQueryFragment * string)) :
  omap (fun x : ParameterisedQueryFragment * string => wrap x.2 <$> x.1.1) (map_fst map_fragment l) =
  omap (fun x : ParameterisedQueryFragment * string => wrap x.2 <$> x.1.1) l.
Proof. unfold map_fst. induction l as [|[[[sql|] ps] n] l IH]; cbn; by rewrite ?IH. Qed.

Lemma cte_fragment_map l :
  cte_fragment (map_fst map_fragment l) = map_fragment (cte_fragment l).
Proof.
  destruct l as [|[x n] l]; [done|].
  pose proof (fragment_params_map (((x, n) :: l).*1)) as E1. rewrite <-map_fst_fst in E1.
  pose proof (omap_map_fst (fun n sql => [Identifier n; SQL " AS ("] ++ sql ++ [SQL ")"])
    ((x, n) :: l)) as E2. cbn beta in E2.
  change (map_fst map_fragment ((x, n) :: l)) with
    ((map_fragment x, n) :: map_fst map_fragment l) in *.
  unfold cte_fragment. by rewrite E1, E2.
Qed.

Lemma from_fragment_map t l :
  from_fragment t (map_fst map_fragment l) = map_fragment (from_fragment t l).
Proof.
  pose proof (fragment_params_map (l.*1)) as E1. rewrite <-map_fst_fst in E1.
  pose proof (omap_map_fst (fun n sql => [SQL "("] ++ sql ++ [SQL ") AS "; Identifier n]) l) as E2.
  cbn beta in E2. destruct l as [|[x m] l].
  - by destruct t.
  - change (map_fst map_fragment ((x, m) :: l)) with
      ((map_fragment x, m) :: map_fst map_fragment l) in *.
    unfold from_fragment. destruct t; by rewrite E1, E2.
Qed.

Lemma union_fragment_map (u : option (list ParameterisedQueryFragment * SetQuantifier)) :
  union_fragment (map_union map_fragment u) = map_fragment (union_fragment u).
Proof.
  destruct u as [[l m]|]; [|done]. unfold union_fragment, map_union.
  by rewrite fragment_params_map, sql_fragments_map.
Qed.

Lemma query_fragment_map l : query_fragment (map_fragment <$> l) = map_fragment (query_fragment l).
Proof. unfold query_fragment. by rewrite sql_fragments_map, fragment_params_map. Qed.

Context (Hf : forall z, f (PInt z) = PInt (g z)).

Lemma limit_fragment_map z : limit_fragment (g <$> z) = map_fragment (limit_fragment z).
Proof. destruct z; [|done]. unfold map_fragment. cbn. by rewrite Hf. Qed.

Lemma offset_fragment_map z : offset_fragment (g <$> z) = map_fragment (offset_fragment z).
Proof. destruct z; [|done]. unfold map_fragment. cbn. by rewrite Hf. Qed.

Lemma query_follows c u t t' s w o l k :
  Forall (fun p => follows (query_to_fragment (map_query p.1)) (query_to_fragment p.1)) c ->
  from_option (fun u =>
    Forall (fun q => follows (query_to_fragment (map_query q)) (query_to_fragment q)) u.1) True u ->
  Forall (fun t => follows (target_to_fragment (map_target t)) (target_to_fragment t)) t ->
  Forall (fun p => follows (query_to_fragment (map_query p.1)) (query_to_fragment p.1)) s ->
  Forall (fun c => follows (condition_to_fragment (map_condition c)) (condition_to_fragment c)) w ->
  Forall (fun b => follows (sortby_to_fragment (map_sortby b)) (sortby_to_fragment b)) o ->
  let q := mkQuery c u t t' s w o l k in
  follows (query_to_fragment (map_query q)) (query_to_fragment q).
Proof.
  intros Hc Hu Ht Hs Hw Ho q. unfold follows. cbn [query_to_fragment map_query q].
  rewrite (follows_mapM_fst _ _ c Hc), (follows_mapM_fst _ _ s Hs), (follows_mapM _ _ t Ht),
    (follows_mapM _ _ w Hw), (follows_mapM _ _ o Ho).
  destruct (mapM_fst query_to_fragment c) as [fc|]; [|done]. cbn.
  rewrite (follows_mapM_union _ _ u Hu).
  destruct (mapM_union query_to_fragment u) as [fu|]; [|done]. cbn.
  destruct (mapM target_to_fragment t) as [ft|]; [|done]. cbn.
  destruct (mapM_fst query_to_fragment s) as [fs|]; [|done]. cbn.
  destruct (mapM condition_to_fragment w) as [fw|]; [|done]. cbn.
  destruct (mapM sortby_to_fragment o) as [fo|]; [|done]. cbn.
  rewrite cte_fragment_map, union_fragment_map, from_fragment_map, limit_fragment_map,
    offset_fragment_map. unfold select_fragment, where_fragment, order_by_fragment.
  by rewrite !clause_fragment_map, <-query_fragment_map.
Qed.

Lemma syntax_follows :
  (forall e, follows (expression_to_fragment (map_expression e)) (expression_to_fragment e)) /\
  (forall c, follows (condition_to_fragment (map_condition c)) (condition_to_fragment c)) /\
  (forall o, follows (operand_to_fragment (map_operand o)) (operand_to_fragment o)) /\
  (forall t, follows (target_to_fragment (map_target t)) (target_to_fragment t)) /\
  (forall s, follows (sortby_to_fragment (map_sortby s)) (sortby_to_fragment s)) /\
  (forall q, follows (query_to_fragment (map_query q)) (query_to_fragment q)).
Proof.
  apply syntax_rule; cycle -1.
  { intros. by apply query_follows. }
  all: unfold follows; cbn.
  - intros n l Hl. rewrite (follows_mapM _ _ l Hl). destruct (mapM _ l); [|done]. cbn.
    unfold function_application_fragment. by rewrite sql_fragments_map, fragment_params_map.
  - intros e t ->. destruct (expression_to_fragment e) as [[[]]|]; done.
  - by intros [] [] c.
  - done.
  - done.
  - by intros [[] []].
  - done.
  - intros [l|] [r|] [o|]; cbn; try done. intros -> ->.
    destruct (operand_to_fragment l) as [[[] ?]|]; [| |done]; cbn;
      destruct (operand_to_fragment r) as [[[] ?]|]; cbn; try done.
    unfold map_fragment. cbn. by rewrite fmap_app.
  - done.
  - intros l Hl. rewrite (follows_mapM _ _ l Hl). destruct (mapM _ l); [|done]. cbn.
    unfold iterable_operand_fragment. by rewrite sql_fragments_map, fragment_params_map.
  - intros q ->. by destruct (query_to_fragment q) as [[[] ?]|].
  - intros e l ->. destruct (expression_to_fragment e) as [[[] ?]|], l; done.
  - by intros [[] []].
  - intros e d ->. destruct (expression_to_fragment e) as [[[] ?]|], d; done.
Qed.

(** C37. Values never reach the text of a query: whatever function is applied to the
    constants, the limits and the offsets inside a query, it builds to the same text, with
    that function applied to each of its parameters, in the same order; and it fails to build
    exactly when it did. *)
Theorem build_parameterised q :
  build (map_query q) = map_built <$> build q.
Proof.
  unfold build. destruct syntax_follows as (_ & _ & _ & _ & _ & Hq). rewrite (Hq q).
  by destruct (query_to_fragment q) as [[[] ?]|].
Qed.
End map_params.

(** ** On concrete queries *)
Module examples.
Import postgres.

(** The query of a stream's events after a sequence number. *)
Definition page : Query :=
  limit (Some 10%Z) (order_by [inl "sequence_number"%string] (where_
    [compare (OExpression (column "stream")) EQUALS (OExpression (Constant (PStr "s-1")));
     compare (OExpression (column "sequence_number")) GREATER_THAN
       (OExpression (Constant (PInt 4)))]
    (from_table "events" (select_all query)))).

(** Every string replaced by another, every integer by 0. *)
Definition hostile (p : Param) : Param :=
  match p with
  | PValue (VInt _) => PInt 0
  | _ => PStr "'; DROP TABLE events; --"
  end.
End examples.

Lemma build_placeholders_witness :
  exists sql params, postgres.build examples.page = Ok (sql, params) /\ length params = 3%nat /\
  placeholders (as_string (H := double_quotes) sql) = Some (length params).
Proof.
  destruct (postgres.build examples.page) as [[sql params]|] eqn:E; [|discriminate].
  exists sql, params. split; [done|]. split; [by vm_compute in E; simplify_eq|].
  apply (@build_placeholders double_quotes examples.page); [by repeat constructor|done].
Defined.

Lemma build_parameterised_witness :
  postgres.build (map_query examples.hostile (fun _ => 0%Z) examples.page) =
  map_built examples.hostile <$> postgres.build examples.page.
Proof. by apply build_parameterised. Defined.

(** A query without clauses builds to an empty text: it is not rejected as empty. *)
Lemma empty_query_builds : postgres.build postgres.query = Ok ([], []).
Proof. reflexivity. Qed.
