(* ===== verification/PostgresConverters.v ===== *)
(** The conversion of queries to SQL: [persistence/postgres/converters/]. Clauses, functions
    and queries are converted, through type registries, to appliers that extend a query of
    the builder. *)
From S2P Require Import Prelude Values Conversion Conditions Query PostgresQuery.

(** ** [helpers.py] *)

Definition expression_for_path (p : Path) (operator : option postgres.Operator)
    : postgres.Expression :=
  if is_nested p then
    let function_name :=
      match postgres.comparison_type <$> operator with
      | Some postgres.TEXT => "jsonb_extract_path_text"
      | _ => "jsonb_extract_path"
      end%string in
    postgres.FunctionApplication function_name
      (postgres.column (top_level p) ::
       ((fun sub_level => postgres.Constant (PValue (segment_value sub_level))) <$> sub_levels p))
  else postgres.column (top_level p).

Definition expression_for_function (f : Function) : postgres.Expression :=
  postgres.column (function_alias f).

Definition expression_for_field (field : Path + Function) (operator : option postgres.Operator)
    : postgres.Expression :=
  match field with
  | inl p => expression_for_path p operator
  | inr f => expression_for_function f
  end.

Definition value_for_nested_path (value : Val) : postgres.Expression :=
  let constant := postgres.Constant (PValue value) in
  let expression := match value with VStr _ => postgres.Cast constant "text" | _ => constant end in
  postgres.FunctionApplication "to_jsonb" [expression].

(** [Path("source")]. *)
Definition is_source (p : Path) : bool :=
  bool_decide (top_level p = "source"%string) && negb (is_nested p).

Definition value_for_path `{UserCode} (value : Val) (p : Path) (operator : postgres.Operator)
    : res postgres.Expression :=
  if negb (postgres.has_value operator) then Ok postgres.empty
  else if is_source p then
    match serialisable value with
    | Some serialise =>
        serialised ← serialise raising_serialisation_fallback;
        Ok (postgres.Constant (PJsonb serialised))
    | None => Raise AttributeError
    end
  else if is_nested p then
    match postgres.comparison_type operator with
    | postgres.TEXT => Ok (postgres.Constant (PValue value))
    | postgres.JSONB => Ok (value_for_nested_path value)
    end
  else Ok (postgres.Constant (PValue value)).

(** [is_multi_valued]: the elements of a sequence that is not a string. *)
Definition multi_valued (value : Val) : option (list Val) :=
  match value with VList l | VTuple l => Some l | _ => None end.

(** [QueryApplier.apply]. *)
Abbreviation QueryApplier := (postgres.Query -> res postgres.Query).

(** [appliers.py]. *)
Definition CombinedQueryApplier (appliers : list QueryApplier) : QueryApplier := fun target =>
  foldl (fun acc applier => acc ≫= applier) (Ok target) appliers.

(** ** [function.py] *)

Definition SimilarityFunctionQueryApplier (alias : string) (left_path : Path) (text : string)
    : QueryApplier := fun target =>
  let result_target := postgres.mkResultTarget
    (postgres.FunctionApplication "similarity"
      [postgres.Cast (expression_for_path left_path None) "text";
       postgres.Constant (PStr text)]) (Some alias) in
  Ok (postgres.select [postgres.SelectTarget result_target] target).

Definition SimilarityFunctionConverter (item : Function) : res QueryApplier :=
  match item with
  | Similarity alias left_path text => Ok (SimilarityFunctionQueryApplier alias left_path text)
  | _ => Raise AttributeError
  end.

(** ** [clause.py]: filters *)

#[export] Instance Query_Operator_eq_dec : EqDecision Operator.
Proof. solve_decision. Defined.

Definition default_operators : dict Operator postgres.Operator :=
  [(EQUAL, postgres.EQUALS); (NOT_EQUAL, postgres.NOT_EQUALS);
   (LESS_THAN, postgres.LESS_THAN); (LESS_THAN_OR_EQUAL, postgres.LESS_THAN_OR_EQUAL);
   (GREATER_THAN, postgres.GREATER_THAN);
   (GREATER_THAN_OR_EQUAL, postgres.GREATER_THAN_OR_EQUAL);
   (IN, postgres.IN); (CONTAINS, postgres.CONTAINS);
   (REGEX_MATCHES, postgres.REGEX_MATCHES); (NOT_REGEX_MATCHES, postgres.NOT_REGEX_MATCHES)].

Section filters.
Context `{UserCode} (operators : dict Operator postgres.Operator).

(** [FilterClauseQueryApplier.operator], [column] and [value]. *)
Definition filter_operator (op : Operator) (value : Val) : res postgres.Operator :=
  match dict_get operators op with
  | None => Raise (ValueError "Unsupported operator")
  | Some postgres.EQUALS =>
      Ok (match value with VNone => postgres.IS_NULL | _ => postgres.EQUALS end)
  | Some postgres.NOT_EQUALS =>
      Ok (match value with VNone => postgres.IS_NOT_NULL | _ => postgres.NOT_EQUALS end)
  | Some operator => Ok operator
  end.

Definition is_empty (e : postgres.Expression) : bool :=
  match e with postgres.Raw EmptyString => true | _ => false end.

Definition filter_value (p : Path) (value : Val) (operator : postgres.Operator)
    : res postgres.ConditionOperand :=
  match multi_valued value with
  | Some values =>
      expressions ← mapM (fun v => value_for_path v p operator) values;
      Ok (postgres.OIterable (postgres.OExpression <$>
        List.filter (fun e => negb (is_empty e)) expressions))
  | None => postgres.OExpression <$> value_for_path value p operator
  end.

Definition FilterClauseQueryApplier (op : Operator) (p : Path) (value : Val) : QueryApplier :=
  fun target =>
  operator ← filter_operator op value;
  right_operand ← filter_value p value operator;
  Ok (postgres.where_ [postgres.compare
    (postgres.OExpression (expression_for_path p (Some operator))) operator right_operand] target).

Definition FilterClauseConverter (item : Clause) : res QueryApplier :=
  match item with
  | FilterClause op p value => Ok (FilterClauseQueryApplier op p value)
  | _ => Raise AttributeError
  end.
End filters.

(** ** Sorts *)

Definition sort_direction (order : SortOrder) : postgres.SortDirection :=
  match order with ASC => postgres.ASC | DESC => postgres.DESC end.

Definition sortby (sort_field : SortField) : postgres.SortBy :=
  postgres.mkSortBy (expression_for_field (sf_field sort_field) None)
    (Some (sort_direction (sf_order sort_field))).

Definition SortClauseQueryApplier (fields : list SortField) : QueryApplier := fun target =>
  Ok (postgres.order_by ((fun f => inr (sortby f)) <$> fields) target).

Definition SortClauseConverter (convert_function : Function -> res QueryApplier) (item : Clause)
    : res QueryApplier :=
  match item with
  | SortClause fields =>
      function_query_appliers ← mapM convert_function
        (omap (fun f => match sf_field f with inr function => Some function | _ => None end) fields);
      Ok (CombinedQueryApplier (function_query_appliers ++ [SortClauseQueryApplier fields]))
  | _ => Raise AttributeError
  end.

(** ** Key set paging *)

Definition row_comparison_condition (columns : list postgres.Expression)
    (operator : postgres.Operator) (table : string) : postgres.Condition :=
  postgres.compare (postgres.OIterable (postgres.OExpression <$> columns)) operator
    (postgres.OQuery (postgres.from_table table (postgres.select_all postgres.query))).

Definition field_comparison_condition (column : postgres.Expression)
    (operator : postgres.Operator) (value : postgres.Expression) : postgres.Condition :=
  postgres.compare (postgres.OExpression column) operator (postgres.OExpression value).

Definition id_column : postgres.Expression := postgres.column "id".

(** The record a page starts after. *)
Definition record_query (id : postgres.Expression) (columns : list postgres.Expression)
    (table_name : string) : postgres.Query :=
  postgres.limit (Some 1%Z) (postgres.where_
    [field_comparison_condition id_column postgres.EQUALS id]
    (postgres.from_table table_name
      (postgres.select (postgres.SelectExpression <$> columns) postgres.query))).

Definition order_by_sorts (sorts : list postgres.SortBy) : postgres.Query -> postgres.Query :=
  postgres.order_by (inr <$> sorts).
Definition replace_order_by_sorts (sorts : list postgres.SortBy)
    : postgres.Query -> postgres.Query :=
  postgres.replace_order_by (inr <$> sorts).

Definition first_page_no_sort_query (builder : postgres.Query) (item_count : Z)
    : postgres.Query :=
  postgres.limit (Some item_count) (postgres.order_by [inl "id"%string] builder).

(** [list(query.sortby_list) + [SortBy(id, direction)]]. *)
Definition paged_sort (query : postgres.Query) (direction : postgres.SortDirection)
    : list postgres.SortBy :=
  postgres.sortby_list query ++ [postgres.mkSortBy id_column (Some direction)].

Definition first_page_existing_sort_query (builder : postgres.Query) (item_count : Z)
    (direction : postgres.SortDirection) : postgres.Query :=
  postgres.limit (Some item_count)
    (replace_order_by_sorts (paged_sort builder direction) builder).

Definition first_page_existing_sort_all_asc_query (builder : postgres.Query) (item_count : Z)
    : postgres.Query := first_page_existing_sort_query builder item_count postgres.ASC.
Definition first_page_existing_sort_all_desc_query (builder : postgres.Query) (item_count : Z)
    : postgres.Query := first_page_existing_sort_query builder item_count postgres.DESC.
Definition first_page_existing_sort_mixed_query (builder : postgres.Query) (item_count : Z)
    : postgres.Query := first_page_existing_sort_query builder item_count postgres.ASC.

(** [Constant(paging.last_id)]. *)
Definition last_id_constant (last_id : option string) : postgres.Expression :=
  postgres.Constant (PValue (match last_id with Some id => VStr id | None => VNone end)).

Section paging.
Variables (last_id : option string) (direction : PagingDirection) (item_count : Z)
  (table_name : string).

Definition subsequent_page_no_sort_row_selection_query (builder : postgres.Query)
    : postgres.Query :=
  let id := last_id_constant last_id in
  let op :=
    if is_forwards last_id direction then postgres.GREATER_THAN else postgres.LESS_THAN in
  let sort_direction := if is_forwards last_id direction then postgres.ASC else postgres.DESC in
  postgres.limit (Some item_count)
    (order_by_sorts [postgres.mkSortBy id_column (Some sort_direction)]
      (postgres.where_ [field_comparison_condition id_column op id] builder)).

Definition subsequent_page_no_sort_paging_forwards_query (query : postgres.Query)
    : postgres.Query := subsequent_page_no_sort_row_selection_query query.

Definition subsequent_page_no_sort_paging_backwards_query (query : postgres.Query)
    : postgres.Query :=
  postgres.limit (Some item_count) (postgres.order_by [inl "id"%string]
    (postgres.from_subquery (subsequent_page_no_sort_row_selection_query query) "page"
      (postgres.select_all postgres.query))).

(** [[sortby.expression for sortby in sorts]]. *)
Definition expressions (sorts : list postgres.SortBy) : list postgres.Expression :=
  postgres.sortby_expression <$> sorts.

Definition with_last (sort_expressions : list postgres.Expression)
    : postgres.Query -> postgres.Query :=
  postgres.with_query (record_query (last_id_constant last_id) sort_expressions table_name) "last".

Definition subsequent_page_existing_sort_all_asc_forwards_query (query : postgres.Query)
    : postgres.Query :=
  let paged_sort := paged_sort query postgres.ASC in
  let paged_sort_expressions := expressions paged_sort in
  postgres.limit (Some item_count) (replace_order_by_sorts paged_sort
    (postgres.where_
      [row_comparison_condition paged_sort_expressions postgres.GREATER_THAN "last"]
      (with_last paged_sort_expressions query))).

(** Every sort in one direction. *)
Definition directed (direction : postgres.SortDirection) (sorts : list postgres.SortBy)
    : list postgres.SortBy :=
  (fun s => postgres.mkSortBy (postgres.sortby_expression s) (Some direction)) <$> sorts.

Definition subsequent_page_existing_sort_all_asc_backwards_query (query : postgres.Query)
    : postgres.Query :=
  let paged_sort := paged_sort query postgres.ASC in
  let record_sort := directed postgres.DESC paged_sort in
  let sort_expressions := expressions paged_sort in
  postgres.limit (Some item_count) (order_by_sorts paged_sort
    (postgres.from_subquery
      (postgres.limit (Some item_count) (replace_order_by_sorts record_sort
        (postgres.where_
          [row_comparison_condition sort_expressions postgres.LESS_THAN "last"] query)))
      "page"
      (postgres.select_all (with_last sort_expressions postgres.query)))).

Definition subsequent_page_existing_sort_all_desc_forwards_query (query : postgres.Query)
    : postgres.Query :=
  let paged_sort := paged_sort query postgres.DESC in
  let paged_sort_expressions := expressions paged_sort in
  postgres.limit (Some item_count) (replace_order_by_sorts paged_sort
    (postgres.where_
      [row_comparison_condition paged_sort_expressions postgres.LESS_THAN "last"]
      (with_last paged_sort_expressions query))).

Definition subsequent_page_existing_sort_all_desc_backwards_query (query : postgres.Query)
    : postgres.Query :=
  let paged_sort := paged_sort query postgres.DESC in
  let record_sort := directed postgres.ASC paged_sort in
  let sort_expressions := expressions paged_sort in
  postgres.limit (Some item_count) (order_by_sorts paged_sort
    (postgres.from_subquery
      (postgres.limit (Some item_count) (replace_order_by_sorts record_sort
        (postgres.where_
          [row_comparison_condition sort_expressions postgres.GREATER_THAN "last"] query)))
      "page"
      (postgres.select_all (with_last sort_expressions postgres.query)))).

(** Expressions as dict keys. The arguments of a function application are a list, which has
    no hash, and so have the fields of queries and the operands of row conditions. *)
Fixpoint expression_hashable (e : postgres.Expression) : bool :=
  match e with
  | postgres.Cast e _ => expression_hashable e
  | postgres.ColumnReference _ _ _ | postgres.Raw _ | postgres.StarExpression _ => true
  | postgres.Constant (PValue v) => hashable v
  | postgres.Constant _ => true
  | postgres.FunctionApplication _ _ | postgres.ConditionExpression _ => false
  end.

Definition param_eqb (v w : Param) : bool :=
  match v, w with
  | PValue v, PValue w => py_eqb v w
  | PDateTime t, PDateTime u => (t =? u)%Z
  | _, _ => false
  end.

(** [==] on expressions that can be keys. *)
Fixpoint key_eqb (d e : postgres.Expression) : bool :=
  match d, e with
  | postgres.Cast d t, postgres.Cast e u => key_eqb d e && bool_decide (t = u)
  | postgres.ColumnReference s t f, postgres.ColumnReference s' t' f' =>
      bool_decide (s = s' /\ t = t' /\ f = f')
  | postgres.Constant v, postgres.Constant w => param_eqb v w
  | postgres.Raw s, postgres.Raw t => bool_decide (s = t)
  | postgres.StarExpression (postgres.mkStar s t), postgres.StarExpression (postgres.mkStar s' t') =>
      bool_decide (s = s' /\ t = t')
  | _, _ => false
  end.

(** [{sortby.expression: operator for sortby in sorts}], as the assignments made: the last
    one to a key holds. *)
Definition sort_operators (sorts : list postgres.SortBy)
    : res (list (postgres.Expression * postgres.Operator)) :=
  mapM (fun s =>
    let expression := postgres.sortby_expression s in
    if expression_hashable expression
    then Ok (expression,
      if bool_decide (postgres.sortby_direction s = Some postgres.ASC)
      then postgres.GREATER_THAN else postgres.LESS_THAN)
    else Raise TypeError) sorts.

Definition operator_of (operators : list (postgres.Expression * postgres.Operator))
    (expression : postgres.Expression) : res postgres.Operator :=
  match last (List.filter (fun entry => key_eqb expression entry.1) operators) with
  | Some entry => Ok entry.2
  | None => Raise KeyError
  end.

(** [(expressions[j], EQUALS if j < i - 1 else operators[expressions[j]])]. *)
Definition ordering_column (operators : list (postgres.Expression * postgres.Operator))
    (i j : nat) (expression : postgres.Expression)
    : res (postgres.Expression * postgres.Operator) :=
  if (j <? i - 1)%nat then Ok (expression, postgres.EQUALS)
  else operator ← operator_of operators expression; Ok (expression, operator).

(** [[... for j in range(0, i)]]: the first [i] expressions, all but the last by equality. *)
Definition ordering_column_set (operators : list (postgres.Expression * postgres.Operator))
    (sort_expressions : list postgres.Expression) (i : nat)
    : res (list (postgres.Expression * postgres.Operator)) :=
  mapM id (imap (ordering_column operators i) (take i sort_expressions)).

Definition ordering_column_sets (operators : list (postgres.Expression * postgres.Operator))
    (sort_expressions : list postgres.Expression)
    : res (list (list (postgres.Expression * postgres.Operator))) :=
  mapM (ordering_column_set operators sort_expressions) (seq 1 (length sort_expressions)).

(** The condition [column operator (SELECT column FROM last)]. *)
Definition record_select_condition (entry : postgres.Expression * postgres.Operator)
    : postgres.Condition :=
  postgres.compare (postgres.OExpression entry.1) entry.2
    (postgres.OQuery (postgres.from_table "last"
      (postgres.select [postgres.SelectExpression entry.1] postgres.query))).

(** [Query.union] of the queries with mode [ALL]: two queries at least, or a call with too few
    arguments. *)
Definition union_all (queries : list postgres.Query) : res postgres.Query :=
  match queries with
  | query1 :: query2 :: more => Ok (postgres.union query1 query2 more postgres.ALL)
  | _ => Raise TypeError
  end.

(** The queries for rows that agree with the last one on the first sorts and go beyond it on
    the next, ordered by [sorts]. *)
Definition record_select_query (query : postgres.Query) (sorts : list postgres.SortBy)
    (column_set : list (postgres.Expression * postgres.Operator)) : postgres.Query :=
  postgres.limit (Some item_count) (replace_order_by_sorts sorts
    (postgres.where_ (record_select_condition <$> column_set) query)).

Definition record_select_queries (query : postgres.Query) (sorts : list postgres.SortBy)
    (sort_expressions : list postgres.Expression) : res (list postgres.Query) :=
  operators ← sort_operators sorts;
  column_sets ← ordering_column_sets operators sort_expressions;
  Ok (map (record_select_query query sorts) column_sets).

Definition subsequent_page_existing_sort_mixed_forwards_query (query : postgres.Query)
    : res postgres.Query :=
  let paged_sort := paged_sort query postgres.ASC in
  let paged_sort_expressions := expressions paged_sort in
  union ← record_select_queries query paged_sort paged_sort_expressions ≫= union_all;
  Ok (postgres.limit (Some item_count) (order_by_sorts paged_sort
    (with_last paged_sort_expressions union))).

Definition subsequent_page_existing_sort_mixed_backwards_query (query : postgres.Query)
    : res postgres.Query :=
  let paged_sort := paged_sort query postgres.ASC in
  let record_sort := postgres.reverse_sortby <$> paged_sort in
  let sort_expressions := expressions paged_sort in
  union ← record_select_queries query record_sort sort_expressions ≫= union_all;
  Ok (postgres.limit (Some item_count) (order_by_sorts paged_sort
    (postgres.from_subquery
      (postgres.limit (Some item_count) (order_by_sorts record_sort union)) "page"
      (postgres.select_all (with_last sort_expressions postgres.query))))).

Definition KeySetPagingClauseQueryApplier : QueryApplier := fun target =>
  let has_existing_sort := (0 <? length (postgres.sortby_list target))%nat in
  let all_sort_asc := forallb postgres.is_ascending (postgres.sortby_list target) in
  let all_sort_desc := forallb postgres.is_descending (postgres.sortby_list target) in
  if is_forwards last_id direction then
    if has_existing_sort then
      if all_sort_asc then Ok (subsequent_page_existing_sort_all_asc_forwards_query target)
      else if all_sort_desc then Ok (subsequent_page_existing_sort_all_desc_forwards_query target)
      else subsequent_page_existing_sort_mixed_forwards_query target
    else Ok (subsequent_page_no_sort_paging_forwards_query target)
  else if is_backwards last_id direction then
    if has_existing_sort then
      if all_sort_asc then Ok (subsequent_page_existing_sort_all_asc_backwards_query target)
      else if all_sort_desc then Ok (subsequent_page_existing_sort_all_desc_backwards_query target)
      else subsequent_page_existing_sort_mixed_backwards_query target
    else Ok (subsequent_page_no_sort_paging_backwards_query target)
  else
    if has_existing_sort then
      if all_sort_asc then Ok (first_page_existing_sort_all_asc_query target item_count)
      else if all_sort_desc then Ok (first_page_existing_sort_all_desc_query target item_count)
      else Ok (first_page_existing_sort_mixed_query target item_count)
    else Ok (first_page_no_sort_query target item_count).
End paging.

Definition KeySetPagingClauseConverter (table_name : string) (item : Clause)
    : res QueryApplier :=
  match item with
  | KeySetPagingClause last_id direction item_count =>
      Ok (KeySetPagingClauseQueryApplier last_id direction item_count table_name)
  | _ => Raise AttributeError
  end.

(** ** Offset paging *)

Definition OffsetPagingClauseQueryApplier (page_number item_count : Z) : QueryApplier :=
  fun target =>
  if (page_number =? 1)%Z then Ok (postgres.limit (Some item_count) target)
  else Ok (postgres.offset (Some (paging_offset page_number item_count))
    (postgres.limit (Some item_count) target)).

Definition OffsetPagingClauseConverter (item : Clause) : res QueryApplier :=
  match item with
  | OffsetPagingClause page_number item_count =>
      Ok (OffsetPagingClauseQueryApplier page_number item_count)
  | _ => Raise AttributeError
  end.

(** ** [query.py] *)

Section query_converters.
Context `{UserCode} (convert_clause : Clause -> res QueryApplier) (table_name : string).

Definition apply_clauses (clauses : list Clause) (builder : postgres.Query)
    : res postgres.Query :=
  foldl (fun acc clause =>
    builder ← acc; applier ← convert_clause clause; applier builder) (Ok builder) clauses.

Definition base_query : postgres.Query :=
  postgres.from_table table_name (postgres.select_all postgres.query).

Definition SearchQueryConverter (item : Query) : res ParameterisedQuery :=
  match item with
  | Search filters sort paging =>
      builder ← apply_clauses filters base_query;
      builder ← apply_clauses (from_option (fun c => [c]) [] sort) builder;
      builder ← apply_clauses (from_option (fun c => [c]) [] paging) builder;
      postgres.build builder
  | _ => Raise AttributeError
  end.

Definition LookupQueryConverter (item : Query) : res ParameterisedQuery :=
  match item with
  | Lookup filters => apply_clauses filters base_query ≫= postgres.build
  | _ => Raise AttributeError
  end.
End query_converters.

(** The three registries of [DelegatingQueryConverter]; a converter given one of them sees
    the registrations made later. *)
Record DelegatingQueryConverter := mkConverter {
  function_registry : gmap string (Function -> res QueryApplier);
  clause_registry : gmap string ((Function -> res QueryApplier) -> Clause -> res QueryApplier);
  query_registry : gmap string ((Clause -> res QueryApplier) -> Query -> res ParameterisedQuery)
}.

Section delegating.
Context `{UserCode}.

Definition empty_converter : DelegatingQueryConverter := mkConverter ∅ ∅ ∅.

Definition register_function_converter (c : DelegatingQueryConverter) (function_type : string)
    (converter : Function -> res QueryApplier) : DelegatingQueryConverter :=
  mkConverter (<[function_type := converter]> (function_registry c))
    (clause_registry c) (query_registry c).
Definition register_clause_converter (c : DelegatingQueryConverter) (clause_type : string)
    (converter : (Function -> res QueryApplier) -> Clause -> res QueryApplier)
    : DelegatingQueryConverter :=
  mkConverter (function_registry c)
    (<[clause_type := converter]> (clause_registry c)) (query_registry c).
Definition register_query_converter (c : DelegatingQueryConverter) (query_type : string)
    (converter : (Clause -> res QueryApplier) -> Query -> res ParameterisedQuery)
    : DelegatingQueryConverter :=
  mkConverter (function_registry c) (clause_registry c)
    (<[query_type := converter]> (query_registry c)).

Definition with_default_function_converters (c : DelegatingQueryConverter)
    : DelegatingQueryConverter :=
  register_function_converter c "Similarity" SimilarityFunctionConverter.

Definition with_default_clause_converters (table_name : string) (c : DelegatingQueryConverter)
    : DelegatingQueryConverter :=
  register_clause_converter
    (register_clause_converter
      (register_clause_converter
        (register_clause_converter c "FilterClause"
          (fun _ => FilterClauseConverter default_operators))
        "SortClause" SortClauseConverter)
      "KeySetPagingClause" (fun _ => KeySetPagingClauseConverter table_name))
    "OffsetPagingClause" (fun _ => OffsetPagingClauseConverter).

Definition with_default_query_converters (table_name : string) (c : DelegatingQueryConverter)
    : DelegatingQueryConverter :=
  register_query_converter
    (register_query_converter c "Search" (fun convert => SearchQueryConverter convert table_name))
    "Lookup" (fun convert => LookupQueryConverter convert table_name).

Definition with_default_converters (table_name : string) (c : DelegatingQueryConverter)
    : DelegatingQueryConverter :=
  with_default_query_converters table_name
    (with_default_clause_converters table_name (with_default_function_converters c)).

Definition convert_function (c : DelegatingQueryConverter) (item : Function)
    : res QueryApplier :=
  registry_convert function_class (function_registry c) item.
Definition convert_clause (c : DelegatingQueryConverter) (item : Clause) : res QueryApplier :=
  registry_convert clause_class
    ((fun converter => converter (convert_function c)) <$> clause_registry c) item.

(** [apply_clause] and [convert_query]. *)
Definition apply_clause (c : DelegatingQueryConverter) (clause : Clause) : QueryApplier :=
  fun query_builder => applier ← convert_clause c clause; applier query_builder.
Definition convert_query (c : DelegatingQueryConverter) (item : Query)
    : res ParameterisedQuery :=
  registry_convert query_class
    ((fun converter => converter (convert_clause c)) <$> query_registry c) item.
End delegating.

(** ** Paging mixed sorts *)

Lemma sort_operators_unhashable sorts s :
  s ∈ sorts -> expression_hashable (postgres.sortby_expression s) = false ->
  sort_operators sorts = Raise TypeError.
Proof.
  intros Hs Hhash. unfold sort_operators.
  induction Hs as [sorts|s s' sorts Hs IH]; cbn; [by rewrite Hhash|].
  rewrite IH by done. by destruct (expression_hashable (postgres.sortby_expression s')).
Qed.

(** Later pages of results sorted both ways cannot be queried when one of the sorts is on a
    path with levels: the operators are kept by expression, and such an expression, a
    function application with a list of arguments, has no hash. *)
Theorem mixed_paging_unhashable last_id direction n table target s :
  is_Some last_id ->
  forallb postgres.is_ascending (postgres.sortby_list target) = false ->
  forallb postgres.is_descending (postgres.sortby_list target) = false ->
  s ∈ postgres.sortby_list target ->
  expression_hashable (postgres.sortby_expression s) = false ->
  KeySetPagingClauseQueryApplier last_id direction n table target = Raise TypeError.
Proof.
  intros [id ->] Hasc Hdesc Hs Hhash. unfold KeySetPagingClauseQueryApplier.
  rewrite Hasc, Hdesc.
  assert ((0 <? length (postgres.sortby_list target))%nat = true) as ->
    by (destruct (postgres.sortby_list target); [by apply not_elem_of_nil in Hs|done]).
  destruct direction; cbn [is_forwards is_backwards].
  - unfold subsequent_page_existing_sort_mixed_forwards_query, record_select_queries.
    rewrite (sort_operators_unhashable _ s); [done|apply elem_of_app; by left|done].
  - unfold subsequent_page_existing_sort_mixed_backwards_query, record_select_queries.
    rewrite (sort_operators_unhashable _ (postgres.reverse_sortby s)); [done| |done].
    apply list_elem_of_fmap_2, elem_of_app. by left.
Qed.

Example nested_sort_unhashable :
  expression_hashable (postgres.sortby_expression (sortby
    (mkSortField (inl (mkPath "state" [inl "age"%string])) DESC))) = false.
Proof. reflexivity. Qed.
