(* ===== verification/PostgresSql.v ===== *)
(** The meaning of the statements the query builder writes, for the part of SQL they use:
    selections from tables and subqueries with conditions, orders, limits and offsets, unions
    and common table expressions. What the server brings - its data, functions, operators
    and comparison, and the order in which it returns rows an [ORDER BY] does not separate -
    is the class [SqlEngine]. *)
From S2P Require Import Prelude Values PostgresQuery.
Import postgres.

Class SqlEngine (D : Type) := {
  sql_dec : EqDecision D;
  sql_param : Param -> D;
  sql_is_null : D -> bool;
  (** [None] when one side is null. *)
  sql_compare : D -> D -> option comparison;
  sql_function : string -> list D -> option D;
  sql_cast : D -> string -> option D;
  (** The operators that do not compare: [@>], [~] and [!~]. *)
  sql_operator : Operator -> D -> D -> option bool;
  sql_sort : forall {A : Type}, (A -> A -> bool) -> list A -> list A
}.
#[export] Existing Instance sql_dec.

Section sql.
Context {D : Type} `{SqlEngine D}.

Definition Row : Type := list (string * D).
Definition Table : Type := list Row.
Definition Database : Type := list (string * Table).

#[export] Instance Row_eq_dec : EqDecision Row.
Proof. solve_decision. Defined.

(** The name a select list gives to an expression without a label. *)
Fixpoint output_name (e : Expression) : string :=
  match e with
  | ColumnReference _ _ field => field
  | FunctionApplication name _ => name
  | Cast e _ => output_name e
  | _ => "?column?"
  end.

Fixpoint eval_expression (row : Row) (e : Expression) : option D :=
  match e with
  | ColumnReference None None field => dict_get row field
  | Constant value => Some (sql_param value)
  | FunctionApplication name arguments =>
      values ← mapM (eval_expression row) arguments; sql_function name values
  | Cast e typename => value ← eval_expression row e; sql_cast value typename
  | _ => None
  end.

(** ** Comparisons *)

(** Rows compare at their first unequal elements; a null there makes the result unknown. *)
Fixpoint row_compare (l m : list D) : option comparison :=
  match l, m with
  | x :: l', y :: m' =>
      match sql_compare x y with Some Eq => row_compare l' m' | outcome => outcome end
  | _, _ => Some Eq
  end.

Definition comparison_holds (op : Operator) (c : comparison) : bool :=
  match op, c with
  | EQUALS, Eq | NOT_EQUALS, (Lt | Gt) | GREATER_THAN, Gt | LESS_THAN, Lt
  | GREATER_THAN_OR_EQUAL, (Gt | Eq) | LESS_THAN_OR_EQUAL, (Lt | Eq) => true
  | _, _ => false
  end.

(** Whether a condition is true of two operands, each the values of a row or, for a subquery
    without rows, nulls. *)
Definition test (op : Operator) (l r : option (list D)) : option bool :=
  match op, l, r with
  | _, None, _ | _, _, None => Some false
  | IN, Some [x], Some ys =>
      Some (existsb (fun y => bool_decide (sql_compare x y = Some Eq)) ys)
  | (CONTAINS | REGEX_MATCHES | NOT_REGEX_MATCHES), Some [x], Some [y] => sql_operator op x y
  | (EQUALS | NOT_EQUALS | GREATER_THAN | GREATER_THAN_OR_EQUAL | LESS_THAN
     | LESS_THAN_OR_EQUAL), Some l, Some r =>
      if (length l =? length r)%nat
      then Some (match row_compare l r with Some c => comparison_holds op c | None => false end)
      else None
  | _, _, _ => None
  end.

Definition null_test (op : Operator) (value : D) : option bool :=
  match op with
  | IS_NULL => Some (sql_is_null value)
  | IS_NOT_NULL => Some (negb (sql_is_null value))
  | _ => None
  end.

(** ** Orders: nulls are larger than all else *)

Definition order_compare (direction : SortDirection) (x y : D) : comparison :=
  let c := match sql_compare x y with
    | Some c => c
    | None => match sql_is_null x, sql_is_null y with
      | true, false => Gt | false, true => Lt | _, _ => Eq end
    end in
  match direction with ASC => c | DESC => CompOpp c end.

Fixpoint keys_compare (directions : list SortDirection) (l m : list D) : comparison :=
  match directions, l, m with
  | d :: directions', x :: l', y :: m' =>
      match order_compare d x y with Eq => keys_compare directions' l' m' | outcome => outcome end
  | _, _, _ => Eq
  end.

Definition direction_of (s : SortBy) : SortDirection := default ASC (sortby_direction s).

Definition keys_before (sorts : list SortBy) (l m : list D) : bool :=
  match keys_compare (direction_of <$> sorts) l m with Lt => true | _ => false end.

(** The sort keys of a row. *)
Definition sort_keys (sorts : list SortBy) (row : Row) : option (list D) :=
  mapM (fun s => eval_expression row (sortby_expression s)) sorts.

(** Rows are output rows with the rows whose columns an [ORDER BY] sees. *)
Definition order_rows (sorts : list SortBy) (rows : list (Row * Row))
    : option (list (Row * Row)) :=
  match sorts with
  | [] => Some rows
  | _ =>
      keys ← mapM (fun row => sort_keys sorts row.2) rows;
      Some (snd <$> sql_sort (fun x y => keys_before sorts x.1 y.1) (zip keys rows))
  end.

(** ** Limits *)

Definition limit_rows {A} (limit : option Z) (rows : list A) : option (list A) :=
  match limit with
  | None => Some rows
  | Some n => if (n <? 0)%Z then None else Some (take (Z.to_nat n) rows)
  end.
Definition offset_rows {A} (offset : option Z) (rows : list A) : option (list A) :=
  match offset with
  | None => Some rows
  | Some n => if (n <? 0)%Z then None else Some (drop (Z.to_nat n) rows)
  end.

(** ** Selections *)

Definition project_target (row : Row) (t : Target) : option Row :=
  match t with
  | TStar (mkStar None None) => Some row
  | TStar _ => None
  | TResult (mkResultTarget e label) =>
      value ← eval_expression row e; Some [(default (output_name e) label, value)]
  end.

Definition project_row (targets : list Target) (row : Row) : option Row :=
  @concat _ <$> mapM (project_target row) targets.

Fixpoint product (tables : list Table) : Table :=
  match tables with
  | [] => [[]]
  | table :: rest => row ← table; app row <$> product rest
  end.

Fixpoint filter_rows (test : Row -> option bool) (rows : Table) : option Table :=
  match rows with
  | [] => Some []
  | row :: rest =>
      keep ← test row; rest' ← filter_rows test rest;
      Some (if keep : bool then row :: rest' else rest')
  end.

Definition single {A} (l : option (list A)) : option A :=
  match l with Some [a] => Some a | _ => None end.

(** The values of a row constructor. *)
Definition row_values (values : list (option (list D))) : option (list D) :=
  @concat D <$> mapM id values.

Fixpoint operand_values (db : Database) (row : Row) (o : ConditionOperand)
    : option (option (list D)) :=
  match o with
  | OExpression e => value ← eval_expression row e; Some (Some [value])
  | OIterable operands =>
      values ← mapM (operand_values db row) operands;
      Some (row_values values)
  | OQuery q =>
      rows ← eval_query db q;
      match rows with
      | [] => Some None
      | [r] => Some (Some r.*2)
      | _ => None
      end
  end
with eval_condition (db : Database) (row : Row) (c : Condition) : option bool :=
  match c with
  | mkCondition (Some l) (Some r) (Some op) =>
      if has_value op then
        lv ← operand_values db row l;
        rv ← operand_values db row r;
        test op lv rv
      else lv ← operand_values db row l; value ← single lv; null_test op value
  | _ => None
  end
with eval_query (db : Database) (q : Query) : option Table :=
  match q with
  | mkQuery ctes unions targets tables subqueries conditions sorts limit offset =>
      db' ← (fix add (db : Database) (ctes : list (Query * string)) : option Database :=
        match ctes with
        | [] => Some db
        | (cte, name) :: rest => table ← eval_query db cte; add ((name, table) :: db) rest
        end) db ctes;
      rows ←
        match unions with
        | Some (queries, mode) =>
            answers ← mapM (eval_query db') queries;
            let rows := concat answers in
            let rows := match mode with ALL => rows | DISTINCT => remove_dups rows end in
            Some ((fun row => (row, row)) <$> rows)
        | None =>
            sources ← mapM (dict_get db') tables;
            answers ← mapM (fun p => match p with (subquery, _) => eval_query db' subquery end)
              subqueries;
            kept ← filter_rows (fun row =>
                forallb id <$> mapM (eval_condition db' row) conditions)
              (product (sources ++ answers));
            mapM (fun row => out ← project_row targets row; Some (out, out ++ row)) kept
        end;
      ordered ← order_rows sorts rows;
      skipped ← offset_rows offset ordered.*1;
      limit_rows limit skipped
  end.

Lemma eval_compare db row l op r :
  has_value op = true ->
  eval_condition db row (compare l op r) =
  lv ← operand_values db row l; rv ← operand_values db row r; test op lv rv.
Proof. intros Hop. cbn. by rewrite Hop. Qed.

Lemma union_rows sorts limit (answers : option (list Table)) :
  (rows ← (tables ← answers; Some ((fun row : Row => (row, row)) <$> concat tables));
   ordered ← order_rows sorts rows;
   skipped ← offset_rows None ordered.*1; limit_rows limit skipped) =
  (tables ← answers;
   ordered ← order_rows sorts ((fun row => (row, row)) <$> concat tables);
   limit_rows limit ordered.*1).
Proof. destruct answers as [tables|]; [|done]. cbn. by destruct (order_rows sorts _). Qed.

Lemma eval_union_all db queries sorts limit (tables : list Table) :
  mapM (eval_query db) queries = Some tables ->
  eval_query db (mkQuery [] (Some (queries, ALL)) [] [] [] [] sorts limit None) =
  (ordered ← order_rows sorts ((fun row => (row, row)) <$> concat tables);
   limit_rows limit ordered.*1).
Proof.
  intros E. pose proof (union_rows sorts limit (mapM (eval_query db) queries)) as Hu.
  rewrite E in Hu at 2. exact Hu.
Qed.

Lemma eval_operand_query db row q :
  operand_values db row (OQuery q) =
  rows ← eval_query db q;
  match rows with [] => Some None | [r] => Some (Some r.*2) | _ => None end.
Proof. done. Qed.
End sql.
Arguments Row : clear implicits.
Arguments Table : clear implicits.
Arguments Database : clear implicits.

(** What the server promises: comparison is a total preorder on what it compares, and on
    strings it separates what differs; a sort is a reordering, sorted where the order is one. *)
Class SqlLaws (D : Type) `{SqlEngine D} := {
  compare_opp : forall x y : D, sql_compare y x = CompOpp <$> sql_compare x y;
  compare_trans : forall x y z : D,
    sql_compare x y = Some Lt -> sql_compare y z = Some Lt -> sql_compare x z = Some Lt;
  compare_eq_l : forall x y z : D,
    sql_compare x y = Some Eq -> sql_compare x z = sql_compare y z;
  compare_strings : forall s t, exists c,
    sql_compare (sql_param (PStr s)) (sql_param (PStr t)) = Some c /\ (c = Eq <-> s = t);
  sort_permutation : forall A (lt : A -> A -> bool) l, sql_sort lt l ≡ₚ l;
  sort_sorted : forall A (lt : A -> A -> bool) l,
    ordering_on lt (fun x => x ∈ l) -> StronglySorted (not_after lt) (sql_sort lt l)
}.

(** ** Sort keys as an order *)
Section orders.
Context {D : Type} `{SqlLaws D}.
Implicit Types (x y z : D) (l m k : list D) (ds : list SortDirection).

Definition comparable l m : Prop := Forall2 (fun x y => is_Some (sql_compare x y)) l m.

Lemma order_compare_some d x y c :
  sql_compare x y = Some c -> order_compare d x y = match d with ASC => c | DESC => CompOpp c end.
Proof. intros E. unfold order_compare. by rewrite E. Qed.

Lemma keys_compare_opp ds l m :
  comparable l m -> keys_compare ds m l = CompOpp (keys_compare ds l m).
Proof.
  intros Hlm. revert ds. induction Hlm as [|x y l m [c Hc] _ IH]; intros [|d ds]; try done.
  cbn. assert (sql_compare y x = Some (CompOpp c)) as Hc' by by rewrite compare_opp, Hc.
  rewrite (order_compare_some d x y c Hc), (order_compare_some d y x _ Hc').
  destruct d, c; cbn; auto.
Qed.

Lemma keys_compare_eq_l ds l m k :
  comparable l m -> comparable m k ->
  keys_compare ds l m = Eq -> keys_compare ds l k = keys_compare ds m k.
Proof.
  intros Hlm. revert ds k. induction Hlm as [|x y l m [c Hc] _ IH]; intros [|d ds] k Hmk; try done.
  inversion Hmk as [|? z ? k' [c' Hc'] Hmk']; subst. cbn.
  rewrite (order_compare_some d x y c Hc), (order_compare_some d y z c' Hc').
  intros E. assert (c = Eq) as -> by by destruct d, c.
  rewrite (order_compare_some d x z c') by by rewrite (compare_eq_l x y z Hc).
  destruct d; cbn in *; by rewrite (IH ds k').
Qed.

Lemma compare_flip x y c : sql_compare x y = Some c <-> sql_compare y x = Some (CompOpp c).
Proof.
  rewrite (compare_opp x y). destruct (sql_compare x y) as [[]|], c; cbn; split; congruence.
Qed.

Lemma compare_step x y z c c' :
  sql_compare x y = Some c -> sql_compare y z = Some c' -> c = c' \/ c = Eq \/ c' = Eq ->
  sql_compare x z = Some (match c with Eq => c' | _ => c end).
Proof.
  intros Hc Hc' Hor. destruct c.
  - by rewrite (compare_eq_l x y z).
  - destruct c'; [|by apply (compare_trans x y z)|naive_solver].
    apply compare_flip in Hc'. apply compare_flip. by rewrite (compare_eq_l z y x), compare_flip.
  - apply compare_flip in Hc, Hc'. apply compare_flip.
    destruct c'; [|naive_solver|by apply (compare_trans z y x)].
    by rewrite (compare_eq_l z y x).
Qed.

Lemma keys_compare_trans ds l m k :
  comparable l m -> comparable m k ->
  keys_compare ds l m = Lt -> keys_compare ds m k = Lt -> keys_compare ds l k = Lt.
Proof.
  intros Hlm. revert ds k. induction Hlm as [|x y l m [c Hc] _ IH]; intros [|d ds] k Hmk; try done.
  inversion Hmk as [|? z ? k' [c' Hc'] Hmk']; subst. cbn.
  rewrite (order_compare_some d x y c Hc), (order_compare_some d y z c' Hc').
  intros E1 E2.
  rewrite (order_compare_some d x z _ (compare_step x y z c c' Hc Hc'
    ltac:(destruct d, c, c'; cbn in *; auto; discriminate))).
  destruct d, c, c'; cbn in *; try done; by apply IH.
Qed.

Lemma comparable_sym l m : comparable l m -> comparable m l.
Proof.
  induction 1 as [|x y l m [c Hc] _ IH]; constructor; [|done].
  exists (CompOpp c). by apply compare_flip in Hc.
Qed.

Lemma comparable_length l m : comparable l m -> length l = length m.
Proof. apply Forall2_length. Qed.

(** Keys that compare pairwise are ordered by any directions. *)
Lemma keys_before_order {A} (sorts : list SortBy) (keys : A -> list D) (P : A -> Prop) :
  (forall a b, P a -> P b -> comparable (keys a) (keys b)) ->
  ordering_on (fun a b => keys_before sorts (keys a) (keys b)) P.
Proof.
  intros Hk. unfold keys_before. set (ds := direction_of <$> sorts).
  split.
  - intros a b Ha Hb. rewrite (keys_compare_opp ds (keys a)) by auto.
    by destruct (keys_compare ds (keys a) (keys b)).
  - intros a b c Ha Hb Hc.
    rewrite (keys_compare_opp ds (keys a)), (keys_compare_opp ds (keys b) (keys c)),
      (keys_compare_opp ds (keys a) (keys c)) by auto.
    destruct (keys_compare ds (keys a) (keys b)) eqn:E1; [| |done];
      destruct (keys_compare ds (keys b) (keys c)) eqn:E2; try done; intros _ _.
    + by rewrite (keys_compare_eq_l ds _ _ _ (Hk _ _ Ha Hb) (Hk _ _ Hb Hc) E1), E2.
    + by rewrite (keys_compare_eq_l ds _ _ _ (Hk _ _ Ha Hb) (Hk _ _ Hb Hc) E1), E2.
    + assert (keys_compare ds (keys c) (keys b) = Eq) as E2'
        by by rewrite (keys_compare_opp ds (keys b)), E2 by auto.
      pose proof (keys_compare_eq_l ds _ _ _ (Hk _ _ Hc Hb) (Hk _ _ Hb Ha) E2') as E3.
      rewrite (keys_compare_opp ds (keys a) (keys c)), (keys_compare_opp ds (keys a) (keys b)), E1
        in E3 by auto.
      by destruct (keys_compare ds (keys a) (keys c)).
    + by rewrite (keys_compare_trans ds _ _ _ (Hk _ _ Ha Hb) (Hk _ _ Hb Hc) E1 E2).
Qed.

(** With one direction throughout, sort keys compare as rows do. *)
Lemma keys_compare_uniform d ds l m :
  comparable l m -> length ds = length l -> Forall (fun d' => d' = d) ds ->
  exists c, row_compare l m = Some c /\
    keys_compare ds l m = match d with ASC => c | DESC => CompOpp c end.
Proof.
  intros Hlm. revert ds. induction Hlm as [|x y l m [c Hc] _ IH]; intros [|d' ds]; try done.
  { intros _ _. exists Eq. by destruct d. }
  intros [= Hlen] [-> Hds]%Forall_cons. cbn. rewrite Hc, (order_compare_some d x y c Hc).
  destruct (IH ds Hlen Hds) as (c' & Hr & Hk).
  destruct c; [exists c'|exists Lt|exists Gt]; by destruct d; cbn; rewrite ?Hk.
Qed.
Lemma keys_compare_app ds ds' l l' m m' :
  length ds = length l -> length l = length m ->
  keys_compare (ds ++ ds') (l ++ l') (m ++ m') =
  match keys_compare ds l m with Eq => keys_compare ds' l' m' | outcome => outcome end.
Proof.
  revert l m. induction ds as [|d ds IH]; intros [|x l] [|y m]; try done.
  cbn. intros [= Hl] [= Hm]. rewrite IH by done. by destruct (order_compare d x y).
Qed.

Lemma keys_compare_reverse ds l m :
  keys_compare (reverse_direction <$> ds) l m = CompOpp (keys_compare ds l m).
Proof.
  revert l m. induction ds as [|d ds IH]; intros [|x l] [|y m]; try done. cbn. rewrite IH.
  unfold order_compare.
  by destruct d, (match sql_compare x y with Some c => c | None => _ end).
Qed.

(** [l] goes before [m] by its first key, or by its second and the first is equal, and so
    on: at most one of these holds. *)
Fixpoint splits ds l m : list bool :=
  match ds, l, m with
  | d :: ds', x :: l', y :: m' =>
      match order_compare d x y with Lt => true | _ => false end ::
      (andb (match order_compare d x y with Eq => true | _ => false end) <$> splits ds' l' m')
  | _, _, _ => []
  end.

Lemma splits_length ds l m :
  length ds = length l -> length l = length m -> length (splits ds l m) = length ds.
Proof.
  revert l m. induction ds as [|d ds IH]; intros [|x l] [|y m]; try done. cbn.
  intros [= Hl] [= Hm]. by rewrite length_fmap, IH.
Qed.

Lemma splits_before ds l m :
  existsb id (splits ds l m) = match keys_compare ds l m with Lt => true | _ => false end.
Proof.
  revert l m. induction ds as [|d ds IH]; intros [|x l] [|y m]; try done. cbn.
  assert (forall b bs, existsb id (andb b <$> bs) = b && existsb id bs) as Hand.
  { intros b bs. induction bs as [|c bs IHb]; cbn; [by destruct b|]. rewrite IHb. unfold id.
    by destruct b, c. }
  rewrite Hand, IH. unfold id. by destruct (order_compare d x y), (keys_compare ds l m).
Qed.

Lemma nth_andb (b : bool) (bs : list bool) (i : nat) :
  nth i (andb b <$> bs) false = b && nth i bs false.
Proof.
  revert i. induction bs as [|c bs IH]; intros [|i]; cbn; try (by destruct b); done.
Qed.

Lemma splits_disjoint ds l m i j :
  (i < j)%nat -> nth i (splits ds l m) false = true -> nth j (splits ds l m) false = false.
Proof.
  revert l m i j. induction ds as [|d ds IH]; intros [|x l] [|y m] [|i] [|j] Hij; cbn; try done; try lia.
  - destruct (order_compare d x y); try done. intros _.
    generalize (splits ds l m). intros bs. revert j Hij. clear.
    induction bs as [|b bs IHb]; intros [|j] Hij; cbn; try done. by apply (IHb j); lia.
  - set (b := match order_compare d x y with Eq => true | _ => false end).
    rewrite !nth_andb. intros [-> Hi]%andb_true_iff. cbn. apply (IH l m i j); [lia|done].
Qed.
End orders.
