(* ===== verification/PostgresPages.v ===== *)
(** What the pages of [PostgresPaging] are made of: facts about sorted lists and their
    parts, and the evaluation of the selections, subqueries and rows that paging queries
    consist of. *)
From S2P Require Import Prelude Values Conversion Events Conditions Query MemoryQuery.
From S2P Require Import QueryTheory PostgresQuery PostgresQueryTheory.
From S2P Require Import PostgresConverters PostgresSql.

(** ** Lists *)
Section lists.
Context {A : Type}.
Implicit Types (l m : list A) (P Q : A -> bool).

Lemma filter_ext_elem P Q l :
  (forall x, x ∈ l -> P x = Q x) -> List.filter P l = List.filter Q l.
Proof. intros HPQ. apply filter_ext_in. intros x Hx%list_elem_of_In. auto. Qed.

Lemma NoDup_List_filter P l : NoDup l -> NoDup (List.filter P l).
Proof. rewrite !NoDup_ListNoDup. apply List.NoDup_filter. Qed.

#[global] Instance List_filter_Permutation P : Proper ((≡ₚ) ==> (≡ₚ)) (List.filter P).
Proof.
  induction 1 as [|x l m _ IH|x y l|l m k _ IH1 _ IH2]; cbn; [done| | |by etrans].
  - destruct (P x); by rewrite ?IH.
  - destruct (P x), (P y); try done. apply Permutation_swap.
Qed.

(** Elements kept early stay early. *)
Lemma elem_take_filter n P l x :
  x ∈ take n l -> P x = true -> x ∈ take n (List.filter P l).
Proof.
  revert n. induction l as [|y l IH]; intros [|n] Hx HP; try by apply not_elem_of_nil in Hx.
  cbn in Hx |- *. apply elem_of_cons in Hx as [->|Hx].
  - rewrite HP. constructor.
  - specialize (IH n Hx HP). destruct (P y); [by constructor|].
    apply elem_of_take in IH as (i & Hi & Hlt). apply elem_of_take. exists i. split; [done|lia].
Qed.

Lemma take_filter_kept n P l :
  (forall x, x ∈ take n l -> P x = true) -> take n (List.filter P l) = take n l.
Proof.
  revert n. induction l as [|y l IH]; intros [|n] HP; try done. cbn in HP |- *.
  rewrite HP by constructor. cbn. f_equal. apply IH. intros x Hx. apply HP. by constructor.
Qed.

(** The last [n] of the first [i]. *)
Lemma last_of_prefix n i l :
  (i <= length l)%nat ->
  reverse (take n (reverse (take i l))) = take (Nat.min n i) (drop (i - n) l).
Proof.
  intros Hi. rewrite take_reverse, reverse_involutive, length_take, Nat.min_l by done.
  rewrite take_drop_commute. f_equal. f_equal. lia.
Qed.

(** Sorted lists with the same elements, when the order separates them. *)
Section total_order.
Context (lt : A -> A -> bool) (l : list A).

Definition separates : Prop := forall x y, x ∈ l -> y ∈ l -> lt x y = false -> lt y x = false -> x = y.

Lemma sorted_unique m1 m2 :
  separates -> m1 ⊆ l -> m1 ≡ₚ m2 ->
  StronglySorted (not_after lt) m1 -> StronglySorted (not_after lt) m2 -> m1 = m2.
Proof.
  intros Hs Hsub Hp H1 H2. eapply (StronglySorted_unique_strong (not_after lt)); [|done..].
  intros x y Hx Hy Hxy Hyx. apply Hs; [by apply Hsub| |done|done].
  apply Hsub. by rewrite Hp.
Qed.

Lemma StronglySorted_List_filter P m :
  StronglySorted (not_after lt) m -> StronglySorted (not_after lt) (List.filter P m).
Proof.
  induction 1 as [|x m Hm IH Hx]; cbn; [constructor|]. destruct (P x); [|done].
  constructor; [done|]. rewrite Forall_forall in Hx |- *. intros y [Hy _]%elem_filter. auto.
Qed.

Lemma StronglySorted_take n m :
  StronglySorted (not_after lt) m -> StronglySorted (not_after lt) (take n m).
Proof.
  intros Hm. revert n. induction Hm as [|x m Hm IH Hx]; intros [|n]; cbn; try constructor; auto.
  rewrite Forall_forall in Hx |- *. intros y (i & Hi & _)%elem_of_take.
  apply Hx. by apply list_elem_of_lookup_2 with i.
Qed.

Lemma StronglySorted_reverse (lt' : A -> A -> bool) m :
  (forall x y, x ∈ m -> y ∈ m -> lt' x y = lt y x) ->
  StronglySorted (not_after lt) m -> StronglySorted (not_after lt') (reverse m).
Proof.
  intros Hlt Hm. induction Hm as [|x m Hm IH Hx]; [constructor|].
  rewrite reverse_cons. apply StronglySorted_app_2; [| |repeat constructor].
  - intros y z Hy ->%list_elem_of_singleton. rewrite elem_of_reverse in Hy.
    rewrite Forall_forall in Hx.
    unfold not_after. rewrite Hlt; [by apply Hx|constructor|by constructor].
  - apply IH. intros y z Hy Hz. apply Hlt; by constructor.
Qed.

Context (Hord : ordering_on lt (fun x => x ∈ l)) (Hsep : separates).

Lemma sort_filter P m :
  m ⊆ l -> sort_stable lt (List.filter P m) = List.filter P (sort_stable lt m).
Proof.
  intros Hm. apply sorted_unique; [done| | | |].
  - intros x Hx%sort_stable_elem_of; apply elem_filter in Hx as [Hx _]. by apply Hm.
  - by rewrite !sort_stable_Permutation.
  - apply (sort_stable_Sorted lt Hord). apply Forall_forall. intros x [Hx _]%elem_filter.
    by apply Hm.
  - apply StronglySorted_List_filter. apply (sort_stable_Sorted lt Hord).
    apply Forall_forall. intros x Hx. by apply Hm.
Qed.

(** What an engine may answer: the rows, in order. *)
Lemma sort_determined m m' :
  m ⊆ l -> m' ≡ₚ m -> StronglySorted (not_after lt) m' -> m' = sort_stable lt m.
Proof.
  intros Hm Hp Hs. apply sorted_unique; [done| | |done|].
  - intros x Hx. apply Hm. by rewrite <-Hp.
  - by rewrite sort_stable_Permutation.
  - apply (sort_stable_Sorted lt Hord). apply Forall_forall. intros x Hx. by apply Hm.
Qed.

Lemma parts_NoDup n (Ps : list (A -> bool)) (m : list A) :
  NoDup m -> StronglySorted (fun P Q => forall x, x ∈ m -> P x = true -> Q x = false) Ps ->
  NoDup (concat ((fun P => take n (List.filter P m)) <$> Ps)).
Proof.
  intros Hnd. assert (forall P x, x ∈ take n (List.filter P m) -> x ∈ m /\ P x = true) as Hpart.
  { intros P x (i & Hi & _)%elem_of_take. by apply list_elem_of_lookup_2, elem_filter in Hi. }
  induction 1 as [|P Ps HPs IH Hdis]; [constructor|]. cbn. apply NoDup_app. split_and!; [| |done].
  - apply (sublist_NoDup _ (List.filter P m)); [by apply NoDup_List_filter|apply sublist_take].
  - intros x [Hx HP]%Hpart (Q & HQ & [_ HQx]%Hpart)%elem_of_concat_fmap.
    rewrite Forall_forall in Hdis. by rewrite (Hdis Q HQ x Hx HP) in HQx.
Qed.

(** Around one of its elements, a sorted list falls into what is before and what is after. *)
Lemma sorted_split m1 x m2 :
  m1 ++ x :: m2 ⊆ l -> NoDup (m1 ++ x :: m2) ->
  StronglySorted (not_after lt) (m1 ++ x :: m2) ->
  List.filter (lt x) (m1 ++ x :: m2) = m2 /\
  List.filter (fun y => lt y x) (m1 ++ x :: m2) = m1.
Proof.
  intros Hm Hnd Hs.
  apply NoDup_app in Hnd as (_ & Hdis & Hnd2). apply NoDup_cons in Hnd2 as [Hx2 _].
  assert (forall y, y ∈ m1 \/ y = x \/ y ∈ m2 -> y ∈ l) as Hin.
  { intros y Hy. apply Hm. rewrite elem_of_app, elem_of_cons. naive_solver. }
  apply StronglySorted_app in Hs as (H12 & _ & Hs2). inversion Hs2 as [|? ? _ H2]; subst.
  rewrite Forall_forall in H2.
  assert (lt x x = false) as Hxx.
  { destruct (lt x x) eqn:E; [|done]. rewrite <-E. apply (order_asym _ _ Hord); auto. }
  assert (forall y, y ∈ m1 -> lt x y = false /\ lt y x = true) as Hl1.
  { intros y Hy. assert (lt x y = false) as E by (apply (H12 y x Hy); constructor).
    split; [done|]. apply not_false_iff_true. intros E'.
    apply (Hdis y Hy). rewrite (Hsep y x); auto. constructor. }
  assert (forall y, y ∈ m2 -> lt y x = false /\ lt x y = true) as Hl2.
  { intros y Hy. assert (lt y x = false) as E by (by apply H2). split; [done|].
    apply not_false_iff_true. intros E'. apply Hx2. rewrite (Hsep x y); auto. }
  rewrite !List.filter_app. cbn. rewrite Hxx.
  assert (forall (P : A -> bool) k, (forall y, y ∈ k -> P y = false) -> List.filter P k = []) as Hnone.
  { intros P k Hk. induction k as [|y k IH]; [done|]. cbn. rewrite Hk by constructor.
    apply IH. intros z Hz. apply Hk. by constructor. }
  split.
  - rewrite Hnone, filter_all; [done| |]; intros y Hy; [by apply Hl2|by apply Hl1].
  - rewrite (Hnone _ m2), filter_all, app_nil_r; [done| |]; intros y Hy; [by apply Hl1|by apply Hl2].
Qed.

(** Merging the first [n] of each of disjoint parts of a sorted list gives the first [n] of
    their union. *)
Lemma merge_parts `{EqDecision A} n (Ps : list (A -> bool)) (m : list A) :
  NoDup m -> m ⊆ l -> StronglySorted (not_after lt) m ->
  StronglySorted (fun P Q => forall x, x ∈ m -> P x = true -> Q x = false) Ps ->
  take n (sort_stable lt (concat ((fun P => take n (List.filter P m)) <$> Ps))) =
  take n (List.filter (fun x => existsb (fun P : A -> bool => P x) Ps) m).
Proof.
  intros Hnd Hm Hs Hdis.
  set (part := fun P : A -> bool => take n (List.filter P m)).
  set (keep := fun x => existsb (fun P => bool_decide (x ∈ part P)) Ps).
  assert (forall x P, x ∈ part P -> x ∈ m /\ P x = true) as Hpart.
  { intros x P (i & Hi & _)%elem_of_take. by apply list_elem_of_lookup_2, elem_filter in Hi. }
  assert (forall x, keep x = true <-> exists P, P ∈ Ps /\ x ∈ part P) as Hkeep.
  { intros x. unfold keep. rewrite existsb_exists. setoid_rewrite bool_decide_eq_true.
    by setoid_rewrite list_elem_of_In. }
  assert (concat (part <$> Ps) ≡ₚ List.filter keep m) as Hp.
  { apply NoDup_Permutation; [|by apply NoDup_List_filter|].
    - by apply parts_NoDup.
    - intros x. rewrite elem_of_concat_fmap, elem_filter, Hkeep. naive_solver. }
  rewrite <-(sort_determined (concat (part <$> Ps)) (List.filter keep m)); [|..|done|].
  - rewrite <-(take_filter_kept n keep
      (List.filter (fun x => existsb (fun P : A -> bool => P x) Ps) m)).
    + rewrite filter_twice. f_equal. apply filter_ext_elem. intros x Hx.
      apply eq_true_iff_eq. rewrite andb_true_iff, Hkeep, existsb_exists.
      setoid_rewrite <-list_elem_of_In. split; [|by intros [_ ?]]. intros (P & HP & HxP).
      split; [|by exists P]. exists P. split; [done|]. by apply Hpart in HxP as [_ ?].
    + intros x Hx. apply Hkeep.
      pose proof Hx as (i & Hi & _)%elem_of_take.
      apply list_elem_of_lookup_2, elem_filter in Hi as [Hxm (P & HP%list_elem_of_In & HPx)%existsb_exists].
      exists P. split; [done|]. unfold part.
      apply (elem_take_filter n P) in Hx; [|done]. rewrite filter_twice in Hx.
      erewrite filter_ext_elem; [exact Hx|]. intros y _. cbn.
      apply eq_true_iff_eq. rewrite andb_true_iff, existsb_exists.
      setoid_rewrite <-list_elem_of_In. split; [|by intros [_ ?]]. intros HPy.
      split; [by exists P|done].
  - intros x (P & HP & Hx)%elem_of_concat_fmap. apply Hpart in Hx as [Hx _]. by apply Hm.
  - by apply StronglySorted_List_filter.
Qed.

End total_order.
End lists.

(** ** Evaluation of the queries' parts *)
Section evaluation.
Context {D : Type} `{SqlLaws D}.
Implicit Types (r s : Row D) (m : Table D) (ss : list postgres.SortBy).

Definition star : postgres.Target := postgres.TStar (postgres.mkStar None None).

(** An output row in front of the row it comes from changes nothing. *)
Lemma dict_get_twice r field : dict_get (r ++ r) field = dict_get r field.
Proof.
  enough (forall r', dict_get (r ++ r') field =
    match dict_get r field with Some v => Some v | None => dict_get r' field end) as Happ.
  { rewrite Happ. by destruct (dict_get r field). }
  intros r'. induction r as [|[n v] r IH]; cbn; [done|]. by case_decide.
Qed.

Lemma eval_expression_twice r e : eval_expression (r ++ r) e = eval_expression r e.
Proof.
  revert e. apply (syntax_rule (fun e => eval_expression (r ++ r) e = eval_expression r e)
    (fun _ => True) (fun _ => True) (fun _ => True) (fun _ => True) (fun _ => True)); try done; cbn.
  - intros name l Hl. assert (mapM (eval_expression (r ++ r)) l = mapM (eval_expression r) l) as ->;
      [|done]. induction Hl as [|e l He _ IH]; [done|]. cbn. by rewrite He, IH.
  - intros e t ->. done.
  - intros [] [] f; try done. apply dict_get_twice.
Qed.

Lemma sort_keys_twice ss r : sort_keys ss (r ++ r) = sort_keys ss r.
Proof.
  unfold sort_keys. induction ss as [|s ss IH]; [done|]. cbn. by rewrite eval_expression_twice, IH.
Qed.

Lemma mapM_some {A B} (f : A -> option B) (g : A -> B) l :
  (forall a, a ∈ l -> f a = Some (g a)) -> mapM f l = Some (g <$> l).
Proof.
  induction l as [|a l IH]; intros Hf; [done|]. cbn. rewrite Hf by constructor.
  cbn. rewrite IH; [done|]. intros b Hb. apply Hf. by constructor.
Qed.

Lemma mapM_app {A B} (f : A -> option B) l1 l2 :
  mapM f (l1 ++ l2) = k1 ← mapM f l1; k2 ← mapM f l2; Some (k1 ++ k2).
Proof.
  induction l1 as [|a l1 IH]; cbn; [by destruct (mapM f l2)|].
  destruct (f a); [|done]. cbn. rewrite IH. destruct (mapM f l1); [|done]. cbn.
  by destruct (mapM f l2).
Qed.

Lemma filter_rows_keep (test : Row D -> option bool) (keep : Row D -> bool) m :
  (forall r, r ∈ m -> test r = Some (keep r)) -> filter_rows test m = Some (List.filter keep m).
Proof.
  induction m as [|r m IH]; intros Ht; [done|]. cbn. rewrite Ht by constructor.
  cbn. rewrite IH; [done|]. intros s Hs. apply Ht. by constructor.
Qed.

Lemma product_single m : product [m] = m.
Proof. cbn. induction m as [|r m IH]; [done|]. cbn. rewrite app_nil_r. by f_equal. Qed.

Lemma project_star m :
  mapM (fun row => out ← project_row [star] row; Some (out, out ++ row)) m =
  Some ((fun r => (r, r ++ r)) <$> m).
Proof. apply mapM_some. intros r _. cbn. by rewrite app_nil_r. Qed.

(** The rows of a table ordered by sorts that separate them. *)
Section ordered.
Context (T : Table D) (ss : list postgres.SortBy) (keys : Row D -> list D).
Context (Hss : ss <> []).
Context (Hkeys : forall r, r ∈ T -> sort_keys ss r = Some (keys r)).
Context (Hcmp : forall r s, r ∈ T -> s ∈ T -> comparable (keys r) (keys s)).

Definition before r s : bool := keys_before ss (keys r) (keys s).

Context (Hsep : separates before T).

Lemma before_order : ordering_on before (fun r => r ∈ T).
Proof. by apply (keys_before_order ss keys). Qed.

Lemma order_rows_sorted (source : Row D -> Row D) m :
  m ⊆ T -> (forall r, r ∈ m -> sort_keys ss (source r) = sort_keys ss r) ->
  order_rows ss ((fun r => (r, source r)) <$> m) =
  Some ((fun r => (r, source r)) <$> sort_stable before m).
Proof.
  intros Hm Hsource. set (f := fun r => (r, source r)).
  set (g := fun r => (keys r, f r)).
  assert (mapM (fun row => sort_keys ss row.2) (f <$> m) = Some (keys <$> m)) as Hk.
  { rewrite (mapM_some _ (fun row => keys row.1)).
    - f_equal. rewrite <-list_fmap_compose. by apply list_fmap_ext.
    - intros row (r & -> & Hr)%list_elem_of_fmap. cbn. rewrite Hsource by done. by apply Hkeys, Hm. }
  assert (zip (keys <$> m) (f <$> m) = g <$> m) as Hz.
  { clear. induction m as [|r m IH]; [done|]. cbn. by f_equal. }
  set (lt := fun x y : list D * (Row D * Row D) => keys_before ss x.1 y.1).
  assert (order_rows ss (f <$> m) = Some (snd <$> sql_sort lt (g <$> m))) as ->.
  { unfold order_rows. destruct ss; [done|]. rewrite Hk. cbn [mbind option_bind]. by rewrite Hz. }
  destruct (Permutation_map_inv g m (sort_permutation _ lt (g <$> m))) as (m' & E0 & Hp).
  assert (sql_sort lt (g <$> m) = g <$> m') as E by exact E0. clear E0.
  assert (StronglySorted (not_after lt) (sql_sort lt (g <$> m))) as Hs.
  { apply sort_sorted. apply (keys_before_order ss fst).
    intros a b (r & -> & Hr)%list_elem_of_fmap (s & -> & Hs)%list_elem_of_fmap.
    apply Hcmp; by apply Hm. }
  rewrite E in Hs |- *. f_equal. rewrite <-list_fmap_compose.
  assert (m' = sort_stable before m) as <-; [|by apply list_fmap_ext].
  apply (sort_determined before T before_order Hsep m m' Hm); [by rewrite Hp|].
  clear -Hs. induction m' as [|r m' IH]; [constructor|]. inversion Hs as [|? ? Hs' Hr]; subst.
  constructor; [by apply IH|]. by rewrite Forall_fmap in Hr.
Qed.

(** [SELECT * FROM table WHERE conditions ORDER BY ss LIMIT n]. *)
Lemma eval_select db table conditions keep n :
  dict_get db table = Some T -> (0 <= n)%Z ->
  (forall r, r ∈ T -> forallb id <$> mapM (eval_condition db r) conditions = Some (keep r)) ->
  eval_query db (postgres.mkQuery [] None [star] [table] [] conditions ss (Some n) None) =
  Some (take (Z.to_nat n) (sort_stable before (List.filter keep T))).
Proof.
  intros Ht Hn Hkeep. cbn [eval_query mapM mbind option_bind]. rewrite Ht.
  cbn [mbind option_bind mret option_ret app]. rewrite product_single.
  rewrite (filter_rows_keep _ keep) by done. cbn [mbind option_bind]. rewrite project_star.
  cbn [mbind option_bind]. rewrite (order_rows_sorted (fun r => r ++ r)).
  - cbn [mbind option_bind offset_rows]. rewrite <-list_fmap_compose.
    unfold limit_rows. rewrite (proj2 (Z.ltb_ge n 0)) by done. by rewrite list_fmap_id.
  - intros r [Hr _]%elem_filter. done.
  - intros r _. apply sort_keys_twice.
Qed.

(** [SELECT * FROM (subquery) AS alias ORDER BY ss LIMIT n]. *)
Lemma eval_subquery db subquery alias m n :
  eval_query db subquery = Some m -> m ⊆ T -> (0 <= n)%Z ->
  eval_query db (postgres.mkQuery [] None [star] [] [(subquery, alias)] [] ss (Some n) None) =
  Some (take (Z.to_nat n) (sort_stable before m)).
Proof.
  intros Hq Hm Hn. cbn [eval_query mapM mbind option_bind]. rewrite Hq.
  cbn [mbind option_bind mret option_ret app]. rewrite product_single.
  rewrite (filter_rows_keep _ (fun _ => true)) by done. cbn [mbind option_bind].
  rewrite filter_all by done. rewrite project_star.
  cbn [mbind option_bind]. rewrite (order_rows_sorted (fun r => r ++ r)) by
    (done || (intros; apply sort_keys_twice)).
  cbn [mbind option_bind offset_rows]. rewrite <-list_fmap_compose.
  unfold limit_rows. rewrite (proj2 (Z.ltb_ge n 0)) by done. by rewrite list_fmap_id.
Qed.
End ordered.

(** [SELECT * FROM table]. *)
Lemma eval_table db table m :
  dict_get db table = Some m ->
  eval_query db (postgres.from_table table (postgres.select_all postgres.query)) = Some m.
Proof.
  intros Ht. cbn [eval_query postgres.from_table postgres.select_all postgres.query app mapM mbind
    option_bind]. rewrite Ht.
  cbn [mbind option_bind mret option_ret app]. rewrite product_single.
  rewrite (filter_rows_keep _ (fun _ => true)) by done. cbn [mbind option_bind].
  rewrite filter_all by done. change (postgres.TStar (postgres.mkStar None None)) with star.
  rewrite project_star. cbn. rewrite <-list_fmap_compose. f_equal. by rewrite list_fmap_id.
Qed.

(** A list of columns as an operand. *)
Lemma eval_columns db r (columns : list postgres.Expression) values :
  mapM (eval_expression r) columns = Some values ->
  operand_values db r (postgres.OIterable (postgres.OExpression <$> columns)) = Some (Some values).
Proof.
  intros Hv. cbn [operand_values].
  assert (mapM (operand_values db r) (postgres.OExpression <$> columns) =
    Some ((fun v => Some [v]) <$> values)) as ->.
  { revert values Hv. induction columns as [|e columns IH]; intros values; cbn.
    { by intros [= <-]. }
    destruct (eval_expression r e) as [v|]; [|done]. cbn.
    destruct (mapM (eval_expression r) columns) as [vs|]; [|done]. intros [= <-].
    cbn in IH. by rewrite (IH vs eq_refl). }
  cbn. f_equal. unfold row_values. clear Hv. induction values as [|v vs IH]; [done|]. cbn in *.
  destruct (mapM id ((fun v => Some [v]) <$> vs)) as [ls|]; [|done]. cbn in *. by simplify_eq.
Qed.
End evaluation.
