(* ===== verification/PostgresPaging.v ===== *)
(** The pages that key set paging asks of Postgres are the pages the in-memory adapter cuts:
    whatever sorts, direction and last id, the query that [KeySetPagingClauseQueryApplier]
    builds selects the same rows. *)
From S2P Require Import Prelude Values Conversion Events Conditions Query MemoryQuery.
From S2P Require Import QueryTheory PostgresQuery PostgresQueryTheory.
From S2P Require Import PostgresConverters PostgresSql PostgresPages.

(** ** Pages *)
Section pages.
Context {D : Type} `{SqlLaws D}.
Implicit Types (r s : Row D) (m : Table D) (ss : list postgres.SortBy).

(** A table of rows with unique ids, the sorts of a query on it, with comparable keys, and
    conditions that hold of the rows [keep] selects. *)
Context (table : string) (T : Table D) (row_id : Row D -> string).
Context (Hid : forall r, r ∈ T -> dict_get r "id"%string = Some (sql_param (PStr (row_id r)))).
Context (Hunique : NoDup (row_id <$> T)).
Context (sorts : list postgres.SortBy) (keys : Row D -> list D).
Context (Hkeys : forall r, r ∈ T -> sort_keys sorts r = Some (keys r)).
Context (Hcmp : forall r s, r ∈ T -> s ∈ T -> comparable (keys r) (keys s)).
Context (conditions : list postgres.Condition) (keep : Row D -> bool).
Context (Hkeep : forall db r, r ∈ T ->
  forallb id <$> mapM (eval_condition db r) conditions = Some (keep r)).
Context (db : Database D) (Hdb : dict_get db table = Some T) (Hlast : table <> "last"%string).
Context (n : Z) (Hn : (0 <= n)%Z).

Definition paged_query : postgres.Query :=
  postgres.mkQuery [] None [star] [table] [] conditions sorts None None.

(** The keys of rows under the sorts followed by the id. *)
Definition row_keys r : list D := keys r ++ [sql_param (PStr (row_id r))].
Definition row_expressions : list postgres.Expression := expressions sorts ++ [id_column].

Lemma row_id_inj r s : r ∈ T -> s ∈ T -> row_id r = row_id s -> r = s.
Proof.
  intros (i & Hi)%list_elem_of_lookup (j & Hj)%list_elem_of_lookup E.
  assert (i = j) as ->; [|by simplify_eq].
  apply (NoDup_lookup (row_id <$> T) i j (row_id r)); [done|..]; rewrite list_lookup_fmap.
  - by rewrite Hi.
  - by rewrite Hj, E.
Qed.

Lemma ids_comparable r s :
  exists c, sql_compare (sql_param (PStr (row_id r))) (sql_param (PStr (row_id s))) = Some c.
Proof. destruct (compare_strings (row_id r) (row_id s)) as (c & Hc & _). by exists c. Qed.

Lemma row_keys_comparable r s : r ∈ T -> s ∈ T -> comparable (row_keys r) (row_keys s).
Proof.
  intros Hr Hs. apply Forall2_app; [by apply Hcmp|]. constructor; [|constructor].
  apply ids_comparable.
Qed.

Lemma row_expressions_keys r :
  r ∈ T -> mapM (eval_expression r) row_expressions = Some (row_keys r).
Proof.
  intros Hr. unfold row_expressions, expressions, row_keys. specialize (Hkeys r Hr).
  revert Hkeys. unfold sort_keys. generalize (keys r).
  induction sorts as [|x l IH]; cbn; intros ks.
  - intros [= <-]. by rewrite (Hid r Hr).
  - destruct (eval_expression r (postgres.sortby_expression x)); [|done]. cbn.
    destruct (mapM _ l) as [ks'|] eqn:E; [|done]. intros [= <-]. cbn.
    by rewrite (IH ks' eq_refl).
Qed.

(** Sorts on these expressions, whatever their directions. *)
Definition on_row_keys ss : Prop := expressions ss = row_expressions.

Lemma row_sort_keys ss r : on_row_keys ss -> r ∈ T -> sort_keys ss r = Some (row_keys r).
Proof.
  intros Hss Hr. rewrite <-(row_expressions_keys r Hr), <-Hss. unfold sort_keys, expressions.
  clear. induction ss as [|x l IH]; [done|]. cbn. by rewrite IH.
Qed.

Lemma on_row_keys_length ss r : on_row_keys ss -> r ∈ T -> length ss = length (row_keys r).
Proof.
  intros Hss Hr%(row_sort_keys ss); [|done]. apply length_mapM in Hr. done.
Qed.

Lemma row_keys_length r : r ∈ T -> length (row_keys r) = S (length sorts).
Proof.
  intros Hr%Hkeys. apply length_mapM in Hr. unfold row_keys. rewrite length_app. cbn. lia.
Qed.

(** The id decides, if nothing else does. *)
Lemma row_keys_separate ss : on_row_keys ss -> separates (before ss row_keys) T.
Proof.
  intros Hss r s Hr Hs Hrs Hsr. unfold before, keys_before in Hrs, Hsr.
  rewrite (keys_compare_opp _ (row_keys r) (row_keys s)) in Hsr by by apply row_keys_comparable.
  destruct (keys_compare _ (row_keys r) (row_keys s)) eqn:E; [|done|done].
  clear Hrs Hsr. apply row_id_inj; [done..|].
  pose proof (on_row_keys_length ss r Hss Hr) as Hl.
  pose proof (row_keys_length r Hr) as Hl'. pose proof (row_keys_length s Hs) as Hl''.
  destruct ss as [|x ss _] using rev_ind; [cbn in Hl; lia|].
  rewrite length_app, Hl' in Hl. unfold row_keys in *. rewrite length_app in Hl', Hl''.
  cbn in Hl, Hl', Hl''.
  rewrite fmap_app, keys_compare_app in E by (rewrite ?length_fmap; lia).
  destruct (keys_compare (direction_of <$> ss) (keys r) (keys s)); [|done|done].
  destruct (compare_strings (row_id r) (row_id s)) as (c & Hc & Heq). cbn in E.
  rewrite (order_compare_some _ _ _ _ Hc) in E. apply Heq.
  by destruct (direction_of x), c.
Qed.

Lemma on_row_keys_nonempty ss : on_row_keys ss -> ss <> [].
Proof. intros Hss ->. unfold on_row_keys, row_expressions in Hss. by destruct (expressions sorts). Qed.

(** The rows the query selects without paging, in the order of [ss]. *)
Definition selected ss : Table D := sort_stable (before ss row_keys) (List.filter keep T).

(** A page is cut from the rows [P] of these. *)
Lemma eval_page ss db' conditions' P :
  on_row_keys ss -> dict_get db' table = Some T ->
  (forall r, r ∈ T -> forallb id <$> mapM (eval_condition db' r) conditions' = Some (P r)) ->
  eval_query db' (postgres.mkQuery [] None [star] [table] [] (conditions ++ conditions') ss
    (Some n) None) =
  Some (take (Z.to_nat n) (List.filter P (selected ss))).
Proof.
  intros Hss Hdb' HP.
  assert (ordering_on (before ss row_keys) (fun r => r ∈ T)) as Hord
    by by apply before_order, row_keys_comparable.
  rewrite (eval_select T ss row_keys) with (keep := fun r => keep r && P r).
  - rewrite <-filter_twice. unfold selected. f_equal. f_equal.
    apply (sort_filter _ T Hord (row_keys_separate ss Hss)).
    intros r [Hr _]%elem_filter. done.
  - by apply on_row_keys_nonempty.
  - intros r. by apply row_sort_keys.
  - apply row_keys_comparable.
  - by apply row_keys_separate.
  - done.
  - done.
  - intros r Hr. specialize (Hkeep db' r Hr). specialize (HP r Hr). revert Hkeep HP.
    rewrite mapM_app. destruct (mapM (eval_condition db' r) conditions) as [l1|]; [|done].
    destruct (mapM (eval_condition db' r) conditions') as [l2|]; [|done].
    cbn. intros [= <-] [= <-]. by rewrite forallb_app.
Qed.

(** *** The record a page starts after *)
Section last_record.
Context (last : Row D) (Hin : last ∈ T).

Definition last_row : Row D := zip (output_name <$> row_expressions) (row_keys last).
Definition last_db : Database D := ("last"%string, [last_row]) :: db.

Lemma last_db_table : dict_get last_db table = Some T.
Proof. cbn. by rewrite decide_False. Qed.

Lemma last_row_values : last_row.*2 = row_keys last.
Proof.
  unfold last_row. apply snd_zip. pose proof (row_expressions_keys last Hin) as Hl.
  apply length_mapM in Hl. rewrite length_fmap. lia.
Qed.

Lemma filter_row_id : List.filter (fun r => bool_decide (row_id r = row_id last)) T = [last].
Proof.
  clear Hid Hkeys Hcmp Hkeep Hdb. pose proof row_id_inj as Hinj.
  assert (NoDup T) as HT by by apply NoDup_fmap_1 in Hunique.
  apply list_elem_of_split in Hin as (T1 & T2 & ->).
  rewrite List.filter_app. cbn. rewrite bool_decide_true by done.
  assert (forall l, (forall r, r ∈ l -> r ∈ T1 ++ last :: T2 /\ r <> last) ->
    List.filter (fun r => bool_decide (row_id r = row_id last)) l = []) as Hnil.
  { intros l Hl. induction l as [|r l IH]; [done|]. cbn.
    destruct (Hl r) as [Hr Hne]; [constructor|]. rewrite bool_decide_false.
    - apply IH. intros r' Hr'. apply Hl. by constructor.
    - intros E. apply Hne. apply Hinj; [done| |done]. apply elem_of_app. right. constructor. }
  apply NoDup_app in HT as (HT1 & Hdis & HT2). apply NoDup_cons in HT2 as [Hnot HT2].
  rewrite !Hnil; [done|..].
  - intros r Hr. split; [apply elem_of_app; right; by constructor|]. by intros ->.
  - intros r Hr. split; [apply elem_of_app; by left|]. intros ->. apply (Hdis last Hr). constructor.
Qed.

Lemma project_columns r columns values :
  mapM (eval_expression r) columns = Some values ->
  project_row (postgres.to_result_target_or_star <$> (postgres.SelectExpression <$> columns)) r =
  Some (zip (output_name <$> columns) values).
Proof.
  intros Hv%mapM_Some_1. unfold project_row.
  rewrite (mapM_Some_2 (project_target r) _
    ((fun p => [p]) <$> zip (output_name <$> columns) values)).
  - cbn. f_equal. generalize (zip (output_name <$> columns) values). intros l.
    induction l as [|p l IH]; [done|]. cbn. by f_equal.
  - induction Hv as [|e v columns values He _ IH]; constructor; [|done]. cbn. by rewrite He.
Qed.

(** [SELECT row_expressions FROM table WHERE id = last_id LIMIT 1]. *)
Lemma eval_record_query :
  eval_query db (record_query (last_id_constant (Some (row_id last))) row_expressions table) =
  Some [last_row].
Proof.
  cbn [eval_query record_query postgres.limit postgres.where_ postgres.from_table postgres.select
    postgres.query app mapM mbind option_bind]. rewrite Hdb.
  cbn [mbind option_bind mret option_ret app]. rewrite product_single.
  rewrite (filter_rows_keep _ (fun r => bool_decide (row_id r = row_id last))).
  - rewrite filter_row_id. cbn [mbind option_bind mapM].
    rewrite (project_columns last _ (row_keys last)) by by apply row_expressions_keys.
    done.
  - intros r Hr. cbn. rewrite (Hid r Hr). cbn.
    destruct (compare_strings (row_id r) (row_id last)) as (c & Hc & Heq).
    change (PValue (VStr (row_id last))) with (PStr (row_id last)). rewrite Hc.
    cbn. f_equal. destruct c; cbn.
    + rewrite bool_decide_true; [done|]. by apply Heq.
    + rewrite bool_decide_false; [done|]. by intros ?%Heq.
    + rewrite bool_decide_false; [done|]. by intros ?%Heq.
Qed.

(** A query below the common table expression [last]. *)
Lemma eval_with_last u t f sub w o l k :
  eval_query db (with_last (Some (row_id last)) table row_expressions
    (postgres.mkQuery [] u t f sub w o l k)) =
  eval_query last_db (postgres.mkQuery [] u t f sub w o l k).
Proof.
  unfold with_last. cbn [postgres.with_query app eval_query]. rewrite eval_record_query.
  cbn [mbind option_bind]. done.
Qed.

(** *** Conditions on the rows after and before it *)
Definition after_op (d : postgres.SortDirection) : postgres.Operator :=
  match d with postgres.ASC => postgres.GREATER_THAN | postgres.DESC => postgres.LESS_THAN end.

Lemma eval_row_comparison op r :
  op = postgres.GREATER_THAN \/ op = postgres.LESS_THAN -> r ∈ T ->
  eval_condition last_db r (row_comparison_condition row_expressions op "last") =
  Some (match row_compare (row_keys r) (row_keys last) with
        | Some c => comparison_holds op c | None => false end).
Proof.
  intros Hop Hr. unfold row_comparison_condition.
  rewrite eval_compare by by destruct Hop as [->| ->].
  rewrite (eval_columns last_db r row_expressions (row_keys r)) by by apply row_expressions_keys.
  rewrite eval_operand_query, (eval_table last_db "last" [last_row]) by done.
  cbn [mbind option_bind]. rewrite last_row_values.
  assert (length (row_keys r) =? length (row_keys last) = true) as Hlen.
  { apply Nat.eqb_eq. by rewrite !row_keys_length. }
  destruct Hop as [->| ->]; cbn; by rewrite Hlen.
Qed.

Definition all_in (d : postgres.SortDirection) ss : Prop := Forall (fun x => direction_of x = d) ss.

Lemma uniform_compare d ss r s :
  on_row_keys ss -> all_in d ss -> r ∈ T -> s ∈ T ->
  exists c, row_compare (row_keys r) (row_keys s) = Some c /\
    keys_compare (direction_of <$> ss) (row_keys r) (row_keys s) =
    match d with postgres.ASC => c | postgres.DESC => CompOpp c end.
Proof.
  intros Hss Hd Hr Hs. apply keys_compare_uniform.
  - by apply row_keys_comparable.
  - rewrite length_fmap. by apply on_row_keys_length.
  - by apply Forall_fmap.
Qed.

Lemma eval_after d ss r :
  on_row_keys ss -> all_in d ss -> r ∈ T ->
  eval_condition last_db r (row_comparison_condition row_expressions (after_op d) "last") =
  Some (before ss row_keys last r).
Proof.
  intros Hss Hd Hr. rewrite eval_row_comparison by (done || destruct d; auto). f_equal.
  destruct (uniform_compare d ss r last Hss Hd Hr Hin) as (c & -> & Hk).
  unfold before, keys_before.
  rewrite (keys_compare_opp _ (row_keys r)), Hk by by apply row_keys_comparable.
  by destruct d, c.
Qed.

Lemma eval_before d ss r :
  on_row_keys ss -> all_in d ss -> r ∈ T ->
  eval_condition last_db r
    (row_comparison_condition row_expressions (after_op (postgres.reverse_direction d)) "last") =
  Some (before ss row_keys r last).
Proof.
  intros Hss Hd Hr. rewrite eval_row_comparison by (done || destruct d; auto). f_equal.
  destruct (uniform_compare d ss r last Hss Hd Hr Hin) as (c & -> & Hk).
  unfold before, keys_before. rewrite Hk. by destruct d, c.
Qed.

(** *** Reversed orders *)
Definition reversed ss ss' : Prop :=
  expressions ss' = expressions ss /\
  (direction_of <$> ss') = (postgres.reverse_direction ∘ direction_of) <$> ss.

Lemma reversed_on_row_keys ss ss' : on_row_keys ss -> reversed ss ss' -> on_row_keys ss'.
Proof. unfold on_row_keys. by intros <- [-> _]. Qed.

Lemma before_reversed ss ss' r s :
  on_row_keys ss -> reversed ss ss' -> r ∈ T -> s ∈ T ->
  before ss' row_keys r s = before ss row_keys s r.
Proof.
  intros Hss [_ Hd] Hr Hs. unfold before, keys_before.
  rewrite (keys_compare_opp _ (row_keys r) (row_keys s)) by by apply row_keys_comparable.
  rewrite Hd, list_fmap_compose.
  rewrite keys_compare_reverse.
  by destruct (keys_compare _ _ _).
Qed.

Lemma row_order ss : ordering_on (before ss row_keys) (fun r => r ∈ T).
Proof. by apply before_order, row_keys_comparable. Qed.

Lemma selected_in ss : selected ss ⊆ T.
Proof. intros r [Hr _]%sort_stable_elem_of%elem_filter. done. Qed.

Lemma selected_sorted ss : StronglySorted (not_after (before ss row_keys)) (selected ss).
Proof.
  apply (sort_stable_Sorted _ (row_order ss)). apply Forall_forall.
  by intros r [Hr _]%elem_filter.
Qed.

Lemma selected_reversed ss ss' :
  on_row_keys ss -> reversed ss ss' -> selected ss' = reverse (selected ss).
Proof.
  intros Hss Hrev. pose proof (reversed_on_row_keys ss ss' Hss Hrev) as Hss'.
  symmetry. apply (sort_determined _ T (row_order ss') (row_keys_separate ss' Hss')).
  - by intros r [Hr _]%elem_filter.
  - unfold selected. by rewrite reverse_Permutation, sort_stable_Permutation.
  - apply (StronglySorted_reverse (before ss row_keys)); [|apply selected_sorted].
    intros r s Hr%selected_in Hs%selected_in. by apply before_reversed.
Qed.

(** The pages: the first [n] rows, the first after the last record, the last before it. *)
Definition first_page ss : Table D := take (Z.to_nat n) (selected ss).
Definition page_after ss : Table D :=
  take (Z.to_nat n) (List.filter (before ss row_keys last) (selected ss)).
Definition page_before ss : Table D :=
  reverse (take (Z.to_nat n)
    (reverse (List.filter (fun r => before ss row_keys r last) (selected ss)))).

(** Backwards, the page is selected in the reverse order and then put in order. *)
Lemma page_before_sorted ss ss' :
  on_row_keys ss -> reversed ss ss' ->
  take (Z.to_nat n) (sort_stable (before ss row_keys)
    (take (Z.to_nat n) (List.filter (fun r => before ss row_keys r last) (selected ss')))) =
  page_before ss.
Proof.
  intros Hss Hrev. rewrite (selected_reversed ss ss' Hss Hrev). unfold page_before.
  set (P := fun r => before ss row_keys r last).
  assert (forall m, List.filter P (reverse m) = reverse (List.filter P m)) as Hfr.
  { clear. induction m as [|r m IH]; [done|]. rewrite reverse_cons, List.filter_app, IH. cbn [List.filter].
    destruct (P r); [by rewrite reverse_cons|by rewrite app_nil_r]. }
  rewrite Hfr. set (X := List.filter P (selected ss)).
  assert (StronglySorted (not_after (before ss row_keys))
    (reverse (take (Z.to_nat n) (reverse X)))) as Hsorted.
  { apply (StronglySorted_reverse (fun r s => before ss row_keys s r)); [done|].
    apply StronglySorted_take.
    apply (StronglySorted_reverse (before ss row_keys)); [done|].
    apply StronglySorted_List_filter, selected_sorted. }
  rewrite <-(sort_determined _ T (row_order ss) (row_keys_separate ss Hss)
    (take (Z.to_nat n) (reverse X)) (reverse (take (Z.to_nat n) (reverse X)))).
  - apply take_ge. rewrite length_reverse, length_take. lia.
  - intros r (i & Hi & _)%elem_of_take. apply list_elem_of_lookup_2 in Hi.
    rewrite elem_of_reverse in Hi. apply elem_filter in Hi as [Hi _]. by apply selected_in in Hi.
  - apply reverse_Permutation.
  - done.
Qed.

(** *** The queries *)
Lemma eval_outer ss db' inner m :
  on_row_keys ss -> eval_query db' inner = Some m -> m ⊆ T ->
  eval_query db' (postgres.mkQuery [] None [star] [] [(inner, "page"%string)] [] ss
    (Some n) None) =
  Some (take (Z.to_nat n) (sort_stable (before ss row_keys) m)).
Proof.
  intros Hss Hi Hm. apply (eval_subquery T ss row_keys); try done.
  - by apply on_row_keys_nonempty.
  - intros r. by apply row_sort_keys.
  - apply row_keys_comparable.
  - by apply row_keys_separate.
Qed.

Lemma taken_selected ss (P : Row D -> bool) : take (Z.to_nat n) (List.filter P (selected ss)) ⊆ T.
Proof.
  intros r (i & Hi & _)%elem_of_take. apply list_elem_of_lookup_2, elem_filter in Hi as [Hi _].
  by apply selected_in in Hi.
Qed.

Lemma to_sortby_inr ss : postgres.to_sortby <$> (inr <$> ss) = ss.
Proof. induction ss as [|x ss IH]; [done|]. cbn. by f_equal. Qed.

Lemma paged_on_row_keys d : on_row_keys (paged_sort paged_query d).
Proof. unfold on_row_keys, row_expressions, expressions, paged_sort. by rewrite fmap_app. Qed.

Lemma paged_all_in d : all_in d sorts -> all_in d (paged_sort paged_query d).
Proof. intros Hd. apply Forall_app. split; [done|]. by constructor. Qed.

Lemma directed_reversed d :
  all_in d sorts ->
  reversed (paged_sort paged_query d) (directed (postgres.reverse_direction d) (paged_sort paged_query d)).
Proof.
  intros Hd%paged_all_in. unfold reversed, directed, expressions.
  split; [by rewrite <-list_fmap_compose|]. rewrite <-list_fmap_compose.
  apply list_fmap_ext. intros i x Hx. cbn. f_equal.
  symmetry. exact (Forall_lookup_1 _ _ _ _ Hd Hx).
Qed.

Lemma single_condition db' (c : postgres.Condition) (P : Row D -> bool) :
  (forall r, r ∈ T -> eval_condition db' r c = Some (P r)) ->
  forall r, r ∈ T -> forallb id <$> mapM (eval_condition db' r) [c] = Some (P r).
Proof. intros HP r Hr. cbn. rewrite (HP r Hr). cbn. by rewrite andb_true_r. Qed.

Lemma eval_first_page d :
  eval_query db (first_page_existing_sort_query paged_query n d) =
  Some (first_page (paged_sort paged_query d)).
Proof.
  unfold first_page_existing_sort_query, replace_order_by_sorts.
  change (postgres.limit (Some n) (postgres.replace_order_by (inr <$> paged_sort paged_query d) paged_query))
    with (postgres.mkQuery [] None [star] [table] [] conditions
      (postgres.to_sortby <$> (inr <$> paged_sort paged_query d)) (Some n) None).
  rewrite to_sortby_inr. rewrite <-(app_nil_r conditions) at 1.
  rewrite (eval_page _ db [] (fun _ => true)); [|apply paged_on_row_keys|done|done].
  by rewrite filter_all.
Qed.

(** [SELECT * FROM table WHERE conditions AND (columns) op (SELECT * FROM last) ...] below
    the common table expression. *)
Lemma eval_forwards d :
  all_in d sorts ->
  let ss := paged_sort paged_query d in
  eval_query db (postgres.limit (Some n) (replace_order_by_sorts ss (postgres.where_
    [row_comparison_condition (expressions ss) (after_op d) "last"]
    (with_last (Some (row_id last)) table (expressions ss) paged_query)))) =
  Some (page_after ss).
Proof.
  intros Hd ss. pose proof (paged_on_row_keys d) as Hss. fold ss in Hss.
  unfold on_row_keys in Hss. rewrite Hss.
  change (postgres.limit (Some n) _) with
    (with_last (Some (row_id last)) table row_expressions
      (postgres.mkQuery [] None [star] [table] []
        (conditions ++ [row_comparison_condition row_expressions (after_op d) "last"])
        (postgres.to_sortby <$> (inr <$> ss)) (Some n) None)).
  rewrite to_sortby_inr, eval_with_last. apply eval_page; [done|apply last_db_table|].
  apply single_condition. intros r Hr. apply eval_after; [done| |done]. by apply paged_all_in.
Qed.

Lemma eval_backwards d :
  all_in d sorts ->
  let ss := paged_sort paged_query d in
  let record_sort := directed (postgres.reverse_direction d) ss in
  eval_query db (postgres.limit (Some n) (order_by_sorts ss (postgres.from_subquery
    (postgres.limit (Some n) (replace_order_by_sorts record_sort (postgres.where_
      [row_comparison_condition (expressions ss) (after_op (postgres.reverse_direction d)) "last"]
      paged_query))) "page"
    (postgres.select_all (with_last (Some (row_id last)) table (expressions ss) postgres.query))))) =
  Some (page_before ss).
Proof.
  intros Hd ss record_sort. pose proof (paged_on_row_keys d) as Hss. fold ss in Hss.
  unfold on_row_keys in Hss. rewrite Hss.
  pose proof (directed_reversed d Hd) as Hrev. fold ss record_sort in Hrev.
  set (inner := postgres.mkQuery [] None [star] [table] []
    (conditions ++ [row_comparison_condition row_expressions
      (after_op (postgres.reverse_direction d)) "last"]) record_sort (Some n) None).
  assert (eval_query last_db inner = Some (take (Z.to_nat n)
    (List.filter (fun r => before ss row_keys r last) (selected record_sort)))) as Hinner.
  { apply eval_page; [by apply reversed_on_row_keys with ss|apply last_db_table|].
    apply single_condition. intros r Hr. apply eval_before; [done| |done]. by apply paged_all_in. }
  transitivity (eval_query db (with_last (Some (row_id last)) table row_expressions
    (postgres.mkQuery [] None [star] [] [(inner, "page"%string)] [] ss (Some n) None))).
  { f_equal. unfold order_by_sorts, replace_order_by_sorts.
    cbn [postgres.order_by postgres.limit postgres.from_subquery postgres.select_all with_last
      postgres.with_query postgres.query postgres.replace_order_by postgres.where_ paged_query app].
    by rewrite !to_sortby_inr. }
  rewrite eval_with_last, (eval_outer ss last_db inner _ Hss Hinner) by apply taken_selected.
  f_equal. by apply page_before_sorted.
Qed.

(** *** Sorts in mixed directions: unions *)

Abbreviation Fields := (list (string * postgres.SortDirection)).
Definition sort_of (f : string * postgres.SortDirection) : postgres.SortBy :=
  postgres.mkSortBy (postgres.column f.1) (Some f.2).

(** What [ordering_column_sets] computes, by recursion over the sorts. *)
Fixpoint column_sets (fs : Fields) : list (list (postgres.Expression * postgres.Operator)) :=
  match fs with
  | [] => []
  | (f, d) :: fs' =>
      [(postgres.column f, after_op d)] ::
      (cons (postgres.column f, postgres.EQUALS) <$> column_sets fs')
  end.

Definition field_operator (f : string * postgres.SortDirection)
    : postgres.Expression * postgres.Operator := (postgres.column f.1, after_op f.2).

Lemma sort_operators_fields (fs : Fields) :
  sort_operators (sort_of <$> fs) = Ok (field_operator <$> fs).
Proof.
  apply res_mapM_Ok. induction fs as [|[f d] fs IH]; constructor; [|done].
  cbn. f_equal. f_equal. by destruct d.
Qed.

Lemma key_eqb_column f g : key_eqb (postgres.column f) (postgres.column g) = bool_decide (f = g).
Proof. cbn. apply bool_decide_ext. naive_solver. Qed.

Lemma operator_of_field (fs : Fields) f :
  NoDup fs.*1 -> f ∈ fs -> operator_of (field_operator <$> fs) (postgres.column f.1) = Ok (after_op f.2).
Proof.
  intros Hnd Hf. unfold operator_of.
  assert (List.filter (fun entry => key_eqb (postgres.column f.1) entry.1) (field_operator <$> fs) =
    [field_operator f]) as ->; [|done].
  induction fs as [|g fs IH]; [by apply not_elem_of_nil in Hf|].
  apply NoDup_cons in Hnd as [Hg Hnd]. cbn [fmap list_fmap List.filter field_operator fst].
  rewrite key_eqb_column.
  assert (forall l : Fields, f.1 ∉ l.*1 ->
    List.filter (fun entry => key_eqb (postgres.column f.1) entry.1) (field_operator <$> l) = [])
    as Hnil.
  { intros l Hl. induction l as [|h l IHl]; [done|]. cbn [fmap list_fmap List.filter field_operator fst].
    apply not_elem_of_cons in Hl as [Hh Hl]. rewrite key_eqb_column, bool_decide_false by done.
    by apply IHl. }
  apply elem_of_cons in Hf as [->|Hf].
  - rewrite bool_decide_true by done. by rewrite Hnil.
  - rewrite bool_decide_false; [by apply IH|]. intros E. apply Hg. rewrite <-E.
    apply list_elem_of_fmap. by exists f.
Qed.

Lemma column_sets_lookup (fs : Fields) i f :
  fs !! i = Some f ->
  column_sets fs !! i =
  Some (((fun g => (postgres.column g.1, postgres.EQUALS)) <$> take i fs) ++ [field_operator f]).
Proof.
  revert i. induction fs as [|[g d] fs IH]; intros [|i] Hi; [done|done|by injection Hi as <-|].
  change (column_sets ((g, d) :: fs) !! S i) with
    ((cons (postgres.column g, postgres.EQUALS) <$> column_sets fs) !! i).
  by rewrite list_lookup_fmap, (IH i Hi).
Qed.

Lemma column_sets_length (fs : Fields) : length (column_sets fs) = length fs.
Proof. induction fs as [|[g d] fs IH]; [done|]. cbn. by rewrite length_fmap, IH. Qed.

Lemma ordering_column_set_field (fs : Fields) i f :
  NoDup fs.*1 -> fs !! i = Some f ->
  ordering_column_set (field_operator <$> fs) (expressions (sort_of <$> fs)) (S i) =
  Ok (((fun g => (postgres.column g.1, postgres.EQUALS)) <$> take i fs) ++ [field_operator f]).
Proof.
  intros Hnd Hi. unfold ordering_column_set, expressions.
  rewrite <-list_fmap_compose, <-fmap_take, (take_S_r fs i f Hi), fmap_app, imap_app.
  apply res_mapM_Ok. apply Forall2_app.
  - assert (forall (l : Fields) k, (k + length l <= i)%nat ->
      Forall2 (fun x y => id x = Ok y)
        (imap (fun j => ordering_column (field_operator <$> fs) (S i) (k + j))
          ((postgres.sortby_expression ∘ sort_of) <$> l))
        ((fun g => (postgres.column g.1, postgres.EQUALS)) <$> l)) as Hgen.
    { intros l. induction l as [|g l IHl]; intros k Hk; [constructor|]. cbn in Hk.
      rewrite !fmap_cons, imap_cons. constructor.
      - unfold ordering_column. by rewrite (proj2 (Nat.ltb_lt _ _)) by lia.
      - rewrite (imap_ext _ (fun j => ordering_column (field_operator <$> fs) (S i) (S k + j)));
          [by apply IHl; lia|].
        intros j x _. cbn. f_equal. lia. }
    apply (Hgen (take i fs) 0%nat). rewrite length_take. lia.
  - constructor; [|constructor]. rewrite length_fmap, length_take. unfold ordering_column, id.
    rewrite (proj2 (Nat.ltb_ge _ _)) by (apply lookup_lt_Some in Hi; lia).
    cbn. rewrite (operator_of_field fs f Hnd) by by apply list_elem_of_lookup_2 with i. done.
Qed.

Lemma ordering_column_sets_fields (fs : Fields) :
  NoDup fs.*1 ->
  ordering_column_sets (field_operator <$> fs) (expressions (sort_of <$> fs)) =
  Ok (column_sets fs).
Proof.
  intros Hnd. apply res_mapM_Ok. apply Forall2_same_length_lookup.
  unfold expressions. rewrite !length_fmap, length_seq, column_sets_length. split; [done|].
  intros i k cs Hk Hcs. apply lookup_seq in Hk as [-> Hlt].
  destruct (lookup_lt_is_Some_2 fs i Hlt) as [f Hf].
  rewrite (column_sets_lookup fs i f Hf) in Hcs. injection Hcs as <-.
  by apply ordering_column_set_field.
Qed.

(** [column op (SELECT column FROM last)]. *)
Lemma eval_column_condition op f r x y :
  op = postgres.EQUALS \/ op = postgres.GREATER_THAN \/ op = postgres.LESS_THAN ->
  dict_get r f = Some y -> dict_get last_row f = Some x ->
  eval_condition last_db r (record_select_condition (postgres.column f, op)) =
  Some (match sql_compare y x with Some c => comparison_holds op c | None => false end).
Proof.
  intros Hop Hy Hx. unfold record_select_condition. cbn [fst snd].
  rewrite eval_compare by by destruct Hop as [->|[->| ->]].
  assert (operand_values last_db r (postgres.OExpression (postgres.column f)) = Some (Some [y]))
    as -> by by cbn; rewrite Hy.
  rewrite eval_operand_query.
  assert (eval_query last_db (postgres.from_table "last"
    (postgres.select [postgres.SelectExpression (postgres.column f)] postgres.query)) =
    Some [[(f, x)]]) as ->.
  { cbn. rewrite decide_True by done. cbn. rewrite app_nil_r, Hx. done. }
  destruct Hop as [->|[->| ->]]; cbn; by destruct (sql_compare y x) as [[]|].
Qed.

(** The conditions of a column set are true together where the split is. *)
Lemma eval_column_sets (fs : Fields) (ks ls : list D) r i cs :
  Forall3 (fun (f : string * postgres.SortDirection) x y =>
    dict_get last_row f.1 = Some x /\ dict_get r f.1 = Some y /\ is_Some (sql_compare x y))
    fs ks ls ->
  column_sets fs !! i = Some cs ->
  forallb id <$> mapM (eval_condition last_db r) (record_select_condition <$> cs) =
  Some (nth i (splits fs.*2 ks ls) false).
Proof.
  intros Hf. revert i cs. induction Hf as [|[f d] x y fs ks ls (Hx & Hy & c & Hc) Hf IH];
    intros i cs Hcs; [done|]. cbn in Hx, Hy.
  pose proof (proj1 (compare_flip x y c) Hc) as Hc'.
  change (splits ((f, d) :: fs).*2 (x :: ks) (y :: ls)) with
    (match order_compare d x y with Lt => true | _ => false end ::
     (andb (match order_compare d x y with Eq => true | _ => false end) <$>
       splits fs.*2 ks ls)).
  rewrite (order_compare_some d x y c Hc). destruct i as [|i].
  - injection Hcs as <-. cbn [fmap list_fmap mapM].
    rewrite (eval_column_condition (after_op d) f r x y) by (destruct d; auto).
    rewrite Hc'. by destruct d, c.
  - change (column_sets ((f, d) :: fs) !! S i) with
      ((cons (postgres.column f, postgres.EQUALS) <$> column_sets fs) !! i) in Hcs.
    rewrite list_lookup_fmap in Hcs.
    destruct (column_sets fs !! i) as [cs'|] eqn:E; [|done]. injection Hcs as <-.
    specialize (IH i cs' E). rewrite fmap_cons. cbn [mapM].
    rewrite (eval_column_condition postgres.EQUALS f r x y) by auto. rewrite Hc'.
    cbn [mbind option_bind].
    destruct (mapM (eval_condition last_db r) (record_select_condition <$> cs')) as [bs|]; [|done].
    cbn in IH |- *. injection IH as ->. f_equal.
    rewrite nth_andb. by destruct d, c.
Qed.

Lemma Forall2_Forall3 {A B C} (P : A -> B -> Prop) (Q : A -> C -> Prop) (R : B -> C -> Prop)
    (k1 : list A) (k2 : list B) (k3 : list C) :
  Forall2 P k1 k2 -> Forall2 Q k1 k3 -> Forall2 R k2 k3 ->
  Forall3 (fun a b c => P a b /\ Q a c /\ R b c) k1 k2 k3.
Proof.
  intros HP. revert k3. induction HP as [|a b k1 k2 Hab _ IH]; intros k3 HQ HR;
    inversion HQ; subst; [constructor|]. inversion HR; subst. constructor; auto.
Qed.

Lemma zip_fields (fs : Fields) (ks : list D) :
  NoDup fs.*1 -> length fs = length ks ->
  Forall2 (fun f x => dict_get (zip fs.*1 ks) f.1 = Some x) fs ks.
Proof.
  revert ks. induction fs as [|f fs IH]; intros [|x ks]; try done.
  cbn. intros [Hf Hnd]%NoDup_cons [= Hlen]. constructor; [by rewrite decide_True|].
  specialize (IH ks Hnd Hlen). apply Forall2_same_length_lookup in IH as [_ IH].
  apply Forall2_same_length_lookup. split; [done|]. intros i g y Hg Hy.
  rewrite decide_False; [by eapply IH|]. intros E. apply Hf. rewrite <-E.
  apply list_elem_of_fmap. exists g. split; [done|]. by apply list_elem_of_lookup_2 with i.
Qed.

(** The fields of a union: distinct columns, those of the sorts and the id. *)
Definition row_fields (fs : Fields) : Prop :=
  NoDup fs.*1 /\ (postgres.column <$> fs.*1) = row_expressions.

Lemma row_fields_on_row_keys (fs : Fields) : row_fields fs -> on_row_keys (sort_of <$> fs).
Proof.
  intros [_ Hf]. unfold on_row_keys, expressions. rewrite <-Hf, <-!list_fmap_compose. done.
Qed.

Lemma output_columns (names : list string) :
  output_name <$> (postgres.column <$> names) = names.
Proof. induction names as [|name names IH]; [done|]. cbn. by f_equal. Qed.

Lemma row_fields_values (fs : Fields) r :
  row_fields fs -> r ∈ T ->
  Forall3 (fun (f : string * postgres.SortDirection) x y =>
    dict_get last_row f.1 = Some x /\ dict_get r f.1 = Some y /\ is_Some (sql_compare x y))
    fs (row_keys last) (row_keys r).
Proof.
  intros [Hnd Hf] Hr.
  pose proof (row_expressions_keys r Hr) as Hk%mapM_Some_1.
  pose proof (row_expressions_keys last Hin) as Hkl%mapM_Some_1.
  rewrite <-Hf, <-list_fmap_compose in Hk, Hkl.
  apply Forall2_Forall3.
  - unfold last_row. rewrite <-Hf.
    rewrite output_columns.
    apply zip_fields; [done|]. apply Forall2_length in Hkl. by rewrite length_fmap in Hkl.
  - rewrite Forall2_fmap_l in Hk. exact Hk.
  - by apply row_keys_comparable.
Qed.

(** The rows a part of a union selects, before its limit. *)
Definition part (fs : Fields) (i : nat) r : bool :=
  nth i (splits fs.*2 (row_keys last) (row_keys r)) false.

Lemma eval_part (fs : Fields) i cs :
  row_fields fs -> column_sets fs !! i = Some cs ->
  eval_query last_db (record_select_query n paged_query (sort_of <$> fs) cs) =
  Some (take (Z.to_nat n) (List.filter (part fs i) (selected (sort_of <$> fs)))).
Proof.
  intros Hfs Hcs. unfold record_select_query, replace_order_by_sorts.
  change (postgres.limit (Some n) _) with
    (postgres.mkQuery [] None [star] [table] [] (conditions ++ (record_select_condition <$> cs))
      (postgres.to_sortby <$> (inr <$> (sort_of <$> fs))) (Some n) None).
  rewrite to_sortby_inr. apply eval_page; [by apply row_fields_on_row_keys|apply last_db_table|].
  intros r Hr. apply eval_column_sets; [|done]. by apply row_fields_values.
Qed.

Lemma StronglySorted_seq {A} (R : A -> A -> Prop) (f : nat -> A) k len :
  (forall i j, (i < j)%nat -> R (f i) (f j)) -> StronglySorted R (f <$> seq k len).
Proof.
  intros HR. revert k. induction len as [|len IH]; intros k; cbn; constructor; [apply IH|].
  apply Forall_fmap, Forall_forall. intros j Hj%elem_of_seq. apply HR. lia.
Qed.

Lemma existsb_nth (bs : list bool) k :
  k = length bs -> existsb (fun i => nth i bs false) (seq 0 k) = existsb id bs.
Proof.
  intros ->. apply eq_true_iff_eq. rewrite !existsb_exists. split.
  - intros (i & Hi%in_seq & Hb). exists (nth i bs false). split; [|done]. apply nth_In. lia.
  - intros (b & Hb & Eb). apply (In_nth bs b false) in Hb as (i & Hi & E).
    exists i. split; [apply in_seq; lia|]. by rewrite E.
Qed.

(** The parts make up the rows after the last one. *)
Lemma parts_after (fs : Fields) r :
  row_fields fs -> r ∈ T ->
  existsb (fun P : Row D -> bool => P r) (part fs <$> seq 0 (length fs)) =
  before (sort_of <$> fs) row_keys last r.
Proof.
  intros Hfs Hr. unfold before, keys_before.
  assert ((direction_of <$> (sort_of <$> fs)) = fs.*2) as ->
    by by rewrite <-list_fmap_compose.
  rewrite <-splits_before, <-(existsb_nth _ (length fs)).
  - induction (seq 0 (length fs)) as [|i l IH]; [done|]. cbn. by rewrite IH.
  - pose proof (on_row_keys_length _ last (row_fields_on_row_keys fs Hfs) Hin) as Hl.
    rewrite length_fmap in Hl. rewrite splits_length; rewrite ?length_fmap; [done|done|].
    by rewrite !row_keys_length.
Qed.

Definition union_of (qs : list postgres.Query) ss : postgres.Query :=
  postgres.mkQuery [] (Some (qs, postgres.ALL)) [] [] [] [] ss (Some n) None.

Lemma eval_union (fs : Fields) :
  row_fields fs ->
  eval_query last_db (union_of
    (record_select_query n paged_query (sort_of <$> fs) <$> column_sets fs) (sort_of <$> fs)) =
  Some (page_after (sort_of <$> fs)).
Proof.
  intros Hfs. pose proof (row_fields_on_row_keys fs Hfs) as Hss. set (ss := sort_of <$> fs) in *.
  set (piece := fun P : Row D -> bool => take (Z.to_nat n) (List.filter P (selected ss)) : Table D).
  set (pieces := piece <$> (part fs <$> seq 0 (length fs))).
  assert (mapM (eval_query last_db) (record_select_query n paged_query ss <$> column_sets fs) =
    Some pieces) as Hp.
  { apply mapM_Some_2, Forall2_same_length_lookup. unfold pieces.
    rewrite !length_fmap, length_seq, column_sets_length. split; [done|]. intros i q m Hq Hm.
    apply list_lookup_fmap_Some in Hq as (cs & -> & Ecs).
    apply list_lookup_fmap_Some in Hm as (P & -> & Hm).
    apply list_lookup_fmap_Some in Hm as (j & -> & Ej).
    apply lookup_seq in Ej as [-> _]. by apply eval_part. }
  unfold union_of. rewrite (eval_union_all _ _ _ _ pieces Hp).
  assert (concat pieces ⊆ T) as Hsub.
  { intros r Hr. unfold pieces in Hr. rewrite elem_of_concat_fmap in Hr.
    destruct Hr as (P & _ & Hr). by apply taken_selected in Hr. }
  rewrite (order_rows_sorted T ss row_keys) with (source := id) (m := concat pieces); try done.
  - cbn [mbind option_bind offset_rows]. rewrite <-list_fmap_compose.
    unfold limit_rows. rewrite (proj2 (Z.ltb_ge n 0)) by done.
    rewrite list_fmap_id. f_equal. unfold pieces, page_after.
    etrans; [apply (merge_parts (before ss row_keys) T (row_order ss) (row_keys_separate ss Hss)
      (Z.to_nat n) (part fs <$> seq 0 (length fs)) (selected ss))|].
    + unfold selected. rewrite sort_stable_Permutation. apply NoDup_List_filter.
      by apply NoDup_fmap_1 in Hunique.
    + apply selected_in.
    + apply selected_sorted.
    + apply StronglySorted_seq. intros i j Hij r _ Hi. by apply splits_disjoint with i.
    + f_equal. apply filter_ext_elem. intros r Hr%selected_in. by apply parts_after.
  - by apply on_row_keys_nonempty.
  - intros r. by apply row_sort_keys.
  - apply row_keys_comparable.
  - by apply row_keys_separate.
Qed.

Lemma union_all_sets (fs : Fields) :
  (2 <= length fs)%nat ->
  union_all (record_select_query n paged_query (sort_of <$> fs) <$> column_sets fs) =
  Ok (postgres.mkQuery []
    (Some (record_select_query n paged_query (sort_of <$> fs) <$> column_sets fs, postgres.ALL))
    [] [] [] [] [] None None).
Proof. destruct fs as [|[f d] [|[g e] fs]]; cbn; [lia|lia|done]. Qed.

Lemma record_select_queries_fields (fs : Fields) ss :
  NoDup fs.*1 -> expressions ss = expressions (sort_of <$> fs) ->
  record_select_queries n paged_query (sort_of <$> fs) (expressions ss) =
  Ok (record_select_query n paged_query (sort_of <$> fs) <$> column_sets fs).
Proof.
  intros Hnd ->. unfold record_select_queries. rewrite sort_operators_fields.
  cbn [mbind res_bind]. by rewrite ordering_column_sets_fields.
Qed.

Lemma union_length (fs : Fields) : row_fields fs -> sorts <> [] -> (2 <= length fs)%nat.
Proof.
  intros [_ Hf] Hne. assert (length fs = S (length sorts)) as ->.
  { apply (f_equal length) in Hf. unfold row_expressions, expressions in Hf.
    rewrite length_app, !length_fmap in Hf. cbn in Hf. lia. }
  destruct sorts; [done|cbn; lia].
Qed.

Lemma eval_mixed_forwards (fields : Fields) :
  sorts = sort_of <$> fields -> sorts <> [] -> row_fields (fields ++ [("id"%string, postgres.ASC)]) ->
  exists q, subsequent_page_existing_sort_mixed_forwards_query (Some (row_id last)) n table paged_query =
    Ok q /\ eval_query db q = Some (page_after (paged_sort paged_query postgres.ASC)).
Proof.
  intros Hs Hne Hfs. set (fs := fields ++ [("id"%string, postgres.ASC)]) in *.
  assert (paged_sort paged_query postgres.ASC = sort_of <$> fs) as Hp.
  { unfold fs, paged_sort. rewrite fmap_app. cbn [paged_query postgres.sortby_list]. by rewrite Hs. }
  unfold subsequent_page_existing_sort_mixed_forwards_query. rewrite Hp.
  rewrite (record_select_queries_fields fs (sort_of <$> fs)) by (done || apply Hfs).
  cbn [mbind res_bind]. rewrite union_all_sets by by apply union_length.
  cbn [mbind res_bind]. eexists. split; [done|].
  rewrite (row_fields_on_row_keys fs Hfs).
  etrans; [|by apply (eval_union fs Hfs)]. unfold union_of. rewrite <-eval_with_last. f_equal.
  unfold order_by_sorts. cbn [with_last postgres.with_query postgres.order_by postgres.limit app].
  by rewrite to_sortby_inr.
Qed.

Definition reverse_field (f : string * postgres.SortDirection) := (f.1, postgres.reverse_direction f.2).

Lemma eval_mixed_backwards (fields : Fields) :
  sorts = sort_of <$> fields -> sorts <> [] -> row_fields (fields ++ [("id"%string, postgres.ASC)]) ->
  exists q, subsequent_page_existing_sort_mixed_backwards_query (Some (row_id last)) n table paged_query =
    Ok q /\ eval_query db q = Some (page_before (paged_sort paged_query postgres.ASC)).
Proof.
  intros Hs Hne Hfs. set (fs := fields ++ [("id"%string, postgres.ASC)]) in *.
  assert (paged_sort paged_query postgres.ASC = sort_of <$> fs) as Hp.
  { unfold fs, paged_sort. rewrite fmap_app. cbn [paged_query postgres.sortby_list]. by rewrite Hs. }
  set (gs := reverse_field <$> fs).
  assert (gs.*1 = fs.*1) as Hnames by by unfold gs; rewrite <-list_fmap_compose.
  assert (row_fields gs) as Hgs by by unfold row_fields; rewrite Hnames.
  assert (postgres.reverse_sortby <$> (sort_of <$> fs) = sort_of <$> gs) as Hr
    by by unfold gs; rewrite <-!list_fmap_compose.
  pose proof (row_fields_on_row_keys fs Hfs) as Hss.
  pose proof (row_fields_on_row_keys gs Hgs) as Hss'.
  unfold subsequent_page_existing_sort_mixed_backwards_query. rewrite Hp, Hr.
  rewrite (record_select_queries_fields gs (sort_of <$> fs)) by (apply Hgs || by rewrite Hss').
  cbn [mbind res_bind]. rewrite union_all_sets by by apply union_length.
  cbn [mbind res_bind]. eexists. split; [done|]. rewrite Hss.
  set (inner := union_of (record_select_query n paged_query (sort_of <$> gs) <$> column_sets gs)
    (sort_of <$> gs)).
  transitivity (eval_query db (with_last (Some (row_id last)) table row_expressions
    (postgres.mkQuery [] None [star] [] [(inner, "page"%string)] [] (sort_of <$> fs) (Some n) None))).
  { f_equal. unfold order_by_sorts, inner, union_of.
    cbn [postgres.order_by postgres.limit postgres.from_subquery postgres.select_all with_last
      postgres.with_query postgres.query app]. by rewrite !to_sortby_inr. }
  assert (reversed (sort_of <$> fs) (sort_of <$> gs)) as Hrev.
  { split; [by rewrite Hss, Hss'|]. unfold gs. by rewrite <-!list_fmap_compose. }
  rewrite eval_with_last, (eval_outer _ last_db inner _ Hss (eval_union gs Hgs))
    by apply taken_selected.
  rewrite <-(page_before_sorted _ _ Hss Hrev). unfold page_after. f_equal.
  do 2 f_equal. f_equal. apply filter_ext_elem. intros r Hr'%selected_in.
  by apply before_reversed.
Qed.

(** Without sorts the id is compared with the last one directly. *)
Lemma eval_id_condition d db' r :
  sorts = [] -> r ∈ T ->
  eval_condition db' r
    (field_comparison_condition id_column (after_op d) (last_id_constant (Some (row_id last)))) =
  Some (before (paged_sort paged_query d) row_keys last r).
Proof.
  intros Hs Hr. unfold field_comparison_condition. rewrite eval_compare by by destruct d.
  assert (operand_values db' r (postgres.OExpression id_column) =
    Some (Some [sql_param (PStr (row_id r))])) as -> by by cbn; rewrite (Hid r Hr).
  assert (forall s, s ∈ T -> keys s = []) as Hnil.
  { intros s Hs'%Hkeys. rewrite Hs in Hs'. by injection Hs'. }
  unfold before, keys_before, paged_sort, row_keys. cbn [paged_query postgres.sortby_list].
  rewrite (Hnil r Hr), (Hnil last Hin), Hs. cbn -[sql_param].
  destruct (ids_comparable last r) as (c & Hc). pose proof (proj1 (compare_flip _ _ _) Hc) as Hc'.
  rewrite (order_compare_some _ _ _ c Hc).
  change (PValue (VStr (row_id last))) with (PStr (row_id last)).
  destruct d; cbn -[sql_param]; rewrite Hc'; by destruct c.
Qed.

Definition id_sort (d : postgres.SortDirection) : list postgres.SortBy :=
  [postgres.mkSortBy id_column (Some d)].

Lemma paged_no_sort d : sorts = [] -> paged_sort paged_query d = id_sort d.
Proof. intros Hs. unfold paged_sort. cbn [paged_query postgres.sortby_list]. by rewrite Hs. Qed.

Lemma eval_no_sort_selection d db' :
  sorts = [] -> dict_get db' table = Some T ->
  eval_query db' (postgres.mkQuery [] None [star] [table] []
    (conditions ++ [field_comparison_condition id_column (after_op d)
      (last_id_constant (Some (row_id last)))]) (id_sort d) (Some n) None) =
  Some (page_after (id_sort d)).
Proof.
  intros Hs Hdb'. rewrite <-(paged_no_sort d Hs). apply eval_page; [apply paged_on_row_keys|done|].
  apply single_condition. intros r Hr. by apply eval_id_condition.
Qed.

Lemma eval_no_sort_forwards :
  sorts = [] ->
  eval_query db (subsequent_page_no_sort_paging_forwards_query (Some (row_id last)) FORWARDS n
    paged_query) = Some (page_after (paged_sort paged_query postgres.ASC)).
Proof.
  intros Hs. rewrite (paged_no_sort _ Hs), <-(eval_no_sort_selection _ db Hs Hdb). f_equal.
  unfold subsequent_page_no_sort_paging_forwards_query,
    subsequent_page_no_sort_row_selection_query, order_by_sorts.
  cbn [is_forwards postgres.where_ postgres.order_by postgres.limit paged_query].
  rewrite to_sortby_inr. by rewrite Hs.
Qed.

Lemma eval_no_sort_backwards :
  sorts = [] ->
  eval_query db (subsequent_page_no_sort_paging_backwards_query (Some (row_id last)) BACKWARDS n
    paged_query) = Some (page_before (paged_sort paged_query postgres.ASC)).
Proof.
  intros Hs. set (ss := [postgres.mkSortBy id_column None]).
  assert (on_row_keys ss) as Hss by by unfold on_row_keys, row_expressions; rewrite Hs.
  assert (on_row_keys (id_sort postgres.DESC)) as Hss'
    by by unfold on_row_keys, row_expressions; rewrite Hs.
  transitivity (eval_query db (postgres.mkQuery [] None [star] [] [(postgres.mkQuery [] None [star]
    [table] [] (conditions ++ [field_comparison_condition id_column (after_op postgres.DESC)
      (last_id_constant (Some (row_id last)))]) (id_sort postgres.DESC) (Some n) None,
    "page"%string)] [] ss (Some n) None)).
  { f_equal. unfold subsequent_page_no_sort_paging_backwards_query,
      subsequent_page_no_sort_row_selection_query, order_by_sorts.
    cbn [is_forwards postgres.where_ postgres.order_by postgres.limit paged_query
      postgres.from_subquery postgres.select_all postgres.query app].
    rewrite to_sortby_inr. by rewrite Hs. }
  rewrite (eval_outer ss db _ _ Hss (eval_no_sort_selection _ db Hs Hdb)) by apply taken_selected.
  rewrite (paged_no_sort _ Hs). change (page_before (id_sort postgres.ASC)) with (page_before ss).
  rewrite <-(page_before_sorted ss (id_sort postgres.DESC) Hss) by done.
  unfold page_after. do 4 f_equal. apply filter_ext_elem. intros r Hr%selected_in.
  by apply before_reversed.
Qed.

Lemma eval_no_sort_first_page :
  sorts = [] ->
  eval_query db (first_page_no_sort_query paged_query n) =
  Some (first_page (paged_sort paged_query postgres.ASC)).
Proof.
  intros Hs. set (ss := [postgres.mkSortBy id_column None]).
  assert (on_row_keys ss) as Hss by by unfold on_row_keys, row_expressions; rewrite Hs.
  rewrite (paged_no_sort _ Hs). change (first_page (id_sort postgres.ASC)) with (first_page ss).
  transitivity (eval_query db (postgres.mkQuery [] None [star] [table] [] (conditions ++ []) ss
    (Some n) None)).
  { f_equal. unfold first_page_no_sort_query. cbn [postgres.order_by postgres.limit paged_query].
    by rewrite Hs, app_nil_r. }
  rewrite (eval_page ss db [] (fun _ => true)) by done. by rewrite filter_all.
Qed.

(** *** All of it *)

(** The order of pages: the sorts, then the id, ascending unless all sorts descend. *)
Definition page_sort : list postgres.SortBy :=
  paged_sort paged_query
    (if forallb postgres.is_ascending sorts then postgres.ASC
     else if forallb postgres.is_descending sorts then postgres.DESC else postgres.ASC).

(** The sorts go in one direction, or they are distinct columns other than the id. *)
Definition pageable : Prop :=
  (exists d, all_in d sorts) \/
  (exists fields : Fields, sorts = sort_of <$> fields /\ NoDup ("id"%string :: fields.*1)).

Lemma ascending_all_in : forallb postgres.is_ascending sorts = true <-> all_in postgres.ASC sorts.
Proof.
  unfold all_in. rewrite Forall_forall, forallb_forall. setoid_rewrite <-list_elem_of_In.
  apply forall_proper. intros [e [[]|]]; cbn; naive_solver.
Qed.

Lemma descending_all_in : forallb postgres.is_descending sorts = true <-> all_in postgres.DESC sorts.
Proof.
  unfold all_in. rewrite Forall_forall, forallb_forall. setoid_rewrite <-list_elem_of_In.
  apply forall_proper. intros [e [[]|]]; cbn; naive_solver.
Qed.

(** The shapes of sorts [KeySetPagingClauseQueryApplier] distinguishes. *)
Lemma pageable_cases :
  pageable ->
  sorts = [] \/
  (sorts <> [] /\ exists d, all_in d sorts) \/
  (sorts <> [] /\ forallb postgres.is_ascending sorts = false /\
    forallb postgres.is_descending sorts = false /\
    exists fields : Fields, sorts = sort_of <$> fields /\
      row_fields (fields ++ [("id"%string, postgres.ASC)])).
Proof.
  intros Hp. destruct (decide (sorts = [])) as [|Hne]; [by left|right].
  destruct (forallb postgres.is_ascending sorts) eqn:Ea.
  { left. split; [done|]. exists postgres.ASC. by apply ascending_all_in. }
  destruct (forallb postgres.is_descending sorts) eqn:Ed.
  { left. split; [done|]. exists postgres.DESC. by apply descending_all_in. }
  destruct Hp as [Hd|(fields & Hs & Hnd)]; [by left|right]. split_and!; [done..|].
  exists fields. split; [done|]. apply NoDup_cons in Hnd as [Hid' Hnd]. split.
  - rewrite fmap_app. apply NoDup_app. split_and!; [done| |apply NoDup_singleton].
    intros x Hx ->%list_elem_of_singleton. done.
  - unfold row_expressions, expressions. rewrite Hs, !fmap_app, <-!list_fmap_compose. done.
Qed.

Lemma uniform_tests d :
  sorts <> [] -> all_in d sorts ->
  forallb postgres.is_ascending sorts = match d with postgres.ASC => true | _ => false end /\
  forallb postgres.is_descending sorts = match d with postgres.DESC => true | _ => false end.
Proof.
  intros Hne Hd. destruct sorts as [|x l] eqn:Es; [done|]. rewrite <-Es in *.
  pose proof ascending_all_in as Ha. pose proof descending_all_in as Hde.
  assert (direction_of x = d) as Hx.
  { rewrite Es in Hd. by apply Forall_cons in Hd as [Hd _]. }
  assert (forall d', all_in d' sorts -> d' = d) as Hu.
  { intros d' Hd'. rewrite Es in Hd'. apply Forall_cons in Hd' as [Hd' _]. congruence. }
  destruct d; split; try (by apply Ha); try (by apply Hde); apply not_true_iff_false.
  - by intros ?%Hde%Hu.
  - by intros ?%Ha%Hu.
Qed.

Lemma page_sort_uniform d : sorts <> [] -> all_in d sorts -> page_sort = paged_sort paged_query d.
Proof.
  intros Hne Hd. unfold page_sort. destruct (uniform_tests d Hne Hd) as [-> ->]. by destruct d.
Qed.

Lemma has_sort : sorts <> [] -> (0 <? length (postgres.sortby_list paged_query))%nat = true.
Proof. intros Hne. cbn [postgres.sortby_list paged_query]. clear -Hne. by destruct sorts. Qed.

Lemma eval_applier_forwards :
  pageable -> exists q,
  KeySetPagingClauseQueryApplier (Some (row_id last)) FORWARDS n table paged_query = Ok q /\
  eval_query db q = Some (page_after page_sort).
Proof.
  intros [Hs|[[Hne [d Hd]]|(Hne & Ea & Ed & fields & Hs & Hfs)]]%pageable_cases;
    unfold KeySetPagingClauseQueryApplier; cbn [is_forwards is_backwards].
  - eexists. split; [cbn [postgres.sortby_list paged_query]; by rewrite Hs|].
    rewrite eval_no_sort_forwards by done. unfold page_sort. by rewrite Hs.
  - rewrite (has_sort Hne), (page_sort_uniform d Hne Hd). cbn [postgres.sortby_list paged_query].
    destruct (uniform_tests d Hne Hd) as [-> ->].
    destruct d; (eexists; split; [done|]; exact (eval_forwards _ Hd)).
  - rewrite (has_sort Hne). unfold page_sort. cbn [postgres.sortby_list paged_query]. rewrite Ea, Ed.
    by apply (eval_mixed_forwards fields).
Qed.

Lemma eval_applier_backwards :
  pageable -> exists q,
  KeySetPagingClauseQueryApplier (Some (row_id last)) BACKWARDS n table paged_query = Ok q /\
  eval_query db q = Some (page_before page_sort).
Proof.
  intros [Hs|[[Hne [d Hd]]|(Hne & Ea & Ed & fields & Hs & Hfs)]]%pageable_cases;
    unfold KeySetPagingClauseQueryApplier; cbn [is_forwards is_backwards].
  - eexists. split; [cbn [postgres.sortby_list paged_query]; by rewrite Hs|].
    rewrite eval_no_sort_backwards by done. unfold page_sort. by rewrite Hs.
  - rewrite (has_sort Hne), (page_sort_uniform d Hne Hd). cbn [postgres.sortby_list paged_query].
    destruct (uniform_tests d Hne Hd) as [-> ->].
    destruct d; (eexists; split; [done|]; exact (eval_backwards _ Hd)).
  - rewrite (has_sort Hne). unfold page_sort. cbn [postgres.sortby_list paged_query]. rewrite Ea, Ed.
    by apply (eval_mixed_backwards fields).
Qed.
End last_record.

Lemma eval_applier_first_page direction :
  exists q, KeySetPagingClauseQueryApplier None direction n table paged_query = Ok q /\
  eval_query db q = Some (first_page page_sort).
Proof.
  unfold KeySetPagingClauseQueryApplier. cbn [is_forwards is_backwards].
  unfold page_sort. destruct (decide (sorts = [])) as [Hs|Hne].
  - eexists. split; [cbn [postgres.sortby_list paged_query]; by rewrite Hs|]. rewrite eval_no_sort_first_page by done. by rewrite Hs.
  - rewrite (has_sort Hne). cbn [postgres.sortby_list paged_query].
    destruct (forallb postgres.is_ascending sorts), (forallb postgres.is_descending sorts);
      (eexists; split; [done|]; exact (eval_first_page _)).
Qed.

(** *** The in-memory adapter's pages of the same rows *)

(** Rows as the records of in-memory results. *)
Definition row_record : Identifiable (Row D) := {|
  record_attribute := fun _ _ => None;
  record_id := row_id
|}.
#[local] Existing Instance row_record.

Definition results (m : list (Row D)) : list (Result (Row D)) := map result_of m.

Lemma results_records m : res_record <$> results m = m.
Proof. unfold results. induction m as [|r m IH]; [done|]. cbn. by f_equal. Qed.

Lemma results_lookup m i : results m !! i = result_of <$> m !! i.
Proof. unfold results. revert i. by induction m as [|r m IH]; intros [|i]; cbn. Qed.

Lemma results_unique ss : NoDup (record_id <$> (res_record <$> results (selected ss))).
Proof.
  rewrite results_records. unfold selected. cbn.
  rewrite sort_stable_Permutation. apply NoDup_fmap_2_strong.
  - intros r s [Hr _]%elem_filter [Hs _]%elem_filter. by apply row_id_inj.
  - apply NoDup_List_filter. by apply NoDup_fmap_1 in Hunique.
Qed.

(** The rows after and before one of them. *)
Lemma selected_split ss i r :
  on_row_keys ss -> selected ss !! i = Some r ->
  List.filter (before ss row_keys r) (selected ss) = drop (S i) (selected ss) /\
  List.filter (fun s => before ss row_keys s r) (selected ss) = take i (selected ss).
Proof.
  intros Hss Hi. assert (NoDup (selected ss)) as Hnd.
  { unfold selected. rewrite sort_stable_Permutation. apply NoDup_List_filter.
    by apply NoDup_fmap_1 in Hunique. }
  pose proof (take_drop_middle _ _ _ Hi) as E.
  rewrite <-E at 1 3. rewrite <-E in Hnd.
  apply (sorted_split _ T (row_order ss) (row_keys_separate ss Hss)); [|done|].
  - rewrite E. apply selected_in.
  - rewrite E. apply selected_sorted.
Qed.

(** The filters and the sort of a search, by the default converters, are the conditions and the
    sorts. *)
Definition searched_by `{UserCode} (c : DelegatingQueryConverter) (filters : list Clause)
    (sort : option Clause) : Prop :=
  apply_clauses (convert_clause (with_default_converters table c))
    (filters ++ from_option (fun clause => [clause]) [] sort) (base_query table) = Ok paged_query.

Lemma converts_search `{UserCode} c filters sort paging :
  PostgresConverters.convert_query (with_default_converters table c) (Search filters sort paging) =
  SearchQueryConverter (convert_clause (with_default_converters table c)) table
    (Search filters sort paging).
Proof.
  unfold PostgresConverters.convert_query, registry_convert. rewrite lookup_fmap. cbn.
  by simplify_map_eq.
Qed.

Lemma converts_paging `{UserCode} c last_id direction :
  convert_clause (with_default_converters table c) (KeySetPagingClause last_id direction n) =
  Ok (KeySetPagingClauseQueryApplier last_id direction n table).
Proof.
  unfold convert_clause, registry_convert. rewrite lookup_fmap. cbn. by simplify_map_eq.
Qed.

(** The query that a search with these filters and this sort is converted to. *)
Lemma search_converted `{UserCode} c filters sort last_id direction q :
  searched_by c filters sort ->
  KeySetPagingClauseQueryApplier last_id direction n table paged_query = Ok q ->
  PostgresConverters.convert_query (with_default_converters table c)
    (Search filters sort (Some (KeySetPagingClause last_id direction n))) = postgres.build q.
Proof.
  intros Hs Hq. unfold searched_by, apply_clauses in Hs. rewrite foldl_app in Hs.
  rewrite converts_search. unfold SearchQueryConverter, apply_clauses.
  destruct (foldl _ (Ok (base_query table)) filters) as [b|e] eqn:Eb.
  - cbn [mbind res_bind]. rewrite Hs. cbn [mbind res_bind from_option foldl].
    rewrite converts_paging. cbn [mbind res_bind]. by rewrite Hq.
  - destruct sort; discriminate Hs.
Qed.

(** C28. Key set paging on Postgres is key set paging in memory, on what SQL compares. Take a
    table (not named "last") of rows with unique ids, conditions that are true or false of each
    row, and sorts whose keys all rows have, none of them NULL and any two comparable, that go in
    one direction or are distinct columns other than the id; and pages of at least no items. The
    query built for a first page selects the first [n] rows in the order of the sorts and the id;
    and the query built for a page after, or before, one of the selected rows - whichever of its
    forms the sorts call for: none, all ascending, all descending, or a union when they are mixed -
    selects exactly the rows the in-memory adapter cuts from the selected rows in that order. It
    is the query that a search is converted to whose filters and sort give these conditions and
    sorts. *)
Theorem key_set_pages_agree :
  pageable ->
  (forall direction, exists q,
    KeySetPagingClauseQueryApplier None direction n table paged_query = Ok q /\
    (forall `{UserCode} c filters sort, searched_by c filters sort ->
      PostgresConverters.convert_query (with_default_converters table c)
        (Search filters sort (Some (KeySetPagingClause None direction n))) = postgres.build q) /\
    eval_query db q =
    Some (res_record <$> key_set_page None FORWARDS n (results (selected page_sort)))) /\
  (forall last direction, last ∈ selected page_sort -> exists q,
    KeySetPagingClauseQueryApplier (Some (row_id last)) direction n table paged_query = Ok q /\
    (forall `{UserCode} c filters sort, searched_by c filters sort ->
      PostgresConverters.convert_query (with_default_converters table c)
        (Search filters sort (Some (KeySetPagingClause (Some (row_id last)) direction n))) =
      postgres.build q) /\
    eval_query db q =
    Some (res_record <$>
      key_set_page (Some (row_id last)) direction n (results (selected page_sort)))).
Proof.
  intros Hp. assert (on_row_keys page_sort) as Hss by apply paged_on_row_keys.
  assert (n = Z.of_nat (Z.to_nat n)) as En by lia.
  split; [intros direction|intros last direction Hl].
  - destruct (eval_applier_first_page direction) as (q & Hq & E). exists q. split; [done|].
    split; [by intros; apply search_converted|]. rewrite E.
    f_equal. unfold first_page, key_set_page. cbn [determine_last_index].
    rewrite py_slice_nonneg by lia. rewrite Nat.sub_0_r, drop_0, fmap_take.
    by rewrite results_records.
  - pose proof (selected_in _ _ Hl) as Hin.
    apply list_elem_of_lookup in Hl as [i Hi].
    assert (results (selected page_sort) !! i = Some (result_of last)) as Hi'.
    { rewrite results_lookup. apply fmap_Some. by exists last. }
    destruct (selected_split page_sort i last Hss Hi) as [Ea Eb].
    pose proof (results_unique page_sort) as Hu. destruct direction.
    + destruct (eval_applier_forwards last Hin Hp) as (q & Hq & E). exists q. split; [done|].
    split; [by intros; apply search_converted|].
      pose proof (QueryTheory.page_after _ (Z.to_nat n) i _ Hu Hi') as Hpage.
      rewrite Z2Nat.id in Hpage by done.
      rewrite E. change (row_id last) with (record_id (res_record (result_of last))).
      rewrite Hpage. f_equal.
      unfold page_after. by rewrite Ea, fmap_take, fmap_drop, results_records.
    + destruct (eval_applier_backwards last Hin Hp) as (q & Hq & E). exists q. split; [done|].
    split; [by intros; apply search_converted|].
      pose proof (QueryTheory.page_before _ (Z.to_nat n) i _ Hu Hi') as Hpage.
      rewrite Z2Nat.id in Hpage by done.
      rewrite E. change (row_id last) with (record_id (res_record (result_of last))).
      rewrite Hpage. f_equal.
      unfold page_before. rewrite Eb, fmap_take, fmap_drop, results_records.
      apply last_of_prefix. apply lookup_lt_Some in Hi. lia.
Qed.
End pages.
