(* ===== verification/PostgresEngine.v ===== *)
(** An engine that keeps the laws of [PostgresSql] - integers, strings and null, with
    integers before strings - and the pages of [PostgresPaging] on a table of it. *)
From S2P Require Import Prelude Values Conversion Events Conditions Query MemoryQuery QueryTheory.
From S2P Require Import PostgresQuery PostgresConverters PostgresSql PostgresPages PostgresPaging.

Module reference_engine.
Definition Datum : Type := option (Z + string).

Definition datum_of (v : Param) : Datum :=
  match v with
  | PValue (VInt z) => Some (inl z)
  | PValue (VStr s) => Some (inr s)
  | _ => None
  end.

Definition compare_values (x y : Z + string) : comparison :=
  match x, y with
  | inl i, inl j => Z.compare i j
  | inr s, inr t => String.compare s t
  | inl _, inr _ => Lt
  | inr _, inl _ => Gt
  end.

Definition compare_data (x y : Datum) : option comparison :=
  match x, y with Some v, Some w => Some (compare_values v w) | _, _ => None end.

#[global] Instance engine : SqlEngine Datum := {|
  sql_dec := option_eq_dec;
  sql_param := datum_of;
  sql_is_null := fun x => match x with None => true | _ => false end;
  sql_compare := compare_data;
  sql_function := fun _ _ => None;
  sql_cast := fun x typename => if String.eqb typename "text" then Some x else None;
  sql_operator := fun _ _ _ => None;
  sql_sort := @sort_stable
|}.

Lemma compare_strings_trans s t u :
  String.compare s t = Lt -> String.compare t u = Lt -> String.compare s u = Lt.
Proof.
  intros H1 H2. assert (String.ltb u s = false) as H3.
  { apply (order_trans _ _ string_ltb_ordered s t u); [done..| |];
      unfold String.ltb; rewrite String.compare_antisym, ?H1, ?H2; done. }
  destruct (String.compare s u) eqn:E; [|done|].
  - apply String.compare_eq_iff in E as ->. rewrite String.compare_antisym, H2 in H1. done.
  - unfold String.ltb in H3. rewrite String.compare_antisym, E in H3. done.
Qed.

Lemma compare_strings_refl s : String.compare s s = Eq.
Proof.
  pose proof (String.compare_antisym s s) as E. by destruct (String.compare s s).
Qed.

Lemma compare_values_eq x y : compare_values x y = Eq <-> x = y.
Proof.
  destruct x as [i|s], y as [j|t]; cbn; try by split.
  - rewrite Z.compare_eq_iff. naive_solver.
  - split; [by intros ->%String.compare_eq_iff|]. intros [= ->]. apply compare_strings_refl.
Qed.

#[global] Instance engine_laws : SqlLaws Datum.
Proof.
  split; cbn -[compare_values].
  - intros [x|] [y|]; cbn -[compare_values]; try done. f_equal.
    destruct x, y; cbn; try done; [apply Z.compare_antisym|apply String.compare_antisym].
  - intros [x|] [y|] [z|]; try done. cbn -[compare_values]. intros [= H1] [= H2]. f_equal.
    destruct x, y, z; cbn in *; try done; [|by eapply compare_strings_trans].
    rewrite Z.compare_lt_iff in *. lia.
  - intros [x|] [y|] z; try done. cbn -[compare_values]. by intros [= ->%compare_values_eq].
  - intros s t. exists (String.compare s t). split; [done|].
    pose proof (compare_values_eq (inr s) (inr t)) as E. cbn in E. rewrite E. naive_solver.
  - intros A lt l. apply sort_stable_Permutation.
  - intros A lt l Hord. apply (sort_stable_Sorted _ Hord). by apply Forall_forall.
Qed.

(** A table, a filter and sorts in both directions. *)
Definition row (id : string) (age : Z) (name : string) : Row Datum :=
  [("id"%string, Some (inr id)); ("age"%string, Some (inl age)); ("name"%string, Some (inr name))].
Definition rows : Table Datum :=
  [row "a" 30 "zoe"; row "b" 20 "amy"; row "c" 30 "bob"; row "d" 10 "cat"; row "e" 20 "dan"].
Definition id_of (r : Row Datum) : string :=
  match dict_get r "id"%string with Some (Some (inr s)) => s | _ => EmptyString end.
Definition older_than_10 : postgres.Condition :=
  postgres.compare (postgres.OExpression (postgres.column "age")) postgres.GREATER_THAN
    (postgres.OExpression (postgres.Constant (PInt 10))).
Definition sorts : list postgres.SortBy :=
  [postgres.mkSortBy (postgres.column "age") (Some postgres.DESC);
   postgres.mkSortBy (postgres.column "name") (Some postgres.ASC)].
Definition sorted_on (r : Row Datum) : list Datum := default [] (sort_keys sorts r).
Definition older (r : Row Datum) : bool :=
  match dict_get r "age"%string with Some (Some (inl z)) => (10 <? z)%Z | _ => false end.
End reference_engine.

#[local] Existing Instance no_user_code.

(** A search for pages of the people over 10. *)
Definition people_search (last_id : string) (direction : PagingDirection) : Query :=
  Search [FilterClause GREATER_THAN (path "age" []) (VInt 10)]
    (Some (SortClause [mkSortField (inl (path "age" [])) DESC; mkSortField (inl (path "name" [])) ASC]))
    (Some (KeySetPagingClause (Some last_id) direction 2)).

(** The page after, and the page before, a row of the table; the union that is built for
    sorts of both directions is evaluated through the theorem. *)
Lemma key_set_pages_agree_witness :
  (exists q, convert_query (with_default_converters "people" empty_converter)
      (people_search "c" FORWARDS) = postgres.build q /\
    eval_query [("people"%string, reference_engine.rows)] q =
    Some [reference_engine.row "a" 30 "zoe"; reference_engine.row "b" 20 "amy"]) /\
  (exists q, convert_query (with_default_converters "people" empty_converter)
      (people_search "e" BACKWARDS) = postgres.build q /\
    eval_query [("people"%string, reference_engine.rows)] q =
    Some [reference_engine.row "a" 30 "zoe"; reference_engine.row "b" 20 "amy"]).
Proof.
  assert (forall P : Row reference_engine.Datum -> Prop,
    Forall P reference_engine.rows -> forall r, r ∈ reference_engine.rows -> P r) as Hall
    by (intros P HP; by apply Forall_forall).
  destruct (key_set_pages_agree "people" reference_engine.rows reference_engine.id_of)
    with (sorts := reference_engine.sorts) (keys := reference_engine.sorted_on)
      (conditions := [reference_engine.older_than_10]) (keep := reference_engine.older)
      (db := [("people"%string, reference_engine.rows)]) (n := 2%Z) as [_ Hpages].
  - apply Hall. by repeat constructor.
  - by apply (bool_decide_unpack _), I.
  - apply Hall. by repeat constructor.
  - intros r s Hr. revert s. apply Hall. revert r Hr. apply Hall.
    repeat constructor; by eexists.
  - intros db. apply Hall. by repeat constructor.
  - done.
  - done.
  - lia.
  - right. exists [("age"%string, postgres.DESC); ("name"%string, postgres.ASC)].
    split; [done|]. by apply (bool_decide_unpack _), I.
  - split.
    + destruct (Hpages (reference_engine.row "c" 30 "bob") FORWARDS) as (q & _ & Hq & E);
        [|exists q; split; [by apply Hq|exact E]].
      apply list_elem_of_lookup. by exists 0%nat.
    + destruct (Hpages (reference_engine.row "e" 20 "dan") BACKWARDS) as (q & _ & Hq & E);
        [|exists q; split; [by apply Hq|exact E]].
      apply list_elem_of_lookup. by exists 3%nat.
Defined.
