(* ===== verification/Sha256.v ===== *)
(** [hashlib.sha256] of a string's bytes, as the integer its hex digest denotes, and the
    digest that names an advisory lock ([get_digest] of
    [store/adapters/postgres/adapter.py]). Words are 32 bits wide and their additions wrap. *)
From Stdlib Require Import Ascii.
From S2P Require Import Prelude.
Local Open Scope Z_scope.

Module sha256.
Definition word (z : Z) : Z := z mod 2 ^ 32.
Definition rotr (x n : Z) : Z :=
  Z.lor (Z.shiftr x n) (word (Z.shiftl x (32 - n))).
Definition complement (x : Z) : Z := Z.lxor x (2 ^ 32 - 1).

Definition big_sigma0 (x : Z) : Z := Z.lxor (rotr x 2) (Z.lxor (rotr x 13) (rotr x 22)).
Definition big_sigma1 (x : Z) : Z := Z.lxor (rotr x 6) (Z.lxor (rotr x 11) (rotr x 25)).
Definition small_sigma0 (x : Z) : Z := Z.lxor (rotr x 7) (Z.lxor (rotr x 18) (Z.shiftr x 3)).
Definition small_sigma1 (x : Z) : Z := Z.lxor (rotr x 17) (Z.lxor (rotr x 19) (Z.shiftr x 10)).
Definition choose (x y z : Z) : Z := Z.lxor (Z.land x y) (Z.land (complement x) z).
Definition majority (x y z : Z) : Z :=
  Z.lxor (Z.land x y) (Z.lxor (Z.land x z) (Z.land y z)).

(** The first 64 primes. *)
Definition is_prime (p : Z) : bool :=
  forallb (fun d => negb (p mod d =? 0)) (seqZ 2 (p - 2)).
Definition primes : list Z := List.filter is_prime (seqZ 2 310).

(** The greatest [x] of [n] bits, beyond those of [x0], whose cube is at most [z]. *)
Fixpoint cube_root (n : nat) (z x0 : Z) : Z :=
  match n with
  | O => x0
  | S n' =>
      let x := x0 + 2 ^ Z.of_nat n' in
      cube_root n' z (if x ^ 3 <=? z then x else x0)
  end.

(** The first 32 bits of the fractional parts of the cube roots of the primes, and of the
    square roots of the first eight. *)
Definition round_constants : list Z :=
  Eval vm_compute in (fun p => word (cube_root 36 (p * 2 ^ 96) 0)) <$> primes.
Definition initial_hash : list Z :=
  Eval vm_compute in (fun p => word (Z.sqrt (p * 2 ^ 64))) <$> take 8 primes.

Definition bytes (s : string) : list Z := (fun c => Z.of_N (N_of_ascii c)) <$> String.list_ascii_of_string s.

(** The [n] bytes of an integer, the most significant first. *)
Fixpoint big_endian (n : nat) (z : Z) : list Z :=
  match n with O => [] | S n' => Z.shiftr z (8 * Z.of_nat n') mod 256 :: big_endian n' z end.

(** A one bit, zeros up to 8 bytes short of a block, and the length in bits. *)
Definition pad (message : list Z) : list Z :=
  let len := Z.of_nat (length message) in
  message ++ [128] ++ replicate (Z.to_nat ((55 - len) mod 64)) 0 ++ big_endian 8 (8 * len).

Definition join (l : list Z) (width : Z) : Z := foldl (fun acc z => acc * 2 ^ width + z) 0 l.

Fixpoint chunks (n size : nat) (l : list Z) : list (list Z) :=
  match n with O => [] | S n' => take size l :: chunks n' size (drop size l) end.

(** The schedule, the newest word first: word [i] from words [i-16], [i-15], [i-7], [i-2]. *)
Fixpoint extend (n : nat) (recent : list Z) : list Z :=
  match n with
  | O => recent
  | S n' =>
      let at_ i := nth (i - 1) recent 0 in
      extend n' (word (small_sigma1 (at_ 2%nat) + at_ 7%nat + small_sigma0 (at_ 15%nat) + at_ 16%nat)
        :: recent)
  end.
Definition schedule (block : list Z) : list Z :=
  rev (extend 48 (rev ((fun c => join c 8) <$> chunks 16 4 block))).

Definition round (h : list Z) (kw : Z * Z) : list Z :=
  match h with
  | [a; b; c; d; e; f; g; h] =>
      let t1 := h + big_sigma1 e + choose e f g + kw.1 + kw.2 in
      let t2 := big_sigma0 a + majority a b c in
      [word (t1 + t2); a; b; c; word (d + t1); e; f; g]
  | _ => h
  end.

Definition compress (h : list Z) (block : list Z) : list Z :=
  zip_with (fun x y => word (x + y)) h
    (foldl round h (zip round_constants (schedule block))).

Definition digest (s : string) : Z :=
  let padded := pad (bytes s) in
  join (foldl compress initial_hash (chunks (length padded / 64) 64 padded)) 32.
End sha256.

Definition get_digest (lock_id : string) : Z := sha256.digest lock_id mod 10 ^ 16.

(** The published digest of "abc", and two lock names. *)
Example digest_abc : sha256.digest "abc" = 0xba7816bf8f01cfea414140de5dae2223b00361a396177a9cb410ff61f20015ad.
Proof. vm_compute. reflexivity. Qed.
Example digest_events : get_digest "events" = 4651892064572598.
Proof. vm_compute. reflexivity. Qed.
Example digest_two_blocks : get_digest "events.orders.012345678901234567890123456789012345678901234567890123456789" = 7744008394605439.
Proof. vm_compute. reflexivity. Qed.

(** An advisory lock takes a signed 64-bit key. *)
Lemma get_digest_range lock_id : 0 <= get_digest lock_id < 2 ^ 63.
Proof. unfold get_digest. pose proof (Z.mod_pos_bound (sha256.digest lock_id) (10 ^ 16)). lia. Qed.
