(* ===== verification/PostgresServer.v ===== *)
(** What the event storage adapter for Postgres relies on in psycopg and the server: the
    statements it sends, as they are written, and what executing them does.

    A [Statement] is what the server reads in a text and its parameters
    ([statement_text], [statement_params]). [EventsServer] are the documented effects of
    executing statements inside a transaction, of committing it and of rolling it back;
    [reference_server] is a server that parses the texts and keeps those laws. *)
From Stdlib Require Import Ascii.
From S2P Require Import Prelude Values Conversion Events Conditions EventsDB MemoryAdapter.
From S2P Require Import PostgresQuery PostgresQueryTheory.

(** ** Statements *)

(** Conditions on a row of the events table. *)
Inductive EventCondition :=
  | InCategory (category : string)
  | InStream (stream : string)
  | AfterNumber (sequence_number : Z).

(** The columns of an inserted row, in the order the statement lists them. *)
Record NewRow := mkRow {
  nr_id : string;
  nr_name : string;
  nr_stream : string;
  nr_category : string;
  nr_position : Z;
  nr_payload : Val;
  nr_observed_at : Z;
  nr_occurred_at : Z
}.

Inductive Statement :=
  (** Rows that meet conditions, by sequence number; [quoted] tells how columns are spelt. *)
  | SelectEvents (quoted : bool) (conditions : list EventCondition) (descending : bool)
      (limit : Z)
  (** The row of highest position of each of some streams. *)
  | SelectLatest (category : string) (streams : list string)
  | InsertEvents (rows : list NewRow)
  | ObtainLocks (keys : list Z)
  | SelectOne.

Section text.
Context `{Psycopg} (table : string).

(** Words with a separator between them. *)
Fixpoint separated (separator : string) (words : list string) : string :=
  match words with
  | [] => EmptyString
  | [word] => word
  | word :: rest => word +:+ separator +:+ separated separator rest
  end.

Definition column_text (quoted : bool) (name : string) : string :=
  if quoted then quote_identifier name else name.

Definition condition_text (quoted : bool) (c : EventCondition) : string :=
  match c with
  | InCategory _ => column_text quoted "category" +:+ " = %s"
  | InStream _ => column_text quoted "stream" +:+ " = %s"
  | AfterNumber _ => column_text quoted "sequence_number" +:+ " > %s"
  end.

Definition where_text (quoted : bool) (conditions : list EventCondition) : string :=
  match conditions with
  | [] => EmptyString
  | _ => " WHERE " +:+ separated " AND " (condition_text quoted <$> conditions)
  end.

Definition row_text : string := "(%s, %s, %s, %s, %s, %s, %s, %s)".

(** The lines of the statement as they stand in the source. *)
Definition insert_prefix : string := "
                INSERT INTO ".
Definition insert_columns : string := " (id,
                                 name,
                                 stream,
                                 category,
                                 position,
                                 payload,
                                 observed_at,
                                 occurred_at)
                VALUES
                    ".
Definition insert_suffix : string := "
                    RETURNING *;
                ".

Definition statement_text (statement : Statement) : string :=
  match statement with
  | SelectEvents quoted conditions descending _ =>
      "SELECT * FROM " +:+ quote_identifier table +:+ where_text quoted conditions +:+
      " ORDER BY " +:+ column_text quoted "sequence_number" +:+
      (if descending then " DESC" else "") +:+ " LIMIT %s"
  | SelectLatest _ streams =>
      "SELECT DISTINCT ON (category, stream ) * FROM " +:+ quote_identifier table +:+
      " WHERE category = %s AND stream IN (" +:+
      separated ", " ((fun _ => "%s"%string) <$> streams) +:+
      ") ORDER BY category, stream, position DESC"
  | InsertEvents rows =>
      insert_prefix +:+ quote_identifier table +:+ insert_columns +:+
      separated ", " ((fun _ => row_text) <$> rows) +:+ insert_suffix
  | ObtainLocks keys =>
      "SELECT " +:+ separated ", " ((fun _ => "pg_advisory_xact_lock(%s)"%string) <$> keys) +:+ ";"
  | SelectOne => "SELECT 1;"
  end%string.

Definition condition_param (c : EventCondition) : Param :=
  match c with
  | InCategory category => PStr category
  | InStream stream => PStr stream
  | AfterNumber n => PInt n
  end.

Definition row_params (row : NewRow) : list Param :=
  [PStr (nr_id row); PStr (nr_name row); PStr (nr_stream row); PStr (nr_category row);
   PInt (nr_position row); PJsonb (nr_payload row); PDateTime (nr_observed_at row);
   PDateTime (nr_occurred_at row)].

Definition statement_params (statement : Statement) : list Param :=
  match statement with
  | SelectEvents _ conditions _ n => (condition_param <$> conditions) ++ [PInt n]
  | SelectLatest category streams => PStr category :: (PStr <$> streams)
  | InsertEvents rows => concat (row_params <$> rows)
  | ObtainLocks keys => PInt <$> keys
  | SelectOne => []
  end.
End text.

(** ** Effects *)

Definition condition_holds (c : EventCondition) (e : StoredEvent) : bool :=
  match c with
  | InCategory category => bool_decide (se_category e = category)
  | InStream stream => bool_decide (se_stream e = stream)
  | AfterNumber n => (n <? se_sequence_number e)%Z
  end.

Definition select_events (conditions : list EventCondition) (rows : list StoredEvent)
    : list StoredEvent :=
  List.filter (fun e => forallb (fun c => condition_holds c e) conditions) rows.

(** The event a row holds; its payload is what [jsonb] makes of the one inserted. *)
Definition row_event (row : NewRow) (payload : Val) (number : Z) : StoredEvent :=
  mkStoredEvent (nr_id row) (VStr (nr_name row)) (nr_stream row) (nr_category row)
    (nr_position row) number payload (nr_observed_at row) (nr_occurred_at row).

(** Text columns hold no zero character. *)
Definition text_storable (s : string) : bool :=
  forallb (fun c => negb (Ascii.eqb c zero)) (String.list_ascii_of_string s).

Definition condition_storable (c : EventCondition) : bool :=
  match c with InCategory s | InStream s => text_storable s | AfterNumber _ => true end.

Section rows.
(** What reading a [jsonb] column gives of a value written to it; [None] if it is refused. *)
Context (jsonb : Val -> option Val).

(** Positions are 32-bit integers. *)
Definition row_storable (row : NewRow) : Prop :=
  text_storable (nr_id row) = true /\ text_storable (nr_name row) = true /\
  text_storable (nr_stream row) = true /\ text_storable (nr_category row) = true /\
  (0 <= nr_position row < 2 ^ 31)%Z /\ is_Some (jsonb (nr_payload row)).

Definition row_stored (row : NewRow) (e : StoredEvent) : Prop :=
  exists payload number, jsonb (nr_payload row) = Some payload /\ e = row_event row payload number.
End rows.

(** The parameters of a statement are counted in 16 bits. *)
Definition max_parameters : Z := 65535.

(** The latest rows of streams: one of highest position for each that has any. *)
Record latest_rows (category : string) (streams : list string)
    (rows latest : list StoredEvent) : Prop := {
  latest_once : NoDup (se_stream <$> latest);
  latest_among : forall e, e ∈ latest ->
    e ∈ rows /\ se_category e = category /\ se_stream e ∈ streams;
  latest_highest : forall e, e ∈ rows -> se_category e = category -> se_stream e ∈ streams ->
    exists e', e' ∈ latest /\ se_stream e' = se_stream e /\
      (se_position e <= se_position e')%Z
}.

(** Ids, the primary key, that no two rows share. *)
Definition new_ids (rows : list NewRow) (events : list StoredEvent) : Prop :=
  NoDup (nr_id <$> rows) /\
  forall row e, row ∈ rows -> e ∈ events -> nr_id row <> se_id e.

(** Numbers drawn from the sequence: increasing, and beyond those of the rows there. *)
Definition numbers_drawn (rows stored : list StoredEvent) : Prop :=
  StronglySorted Z.lt (numbers_of stored) /\
  forall e e', e ∈ rows -> e' ∈ stored -> (se_sequence_number e < se_sequence_number e')%Z.

(** A connection to the server. [sv_rows] are the rows its statements see, by sequence
    number, [sv_committed] those it would go back to; a connection is [sv_live] when no
    statement of its transaction failed. Other connections are quiet: they are kept out by
    locks, or else the laws speak of no more than one statement. *)
Class EventsServer (S : Type) := {
  sv_execute : string -> list Param -> S -> res (list StoredEvent) * S;
  sv_commit : S -> S;
  sv_rollback : S -> S;
  sv_rows : S -> list StoredEvent;
  sv_committed : S -> list StoredEvent;
  sv_live : S -> Prop;
  sv_jsonb : Val -> option Val
}.

Section laws.
Context `{Psycopg} {S : Type} `{EventsServer S} (table : string).

Definition execute_statement (statement : Statement) (s : S) : res (list StoredEvent) * S :=
  sv_execute (statement_text table statement) (statement_params statement) s.

(** Statements that change no row. *)
Definition reads_only (s s' : S) : Prop :=
  sv_live s' /\ sv_rows s' = sv_rows s /\ sv_committed s' = sv_committed s.

Class EventsServerLaws : Prop := {
  law_commit : forall s, sv_live s ->
    sv_live (sv_commit s) /\ sv_rows (sv_commit s) = sv_rows s /\
    sv_committed (sv_commit s) = sv_rows s;
  law_rollback : forall s,
    sv_live (sv_rollback s) /\ sv_rows (sv_rollback s) = sv_committed s /\
    sv_committed (sv_rollback s) = sv_committed s;
  law_uncommitted : forall text params s,
    sv_committed (sv_execute text params s).2 = sv_committed s;
  law_select : forall s quoted conditions descending n,
    sv_live s -> (0 <= n)%Z -> Forall (fun c => condition_storable c = true) conditions ->
    exists s', execute_statement (SelectEvents quoted conditions descending n) s =
      (Ok (take (Z.to_nat n)
        ((if descending then reverse else id) (select_events conditions (sv_rows s)))), s') /\
      reads_only s s';
  law_latest : forall s category streams,
    sv_live s -> streams <> [] -> Forall (fun t => text_storable t = true) (category :: streams) ->
    exists latest s', execute_statement (SelectLatest category streams) s = (Ok latest, s') /\
      reads_only s s' /\ latest_rows category streams (sv_rows s) latest;
  law_latest_of_none : forall s category,
    exists e s', execute_statement (SelectLatest category []) s = (Raise e, s');
  law_insert : forall s rows stored s',
    sv_live s -> execute_statement (InsertEvents rows) s = (Ok stored, s') ->
    sv_live s' /\ sv_rows s' = sv_rows s ++ stored /\
    Forall2 (row_stored sv_jsonb) rows stored /\ numbers_drawn (sv_rows s) stored;
  law_insert_accepted : forall s rows,
    sv_live s -> rows <> [] -> (8 * Z.of_nat (length rows) <= max_parameters)%Z ->
    Forall (row_storable sv_jsonb) rows ->
    new_ids rows (sv_rows s) ->
    exists stored s', execute_statement (InsertEvents rows) s = (Ok stored, s');
  law_insert_none : forall s, exists e s', execute_statement (InsertEvents []) s = (Raise e, s');
  law_insert_too_many : forall s rows,
    (max_parameters < 8 * Z.of_nat (length rows))%Z ->
    exists e s', execute_statement (InsertEvents rows) s = (Raise e, s');
  law_lock : forall s keys,
    sv_live s -> keys <> [] -> Forall (fun k => - 2 ^ 63 <= k < 2 ^ 63)%Z keys ->
    exists rows s', execute_statement (ObtainLocks keys) s = (Ok rows, s') /\ reads_only s s';
  law_select_one : forall s,
    sv_live s -> exists rows s', execute_statement SelectOne s = (Ok rows, s') /\ reads_only s s'
}.
End laws.
Arguments EventsServerLaws {_ _ _} table.
Arguments law_commit {_ _ _} table {_} s.
Arguments law_rollback {_ _ _} table {_} s.
Arguments law_uncommitted {_ _ _} table {_} text params s.
Arguments law_select {_ _ _} table {_} s quoted conditions descending n.
Arguments law_latest {_ _ _} table {_} s category streams.
Arguments law_latest_of_none {_ _ _} table {_} s category.
Arguments law_insert {_ _ _} table {_} s rows stored s'.
Arguments law_insert_accepted {_ _ _} table {_} s rows.
Arguments law_insert_none {_ _ _} table {_} s.
Arguments law_insert_too_many {_ _ _} table {_} s rows.
Arguments law_lock {_ _ _} table {_} s keys.
Arguments law_select_one {_ _ _} table {_} s.
