(* ===== verification/PostgresConditions.v ===== *)
(** Write conditions and query constraints on Postgres
    ([store/adapters/postgres/converters.py]): enforcers that may use the connection the
    events are inserted on, the registry that makes them, and the appliers that add
    constraints to a query. *)
From S2P Require Import Prelude Values Events Conditions EventsDB PostgresQuery.

Module pg.
(** ** Constraints *)

(** [QueryApplier] ([persistence/postgres/query.py]). *)
Definition QueryApplier : Type := postgres.Query -> res postgres.Query.

Definition SequenceNumberAfterConstraintQueryApplier (sequence_number : Z) : QueryApplier :=
  fun target =>
  Ok (postgres.where_
    [postgres.compare (postgres.OExpression (postgres.column "sequence_number"))
      postgres.GREATER_THAN (postgres.OExpression (postgres.Constant (PInt sequence_number)))]
    target).

Definition SequenceNumberAfterConstraintConverter (item : QueryConstraint) : res QueryApplier :=
  match item with
  | SequenceNumberAfterConstraint n => Ok (SequenceNumberAfterConstraintQueryApplier n)
  | _ => Raise AttributeError
  end.

Definition with_default_constraint_converters
    (registry : gmap string (QueryConstraint -> res QueryApplier))
    : gmap string (QueryConstraint -> res QueryApplier) :=
  registry_register registry "SequenceNumberAfterConstraint"
    SequenceNumberAfterConstraintConverter.

(** ** Enforcers *)
Section enforcers.
Context {S : Type}.

(** [assert_satisfied]: it may run statements on the connection. *)
Definition WriteConditionEnforcer : Type := WriteConditionEnforcerContext -> ST S ().

Definition NoConditionEnforcer : WriteConditionEnforcer := fun _ => mret ().

Definition PositionIsConditionEnforcer (position : option Z) : WriteConditionEnforcer :=
  fun context =>
  let latest_event := ctx_latest_event context in
  let latest_position :=
    match latest_event with Some event => Some (se_position event) | None => None end in
  st_lift (raise_if (bool_decide (latest_position <> position))
    (UnmetWriteConditionError "unexpected stream position")).

Definition EmptyStreamConditionEnforcer : WriteConditionEnforcer := fun context =>
  st_lift (raise_if (bool_decide (ctx_latest_event context <> None))
    (UnmetWriteConditionError "stream is not empty")).

Fixpoint AndConditionEnforcer (enforcers : list WriteConditionEnforcer)
    : WriteConditionEnforcer := fun context =>
  match enforcers with
  | [] => mret ()
  | enforcer :: rest => _ ← enforcer context; AndConditionEnforcer rest context
  end.

(** The loop of [OrConditionEnforcer]. What a failed enforcer did on the connection stays. *)
Fixpoint or_enforce (enforcers : list WriteConditionEnforcer) (first_exception : option Exn)
    : WriteConditionEnforcer := fun context s =>
  match enforcers with
  | [] => (match first_exception with Some e => Raise e | None => Ok () end, s)
  | enforcer :: rest =>
      match enforcer context s with
      | (Ok _, s') => (Ok (), s')
      | (Raise (UnmetWriteConditionError m), s') =>
          or_enforce rest (Some (UnmetWriteConditionError m)) context s'
      | (Raise e, s') => (Raise e, s')
      end
  end.
Definition OrConditionEnforcer (enforcers : list WriteConditionEnforcer)
    : WriteConditionEnforcer := or_enforce enforcers None.

(** ** The registry; compound converters call the registry they are in. *)
Definition ConditionConverter : Type :=
  (WriteCondition -> res WriteConditionEnforcer) -> WriteCondition -> res WriteConditionEnforcer.

Definition NoConditionConverter : ConditionConverter := fun _ _ => Ok NoConditionEnforcer.
Definition PositionIsConditionConverter : ConditionConverter := fun _ item =>
  match item with
  | PositionIsCondition position => Ok (PositionIsConditionEnforcer position)
  | _ => Raise AttributeError
  end.
Definition EmptyStreamConditionConverter : ConditionConverter := fun _ _ =>
  Ok EmptyStreamConditionEnforcer.
Definition AndConditionConverter : ConditionConverter := fun condition_converter item =>
  match item with
  | AndCondition cs | OrCondition cs =>
      enforcers ← mapM condition_converter cs; Ok (AndConditionEnforcer enforcers)
  | _ => Raise AttributeError
  end.
Definition OrConditionConverter : ConditionConverter := fun condition_converter item =>
  match item with
  | AndCondition cs | OrCondition cs =>
      enforcers ← mapM condition_converter cs; Ok (OrConditionEnforcer enforcers)
  | _ => Raise AttributeError
  end.

Definition with_default_condition_converters (registry : gmap string ConditionConverter)
    : gmap string ConditionConverter :=
  <["OrCondition"%string := OrConditionConverter]>
  (<["AndCondition"%string := AndConditionConverter]>
  (<["EmptyStreamCondition"%string := EmptyStreamConditionConverter]>
  (<["PositionIsCondition"%string := PositionIsConditionConverter]>
  (<["NoCondition"%string := NoConditionConverter]> registry)))).

(** [convert]; the fuel bounds the nesting followed. *)
Fixpoint convert_condition_fuel (fuel : nat) (registry : gmap string ConditionConverter)
    (item : WriteCondition) : res WriteConditionEnforcer :=
  match fuel with
  | 0 => Raise (RuntimeError "maximum recursion depth exceeded")
  | Datatypes.S fuel =>
      match registry !! wc_class item with
      | None => Raise (ValueError
          ("No converter registered for type: " +:+ wc_class item +:+ "."))
      | Some converter => converter (convert_condition_fuel fuel registry) item
      end
  end.

Definition convert_condition (registry : gmap string ConditionConverter)
    (item : WriteCondition) : res WriteConditionEnforcer :=
  convert_condition_fuel (Datatypes.S (wc_depth item)) registry item.
End enforcers.
Arguments WriteConditionEnforcer : clear implicits.
Arguments ConditionConverter : clear implicits.
End pg.

(** ** The two adapters enforce the same conditions *)
Section agreement.
Context {S T : Type}.

(** An enforcer on a connection that decides as an in-memory one does, and leaves the
    connection alone. *)
Definition same_enforcer (e : pg.WriteConditionEnforcer S) (e' : WriteConditionEnforcer T) : Prop :=
  forall context s tr, e context s = (e' context tr, s).

Lemma same_and es es' :
  Forall2 same_enforcer es es' -> same_enforcer (pg.AndConditionEnforcer es) (AndConditionEnforcer es').
Proof.
  intros Hes context s tr. induction Hes as [|e e' es es' He _ IH]; cbn; [done|].
  unfold mbind, ST_bind, res_bind. rewrite (He context s tr). by destruct (e' context tr).
Qed.

Lemma same_or es es' first :
  Forall2 same_enforcer es es' -> same_enforcer (pg.or_enforce es first) (or_enforce es' first).
Proof.
  intros Hes context s tr. revert first.
  induction Hes as [|e e' es es' He _ IH]; intros first; cbn; [by destruct first|].
  rewrite (He context s tr). destruct (e' context tr) as [|[]]; done || apply IH.
Qed.

Lemma pg_condition_converters reg c :
  standard c = true ->
  pg.with_default_condition_converters (S := S) reg !! wc_class c = Some
    match c with
    | AndCondition _ => pg.AndConditionConverter
    | OrCondition _ => pg.OrConditionConverter
    | PositionIsCondition _ => pg.PositionIsConditionConverter
    | EmptyStreamCondition => pg.EmptyStreamConditionConverter
    | _ => pg.NoConditionConverter
    end.
Proof.
  intros Hstd. unfold pg.with_default_condition_converters.
  destruct c; try discriminate Hstd; cbn [wc_class]; by simplify_map_eq.
Qed.

Lemma mapM_same {A B C} (f : A -> res B) (g : A -> res C) (R : B -> C -> Prop) l :
  Forall (fun x => exists y z, f x = Ok y /\ g x = Ok z /\ R y z) l ->
  exists ys zs, mapM f l = Ok ys /\ mapM g l = Ok zs /\ Forall2 R ys zs.
Proof.
  induction 1 as [|x l (y & z & Hy & Hz & HR) _ (ys & zs & Hys & Hzs & HRs)]; cbn.
  - by exists [], [].
  - exists (y :: ys), (z :: zs). rewrite Hy, Hys, Hz, Hzs. split_and!; [done|done|by constructor].
Qed.

Lemma conditions_agree_fuel reg reg' c fuel :
  standard c = true -> wc_depth c < fuel ->
  exists e e',
    pg.convert_condition_fuel fuel (pg.with_default_condition_converters (S := S) reg) c = Ok e /\
    convert_condition_fuel fuel (with_default_condition_converters (T := T) reg') c = Ok e' /\
    same_enforcer e e'.
Proof.
  revert fuel. induction c as [cs IH|cs IH| |p| |k x] using WriteCondition_nested_ind;
    intros [|fuel] Hstd Hfuel; try lia;
    cbn [convert_condition_fuel pg.convert_condition_fuel];
    rewrite (default_condition_converters (T := T) reg'), pg_condition_converters by done;
    try discriminate Hstd.
  1,2: cbn in Hstd, Hfuel; rewrite forallb_elem in Hstd; rewrite Forall_forall in IH;
    destruct (mapM_same
      (pg.convert_condition_fuel fuel (pg.with_default_condition_converters (S := S) reg))
      (convert_condition_fuel fuel (with_default_condition_converters (T := T) reg'))
      same_enforcer cs) as (es & es' & Hes & Hes' & Hall);
    [apply Forall_forall; intros c Hc; apply IH; [done|auto|];
     apply (wc_depth_elem c cs); [done|lia]|].
  - cbn. rewrite Hes, Hes'. eexists _, _. split_and!; [done..|]. by apply same_and.
  - cbn. rewrite Hes, Hes'. eexists _, _. split_and!; [done..|]. by apply same_or.
  - eexists _, _. by split_and!.
  - eexists _, _. split_and!; [done..|]. intros context s tr. cbn.
    unfold pg.PositionIsConditionEnforcer, PositionIsConditionEnforcer, st_lift.
    by destruct (ctx_latest_event context).
  - eexists _, _. by split_and!.
Qed.

(** Whatever the other types the registries know. *)
Lemma conditions_agree reg reg' c :
  standard c = true ->
  exists e e',
    pg.convert_condition (pg.with_default_condition_converters (S := S) reg) c = Ok e /\
    convert_condition (with_default_condition_converters (T := T) reg') c = Ok e' /\
    same_enforcer e e'.
Proof. intros Hstd. apply conditions_agree_fuel; [done|lia]. Qed.
End agreement.

(** ** Enforcers that leave the connection alone *)
Section quiet.
Context {S : Type}.

Definition quiet (e : pg.WriteConditionEnforcer S) : Prop := forall context s, (e context s).2 = s.

(** Converters that make such enforcers, if the registry they are in does. *)
Definition quiet_registry (registry : gmap string (pg.ConditionConverter S)) : Prop :=
  forall class converter convert item e, registry !! class = Some converter ->
    (forall i e', convert i = Ok e' -> quiet e') -> converter convert item = Ok e -> quiet e.

Lemma quiet_and es : Forall quiet es -> quiet (pg.AndConditionEnforcer es).
Proof.
  intros Hes context. induction Hes as [|e es He _ IH]; intros s; cbn; [done|].
  unfold mbind, ST_bind. specialize (He context s). destruct (e context s) as [[] s']; cbn in He;
    by subst.
Qed.

Lemma quiet_or es first : Forall quiet es -> quiet (pg.or_enforce es first).
Proof.
  intros Hes context s. revert first. induction Hes as [|e es He _ IH]; intros first; cbn; [done|].
  specialize (He context s). destruct (e context s) as [[|[]] s']; cbn in He |- *; by subst.
Qed.

Lemma quiet_defaults registry :
  quiet_registry registry -> quiet_registry (pg.with_default_condition_converters registry).
Proof.
  intros Hreg class converter convert item e Hc Hconvert.
  assert (forall cs es, mapM convert cs = Ok es -> Forall quiet es) as Hall.
  { intros cs es Hes%res_mapM_Ok. induction Hes; constructor; eauto. }
  unfold pg.with_default_condition_converters in Hc.
  repeat (apply lookup_insert_Some in Hc as [[<- <-]|[_ Hc]]; [intros He|]);
    [..|intros He; by eapply Hreg].
  1,2: destruct item; cbn in He; try discriminate He;
    apply res_bind_Ok in He as (es & Hes & [= <-]);
    [apply quiet_or || apply quiet_and; by eapply Hall..].
  - by injection He as <-.
  - destruct item; try discriminate He. by injection He as <-.
  - by injection He as <-.
Qed.

Lemma quiet_conversion registry item e :
  quiet_registry registry ->
  pg.convert_condition (pg.with_default_condition_converters registry) item = Ok e -> quiet e.
Proof.
  intros Hreg%quiet_defaults. unfold pg.convert_condition. generalize (Datatypes.S (wc_depth item)).
  intros fuel. revert item e. induction fuel as [|fuel IH]; intros item e; [done|].
  cbn [pg.convert_condition_fuel].
  destruct (_ !! wc_class item) as [converter|] eqn:Hc; [|done]. intros He. by eapply Hreg.
Qed.
End quiet.

(** What an enforcer made of a standard condition does on a connection. *)
Lemma pg_condition_enforced {S} reg c :
  standard c = true ->
  exists enforcer,
    pg.convert_condition (pg.with_default_condition_converters (S := S) reg) c = Ok enforcer /\
    forall context s, exists r, enforcer context s = (r, s) /\
      enforces (satisfied c (ctx_latest_event context)) r.
Proof.
  intros Hstd. destruct (conditions_agree (S := S) (T := ()) reg ∅ c Hstd)
    as (e & e' & He & He' & Hsame).
  destruct (convert_condition_enough (T := ()) ∅ c _ Hstd (Nat.lt_succ_diag_r _))
    as (e2 & He2 & Henf).
  unfold convert_condition in He'. assert (e' = e2) as -> by congruence. exists e. split; [done|].
  intros context s. exists (e2 context ()). split; [apply Hsame|apply Henf].
Qed.
