(* ===== verification/PostgresAdapter.v ===== *)
(** The event storage adapter for Postgres ([store/adapters/postgres/adapter.py]): the
    queries it writes, and saving, reading and scanning as sequences of statements inside
    transactions on an [EventsServer]. *)
From S2P Require Import Prelude Values Conversion Events Conditions EventsDB MemoryAdapter.
From S2P Require Import PostgresQuery PostgresQueryTheory PostgresConditions Sha256.
From S2P Require Import PostgresServer.

(** ** Parameters of queries *)

Record ScanQueryParameters := mkScanParameters {
  sp_target : EventSourceIdentifier;
  sp_constraints : list QueryConstraint;
  sp_page_size : Z
}.

(** The [category] and [stream] of scan and latest parameters. *)
Definition target_category (target : EventSourceIdentifier) : option string :=
  match target with
  | CategoryIdentifier category => Some category
  | StreamIdentifier category _ => Some category
  | _ => None
  end.
Definition target_stream (target : EventSourceIdentifier) : option string :=
  match target with StreamIdentifier _ stream => Some stream | _ => None end.

(** [CategoryStreamsLatestQueryParameters]. *)
Record CategoryStreams := mkCategoryStreams {
  cs_category : string;
  cs_streams : list string
}.

(** [StreamInsertDefinition]. *)
Record StreamInsertDefinition := mkInsert {
  si_events : list NewEvent;
  si_position : Z
}.

(** The targets of write locks: one identifier, or a sequence of them. *)
Inductive LockTargets :=
  | LockTarget (target : EventSourceIdentifier)
  | LockSequence (targets : list EventSourceIdentifier).

(** Truth of an optional string. *)
Definition truthy (s : option string) : option string :=
  match s with Some EmptyString | None => None | _ => s end.

(** ** Queries *)
Section queries.
Context (constraint_converter : gmap string (QueryConstraint -> res pg.QueryApplier)).
Context (table_name : string).

Definition equals_condition (field value : string) : postgres.Condition :=
  postgres.compare (postgres.OExpression (postgres.column field)) postgres.EQUALS
    (postgres.OExpression (postgres.Constant (PStr value))).

Definition where_equals (field : string) (value : option string) (builder : postgres.Query)
    : postgres.Query :=
  match truthy value with
  | Some value => postgres.where_ [equals_condition field value] builder
  | None => builder
  end.

Fixpoint apply_constraints (constraints : list QueryConstraint) (builder : postgres.Query)
    : res postgres.Query :=
  match constraints with
  | [] => Ok builder
  | constraint :: rest =>
      applier ← registry_convert constraint_class constraint_converter constraint;
      builder' ← (applier : pg.QueryApplier) builder;
      apply_constraints rest builder'
  end.

Definition scan_query (parameters : ScanQueryParameters) : res ParameterisedQuery :=
  let builder := postgres.from_table table_name (postgres.select_all postgres.query) in
  let builder := where_equals "category" (target_category (sp_target parameters)) builder in
  let builder := where_equals "stream" (target_stream (sp_target parameters)) builder in
  builder ← apply_constraints (sp_constraints parameters) builder;
  postgres.build (postgres.limit (Some (sp_page_size parameters))
    (postgres.order_by
      [inr (postgres.mkSortBy (postgres.column "sequence_number") None)] builder)).

Definition invalid_targets : Exn := ValueError
  "Invalid type for targets, expected StreamIdentifier, CategoryIdentifier, or a sequence of StreamIdentifiers.".

Definition lock_query (guarantee : EventSerialisationGuarantee) (target : EventSourceIdentifier)
    : res ParameterisedQuery :=
  name ← lock_name guarantee table_name target;
  Ok ([SQL "SELECT pg_advisory_xact_lock(%s);"], [PInt (get_digest name)]).

Definition obtain_write_locks_query (targets : LockTargets)
    (guarantee : EventSerialisationGuarantee) : res ParameterisedQuery :=
  match targets, guarantee with
  | LockSequence [], _ => Ok ([SQL "SELECT 1;"], [])
  | LockTarget (StreamIdentifier _ _ as target), _ => lock_query guarantee target
  | LockTarget (CategoryIdentifier _ as target), (LOG | CATEGORY) => lock_query guarantee target
  | LockSequence targets, STREAM =>
      lock_names ← mapM (lock_name STREAM table_name) targets;
      let lock_digests := get_digest <$> lock_names in
      let lock_placeholders := sql_join ", "
        ((fun _ => [SQL "pg_advisory_xact_lock(%s)"]) <$> lock_digests) in
      Ok ([SQL "SELECT "] ++ lock_placeholders ++ [SQL ";"], PInt <$> lock_digests)
  | LockTarget _, STREAM => Raise TypeError
  | _, _ => Raise invalid_targets
  end.

(** [read_last_query]: absent clauses and absent parameters are left out. *)
Definition read_last_query (target : EventSourceIdentifier) : ParameterisedQuery :=
  let category_where_clause :=
    (fun _ => [SQL "category = %s"]) <$> target_category target in
  let stream_where_clause := (fun _ => [SQL "stream = %s"]) <$> target_stream target in
  let where_clauses := omap id [category_where_clause; stream_where_clause] in
  let where_clause :=
    match where_clauses with
    | [] => None
    | _ => Some ([SQL "WHERE "] ++ sql_join " AND " where_clauses)
    end in
  let clauses := omap id [
    Some [SQL "SELECT *"]; Some [SQL "FROM "; Identifier table_name]; where_clause;
    Some [SQL "ORDER BY sequence_number DESC"]; Some [SQL "LIMIT %s"]] in
  (sql_join " " clauses,
   omap id [PStr <$> target_category target; PStr <$> target_stream target; Some (PInt 1)]).

Definition read_last_category_batch_query (parameters : CategoryStreams) : ParameterisedQuery :=
  let stream_where_placeholders :=
    sql_join ", " ((fun _ => [Placeholder]) <$> cs_streams parameters) in
  let stream_where_clause :=
    [SQL "stream IN ("] ++ stream_where_placeholders ++ [SQL ")"] in
  let where_clause :=
    [SQL "WHERE "] ++ sql_join " AND " [[SQL "category = %s"]; stream_where_clause] in
  (sql_join " " [[SQL "SELECT DISTINCT ON (category, stream ) *"];
     [SQL "FROM "; Identifier table_name]; where_clause;
     [SQL "ORDER BY category, stream, position DESC"]],
   PStr (cs_category parameters) :: (PStr <$> cs_streams parameters)).
End queries.

(** ** State

    The server as the adapter's connection sees it, and how many event ids were drawn. *)
Record PostgresState (S : Type) := mkPostgresState { ps_uuids : nat; ps_server : S }.
Arguments mkPostgresState {_} _ _.
Arguments ps_uuids {_} _.
Arguments ps_server {_} _.

Definition on_server {S A} (m : ST S A) : ST (PostgresState S) A := fun st =>
  match m (ps_server st) with (r, s) => (r, mkPostgresState (ps_uuids st) s) end.

(** [PostgresEventStorageAdapter.__init__], with [QuerySettings] and [TableSettings]. *)
Record AdapterSettings (S : Type) := mkSettings {
  as_serialisation_guarantee : EventSerialisationGuarantee;
  as_scan_query_page_size : Z;
  as_table_name : string;
  as_constraint_converter : gmap string (QueryConstraint -> res pg.QueryApplier);
  as_condition_converter : gmap string (pg.ConditionConverter S);
  as_max_insert_batch_size : Z
}.
Arguments mkSettings {_} _ _ _ _ _ _.
Arguments as_serialisation_guarantee {_} _.
Arguments as_scan_query_page_size {_} _.
Arguments as_table_name {_} _.
Arguments as_constraint_converter {_} _.
Arguments as_condition_converter {_} _.

(** The arguments that default: one lock for the log, pages of 100, the table "events" and
    the library's own conditions and constraints. *)
Definition default_settings {S} : AdapterSettings S :=
  mkSettings LOG 100 "events" (pg.with_default_constraint_converters ∅)
    (pg.with_default_condition_converters ∅) 1000.

(** [d[k]]. *)
Definition dict_item {K V} `{EqDecision K} (d : dict K V) (k : K) : res V :=
  match dict_get d k with Some v => Ok v | None => Raise KeyError end.

Section adapter.
Context `{Psycopg} `{UserCode} {S : Type} `{EventsServer S}.
(** [uuid4().hex], by how many were drawn before. *)
Context (uuid4 : nat -> string).
Context (settings : AdapterSettings S).

Let State : Type := PostgresState S.
Let table_name : string := as_table_name settings.

(** [cursor.execute] of a query and its parameters, with the rows it leaves to fetch. *)
Definition execute (query : ParameterisedQuery) : ST State (list StoredEvent) :=
  on_server (sv_execute (as_string query.1) query.2).

(** [async with connection_pool.connection()]: commits, or rolls back on an exception. *)
Definition with_connection {A} (body : ST State A) : ST State A := fun st =>
  match body st with
  | (Ok a, st') => (Ok a, mkPostgresState (ps_uuids st') (sv_commit (ps_server st')))
  | (Raise e, st') => (Raise e, mkPostgresState (ps_uuids st') (sv_rollback (ps_server st')))
  end.

(** *** Inserting *)

(** The parameters of one event's row: its id is drawn first, and its name and payload are
    serialised, which may raise. *)
Definition event_values (identifier : string * string) (position : Z) (event : NewEvent)
    : ST State (list Param) := fun st =>
  let id := uuid4 (ps_uuids st) in
  let st' := mkPostgresState (Datatypes.S (ps_uuids st)) (ps_server st) in
  (name ← serialise_to_string (ne_name event) raising_serialisation_fallback;
   payload ← serialise_to_json_value (ne_payload event) raising_serialisation_fallback;
   Ok [PStr id; PStr name; PStr identifier.2; PStr identifier.1; PInt position;
       PJsonb payload; PDateTime (ne_observed_at event); PDateTime (ne_occurred_at event)],
   st').

(** The rows of one definition; [i] counts its events. *)
Fixpoint stream_values (identifier : string * string) (start_position : Z) (i : nat)
    (events : list NewEvent) : ST State (list (list Param)) :=
  match events with
  | [] => mret []
  | event :: rest =>
      values ← event_values identifier (start_position + Z.of_nat i) event;
      more ← stream_values identifier start_position (Datatypes.S i) rest;
      mret (values :: more)
  end.

Fixpoint batch_values (definitions : dict (string * string) StreamInsertDefinition)
    : ST State (list (list Param)) :=
  match definitions with
  | [] => mret []
  | (identifier, definition) :: rest =>
      values ← stream_values identifier (si_position definition) 0 (si_events definition);
      more ← batch_values rest;
      mret (values ++ more)
  end.

(** The statement of [insert_batch_query]. *)
Definition insert_statement (rows_expression : Composed) : Composed :=
  [SQL "
                INSERT INTO "; Identifier table_name;
   SQL " (id,
                                 name,
                                 stream,
                                 category,
                                 position,
                                 payload,
                                 observed_at,
                                 occurred_at)
                VALUES
                    "] ++ rows_expression ++
  [SQL "
                    RETURNING *;
                "].

Definition insert_batch_query (definitions : dict (string * string) StreamInsertDefinition)
    : ST State ParameterisedQuery :=
  values ← batch_values definitions;
  let rows := (fun _ => [SQL "(%s, %s, %s, %s, %s, %s, %s, %s)"]) <$> values in
  mret (insert_statement (sql_join ", " rows), concat values).

(** The event given back for a row: the caller's own name and payload. *)
Definition stored_result (event : NewEvent) (stored_event : StoredEvent) : StoredEvent :=
  mkStoredEvent (se_id stored_event) (ne_name event) (se_stream stored_event)
    (se_category stored_event) (se_position stored_event) (se_sequence_number stored_event)
    (ne_payload event) (se_observed_at stored_event) (se_occurred_at stored_event).

Fixpoint stream_results (events : list NewEvent) (stored_events : list StoredEvent)
    (event_index : nat) : res (list StoredEvent) :=
  match events with
  | [] => Ok []
  | event :: rest =>
      stored_event ← py_get stored_events (Z.of_nat event_index);
      results ← stream_results rest stored_events (Datatypes.S event_index);
      Ok (stored_result event stored_event :: results)
  end.

Fixpoint batch_results (definitions : dict (string * string) StreamInsertDefinition)
    (stored_events : list StoredEvent) (event_index : nat)
    (results : dict (string * string) (list StoredEvent))
    : res (dict (string * string) (list StoredEvent)) :=
  match definitions with
  | [] => Ok results
  | (identifier, definition) :: rest =>
      stream_stored_events ← stream_results (si_events definition) stored_events event_index;
      batch_results rest stored_events (event_index + length (si_events definition))
        (dict_set results identifier stream_stored_events)
  end.

Definition batch_size (definitions : dict (string * string) StreamInsertDefinition) : nat :=
  sum_list ((fun definition => length (si_events definition)) <$> dict_values definitions).

(** The message carries both counts. *)
Definition batch_failed : Exn := RuntimeError "Batch insert failed".

Definition insert_batch (definitions : dict (string * string) StreamInsertDefinition)
    : ST State (dict (string * string) (list StoredEvent)) :=
  match definitions with
  | [] => mret []
  | _ =>
      query ← insert_batch_query definitions;
      stored_events ← execute query;
      if bool_decide (length stored_events <> batch_size definitions)
      then st_lift (Raise batch_failed)
      else st_lift (batch_results definitions stored_events 0 [])
  end.

(** *** Saving *)

(** [obtain_write_locks] takes its query from the same cases as [obtain_write_locks_query]. *)
Definition obtain_write_locks (targets : LockTargets) : ST State () :=
  query ← st_lift (match targets, as_serialisation_guarantee settings with
    | LockTarget (StreamIdentifier _ _), guarantee =>
        obtain_write_locks_query table_name targets guarantee
    | LockTarget (CategoryIdentifier _), (LOG | CATEGORY) as guarantee =>
        obtain_write_locks_query table_name targets guarantee
    | _, STREAM => obtain_write_locks_query table_name targets STREAM
    | _, _ => Raise invalid_targets
    end);
  _ ← execute query;
  mret ().

(** [read_last] and [read_last_category_batch]: [fetchone] and [fetchall]. *)
Definition read_last (target : EventSourceIdentifier) : ST State (option StoredEvent) :=
  rows ← execute (read_last_query table_name target);
  mret (head rows).

Definition read_last_category_batch (parameters : CategoryStreams)
    : ST State (dict string StoredEvent) :=
  results ← execute (read_last_category_batch_query table_name parameters);
  mret (dict_of se_stream id results).

(** The position after the latest event, once the condition is satisfied. *)
Definition enforce_condition (identifier : string * string) (condition : WriteCondition)
    (latest_event : option StoredEvent) : ST State Z :=
  enforcer ← st_lift (pg.convert_condition (as_condition_converter settings) condition);
  _ ← on_server (enforcer
    (mkContext (StreamIdentifier identifier.1 identifier.2) latest_event));
  mret (match latest_event with Some event => se_position event + 1 | None => 0 end)%Z.

Definition save_to_stream (category stream : string) (events : list NewEvent)
    (condition : WriteCondition) : ST State (list StoredEvent) :=
  with_connection (
    _ ← obtain_write_locks (LockTarget (StreamIdentifier category stream));
    latest_event ← read_last (StreamIdentifier category stream);
    current_position ← enforce_condition (category, stream) condition latest_event;
    batch_results ← insert_batch [((category, stream), mkInsert events current_position)];
    st_lift (dict_item batch_results (category, stream))).

(** The loop over the streams of a category publish. *)
Fixpoint category_definitions (category : string) (latest_events : dict string StoredEvent)
    (streams : dict string StreamPublishDefinition)
    (definitions : dict (string * string) StreamInsertDefinition)
    : ST State (dict (string * string) StreamInsertDefinition) :=
  match streams with
  | [] => mret definitions
  | (stream_name, stream_request) :: rest =>
      current_position ← enforce_condition (category, stream_name)
        (default NoCondition (pd_condition stream_request)) (dict_get latest_events stream_name);
      category_definitions category latest_events rest
        (dict_set definitions (category, stream_name)
          (mkInsert (pd_events stream_request) current_position))
  end.

(** What is locked: every stream, in the order of their names, or the category. *)
Definition category_lock_targets (category : string)
    (streams : dict string StreamPublishDefinition) : LockTargets :=
  match as_serialisation_guarantee settings with
  | STREAM => LockSequence (StreamIdentifier category <$> sorted_strings (dict_keys streams))
  | _ => LockTarget (CategoryIdentifier category)
  end.

(** The results by stream name, in the order of the request. *)
Fixpoint category_results (category : string)
    (batch_results : dict (string * string) (list StoredEvent)) (names : list string)
    (results : dict string (list StoredEvent)) : res (dict string (list StoredEvent)) :=
  match names with
  | [] => Ok results
  | stream_name :: rest =>
      stored ← dict_item batch_results (category, stream_name);
      category_results category batch_results rest (dict_set results stream_name stored)
  end.

Definition save_to_category (category : string) (streams : dict string StreamPublishDefinition)
    : ST State (dict string (list StoredEvent)) :=
  with_connection (
    _ ← obtain_write_locks (category_lock_targets category streams);
    latest_events ← read_last_category_batch (mkCategoryStreams category (dict_keys streams));
    definitions ← category_definitions category latest_events streams [];
    batch_results ← insert_batch definitions;
    st_lift (category_results category batch_results (dict_keys streams) [])).

(** [save]. *)
Definition save (target : EventSourceIdentifier) (events : option (list NewEvent))
    (condition : WriteCondition) (streams : option (dict string StreamPublishDefinition))
    : ST State Saved :=
  match target with
  | StreamIdentifier category stream =>
      match events with
      | None => st_lift (Raise (ValueError
          "The `events` parameter must be provided for stream level publish."))
      | Some events =>
          stored ← save_to_stream category stream events condition;
          mret (SavedStream stored)
      end
  | CategoryIdentifier category =>
      match streams with
      | None => st_lift (Raise (ValueError
          "The `streams` parameter must be provided for category level publish."))
      | Some streams =>
          stored ← save_to_category category streams;
          mret (SavedCategory stored)
      end
  | _ => st_lift (Raise (ValueError "Unsupported target type"))
  end.

(** *** Reading *)

Definition latest (target : EventSourceIdentifier) : ST State (option StoredEvent) :=
  with_connection (read_last target).

(** The constraints of the next page: those given, but for the ones on the sequence number,
    with the last number seen. *)
Definition is_sequence_number_after (c : QueryConstraint) : bool :=
  match c with SequenceNumberAfterConstraint _ => true | _ => false end.

Definition next_constraints `{SetOrder} (last_sequence_number : option Z)
    (constraints : list QueryConstraint) : list QueryConstraint :=
  match last_sequence_number with
  | None => constraints
  | Some n =>
      set_union (List.filter (fun c => negb (is_sequence_number_after c)) constraints)
        [SequenceNumberAfterConstraint n]
  end.

(** One page, read on a connection in some state. *)
Definition scan_page (server : S) (target : EventSourceIdentifier)
    (constraints : list QueryConstraint) : res (list StoredEvent) :=
  query ← scan_query (as_constraint_converter settings) table_name
    (mkScanParameters target constraints (as_scan_query_page_size settings));
  (sv_execute (as_string query.1) query.2 server).1.

(** The number of the last event yielded. *)
Definition last_number (results : list StoredEvent) (before : option Z) : option Z :=
  match last results with Some event => Some (se_sequence_number event) | None => before end.

(** The loop of [scan]. The [k]-th page is read on [servers k]: a statement sees what was
    committed before it, and others write between the pages. [None] when the pages that
    [fuel] allows do not end the loop. *)
Fixpoint scan_loop `{SetOrder} (fuel : nat) (servers : nat -> S) (k : nat)
    (target : EventSourceIdentifier) (constraints : list QueryConstraint)
    (last_sequence_number : option Z) : option (Gen StoredEvent) :=
  match fuel with
  | 0 => None
  | Datatypes.S fuel =>
      let constraints := next_constraints last_sequence_number constraints in
      match scan_page (servers k) target constraints with
      | Raise e => Some (gen_raise e)
      | Ok results =>
          let keep_querying :=
            bool_decide (Z.of_nat (length results) = as_scan_query_page_size settings) in
          rest ← if keep_querying
            then scan_loop fuel servers (Datatypes.S k) target constraints
              (last_number results last_sequence_number)
            else Some (gen_of []);
          Some (mkGen (results ++ yielded rest) (raised rest))
      end
  end.

Definition scan `{SetOrder} (fuel : nat) (servers : nat -> S) (target : EventSourceIdentifier)
    (constraints : list QueryConstraint) : option (Gen StoredEvent) :=
  scan_loop fuel servers 0 target constraints None.
End adapter.
