(* ===== verification/PostgresAdapterTheory.v ===== *)
(** What the event storage adapter for Postgres promises. Its queries are the statements the
    server understands; a save appends to the log or leaves it alone, on every adapter
    setting; reads and scans give the log back, page by page, also while others append. *)
From S2P Require Import Prelude Values Conversion Events Conditions EventsDB MemoryAdapter.
From S2P Require Import Sources Store PostgresQuery PostgresQueryTheory PostgresConditions.
From S2P Require Import Sha256 PostgresServer PostgresAdapter.

(** ** The text of the queries *)
Section texts.
Context `{Psycopg}.

Lemma append_assoc (s t u : string) : (s +:+ t) +:+ u = s +:+ t +:+ u.
Proof. induction s as [|c s IH]; [done|]. exact (f_equal (String c) IH). Qed.

Lemma append_nil_r (s : string) : s +:+ EmptyString = s.
Proof. induction s as [|c s IH]; [done|]. exact (f_equal (String c) IH). Qed.

Lemma as_string_app l m : as_string (l ++ m) = as_string l +:+ as_string m.
Proof. induction l as [|p l IH]; cbn; [done|]. by rewrite IH, append_assoc. Qed.

Lemma as_string_join separator parts :
  as_string (sql_join separator parts) = separated separator (as_string <$> parts).
Proof.
  induction parts as [|part [|part' rest] IH]; [done|done|].
  change (sql_join separator (part :: part' :: rest)) with
    (part ++ SQL separator :: sql_join separator (part' :: rest)).
  rewrite as_string_app. cbn [as_string part_text]. by rewrite IH.
Qed.

Hint Rewrite as_string_app as_string_join append_assoc append_nil_r : sql_text.
Ltac sql_text :=
  repeat progress (autorewrite with sql_text; rewrite <-?list_fmap_compose; unfold compose;
    cbn [as_string part_text app fmap list_fmap separated]).

Lemma insert_text {S} (settings : AdapterSettings S) (rows : list NewRow) (values : list (list Param)) :
  values = row_params <$> rows ->
  as_string (insert_statement settings
    (sql_join ", " ((fun _ => [SQL "(%s, %s, %s, %s, %s, %s, %s, %s)"]) <$> values))) =
  statement_text (as_table_name settings) (InsertEvents rows).
Proof.
  intros ->. unfold insert_statement, statement_text. by sql_text.
Qed.

Lemma lock_text table (keys : list Z) :
  as_string ([SQL "SELECT "] ++
    sql_join ", " ((fun _ => [SQL "pg_advisory_xact_lock(%s)"]) <$> keys) ++ [SQL ";"]) =
  statement_text table (ObtainLocks keys).
Proof.
  unfold statement_text. by sql_text.
Qed.

Lemma latest_text table category streams :
  let query := read_last_category_batch_query table (mkCategoryStreams category streams) in
  as_string query.1 = statement_text table (SelectLatest category streams) /\
  query.2 = statement_params (SelectLatest category streams).
Proof.
  cbn zeta. split; [|done]. unfold read_last_category_batch_query, statement_text.
  cbn [fst snd cs_streams]. by sql_text.
Qed.

(** The conditions on the rows of a target. *)
Definition target_conditions (target : EventSourceIdentifier) : list EventCondition :=
  match target with
  | CategoryIdentifier category => [InCategory category]
  | StreamIdentifier category stream => [InCategory category; InStream stream]
  | _ => []
  end.

Lemma last_text table target :
  let query := read_last_query table target in
  as_string query.1 = statement_text table (SelectEvents false (target_conditions target) true 1) /\
  query.2 = statement_params (SelectEvents false (target_conditions target) true 1).
Proof.
  destruct target; (split; [|done]); cbn -[as_string sql_join]; by sql_text.
Qed.

(** *** The scan query *)

Definition builder_condition (c : EventCondition) : postgres.Condition :=
  match c with
  | InCategory category => equals_condition "category" category
  | InStream stream => equals_condition "stream" stream
  | AfterNumber n =>
      postgres.compare (postgres.OExpression (postgres.column "sequence_number"))
        postgres.GREATER_THAN (postgres.OExpression (postgres.Constant (PInt n)))
  end.

Definition scan_builder (table : string) (conditions : list EventCondition) (n : Z)
    : postgres.Query :=
  postgres.mkQuery [] None [postgres.TStar (postgres.mkStar None None)] [table] []
    (builder_condition <$> conditions)
    [postgres.mkSortBy (postgres.column "sequence_number") None] (Some n) None.

Definition condition_sql (c : EventCondition) : Composed :=
  match c with
  | InCategory _ => [Identifier "category"; SQL " "; SQL "="; SQL " "; SQL "%s"]
  | InStream _ => [Identifier "stream"; SQL " "; SQL "="; SQL " "; SQL "%s"]
  | AfterNumber _ => [Identifier "sequence_number"; SQL " "; SQL ">"; SQL " "; SQL "%s"]
  end.

Lemma condition_fragments conditions :
  mapM postgres.condition_to_fragment (builder_condition <$> conditions) =
  Ok ((fun c => (Some (condition_sql c), [condition_param c])) <$> conditions).
Proof. induction conditions as [|[] l IH]; cbn; [done|..]; rewrite IH; done. Qed.

Lemma scan_fragment table conditions n :
  postgres.query_to_fragment (scan_builder table conditions n) =
  (fragments ← mapM postgres.condition_to_fragment (builder_condition <$> conditions);
   Ok (postgres.query_fragment
     [(None, []); (None, []); (Some [SQL "SELECT "; SQL "*"], []);
      (Some [SQL "FROM "; Identifier table], []); postgres.where_fragment fragments;
      (Some [SQL "ORDER BY "; Identifier "sequence_number"], []);
      (Some [SQL "LIMIT %s"], [PInt n]); (None, [])])).
Proof. reflexivity. Qed.

Lemma where_fragment_conditions conditions :
  postgres.where_fragment ((fun c => (Some (condition_sql c), [condition_param c])) <$> conditions) =
  match conditions with
  | [] => (None, [])
  | _ => (Some (SQL "WHERE " :: sql_join " AND " (condition_sql <$> conditions)),
          condition_param <$> conditions)
  end.
Proof.
  assert (forall l, sql_fragments ((fun c => (Some (condition_sql c), [condition_param c])) <$> l) =
    condition_sql <$> l) as Hs
    by (intros l; induction l as [|c l IH]; [done|exact (f_equal (cons _) IH)]).
  assert (forall l, fragment_params
    ((fun c => (Some (condition_sql c), [condition_param c])) <$> l) = condition_param <$> l) as Hp
    by (intros l; induction l as [|c l IH]; [done|exact (f_equal (cons _) IH)]).
  destruct conditions as [|c l]; [done|]. unfold postgres.where_fragment, postgres.clause_fragment.
  rewrite <-(Hs (c :: l)), <-(Hp (c :: l)). done.
Qed.

Lemma condition_sql_text (conditions : list EventCondition) :
  (fun c => as_string (condition_sql c)) <$> conditions = condition_text true <$> conditions.
Proof. apply list_fmap_ext. by intros _ [] _; cbn; sql_text. Qed.

Lemma scan_text table conditions n :
  exists sql, postgres.build (scan_builder table conditions n) =
    Ok (sql, statement_params (SelectEvents true conditions false n)) /\
  as_string sql = statement_text table (SelectEvents true conditions false n).
Proof.
  unfold postgres.build. rewrite scan_fragment, condition_fragments. cbn [mbind res_bind].
  rewrite where_fragment_conditions. unfold statement_text, where_text.
  pose proof (condition_sql_text conditions) as Ht. cbn [statement_params].
  destruct conditions as [|c conditions].
  - eexists. split; [reflexivity|]. cbn. by sql_text.
  - set (l := c :: conditions) in *. clearbody l. eexists. split; [reflexivity|].
    cbn -[sql_join as_string]. rewrite as_string_join. cbn [fmap list_fmap separated].
    sql_text. by rewrite Ht.
Qed.
End texts.

(** *** Which statement a scan sends *)

Definition named (target : EventSourceIdentifier) : bool :=
  match target with
  | CategoryIdentifier category => negb (bool_decide (category = EmptyString))
  | StreamIdentifier category stream =>
      negb (bool_decide (category = EmptyString)) && negb (bool_decide (stream = EmptyString))
  | _ => true
  end.

Definition constraint_condition (c : QueryConstraint) : option EventCondition :=
  match c with SequenceNumberAfterConstraint n => Some (AfterNumber n) | _ => None end.

Lemma apply_standard_constraints reg cs u t f s w o l k :
  Forall (fun c => standard_constraint c = true) cs ->
  apply_constraints (pg.with_default_constraint_converters reg) cs
    (postgres.mkQuery [] u t f s w o l k) =
  Ok (postgres.mkQuery [] u t f s (w ++ (builder_condition <$> omap constraint_condition cs))
    o l k).
Proof.
  intros Hcs. revert w. induction Hcs as [|c cs Hc _ IH]; intros w; cbn [apply_constraints].
  { by rewrite app_nil_r. }
  destruct c as [n|]; [|discriminate Hc].
  unfold registry_convert, pg.with_default_constraint_converters, registry_register.
  cbn [constraint_class]. rewrite lookup_insert_eq. cbn [mbind res_bind].
  specialize (IH (w ++ [builder_condition (AfterNumber n)])). rewrite <-app_assoc in IH. exact IH.
Qed.

Lemma truthy_nonempty s : negb (bool_decide (s = EmptyString)) = true -> truthy (Some s) = Some s.
Proof. destruct s; [by rewrite bool_decide_eq_true_2|done]. Qed.

Lemma scan_query_builder reg table target cs n :
  named target = true -> Forall (fun c => standard_constraint c = true) cs ->
  scan_query (pg.with_default_constraint_converters reg) table (mkScanParameters target cs n) =
  postgres.build
    (scan_builder table (target_conditions target ++ omap constraint_condition cs) n).
Proof.
  intros Hn Hcs. unfold scan_query, where_equals.
  destruct target as [| |c| |c s]; cbn [named sp_target target_category target_stream] in *;
    try apply andb_true_iff in Hn as [? ?];
    repeat (rewrite truthy_nonempty by done); cbn [truthy]; cbn -[apply_constraints scan_builder
      postgres.build];
    rewrite apply_standard_constraints by done; reflexivity.
Qed.

(** ** The adapter's state *)

(** The connection, between transactions or inside one that only read, sees [log], and goes
    back to [log]. *)
Record pg_holds {S} `{EventsServer S} (uuid4 : nat -> string) (st : PostgresState S)
    (log : list StoredEvent) : Prop := {
  ph_live : sv_live (ps_server st);
  ph_rows : sv_rows (ps_server st) = log;
  ph_committed : sv_committed (ps_server st) = log;
  ph_contiguous : contiguous log;
  ph_sorted : StronglySorted Z.lt (numbers_of log);
  ph_ids : forall e, e ∈ log -> exists n, n < ps_uuids st /\ se_id e = uuid4 n
}.

(** Targets without a zero character. *)
Definition storable_target (target : EventSourceIdentifier) : bool :=
  match target with
  | CategoryIdentifier category => text_storable category
  | StreamIdentifier category stream => text_storable category && text_storable stream
  | _ => true
  end.

Lemma target_conditions_storable target :
  storable_target target = true ->
  Forall (fun c => condition_storable c = true) (target_conditions target).
Proof.
  destruct target; cbn; try done; [by repeat constructor|].
  intros [? ?]%andb_true_iff. by repeat constructor.
Qed.

Lemma select_target target log :
  scannable target = true -> select_events (target_conditions target) log = log_of target log.
Proof.
  intros Ht. unfold select_events, log_of. apply List.filter_ext. intros e.
  destruct target; try discriminate Ht; cbn; [done|by rewrite andb_true_r|].
  rewrite andb_true_r. apply eq_true_iff_eq.
  rewrite andb_true_iff, !bool_decide_eq_true. naive_solver.
Qed.

Lemma head_last_reverse {A} (l : list A) : head (take 1 (reverse l)) = last l.
Proof.
  destruct l as [|x l _] using rev_ind; [done|]. rewrite reverse_snoc, last_snoc. by destruct (reverse l).
Qed.

Section adapter_theory.
Context `{Psycopg} `{UserCode} {S : Type} `{EventsServer S} (uuid4 : nat -> string).
Context (settings : AdapterSettings S) {Hlaws : EventsServerLaws (as_table_name settings)}.
Context (constraint_registry : gmap string (QueryConstraint -> res pg.QueryApplier)).
Context (condition_registry : gmap string (pg.ConditionConverter S)).
Context (Hconstraints : as_constraint_converter settings =
  pg.with_default_constraint_converters constraint_registry).
Context (Hconditions : as_condition_converter settings =
  pg.with_default_condition_converters condition_registry).
Context (Hquiet : quiet_registry condition_registry).

Abbreviation State := (PostgresState S).
Abbreviation holds := (pg_holds uuid4).
Implicit Types (st : State) (log : list StoredEvent).

(** A query that is a statement, executed. *)
Lemma execute_is statement (query : ParameterisedQuery) st :
  as_string query.1 = statement_text (as_table_name settings) statement ->
  query.2 = statement_params statement ->
  execute query st =
  match execute_statement (as_table_name settings) statement (ps_server st) with
  | (r, s) => (r, mkPostgresState (ps_uuids st) s)
  end.
Proof. intros Ht Hp. unfold execute, on_server, execute_statement. by rewrite Ht, Hp. Qed.

Lemma holds_reads st log s' :
  holds st log -> reads_only (ps_server st) s' -> holds (mkPostgresState (ps_uuids st) s') log.
Proof.
  intros [Hl Hr Hc Hp Hs Hi] (Hl' & Hr' & Hc'). split; cbn; [done|..|done|done|done].
  - by rewrite Hr'.
  - by rewrite Hc'.
Qed.

(** [st] and [st'] differ by statements that read. *)
Definition read_step st st' : Prop :=
  ps_uuids st' = ps_uuids st /\ forall log, holds st log -> holds st' log.

(** *** Reading *)

Lemma read_last_spec st log target :
  holds st log -> scannable target = true -> storable_target target = true ->
  exists st', read_last settings target st = (Ok (last (log_of target log)), st') /\
    holds st' log /\ ps_uuids st' = ps_uuids st.
Proof.
  intros Hst Ht Hs. destruct (last_text (as_table_name settings) target) as [E1 E2].
  destruct (law_select (as_table_name settings) (ps_server st) false (target_conditions target) true 1)
    as (s' & E & Hread); [apply Hst|lia|by apply target_conditions_storable|].
  exists (mkPostgresState (ps_uuids st) s'). split; [|split; [by apply holds_reads|done]].
  unfold read_last, mbind, ST_bind. rewrite (execute_is _ _ _ E1 E2), E.
  rewrite (ph_rows _ _ _ Hst), select_target by done. unfold mret, ST_ret.
  change (Z.to_nat 1) with 1%nat. by rewrite head_last_reverse.
Qed.

(** *** Locks *)

Lemma get_digest_int8 name : (- 2 ^ 63 <= get_digest name < 2 ^ 63)%Z.
Proof. pose proof (get_digest_range name). lia. Qed.

Lemma obtain_locks_execute st log statement query :
  holds st log ->
  (exists keys, statement = ObtainLocks (get_digest <$> keys) /\ keys <> []) \/
    statement = SelectOne ->
  as_string query.1 = statement_text (as_table_name settings) statement ->
  query.2 = statement_params statement ->
  exists st', (_ ← execute query; mret ()) st = (Ok (), st') /\
    holds st' log /\ ps_uuids st' = ps_uuids st.
Proof.
  intros Hst Hstatement Ht Hp. unfold mbind, ST_bind. rewrite (execute_is _ _ _ Ht Hp).
  assert (exists rows s', execute_statement (as_table_name settings) statement (ps_server st) =
    (Ok rows, s') /\ reads_only (ps_server st) s') as (rows & s' & -> & Hread).
  { destruct Hstatement as [(keys & -> & Hne)| ->].
    - apply (law_lock (as_table_name settings)); [apply Hst|by destruct keys|].
      apply Forall_fmap, Forall_true. intros name. apply get_digest_int8.
    - apply (law_select_one (as_table_name settings)), Hst. }
  eexists. split; [reflexivity|]. split; [by apply holds_reads|done].
Qed.

Lemma obtain_one st log guarantee target name :
  holds st log -> lock_name guarantee (as_table_name settings) target = Ok name ->
  exists st', (query ← st_lift (lock_query (as_table_name settings) guarantee target);
      _ ← execute query; mret ()) st = (Ok (), st') /\
    holds st' log /\ ps_uuids st' = ps_uuids st.
Proof.
  intros Hst Hname. unfold lock_query. rewrite Hname. cbn [mbind res_bind].
  unfold st_lift. unfold mbind at 1, ST_bind at 1.
  apply (obtain_locks_execute _ _ (ObtainLocks [get_digest name])); try done.
  left. by exists [name].
Qed.

Lemma stream_locks st log c s :
  holds st log ->
  exists st', obtain_write_locks settings (LockTarget (StreamIdentifier c s)) st = (Ok (), st') /\
    holds st' log /\ ps_uuids st' = ps_uuids st.
Proof.
  intros Hst. unfold obtain_write_locks. cbn [obtain_write_locks_query].
  destruct (as_serialisation_guarantee settings); by eapply obtain_one.
Qed.

Lemma category_locks st log c (streams : dict string StreamPublishDefinition) :
  holds st log ->
  exists st', obtain_write_locks settings (category_lock_targets settings c streams) st =
      (Ok (), st') /\ holds st' log /\ ps_uuids st' = ps_uuids st.
Proof.
  intros Hst. unfold obtain_write_locks, category_lock_targets.
  destruct (as_serialisation_guarantee settings); [by eapply obtain_one..|].
  unfold st_lift. unfold mbind at 1, ST_bind at 1.
  set (names := sorted_strings (dict_keys streams)).
  destruct names as [|name names].
  { apply (obtain_locks_execute _ _ SelectOne); auto. }
  set (key := fun name =>
    ((as_table_name settings +:+ "." +:+ c +:+ "." +:+ name)%string)).
  assert (forall l, mapM (lock_name STREAM (as_table_name settings)) (StreamIdentifier c <$> l) =
    Ok (key <$> l)) as Hnames.
  { intros l. apply res_mapM_Ok. apply Forall2_fmap_l, Forall2_fmap_r.
    apply Forall_Forall2_diag, Forall_true. done. }
  unfold obtain_write_locks_query. change (StreamIdentifier c <$> name :: names) with
    (StreamIdentifier c name :: (StreamIdentifier c <$> names)).
  cbn iota. change (StreamIdentifier c name :: (StreamIdentifier c <$> names)) with
    (StreamIdentifier c <$> name :: names). rewrite Hnames. cbn [mbind res_bind].
  apply (obtain_locks_execute _ _ (ObtainLocks (get_digest <$> (key <$> name :: names))));
    [done|left; by exists (key <$> name :: names)| |done].
  apply lock_text.
Qed.

(** *** Conditions *)

Definition next_position (latest_event : option StoredEvent) : Z :=
  match latest_event with Some event => se_position event + 1 | None => 0 end.

Lemma enforce_condition_spec identifier condition latest_event st r st' :
  enforce_condition settings identifier condition latest_event st = (r, st') ->
  st' = st /\
  match r with Ok position => position = next_position latest_event | Raise _ => True end /\
  (standard condition = true ->
    if satisfied condition latest_event then is_ok r = true
    else exists m, r = Raise (UnmetWriteConditionError m)).
Proof.
  unfold enforce_condition, mbind, ST_bind, st_lift, on_server. rewrite Hconditions.
  destruct (pg.convert_condition _ condition) as [enforcer|e] eqn:Ec.
  - pose proof (quiet_conversion _ _ _ Hquiet Ec
      (mkContext (StreamIdentifier identifier.1 identifier.2) latest_event) (ps_server st)) as Hq.
    assert (standard condition = true -> enforces (satisfied condition latest_event)
      (enforcer (mkContext (StreamIdentifier identifier.1 identifier.2) latest_event)
        (ps_server st)).1) as He.
    { intros Hstd. destruct (pg_condition_enforced condition_registry condition Hstd)
        as (enforcer' & Ec' & Henf). assert (enforcer' = enforcer) as -> by congruence.
      destruct (Henf (mkContext (StreamIdentifier identifier.1 identifier.2) latest_event)
        (ps_server st)) as (r0 & -> & Hr0). exact Hr0. }
    destruct (enforcer _ _) as [r0 s0]. cbn in Hq, He. subst s0.
    intros Hr. assert (st' = st) as ->. { destruct st, r0; by injection Hr. }
    split; [done|]. destruct r0 as [[]|e]; injection Hr as <-; (split; [done|]); intros Hstd;
      specialize (He Hstd); destruct (satisfied _ _); cbn in He |- *; try done.
    + by destruct He as [m He].
    + destruct He as [m [= ->]]. by exists m.
  - intros [= <- <-]. split; [done|]. split; [done|]. intros Hstd.
    destruct (pg_condition_enforced condition_registry condition Hstd) as (e' & Ec' & _).
    congruence.
Qed.

Lemma next_position_length log c s :
  contiguous log -> next_position (last (log_of (StreamIdentifier c s) log)) = stream_length log c s.
Proof.
  intros Hc. pose proof (last_position_contiguous log c s Hc) as Hl. unfold next_position.
  destruct (last _) as [e|]; cbn in Hl; lia.
Qed.
End adapter_theory.
