(* ===== verification/PostgresInsert.v ===== *)
(** Inserting a batch of events on Postgres: the rows that are written, the events that come
    back, and their places in the log. *)
From S2P Require Import Prelude Values Conversion Events Conditions EventsDB MemoryAdapter.
From S2P Require Import PostgresQuery PostgresQueryTheory PostgresConditions.
From S2P Require Import PostgresServer PostgresAdapter PostgresAdapterTheory.

(** ** The rows of a batch *)

(** A new event with its stream and position. *)
Definition Entry : Type := (string * string) * Z * NewEvent.

Fixpoint entries_from (identifier : string * string) (start_position : Z) (i : nat)
    (events : list NewEvent) : list Entry :=
  match events with
  | [] => []
  | event :: rest =>
      (identifier, start_position + Z.of_nat i, event)%Z ::
      entries_from identifier start_position (S i) rest
  end.

Definition definition_entries (d : (string * string) * StreamInsertDefinition) : list Entry :=
  entries_from d.1 (si_position d.2) 0 (si_events d.2).
Definition batch_entries (definitions : dict (string * string) StreamInsertDefinition)
    : list Entry := concat (definition_entries <$> definitions).

Lemma entries_from_length identifier p i events :
  length (entries_from identifier p i events) = length events.
Proof. revert i. induction events as [|e l IH]; intros i; cbn; [done|]. by rewrite IH. Qed.

Lemma entries_from_lookup identifier p i events k event :
  events !! k = Some event ->
  entries_from identifier p i events !! k = Some (identifier, (p + Z.of_nat (i + k))%Z, event).
Proof.
  revert i k. induction events as [|e l IH]; intros i [|k] Hk; cbn in *; simplify_eq.
  - by rewrite Nat.add_0_r.
  - etrans; [exact (IH (S i) k Hk)|]. by rewrite Nat.add_succ_comm.
Qed.

Lemma batch_size_entries definitions : batch_size definitions = length (batch_entries definitions).
Proof.
  unfold batch_size, batch_entries, dict_values. induction definitions as [|d l IH]; [done|].
  cbn. rewrite length_app. unfold definition_entries at 1. rewrite entries_from_length. cbn in IH.
  by rewrite IH.
Qed.

Section values.
Context `{UserCode} {S : Type} (uuid4 : nat -> string).
Implicit Types (st : PostgresState S).

Fixpoint entry_values (entries : list Entry) : ST (PostgresState S) (list (list Param)) :=
  match entries with
  | [] => mret []
  | (identifier, position, event) :: rest =>
      values ← event_values uuid4 identifier position event;
      more ← entry_values rest;
      mret (values :: more)
  end.

Lemma stream_values_entries identifier p i events st :
  stream_values uuid4 identifier p i events st = entry_values (entries_from identifier p i events) st.
Proof.
  revert i st. induction events as [|event l IH]; intros i st; cbn; [done|].
  unfold mbind, ST_bind. destruct (event_values _ _ _ _ _) as [[v|e] st1]; [|done]. by rewrite IH.
Qed.

Lemma entry_values_app l m st :
  entry_values (l ++ m) st =
  (values ← entry_values l; more ← entry_values m; mret (values ++ more)) st.
Proof.
  revert st. induction l as [|[[identifier p] event] l IH]; intros st; cbn [app entry_values].
  { unfold mbind, ST_bind, mret, ST_ret. by destruct (entry_values m st) as [[]]. }
  unfold mbind, ST_bind, mret, ST_ret. destruct (event_values _ _ _ _ _) as [[v|e] st1]; [|done].
  rewrite IH. unfold mbind, ST_bind, mret, ST_ret.
  destruct (entry_values l st1) as [[v1|e] st2]; [|done].
  by destruct (entry_values m st2) as [[v2|e] st3].
Qed.

Lemma batch_values_entries definitions st :
  batch_values uuid4 definitions st = entry_values (batch_entries definitions) st.
Proof.
  revert st. induction definitions as [|[identifier d] l IH]; intros st; [done|].
  unfold batch_entries. cbn [fmap list_fmap concat batch_values].
  rewrite entry_values_app. unfold mbind, ST_bind. rewrite stream_values_entries.
  unfold definition_entries at 1. cbn [fst snd].
  destruct (entry_values _ st) as [[v|e] st1]; [|done]. by rewrite IH.
Qed.

(** The row written for an entry, with the id drawn for it. *)
Record row_for (u : nat) (entry : Entry) (row : NewRow) : Prop := {
  rf_id : nr_id row = uuid4 u;
  rf_name : serialise_to_string (ne_name entry.2) raising_serialisation_fallback = Ok (nr_name row);
  rf_stream : nr_stream row = entry.1.1.2;
  rf_category : nr_category row = entry.1.1.1;
  rf_position : nr_position row = entry.1.2;
  rf_payload : serialise_to_json_value (ne_payload entry.2) raising_serialisation_fallback =
    Ok (nr_payload row);
  rf_observed_at : nr_observed_at row = ne_observed_at entry.2;
  rf_occurred_at : nr_occurred_at row = ne_occurred_at entry.2
}.

Lemma event_values_spec identifier p event st r st' :
  event_values uuid4 identifier p event st = (r, st') ->
  st' = mkPostgresState (Datatypes.S (ps_uuids st)) (ps_server st) /\
  match r with
  | Ok values => exists row, values = row_params row /\
      row_for (ps_uuids st) (identifier, p, event) row
  | Raise _ => ~ storable event
  end.
Proof.
  unfold event_values, storable. intros [= <- <-]. split; [done|].
  destruct (serialise_to_string _ _) as [name|] eqn:En; [|by intros []].
  destruct (serialise_to_json_value _ _) as [payload|] eqn:Ep; [|by intros []]. cbn.
  exists (mkRow (uuid4 (ps_uuids st)) name identifier.2 identifier.1 p payload
    (ne_observed_at event) (ne_occurred_at event)). by split.
Qed.

Lemma entry_values_spec entries st r st' :
  entry_values entries st = (r, st') ->
  ps_server st' = ps_server st /\ ps_uuids st <= ps_uuids st' /\
  match r with
  | Ok values => exists rows, values = row_params <$> rows /\
      ps_uuids st' = ps_uuids st + length entries /\
      length rows = length entries /\
      forall i entry, entries !! i = Some entry ->
        exists row, rows !! i = Some row /\ row_for (ps_uuids st + i) entry row
  | Raise _ => ~ Forall (fun entry => storable entry.2) entries
  end.
Proof.
  revert st r st'. induction entries as [|[[identifier p] event] l IH]; intros st r st'; cbn.
  { intros [= <- <-]. split_and!; [done|done|]. exists []. cbn. split_and!; [done|lia|done|done]. }
  unfold mbind, ST_bind. destruct (event_values _ _ _ _ _) as [r1 st1] eqn:E1.
  apply event_values_spec in E1 as [-> H1].
  destruct r1 as [v|e]; [|intros [= <- <-]; split_and!; [done|cbn; lia|by inversion 1]].
  destruct H1 as (row & -> & Hrow).
  destruct (entry_values l _) as [r2 st2] eqn:E2. apply IH in E2 as (Hs & Hu & H2). cbn in Hs, Hu.
  destruct r2 as [more|e]; intros [= <- <-]; (split; [done|]); (split; [lia|]);
    [|intros Hall; inversion Hall; by subst].
  destruct H2 as (rows & -> & Hlen & Hl & Hi). exists (row :: rows). cbn in Hlen, Hi |- *.
  split_and!; [done|lia|lia|]. intros [|i] entry Hentry; cbn in Hentry |- *; simplify_eq.
  - exists row. by rewrite Nat.add_0_r.
  - destruct (Hi i entry Hentry) as (row' & ? & Hr). exists row'. split; [done|].
    by rewrite <-Nat.add_succ_comm.
Qed.
End values.

(** ** The events of a batch *)
Section batch.
Context `{UserCode} (uuid4 : nat -> string) (jsonb : Val -> option Val).

(** [jsonb] gives the event's payload back as it is. *)
Definition payload_kept (event : NewEvent) : Prop :=
  forall payload, serialise_to_json_value (ne_payload event) raising_serialisation_fallback =
    Ok payload -> jsonb payload = Some payload.

Lemma row_stored_as u entry row e :
  row_for uuid4 u entry row -> row_stored jsonb row e -> payload_kept entry.2 ->
  stored_as entry.1.1.1 entry.1.1.2 entry.1.2 (se_sequence_number e) entry.2
    (stored_result entry.2 e) e /\ se_id e = uuid4 u.
Proof.
  intros [Hid Hname Hstream Hcat Hpos Hpay Hobs Hocc] (payload & number & Hj & ->) Hkept.
  specialize (Hkept _ Hpay). rewrite Hj in Hkept. injection Hkept as ->.
  unfold row_event, stored_result. cbn. split; [|done]. split; cbn; [done|done| |done| |].
  - by exists (nr_name row).
  - by rewrite Hstream, Hcat, Hpos, Hobs, Hocc.
  - by rewrite Hstream, Hcat, Hpos, Hobs, Hocc.
Qed.

(** The events stored for one definition, and those given back. *)
Definition definition_results (d : (string * string) * StreamInsertDefinition)
    (stored : list StoredEvent) : list StoredEvent :=
  zip_with stored_result (si_events d.2) stored.

Definition definition_stored (d : (string * string) * StreamInsertDefinition)
    (stored : list StoredEvent) : Prop :=
  stored_batch d.1.1 d.1.2 (si_position d.2) (si_events d.2) (definition_results d stored) stored.

(** A stored entry. *)
Definition entry_stored (entry : Entry) (e : StoredEvent) : Prop :=
  stored_as entry.1.1.1 entry.1.1.2 entry.1.2 (se_sequence_number e) entry.2
    (stored_result entry.2 e) e.

Lemma entries_definition_stored d stored :
  Forall2 entry_stored (definition_entries d) stored ->
  StronglySorted Z.lt (numbers_of stored) -> definition_stored d stored.
Proof.
  intros Hall Hs. pose proof (Forall2_length _ _ _ Hall) as Hl.
  unfold definition_entries in Hl. rewrite entries_from_length in Hl.
  split; [|done| |done].
  - unfold definition_results. rewrite length_zip_with. lia.
  - intros i ev Hi. pose proof (entries_from_lookup d.1 (si_position d.2) 0 _ _ _ Hi) as He.
    apply lookup_lt_Some in Hi as Hlt. rewrite Hl in Hlt.
    destruct (lookup_lt_is_Some_2 _ _ Hlt) as [e Hei].
    exists (stored_result ev e), e, (se_sequence_number e). split_and!; [|done|].
    + unfold definition_results. by rewrite lookup_zip_with, Hi, Hei.
    + exact (Forall2_lookup_lr _ _ _ _ _ _ Hall He Hei).
Qed.

(** The stored rows, cut into those of each definition. *)
Lemma batch_pieces definitions stored :
  Forall2 entry_stored (batch_entries definitions) stored ->
  StronglySorted Z.lt (numbers_of stored) ->
  exists pieces, stored = concat pieces /\ Forall2 definition_stored definitions pieces.
Proof.
  revert stored. induction definitions as [|d l IH]; intros stored Hall Hs.
  { inversion Hall. by exists []. }
  unfold batch_entries in Hall. cbn [fmap list_fmap concat] in Hall.
  apply Forall2_app_inv_l in Hall as (s1 & s2 & H1 & H2 & ->).
  unfold numbers_of in Hs. rewrite fmap_app in Hs.
  apply StronglySorted_app in Hs as (_ & Hs1 & Hs2).
  destruct (IH s2 H2 Hs2) as (pieces & -> & Hp). exists (s1 :: pieces). split; [done|].
  constructor; [by apply entries_definition_stored|done].
Qed.

(** *** Results by stream *)

Lemma stream_results_spec events stored pre post :
  length stored = length events ->
  stream_results events (pre ++ stored ++ post) (length pre) =
  Ok (zip_with stored_result events stored).
Proof.
  revert stored pre. induction events as [|event l IH]; intros [|e stored] pre Hl; try done.
  cbn [stream_results]. rewrite (py_get_nonneg _ _ e).
  2: { rewrite lookup_app_r, Nat.sub_diag by done. done. }
  cbn [mbind res_bind]. specialize (IH stored (pre ++ [e])).
  rewrite length_app, <-app_assoc, Nat.add_1_r in IH. cbn [app] in IH |- *.
  rewrite IH by (cbn in Hl; lia). done.
Qed.

Definition results_of (results : dict (string * string) (list StoredEvent))
    (definitions : dict (string * string) StreamInsertDefinition)
    (pieces : list (list StoredEvent)) : dict (string * string) (list StoredEvent) :=
  foldl (fun r p => dict_set r p.1.1 (definition_results p.1 p.2)) results
    (zip definitions pieces).

Lemma batch_results_spec definitions pieces pre results :
  Forall2 definition_stored definitions pieces ->
  batch_results definitions (pre ++ concat pieces) (length pre) results =
  Ok (results_of results definitions pieces).
Proof.
  intros Hall. revert pre results.
  induction Hall as [|[identifier d] piece l pieces Hd _ IH]; intros pre results; [done|].
  cbn [batch_results concat]. rewrite stream_results_spec by apply Hd.
  pose proof (sb_stored _ _ _ _ _ _ Hd) as Hl. cbn [snd] in Hl.
  cbn [mbind res_bind]. rewrite <-Hl, <-length_app, app_assoc, IH. done.
Qed.

Lemma results_of_other results definitions pieces identifier :
  identifier ∉ dict_keys definitions ->
  dict_get (results_of results definitions pieces) identifier = dict_get results identifier.
Proof.
  unfold results_of, dict_keys. revert results pieces.
  induction definitions as [|d l IH]; intros results [|piece pieces] Hn; try done.
  cbn in Hn |- *. apply not_elem_of_cons in Hn as [Hd Hn]. rewrite IH by done.
  by apply dict_get_set_ne.
Qed.

Lemma results_of_lookup results definitions pieces i d piece :
  NoDup (dict_keys definitions) -> definitions !! i = Some d -> pieces !! i = Some piece ->
  dict_get (results_of results definitions pieces) d.1 = Some (definition_results d piece).
Proof.
  unfold results_of, dict_keys. revert results pieces i.
  induction definitions as [|d' l IH]; intros results [|piece' pieces] [|i] Hnd Hd Hp; try done;
    cbn in Hnd, Hd, Hp |- *; apply NoDup_cons in Hnd as [Hn Hnd].
  - simplify_eq. etrans; [by apply results_of_other|]. apply dict_get_set_eq.
  - by eapply IH.
Qed.

(** *** Places in the log *)

Lemma stored_batch_positions c s p events raws stored :
  stored_batch c s p events raws stored ->
  se_position <$> stored = seqZ p (Z.of_nat (length stored)).
Proof.
  intros Hb. pose proof (sb_stored _ _ _ _ _ _ Hb) as Hl. apply list_eq. intros i.
  rewrite list_lookup_fmap. destruct (stored !! i) as [e|] eqn:He.
  - apply lookup_lt_Some in He as Hlt. rewrite lookup_seqZ_lt by lia. cbn.
    destruct (lookup_lt_is_Some_2 events i) as [ev Hev]; [lia|].
    destruct (sb_each _ _ _ _ _ _ Hb i ev Hev) as (raw & e' & n & _ & He' & Hsa). simplify_eq.
    by rewrite (sa_same _ _ _ _ _ _ _ Hsa).
  - apply lookup_ge_None in He. by rewrite lookup_seqZ_ge by lia.
Qed.

(** Each definition continues its stream. *)
Definition continue_streams (log : list StoredEvent)
    (definitions : dict (string * string) StreamInsertDefinition) : Prop :=
  forall d, d ∈ definitions -> si_position d.2 = stream_length log d.1.1 d.1.2.

Lemma batch_contiguous log definitions pieces :
  contiguous log -> NoDup (dict_keys definitions) -> continue_streams log definitions ->
  Forall2 definition_stored definitions pieces ->
  contiguous (log ++ concat pieces) /\
  forall i d piece, definitions !! i = Some d -> pieces !! i = Some piece ->
    log_of (StreamIdentifier d.1.1 d.1.2) (concat pieces) = piece.
Proof.
  unfold dict_keys. intros Hlog Hnd Hpos Hall. revert log Hlog Hnd Hpos.
  induction Hall as [|d piece l pieces Hd Hall IH]; intros log Hlog Hnd Hpos.
  { cbn. by rewrite app_nil_r. }
  cbn in Hnd. cbn [concat]. apply NoDup_cons in Hnd as [Hn Hnd].
  assert (forall d', d' ∈ l -> log_of (StreamIdentifier d'.1.1 d'.1.2) piece = []) as Hother.
  { intros d' Hd'. apply log_of_none. intros e He. apply not_true_is_false. rewrite in_stream.
    destruct (stored_batch_elem _ _ _ _ _ _ _ Hd He) as (Hc & Hs & _). intros [Hc' Hs'].
    apply Hn. apply list_elem_of_fmap. exists d'. split; [|done].
    rewrite (surjective_pairing d.1), (surjective_pairing d'.1). congruence. }
  assert (contiguous (log ++ piece)) as Hlog1.
  { apply (contiguous_app log d.1.1 d.1.2); [done| |].
    - intros e He. by destruct (stored_batch_elem _ _ _ _ _ _ _ Hd He) as (? & ? & _).
    - rewrite <-(Hpos d) by constructor. by eapply stored_batch_positions. }
  destruct (IH (log ++ piece) Hlog1 Hnd) as [Hc Hpieces].
  { intros d' Hd'. rewrite (Hpos d') by by constructor. rewrite stream_length_app.
    unfold stream_length at 3. rewrite (Hother d' Hd'). cbn. lia. }
  rewrite app_assoc. split; [done|]. intros [|i] d' piece' Hi Hp; cbn in Hi, Hp; simplify_eq.
  - rewrite log_of_app, (stored_batch_log_of _ _ _ _ _ _ d'.1.2 Hd), decide_True by done.
    rewrite (log_of_none _ (concat pieces)), app_nil_r; [done|].
    intros e He. apply not_true_is_false. rewrite in_stream. intros [Hc' Hs'].
    apply list_elem_of_In, in_concat in He as (piece & Hp & He).
    apply list_elem_of_In in Hp, He. apply list_elem_of_lookup in Hp as [i Hi].
    destruct (Forall2_lookup_r _ _ _ _ _ Hall Hi) as (d & Hdi & Hdp).
    destruct (stored_batch_elem _ _ _ _ _ _ _ Hdp He) as (Hc2 & Hs2 & _).
    apply Hn. apply list_elem_of_fmap. exists d. split; [|by eapply list_elem_of_lookup_2].
    rewrite (surjective_pairing d.1), (surjective_pairing d'.1). congruence.
  - rewrite log_of_app, (Hpieces i d' piece' Hi Hp), (Hother d'); [done|].
    by eapply list_elem_of_lookup_2.
Qed.
End batch.
