(* ===== verification/PostgresSaving.v ===== *)
(** Saving on Postgres: a save appends its events, at the positions that follow their
    streams, and commits, or raises and leaves the log alone; and when it must do which. *)
From S2P Require Import Prelude Values Conversion Events Conditions EventsDB MemoryAdapter.
From S2P Require Import PostgresQuery PostgresQueryTheory PostgresConditions.
From S2P Require Import PostgresServer PostgresAdapter PostgresAdapterTheory PostgresInsert.

Section saving.
Context `{Psycopg} `{UserCode} {S : Type} `{EventsServer S} (uuid4 : nat -> string).
Context (settings : AdapterSettings S) {Hlaws : EventsServerLaws (as_table_name settings)}.
Context (condition_registry : gmap string (pg.ConditionConverter S)).
Context (Hconditions : as_condition_converter settings =
  pg.with_default_condition_converters condition_registry).
Context (Hquiet : quiet_registry condition_registry).

Abbreviation State := (PostgresState S).
Abbreviation holds := (pg_holds uuid4).
Abbreviation table := (as_table_name settings).
Abbreviation Definitions := (dict (string * string) StreamInsertDefinition).
Implicit Types (st : State) (log : list StoredEvent) (definitions : Definitions).

(** ** Inserting *)

Lemma execute_committed query st r st' :
  execute query st = (r, st') ->
  sv_committed (ps_server st') = sv_committed (ps_server st) /\ ps_uuids st' = ps_uuids st.
Proof.
  unfold execute, on_server. pose proof (law_uncommitted table (as_string query.1) query.2
    (ps_server st)) as Hc. destruct (sv_execute _ _ _) as [r0 s0]. by intros [= <- <-].
Qed.

(** The insert statement of a batch whose events can be serialised. *)
Lemma insert_batch_query_spec definitions st r st' :
  insert_batch_query uuid4 settings definitions st = (r, st') ->
  ps_server st' = ps_server st /\ ps_uuids st <= ps_uuids st' /\
  match r with
  | Ok query => exists rows,
      as_string query.1 = statement_text table (InsertEvents rows) /\
      query.2 = statement_params (InsertEvents rows) /\
      ps_uuids st' = ps_uuids st + length rows /\
      length rows = length (batch_entries definitions) /\
      forall i entry, batch_entries definitions !! i = Some entry ->
        exists row, rows !! i = Some row /\ row_for uuid4 (ps_uuids st + i) entry row
  | Raise _ => ~ Forall (fun entry => storable entry.2) (batch_entries definitions)
  end.
Proof.
  unfold insert_batch_query, mbind, ST_bind. rewrite batch_values_entries.
  destruct (entry_values _ _ st) as [r1 st1] eqn:E.
  apply entry_values_spec in E as (Hs & Hu & Hr).
  destruct r1 as [values|e]; intros [= <- <-]; [|done]. split; [done|]. split; [done|].
  destruct Hr as (rows & Hrows & Hlen & Hl & Hi). exists rows. cbn [fst snd].
  split; [by apply insert_text|]. split; [by rewrite Hrows|]. split; [lia|]. by split.
Qed.

Lemma rows_entries_stored (entries : list Entry) rows stored u :
  length rows = length entries ->
  (forall i entry, entries !! i = Some entry ->
    exists row, rows !! i = Some row /\ row_for uuid4 (u + i) entry row) ->
  Forall (fun entry => payload_kept sv_jsonb entry.2) entries ->
  Forall2 (row_stored sv_jsonb) rows stored ->
  Forall2 entry_stored entries stored /\
  forall e, e ∈ stored -> exists n, n < u + length rows /\ se_id e = uuid4 n.
Proof.
  intros Hl Hrows Hkept Hstored. pose proof (Forall2_length _ _ _ Hstored) as Hl'.
  assert (forall i entry e, entries !! i = Some entry -> stored !! i = Some e ->
    entry_stored entry e /\ se_id e = uuid4 (u + i)) as Hboth.
  { intros i entry e Hi He. destruct (Hrows i entry Hi) as (row & Hrow & Hfor).
    pose proof (Forall2_lookup_lr _ _ _ _ _ _ Hstored Hrow He) as Hs.
    rewrite Forall_forall in Hkept. eapply row_stored_as; [done|done|].
    apply Hkept. by eapply list_elem_of_lookup_2. }
  split.
  - apply Forall2_same_length_lookup. split; [lia|]. intros. by eapply Hboth.
  - intros e [i He]%list_elem_of_lookup. apply lookup_lt_Some in He as Hlt.
    destruct (lookup_lt_is_Some_2 entries i) as [entry Hi]; [lia|].
    exists (u + i). split; [lia|]. by eapply Hboth.
Qed.

(** What a batch adds to the log inside its transaction. *)
Record inserted st' log definitions (pieces : list (list StoredEvent)) : Prop := {
  ins_live : sv_live (ps_server st');
  ins_rows : sv_rows (ps_server st') = log ++ concat pieces;
  ins_stored : Forall2 definition_stored definitions pieces;
  ins_numbers : numbers_drawn log (concat pieces);
  ins_ids : forall e, e ∈ concat pieces -> exists n, n < ps_uuids st' /\ se_id e = uuid4 n
}.

Lemma insert_batch_spec definitions st log r st' :
  holds st log -> definitions <> [] ->
  Forall (fun entry => payload_kept sv_jsonb entry.2) (batch_entries definitions) ->
  insert_batch uuid4 settings definitions st = (r, st') ->
  sv_committed (ps_server st') = log /\ ps_uuids st <= ps_uuids st' /\
  match r with
  | Ok results => exists pieces, inserted st' log definitions pieces /\
      results = results_of [] definitions pieces
  | Raise _ => True
  end.
Proof.
  intros Hst Hne Hkept. destruct definitions as [|d l] eqn:Ed; [done|]. rewrite <-Ed in *.
  clear Hne. unfold insert_batch. rewrite Ed. rewrite <-Ed. unfold mbind, ST_bind.
  destruct (insert_batch_query _ _ _ st) as [r1 st1] eqn:E1.
  apply insert_batch_query_spec in E1 as (Hs1 & Hu1 & Hq).
  destruct r1 as [query|e]; [|intros [= <- <-]; rewrite Hs1; split; [apply Hst|done]].
  destruct Hq as (rows & Ht & Hp & Hlen & Hl & Hrows).
  destruct (execute query st1) as [r2 st2] eqn:E2.
  pose proof (execute_committed _ _ _ _ E2) as [Hc2 Hu2]. rewrite Hs1, (ph_committed _ _ _ Hst) in Hc2.
  rewrite (execute_is _ _ _ _ Ht Hp), Hs1 in E2.
  destruct r2 as [stored|e]; [|intros [= <- <-]; split_and!; [done|lia|done]].
  destruct (execute_statement _ _ _) as [r3 s3] eqn:E3. injection E2 as -> <-.
  apply law_insert in E3 as (Hlive & Hr & Hall & Hnum); [|done|apply Hst].
  rewrite (ph_rows _ _ _ Hst) in Hr, Hnum.
  destruct (rows_entries_stored _ _ _ _ Hl Hrows Hkept Hall) as [Hentries Hids].
  destruct (batch_pieces _ _ Hentries (proj1 Hnum)) as (pieces & -> & Hpieces).
  rewrite bool_decide_eq_false_2.
  2: { rewrite batch_size_entries, <-Hl, (Forall2_length _ _ _ Hall). by intros []. }
  pose proof (batch_results_spec definitions pieces [] [] Hpieces) as Hres.
  cbn [app length] in Hres. unfold st_lift. rewrite Hres. intros [= <- <-]. cbn.
  split; [done|]. split; [lia|]. exists pieces. split; [|done].
  split; cbn; [done|done|done|done|]. rewrite <-Hlen in Hids. exact Hids.
Qed.

(** ** Ending the transaction *)

Lemma rollback_holds st0 st log :
  holds st0 log -> sv_committed (ps_server st) = log -> ps_uuids st0 <= ps_uuids st ->
  holds (mkPostgresState (ps_uuids st) (sv_rollback (ps_server st))) log.
Proof.
  intros [_ _ _ Hc Hs Hids] Hcom Hu. destruct (law_rollback table (ps_server st)) as (? & Hr & Hc').
  split; cbn; [done|by rewrite Hr|by rewrite Hc'|done|done|].
  intros e He. destruct (Hids e He) as (n & Hn & ->). exists n. split; [lia|done].
Qed.

Lemma commit_holds st0 st log definitions pieces :
  holds st0 log -> inserted st log definitions pieces -> ps_uuids st0 <= ps_uuids st ->
  NoDup (dict_keys definitions) -> continue_streams log definitions ->
  holds (mkPostgresState (ps_uuids st) (sv_commit (ps_server st))) (log ++ concat pieces).
Proof.
  intros [_ _ _ Hc Hs Hids] [Hlive Hr Hst Hnum Hids'] Hu Hnd Hpos.
  destruct (law_commit table (ps_server st) Hlive) as (? & Hr' & Hc').
  split; cbn; [done|by rewrite Hr'|by rewrite Hc'| | |].
  - by eapply batch_contiguous.
  - unfold numbers_of. rewrite fmap_app. apply StronglySorted_app. destruct Hnum as [Hn1 Hn2].
    split_and!; [|done|done]. intros x y (e & -> & He)%list_elem_of_fmap
      (e' & -> & He')%list_elem_of_fmap. by apply Hn2.
  - intros e [He|He]%elem_of_app; [|by apply Hids'].
    destruct (Hids e He) as (n & Hn & ->). exists n. split; [lia|done].
Qed.
(** ** Publishing to a stream *)

(** The log, or what the transaction goes back to, is [log]. *)
Definition goes_back st0 st log : Prop :=
  sv_committed (ps_server st) = log /\ ps_uuids st0 <= ps_uuids st.

Lemma with_connection_spec {A} (body : ST State A) st log (P : A -> State -> Prop) r st' :
  holds st log ->
  (forall r1 st1, body st = (r1, st1) ->
    match r1 with
    | Ok a => P a (mkPostgresState (ps_uuids st1) (sv_commit (ps_server st1)))
    | Raise _ => goes_back st st1 log
    end) ->
  with_connection body st = (r, st') ->
  match r with Ok a => P a st' | Raise _ => holds st' log end.
Proof.
  intros Hst Hbody. unfold with_connection. destruct (body st) as [r1 st1] eqn:E.
  specialize (Hbody _ _ eq_refl). destruct r1 as [a|e]; intros [= <- <-]; [done|].
  destruct Hbody. by eapply rollback_holds.
Qed.

(** The statements before the insert: the locks, the last event and the condition. *)
Lemma stream_checked c s condition st log :
  holds st log -> storable_target (StreamIdentifier c s) = true ->
  let latest := last (log_of (StreamIdentifier c s) log) in
  exists r st', (_ ← obtain_write_locks settings (LockTarget (StreamIdentifier c s));
      latest_event ← read_last settings (StreamIdentifier c s);
      enforce_condition settings (c, s) condition latest_event) st = (r, st') /\
    holds st' log /\ ps_uuids st' = ps_uuids st /\
    match r with Ok position => position = stream_length log c s | Raise _ => True end /\
    (standard condition = true ->
      if satisfied condition latest then is_ok r = true
      else exists m, r = Raise (UnmetWriteConditionError m)).
Proof.
  intros Hst Hs latest. unfold mbind, ST_bind.
  destruct (stream_locks uuid4 settings st log c s Hst) as (st1 & -> & Hst1 & Hu1).
  destruct (read_last_spec uuid4 settings st1 log (StreamIdentifier c s) Hst1 eq_refl Hs)
    as (st2 & -> & Hst2 & Hu2).
  destruct (enforce_condition settings (c, s) condition _ st2) as [r st3] eqn:E.
  apply (enforce_condition_spec settings condition_registry Hconditions Hquiet) in E
    as (-> & Hr & Hstd).
  exists r, st2. split_and!; [done|done|lia| |done].
  destruct r; [|done]. rewrite Hr. apply next_position_length, Hst.
Qed.

(** The whole transaction, from what is checked. *)
Lemma stream_transaction c s events condition st :
  save_to_stream uuid4 settings c s events condition st =
  with_connection (
    position ← (_ ← obtain_write_locks settings (LockTarget (StreamIdentifier c s));
      latest_event ← read_last settings (StreamIdentifier c s);
      enforce_condition settings (c, s) condition latest_event);
    results ← insert_batch uuid4 settings [((c, s), mkInsert events position)];
    st_lift (dict_item results (c, s))) st.
Proof.
  unfold save_to_stream, with_connection, mbind, ST_bind.
  destruct (obtain_write_locks _ _ st) as [[[]|e] st1]; [|done].
  by destruct (read_last _ _ st1) as [[latest|e] st2].
Qed.

Lemma batch_entries_events (P : NewEvent -> Prop) identifier events position :
  Forall P events ->
  Forall (fun entry : Entry => P entry.2) (batch_entries [(identifier, mkInsert events position)]).
Proof.
  intros Hevents. unfold batch_entries, definition_entries. cbn. rewrite app_nil_r.
  generalize 0 at 1. intros i. revert i. induction Hevents as [|ev evs Hev _ IH]; intros i; cbn;
    by constructor.
Qed.

Lemma one_continues c s events log :
  continue_streams log [((c, s), mkInsert events (stream_length log c s))].
Proof. by intros d ->%list_elem_of_singleton. Qed.

Lemma save_to_stream_cases c s events condition st log r st' :
  holds st log -> storable_target (StreamIdentifier c s) = true ->
  Forall (payload_kept sv_jsonb) events ->
  save_to_stream uuid4 settings c s events condition st = (r, st') ->
  match r with
  | Ok raws => exists new, holds st' (log ++ new) /\
      stored_batch c s (stream_length log c s) events raws new
  | Raise _ => holds st' log
  end.
Proof.
  intros Hst Hs Hkept. rewrite stream_transaction.
  apply (with_connection_spec _ _ _ (fun raws st' => exists new, holds st' (log ++ new) /\
      stored_batch c s (stream_length log c s) events raws new)); [done|].
  intros r1 st1. unfold mbind at 1, ST_bind at 1.
  destruct (stream_checked c s condition st log Hst Hs) as (r0 & st0 & -> & Hst0 & Hu0 & Hr0 & _).
  destruct r0 as [position|e]; [subst position|intros [= <- <-]; split; [apply Hst0|lia]].
  unfold mbind, ST_bind.
  set (definitions := [((c, s), mkInsert events (stream_length log c s))]).
  destruct (insert_batch _ _ definitions st0) as [r2 st2] eqn:E2.
  apply (insert_batch_spec _ _ log) in E2 as (Hc & Hu & Hr2);
    [|done|done|by apply batch_entries_events].
  destruct r2 as [results|e]; [|intros [= <- <-]; split; [done|lia]].
  destruct Hr2 as (pieces & Hins & ->). pose proof (ins_stored _ _ _ _ Hins) as Hpieces.
  assert (exists piece, pieces = [piece] /\ definition_stored ((c, s), mkInsert events
    (stream_length log c s)) piece) as (piece & -> & Hpiece).
  { apply Forall2_cons_inv_l in Hpieces as (piece & rest & Hp & Hrest & ->).
    apply Forall2_nil_inv_l in Hrest as ->. by exists piece. }
  unfold st_lift, dict_item.
  assert (NoDup (dict_keys definitions)) as Hnd by apply NoDup_singleton.
  pose proof (results_of_lookup [] definitions [piece] 0 _ piece Hnd eq_refl eq_refl) as Hget.
  cbn [fst] in Hget. rewrite Hget.
  intros [= <- <-]. exists piece.
  pose proof (commit_holds st0 st2 log definitions [piece] Hst0 Hins Hu Hnd
    (one_continues c s events log)) as Hcommit.
  cbn [concat] in Hcommit. rewrite app_nil_r in Hcommit. by split.
Qed.

(** The condition decides: if it fails the publish raises, whatever the events. *)
Lemma pg_save_to_stream_unmet c s events condition st log :
  holds st log -> storable_target (StreamIdentifier c s) = true -> standard condition = true ->
  satisfied condition (last (log_of (StreamIdentifier c s) log)) = false ->
  exists m st', save_to_stream uuid4 settings c s events condition st =
    (Raise (UnmetWriteConditionError m), st') /\ holds st' log.
Proof.
  intros Hst Hs Hstd Hsat. rewrite stream_transaction. unfold with_connection.
  unfold mbind at 1, ST_bind at 1.
  destruct (stream_checked c s condition st log Hst Hs) as (r0 & st0 & -> & Hst0 & Hu0 & _ & Hr0).
  specialize (Hr0 Hstd). cbn zeta in Hr0. rewrite Hsat in Hr0. destruct Hr0 as [m ->].
  exists m. eexists. split; [done|]. eapply rollback_holds; [exact Hst| |lia]. apply Hst0.
Qed.

(** ** When the server accepts a batch *)
Context (uuid4_inj : Inj (=) (=) uuid4) (uuid4_text : forall n, text_storable (uuid4 n) = true).

(** An event the columns can hold. *)
Record acceptable (event : NewEvent) : Prop := {
  acc_storable : storable event;
  acc_name : forall name, serialise_to_string (ne_name event) raising_serialisation_fallback =
    Ok name -> text_storable name = true;
  acc_payload : payload_kept sv_jsonb event
}.

Definition entry_acceptable (entry : Entry) : Prop :=
  acceptable entry.2 /\ text_storable entry.1.1.1 = true /\ text_storable entry.1.1.2 = true /\
  (0 <= entry.1.2 < 2 ^ 31)%Z.

Lemma rows_acceptable (entries : list Entry) rows u st log :
  holds st log -> ps_uuids st <= u -> length rows = length entries ->
  (forall i entry, entries !! i = Some entry ->
    exists row, rows !! i = Some row /\ row_for uuid4 (u + i) entry row) ->
  Forall entry_acceptable entries ->
  Forall (row_storable sv_jsonb) rows /\
  new_ids rows (sv_rows (ps_server st)).
Proof.
  intros Hst Hu Hl Hrows Hacc. rewrite (ph_rows _ _ _ Hst).
  assert (forall i row, rows !! i = Some row ->
    nr_id row = uuid4 (u + i) /\ row_storable sv_jsonb row) as Hrow.
  { intros i row Hi. apply lookup_lt_Some in Hi as Hlt.
    destruct (lookup_lt_is_Some_2 entries i) as [entry He]; [lia|].
    destruct (Hrows i entry He) as (row' & Hi' & [Hid Hn Hs Hc Hp Hj _ _]). simplify_eq.
    split; [done|]. rewrite Forall_forall in Hacc.
    destruct (Hacc entry) as ([_ Hname Hkept] & Htc & Hts & Hpos);
      [by eapply list_elem_of_lookup_2|].
    unfold row_storable. rewrite Hid, Hs, Hc, Hp.
    split_and!; [done|by apply Hname|done|done|lia|lia|by rewrite (Hkept _ Hj)]. }
  split.
  - apply Forall_lookup. intros i row Hi. by apply (Hrow i).
  - split.
    + apply NoDup_alt. intros i j x. rewrite !list_lookup_fmap.
      intros (r & Hi & ->)%fmap_Some (r' & Hj & Heq)%fmap_Some.
      destruct (Hrow i r Hi) as [Hri _], (Hrow j r' Hj) as [Hrj _].
      rewrite Hri, Hrj in Heq. apply uuid4_inj in Heq. lia.
    + intros r e [i Hi]%list_elem_of_lookup He Heq.
      destruct (Hrow i r Hi) as [Hri _], (ph_ids _ _ _ Hst e He) as (n & Hn & Hid).
      rewrite Hri, Hid in Heq. apply uuid4_inj in Heq. lia.
Qed.

Lemma insert_batch_accepted definitions st log :
  holds st log -> batch_entries definitions <> [] ->
  (8 * Z.of_nat (length (batch_entries definitions)) <= max_parameters)%Z ->
  Forall entry_acceptable (batch_entries definitions) ->
  exists results st', insert_batch uuid4 settings definitions st = (Ok results, st').
Proof.
  intros Hst Hne Hlen Hacc.
  destruct (insert_batch uuid4 settings definitions st) as [[results|e] st'] eqn:E;
    [by exists results, st'|exfalso].
  assert (Forall (fun entry => storable entry.2) (batch_entries definitions)) as Hstorable.
  { eapply Forall_impl; [exact Hacc|]. intros entry [Hentry _]. apply Hentry. }
  assert (Forall (fun entry => payload_kept sv_jsonb entry.2) (batch_entries definitions)) as Hkept.
  { eapply Forall_impl; [exact Hacc|]. intros entry [Hentry _]. apply Hentry. }
  destruct definitions as [|d l] eqn:Ed; [done|]. rewrite <-Ed in *.
  unfold insert_batch in E. rewrite Ed in E. rewrite <-Ed in E. unfold mbind, ST_bind in E.
  destruct (insert_batch_query _ _ _ st) as [r1 st1] eqn:E1.
  apply insert_batch_query_spec in E1 as (Hs1 & Hu1 & Hq).
  destruct r1 as [query|e1]; [|by apply Hq].
  destruct Hq as (rows & Ht & Hp & Hu & Hl & Hrows).
  destruct (rows_acceptable _ _ _ st log Hst (le_n _) Hl Hrows Hacc) as [Hok Hids].
  rewrite (execute_is _ _ _ _ Ht Hp), Hs1 in E.
  destruct (law_insert_accepted table (ps_server st) rows) as (stored & s' & Hins);
    [apply Hst|by intros ->; destruct (batch_entries definitions)|by rewrite Hl|done|done|].
  rewrite Hins in E. apply law_insert in Hins as (Hlive & Hr & Hall & Hnum); [|done|apply Hst].
  destruct (rows_entries_stored _ _ _ _ Hl Hrows Hkept Hall) as [Hentries _].
  destruct (batch_pieces _ _ Hentries (proj1 Hnum)) as (pieces & -> & Hpieces).
  rewrite bool_decide_eq_false_2 in E.
  2: { rewrite batch_size_entries, <-Hl, (Forall2_length _ _ _ Hall). by intros []. }
  pose proof (batch_results_spec definitions pieces [] [] Hpieces) as Hres.
  cbn [app length] in Hres. unfold st_lift in E. by rewrite Hres in E.
Qed.

(** The events that can be published to a stream after a log. *)
Record accepts log (c s : string) (events : list NewEvent) : Prop := {
  accepts_some : events <> [];
  accepts_count : (8 * Z.of_nat (length events) <= max_parameters)%Z;
  accepts_position : (stream_length log c s + Z.of_nat (length events) <= 2 ^ 31)%Z;
  accepts_each : Forall acceptable events
}.

Lemma pg_save_to_stream_met c s events condition st log :
  holds st log -> storable_target (StreamIdentifier c s) = true -> standard condition = true ->
  satisfied condition (last (log_of (StreamIdentifier c s) log)) = true ->
  accepts log c s events ->
  exists raws st', save_to_stream uuid4 settings c s events condition st = (Ok raws, st').
Proof.
  intros Hst Hs Hstd Hsat [Hne Hcount Hpos Hacc]. rewrite stream_transaction.
  unfold with_connection. unfold mbind at 1, ST_bind at 1.
  destruct (stream_checked c s condition st log Hst Hs) as (r0 & st0 & -> & Hst0 & Hu0 & Hr & Hr0).
  specialize (Hr0 Hstd). cbn zeta in Hr0. rewrite Hsat in Hr0.
  destruct r0 as [position|]; [subst position|done]. clear Hr0.
  set (definitions := [((c, s), mkInsert events (stream_length log c s))]).
  assert (Forall entry_acceptable (batch_entries definitions)) as Hentries.
  { apply Forall_lookup. intros i entry Hi. unfold definitions, batch_entries in Hi.
    cbn in Hi. rewrite app_nil_r in Hi. unfold definition_entries in Hi. cbn in Hi.
    apply lookup_lt_Some in Hi as Hlt. rewrite entries_from_length in Hlt.
    destruct (lookup_lt_is_Some_2 _ _ Hlt) as [ev Hev].
    rewrite (entries_from_lookup _ _ _ _ _ _ Hev) in Hi. injection Hi as <-.
    cbn in Hs. apply andb_true_iff in Hs as [Hc Hs].
    rewrite Forall_forall in Hacc. unfold entry_acceptable. cbn.
    unfold stream_length in *. split_and!; [|done|done|lia|lia].
    apply Hacc. by eapply list_elem_of_lookup_2. }
  assert (length (batch_entries definitions) = length events) as Hlen.
  { unfold definitions, batch_entries. cbn. rewrite app_nil_r. apply entries_from_length. }
  destruct (insert_batch_accepted definitions st0 log Hst0) as (results & st2 & E);
    [intros Hnil; rewrite Hnil in Hlen; by destruct events|by rewrite Hlen|done|].
  unfold mbind, ST_bind. rewrite E. apply (insert_batch_spec _ _ log) in E as (_ & _ & Hr);
    [|done|done|].
  2: { eapply Forall_impl; [exact Hentries|]. intros entry [Hentry _]. apply Hentry. }
  destruct Hr as (pieces & Hins & ->). unfold st_lift, dict_item.
  destruct (Forall2_lookup_l _ _ _ 0 _ (ins_stored _ _ _ _ Hins) eq_refl) as (piece & Hpiece & _).
  pose proof (results_of_lookup [] definitions pieces 0 _ piece (NoDup_singleton _) eq_refl Hpiece)
    as Hget. cbn [fst] in Hget. rewrite Hget. by eexists _, _.
Qed.

(** C6. A stream publish on Postgres either appends to the stream or leaves the log as it was.
    When it returns, the log has grown by one event per event published, at the positions
    that follow the stream's and with growing sequence numbers, and the caller gets the
    events back with their own names and payloads; when it raises, the transaction is rolled
    back. The condition decides which: it raises UnmetWriteConditionError if the condition
    fails of the stream's latest event, and returns if it holds and the events can be
    stored. *)
Theorem postgres_save_to_stream c s events condition st log r st' :
  holds st log -> storable_target (StreamIdentifier c s) = true ->
  Forall (payload_kept sv_jsonb) events ->
  save_to_stream uuid4 settings c s events condition st = (r, st') ->
  match r with
  | Ok raws => exists new, holds st' (log ++ new) /\
      stored_batch c s (stream_length log c s) events raws new
  | Raise _ => holds st' log
  end /\
  (standard condition = true ->
   if satisfied condition (last (log_of (StreamIdentifier c s) log))
   then accepts log c s events -> is_ok r = true
   else exists m, r = Raise (UnmetWriteConditionError m)).
Proof.
  intros Hst Hs Hkept Hrun. split; [by eapply save_to_stream_cases|].
  intros Hstd. destruct (satisfied condition _) eqn:Hsat.
  - intros Hacc. destruct (pg_save_to_stream_met c s events condition st log Hst Hs Hstd Hsat Hacc)
      as (raws & st1 & E). rewrite E in Hrun. by injection Hrun as <- _.
  - destruct (pg_save_to_stream_unmet c s events condition st log Hst Hs Hstd Hsat)
      as (m & st1 & E & _). rewrite E in Hrun. injection Hrun as <- _. by exists m.
Qed.

(** A batch of no rows, or of too many for one statement. *)
Lemma insert_batch_refused definitions st :
  definitions <> [] ->
  (batch_entries definitions = [] \/
   (max_parameters < 8 * Z.of_nat (length (batch_entries definitions)))%Z) ->
  exists e st', insert_batch uuid4 settings definitions st = (Raise e, st').
Proof.
  intros Hne Hsize. destruct definitions as [|d l] eqn:Ed; [done|]. rewrite <-Ed in *.
  unfold insert_batch. rewrite Ed. rewrite <-Ed. unfold mbind, ST_bind.
  destruct (insert_batch_query _ _ _ st) as [r1 st1] eqn:E1.
  apply insert_batch_query_spec in E1 as (Hs1 & Hu1 & Hq).
  destruct r1 as [query|e1]; [|by eexists _, _].
  destruct Hq as (rows & Ht & Hp & Hu & Hl & Hrows).
  rewrite (execute_is _ _ _ _ Ht Hp).
  assert (exists e s', execute_statement table (InsertEvents rows) (ps_server st1) = (Raise e, s'))
    as (e & s' & ->); [|by eexists _, _].
  destruct Hsize as [Hnil|Hmany].
  - rewrite Hnil in Hl. apply nil_length_inv in Hl as ->. apply (law_insert_none table).
  - apply (law_insert_too_many table). by rewrite Hl.
Qed.

(** C36. A stream publish on Postgres goes through exactly when it is of 1 to 8191 events: the
    rows are one statement of 8 parameters each, whatever [max_insert_batch_size], and a statement
    has room for 65535 parameters, and must have a row (the unit test of an empty batch, which
    expects an empty result, runs on a mock cursor that takes the statement without rows). So it is
    for events that can be stored, below the 32-bit limit on positions, whose condition holds; and
    whatever does not go through leaves the log as it was. *)
Theorem publish_size_bounds c s events condition st log r st' :
  holds st log -> storable_target (StreamIdentifier c s) = true -> standard condition = true ->
  satisfied condition (last (log_of (StreamIdentifier c s) log)) = true ->
  (stream_length log c s + Z.of_nat (length events) <= 2 ^ 31)%Z -> Forall acceptable events ->
  save_to_stream uuid4 settings c s events condition st = (r, st') ->
  (is_ok r = true <-> (1 <= Z.of_nat (length events) <= 8191)%Z) /\ (is_ok r = false -> holds st' log).
Proof.
  intros Hst Hs Hstd Hsat Hpos Hacc Hrun. split.
  2: { apply (save_to_stream_cases _ _ _ _ _ log) in Hrun; [by destruct r|done|done|].
       eapply Forall_impl; [exact Hacc|]. intros ev Hev. apply Hev. }
  split; [|intros [Hne Hle]].
  2: { destruct (pg_save_to_stream_met c s events condition st log Hst Hs Hstd Hsat)
         as (raws & st1 & E); [|rewrite E in Hrun; by injection Hrun as <- <-].
       split; [intros ->; cbn in Hne; lia|unfold max_parameters; lia|done|done]. }
  intros Hok. destruct r as [raws|e]; [clear Hok|done].
  rewrite stream_transaction in Hrun. unfold with_connection in Hrun.
  unfold mbind at 1, ST_bind at 1 in Hrun.
  destruct (stream_checked c s condition st log Hst Hs)
    as (r0 & st0 & E0 & _ & _ & Hr & Hr0).
  rewrite E0 in Hrun. specialize (Hr0 Hstd). cbn zeta in Hr0. rewrite Hsat in Hr0.
  destruct r0 as [position|]; [subst position|done]. unfold mbind, ST_bind in Hrun.
  set (definitions := [((c, s), mkInsert events (stream_length log c s))]) in Hrun.
  assert (length (batch_entries definitions) = length events) as Hlen.
  { unfold definitions, batch_entries. cbn. rewrite app_nil_r. apply entries_from_length. }
  destruct (decide (1 <= Z.of_nat (length events) <= 8191)%Z) as [|Hout]; [done|exfalso].
  destruct (insert_batch_refused definitions st0) as (e & st1 & E).
  - done.
  - rewrite Hlen. unfold max_parameters. destruct (decide (length events = 0)) as [Hz|Hz]; [|right; lia].
    left. apply nil_length_inv. lia.
  - by rewrite E in Hrun.
Qed.
End saving.
