(* ===== verification/PostgresCategory.v ===== *)
(** Publishing to a category on Postgres: one transaction over all of the category's streams
    in the request. *)
From S2P Require Import Prelude Values Conversion Events Conditions EventsDB MemoryAdapter.
From S2P Require Import PostgresQuery PostgresQueryTheory PostgresConditions PostgresServer.
From S2P Require Import PostgresAdapter PostgresAdapterTheory PostgresInsert PostgresSaving.

Section category.
Context `{Psycopg} `{UserCode} {S : Type} `{EventsServer S} (uuid4 : nat -> string).
Context (settings : AdapterSettings S) {Hlaws : EventsServerLaws (as_table_name settings)}.
Context (condition_registry : gmap string (pg.ConditionConverter S)).
Context (Hconditions : as_condition_converter settings =
  pg.with_default_condition_converters condition_registry).
Context (Hquiet : quiet_registry condition_registry).

Abbreviation State := (PostgresState S).
Abbreviation holds := (pg_holds uuid4).
Abbreviation table := (as_table_name settings).
Abbreviation Definitions := (dict (string * string) StreamInsertDefinition).
Implicit Types (st : State) (log : list StoredEvent) (definitions : Definitions).

Abbreviation Streams := (dict string StreamPublishDefinition).

Lemma latest_dict c streams log latest name :
  contiguous log -> latest_rows c streams log latest -> name ∈ streams ->
  dict_get (dict_of se_stream id latest) name = last (log_of (StreamIdentifier c name) log).
Proof.
  intros Hc [Honce Hamong Hhigh] Hname.
  destruct (last (log_of (StreamIdentifier c name) log)) as [e|] eqn:El.
  - assert (e ∈ log_of (StreamIdentifier c name) log) as He.
    { apply last_Some in El as [l ->]. apply elem_of_app. right. constructor. }
    apply elem_of_log_of in He as He'. destruct He' as [Hlog Hin]. apply in_stream in Hin as [<- <-].
    destruct (Hhigh e Hlog eq_refl Hname) as (e' & He' & Hs & Hp).
    apply dict_of_get; [done|]. exists e'. split; [done|]. split; [done|].
    destruct (Hamong e' He') as (Hlog' & Hc' & _).
    assert (e' ∈ log_of (StreamIdentifier (se_category e) (se_stream e)) log) as Hin'.
    { apply elem_of_log_of. split; [done|]. by apply in_stream. }
    apply list_elem_of_lookup in Hin' as [i Hi]. pose proof (Hc (se_category e) (se_stream e)) as Hseq.
    set (l := log_of (StreamIdentifier (se_category e) (se_stream e)) log) in *.
    assert (forall k x, l !! k = Some x -> se_position x = Z.of_nat k) as Hpos.
    { intros k x Hk. apply lookup_lt_Some in Hk as Hlt.
      assert ((se_position <$> l) !! k = Some (se_position x)) as Hpk by by rewrite list_lookup_fmap, Hk.
      rewrite Hseq, lookup_seqZ_lt in Hpk by lia. injection Hpk as <-. lia. }
    rewrite last_lookup in El. rewrite (Hpos _ _ Hi), (Hpos _ _ El) in Hp.
    apply lookup_lt_Some in Hi as Hlt. assert (i = pred (length l)) as -> by lia. cbn. congruence.
  - apply dict_get_None. intros Hin. apply dict_get_is_Some in Hin as [e He].
    apply dict_of_get in He as (e' & He' & <- & _); [|done].
    destruct (Hamong e' He') as (Hlog & <- & _). apply last_None in El.
    assert (e' ∈ []) as Hnil; [|by apply not_elem_of_nil in Hnil].
    rewrite <-El. apply elem_of_log_of. split; [done|]. by apply in_stream.
Qed.

(** What is inserted for a request. *)
Definition request_definition (c : string) log (p : string * StreamPublishDefinition)
    : (string * string) * StreamInsertDefinition :=
  ((c, p.1), mkInsert (pd_events p.2) (stream_length log c p.1)).

Definition request_condition (p : string * StreamPublishDefinition) : WriteCondition :=
  default NoCondition (pd_condition p.2).

Definition request_satisfied (c : string) log (p : string * StreamPublishDefinition) : bool :=
  satisfied (request_condition p) (last (log_of (StreamIdentifier c p.1) log)).

Lemma category_definitions_spec c latest_events (streams : Streams) definitions st log r st' :
  contiguous log ->
  (forall name, name ∈ dict_keys streams ->
    dict_get latest_events name = last (log_of (StreamIdentifier c name) log)) ->
  NoDup (dict_keys streams) ->
  (forall name, name ∈ dict_keys streams -> (c, name) ∉ dict_keys definitions) ->
  category_definitions settings c latest_events streams definitions st = (r, st') ->
  st' = st /\
  match r with
  | Ok ds => ds = definitions ++ (request_definition c log <$> streams)
  | Raise _ => True
  end /\
  (Forall (fun p => standard (request_condition p) = true) streams ->
    if forallb (request_satisfied c log) streams then is_ok r = true
    else exists m, r = Raise (UnmetWriteConditionError m)).
Proof.
  intros Hc. unfold dict_keys. revert definitions r st'.
  induction streams as [|[name d] streams IH]; intros definitions r st' Hlatest Hnd Hfresh;
    cbn [category_definitions].
  { intros [= <- <-]. by rewrite app_nil_r. }
  cbn in Hnd, Hlatest, Hfresh. apply NoDup_cons in Hnd as [Hn Hnd].
  unfold mbind, ST_bind. rewrite (Hlatest name) by constructor.
  destruct (enforce_condition _ _ _ _ st) as [r1 st1] eqn:E1.
  apply (enforce_condition_spec settings condition_registry Hconditions Hquiet) in E1
    as (-> & Hr1 & Hstd1).
  destruct r1 as [position|e].
  2: { intros [= <- <-]. split; [done|]. split; [done|]. intros [Hs _]%Forall_cons.
       specialize (Hstd1 Hs). cbn [forallb]. change (request_satisfied c log (name, d)) with
         (satisfied (default NoCondition (pd_condition d))
           (last (log_of (StreamIdentifier c name) log))).
       destruct (satisfied _ _); [done|]. destruct Hstd1 as [m [= ->]]. by exists m. }
  rewrite next_position_length in Hr1 by done. subst position. intros Hrun.
  assert (dict_set definitions (c, name) (mkInsert (pd_events d) (stream_length log c name)) =
    definitions ++ [request_definition c log (name, d)]) as Hset.
  { apply dict_set_fresh. apply Hfresh. constructor. }
  rewrite Hset in Hrun. apply IH in Hrun as (-> & Hr & Hstd).
  - split; [done|]. split.
    + destruct r as [ds|]; [|done]. by rewrite Hr, <-app_assoc.
    + intros [Hs Hall]%Forall_cons. cbn [forallb].
      change (request_satisfied c log (name, d)) with
         (satisfied (default NoCondition (pd_condition d))
           (last (log_of (StreamIdentifier c name) log))).
      specialize (Hstd1 Hs). destruct (satisfied _ _); [by apply Hstd|].
      by destruct Hstd1.
  - intros name' Hin. apply Hlatest. by constructor.
  - done.
  - intros name' Hin. rewrite fmap_app. intros [Hd|Hd]%elem_of_app.
    + apply (Hfresh name'); [by constructor|done].
    + apply list_elem_of_singleton in Hd. injection Hd as ->. done.
Qed.

Lemma read_latest_spec st log c (streams : Streams) :
  holds st log -> streams <> [] ->
  Forall (fun name => text_storable name = true) (c :: dict_keys streams) ->
  exists latest_events st',
    read_last_category_batch settings (mkCategoryStreams c (dict_keys streams)) st =
      (Ok latest_events, st') /\ holds st' log /\ ps_uuids st' = ps_uuids st /\
    forall name, name ∈ dict_keys streams ->
      dict_get latest_events name = last (log_of (StreamIdentifier c name) log).
Proof.
  intros Hst Hne Hs. destruct (latest_text table c (dict_keys streams)) as [Ht Hp].
  destruct (law_latest table (ps_server st) c (dict_keys streams))
    as (latest & s' & E & Hread & Hrows);
    [apply Hst|unfold dict_keys; by destruct streams|done|].
  rewrite (ph_rows _ _ _ Hst) in Hrows.
  eexists _, (mkPostgresState (ps_uuids st) s'). split; [|split; [by apply holds_reads|split; [done|]]].
  - unfold read_last_category_batch, mbind, ST_bind. by rewrite (execute_is _ _ _ _ Ht Hp), E.
  - intros name Hname. eapply latest_dict; [apply Hst|done|done].
Qed.

Lemma category_results_spec c batch_results names results :
  (forall name, name ∈ names -> is_Some (dict_get batch_results (c, name))) ->
  exists results', category_results c batch_results names results = Ok results' /\
    forall name, dict_get results' name =
      if decide (name ∈ names) then dict_get batch_results (c, name) else dict_get results name.
Proof.
  revert results. induction names as [|name names IH]; intros results Hall; cbn [category_results].
  - exists results. split; [done|]. intros name. rewrite decide_False; [done|apply not_elem_of_nil].
  - destruct (Hall name) as [stored Hget]; [constructor|]. unfold dict_item.
    rewrite Hget. cbn [mbind res_bind].
    destruct (IH (dict_set results name stored)) as (results' & -> & Hres);
      [intros; apply Hall; by constructor|].
    exists results'. split; [done|]. intros name'. rewrite Hres, dict_get_set.
    destruct (decide (name' ∈ names)) as [Hin|Hout].
    + rewrite decide_True by by constructor. done.
    + case_decide as Hname; subst.
      * rewrite decide_True by constructor. done.
      * rewrite decide_False; [done|]. rewrite elem_of_cons. naive_solver.
Qed.

(** The batch of a category publish, and what it leaves. *)
Definition category_batch (c : string) log (streams : Streams) : Definitions :=
  request_definition c log <$> streams.

Lemma category_batch_keys c log streams :
  dict_keys (category_batch c log streams) = pair c <$> dict_keys streams.
Proof. unfold dict_keys, category_batch. by rewrite <-!list_fmap_compose. Qed.

Lemma category_batch_NoDup c log (streams : Streams) :
  NoDup (dict_keys streams) -> NoDup (dict_keys (category_batch c log streams)).
Proof. intros Hnd. rewrite category_batch_keys. apply NoDup_fmap_2; [|done]. by intros x y [= ->]. Qed.

Lemma category_batch_continues c log streams : continue_streams log (category_batch c log streams).
Proof. intros d (p & -> & _)%list_elem_of_fmap. done. Qed.

Lemma category_batch_entries (P : NewEvent -> Prop) c log (streams : Streams) :
  Forall (fun p => Forall P (pd_events p.2)) streams ->
  Forall (fun entry : Entry => P entry.2) (batch_entries (category_batch c log streams)).
Proof.
  induction 1 as [|p streams Hp _ IH]; [constructor|].
  unfold batch_entries, category_batch. cbn [fmap list_fmap concat]. apply Forall_app.
  split; [|exact IH].
  pose proof (batch_entries_events P (c, p.1) _ (stream_length log c p.1) Hp) as Hall.
  unfold batch_entries in Hall. cbn [fmap list_fmap concat] in Hall. by rewrite app_nil_r in Hall.
Qed.

(** What the caller finds under a stream's name, and what the log has. *)
Definition request_saved (c : string) log new (results : dict string (list StoredEvent))
    (name : string) (d : StreamPublishDefinition) : Prop :=
  exists raws, dict_get results name = Some raws /\
    stored_batch c name (stream_length log c name) (pd_events d) raws
      (log_of (StreamIdentifier c name) new).

Lemma category_inserted c log (streams : Streams) st0 st pieces :
  holds st0 log -> NoDup (dict_keys streams) -> ps_uuids st0 <= ps_uuids st ->
  inserted uuid4 st log (category_batch c log streams) pieces ->
  holds (mkPostgresState (ps_uuids st) (sv_commit (ps_server st))) (log ++ concat pieces) /\
  exists results, category_results c (results_of [] (category_batch c log streams) pieces)
      (dict_keys streams) [] = Ok results /\
    forall name d, dict_get streams name = Some d ->
      request_saved c log (concat pieces) results name d.
Proof.
  intros Hst Hnd Hu Hins. pose proof (category_batch_NoDup c log streams Hnd) as Hbatch.
  split. { eapply (commit_holds uuid4 settings); [done|done|done|done|apply category_batch_continues]. }
  assert (forall name d, dict_get streams name = Some d -> exists i piece,
    category_batch c log streams !! i = Some (request_definition c log (name, d)) /\
    pieces !! i = Some piece /\ definition_stored (request_definition c log (name, d)) piece)
    as Hlook.
  { intros name d Hd%dict_get_Some_elem. apply list_elem_of_lookup in Hd as [i Hi].
    assert (category_batch c log streams !! i = Some (request_definition c log (name, d))) as Hb
      by by unfold category_batch; rewrite list_lookup_fmap, Hi.
    destruct (Forall2_lookup_l _ _ _ _ _ (ins_stored _ _ _ _ _ Hins) Hb) as (piece & ? & ?).
    by exists i, piece. }
  destruct (category_results_spec c (results_of [] (category_batch c log streams) pieces)
    (dict_keys streams) []) as (results & E & Hres).
  { intros name Hname. apply dict_get_is_Some in Hname as [d Hd].
    destruct (Hlook name d Hd) as (i & piece & Hb & Hp & _).
    pose proof (results_of_lookup [] _ _ _ _ _ Hbatch Hb Hp) as Hget. by eexists. }
  exists results. split; [done|]. intros name d Hd.
  destruct (Hlook name d Hd) as (i & piece & Hb & Hp & Hstored).
  pose proof (results_of_lookup [] _ _ _ _ _ Hbatch Hb Hp) as Hget. cbn [fst] in Hget.
  exists (definition_results (request_definition c log (name, d)) piece). split.
  - rewrite Hres, decide_True; [exact Hget|]. apply dict_get_is_Some. by exists d.
  - destruct (batch_contiguous log _ _ (ph_contiguous _ _ _ Hst) Hbatch
      (category_batch_continues c log streams) (ins_stored _ _ _ _ _ Hins)) as [_ Hpieces].
    specialize (Hpieces i _ piece Hb Hp). cbn [request_definition fst snd] in Hpieces.
    rewrite Hpieces. exact Hstored.
Qed.

Abbreviation category_body c streams := (
  _ ← obtain_write_locks settings (category_lock_targets settings c streams);
  latest_events ← read_last_category_batch settings (mkCategoryStreams c (dict_keys streams));
  definitions ← category_definitions settings c latest_events streams [];
  batch_results ← insert_batch uuid4 settings definitions;
  st_lift (category_results c batch_results (dict_keys streams) [])).

(** Of no streams nothing can be read: the statement has an empty list. *)
Lemma no_streams_read c st log :
  holds st log ->
  exists e st', read_last_category_batch settings (mkCategoryStreams c []) st = (Raise e, st') /\
    goes_back st st' log.
Proof.
  intros Hst. destruct (latest_text table c []) as [Ht Hp].
  destruct (law_latest_of_none table (ps_server st) c) as (e & s' & E).
  destruct (execute (read_last_category_batch_query table (mkCategoryStreams c [])) st)
    as [r st'] eqn:Ex. pose proof (execute_committed settings _ _ _ _ Ex) as [Hc Hu].
  rewrite (execute_is _ _ _ _ Ht Hp), E in Ex. injection Ex as <- <-.
  eexists _, _. split.
  - unfold read_last_category_batch, mbind, ST_bind. by rewrite (execute_is _ _ _ _ Ht Hp), E.
  - split; [by rewrite Hc; apply Hst|cbn; lia].
Qed.

Lemma category_body_spec c (streams : Streams) st log r st' :
  holds st log -> NoDup (dict_keys streams) ->
  Forall (fun name => text_storable name = true) (c :: dict_keys streams) ->
  Forall (fun p => Forall (payload_kept sv_jsonb) (pd_events p.2)) streams ->
  category_body c streams st = (r, st') ->
  match r with
  | Ok results => exists new,
      holds (mkPostgresState (ps_uuids st') (sv_commit (ps_server st'))) (log ++ new) /\
      forall name d, dict_get streams name = Some d -> request_saved c log new results name d
  | Raise _ => goes_back st st' log
  end /\
  (streams <> [] -> Forall (fun p => standard (request_condition p) = true) streams ->
   forallb (request_satisfied c log) streams = false ->
   exists m, r = Raise (UnmetWriteConditionError m)).
Proof.
  intros Hst Hnd Hs Hkept. unfold mbind, ST_bind.
  destruct (category_locks uuid4 settings st log c streams Hst) as (st1 & -> & Hst1 & Hu1).
  destruct (decide (streams = [])) as [->|Hne].
  { destruct (no_streams_read c st1 log Hst1) as (e & st2 & E & [Hc Hu]).
    change (dict_keys []) with (@nil string). rewrite E. intros [= <- <-].
    split; [split; [done|lia]|done]. }
  destruct (read_latest_spec st1 log c streams Hst1 Hne Hs)
    as (latest_events & st2 & -> & Hst2 & Hu2 & Hlatest).
  destruct (category_definitions _ _ _ _ _ st2) as [r3 st3] eqn:E3.
  apply (category_definitions_spec _ _ _ _ _ log) in E3 as (-> & Hr3 & Hstd3);
    [|apply Hst|done|done|intros; apply not_elem_of_nil].
  assert (forall e, r3 = Raise e -> Forall (fun p => standard (request_condition p) = true) streams ->
    forallb (request_satisfied c log) streams = false ->
    exists m, e = UnmetWriteConditionError m) as Hunmet.
  { intros e -> Hstd Hsat. specialize (Hstd3 Hstd). rewrite Hsat in Hstd3.
    destruct Hstd3 as [m [= ->]]. by exists m. }
  destruct r3 as [definitions|e].
  2: { intros [= <- <-]. split; [split; [apply Hst2|lia]|]. intros _ Hstd Hsat.
       destruct (Hunmet e eq_refl Hstd Hsat) as [m ->]. by exists m. }
  cbn [app] in Hr3. subst definitions.
  assert (streams <> [] -> Forall (fun p => standard (request_condition p) = true) streams ->
    forallb (request_satisfied c log) streams = false ->
    exists m, r = Raise (UnmetWriteConditionError m)) as Hsat.
  { intros _ Hstd Hsat. specialize (Hstd3 Hstd). rewrite Hsat in Hstd3. by destruct Hstd3. }
  destruct (insert_batch _ _ _ st2) as [r4 st4] eqn:E4.
  apply (insert_batch_spec uuid4 settings _ _ log) in E4 as (Hc & Hu & Hr4);
    [|done|by destruct streams|by apply category_batch_entries].
  destruct r4 as [results|e]; [|intros [= <- <-]; split; [split; [done|lia]|done]].
  destruct Hr4 as (pieces & Hins & ->).
  destruct (category_inserted c log streams st2 st4 pieces Hst2 Hnd Hu Hins)
    as (Hcommit & results & E & Hsaved).
  unfold st_lift. change (request_definition c log <$> streams) with (category_batch c log streams).
  rewrite E. intros [= <- <-]. split; [|done]. by exists (concat pieces).
Qed.

(** C7. A category publish on Postgres is atomic over all of its streams. When it returns, the
    events of every stream named in the request are stored, at positions that continue the
    stream, and the result maps each stream's name to them; when it raises the log is as it
    was. It raises UnmetWriteConditionError if any stream's condition fails. *)
Theorem postgres_save_to_category c (streams : Streams) st log r st' :
  holds st log -> NoDup (dict_keys streams) ->
  Forall (fun name => text_storable name = true) (c :: dict_keys streams) ->
  Forall (fun p => Forall (payload_kept sv_jsonb) (pd_events p.2)) streams ->
  save_to_category uuid4 settings c streams st = (r, st') ->
  match r with
  | Ok results => exists new, holds st' (log ++ new) /\
      forall name d, dict_get streams name = Some d -> request_saved c log new results name d
  | Raise _ => holds st' log
  end /\
  (streams <> [] -> Forall (fun p => standard (request_condition p) = true) streams ->
   forallb (request_satisfied c log) streams = false ->
   exists m, r = Raise (UnmetWriteConditionError m)).
Proof.
  intros Hst Hnd Hs Hkept. unfold save_to_category. intros Hrun. split.
  - revert Hrun. apply (with_connection_spec uuid4 settings _ _ _ (fun results st' => exists new,
      holds st' (log ++ new) /\
      forall name d, dict_get streams name = Some d -> request_saved c log new results name d));
      [done|].
    intros r1 st1 E. by apply (category_body_spec c streams st log).
  - unfold with_connection in Hrun. destruct (category_body c streams st) as [r1 st1] eqn:E.
    apply (category_body_spec c streams st log) in E as [_ Hunmet]; [|done..].
    intros Hne Hstd Hsat. destruct (Hunmet Hne Hstd Hsat) as [m ->].
    injection Hrun as <- _. by exists m.
Qed.
End category.
