(* ===== verification/PostgresScan.v ===== *)
(** Reading on Postgres: the latest event of a target, and scans, which read pages until one
    is not full, also while other connections append to the log between the pages. *)
From S2P Require Import Prelude Values Conversion Events Conditions EventsDB MemoryAdapter.
From S2P Require Import Sources PostgresQuery PostgresQueryTheory PostgresConditions.
From S2P Require Import PostgresServer PostgresAdapter PostgresAdapterTheory.

(** ** Conditions and constraints *)

Definition all_standard (cs : list QueryConstraint) : Prop :=
  Forall (fun c => standard_constraint c = true) cs.

Lemma select_scan target cs log :
  scannable target = true -> all_standard cs ->
  select_events (target_conditions target ++ omap constraint_condition cs) log =
  List.filter (meets constraint_holds cs) (log_of target log).
Proof.
  intros Ht Hcs. rewrite <-(select_target target log Ht). unfold select_events.
  rewrite filter_twice. apply List.filter_ext. intros e. rewrite forallb_app. f_equal.
  unfold meets. induction Hcs as [|c cs Hc _ IH]; [done|].
  destruct c as [n|]; [|done]. cbn [omap list_omap constraint_condition forallb]. by rewrite IH.
Qed.

Lemma scan_conditions_storable target cs :
  storable_target target = true ->
  Forall (fun c => condition_storable c = true)
    (target_conditions target ++ omap constraint_condition cs).
Proof.
  intros Ht. apply Forall_app. split; [by apply target_conditions_storable|].
  induction cs as [|[] cs IH]; cbn; [constructor|by constructor|done].
Qed.

Lemma next_constraints_after `{SetOrder} n cs c :
  all_standard cs -> c ∈ next_constraints (Some n) cs <-> c = SequenceNumberAfterConstraint n.
Proof.
  intros Hcs. cbn [next_constraints]. unfold set_union. rewrite set_iter_elem_of, elem_of_app,
    list_elem_of_singleton. split; [intros [Hc|]|by right]; [|done]. exfalso.
  apply elem_filter in Hc as [Hin Hc].
  unfold all_standard in Hcs. rewrite Forall_forall in Hcs. specialize (Hcs c Hin). by destruct c.
Qed.

Lemma next_constraints_standard `{SetOrder} n cs :
  all_standard cs -> all_standard (next_constraints n cs).
Proof.
  intros Hcs. destruct n as [n|]; [|done]. apply Forall_forall.
  intros c Hc%next_constraints_after; [by subst|done].
Qed.

Lemma next_constraints_meets `{SetOrder} n cs e :
  all_standard cs ->
  meets constraint_holds (next_constraints (Some n) cs) e = (n <? se_sequence_number e)%Z.
Proof.
  intros Hcs. apply eq_true_iff_eq. rewrite meets_elem.
  setoid_rewrite (fun c => next_constraints_after n cs c Hcs). split.
  - intros Hall. apply (Hall _ eq_refl).
  - by intros He c ->.
Qed.

(** ** Pages of a sorted log *)

(** The events a scan is to yield. *)
Definition wanted (target : EventSourceIdentifier) (cs : list QueryConstraint)
    (log : list StoredEvent) : list StoredEvent :=
  List.filter (meets constraint_holds cs) (log_of target log).

Lemma wanted_prefix target cs log log' :
  log `prefix_of` log' -> wanted target cs log `prefix_of` wanted target cs log'.
Proof.
  intros [more ->]. unfold wanted, log_of. rewrite !List.filter_app. by eexists.
Qed.

Lemma numbers_filter_sorted (P : StoredEvent -> bool) log :
  StronglySorted Z.lt (numbers_of log) -> StronglySorted Z.lt (numbers_of (List.filter P log)).
Proof.
  unfold numbers_of. induction log as [|e log IH]; cbn; [done|]. intros Hs.
  apply StronglySorted_cons in Hs as [Hall Hs]. destruct (P e); cbn; [|auto].
  constructor; [auto|]. rewrite Forall_fmap in Hall |- *. rewrite Forall_forall in Hall |- *.
  intros x [Hx _]%elem_filter. by apply Hall.
Qed.

(** What follows the last event of a page is what has a greater number. *)
Lemma after_last cs log page more e :
  all_standard cs -> StronglySorted Z.lt (numbers_of log) ->
  List.filter (meets constraint_holds cs) log = page ++ more -> last page = Some e ->
  List.filter (fun x => (se_sequence_number e <? se_sequence_number x)%Z) log = more.
Proof.
  intros Hcs Hs Hf [pre ->]%last_Some.
  assert (meets constraint_holds cs e = true) as He.
  { assert (e ∈ (pre ++ [e]) ++ more) as Hin by (rewrite !elem_of_app; left; right; constructor).
    rewrite <-Hf in Hin. apply elem_filter in Hin. apply Hin. }
  transitivity (List.filter (fun x => (se_sequence_number e <? se_sequence_number x)%Z)
    (List.filter (meets constraint_holds cs) log)).
  - rewrite filter_twice. apply List.filter_ext. intros x.
    destruct (Z.ltb_spec (se_sequence_number e) (se_sequence_number x)) as [Hlt|_];
      [|by rewrite andb_false_r]. rewrite andb_true_r. symmetry. rewrite meets_elem in He |- *.
    intros c Hc. specialize (He c Hc). unfold all_standard in Hcs. rewrite Forall_forall in Hcs.
    specialize (Hcs c Hc). destruct c; [|done]. cbn in He |- *. lia.
  - apply (numbers_filter_sorted (meets constraint_holds cs)) in Hs. rewrite Hf in Hs |- *.
    unfold numbers_of in Hs. rewrite !fmap_app, <-app_assoc in Hs.
    apply StronglySorted_app in Hs as (Hpre & _ & Hs). apply StronglySorted_cons in Hs as [Hmore _].
    rewrite !List.filter_app. rewrite Forall_fmap, Forall_forall in Hmore.
    rewrite (filter_nothing _ pre), (filter_all _ more).
    + cbn. by rewrite Z.ltb_irrefl.
    + intros x Hx. by apply Z.ltb_lt, Hmore.
    + intros x Hx. apply Z.ltb_ge. cut (se_sequence_number x < se_sequence_number e)%Z; [lia|].
      apply Hpre; [|constructor]. apply list_elem_of_fmap. by exists x.
Qed.

(** ** Scans *)
Section scanning.
Context `{Psycopg} `{UserCode} `{SetOrder} {S : Type} `{EventsServer S}.
Context (settings : AdapterSettings S) {Hlaws : EventsServerLaws (as_table_name settings)}.
Context (constraint_registry : gmap string (QueryConstraint -> res pg.QueryApplier)).
Context (Hconstraints : as_constraint_converter settings =
  pg.with_default_constraint_converters constraint_registry).

Abbreviation page_size := (as_scan_query_page_size settings).

(** The targets a scan reads: those without empty names, which the query leaves out. *)
Definition scans (target : EventSourceIdentifier) : bool :=
  scannable target && named target && storable_target target.

Lemma scan_page_spec server target cs :
  sv_live server -> scans target = true -> all_standard cs -> (0 <= page_size)%Z ->
  scan_page settings server target cs =
  Ok (take (Z.to_nat page_size) (wanted target cs (sv_rows server))).
Proof.
  intros Hlive [[Ht Hn]%andb_true_iff Hs]%andb_true_iff Hcs Hsize. unfold scan_page.
  rewrite Hconstraints, scan_query_builder by done.
  destruct (scan_text (as_table_name settings)
    (target_conditions target ++ omap constraint_condition cs) page_size) as (sql & -> & Htext).
  cbn [mbind res_bind fst snd]. rewrite Htext.
  destruct (law_select (as_table_name settings) server true
    (target_conditions target ++ omap constraint_condition cs) false page_size)
    as (s' & E & _); [done|done|by apply scan_conditions_storable|].
  unfold execute_statement in E. rewrite E. cbn [fst]. unfold id.
  by rewrite select_scan by done.
Qed.

(** The log as the pages of a scan see it: it grows, in the order of its numbers, and stays
    shorter than some bound. *)
Record growing (servers : nat -> S) (logs : nat -> list StoredEvent) (bound : nat) : Prop := {
  gr_live : forall k, sv_live (servers k);
  gr_rows : forall k, sv_rows (servers k) = logs k;
  gr_sorted : forall k, StronglySorted Z.lt (numbers_of (logs k));
  gr_prefix : forall k, logs k `prefix_of` logs (Datatypes.S k);
  gr_bound : forall k, length (logs k) <= bound
}.

Section growing.
Context (servers : nat -> S) (logs : nat -> list StoredEvent) (bound : nat).
Context (Hgrowing : growing servers logs bound).
Context (target : EventSourceIdentifier) (Htarget : scans target = true).
Context (cs : list QueryConstraint) (Hcs : all_standard cs) (Hsize : (1 <= page_size)%Z).

Lemma wanted_length k : length (wanted target cs (logs k)) <= bound.
Proof.
  etrans; [|apply (gr_bound _ _ _ Hgrowing k)]. unfold wanted, log_of.
  etrans; apply List.filter_length_le.
Qed.

(** Where the loop stands: [done] was yielded, and the constraints now in force ask for what
    comes after its last event. *)
Definition scanned (k : nat) (yielded : list StoredEvent) (cs' : list QueryConstraint)
    (last_sequence_number : option Z) : Prop :=
  all_standard cs' /\ yielded `prefix_of` wanted target cs (logs k) /\
  match last yielded with
  | None => cs' = cs /\ last_sequence_number = None
  | Some e => last_sequence_number = Some (se_sequence_number e)
  end.

Lemma scanned_wanted k yielded cs' n :
  scanned k yielded cs' n ->
  wanted target cs (logs k) = yielded ++ wanted target (next_constraints n cs') (logs k).
Proof.
  intros (Hcs' & [more Hmore] & Hlast). destruct (last yielded) as [e|] eqn:El.
  - subst n. rewrite Hmore. f_equal. symmetry. unfold wanted.
    transitivity (List.filter (fun x => (se_sequence_number e <? se_sequence_number x)%Z)
      (log_of target (logs k))).
    + apply List.filter_ext. intros x. by apply next_constraints_meets.
    + eapply (after_last cs); [done| |exact Hmore|done].
      apply numbers_filter_sorted, (gr_sorted _ _ _ Hgrowing).
  - destruct Hlast as [-> ->]. apply last_None in El as ->. done.
Qed.

Lemma scan_loop_spec fuel k yielded cs' n :
  scanned k yielded cs' n -> bound < fuel + length yielded ->
  exists m more, wanted target cs (logs m) = yielded ++ more /\
    scan_loop settings fuel servers k target cs' n = Some (gen_of more).
Proof.
  revert k yielded cs' n. induction fuel as [|fuel IH]; intros k yielded cs' n Hscanned Hfuel.
  { exfalso. destruct Hscanned as (_ & Hp & _). apply prefix_length in Hp.
    pose proof (wanted_length k). cbn in Hfuel. lia. }
  cbn [scan_loop]. pose proof (scanned_wanted _ _ _ _ Hscanned) as Hw.
  destruct Hscanned as (Hcs' & Hprefix & Hlast).
  pose proof (next_constraints_standard n cs' Hcs') as Hnext.
  rewrite (scan_page_spec (servers k)) by (try apply (gr_live _ _ _ Hgrowing); done || lia).
  rewrite (gr_rows _ _ _ Hgrowing).
  set (rest := wanted target (next_constraints n cs') (logs k)) in *.
  set (page := take (Z.to_nat page_size) rest).
  destruct (decide (Z.of_nat (length page) = page_size)) as [Hfull|Hpart].
  - rewrite bool_decide_eq_true_2 by done.
    assert (exists e, last page = Some e) as [e He].
    { apply last_is_Some. intros Hnil. rewrite Hnil in Hfull. cbn in Hfull. lia. }
    destruct (IH (Datatypes.S k) (yielded ++ page) (next_constraints n cs')
      (last_number page n)) as (m & more & Hm & E).
    + split; [done|]. split.
      * etrans; [|apply wanted_prefix, (gr_prefix _ _ _ Hgrowing)].
        rewrite Hw. exists (drop (Z.to_nat page_size) rest). unfold page.
        by rewrite <-app_assoc, take_drop.
      * rewrite last_app, He. unfold last_number. by rewrite He.
    + rewrite length_app. lia.
    + exists m, (page ++ more). rewrite Hm, app_assoc. split; [done|]. rewrite E. done.
  - rewrite bool_decide_eq_false_2 by done. exists k, page. split.
    + rewrite Hw. unfold page. rewrite take_ge; [done|].
      unfold page in Hpart. rewrite length_take in Hpart. lia.
    + cbn. by rewrite app_nil_r.
Qed.
End growing.

(** C8. A scan of Postgres for the log, or for a category or stream whose names are neither
    empty nor hold a zero character, with pages of at least one event (with pages of none it does
    not end, see [scan_never_ends]), under the constraints the adapter knows by default: it ends,
    and yields exactly the events of its target that meet the constraints, each once and in the
    order of their sequence numbers, however many pages it takes: those of the log as it stood when
    some page of the scan was read. So it is when other connections append events between the pages,
    as long as their numbers continue the log's, as they do under the lock that serialises the log,
    and the log stays shorter than some bound. *)
Theorem scan_yields_log servers logs bound target cs fuel :
  growing servers logs bound -> scans target = true ->
  (forall c, c ∈ cs -> standard_constraint c = true) -> (1 <= page_size)%Z -> bound < fuel ->
  exists k, scan settings fuel servers target cs = Some (gen_of (wanted target cs (logs k))).
Proof.
  intros Hg Ht Hcs Hsize Hfuel. unfold scan. assert (all_standard cs) as Hcs' by by apply Forall_forall.
  destruct (scan_loop_spec servers logs bound Hg target Ht cs Hcs' Hsize fuel 0 [] cs None)
    as (m & more & Hm & E).
  - split; [done|]. split; [apply prefix_nil|done].
  - cbn. lia.
  - exists m. by rewrite E, Hm.
Qed.

(** A page size of zero: every page is full, and the loop never ends. *)
Lemma scan_never_ends servers target cs fuel :
  (forall k, sv_live (servers k)) -> scans target = true -> all_standard cs -> page_size = 0%Z ->
  scan settings fuel servers target cs = None.
Proof.
  intros Hlive Ht Hcs Hsize. unfold scan. generalize 0 at 1. revert cs Hcs.
  induction fuel as [|fuel IH]; intros cs Hcs k; [done|]. cbn [scan_loop next_constraints].
  rewrite scan_page_spec by (done || lia). rewrite Hsize. cbn. by rewrite IH.
Qed.
End scanning.

(** A category whose name is empty is scanned as the whole log. *)
Lemma scan_empty_name {S} (settings : AdapterSettings S) cs n :
  scan_query (as_constraint_converter settings) (as_table_name settings)
    (mkScanParameters (CategoryIdentifier "") cs n) =
  scan_query (as_constraint_converter settings) (as_table_name settings)
    (mkScanParameters LogIdentifier cs n).
Proof. reflexivity. Qed.
