(* ===== verification/PostgresStore.v ===== *)
(** The Postgres adapter as an adapter: an instance of the interface of
    [store/adapters/base.py] that keeps its contract, so that what is proved of the event
    store over any adapter holds of the event store on Postgres. *)
From S2P Require Import Prelude Values Conversion Events Conditions EventsDB MemoryAdapter.
From S2P Require Import Sources Store PostgresQuery PostgresQueryTheory PostgresConditions.
From S2P Require Import PostgresServer PostgresAdapter PostgresAdapterTheory PostgresInsert.
From S2P Require Import PostgresSaving PostgresScan.

Section postgres_store.
Context `{Psycopg} `{UserCode} `{SetOrder} {S : Type} `{EventsServer S} (uuid4 : nat -> string).
Context (settings : AdapterSettings S) (Hlaws : EventsServerLaws (as_table_name settings)).
Context (constraint_registry : gmap string (QueryConstraint -> res pg.QueryApplier)).
Context (condition_registry : gmap string (pg.ConditionConverter S)).
Context (Hconstraints : as_constraint_converter settings =
  pg.with_default_constraint_converters constraint_registry).
Context (Hconditions : as_condition_converter settings =
  pg.with_default_condition_converters condition_registry).
Context (Hquiet : quiet_registry condition_registry).
Context (Hsize : (1 <= as_scan_query_page_size settings)%Z).
Context (uuid4_inj : Inj (=) (=) uuid4) (uuid4_text : forall n, text_storable (uuid4 n) = true).

(** A scan reads at most one page for each row, and one more. *)
Definition PostgresEventStorageAdapter : EventStorageAdapter (PostgresState S) := {|
  ea_save_stream := save_to_stream uuid4 settings;
  ea_save_category := save_to_category uuid4 settings;
  ea_latest := fun st target => (latest settings target st).1;
  ea_scan := fun st target constraints =>
    default (gen_of []) (scan settings (Datatypes.S (length (sv_rows (ps_server st))))
      (fun _ => ps_server st) target constraints)
|}.

Lemma latest_holds st log target :
  pg_holds uuid4 st log -> scannable target = true -> storable_target target = true ->
  (latest settings target st).1 = Ok (last (log_of target log)).
Proof.
  intros Hst Ht Hs. unfold latest, with_connection.
  by destruct (read_last_spec uuid4 settings st log target Hst Ht Hs) as (st' & -> & _).
Qed.

Lemma scan_holds st log target cs :
  pg_holds uuid4 st log -> scans target = true ->
  (forall c, c ∈ cs -> standard_constraint c = true) ->
  scan settings (Datatypes.S (length (sv_rows (ps_server st)))) (fun _ => ps_server st) target cs =
  Some (gen_of (List.filter (meets constraint_holds cs) (log_of target log))).
Proof.
  intros Hst Ht Hcs. rewrite (ph_rows _ _ _ Hst).
  destruct (scan_loop_spec settings constraint_registry Hconstraints (fun _ => ps_server st)
    (fun _ => log) (length log)) with (target := target) (cs := cs) (cs' := cs) (k := 0)
    (fuel := Datatypes.S (length log)) (yielded := @nil StoredEvent) (n := @None Z)
    as (m & more & Hm & E); try done.
  - split; try done; intros _; apply Hst.
  - by apply Forall_forall.
  - split; [by apply Forall_forall|]. split; [apply prefix_nil|done].
  - cbn. lia.
  - unfold scan. rewrite E. cbn in Hm. by rewrite <-Hm.
Qed.

(** Targets are read back when their names are neither empty nor hold a zero character. *)
Definition addresses (target : EventSourceIdentifier) : bool :=
  named target && storable_target target.

#[refine] Instance PostgresEventStorageAdapter_contract
    : AdapterContract (PostgresState S) (H0 := PostgresEventStorageAdapter) :=
  {| ea_holds := pg_holds uuid4; ea_addresses := addresses; ea_accepts := accepts |}.
Proof.
  - done.
  - intros c s events condition st log r st' Hst [_ Hs]%andb_true_iff Hacc Hrun.
    assert (Forall (payload_kept sv_jsonb) events) as Hkept.
    { eapply Forall_impl; [apply (accepts_each _ _ _ _ Hacc)|]. intros ev Hev. apply Hev. }
    pose proof (save_to_stream_cases uuid4 settings condition_registry Hconditions Hquiet c s events
      condition st log r st' Hst Hs Hkept Hrun) as Hcases.
    destruct r as [raws|]; [|done]. destruct Hcases as (new & Hst' & Hbatch).
    exists new. split_and!; [done..|]. by apply sorted_app_later, (ph_sorted _ _ _ Hst').
  - intros c s events condition st log Hst [_ Hs]%andb_true_iff.
    by apply (pg_save_to_stream_unmet uuid4 settings condition_registry).
  - intros c s events condition st log Hst [_ Hs]%andb_true_iff Hacc Hstd _ Hsat.
    by apply (pg_save_to_stream_met uuid4 settings condition_registry) with log.
  - intros st log t Hst Ht [_ Hs]%andb_true_iff. by apply latest_holds.
  - intros st log t cs Hst Ht [Hn Hs]%andb_true_iff Hcs. cbn -[scan].
    rewrite (scan_holds st log); [done|done| |done]. unfold scans. by rewrite Ht, Hn, Hs.
Defined.
End postgres_store.
