(* ===== verification/PostgresReference.v ===== *)
(** A server that parses the statements of [PostgresServer] and keeps the laws of
    [EventsServer], on a table "events"; and what is proved of any such server, on it. *)
From S2P Require Import Prelude Values Conversion Events Conditions EventsDB MemoryAdapter.
From S2P Require Import PostgresQuery PostgresQueryTheory PostgresConditions PostgresServer.
From S2P Require Import PostgresAdapter PostgresAdapterTheory PostgresInsert PostgresSaving.
From S2P Require Import PostgresCategory PostgresScan Sources Store PostgresStore.

#[global] Existing Instance double_quotes.

Module reference_server.
Record Server := mkServer {
  rs_rows : list StoredEvent;
  rs_committed : list StoredEvent;
  rs_live : bool
}.
Definition empty_server : Server := mkServer [] [] true.
Definition events_table : string := "events".

(** ** Parsing *)

(** The kinds of conditions, by how they are written. *)
Definition condition_spellings : list (string * (Param -> option EventCondition)) :=
  let category p := match p with PValue (VStr s) => Some (InCategory s) | _ => None end in
  let stream p := match p with PValue (VStr s) => Some (InStream s) | _ => None end in
  let after p := match p with PValue (VInt n) => Some (AfterNumber n) | _ => None end in
  [(condition_text false (InCategory ""), category); (condition_text true (InCategory ""), category);
   (condition_text false (InStream ""), stream); (condition_text true (InStream ""), stream);
   (condition_text false (AfterNumber 0), after); (condition_text true (AfterNumber 0), after)].

Fixpoint parse_spelling (spellings : list (string * (Param -> option EventCondition)))
    (text : string) (p : Param) : option (EventCondition * string) :=
  match spellings with
  | [] => None
  | (spelling, read) :: rest =>
      match strip_prefix spelling text with
      | Some text' => c ← read p; Some (c, text')
      | None => parse_spelling rest text p
      end
  end.

Fixpoint parse_conditions (text : string) (params : list Param)
    : option (list EventCondition * string * list Param) :=
  match params with
  | [] => None
  | p :: params' =>
      parsed ← parse_spelling condition_spellings text p;
      match strip_prefix " AND " parsed.2 with
      | None => Some ([parsed.1], parsed.2, params')
      | Some text' =>
          more ← parse_conditions text' params';
          Some (parsed.1 :: more.1.1, more.1.2, more.2)
      end
  end.

(** From the [ORDER BY] on. *)
Definition parse_order (conditions : list EventCondition) (text : string) (params : list Param)
    : option Statement :=
  let ending quoted descending :=
    (" ORDER BY " +:+ column_text quoted "sequence_number" +:+
     (if descending : bool then " DESC" else "") +:+ " LIMIT %s")%string in
  match params with
  | [PValue (VInt n)] =>
      if String.eqb text (ending false true) || String.eqb text (ending true true)
      then Some (SelectEvents false conditions true n)
      else if String.eqb text (ending false false) || String.eqb text (ending true false)
      then Some (SelectEvents false conditions false n)
      else None
  | _ => None
  end.

Definition parse_select (text : string) (params : list Param) : option Statement :=
  match strip_prefix " WHERE " text with
  | Some text' =>
      parsed ← parse_conditions text' params; parse_order parsed.1.1 parsed.1.2 parsed.2
  | None => parse_order [] text params
  end.

Definition str_of (p : Param) : option string :=
  match p with PValue (VStr s) => Some s | _ => None end.
Definition int_of (p : Param) : option Z :=
  match p with PValue (VInt n) => Some n | _ => None end.

Fixpoint rows_of (params : list Param) : option (list NewRow) :=
  match params with
  | [] => Some []
  | PValue (VStr id) :: PValue (VStr name) :: PValue (VStr stream) :: PValue (VStr category) ::
      PValue (VInt position) :: PJsonb payload :: PDateTime observed :: PDateTime occurred ::
      rest =>
      cons (mkRow id name stream category position payload observed occurred) <$> rows_of rest
  | _ => None
  end.

(** The other statements a list of parameters can be for. *)
Definition candidates (params : list Param) : list Statement :=
  omap id [
    match mapM str_of params with Some (c :: ss) => Some (SelectLatest c ss) | _ => None end;
    match mapM int_of params with Some (k :: ks) => Some (ObtainLocks (k :: ks)) | _ => None end;
    InsertEvents <$> rows_of params;
    match params with [] => Some SelectOne | _ => None end].

Definition select_prefix : string := "SELECT * FROM " +:+ quote_identifier events_table.

Definition parse (text : string) (params : list Param) : option Statement :=
  match strip_prefix select_prefix text with
  | Some text' => parse_select text' params
  | None => List.find (fun st => String.eqb text (statement_text events_table st)) (candidates params)
  end.

(** ** Running *)

Definition syntax_error : Exn := UserError "SyntaxError".

(** The row of highest position of a stream. *)
Definition highest (rows : list StoredEvent) : option StoredEvent :=
  foldl (fun best e => match best with
    | Some b => if (se_position b <=? se_position e)%Z then Some e else best
    | None => Some e
    end) None rows.

Definition latest_of (rows : list StoredEvent) (category stream : string) : option StoredEvent :=
  highest (select_events [InCategory category; InStream stream] rows).

Definition next_number (s : Server) : Z :=
  (1 + foldr Z.max 0 (numbers_of (rs_committed s ++ rs_rows s)))%Z.

Definition new_events (first : Z) (rows : list NewRow) : list StoredEvent :=
  imap (fun i row => row_event row (nr_payload row) (first + Z.of_nat i)) rows.

Definition fail (s : Server) : res (list StoredEvent) * Server :=
  (Raise syntax_error, mkServer (rs_rows s) (rs_committed s) false).

Definition ids_free (rows : list NewRow) (events : list StoredEvent) : bool :=
  bool_decide (NoDup (nr_id <$> rows)) &&
  forallb (fun row => bool_decide (nr_id row ∉ (se_id <$> events))) rows.

Definition run (statement : Statement) (s : Server) : res (list StoredEvent) * Server :=
  match statement with
  | SelectEvents _ conditions descending n =>
      if (n <? 0)%Z then fail s
      else (Ok (take (Z.to_nat n) ((if descending then reverse else id)
        (select_events conditions (rs_rows s)))), s)
  | SelectLatest _ [] | InsertEvents [] => fail s
  | SelectLatest category streams =>
      (Ok (omap (latest_of (rs_rows s) category) (remove_dups streams)), s)
  | InsertEvents rows =>
      if (max_parameters <? 8 * Z.of_nat (length rows))%Z || negb (ids_free rows (rs_rows s))
      then fail s
      else let stored := new_events (next_number s) rows in
        (Ok stored, mkServer (rs_rows s ++ stored) (rs_committed s) (rs_live s))
  | ObtainLocks _ | SelectOne => (Ok [], s)
  end.

#[global] Instance server : EventsServer Server := {|
  sv_execute := fun text params s =>
    match parse text params with Some statement => run statement s | None => fail s end;
  sv_commit := fun s => mkServer (rs_rows s) (rs_rows s) (rs_live s);
  sv_rollback := fun s => mkServer (rs_committed s) (rs_committed s) true;
  sv_rows := rs_rows;
  sv_committed := rs_committed;
  sv_live := fun s => rs_live s = true;
  sv_jsonb := Some
|}.

(** ** The parser reads what is written *)

Definition no_and (text : string) : Prop := strip_prefix " AND " text = None.

Lemma parse_spelling_text quoted c text :
  parse_spelling condition_spellings (condition_text quoted c +:+ text) (condition_param c) =
  Some (c, text).
Proof. destruct c, quoted; reflexivity. Qed.

Lemma parse_conditions_text quoted c cs text params :
  no_and text ->
  parse_conditions (separated " AND " (condition_text quoted <$> c :: cs) +:+ text)
    ((condition_param <$> c :: cs) ++ params) = Some (c :: cs, text, params).
Proof.
  intros Htext. revert c. induction cs as [|c' cs IH]; intros c.
  - change (parse_conditions (condition_text quoted c +:+ text) (condition_param c :: params) =
      Some ([c], text, params)).
    cbn [parse_conditions]. rewrite parse_spelling_text. cbn [mbind option_bind snd].
    by rewrite Htext.
  - set (more := (separated " AND " (condition_text quoted <$> c' :: cs) +:+ text)%string).
    transitivity (parse_conditions (condition_text quoted c +:+ " AND " +:+ more)
      (condition_param c :: ((condition_param <$> c' :: cs) ++ params))).
    { f_equal. unfold more. set (l := condition_text quoted <$> c' :: cs).
      change (separated " AND " (condition_text quoted <$> c :: c' :: cs)) with
        (condition_text quoted c +:+ " AND " +:+ separated " AND " l)%string.
      generalize (condition_text quoted c), (separated " AND " l). clear. intros s t.
      induction s as [|a s IH]; [done|]. exact (f_equal (String a) IH). }
    cbn [parse_conditions]. rewrite parse_spelling_text. cbn [mbind option_bind snd fst].
    rewrite strip_prefix_app. unfold more. by rewrite IH.
Qed.

(** What the server makes of the text and parameters of a statement. *)
Definition runs (st : Statement) (s : Server) : res (list StoredEvent) * Server :=
  execute_statement events_table st s.

Lemma parse_order_text quoted cs descending n :
  parse_order cs (" ORDER BY " +:+ column_text quoted "sequence_number" +:+
    (if descending : bool then " DESC" else "") +:+ " LIMIT %s")%string [PInt n] =
  Some (SelectEvents false cs descending n).
Proof. destruct quoted, descending; reflexivity. Qed.

Lemma runs_select quoted cs descending n s :
  runs (SelectEvents quoted cs descending n) s = run (SelectEvents false cs descending n) s.
Proof.
  set (ending := (" ORDER BY " +:+ column_text quoted "sequence_number" +:+
    (if descending then " DESC" else "") +:+ " LIMIT %s")%string).
  assert (no_and ending) as Hending by (by destruct quoted, descending).
  unfold runs, execute_statement. cbn [sv_execute server].
  assert (parse (statement_text events_table (SelectEvents quoted cs descending n))
    (statement_params (SelectEvents quoted cs descending n)) =
    Some (SelectEvents false cs descending n)) as ->; [|done].
  transitivity (parse_select (where_text quoted cs +:+ ending) ((condition_param <$> cs) ++ [PInt n])).
  { done. }
  unfold parse_select. destruct cs as [|c cs].
  - destruct quoted, descending; reflexivity.
  - assert (where_text quoted (c :: cs) +:+ ending =
      " WHERE " +:+ (separated " AND " (condition_text quoted <$> c :: cs) +:+ ending))%string as ->
      by done.
    rewrite strip_prefix_app, parse_conditions_text by done. cbn [mbind option_bind fst snd].
    apply parse_order_text.
Qed.

Lemma mapM_strs ss : mapM str_of (PStr <$> ss) = Some ss.
Proof. induction ss as [|s ss IH]; [done|]. cbn. by rewrite IH. Qed.

Lemma mapM_ints ks : mapM int_of (PInt <$> ks) = Some ks.
Proof. induction ks as [|k ks IH]; [done|]. cbn. by rewrite IH. Qed.

Lemma rows_of_params rows : rows_of (concat (row_params <$> rows)) = Some rows.
Proof. induction rows as [|[] rows IH]; [done|]. cbn in IH |- *. by rewrite IH. Qed.

(** Statements other than selections of events, found among their candidates. *)
Lemma runs_candidate st s :
  strip_prefix select_prefix (statement_text events_table st) = None ->
  head (candidates (statement_params st)) = Some st ->
  runs st s = run st s.
Proof.
  intros Hprefix Hcandidates. unfold runs, execute_statement. cbn [sv_execute server].
  unfold parse. rewrite Hprefix.
  destruct (candidates (statement_params st)) as [|st' rest]; [discriminate|]. cbn in Hcandidates.
  injection Hcandidates as ->. cbn [List.find]. by rewrite String.eqb_refl.
Qed.

Lemma runs_latest category streams s :
  runs (SelectLatest category streams) s = run (SelectLatest category streams) s.
Proof.
  apply runs_candidate; [done|]. unfold candidates. cbn [statement_params].
  change (PStr category :: (PStr <$> streams)) with (PStr <$> category :: streams).
  by rewrite mapM_strs.
Qed.

Lemma runs_insert rows s : runs (InsertEvents rows) s = run (InsertEvents rows) s.
Proof.
  apply runs_candidate; [done|]. unfold candidates. cbn [statement_params].
  rewrite rows_of_params. by destruct rows as [|[] rows].
Qed.

Lemma runs_lock k ks s : runs (ObtainLocks (k :: ks)) s = run (ObtainLocks (k :: ks)) s.
Proof.
  apply runs_candidate; [by destruct ks|]. unfold candidates. cbn [statement_params].
  by rewrite mapM_ints.
Qed.

Lemma runs_one s : runs SelectOne s = run SelectOne s.
Proof. reflexivity. Qed.

(** ** The laws *)

Lemma highest_spec rows :
  match highest rows with
  | Some b => b ∈ rows /\ forall e, e ∈ rows -> (se_position e <= se_position b)%Z
  | None => rows = []
  end.
Proof.
  unfold highest. induction rows as [|e rows IH] using rev_ind; [done|].
  rewrite foldl_app. cbn [foldl]. destruct (foldl _ None rows) as [b|].
  - destruct IH as [Hb Hmax]. destruct (Z.leb_spec (se_position b) (se_position e)).
    + split; [set_solver|]. intros e' [He| ->%list_elem_of_singleton]%elem_of_app; [|lia].
      specialize (Hmax e' He). lia.
    + split; [set_solver|]. intros e' [He| ->%list_elem_of_singleton]%elem_of_app; [auto|lia].
  - subst. split; [set_solver|]. intros e' ->%list_elem_of_singleton. lia.
Qed.

Lemma latest_of_spec rows category stream :
  match latest_of rows category stream with
  | Some b => (b ∈ rows /\ se_category b = category /\ se_stream b = stream) /\
      forall e, e ∈ rows -> se_category e = category -> se_stream e = stream ->
        (se_position e <= se_position b)%Z
  | None => forall e, e ∈ rows -> se_category e = category -> se_stream e <> stream
  end.
Proof.
  assert (forall e, e ∈ select_events [InCategory category; InStream stream] rows <->
    e ∈ rows /\ se_category e = category /\ se_stream e = stream) as Hin.
  { intros e. unfold select_events. rewrite elem_filter. cbn [forallb condition_holds].
    rewrite !andb_true_iff, !bool_decide_eq_true. naive_solver. }
  unfold latest_of. pose proof (highest_spec (select_events [InCategory category; InStream stream] rows))
    as Hspec.
  destruct (highest _) as [b|].
  - destruct Hspec as [Hb Hmax]. split; [by apply Hin|]. intros e He Hc Hs. by apply Hmax, Hin.
  - intros e He Hc Hs. assert (e ∈ @nil StoredEvent) as []%not_elem_of_nil.
    rewrite <- Hspec. by apply Hin.
Qed.

Lemma streams_once rows category streams :
  NoDup streams -> NoDup (se_stream <$> omap (latest_of rows category) streams) /\
  forall e, e ∈ omap (latest_of rows category) streams -> se_stream e ∈ streams.
Proof.
  assert (forall (ss : list string) e, e ∈ omap (latest_of rows category) ss -> se_stream e ∈ ss) as Hin.
  { intros ss e (t & Ht & He)%list_elem_of_omap. pose proof (latest_of_spec rows category t) as Hspec.
    rewrite He in Hspec. by destruct Hspec as [(_ & _ & ->) _]. }
  intros Hnd. split; [|apply Hin].
  induction Hnd as [|t streams Ht Hnd IH]; [constructor|]. cbn.
  pose proof (latest_of_spec rows category t) as Hspec.
  destruct (latest_of rows category t) as [b|]; [|done]. cbn. constructor; [|done].
  destruct Hspec as [(_ & _ & ->) _]. intros (e & -> & He)%list_elem_of_fmap. by apply Ht, Hin.
Qed.

Lemma latest_rows_found rows category streams :
  latest_rows category streams rows (omap (latest_of rows category) (remove_dups streams)).
Proof.
  destruct (streams_once rows category (remove_dups streams)) as [Honce Hin];
    [apply NoDup_remove_dups|].
  split; [done| |].
  - intros e He. split_and!; [..|by apply elem_of_remove_dups, Hin];
      apply list_elem_of_omap in He as (t & Ht & He);
      pose proof (latest_of_spec rows category t) as Hspec; rewrite He in Hspec; naive_solver.
  - intros e He Hc Hs. pose proof (latest_of_spec rows category (se_stream e)) as Hspec.
    destruct (latest_of rows category (se_stream e)) as [b|] eqn:Hb; [|by destruct (Hspec e)].
    destruct Hspec as [(_ & _ & Hstream) Hmax]. exists b. split_and!; [|done|by apply Hmax].
    apply list_elem_of_omap. exists (se_stream e). by rewrite elem_of_remove_dups.
Qed.

Lemma new_events_numbers first rows :
  numbers_of (new_events first rows) = seqZ first (Z.of_nat (length rows)).
Proof.
  unfold numbers_of, new_events. revert first.
  induction rows as [|row rows IH]; intros first; [done|].
  rewrite imap_cons, fmap_cons. cbn [length]. rewrite seqZ_cons by lia.
  f_equal; [cbn; lia|]. rewrite Nat2Z.inj_succ, Z.pred_succ, <- (IH (Z.succ first)).
  f_equal. apply imap_ext. intros i x _. unfold compose. f_equal. lia.
Qed.

Lemma new_events_stored first rows : Forall2 (row_stored Some) rows (new_events first rows).
Proof.
  unfold new_events. revert first. induction rows as [|row rows IH]; intros first; [constructor|].
  rewrite imap_cons. constructor; [by exists (nr_payload row), (first + 0)%Z|].
  specialize (IH (Z.succ first)). erewrite imap_ext; [exact IH|].
  intros i x _. unfold compose. f_equal. lia.
Qed.

Lemma next_number_above s e : e ∈ rs_rows s -> (se_sequence_number e < next_number s)%Z.
Proof.
  intros He. unfold next_number. set (l := numbers_of (rs_committed s ++ rs_rows s)).
  assert (se_sequence_number e ∈ l) as Hl.
  { apply elem_of_numbers. exists e. set_solver. }
  clearbody l. assert (se_sequence_number e <= foldr Z.max 0 l)%Z; [|lia].
  induction Hl as [l|x y l Hl IH]; cbn; lia.
Qed.

Lemma new_events_drawn s rows : numbers_drawn (rs_rows s) (new_events (next_number s) rows).
Proof.
  split.
  - rewrite new_events_numbers. apply seqZ_sorted.
  - intros e e' He He'. pose proof (next_number_above s e He).
    assert (se_sequence_number e' ∈ numbers_of (new_events (next_number s) rows)) as Hn
      by (apply elem_of_numbers; eauto).
    rewrite new_events_numbers, elem_of_seqZ in Hn. lia.
Qed.

Lemma ids_free_spec rows events : new_ids rows events -> ids_free rows events = true.
Proof.
  intros [Hnd Hnew]. unfold ids_free. rewrite andb_true_iff, bool_decide_eq_true. split; [done|].
  apply forallb_forall. intros row Hrow%list_elem_of_In. apply bool_decide_eq_true.
  intros (e & Hid & He)%list_elem_of_fmap. by apply (Hnew row e).
Qed.

Lemma run_insert rows s stored s' :
  run (InsertEvents rows) s = (Ok stored, s') ->
  stored = new_events (next_number s) rows /\
  s' = mkServer (rs_rows s ++ stored) (rs_committed s) (rs_live s).
Proof.
  destruct rows as [|row rows]; [done|]. cbn [run].
  destruct (_ || _); [done|]. intros [= <- <-]. done.
Qed.

Lemma run_uncommitted st s : rs_committed (run st s).2 = rs_committed s.
Proof.
  destruct st as [q cs d n|c [|t ts]|[|r rs]|ks|]; cbn [run]; try done.
  - by destruct (n <? 0)%Z.
  - by destruct (_ || _).
Qed.

#[global] Instance server_laws : EventsServerLaws events_table.
Proof.
  split; cbn [sv_commit sv_rollback sv_rows sv_committed sv_live sv_jsonb server]; intros s.
  - done.
  - done.
  - intros params server. cbn. destruct (parse _ _); [apply run_uncommitted|done].
  - intros quoted cs descending n Hlive Hn _. rewrite runs_select. cbn [run].
    destruct (Z.ltb_spec n 0); [lia|]. by exists s.
  - intros category streams Hlive Hstreams _. rewrite runs_latest.
    destruct streams as [|t ts]; [done|]. eexists _, s. split; [done|].
    split; [done|]. apply latest_rows_found.
  - intros category. rewrite runs_latest. by eexists _, _.
  - intros rows stored s' Hlive. rewrite runs_insert.
    intros [-> ->]%run_insert. split_and!; [done..| |].
    + apply new_events_stored.
    + apply new_events_drawn.
  - intros rows Hlive Hrows Hlen _ Hnew. rewrite runs_insert.
    destruct rows as [|row rows]; [done|]. cbn [run]. rewrite ids_free_spec by done.
    destruct (Z.ltb_spec max_parameters (8 * Z.of_nat (length (row :: rows)))); [lia|].
    by eexists _, _.
  - rewrite runs_insert. by eexists _, _.
  - intros rows Hmany. rewrite runs_insert. destruct rows as [|row rows]; [by eexists _, _|].
    cbn [run]. destruct (Z.ltb_spec max_parameters (8 * Z.of_nat (length (row :: rows)))); [|lia].
    by eexists _, _.
  - intros [|k ks] Hlive Hkeys _; [done|]. rewrite runs_lock. by eexists _, s.
  - intros Hlive. rewrite runs_one. by eexists _, s.
Qed.
End reference_server.

(** ** On the reference server *)
Module examples.
Import reference_server.
#[local] Existing Instance no_user_code.
#[local] Existing Instance insertion_order.

Definition ids (n : nat) : string := Nat.iter n (String.append "f") EmptyString.

Lemma ids_inj : Inj (=) (=) ids.
Proof.
  intros n. induction n as [|n IH]; intros [|m]; [done..|]. intros [= E]. f_equal. by apply IH.
Qed.

Lemma ids_text n : text_storable (ids n) = true.
Proof. induction n as [|n IH]; [done|exact IH]. Qed.

Definition settings : AdapterSettings Server := default_settings.
Definition new_state : PostgresState Server := mkPostgresState 0 empty_server.

Lemma no_converters : quiet_registry (∅ : gmap string (pg.ConditionConverter Server)).
Proof. done. Qed.

Lemma new_state_holds : pg_holds ids new_state [].
Proof. split; try done. - constructor. - by intros ? ?%not_elem_of_nil. Qed.

Lemma kept events : Forall (payload_kept (Some : Val -> option Val)) events.
Proof. by apply Forall_true. Qed.

Lemma order_placed_acceptable : acceptable order_placed.
Proof. split; [by repeat eexists|by intros ? [= <-]|done]. Qed.

Definition stream_saved : res (list StoredEvent) * PostgresState Server :=
  save_to_stream ids settings "orders" "1" [order_placed; order_placed] EmptyStreamCondition
    new_state.

Lemma postgres_save_to_stream_witness :
  exists raws new, stream_saved.1 = Ok raws /\ pg_holds ids stream_saved.2 new /\
    stored_batch "orders" "1" 0 [order_placed; order_placed] raws new /\
    exists m, (save_to_stream ids settings "orders" "1" [order_placed] EmptyStreamCondition
      stream_saved.2).1 = Raise (UnmetWriteConditionError m).
Proof.
  destruct stream_saved as [r st'] eqn:E.
  destruct (postgres_save_to_stream ids settings ∅ eq_refl no_converters ids_inj ids_text
    "orders" "1" [order_placed; order_placed] EmptyStreamCondition new_state [] r st'
    new_state_holds eq_refl (kept _) E) as [Hcases _].
  destruct r as [raws|e]; [|vm_compute in E; discriminate E].
  destruct Hcases as (new & Hnew & Hstored). exists raws, new. split_and!; [done..|].
  destruct (save_to_stream ids settings "orders" "1" [order_placed] EmptyStreamCondition st')
    as [r2 st2] eqn:E2.
  destruct (postgres_save_to_stream ids settings ∅ eq_refl no_converters ids_inj ids_text
    "orders" "1" [order_placed] EmptyStreamCondition st' new r2 st2
    Hnew eq_refl (kept _) E2) as [_ Hcondition].
  specialize (Hcondition eq_refl).
  destruct (satisfied _ _) eqn:Hsat; [exfalso|cbn [snd]; by rewrite E2].
  pose proof (ph_rows _ _ _ Hnew) as Hrows. vm_compute in E. injection E as <- <-.
  cbn in Hrows. subst new. vm_compute in Hsat. discriminate Hsat.
Defined.

Lemma publish_size_bounds_witness :
  is_ok stream_saved.1 = true /\
  is_ok (save_to_stream ids settings "orders" "1" [] EmptyStreamCondition new_state).1 = false.
Proof.
  split.
  - destruct stream_saved as [r st'] eqn:E.
    apply (publish_size_bounds ids settings ∅ eq_refl no_converters ids_inj ids_text "orders" "1"
      [order_placed; order_placed] EmptyStreamCondition new_state [] r st'
      new_state_holds eq_refl eq_refl eq_refl); [done| |exact E|done].
    repeat constructor; apply order_placed_acceptable.
  - destruct (save_to_stream ids settings "orders" "1" [] EmptyStreamCondition new_state)
      as [r st'] eqn:E.
    pose proof (publish_size_bounds ids settings ∅ eq_refl no_converters ids_inj ids_text
      "orders" "1" [] EmptyStreamCondition new_state [] r st'
      new_state_holds eq_refl eq_refl eq_refl) as H.
    destruct H as [[H _] _]; [done|constructor|exact E|].
    cbn [fst]. destruct (is_ok r); [|done]. by destruct (H eq_refl).
Defined.

Definition two_orders : dict string StreamPublishDefinition :=
  [("2"%string, mkDefinition [order_placed] None);
   ("1"%string, mkDefinition [order_placed] (Some EmptyStreamCondition))].

Lemma postgres_save_to_category_witness :
  exists results st' new,
    save_to_category ids settings "orders" two_orders new_state = (Ok results, st') /\
    pg_holds ids st' new /\
    request_saved "orders" [] new results "2" (mkDefinition [order_placed] None).
Proof.
  destruct (save_to_category ids settings "orders" two_orders new_state) as [r st'] eqn:E.
  destruct (postgres_save_to_category ids settings ∅ eq_refl no_converters "orders" two_orders
    new_state [] r st' new_state_holds) as [Hcases _]; [by repeat constructor; set_solver
    |by repeat constructor|by repeat constructor|exact E|].
  destruct r as [results|e]; [|vm_compute in E; discriminate E].
  destruct Hcases as (new & Hnew & Hsaved). exists results, st', new. split_and!; [done..|].
  by apply Hsaved.
Defined.

(** A scan of pages of one event, while another connection appends a second one. *)
Definition paged : AdapterSettings Server :=
  mkSettings LOG 1 "events" (pg.with_default_constraint_converters ∅)
    (pg.with_default_condition_converters ∅) 1000.

Definition two_rows : list StoredEvent :=
  new_events 1 [mkRow "f" "placed" "1" "orders" 0 VNone 0 0;
                mkRow "ff" "paid" "1" "orders" 1 VNone 0 0].
Definition rows_at (k : nat) : list StoredEvent := if k is 0 then take 1 two_rows else two_rows.
Definition server_at (k : nat) : Server := mkServer (rows_at k) (rows_at k) true.

Lemma scan_yields_log_witness :
  scan paged 3 server_at (CategoryIdentifier "orders") [] = Some (gen_of two_rows) /\
  exists k, scan paged 3 server_at (CategoryIdentifier "orders") [] =
    Some (gen_of (wanted (CategoryIdentifier "orders") [] (rows_at k))).
Proof.
  split; [vm_compute; reflexivity|].
  apply (scan_yields_log paged ∅ eq_refl server_at rows_at 2 (CategoryIdentifier "orders") [] 3).
  - split; [done..| | |]; intros [|k]; cbn.
    + repeat constructor.
    + repeat constructor.
    + by exists (drop 1 two_rows).
    + done.
    + lia.
    + lia.
  - done.
  - by intros c ?%not_elem_of_nil.
  - done.
  - lia.
Defined.
End examples.
