(* ===== verification/PostgresTables.v ===== *)
(** A table of a Postgres server as its clients use it: each operation is a transaction on a
    connection of the pool, and sends statements with parameters. [TableServer] and its laws
    say what the statements of a table do; they are given for each table by the text the
    server reads, the parameters, and the effect on the rows. *)
From S2P Require Import Prelude Values Conversion JsonEquivalence.
From S2P Require Import PostgresQuery PostgresQueryTheory PostgresServer.

(** A connection to the server: [tb_rows] are the rows of the table as its transaction sees
    them, in no order, and [tb_committed] those it goes back to; it is [tb_live] when no
    statement of its transaction failed. [tb_jsonb] is what is read of a [jsonb] value that
    was written. *)
Class TableServer (S Row : Type) := {
  tb_execute : string -> list Param -> S -> res (list Row) * S;
  tb_commit : S -> S;
  tb_rollback : S -> S;
  tb_rows : S -> list Row;
  tb_committed : S -> list Row;
  tb_live : S -> Prop;
  tb_jsonb : Val -> Val
}.
Arguments tb_execute {_ _ _} _ _ _.
Arguments tb_commit {_ _ _} _.
Arguments tb_rollback {_ _ _} _.
Arguments tb_rows {_ _ _} _.
Arguments tb_committed {_ _ _} _.
Arguments tb_live {_ _ _} _.

Definition UniqueViolation : Exn := UserError "UniqueViolation".

(** Values that [jsonb] columns hold and give back: null, booleans, integers of 64 bits, strings
    without a zero character, arrays, and objects with each key once. *)
Inductive plain_json : Val -> Prop :=
  | plain_null : plain_json VNone
  | plain_bool b : plain_json (VBool b)
  | plain_int z : (- 2 ^ 63 <= z < 2 ^ 63)%Z -> plain_json (VInt z)
  | plain_string s : text_storable s = true -> plain_json (VStr s)
  | plain_array l : Forall plain_json l -> plain_json (VList l)
  | plain_object kvs :
      NoDup (fst <$> kvs) ->
      Forall (fun kv => text_storable kv.1 = true /\ plain_json kv.2) kvs ->
      plain_json (mk_obj kvs).

(** What a kind of statements on a table is to the server. The effect, given what [jsonb]
    makes of values, is what is returned and the rows then, or [None] where the primary key
    would not be unique. *)
Record TableStatements (Row : Type) := mkStatements {
  Statements : Type;
  ts_text : Statements -> string;
  ts_params : Statements -> list Param;
  ts_storable : Statements -> Prop;
  ts_effect : (Val -> Val) -> Statements -> list Row -> option (list Row * list Row)
}.
Arguments mkStatements {_} _ _ _ _ _.
Arguments Statements {_} _.
Arguments ts_text {_} _ _.
Arguments ts_params {_} _ _.
Arguments ts_storable {_} _ _.
Arguments ts_effect {_} _ _ _ _.

Class TableServerLaws {S Row : Type} `{TableServer S Row} (statements : TableStatements Row) := {
  tl_commit : forall s, tb_live s ->
    tb_live (tb_commit s) /\ tb_rows (tb_commit s) = tb_rows s /\
    tb_committed (tb_commit s) = tb_rows s;
  tl_rollback : forall s,
    tb_live (tb_rollback s) /\ tb_rows (tb_rollback s) = tb_committed s /\
    tb_committed (tb_rollback s) = tb_committed s;
  tl_uncommitted : forall text params s,
    tb_committed (tb_execute text params s).2 = tb_committed s;
  tl_execute : forall statement s,
    tb_live s -> ts_storable statements statement ->
    exists r s',
      tb_execute (ts_text statements statement) (ts_params statements statement) s = (r, s') /\
      match ts_effect statements (tb_jsonb (S := S) (Row := Row)) statement (tb_rows s) with
      | Some (returned, rows) =>
          (exists returned', r = Ok returned' /\ returned' ≡ₚ returned) /\
          tb_live s' /\ tb_rows s' ≡ₚ rows
      | None => r = Raise UniqueViolation
      end;
  tl_jsonb : forall v, plain_json v -> same_json v (tb_jsonb (S := S) (Row := Row) v)
}.

(** ** Transactions *)
Section transactions.
Context `{Psycopg} {S Row : Type} `{TableServer S Row}.

Definition table_execute (query : ParameterisedQuery) : ST S (list Row) :=
  tb_execute (as_string query.1) query.2.

(** [async with connection_pool.connection()]. *)
Definition table_connection {A} (body : ST S A) : ST S A := fun s =>
  match body s with
  | (Ok a, s') => (Ok a, tb_commit s')
  | (Raise e, s') => (Raise e, tb_rollback s')
  end.

Context (statements : TableStatements Row) {Hlaws : TableServerLaws statements}.
Abbreviation jsonb := (tb_jsonb (S := S) (Row := Row)).

(** Between transactions: what is seen is what is committed. *)
Record at_rest (s : S) (rows : list Row) : Prop := {
  ar_live : tb_live s;
  ar_rows : tb_rows s ≡ₚ rows;
  ar_committed : tb_committed s = tb_rows s
}.

(** In a transaction: it started from [before], and sees [rows]. *)
Record in_transaction (s : S) (before rows : list Row) : Prop := {
  it_live : tb_live s;
  it_rows : tb_rows s ≡ₚ rows;
  it_committed : tb_committed s ≡ₚ before
}.

Lemma at_rest_perm s rows rows' : rows ≡ₚ rows' -> at_rest s rows -> at_rest s rows'.
Proof. intros Hp [Hl Hr Hc]. split; [done| |done]. by rewrite Hr. Qed.

Lemma in_transaction_perm s before rows rows' :
  rows ≡ₚ rows' -> in_transaction s before rows -> in_transaction s before rows'.
Proof. intros Hp [Hl Hr Hc]. split; [done| |done]. by rewrite Hr. Qed.

Lemma begin_transaction s rows : at_rest s rows -> in_transaction s rows rows.
Proof. intros [Hl Hr Hc]. split; [done..|]. by rewrite Hc. Qed.

(** A transaction by the outcome of its body. *)
Lemma table_connection_spec {A} (body : ST S A) s rows r s' :
  at_rest s rows ->
  (forall r1 s1, body s = (r1, s1) ->
    (tb_committed s1 ≡ₚ rows) /\ (is_ok r1 = true -> tb_live s1)) ->
  table_connection body s = (r, s') ->
  match r with
  | Ok a => exists s1, body s = (Ok a, s1) /\ at_rest s' (tb_rows s1)
  | Raise e => (exists s1, body s = (Raise e, s1)) /\ at_rest s' rows
  end.
Proof.
  intros Hs Hbody. unfold table_connection. destruct (body s) as [r1 s1] eqn:E.
  destruct (Hbody r1 s1 eq_refl) as [Hc Hl]. destruct r1 as [a|e]; intros [= <- <-].
  - exists s1. split; [done|]. destruct (tl_commit (statements := statements) s1) as (? & Hr & ?);
      [by apply Hl|]. split; [done|by rewrite Hr|congruence].
  - split; [by exists s1|]. destruct (tl_rollback (statements := statements) s1) as (? & Hr & ?).
    split; [done| |congruence]. by rewrite Hr.
Qed.

(** One statement of a transaction. *)
Lemma table_execute_spec query statement s before rows :
  as_string query.1 = ts_text statements statement -> query.2 = ts_params statements statement ->
  in_transaction s before rows -> ts_storable statements statement ->
  exists r s', table_execute query s = (r, s') /\ tb_committed s' ≡ₚ before /\
    match ts_effect statements jsonb statement (tb_rows s) with
    | Some (returned, rows') =>
        (exists returned', r = Ok returned' /\ returned' ≡ₚ returned) /\
        in_transaction s' before rows'
    | None => r = Raise UniqueViolation
    end.
Proof.
  intros Ht Hp [Hl Hr Hc] Hst. unfold table_execute. rewrite Ht, Hp.
  destruct (tl_execute statement s Hl Hst) as (r & s' & E & Heff).
  pose proof (tl_uncommitted (statements := statements) (ts_text statements statement)
    (ts_params statements statement) s) as Hun. rewrite E in Hun. cbn in Hun.
  exists r, s'. split; [done|]. split; [by rewrite Hun|].
  destruct (ts_effect _ _ _ _) as [[returned rows']|]; [|done].
  destruct Heff as (Hret & Hl' & Hr'). split; [done|]. split; [done..|]. by rewrite Hun.
Qed.

(** A transaction of one statement whose result is not looked at. *)
Lemma one_statement_spec query statement s rows :
  as_string query.1 = ts_text statements statement -> query.2 = ts_params statements statement ->
  at_rest s rows -> ts_storable statements statement ->
  match ts_effect statements jsonb statement (tb_rows s) with
  | Some (returned, rows') => exists returned' s',
      table_connection (table_execute query) s = (Ok returned', s') /\
      returned' ≡ₚ returned /\ at_rest s' rows'
  | None => exists s', table_connection (table_execute query) s = (Raise UniqueViolation, s') /\
      at_rest s' rows
  end.
Proof.
  intros Ht Hp Hs Hst.
  destruct (table_execute_spec query statement s rows rows Ht Hp (begin_transaction _ _ Hs) Hst)
    as (r1 & s1 & E & Hc & Heff).
  destruct (table_connection (table_execute query) s) as [r s'] eqn:Ec.
  apply (table_connection_spec _ _ rows) in Ec; [|done|].
  2: { intros r2 s2. rewrite E. intros [= <- <-]. split; [done|]. intros Hok.
       destruct (ts_effect _ _ _ _) as [[returned rows']|]; [by apply Heff|by subst]. }
  destruct (ts_effect _ _ _ _) as [[returned rows']|].
  - destruct Heff as ((returned' & -> & Hret) & Hin).
    destruct r as [a|e]; [|destruct Ec as [[? Ec] _]; congruence].
    destruct Ec as (s2 & Ec & Hrest). rewrite E in Ec. injection Ec as <- <-.
    exists returned', s'. split; [done|]. split; [done|].
    eapply at_rest_perm; [|exact Hrest]. apply Hin.
  - subst. destruct r as [a|e]; [destruct Ec as (? & Ec & _); congruence|].
    destruct Ec as [[s2 Ec] Hrest]. rewrite E in Ec. injection Ec as <- _. by exists s'.
Qed.

(** The same for a caller that ignores what is returned, with an effect that is total. *)
Lemma write_spec query statement s rows returned rows' :
  as_string query.1 = ts_text statements statement -> query.2 = ts_params statements statement ->
  at_rest s rows -> ts_storable statements statement ->
  ts_effect statements jsonb statement (tb_rows s) = Some (returned, rows') ->
  exists s', table_connection (_ ← table_execute query; mret ()) s = (Ok (), s') /\
    at_rest s' rows'.
Proof.
  intros Ht Hp Hs Hst Heff. pose proof (one_statement_spec query statement s rows Ht Hp Hs Hst) as H1.
  rewrite Heff in H1. destruct H1 as (returned' & s' & E & _ & Hrest). exists s'. split; [|done].
  revert E. unfold table_connection, mbind, ST_bind, mret, ST_ret.
  destruct (table_execute query s) as [[a|e] s1]; [|done]. by intros [= _ <-].
Qed.

(** A transaction that reads: what is made of the rows returned, whatever their order. *)
Lemma read_outcome {A} query statement s rows returned (f : list Row -> res A) :
  as_string query.1 = ts_text statements statement -> query.2 = ts_params statements statement ->
  at_rest s rows -> ts_storable statements statement ->
  ts_effect statements jsonb statement (tb_rows s) = Some (returned, tb_rows s) ->
  exists returned' s',
    table_connection (rows ← table_execute query; st_lift (f rows)) s = (f returned', s') /\
    returned' ≡ₚ returned /\ at_rest s' rows.
Proof.
  intros Ht Hp Hs Hst Heff.
  destruct (table_execute_spec query statement s rows rows Ht Hp (begin_transaction _ _ Hs) Hst)
    as (r & s1 & E & Hc & Hr). rewrite Heff in Hr. destruct Hr as ((returned' & -> & Hret) & Hin).
  set (body := (rows ← table_execute query; st_lift (f rows)) : ST S A).
  assert (body s = (f returned', s1)) as Eb by (unfold body, mbind, ST_bind, st_lift; by rewrite E).
  destruct (table_connection body s) as [r s'] eqn:Erun.
  apply (table_connection_spec _ _ rows) in Erun;
    [|done|rewrite Eb; intros ?? [= <- <-]; split; [done|intros _; apply Hin]].
  exists returned', s'. rewrite Eb in Erun.
  destruct r as [a|e]; [destruct Erun as (s2 & [= -> <-] & Hrest)|
    destruct Erun as ((s2 & [= -> _]) & Hrest)]; (split; [done|]; split; [done|]); [|done].
  eapply at_rest_perm; [|exact Hrest]. rewrite (it_rows _ _ _ Hin). apply Hs.
Qed.

Lemma read_spec {A} query statement s rows returned (f : list Row -> res A) (P : A -> Prop) :
  as_string query.1 = ts_text statements statement -> query.2 = ts_params statements statement ->
  at_rest s rows -> ts_storable statements statement ->
  ts_effect statements jsonb statement (tb_rows s) = Some (returned, tb_rows s) ->
  (forall returned', returned' ≡ₚ returned -> exists a, f returned' = Ok a /\ P a) ->
  exists a s', table_connection (rows ← table_execute query; st_lift (f rows)) s = (Ok a, s') /\
    P a /\ at_rest s' rows.
Proof.
  intros Ht Hp Hs Hst Heff Hf.
  destruct (read_outcome query statement s rows returned f Ht Hp Hs Hst Heff)
    as (returned' & s' & E & Hret & Hrest).
  destruct (Hf returned' Hret) as (a & Ea & Ha). rewrite Ea in E. by exists a, s'.
Qed.
End transactions.

(** ** Rows by key *)
Section keyed.
Context {Key Row : Type} `{EqDecision Key} (key_of : Row -> Key).
Implicit Types (rows : list Row) (k : Key).

Definition row_of rows k : option Row := List.find (fun r => bool_decide (key_of r = k)) rows.

Definition with_key k rows : list Row := List.filter (fun r => bool_decide (key_of r = k)) rows.
Definition without_key k rows : list Row :=
  List.filter (fun r => negb (bool_decide (key_of r = k))) rows.
Definition update_rows k (f : Row -> Row) rows : list Row :=
  (fun r => if decide (key_of r = k) then f r else r) <$> rows.

Lemma row_of_Some rows k r : row_of rows k = Some r -> r ∈ rows /\ key_of r = k.
Proof.
  intros [Hin Hk]%List.find_some. split; [by apply list_elem_of_In|].
  by apply bool_decide_eq_true in Hk.
Qed.

Lemma row_of_None rows k : row_of rows k = None <-> k ∉ key_of <$> rows.
Proof.
  unfold row_of. induction rows as [|r rows IH]; cbn; [split; [by intros _ ?%not_elem_of_nil|done]|].
  rewrite not_elem_of_cons. case_bool_decide; naive_solver.
Qed.

Lemma row_of_elem rows r :
  NoDup (key_of <$> rows) -> r ∈ rows -> row_of rows (key_of r) = Some r.
Proof.
  intros Hnd Hr. unfold row_of. induction Hr as [r rows|r x rows Hr IH]; cbn in *.
  - by rewrite bool_decide_eq_true_2.
  - apply NoDup_cons in Hnd as [Hx Hnd]. rewrite bool_decide_eq_false_2; [by apply IH|].
    intros Heq. apply Hx. rewrite Heq. by apply list_elem_of_fmap_2.
Qed.

Lemma row_of_perm rows rows' k :
  NoDup (key_of <$> rows) -> rows ≡ₚ rows' -> row_of rows k = row_of rows' k.
Proof.
  intros Hnd Hp. destruct (row_of rows' k) as [r|] eqn:E.
  - apply row_of_Some in E as [Hr <-]. apply row_of_elem; [done|]. by rewrite Hp.
  - apply row_of_None in E. apply row_of_None. by rewrite Hp.
Qed.

Lemma row_of_app rows r k :
  row_of (rows ++ [r]) k =
  match row_of rows k with
  | Some x => Some x
  | None => if decide (key_of r = k) then Some r else None
  end.
Proof.
  unfold row_of. induction rows as [|x rows IH]; cbn; repeat case_decide; repeat case_bool_decide;
    done.
Qed.

Lemma row_of_filter (keep : Row -> bool) rows k :
  NoDup (key_of <$> rows) ->
  row_of (List.filter keep rows) k = (r ← row_of rows k; if keep r then Some r else None).
Proof.
  intros Hnd. unfold row_of. induction rows as [|r rows IH]; cbn; [done|].
  cbn in Hnd. apply NoDup_cons in Hnd as [Hr Hnd]. specialize (IH Hnd).
  destruct (keep r) eqn:Ek; cbn; case_bool_decide as Hk; cbn; rewrite ?Ek; [done..| |done].
  subst. apply row_of_None. intros (x & Hx & [Hin _]%elem_filter)%list_elem_of_fmap.
  apply Hr. rewrite Hx. by apply list_elem_of_fmap_2.
Qed.

Lemma row_of_without rows k0 k :
  row_of (without_key k0 rows) k = if decide (k = k0) then None else row_of rows k.
Proof.
  unfold row_of, without_key. induction rows as [|r rows IH]; cbn; [by case_decide|].
  case_decide as Hk; case_bool_decide; cbn; [|case_bool_decide|case_bool_decide|case_bool_decide];
    try done; congruence.
Qed.

Lemma row_of_update rows k0 f k :
  (forall r, key_of (f r) = key_of r) ->
  row_of (update_rows k0 f rows) k = if decide (k = k0) then f <$> row_of rows k else row_of rows k.
Proof.
  intros Hf. unfold row_of, update_rows. induction rows as [|r rows IH]; cbn; [by case_decide|].
  destruct (decide (key_of r = k0)) as [Hr|Hr]; rewrite ?Hf; case_bool_decide as Hk;
    case_decide; try done; congruence.
Qed.

Lemma update_rows_keys rows k f :
  (forall r, key_of (f r) = key_of r) -> key_of <$> update_rows k f rows = key_of <$> rows.
Proof.
  intros Hf. unfold update_rows. rewrite <-list_fmap_compose. apply list_fmap_ext.
  intros _ r _. unfold compose. case_decide; [apply Hf|done].
Qed.

Lemma app_keys_NoDup rows r :
  NoDup (key_of <$> rows) -> row_of rows (key_of r) = None -> NoDup (key_of <$> rows ++ [r]).
Proof.
  intros Hnd Hr%row_of_None. rewrite fmap_app. apply NoDup_app. split_and!; [done| |apply NoDup_singleton].
  intros k Hk ->%list_elem_of_singleton. done.
Qed.

Lemma with_key_nil rows k : with_key k rows = [] <-> row_of rows k = None.
Proof.
  unfold with_key, row_of. induction rows as [|r rows IH]; cbn; [done|]. by case_bool_decide.
Qed.

Lemma with_key_perm rows rows' k : rows ≡ₚ rows' -> with_key k rows ≡ₚ with_key k rows'.
Proof.
  unfold with_key. induction 1; cbn; repeat case_bool_decide; try done; try by constructor.
  by etrans.
Qed.
End keyed.

(** ** Identifiers in [jsonb] columns *)
Section identifiers.
Context `{UserCode}.

(** Those of the log, categories and streams, without zero characters. *)
Definition identifier_storable (i : EventSourceIdentifier) : bool :=
  match i with
  | LogIdentifier => true
  | CategoryIdentifier category => text_storable category
  | StreamIdentifier category stream => text_storable category && text_storable stream
  | _ => false
  end.

Definition serialised_identifiers (ids : list EventSourceIdentifier) : Val :=
  VList (serialise_identifier <$> ids).

Lemma plain_identifiers ids :
  Forall (fun i => identifier_storable i = true) ids -> plain_json (serialised_identifiers ids).
Proof.
  intros Hids. apply plain_array, Forall_fmap. eapply Forall_impl; [exact Hids|].
  intros [| |c| |c s] Hi; cbn in Hi; try done; try apply andb_true_iff in Hi as [? ?];
    apply plain_object;
    solve [apply (bool_decide_unpack _); reflexivity|by repeat constructor].
Qed.

(** Entries of strings. *)
Definition string_entries (kvs : list (string * string)) : list (Val * Val) :=
  (fun kv => (VStr kv.1, VStr kv.2)) <$> kvs.

(** The same object has the same entries, in some order. *)
Lemma same_entries kvs v :
  same_json (VDict (string_entries kvs)) v ->
  exists kvs', v = VDict (string_entries kvs') /\ kvs' ≡ₚ kvs.
Proof.
  intros Hv. inversion Hv as [|?|? d d' Hd Hp]; subst; [by exists kvs|].
  symmetry in Hp.
  assert (d' = string_entries kvs) as ->.
  { clear Hv Hp. revert d' Hd.
    induction kvs as [|[k s] kvs IH]; intros d'; cbn;
      inversion 1 as [|? [k' v'] ? e [Hk Hs] He]; [done|]; subst.
    cbn in *. apply same_string in Hs. subst. f_equal. by apply IH. }
  apply Permutation_map_inv in Hp as (kvs' & -> & Hp). by exists kvs'.
Qed.

Lemma obj_get_perm kvs kvs' key :
  NoDup (fst <$> kvs) -> kvs ≡ₚ kvs' ->
  obj_get (string_entries kvs') key = obj_get (string_entries kvs) key.
Proof.
  unfold string_entries. intros Hnd Hp.
  revert Hnd. induction Hp as [|[k v] l l' _ IH|[k v] [k' v'] l|l l1 l2 Hp1 IH1 Hp2 IH2]; cbn.
  - done.
  - intros [_ Hnd]%NoDup_cons. case_decide; [done|by apply IH].
  - intros [Hk _]%NoDup_cons. repeat case_decide; subst; try done.
    by destruct Hk; left.
  - intros Hnd. rewrite IH2; [by apply IH1|by rewrite <-Hp1].
Qed.

(** Objects of strings are equal when they have the same entries. *)
Lemma string_entries_eqb kvs kvs' :
  NoDup (fst <$> kvs) -> py_eqb (VDict (string_entries kvs)) (VDict (string_entries kvs')) = true ->
  kvs ≡ₚ kvs'.
Proof.
  intros Hnd. cbn [py_eqb]. unfold string_entries.
  rewrite !length_fmap, andb_true_iff, Nat.eqb_eq, forallb_forall. intros [Hlen Hin].
  apply NoDup_Permutation_bis; [by eapply NoDup_ListNoDup, NoDup_fmap_1|lia|].
  intros [k v] Hkv. specialize (Hin (VStr k, VStr v)). cbn in Hin.
  assert (In (VStr k, VStr v) ((fun kv : string * string => (VStr kv.1, VStr kv.2)) <$> kvs)) as Hx.
  { by apply (in_map (fun kv : string * string => (VStr kv.1, VStr kv.2)) kvs (k, v)). }
  apply Hin, existsb_exists in Hx as ([k' v'] & Hx & Heq).
  apply in_map_iff in Hx as ([k2 v2] & [= <- <-] & Hx). cbn in Heq.
  apply andb_true_iff in Heq as [->%bool_decide_eq_true ->%bool_decide_eq_true]. done.
Qed.

Lemma string_entries_eqb_perm kvs kvs' :
  kvs ≡ₚ kvs' -> py_eqb (VDict (string_entries kvs)) (VDict (string_entries kvs')) = true.
Proof.
  intros Hp. cbn [py_eqb]. unfold string_entries.
  rewrite !length_fmap, (Permutation_length Hp), Nat.eqb_refl. cbn.
  apply forallb_forall. intros x ([k v] & <- & Hx)%in_map_iff. cbn.
  apply existsb_exists. exists (VStr k, VStr v). split.
  - apply in_map_iff. exists (k, v). split; [done|]. by rewrite <-Hp.
  - cbn. by rewrite !bool_decide_eq_true_2.
Qed.

Lemma identifier_entries i :
  identifier_storable i = true ->
  exists kvs, NoDup (fst <$> kvs) /\ serialise_identifier i = VDict (string_entries kvs).
Proof.
  intros Hi. destruct i as [| |c| |c s]; try done;
    [exists [("type"%string, "log"%string)]
    |exists [("type"%string, "category"%string); ("category"%string, c)]
    |exists [("type"%string, "stream"%string); ("category"%string, c); ("stream"%string, s)]];
    (split; [apply (bool_decide_unpack _); reflexivity|done]).
Qed.

Lemma read_identifier i v :
  identifier_storable i = true -> same_json (serialise_identifier i) v ->
  event_sequence_identifier v = Ok i.
Proof.
  intros Hi Hv. assert (sequence_identifier i = true) as Hseq by by destruct i.
  transitivity (event_sequence_identifier (serialise_identifier i));
    [|by rewrite event_sequence_identifier_roundtrip, Hseq].
  destruct (identifier_entries i Hi) as (kvs & Hnd & E). rewrite E in *.
  apply same_entries in Hv as (kvs' & -> & Hp). cbn [event_sequence_identifier].
  by rewrite !(obj_get_perm kvs kvs').
Qed.

(** Identifiers that were written are equal when what is read of them is. *)
Lemma identifiers_eqb i j v w :
  identifier_storable i = true -> identifier_storable j = true ->
  same_json (serialise_identifier i) v -> same_json (serialise_identifier j) w ->
  py_eqb v w = bool_decide (i = j).
Proof.
  intros Hi Hj Hv Hw. assert (event_sequence_identifier v = Ok i) as Ei by by apply read_identifier.
  destruct (identifier_entries i Hi) as (kvs & Hnd & E). rewrite E in Hv.
  apply same_entries in Hv as (l & -> & Hl). symmetry. case_bool_decide as Hij.
  - subst j. rewrite E in Hw. apply same_entries in Hw as (l' & -> & Hl').
    symmetry. apply string_entries_eqb_perm. by rewrite Hl, Hl'.
  - destruct (identifier_entries j Hj) as (kvs' & Hnd' & E'). rewrite E' in Hw.
    apply same_entries in Hw as (l' & -> & Hl').
    destruct (py_eqb _ _) eqn:Eq; [|done]. destruct Hij.
    apply string_entries_eqb in Eq; [|by rewrite Hl].
    enough (event_sequence_identifier (VDict (string_entries l)) = Ok j) by congruence.
    apply read_identifier; [done|]. rewrite E'.
    apply same_object with (string_entries kvs').
    + apply Forall_Forall2_diag, Forall_true. by split.
    + unfold string_entries. by rewrite Eq, Hl'.
Qed.

(** What is read of identifiers that were written. *)
Lemma read_identifiers ids v :
  Forall (fun i => identifier_storable i = true) ids -> same_json (serialised_identifiers ids) v ->
  exists l, v = VList l /\ mapM event_sequence_identifier l = Ok ids.
Proof.
  intros Hids Hv. inversion Hv as [|? l Hl|]; subst.
  - eexists. split; [done|]. apply res_mapM_Ok. clear Hv.
    induction Hids as [|i ids Hi _ IH]; cbn; constructor; [|done].
    apply read_identifier; [done|apply same_value].
  - eexists. split; [done|]. apply res_mapM_Ok. clear Hv. revert l Hl.
    induction Hids as [|i ids Hi _ IH]; intros l Hl; inversion Hl; subst; constructor.
    + by apply read_identifier.
    + by apply IH.
Qed.
End identifiers.

(** ** A server of one table

    It finds the statement of a text among candidates that parameters can be for. *)
Module reference_table.
Section reference.
Context {Row : Type} (statements : TableStatements Row).
Context (candidates : list Param -> list (Statements statements)).

Record Table := mkTable {
  rt_rows : list Row;
  rt_committed : list Row;
  rt_live : bool
}.
Definition new_table : Table := mkTable [] [] true.

Definition parse (text : string) (params : list Param) : option (Statements statements) :=
  List.find (fun st => String.eqb text (ts_text statements st)) (candidates params).

Definition fail (e : Exn) (t : Table) : res (list Row) * Table :=
  (Raise e, mkTable (rt_rows t) (rt_committed t) false).

Definition run (text : string) (params : list Param) (t : Table) : res (list Row) * Table :=
  match parse text params with
  | None => fail (UserError "SyntaxError") t
  | Some statement =>
      match ts_effect statements id statement (rt_rows t) with
      | None => fail UniqueViolation t
      | Some (returned, rows) => (Ok returned, mkTable rows (rt_committed t) (rt_live t))
      end
  end.

#[export] Instance table : TableServer Table Row := {|
  tb_execute := run;
  tb_commit := fun t => mkTable (rt_rows t) (rt_rows t) (rt_live t);
  tb_rollback := fun t => mkTable (rt_committed t) (rt_committed t) true;
  tb_rows := rt_rows;
  tb_committed := rt_committed;
  tb_live := fun t => rt_live t = true;
  tb_jsonb := id
|}.

Context (candidates_parse : forall statement, ts_storable statements statement ->
  parse (ts_text statements statement) (ts_params statements statement) = Some statement).

Lemma table_laws : TableServerLaws statements.
Proof.
  split; cbn [tb_execute tb_commit tb_rollback tb_rows tb_committed tb_live table].
  - done.
  - done.
  - intros text params t. unfold run. destruct (parse text params); [|done].
    by destruct (ts_effect _ _ _ _) as [[]|].
  - intros statement t Ht Hst. unfold run. rewrite candidates_parse by done.
    destruct (ts_effect _ _ _ _) as [[returned rows]|]; do 2 eexists; (split; [done|]); [|done].
    split; [by exists returned|done].
  - intros v _. apply same_value.
Qed.
End reference.
Arguments mkTable {_} _ _ _.
Arguments new_table {_}.
End reference_table.
