(* ===== verification/PostgresSubscribers.v ===== *)
(** The store of subscriber states in a Postgres table
    ([processing/broker/strategies/distributed/subscribers/stores/state/postgres.py]), and
    that it is a store of subscriber states like the one in memory. *)
From Stdlib Require Import Ascii.
From S2P Require Import Prelude Values Conversion JsonEquivalence Query BrokerState SubscriberManager.
From S2P Require Import PostgresQuery PostgresQueryTheory PostgresConverters PostgresServer.
From S2P Require Import PostgresTables.

(** A row of the table: [subscription_requests] is a [jsonb] column. *)
Record SubscriberRow := mkSubscriberRow {
  sr_group : string;
  sr_id : string;
  sr_node_id : string;
  sr_subscription_requests : Val;
  sr_last_seen : Z
}.

Definition row_key (row : SubscriberRow) : EventKey := mkKey (sr_group row) (sr_id row).

(** A datetime among the values of a query. *)
Definition datetime (t : Z) : Val := VObj (mkObj "datetime" t).

(** The column [group] as the source quotes it. *)
Definition group_column : string := 
  String "034"%char ("group" +:+ String "034"%char EmptyString).

Module pg_subscribers.
Section store.
Context `{Psycopg} `{UserCode} (table_name node_id : string).

(** [Jsonb] of [subscription_request.serialise()] for each. *)
Definition serialised_requests (subscriber : EventSubscriberState) : Val :=
  VList (serialise_identifier <$> ss_requests subscriber).

Definition insert_query (subscriber : EventSubscriberState) : ParameterisedQuery :=
  ([SQL "
            INSERT INTO "; Identifier table_name; SQL (" (" +:+ group_column +:+ ",
                             id,
                             node_id,
                             subscription_requests,
                             last_seen)
            VALUES (%s, %s, %s, %s, %s)
            ON CONFLICT (" +:+ group_column +:+ ", id)
                DO
            UPDATE
                SET (subscription_requests, last_seen) = ROW (%s, %s);
            ")],
   [PStr (ss_group subscriber); PStr (ss_id subscriber); PStr (ss_node_id subscriber);
    PJsonb (serialised_requests subscriber); PDateTime (ss_last_seen subscriber);
    PJsonb (serialised_requests subscriber); PDateTime (ss_last_seen subscriber)]).

Definition delete_query (key : EventKey) : ParameterisedQuery :=
  ([SQL "
            DELETE
            FROM "; Identifier table_name; SQL ("
            WHERE " +:+ group_column +:+ " = %s
              AND id = %s
                RETURNING *;
            ")],
   [PStr (key_group key); PStr (key_id key)]).

Definition heartbeat_query (subscriber : EventSubscriberState) : ParameterisedQuery :=
  ([SQL "
            UPDATE "; Identifier table_name; SQL ("
            SET last_seen = %s
            WHERE " +:+ group_column +:+ " = %s
              AND id = %s
                RETURNING *;
            ")],
   [PDateTime (ss_last_seen subscriber); PStr (ss_group subscriber); PStr (ss_id subscriber)]).

Definition purge_query (cutoff_time : Z) : ParameterisedQuery :=
  ([SQL "
            DELETE
            FROM "; Identifier table_name; SQL "
            WHERE last_seen <= %s;
            "],
   [PDateTime cutoff_time]).

(** [PostgresEventSubscriberStateStore] *)
Context {S : Type} `{TableServer S SubscriberRow}.

(** The converter it has when it is given none. *)
Definition query_converter : DelegatingQueryConverter :=
  with_default_query_converters table_name
    (with_default_clause_converters table_name empty_converter).

Definition add (now : Z) (subscriber : EventSubscriber) : ST S () :=
  table_connection (
    _ ← table_execute (insert_query (seen node_id now subscriber));
    mret ()).

Definition remove (subscriber : EventSubscriber) : ST S () :=
  table_connection (_ ← table_execute (delete_query (es_key subscriber)); mret ()).

Definition list_filters (subscriber_group : option string)
    (max_time_since_last_seen : option Z) (now : Z) : list Clause :=
  match subscriber_group with
  | Some group => [FilterClause EQUAL (path "group" []) (VStr group)]
  | None => []
  end ++
  match max_time_since_last_seen with
  | Some age => [FilterClause GREATER_THAN (path "last_seen" []) (datetime (now - age))]
  | None => []
  end.

(** The state of a row; what is read of its requests is the list that was written. *)
Definition row_state (row : SubscriberRow) : res EventSubscriberState :=
  requests ← match sr_subscription_requests row with
    | VList requests => mapM event_sequence_identifier requests
    | _ => Raise TypeError
    end;
  Ok (mkSubscriberState (sr_group row) (sr_id row) (sr_node_id row) requests (sr_last_seen row)).

Definition list_ (subscriber_group : option string) (max_time_since_last_seen : option Z)
    (now : Z) : ST S (list EventSubscriberState) :=
  query ← st_lift (convert_query query_converter
    (Search (list_filters subscriber_group max_time_since_last_seen now) None None));
  table_connection (
    subscriber_state_dicts ← table_execute query;
    st_lift (mapM row_state subscriber_state_dicts)).

Definition heartbeat (now : Z) (subscriber : EventSubscriber) : ST S () :=
  table_connection (
    _ ← table_execute (heartbeat_query (seen node_id now subscriber));
    mret ()).

Definition purge (max_time_since_last_seen now : Z) : ST S () :=
  table_connection (_ ← table_execute (purge_query (now - max_time_since_last_seen)); mret ()).
End store.
End pg_subscribers.

(** ** The statements of the table *)

Inductive SubscriberStatement :=
  (** The row, or its requests and when it was last seen if its key is there. *)
  | UpsertSubscriber (row : SubscriberRow)
  | DeleteSubscriber (key : EventKey)
  | TouchSubscriber (key : EventKey) (last_seen : Z)
  | PurgeSubscribers (cutoff : Z)
  | SelectSubscribers (group : option string) (after : option Z).

Section statements.
Context `{Psycopg} (table_name : string).

Definition subscriber_text (statement : SubscriberStatement) : string :=
  match statement with
  | UpsertSubscriber _ => "
            INSERT INTO " +:+ quote_identifier table_name +:+ " (" +:+ group_column +:+ ",
                             id,
                             node_id,
                             subscription_requests,
                             last_seen)
            VALUES (%s, %s, %s, %s, %s)
            ON CONFLICT (" +:+ group_column +:+ ", id)
                DO
            UPDATE
                SET (subscription_requests, last_seen) = ROW (%s, %s);
            "
  | DeleteSubscriber _ => "
            DELETE
            FROM " +:+ quote_identifier table_name +:+ "
            WHERE " +:+ group_column +:+ " = %s
              AND id = %s
                RETURNING *;
            "
  | TouchSubscriber _ _ => "
            UPDATE " +:+ quote_identifier table_name +:+ "
            SET last_seen = %s
            WHERE " +:+ group_column +:+ " = %s
              AND id = %s
                RETURNING *;
            "
  | PurgeSubscribers _ => "
            DELETE
            FROM " +:+ quote_identifier table_name +:+ "
            WHERE last_seen <= %s;
            "
  | SelectSubscribers group after =>
      "SELECT * FROM " +:+ quote_identifier table_name +:+
      match group, after with
      | None, None => EmptyString
      | Some _, None => " WHERE " +:+ quote_identifier "group" +:+ " = %s"
      | None, Some _ => " WHERE " +:+ quote_identifier "last_seen" +:+ " > %s"
      | Some _, Some _ => " WHERE " +:+ quote_identifier "group" +:+ " = %s AND " +:+
          quote_identifier "last_seen" +:+ " > %s"
      end
  end%string.

Definition subscriber_params (statement : SubscriberStatement) : list Param :=
  match statement with
  | UpsertSubscriber row =>
      let requests := PJsonb (sr_subscription_requests row) in
      [PStr (sr_group row); PStr (sr_id row); PStr (sr_node_id row); requests;
       PDateTime (sr_last_seen row); requests; PDateTime (sr_last_seen row)]
  | DeleteSubscriber key => [PStr (key_group key); PStr (key_id key)]
  | TouchSubscriber key t => [PDateTime t; PStr (key_group key); PStr (key_id key)]
  | PurgeSubscribers cutoff => [PDateTime cutoff]
  | SelectSubscribers group after =>
      from_option (fun g => [PStr g]) [] group ++
      from_option (fun t => [PValue (datetime t)]) [] after
  end.

Definition key_storable (key : EventKey) : Prop :=
  text_storable (key_group key) = true /\ text_storable (key_id key) = true.

Definition subscriber_storable (statement : SubscriberStatement) : Prop :=
  match statement with
  | UpsertSubscriber row =>
      key_storable (row_key row) /\ text_storable (sr_node_id row) = true /\
      plain_json (sr_subscription_requests row)
  | DeleteSubscriber key | TouchSubscriber key _ => key_storable key
  | PurgeSubscribers _ => True
  | SelectSubscribers group _ => from_option (fun g => text_storable g = true) True group
  end.

Definition touched (last_seen : Z) (row : SubscriberRow) : SubscriberRow :=
  mkSubscriberRow (sr_group row) (sr_id row) (sr_node_id row) (sr_subscription_requests row)
    last_seen.
Definition updated (requests : Val) (last_seen : Z) (row : SubscriberRow) : SubscriberRow :=
  mkSubscriberRow (sr_group row) (sr_id row) (sr_node_id row) requests last_seen.

Definition subscriber_effect (jsonb : Val -> Val) (statement : SubscriberStatement)
    (rows : list SubscriberRow) : option (list SubscriberRow * list SubscriberRow) :=
  match statement with
  | UpsertSubscriber row =>
      let requests := jsonb (sr_subscription_requests row) in
      Some ([], if row_of row_key rows (row_key row)
        then update_rows row_key (row_key row) (updated requests (sr_last_seen row)) rows
        else rows ++ [updated requests (sr_last_seen row) row])
  | DeleteSubscriber key => Some (with_key row_key key rows, without_key row_key key rows)
  | TouchSubscriber key t =>
      let rows' := update_rows row_key key (touched t) rows in
      Some (with_key row_key key rows', rows')
  | PurgeSubscribers cutoff =>
      Some ([], List.filter (fun row => negb (sr_last_seen row <=? cutoff)%Z) rows)
  | SelectSubscribers group after =>
      Some (List.filter (fun row =>
        from_option (fun g => bool_decide (sr_group row = g)) true group &&
        from_option (fun t => (t <? sr_last_seen row)%Z) true after) rows, rows)
  end.

Definition subscriber_statements : TableStatements SubscriberRow :=
  mkStatements SubscriberStatement subscriber_text subscriber_params subscriber_storable
    subscriber_effect.
End statements.

(** ** The store keeps its promise *)
Section laws.
Context `{Psycopg} `{UserCode} (table_name node_id : string).
Context {S : Type} `{Hserver : TableServer S SubscriberRow}.
Context {Hlaws : TableServerLaws (subscriber_statements table_name)}.
Context (node_id_text : text_storable node_id = true).

#[export] Instance PostgresEventSubscriberStateStore : EventSubscriberStateStore S := {|
  sb_add := pg_subscribers.add table_name node_id;
  sb_remove := pg_subscribers.remove table_name;
  sb_list := pg_subscribers.list_ table_name;
  sb_heartbeat := pg_subscribers.heartbeat table_name node_id;
  sb_purge := pg_subscribers.purge table_name
|}.

Definition row_for (subscriber : EventSubscriberState) : SubscriberRow :=
  mkSubscriberRow (ss_group subscriber) (ss_id subscriber) (ss_node_id subscriber)
    (pg_subscribers.serialised_requests subscriber) (ss_last_seen subscriber).

Lemma insert_subscriber_text subscriber :
  let query := pg_subscribers.insert_query table_name subscriber in
  as_string query.1 = subscriber_text table_name (UpsertSubscriber (row_for subscriber)) /\
  query.2 = subscriber_params (UpsertSubscriber (row_for subscriber)).
Proof. done. Qed.

Lemma delete_subscriber_text key :
  let query := pg_subscribers.delete_query table_name key in
  as_string query.1 = subscriber_text table_name (DeleteSubscriber key) /\
  query.2 = subscriber_params (DeleteSubscriber key).
Proof. done. Qed.

Lemma heartbeat_subscriber_text subscriber :
  let query := pg_subscribers.heartbeat_query table_name subscriber in
  let statement := TouchSubscriber (subscriber_key subscriber) (ss_last_seen subscriber) in
  as_string query.1 = subscriber_text table_name statement /\
  query.2 = subscriber_params statement.
Proof. done. Qed.

Lemma purge_subscribers_text cutoff :
  let query := pg_subscribers.purge_query table_name cutoff in
  as_string query.1 = subscriber_text table_name (PurgeSubscribers cutoff) /\
  query.2 = subscriber_params (PurgeSubscribers cutoff).
Proof. done. Qed.

Lemma list_subscribers_text group age now :
  let statement := SelectSubscribers group ((fun a => now - a)%Z <$> age) in
  exists query,
    convert_query (pg_subscribers.query_converter table_name)
      (Search (pg_subscribers.list_filters group age now) None None) = Ok query /\
    as_string query.1 = subscriber_text table_name statement /\
    query.2 = subscriber_params statement.
Proof.
  destruct group, age; (eexists; split; [reflexivity|]); split; reflexivity.
Qed.

(** *** What the table holds *)

Abbreviation jsonb := (tb_jsonb (S := S) (Row := SubscriberRow)).

Definition readable (row : SubscriberRow) : Prop :=
  key_storable (row_key row) /\ exists requests, Forall (fun i => identifier_storable i = true) requests /\
    same_json (serialised_identifiers requests) (sr_subscription_requests row).

Definition rows_seen (rows : list SubscriberRow) (key : EventKey) : option Z :=
  sr_last_seen <$> row_of row_key rows key.

Record table_holds (s : S) : Prop := {
  th_rest : at_rest s (tb_rows s);
  th_keys : NoDup (row_key <$> tb_rows s);
  th_readable : Forall readable (tb_rows s)
}.

(** Keys that text columns hold, and requests for the log, categories or streams. *)
Record table_accepts (subscriber : EventSubscriber) : Prop := {
  ta_key : key_storable (es_key subscriber);
  ta_requests : Forall (fun i => identifier_storable i = true) (es_requests subscriber)
}.

(** What is read from a row: its key and its requests can be written again. *)
Definition state_storable (state : EventSubscriberState) : Prop :=
  key_storable (subscriber_key state) /\
  Forall (fun i => identifier_storable i = true) (ss_requests state).

Lemma rest_holds s rows :
  at_rest s rows -> NoDup (row_key <$> rows) -> Forall readable rows ->
  table_holds s /\ forall key, rows_seen (tb_rows s) key = rows_seen rows key.
Proof.
  intros [Hl Hr Hc] Hnd Hread. split.
  - split; [by split|by rewrite Hr|by rewrite Hr].
  - intros key. unfold rows_seen. symmetry. by rewrite (row_of_perm row_key rows (tb_rows s)).
Qed.

Definition rows_after (statement : SubscriberStatement) (rows : list SubscriberRow)
    : list SubscriberRow := from_option snd [] (subscriber_effect jsonb statement rows).

(** An operation that is one statement. *)
Lemma write_holds query statement s :
  as_string query.1 = subscriber_text table_name statement ->
  query.2 = subscriber_params statement -> table_holds s ->
  subscriber_storable statement ->
  NoDup (row_key <$> rows_after statement (tb_rows s)) ->
  Forall readable (rows_after statement (tb_rows s)) ->
  exists s', table_connection (_ ← table_execute query; mret ()) s = (Ok (), s') /\
    table_holds s' /\
    forall key, rows_seen (tb_rows s') key = rows_seen (rows_after statement (tb_rows s)) key.
Proof.
  intros Ht Hp Hs Hst Hnd Hread.
  assert (exists returned, subscriber_effect jsonb statement (tb_rows s) =
    Some (returned, rows_after statement (tb_rows s))) as [returned E]
    by by destruct statement; eexists.
  destruct (write_spec (subscriber_statements table_name) query statement s (tb_rows s) returned
    _ Ht Hp (th_rest s Hs) Hst E) as (s' & Erun & Hrest).
  exists s'. split; [done|]. by apply rest_holds.
Qed.

Lemma update_readable key f rows :
  (forall row, readable row -> readable (f row)) -> Forall readable rows ->
  Forall readable (update_rows row_key key f rows).
Proof.
  intros Hf Hrows. unfold update_rows. apply Forall_fmap. eapply Forall_impl; [exact Hrows|].
  intros row Hrow. unfold compose. case_decide; auto.
Qed.

Lemma filter_readable keep rows : Forall readable rows -> Forall readable (List.filter keep rows).
Proof. rewrite !Forall_forall. intros Hrows row [Hrow _]%elem_filter. by apply Hrows. Qed.

Lemma seen_row now subscriber :
  row_key (row_for (seen node_id now subscriber)) = es_key subscriber.
Proof. apply (seen_key node_id now). Qed.

Lemma add_holds now subscriber s :
  table_holds s -> table_accepts subscriber ->
  exists s', pg_subscribers.add table_name node_id now subscriber s = (Ok (), s') /\
    table_holds s' /\ forall key, rows_seen (tb_rows s') key =
      if decide (key = es_key subscriber) then Some now else rows_seen (tb_rows s) key.
Proof.
  intros Hs Hacc. unfold pg_subscribers.add.
  set (row := row_for (seen node_id now subscriber)).
  assert (row_key row = es_key subscriber) as Hkey by apply seen_row.
  set (requests := jsonb (sr_subscription_requests row)).
  assert (plain_json (sr_subscription_requests row)) as Hplain.
  { apply (plain_identifiers (es_requests subscriber)), Hacc. }
  assert (forall row', key_storable (row_key row') -> readable (updated requests now row')) as Hrow.
  { intros row' Hk. split; [done|]. exists (es_requests subscriber). split; [apply Hacc|].
    apply (tl_jsonb (statements := subscriber_statements table_name) _ Hplain). }
  destruct (insert_subscriber_text (seen node_id now subscriber)) as [Ht Hp].
  destruct (write_holds _ _ s Ht Hp Hs) as (s' & E & Hs' & Hseen).
  - split_and!; [|done|done]. fold row. rewrite Hkey. apply Hacc.
  - unfold rows_after; cbn [subscriber_effect from_option snd]. fold row.
    destruct (row_of row_key (tb_rows s) (row_key row)) eqn:E.
    + rewrite update_rows_keys by done. apply Hs.
    + apply app_keys_NoDup; [apply Hs|done].
  - unfold rows_after; cbn [subscriber_effect from_option snd]. fold row.
    destruct (row_of _ _ _).
    + apply update_readable; [|apply Hs]. intros row' [Hk _]. by apply Hrow.
    + apply Forall_app. split; [apply Hs|]. constructor; [|done]. apply Hrow. rewrite Hkey.
      apply Hacc.
  - exists s'. split; [done|]. split; [done|]. intros key. rewrite Hseen.
    unfold rows_after; cbn [subscriber_effect from_option snd]. fold row. unfold rows_seen.
    destruct (row_of row_key (tb_rows s) (row_key row)) eqn:Er.
    + rewrite row_of_update by done. rewrite Hkey. case_decide; [|done].
      subst key. by rewrite <-Hkey, Er.
    + rewrite row_of_app. change (row_key (updated _ _ row)) with (row_key row).
      rewrite Hkey in *. destruct (row_of row_key (tb_rows s) key) eqn:Ek.
      * rewrite decide_False; [done|]. intros ->. congruence.
      * by repeat case_decide.
Qed.

Lemma remove_holds subscriber s :
  table_holds s -> table_accepts subscriber ->
  exists s', pg_subscribers.remove table_name subscriber s = (Ok (), s') /\
    table_holds s' /\ forall key, rows_seen (tb_rows s') key =
      if decide (key = es_key subscriber) then None else rows_seen (tb_rows s) key.
Proof.
  intros Hs Hacc. destruct (delete_subscriber_text (es_key subscriber)) as [Ht Hp].
  destruct (write_holds _ _ s Ht Hp Hs) as (s' & E & Hs' & Hseen).
  - apply Hacc.
  - apply filter_keys_NoDup, Hs.
  - apply filter_readable, Hs.
  - exists s'. split; [done|]. split; [done|]. intros key. rewrite Hseen. unfold rows_seen.
    unfold rows_after; cbn [subscriber_effect from_option snd].
    rewrite row_of_without. by case_decide.
Qed.

Lemma heartbeat_holds now subscriber s :
  table_holds s -> table_accepts subscriber ->
  exists s', pg_subscribers.heartbeat table_name node_id now subscriber s = (Ok (), s') /\
    table_holds s' /\ forall key, rows_seen (tb_rows s') key =
      if decide (key = es_key subscriber) then (fun _ => now) <$> rows_seen (tb_rows s) key
      else rows_seen (tb_rows s) key.
Proof.
  intros Hs Hacc. destruct (heartbeat_subscriber_text (seen node_id now subscriber)) as [Ht Hp].
  destruct (write_holds _ _ s Ht Hp Hs) as (s' & E & Hs' & Hseen).
  - cbn. rewrite seen_key. apply Hacc.
  - unfold rows_after; cbn [subscriber_effect from_option snd].
    rewrite update_rows_keys by done. apply Hs.
  - apply update_readable; [done|apply Hs].
  - exists s'. split; [done|]. split; [done|]. intros key. rewrite Hseen. unfold rows_seen.
    unfold rows_after; cbn [subscriber_effect from_option snd].
    rewrite row_of_update by done. rewrite seen_key. case_decide; [|done].
    by destruct (row_of _ _ key).
Qed.

Lemma purge_holds age now s :
  table_holds s ->
  exists s', pg_subscribers.purge table_name age now s = (Ok (), s') /\
    table_holds s' /\ forall key, rows_seen (tb_rows s') key =
      (t ← rows_seen (tb_rows s) key; if (t <=? now - age)%Z then None else Some t).
Proof.
  intros Hs. destruct (purge_subscribers_text (now - age)) as [Ht Hp].
  destruct (write_holds _ _ s Ht Hp Hs) as (s' & E & Hs' & Hseen).
  - done.
  - apply filter_keys_NoDup, Hs.
  - apply filter_readable, Hs.
  - exists s'. split; [done|]. split; [done|]. intros key. rewrite Hseen. unfold rows_seen.
    unfold rows_after; cbn [subscriber_effect from_option snd].
    rewrite row_of_filter by apply Hs. destruct (row_of _ _ key) as [row|]; [|done]. cbn.
    by destruct (_ <=? _)%Z.
Qed.

Lemma read_rows rows :
  Forall readable rows ->
  exists l, mapM pg_subscribers.row_state rows = Ok l /\ Forall state_storable l /\
    subscriber_key <$> l = row_key <$> rows.
Proof.
  induction 1 as [|row rows (Hkey & requests & Hrequests & Hrow) _ (l & E & Hl & Hk)];
    [by exists []|].
  destruct (read_identifiers requests _ Hrequests Hrow) as (values & Hvalues & Eids).
  set (state := mkSubscriberState (sr_group row) (sr_id row) (sr_node_id row) requests
    (sr_last_seen row)).
  assert (pg_subscribers.row_state row = Ok state) as Estate.
  { unfold pg_subscribers.row_state. by rewrite Hvalues, Eids. }
  exists (state :: l). cbn [mapM]. rewrite Estate. cbn [mbind res_bind]. rewrite E.
  split; [done|]. split; [by constructor|]. by rewrite !fmap_cons, Hk.
Qed.

Lemma elem_rows_seen rows key t :
  NoDup (row_key <$> rows) ->
  rows_seen rows key = Some t <-> exists row, row ∈ rows /\ row_key row = key /\ sr_last_seen row = t.
Proof.
  intros Hnd. unfold rows_seen. rewrite fmap_Some. split.
  - intros (row & Hrow%row_of_Some & ->). naive_solver.
  - intros (row & Hrow & <- & <-). exists row. split; [by apply row_of_elem|done].
Qed.

Lemma subscribers_listed group age now s :
  table_holds s -> from_option (fun g => text_storable g = true) True group ->
  exists l s', pg_subscribers.list_ table_name group age now s = (Ok l, s') /\ table_holds s' /\
    (forall key, rows_seen (tb_rows s') key = rows_seen (tb_rows s) key) /\
    Forall state_storable l /\ NoDup (subscriber_key <$> l) /\
    forall key, key ∈ subscriber_key <$> l <->
      exists t, rows_seen (tb_rows s) key = Some t /\ shown group age now key t = true.
Proof.
  intros Hs Hg. destruct (list_subscribers_text group age now) as (query & Eq & Ht & Hp).
  set (shown_row := fun row : SubscriberRow => shown group age now (row_key row) (sr_last_seen row)).
  destruct (read_spec (subscriber_statements table_name) query _ s (tb_rows s) _
    (mapM pg_subscribers.row_state)
    (fun l => Forall state_storable l /\
      subscriber_key <$> l ≡ₚ row_key <$> List.filter shown_row (tb_rows s))
    Ht Hp (th_rest s Hs) Hg eq_refl) as (l & s' & E & [Hstorable Hl] & Hrest).
  { intros rows Hrows. assert (rows ≡ₚ List.filter shown_row (tb_rows s)) as Hperm.
    { rewrite Hrows. erewrite List.filter_ext; [reflexivity|]. intros row. by destruct group, age. }
    destruct (read_rows rows) as (l & El & Hst & Hl).
    - rewrite Hperm. apply filter_readable, Hs.
    - exists l. split; [done|]. split; [done|]. by rewrite Hl, Hperm. }
  destruct (rest_holds s' (tb_rows s)) as [Hs' Hseen]; [done|apply Hs..|].
  exists l, s'. split_and!; [|done..| |].
  - unfold pg_subscribers.list_. unfold mbind at 1, ST_bind at 1. unfold st_lift at 1. by rewrite Eq.
  - rewrite Hl. apply filter_keys_NoDup, Hs.
  - intros key. rewrite Hl. rewrite list_elem_of_fmap. setoid_rewrite elem_filter.
    setoid_rewrite elem_rows_seen; [|apply Hs..]. unfold shown_row. naive_solver.
Qed.

#[export, refine] Instance PostgresEventSubscriberStateStore_laws : SubscriberStoreLaws S := {|
  sb_holds := table_holds;
  sb_accepts := table_accepts;
  sb_groups := fun group => text_storable group = true;
  sb_kept := state_storable;
  sb_seen := fun s => rows_seen (tb_rows s)
|}.
Proof.
  - intros now subscriber s. apply add_holds.
  - intros subscriber s. apply remove_holds.
  - intros now subscriber s. apply heartbeat_holds.
  - intros age now s Hs. destruct (purge_holds age now s Hs) as (s' & E & Hs' & Hseen).
    exists s'. split_and!; [done..|]. intros key. rewrite Hseen.
    destruct (rows_seen _ key) as [t|]; [|by left]. cbn.
    destruct (Z.leb_spec t (now - age)); [right; eauto|by left].
  - intros group age now s. apply subscribers_listed.
Defined.

(** C15. The store on Postgres and the one in memory agree on the subscribers that both can
    hold: those that request the log, categories and streams but no partitions, with names, groups
    and ids without a zero character. From stores of the same subscribers, as long as nothing is
    purged, whichever of these nodes add, remove and send heartbeats for are there in the one
    exactly when they are in the other, and are listed by both, for any group (without a zero
    character) and age, once each. *)
Theorem subscriber_stores_agree history (m : SubscriberStateStore) s group age now :
  store_holds m -> table_holds s ->
  (forall key, store_seen m key = rows_seen (tb_rows s) key) ->
  Forall no_purge history -> Forall (entry_accepted (S := S)) history ->
  from_option (fun g => text_storable g = true) True group ->
  exists m' s' l s'', perform_all history m = (Ok (), m') /\
    perform_all history s = (Ok (), s') /\
    pg_subscribers.list_ table_name group age now s' = (Ok l, s'') /\
    (subscriber_key <$> l) ≡ₚ (subscriber_key <$> list_subscribers group age now m').
Proof.
  intros Hm Hs Hseen Hno Hacc Hg.
  destruct (perform_all_seen (Hlaws := SubscriberStateStore_laws) history m Hm) as (m' & Em & Hm' & Hkm); [|done|].
  { eapply Forall_impl; [exact Hacc|]. by intros [? []]. }
  destruct (perform_all_seen (Hlaws := PostgresEventSubscriberStateStore_laws) history s Hs Hacc Hno) as (s' & Es & Hs' & Hks).
  destruct (subscribers_listed group age now s' Hs' Hg) as (l & s'' & El & _ & _ & _ & Hnd & Hin).
  exists m', s', l, s''. split_and!; [done..|].
  destruct (list_memory group age now m' Hm') as [Hndm Hinm].
  apply NoDup_Permutation; [done..|]. intros key. rewrite Hin, Hinm.
  assert (rows_seen (tb_rows s') key = store_seen m' key) as ->; [|done].
  transitivity (seen_after history (rows_seen (tb_rows s)) key); [apply Hks|].
  transitivity (seen_after history (store_seen m) key); [|symmetry; apply Hkm].
  by apply seen_after_ext.
Qed.

(** A purge on Postgres removes exactly the subscribers not seen since the cutoff, and
    keeps the rest as they are (in memory it leaves some of them). *)
Theorem purge_exact age now s :
  table_holds s ->
  exists s', pg_subscribers.purge table_name age now s = (Ok (), s') /\ table_holds s' /\
    tb_rows s' ≡ₚ List.filter (fun row => now - age <? sr_last_seen row)%Z (tb_rows s).
Proof.
  intros Hs. destruct (purge_subscribers_text (now - age)) as [Ht Hp].
  destruct (write_spec (subscriber_statements table_name) _ _ s (tb_rows s) _ _ Ht Hp
    (th_rest s Hs) I eq_refl) as (s' & E & Hrest).
  assert (tb_rows s' ≡ₚ List.filter (fun row => now - age <? sr_last_seen row)%Z (tb_rows s)) as Hp'.
  { rewrite (ar_rows _ _ Hrest). erewrite List.filter_ext; [reflexivity|].
    intros row. by rewrite Z.leb_antisym, negb_involutive. }
  exists s'. split; [done|]. split; [|done].
  destruct Hrest as [Hl Hr Hc]. split; [by split| |]; rewrite Hp'.
  - apply filter_keys_NoDup, Hs.
  - apply filter_readable, Hs.
Qed.
End laws.

(** ** Witnesses *)
Module pg_subscribers_examples.
#[local] Existing Instance double_quotes.
#[local] Existing Instance no_user_code.
Import reference_table.

Definition statements : TableStatements SubscriberRow := subscriber_statements "subscribers".

Definition candidates (params : list Param) : list (Statements statements) :=
  match params with
  | [PValue (VStr group); PValue (VStr id); PValue (VStr node); PJsonb requests; PDateTime t; _; _] =>
      [UpsertSubscriber (mkSubscriberRow group id node requests t)]
  | [PValue (VStr group); PValue (VStr id)] => [DeleteSubscriber (mkKey group id)]
  | [PDateTime t; PValue (VStr group); PValue (VStr id)] => [TouchSubscriber (mkKey group id) t]
  | [PDateTime t] => [PurgeSubscribers t]
  | [PValue (VStr group); PValue (VObj (mkObj _ t))] => [SelectSubscribers (Some group) (Some t)]
  | [PValue (VStr group)] => [SelectSubscribers (Some group) None]
  | [PValue (VObj (mkObj _ t))] => [SelectSubscribers None (Some t)]
  | [] => [SelectSubscribers None None]
  | _ => []
  end.

#[local] Instance server : TableServer (Table (Row := SubscriberRow)) SubscriberRow :=
  table statements candidates.
#[local] Instance server_laws : TableServerLaws statements.
Proof. apply table_laws. by intros [[]|[]|[]| |[] []]. Qed.

Lemma new_table_holds : table_holds (new_table : Table (Row := SubscriberRow)).
Proof. split; [done|constructor..]. Qed.

Definition history : History :=
  [(1, Added subscriber_1); (2, Added subscriber_2); (30, Beat subscriber_1);
   (31, Removed subscriber_1); (40, Added subscriber_1); (41, Beat subscriber_2)]%Z.

Lemma subscriber_stores_agree_witness :
  exists m' s' l s'',
    perform_all history (mkSubscriberStateStore "node-1" []) = (Ok (), m') /\
    perform_all (Hops := PostgresEventSubscriberStateStore "subscribers" "node-1") history
      (new_table : Table (Row := SubscriberRow)) = (Ok (), s') /\
    pg_subscribers.list_ "subscribers" (Some "orders"%string) (Some 60%Z) 50 s' = (Ok l, s'') /\
    (subscriber_key <$> l) ≡ₚ
      (subscriber_key <$> list_subscribers (Some "orders"%string) (Some 60%Z) 50 m').
Proof.
  apply (subscriber_stores_agree "subscribers" "node-1" eq_refl history
    (mkSubscriberStateStore "node-1" []) (new_table : Table (Row := SubscriberRow))).
  - constructor.
  - apply new_table_holds.
  - done.
  - by repeat constructor.
  - repeat constructor.
  - done.
Defined.

Lemma purge_exact_witness :
  let s : Table := mkTable [mkSubscriberRow "g" "1" "n" (VList []) 10;
    mkSubscriberRow "g" "2" "n" (VList []) 11; mkSubscriberRow "g" "3" "n" (VList []) 90]
    [mkSubscriberRow "g" "1" "n" (VList []) 10; mkSubscriberRow "g" "2" "n" (VList []) 11;
     mkSubscriberRow "g" "3" "n" (VList []) 90] true in
  exists s', pg_subscribers.purge "subscribers" 50 100 s = (Ok (), s') /\ table_holds s' /\
    tb_rows s' ≡ₚ [mkSubscriberRow "g" "3" "n" (VList []) 90].
Proof.
  intros s. destruct (purge_exact "subscribers" 50 100 s) as (s' & E & Hs' & Hrows).
  - split; [by split| |by repeat (constructor; [split; [done|]; exists []; split; [done|apply same_value]|])].
    apply (bool_decide_unpack _). reflexivity.
  - exists s'. split; [exact E|]. split; [exact Hs'|]. exact Hrows.
Defined.
End pg_subscribers_examples.
