(* ===== verification/PostgresSubscriptions.v ===== *)
(** The store of subscription states in a Postgres table
    ([processing/broker/strategies/distributed/subscriptions/stores/state/postgres.py]), and
    what it does to the subscriptions: a list of changes is made as a whole or not at all. *)
From Stdlib Require Import Ascii.
From S2P Require Import Prelude Values Conversion JsonEquivalence Query BrokerState.
From S2P Require Import PostgresQuery PostgresQueryTheory PostgresConverters PostgresServer.
From S2P Require Import PostgresTables PostgresSubscribers SubscriberManager Coordinator Distribution.

(** A row of the table: [event_sources] is a [jsonb] column. *)
Record SubscriptionRow := mkSubscriptionRow {
  pr_group : string;
  pr_id : string;
  pr_node_id : string;
  pr_event_sources : Val
}.

Definition pr_key (row : SubscriptionRow) : EventKey := mkKey (pr_group row) (pr_id row).

Module pg_subscriptions.
Section store.
Context `{Psycopg} `{UserCode} (table_name node_id : string).

(** [Jsonb] of [source.serialise()] for each. *)
Definition serialised_sources (subscription : EventSubscriptionState) : Val :=
  VList (serialise_identifier <$> sn_event_sources subscription).

Definition insert_query (subscription : EventSubscriptionState) : ParameterisedQuery :=
  ([SQL "
            INSERT INTO "; Identifier table_name; SQL (" (
              id,
              " +:+ group_column +:+ ",
              node_id,  
              event_sources
            )
            VALUES (%s, %s, %s, %s);
            ")],
   [PStr (sn_id subscription); PStr (sn_group subscription); PStr (sn_node_id subscription);
    PJsonb (serialised_sources subscription)]).

Definition upsert_query (subscription : EventSubscriptionState) : ParameterisedQuery :=
  ([SQL "
            UPDATE "; Identifier table_name; SQL ("
            SET event_sources = %s
            WHERE " +:+ group_column +:+ " = %s AND id = %s
            RETURNING *;
            ")],
   [PJsonb (serialised_sources subscription); PStr (sn_group subscription);
    PStr (sn_id subscription)]).

Definition remove_query (subscription : EventSubscriptionState) : ParameterisedQuery :=
  ([SQL "
            DELETE FROM "; Identifier table_name; SQL ("
            WHERE " +:+ group_column +:+ " = %s AND id = %s
            RETURNING *;
            ")],
   [PStr (sn_group subscription); PStr (sn_id subscription)]).

Context {S : Type} `{TableServer S SubscriptionRow}.

(** The functions [add], [remove] and [replace] on a connection. *)
Definition add_on (subscription : EventSubscriptionState) : ST S () := fun s =>
  match table_execute (insert_query subscription) s with
  | (Ok _, s') => (Ok (), s')
  | (Raise e, s') =>
      (Raise (if decide (e = UniqueViolation)
              then ValueError "Can't add existing subscription." else e), s')
  end.

Definition remove_on (subscription : EventSubscriptionState) : ST S () :=
  removed_subscriptions ← table_execute (remove_query subscription);
  st_lift (raise_if (length removed_subscriptions =? 0)%nat
    (ValueError "Can't remove missing subscription.")).

Definition replace_on (subscription : EventSubscriptionState) : ST S () :=
  updated_subscriptions ← table_execute (upsert_query subscription);
  st_lift (raise_if (length updated_subscriptions =? 0)%nat
    (ValueError "Can't replace missing subscription.")).

(** [PostgresEventSubscriptionStateStore]: [kept] gives the state its node. *)
Definition query_converter : DelegatingQueryConverter :=
  with_default_query_converters table_name
    (with_default_clause_converters table_name empty_converter).

Definition row_state (row : SubscriptionRow) : res EventSubscriptionState :=
  event_sources ← match pr_event_sources row with
    | VList sources => mapM event_sequence_identifier sources
    | _ => Raise TypeError
    end;
  Ok (mkSubscriptionState (pr_group row) (pr_id row) (pr_node_id row) event_sources).

Definition get (key : EventKey) : ST S (option EventSubscriptionState) :=
  st_lift (Raise (UserError "NotImplementedError")).

Definition list_ : ST S (list EventSubscriptionState) :=
  query ← st_lift (convert_query query_converter (Search [] None None));
  table_connection (
    subscription_state_dicts ← table_execute query;
    st_lift (mapM row_state subscription_state_dicts)).

Definition add (subscription : EventSubscriptionState) : ST S () :=
  table_connection (add_on (kept node_id subscription)).
Definition remove (subscription : EventSubscriptionState) : ST S () :=
  table_connection (remove_on (kept node_id subscription)).
Definition replace (subscription : EventSubscriptionState) : ST S () :=
  table_connection (replace_on (kept node_id subscription)).

Definition change_on (change : EventSubscriptionStateChange) : ST S () :=
  let state := kept node_id (ch_subscription change) in
  match ch_type change with
  | ADD => add_on state
  | REPLACE => replace_on state
  | REMOVE => remove_on state
  end.

Fixpoint changes_on (changes : list EventSubscriptionStateChange) : ST S () :=
  match changes with
  | [] => mret ()
  | change :: rest => _ ← change_on change; changes_on rest
  end.

Definition apply (changes : list EventSubscriptionStateChange) : ST S () :=
  if decide (length (remove_dups (change_key <$> changes)) = length changes)
  then table_connection (changes_on changes)
  else st_lift (Raise (ValueError "Multiple changes present for same subscription key.")).
End store.
End pg_subscriptions.

(** ** The statements of the table *)

Inductive SubscriptionStatement :=
  | InsertSubscription (row : SubscriptionRow)
  | UpdateSources (key : EventKey) (event_sources : Val)
  | DeleteSubscription (key : EventKey)
  | SelectSubscriptions.

Section statements.
Context `{Psycopg} (table_name : string).

Definition subscription_text (statement : SubscriptionStatement) : string :=
  match statement with
  | InsertSubscription _ => "
            INSERT INTO " +:+ quote_identifier table_name +:+ " (
              id,
              " +:+ group_column +:+ ",
              node_id,  
              event_sources
            )
            VALUES (%s, %s, %s, %s);
            "
  | UpdateSources _ _ => "
            UPDATE " +:+ quote_identifier table_name +:+ "
            SET event_sources = %s
            WHERE " +:+ group_column +:+ " = %s AND id = %s
            RETURNING *;
            "
  | DeleteSubscription _ => "
            DELETE FROM " +:+ quote_identifier table_name +:+ "
            WHERE " +:+ group_column +:+ " = %s AND id = %s
            RETURNING *;
            "
  | SelectSubscriptions => "SELECT * FROM " +:+ quote_identifier table_name +:+ EmptyString
  end%string.

Definition subscription_params (statement : SubscriptionStatement) : list Param :=
  match statement with
  | InsertSubscription row =>
      [PStr (pr_id row); PStr (pr_group row); PStr (pr_node_id row); PJsonb (pr_event_sources row)]
  | UpdateSources key sources => [PJsonb sources; PStr (key_group key); PStr (key_id key)]
  | DeleteSubscription key => [PStr (key_group key); PStr (key_id key)]
  | SelectSubscriptions => []
  end.

Definition subscription_storable (statement : SubscriptionStatement) : Prop :=
  match statement with
  | InsertSubscription row =>
      key_storable (pr_key row) /\ text_storable (pr_node_id row) = true /\
      plain_json (pr_event_sources row)
  | UpdateSources key sources => key_storable key /\ plain_json sources
  | DeleteSubscription key => key_storable key
  | SelectSubscriptions => True
  end.

Definition with_sources (sources : Val) (row : SubscriptionRow) : SubscriptionRow :=
  mkSubscriptionRow (pr_group row) (pr_id row) (pr_node_id row) sources.

Definition subscription_effect (jsonb : Val -> Val) (statement : SubscriptionStatement)
    (rows : list SubscriptionRow) : option (list SubscriptionRow * list SubscriptionRow) :=
  match statement with
  | InsertSubscription row =>
      if row_of pr_key rows (pr_key row) then None
      else Some ([], rows ++ [with_sources (jsonb (pr_event_sources row)) row])
  | UpdateSources key sources =>
      let rows' := update_rows pr_key key (with_sources (jsonb sources)) rows in
      Some (with_key pr_key key rows', rows')
  | DeleteSubscription key => Some (with_key pr_key key rows, without_key pr_key key rows)
  | SelectSubscriptions => Some (rows, rows)
  end.

Definition subscription_statements : TableStatements SubscriptionRow :=
  mkStatements SubscriptionStatement subscription_text subscription_params subscription_storable
    subscription_effect.
End statements.

(** ** Subscriptions by key *)

(** What changes do on Postgres: a replaced subscription keeps its row's node. *)
Definition change_map (node_id : string) (change : EventSubscriptionStateChange)
    (d : Subscriptions) : option Subscriptions :=
  let put s := fun key => if decide (key = change_key change) then s else d key in
  match ch_type change, d (change_key change) with
  | ADD, None => Some (put (Some (kept node_id (ch_subscription change))))
  | REPLACE, Some existing =>
      Some (put (Some (kept (sn_node_id existing) (ch_subscription change))))
  | REMOVE, Some _ => Some (put None)
  | _, _ => None
  end.

Fixpoint change_all (node_id : string) (changes : list EventSubscriptionStateChange)
    (d : Subscriptions) : option Subscriptions :=
  match changes with
  | [] => Some d
  | change :: rest => change_map node_id change d ≫= change_all node_id rest
  end.

Section theory.
Context `{Psycopg} `{UserCode} (table_name node_id : string).
Context {S : Type} `{Hserver : TableServer S SubscriptionRow}.
Context {Hlaws : TableServerLaws (subscription_statements table_name)}.
Context (node_id_text : text_storable node_id = true).

Abbreviation jsonb := (tb_jsonb (S := S) (Row := SubscriptionRow)).

Definition subscription_row (s : EventSubscriptionState) : SubscriptionRow :=
  mkSubscriptionRow (sn_group s) (sn_id s) (sn_node_id s) (pg_subscriptions.serialised_sources s).

(** A row that a subscription is read from. *)
Definition row_reads (s : EventSubscriptionState) (row : SubscriptionRow) : Prop :=
  pg_subscriptions.row_state row = Ok s /\ pr_key row = subscription_key s.

Definition reads_option (s : option EventSubscriptionState) (row : option SubscriptionRow) : Prop :=
  match s, row with
  | Some s, Some row => row_reads s row
  | None, None => True
  | _, _ => False
  end.

(** Rows for subscriptions: each is there, under its own key, once. *)
Record rows_for (d : Subscriptions) (rows : list SubscriptionRow) : Prop := {
  rf_keys : NoDup (pr_key <$> rows);
  rf_storable : Forall key_storable (pr_key <$> rows);
  rf_rows : forall key, reads_option (d key) (row_of pr_key rows key)
}.

Record subscriptions_hold (s : S) (d : Subscriptions) : Prop := {
  sh_rest : at_rest s (tb_rows s);
  sh_rows : rows_for d (tb_rows s)
}.

(** Keys and sources that the columns hold: of the log, categories or streams. *)
Definition sources_accepted (s : EventSubscriptionState) : Prop :=
  Forall (fun i => identifier_storable i = true) (sn_event_sources s).

Lemma rows_for_own d rows key s : rows_for d rows -> d key = Some s ->
  subscription_key s = key /\ key_storable key.
Proof.
  intros [_ Hstorable Hrows] Hd. specialize (Hrows key). rewrite Hd in Hrows.
  destruct (row_of pr_key rows key) as [row|] eqn:E; [|done].
  apply row_of_Some in E as [E <-]. destruct Hrows as [_ <-]. split; [done|].
  rewrite Forall_fmap, Forall_forall in Hstorable. by apply Hstorable.
Qed.

Lemma rows_for_none d rows key :
  rows_for d rows -> row_of pr_key rows key = None <-> d key = None.
Proof.
  intros [_ _ Hrows]. specialize (Hrows key). by destruct (d key), (row_of pr_key rows key).
Qed.

Lemma rows_for_perm d rows rows' : rows ≡ₚ rows' -> rows_for d rows -> rows_for d rows'.
Proof.
  intros Hp [Hnd Hst Hrows]. split; [by rewrite <-Hp..|].
  intros key. by rewrite <-(row_of_perm pr_key rows rows').
Qed.

(** A row whose sources were written reads as its subscription. *)
Lemma written_reads s row :
  sources_accepted s -> pr_group row = sn_group s -> pr_id row = sn_id s ->
  row_reads (kept (pr_node_id row) s)
    (with_sources (jsonb (pg_subscriptions.serialised_sources s)) row).
Proof.
  intros Hs Hg Hi. split; [|unfold pr_key, subscription_key; cbn; congruence].
  destruct (read_identifiers (sn_event_sources s) (jsonb (pg_subscriptions.serialised_sources s)))
    as (l & El & Eids); [done| |].
  - apply (tl_jsonb (statements := subscription_statements table_name)). by apply plain_identifiers.
  - unfold pg_subscriptions.row_state. cbn [with_sources pr_event_sources]. rewrite El, Eids. cbn.
    unfold kept. by rewrite Hg, Hi.
Qed.

Lemma insert_rows_for d rows s :
  rows_for d rows -> d (subscription_key s) = None -> key_storable (subscription_key s) ->
  sources_accepted s ->
  rows_for (fun key => if decide (key = subscription_key s) then Some s else d key)
    (rows ++ [with_sources (jsonb (pg_subscriptions.serialised_sources s)) (subscription_row s)]).
Proof.
  intros Hrows Hd Hkey Hs. pose proof (proj2 (rows_for_none _ _ _ Hrows) Hd) as Hnone. split.
  - by apply app_keys_NoDup; [apply Hrows|].
  - rewrite fmap_app. apply Forall_app. split; [apply Hrows|]. by constructor.
  - intros key. rewrite row_of_app.
    change (pr_key (with_sources _ (subscription_row s))) with (subscription_key s).
    destruct (decide (key = subscription_key s)) as [->|Hk].
    + rewrite Hnone, decide_True by done. pose proof (written_reads s (subscription_row s) Hs) as Hr.
      destruct s. by apply Hr.
    + pose proof (rf_rows _ _ Hrows key) as Hr. destruct (row_of pr_key rows key); [done|].
      by rewrite decide_False.
Qed.

Lemma update_rows_for d rows s existing :
  rows_for d rows -> d (subscription_key s) = Some existing -> sources_accepted s ->
  rows_for (fun key => if decide (key = subscription_key s)
      then Some (kept (sn_node_id existing) s) else d key)
    (update_rows pr_key (subscription_key s)
      (with_sources (jsonb (pg_subscriptions.serialised_sources s))) rows).
Proof.
  intros Hrows Hd Hs. split.
  - rewrite update_rows_keys by done. apply Hrows.
  - rewrite update_rows_keys by done. apply Hrows.
  - intros key. rewrite row_of_update by done. pose proof (rf_rows _ _ Hrows key) as Hr.
    case_decide as Hk; [|done]. subst key. rewrite Hd in Hr.
    destruct (row_of pr_key rows (subscription_key s)) as [row|] eqn:E; [|done].
    apply row_of_Some in E as [_ E]. injection E as Hg Hi. destruct Hr as [Hstate _]. cbn.
    replace (sn_node_id existing) with (pr_node_id row); [by apply written_reads|].
    unfold pg_subscriptions.row_state in Hstate. destruct (pr_event_sources row); try done.
    destruct (mapM event_sequence_identifier l); [|done]. by injection Hstate as <-.
Qed.

Lemma delete_rows_for d rows k :
  rows_for d rows ->
  rows_for (fun key => if decide (key = k) then None else d key) (without_key pr_key k rows).
Proof.
  intros Hrows. split; [apply filter_keys_NoDup, Hrows| |].
  { destruct Hrows as [_ Hst _]. rewrite Forall_fmap, Forall_forall in *.
    intros row [Hrow _]%elem_filter. by apply Hst. }
  intros key. rewrite row_of_without.
  case_decide; [done|]. apply Hrows.
Qed.

(** *** Changes in a transaction *)

Lemma insert_subscription_text s :
  let query := pg_subscriptions.insert_query table_name s in
  as_string query.1 = subscription_text table_name (InsertSubscription (subscription_row s)) /\
  query.2 = subscription_params (InsertSubscription (subscription_row s)).
Proof. done. Qed.

Lemma update_subscription_text s :
  let query := pg_subscriptions.upsert_query table_name s in
  let statement := UpdateSources (subscription_key s) (pg_subscriptions.serialised_sources s) in
  as_string query.1 = subscription_text table_name statement /\
  query.2 = subscription_params statement.
Proof. done. Qed.

Lemma delete_subscription_text s :
  let query := pg_subscriptions.remove_query table_name s in
  let statement := DeleteSubscription (subscription_key s) in
  as_string query.1 = subscription_text table_name statement /\
  query.2 = subscription_params statement.
Proof. done. Qed.

(** The outcome of changes in a transaction that started from [before]. *)
Definition changed_to (before : list SubscriptionRow) (d' : option Subscriptions) (r : res ())
    (s : S) : Prop :=
  tb_committed s ≡ₚ before /\
  match d' with
  | Some d' => r = Ok () /\ tb_live s /\ rows_for d' (tb_rows s)
  | None => exists message, r = Raise (ValueError message)
  end.

Lemma add_on_spec subscription s before d :
  in_transaction s before (tb_rows s) -> rows_for d (tb_rows s) ->
  key_storable (subscription_key subscription) -> sources_accepted subscription ->
  text_storable (sn_node_id subscription) = true ->
  exists r s', pg_subscriptions.add_on table_name subscription s = (r, s') /\
    changed_to before (match d (subscription_key subscription) with
      | None => Some (fun key =>
          if decide (key = subscription_key subscription) then Some subscription else d key)
      | Some _ => None
      end) r s'.
Proof.
  intros Hs Hd Hkey Hsources Hnode.
  destruct (insert_subscription_text subscription) as [Ht Hp].
  destruct (table_execute_spec (subscription_statements table_name) _ _ s before (tb_rows s)
    Ht Hp Hs) as (r & s' & E & Hc & Heff); [by split_and!; [..|apply plain_identifiers]|].
  unfold pg_subscriptions.add_on. rewrite E. cbn in Heff.
  change (pr_key (subscription_row subscription)) with (subscription_key subscription) in Heff.
  pose proof (rows_for_none _ _ (subscription_key subscription) Hd) as Hnone.
  destruct (d (subscription_key subscription)) as [existing|] eqn:Ed,
    (row_of pr_key (tb_rows s) (subscription_key subscription)) as [row|]; try naive_solver.
  - subst r. do 2 eexists. split; [done|]. split; [done|]. rewrite decide_True by done. by eexists.
  - destruct Heff as ((returned & -> & _) & [Hl Hr _]). do 2 eexists. split; [done|].
    split; [done|]. split_and!; [done..|]. eapply rows_for_perm; [symmetry; exact Hr|].
    by apply insert_rows_for.
Qed.

Lemma replace_on_spec subscription s before d :
  in_transaction s before (tb_rows s) -> rows_for d (tb_rows s) ->
  key_storable (subscription_key subscription) -> sources_accepted subscription ->
  exists r s', pg_subscriptions.replace_on table_name subscription s = (r, s') /\
    changed_to before (match d (subscription_key subscription) with
      | Some existing => Some (fun key => if decide (key = subscription_key subscription)
          then Some (kept (sn_node_id existing) subscription) else d key)
      | None => None
      end) r s'.
Proof.
  intros Hs Hd Hkey Hsources.
  destruct (update_subscription_text subscription) as [Ht Hp].
  destruct (table_execute_spec (subscription_statements table_name) _ _ s before (tb_rows s)
    Ht Hp Hs) as (r & s' & E & Hc & (returned & -> & Hret) & [Hl Hr _]);
    [by split; [|apply plain_identifiers]|].
  unfold pg_subscriptions.replace_on, mbind, ST_bind. rewrite E. do 2 eexists. split; [done|].
  split; [done|]. set (rows' := update_rows pr_key _ _ (tb_rows s)) in *.
  assert (returned = [] <-> d (subscription_key subscription) = None) as Hnil.
  { transitivity (row_of pr_key rows' (subscription_key subscription) = None).
    - rewrite <-with_key_nil. split; [intros ->; by apply Permutation_nil|].
      intros E'. apply Permutation_nil. rewrite <-E'. by symmetry.
    - rewrite <-(rows_for_none _ _ _ Hd). unfold rows'. rewrite row_of_update, decide_True by done.
      by destruct (row_of _ _ _). }
  destruct (d (subscription_key subscription)) as [existing|] eqn:Ed.
  - destruct returned; [by destruct Hnil as [Hnil _]; specialize (Hnil eq_refl)|].
    split_and!; [done..|]. eapply rows_for_perm; [symmetry; exact Hr|]. by apply update_rows_for.
  - assert (returned = []) as -> by by apply Hnil. by eexists.
Qed.

Lemma remove_on_spec subscription s before d :
  in_transaction s before (tb_rows s) -> rows_for d (tb_rows s) ->
  key_storable (subscription_key subscription) ->
  exists r s', pg_subscriptions.remove_on table_name subscription s = (r, s') /\
    changed_to before (match d (subscription_key subscription) with
      | Some _ => Some (fun key => if decide (key = subscription_key subscription)
          then None else d key)
      | None => None
      end) r s'.
Proof.
  intros Hs Hd Hkey.
  destruct (delete_subscription_text subscription) as [Ht Hp].
  destruct (table_execute_spec (subscription_statements table_name) _ _ s before (tb_rows s)
    Ht Hp Hs) as (r & s' & E & Hc & (returned & -> & Hret) & [Hl Hr _]); [done|].
  unfold pg_subscriptions.remove_on, mbind, ST_bind. rewrite E. do 2 eexists. split; [done|].
  split; [done|].
  assert (returned = [] <-> d (subscription_key subscription) = None) as Hnil.
  { transitivity (row_of pr_key (tb_rows s) (subscription_key subscription) = None).
    - rewrite <-with_key_nil. split; [intros ->; by apply Permutation_nil|].
      intros E'. apply Permutation_nil. rewrite <-E'. by symmetry.
    - apply (rows_for_none _ _ _ Hd). }
  destruct (d (subscription_key subscription)) as [existing|] eqn:Ed.
  - destruct returned; [by destruct Hnil as [Hnil _]; specialize (Hnil eq_refl)|].
    split_and!; [done..|]. eapply rows_for_perm; [symmetry; exact Hr|]. by apply delete_rows_for.
  - assert (returned = []) as -> by by apply Hnil. by eexists.
Qed.

Definition change_accepted (change : EventSubscriptionStateChange) : Prop :=
  key_storable (change_key change) /\
  (ch_type change <> REMOVE -> sources_accepted (ch_subscription change)).

Lemma change_on_spec change s before d :
  in_transaction s before (tb_rows s) -> rows_for d (tb_rows s) -> change_accepted change ->
  exists r s', pg_subscriptions.change_on table_name node_id change s = (r, s') /\
    changed_to before (change_map node_id change d) r s'.
Proof.
  intros Hs Hd [Hkey Hacc]. unfold pg_subscriptions.change_on, change_map, change_key in *.
  destruct change as [[] subscription]; cbn [ch_type ch_subscription] in *.
  - destruct (add_on_spec (kept node_id subscription) s before d) as (r & s' & E & Hc); auto.
    exists r, s'. split; [done|].
    change (subscription_key (kept node_id subscription)) with (subscription_key subscription) in Hc.
    by destruct (d _).
  - destruct (remove_on_spec (kept node_id subscription) s before d) as (r & s' & E & Hc); auto.
    exists r, s'. split; [done|].
    change (subscription_key (kept node_id subscription)) with (subscription_key subscription) in Hc.
    by destruct (d _).
  - destruct (replace_on_spec (kept node_id subscription) s before d) as (r & s' & E & Hc); auto.
    exists r, s'. split; [done|].
    change (subscription_key (kept node_id subscription)) with (subscription_key subscription) in Hc.
    by destruct (d _).
Qed.

Lemma changes_on_spec changes s before d :
  in_transaction s before (tb_rows s) -> rows_for d (tb_rows s) ->
  Forall change_accepted changes ->
  exists r s', pg_subscriptions.changes_on table_name node_id changes s = (r, s') /\
    changed_to before (change_all node_id changes d) r s'.
Proof.
  revert s d. induction changes as [|change rest IH]; intros s d Hs Hd Hacc.
  - exists (Ok ()), s. split; [done|]. split; [apply Hs|]. split; [done|]. split; [apply Hs|done].
  - apply Forall_cons in Hacc as [Ha Hacc]. cbn [pg_subscriptions.changes_on change_all].
    destruct (change_on_spec change s before d Hs Hd Ha) as (r & s1 & E & Hc & Hr).
    unfold mbind at 1, ST_bind. rewrite E. destruct (change_map node_id change d) as [d1|].
    + destruct Hr as (-> & Hl & Hd1). by apply (IH s1 d1).
    + destruct Hr as [message ->]. do 2 eexists. split; [done|]. split; [done|]. by eexists.
Qed.

(** A transaction of changes, by whether they can be made. *)
Lemma changes_transaction (body : ST S ()) s d d' :
  subscriptions_hold s d ->
  (exists r s', body s = (r, s') /\ changed_to (tb_rows s) d' r s') ->
  exists r s', table_connection body s = (r, s') /\
    match d' with
    | Some d' => r = Ok () /\ subscriptions_hold s' d'
    | None => (exists message, r = Raise (ValueError message)) /\ subscriptions_hold s' d
    end.
Proof.
  intros [Hrest Hd] (r & s1 & E & Hc & Hr). destruct (table_connection body s) as [r' s'] eqn:Erun.
  apply (table_connection_spec (subscription_statements table_name) _ _ (tb_rows s)) in Erun;
    [|done|].
  2: { intros r2 s2. rewrite E. intros [= <- <-]. split; [done|]. destruct d'; [by intros _; apply Hr|].
       destruct Hr as [? ->]. done. }
  exists r', s'. split; [done|]. destruct r' as [[]|e].
  - destruct Erun as (s2 & E2 & Hrest'). rewrite E in E2. injection E2 as -> ->.
    destruct d' as [d'|]; [|by destruct Hr]. destruct Hr as (_ & _ & Hd'). split; [done|].
    split; [|eapply rows_for_perm; [symmetry; apply Hrest'|done]].
    eapply at_rest_perm; [|exact Hrest']. symmetry. apply Hrest'.
  - destruct Erun as [[s2 E2] Hrest']. rewrite E in E2. injection E2 as -> _.
    destruct d' as [d'|]; [by destruct Hr|]. split; [done|].
    split; [|eapply rows_for_perm; [symmetry; apply Hrest'|done]].
    eapply at_rest_perm; [|exact Hrest']. symmetry. apply Hrest'.
Qed.

(** Changes as a whole. *)
Lemma apply_holds changes s d :
  subscriptions_hold s d ->
  Forall change_accepted changes ->
  exists r s', pg_subscriptions.apply table_name node_id changes s = (r, s') /\
    if decide (NoDup (change_key <$> changes)) then
      match change_all node_id changes d with
      | Some d' => r = Ok () /\ subscriptions_hold s' d'
      | None => (exists message, r = Raise (ValueError message)) /\ subscriptions_hold s' d
      end
    else r = Raise (ValueError "Multiple changes present for same subscription key.") /\ s' = s.
Proof.
  intros Hs Hacc. unfold pg_subscriptions.apply. rewrite <-(length_fmap change_key changes).
  destruct (decide (NoDup (change_key <$> changes))) as [Hnd|Hnd].
  - rewrite decide_True by by apply remove_dups_length_NoDup.
    apply (changes_transaction _ s d); [done|].
    apply changes_on_spec; [apply begin_transaction, Hs|apply Hs|done].
  - rewrite decide_False by by rewrite remove_dups_length_NoDup. by do 2 eexists.
Qed.

(** C14. Applying changes on Postgres is atomic. Changes with a key twice are refused before
    the table is touched. Otherwise all of them are made when each can be: an added
    subscription is kept under the store's own node, a replaced one under the node of its
    row; and when one cannot be made, because its key is there already or is missing,
    ValueError is raised and every subscription is as it was (in memory the changes before
    it stay made). *)
Theorem postgres_apply_atomic changes s d :
  subscriptions_hold s d ->
  Forall change_accepted changes ->
  exists r s', pg_subscriptions.apply table_name node_id changes s = (r, s') /\
    if decide (NoDup (change_key <$> changes)) then
      match change_all node_id changes d with
      | Some d' => r = Ok () /\ subscriptions_hold s' d'
      | None => (exists message, r = Raise (ValueError message)) /\ subscriptions_hold s' d
      end
    else r = Raise (ValueError "Multiple changes present for same subscription key.") /\ s' = s.
Proof. apply apply_holds. Qed.

(** *** Listing *)

Lemma read_subscriptions d rows :
  rows_for d rows ->
  exists l, mapM pg_subscriptions.row_state rows = Ok l /\ subscription_key <$> l = pr_key <$> rows /\
    forall x, x ∈ l -> d (subscription_key x) = Some x.
Proof.
  intros Hd. assert (Forall (fun row => exists y, pg_subscriptions.row_state row = Ok y /\
    (subscription_key y = pr_key row /\ d (subscription_key y) = Some y)) rows) as Hall.
  { apply Forall_forall. intros row Hrow. pose proof (rf_rows _ _ Hd (pr_key row)) as Hr.
    rewrite row_of_elem in Hr by (done || apply Hd). destruct (d (pr_key row)) as [x|] eqn:Ed; [|done].
    destruct Hr as [Hstate Hkey]. exists x. rewrite <-Hkey. done. }
  apply res_mapM_total in Hall as (l & El & Hl). exists l. split; [done|]. clear -Hl.
  induction Hl as [|row y rows l [Hy Hdy] _ [IH IHin]]; [split; [done|by intros ? ?%not_elem_of_nil]|].
  rewrite !fmap_cons, IH, Hy. split; [done|]. by intros x [->|Hx]%elem_of_cons; [|apply IHin].
Qed.

(** Listing gives every subscription, once, and nothing else. *)
Lemma subscriptions_listed s d :
  subscriptions_hold s d ->
  exists l s', pg_subscriptions.list_ table_name s = (Ok l, s') /\ subscriptions_hold s' d /\
    NoDup (subscription_key <$> l) /\
    forall subscription, subscription ∈ l <-> d (subscription_key subscription) = Some subscription.
Proof.
  intros [Hrest Hd]. destruct (read_spec (subscription_statements table_name)
    ([SQL "SELECT * FROM "; Identifier table_name], []) SelectSubscriptions s (tb_rows s) _
    (mapM pg_subscriptions.row_state) (fun l => exists rows, rows ≡ₚ tb_rows s /\
      subscription_key <$> l = pr_key <$> rows /\ forall x, x ∈ l -> d (subscription_key x) = Some x)
    eq_refl eq_refl Hrest I eq_refl) as (l & s' & E & (rows & Hrows & Hl & Hin) & Hrest').
  { intros rows Hrows. destruct (read_subscriptions d rows) as (l & E & Hl & Hin).
    - by eapply rows_for_perm.
    - exists l. split; [done|]. by exists rows. }
  assert (rows_for d rows) as Hd' by by eapply rows_for_perm.
  exists l, s'. split; [exact E|]. split; [|split].
  - split; [eapply at_rest_perm; [|exact Hrest']; symmetry; apply Hrest'|].
    eapply rows_for_perm; [|exact Hd]. by rewrite (ar_rows _ _ Hrest').
  - rewrite Hl. apply Hd'.
  - intros x. split; [apply Hin|]. intros Hx.
    assert (subscription_key x ∈ subscription_key <$> l) as (y & Hk & Hy)%list_elem_of_fmap.
    { rewrite Hl. apply dec_stable. intros Hnone%row_of_None%(rows_for_none d); [congruence|done]. }
    pose proof (Hin y Hy) as Hdy. rewrite <-Hk, Hx in Hdy. by injection Hdy as ->.
Qed.

(** *** The promise to the coordinator *)

#[export] Instance PostgresEventSubscriptionStateStore : EventSubscriptionStateStore S := {|
  sp_list := pg_subscriptions.list_ table_name;
  sp_get := pg_subscriptions.get;
  sp_add := pg_subscriptions.add table_name node_id;
  sp_remove := pg_subscriptions.remove table_name node_id;
  sp_replace := pg_subscriptions.replace table_name node_id;
  sp_apply := pg_subscriptions.apply table_name node_id
|}.

(** Changes with different keys that can be made are all made. *)
Lemma change_all_after changes d :
  NoDup (change_key <$> changes) -> Forall (can_change d) changes ->
  exists d', change_all node_id changes d = Some d' /\
    forall key, sn_event_sources <$> d' key = sn_event_sources <$> after_changes changes d key.
Proof.
  revert d. induction changes as [|c cs IH]; intros d; [by exists d|].
  intros [Hc Hnd]%NoDup_cons [Hcan Hcans]%Forall_cons.
  assert (exists d1, change_map node_id c d = Some d1 /\ (forall key, sn_event_sources <$> d1 key =
    sn_event_sources <$> after_changes [c] d key) /\
    forall key, key <> change_key c -> d1 key = d key) as (d1 & E & Hd1 & Hother).
  { unfold can_change in Hcan. unfold change_map. cbn [after_changes].
    destruct (ch_type c), (d (change_key c)) eqn:E; try done; try (by destruct Hcan);
      (eexists; split; [done|]);
      (split; intros key; [destruct (decide (key = change_key c)) as [->|Hk];
         [by rewrite decide_True|by rewrite decide_False]|intros Hk; by rewrite decide_False]). }
  destruct (IH d1 Hnd) as (d' & E' & Hd').
  { rewrite Forall_forall in *. intros x Hx. specialize (Hcans x Hx). unfold can_change in *.
    rewrite Hother; [done|]. intros Heq. apply Hc. rewrite <-Heq. by apply list_elem_of_fmap_2. }
  exists d'. cbn [change_all]. rewrite E. split; [done|]. intros key. rewrite Hd'. cbn.
  destruct (decide (change_key c = key)) as [<-|Hk].
  - specialize (Hd1 (change_key c)). cbn in Hd1. rewrite decide_True in Hd1 by done.
    rewrite <-Hd1. f_equal. clear -Hc. induction cs as [|x cs IH]; cbn; [done|].
    cbn in Hc. apply not_elem_of_cons in Hc as [Hx Hc]. rewrite decide_False by done. by apply IH.
  - f_equal. clear -Hother Hk. induction cs as [|x cs IH]; cbn; [by apply Hother|]. by rewrite IH.
Qed.

#[export, refine] Instance PostgresEventSubscriptionStateStore_laws : SubscriptionStoreLaws S := {|
  sp_holds := subscriptions_hold;
  sp_accepts_key := key_storable;
  sp_accepts_source := fun i => identifier_storable i = true
|}.
Proof.
  - intros s d key x [_ Hd]. by apply rows_for_own with (tb_rows s).
  - intros s d. apply subscriptions_listed.
  - intros changes s d Hs Hnd Hcan Hacc.
    destruct (apply_holds changes s d Hs Hacc) as (r & s' & E & Hr).
    destruct (change_all_after changes d Hnd Hcan) as (d' & Ed & Hd').
    rewrite decide_True, Ed in Hr by done. destruct Hr as [-> Hs']. by exists s', d'.
Defined.

(** The two stores on Postgres go together: what the one lists, the other accepts. *)
Lemma postgres_kept_accepted (subscribers_table : string) {S' : Type}
    `{TableServer S' SubscriberRow}
    {Hsubscribers : TableServerLaws (subscriber_statements subscribers_table)}
    (x : EventSubscriberState) :
  sb_kept (SubscriberStoreLaws := PostgresEventSubscriberStateStore_laws subscribers_table
    node_id node_id_text) x ->
  sp_accepts_key (subscriber_key x) /\ Forall sp_accepts_source (ss_requests x).
Proof. done. Qed.
End theory.

(** ** Witnesses *)
Module pg_subscriptions_examples.
#[local] Existing Instance double_quotes.
#[local] Existing Instance no_user_code.
Import reference_table.

Definition statements : TableStatements SubscriptionRow := subscription_statements "subscriptions".

Definition candidates (params : list Param) : list (Statements statements) :=
  match params with
  | [PValue (VStr id); PValue (VStr group); PValue (VStr node); PJsonb sources] =>
      [InsertSubscription (mkSubscriptionRow group id node sources)]
  | [PJsonb sources; PValue (VStr group); PValue (VStr id)] =>
      [UpdateSources (mkKey group id) sources]
  | [PValue (VStr group); PValue (VStr id)] => [DeleteSubscription (mkKey group id)]
  | [] => [SelectSubscriptions]
  | _ => []
  end.

#[local] Instance server : TableServer (Table (Row := SubscriptionRow)) SubscriptionRow :=
  table statements candidates.
#[local] Instance server_laws : TableServerLaws statements.
Proof. apply table_laws. by intros [[]|[]|[]|]. Qed.

Definition subscription_a : EventSubscriptionState :=
  mkSubscriptionState "orders" "1" "node-2" [CategoryIdentifier "a"].
Definition subscription_b : EventSubscriptionState :=
  mkSubscriptionState "orders" "2" "node-2" [CategoryIdentifier "b"; StreamIdentifier "b" "1"].

Definition row_a : SubscriptionRow := subscription_row subscription_a.
Definition one_row : Table := mkTable [row_a] [row_a] true.
Definition only_a : Subscriptions :=
  fun key => if decide (key = mkKey "orders" "1") then Some subscription_a else None.

Lemma one_row_holds : subscriptions_hold one_row only_a.
Proof.
  split; [by split|]. split; [apply NoDup_singleton|by repeat constructor|]. intros key.
  assert (row_of pr_key (tb_rows one_row) key =
    if bool_decide (mkKey "orders" "1" = key) then Some row_a else None) as -> by reflexivity.
  unfold only_a. destruct (decide (key = mkKey "orders" "1")) as [->|Hk].
  - rewrite bool_decide_true by done. split; [vm_compute; reflexivity|done].
  - rewrite bool_decide_false by congruence. done.
Qed.

Lemma accepted_b : Forall change_accepted [mkChange ADD subscription_b; mkChange ADD subscription_a].
Proof. repeat (constructor; [split; [by split|intros _; by repeat constructor]|]). constructor. Qed.

(** The second change cannot be made, so that the first one is not made either. *)
Lemma postgres_apply_atomic_witness :
  exists r s', pg_subscriptions.apply "subscriptions" "node-1"
      [mkChange ADD subscription_b; mkChange ADD subscription_a] one_row = (r, s') /\
    (exists message, r = Raise (ValueError message)) /\ subscriptions_hold s' only_a.
Proof.
  destruct (postgres_apply_atomic "subscriptions" "node-1" eq_refl
    [mkChange ADD subscription_b; mkChange ADD subscription_a] one_row only_a one_row_holds
    accepted_b) as (r & s' & E & H).
  exists r, s'. split; [exact E|]. exact H.
Defined.


(** A distribution over two tables: the subscriber of [subscription_a] is not live, and the
    two that are share what they request. *)
#[local] Existing Instance pg_subscribers_examples.server.
#[local] Existing Instance insertion_order.
#[local] Instance live_store : EventSubscriberStateStore (Table (Row := SubscriberRow)) :=
  PostgresEventSubscriberStateStore "subscribers" "node-1".
#[local] Instance sources_store : EventSubscriptionStateStore (Table (Row := SubscriptionRow)) :=
  PostgresEventSubscriptionStateStore "subscriptions" "node-1".

Definition live (id : string) : EventSubscriber :=
  mkSubscriber (mkKey "orders" id) [CategoryIdentifier "a"; CategoryIdentifier "b"] true.

Example postgres_distribution_runs :
  ((_ ← coordinator.subscribers_store (sb_add 95 (live "2"));
   _ ← coordinator.subscribers_store (sb_add 96 (live "3"));
   _ ← coordinator.distribute 60 100;
   coordinator.subscriptions_store sp_list)
    ((new_table, one_row) : Table * Table)).1 =
  Ok [mkSubscriptionState "orders" "2" "node-1" [CategoryIdentifier "a"];
       mkSubscriptionState "orders" "3" "node-1" [CategoryIdentifier "b"]].
Proof. vm_compute. reflexivity. Qed.
End pg_subscriptions_examples.
