(* ===== verification/PostgresLocks.v ===== *)
(** Locks of a Postgres server: [processing/locks/postgres.py]. A lock is an advisory lock of
    the server, held by the transaction of a connection opened for it. Each [async with] is a
    task cut at its [await] points, as in [LockManager]. *)
From Stdlib Require Import Ascii DecimalString DecimalN.
From S2P Require Import Prelude LockManager Leadership.
From S2P Require Sha256.

(** What is read of a statement: a value or nothing. *)
Inductive LockResult := LockGiven (locked : bool) | NothingRead.

Definition LockNotAvailable : Exn := UserError "LockNotAvailable".

(** Sessions of a server and the advisory locks they hold. A statement of a session is
    executed at once, or is not ([None]): it waits, unless its lock timeout is up
    ([expired]). *)
Class AdvisoryServer (D : Type) := {
  av_connect : D -> nat * D;
  av_execute : nat -> string -> bool -> D -> option (res LockResult * D);
  av_close : nat -> D -> D
}.

(** [timedelta], in microseconds. *)
Definition microseconds (timeout : Z) : Z := timeout mod 1000000.

Module pg_locks.

(** [Literal] of an integer that is not negative. *)
Definition int_literal (z : Z) : string := NilEmpty.string_of_uint (N.to_uint (Z.to_N z)).

(** [Literal] of [microseconds / 1000]: a float of three decimals at most. *)
Definition float_literal (thousandths : Z) : string :=
  let fraction := (thousandths mod 1000)%Z in
  int_literal (thousandths / 1000) +:+ "." +:+
  (if bool_decide (fraction mod 100 = 0)%Z then int_literal (fraction / 100)
   else if bool_decide (fraction mod 10 = 0)%Z then
     int_literal (fraction / 100) +:+ int_literal (fraction / 10 mod 10)
   else int_literal (fraction / 100) +:+ int_literal (fraction / 10 mod 10) +:+ int_literal (fraction mod 10)).

(** [timeout.microseconds / 1000 if timeout else 0] *)
Definition timeout_literal (timeout : option Z) : string :=
  match timeout with
  | Some t => if bool_decide (t = 0)%Z then int_literal 0 else float_literal (microseconds t)
  | None => int_literal 0
  end.

Definition try_lock_text (lock_name : string) : string :=
  "SELECT pg_try_advisory_xact_lock(" +:+ int_literal (Sha256.get_digest lock_name) +:+ ")".

Definition try_wait_lock_text (lock_name : string) (timeout : option Z) : string :=
  "
                SET lock_timeout TO '" +:+ timeout_literal timeout +:+ "ms';
                SELECT pg_advisory_xact_lock(" +:+ int_literal (Sha256.get_digest lock_name) +:+ ");
                ".

(** [_try_lock] and [_try_wait_lock]: whether it is locked, or what they raise. *)
Definition try_outcome (r : res LockResult) : res bool :=
  match r with Ok (LockGiven locked) => Ok locked | Ok NothingRead => Ok false | Raise e => Raise e end.

Definition try_wait_outcome (r : res LockResult) : res bool :=
  match r with
  | Ok _ => Ok true
  | Raise e => if decide (e = LockNotAvailable) then Ok false else Raise e
  end.

Definition lock_text (mode : LockMode) (lock_name : string) : string :=
  match mode with
  | Try => try_lock_text lock_name
  | Wait timeout => try_wait_lock_text lock_name timeout
  end.
Definition lock_outcome (mode : LockMode) : res LockResult -> res bool :=
  match mode with Try => try_outcome | Wait _ => try_wait_outcome end.

(** The [Lock] that is yielded. *)
Definition lock_given (mode : LockMode) (lock_name : string) (locked : bool) : Lock :=
  mkLock lock_name locked (match mode with Try => false | Wait _ => negb locked end).

(** Where an [async with] stands: connected, and executing; in the body; left. *)
Inductive Task :=
  | Connected (mode : LockMode) (lock_name : string) (session : nat)
  | Inside (given : Lock) (session : nat)
  | Gone.

Section steps.
Context {D : Type} `{AdvisoryServer D}.

Record State := mkState { server : D; tasks : gmap nat Task }.

Definition set_task (id : nat) (task : Task) (d : D) (st : State) : State :=
  mkState d (<[id := task]> (tasks st)).

Inductive step : State -> State -> Prop :=
  | connects st id mode name session d :
      tasks st !! id = None -> av_connect (server st) = (session, d) ->
      step st (set_task id (Connected mode name session) d st)
  | executes st id mode name session expired r d :
      tasks st !! id = Some (Connected mode name session) ->
      av_execute session (lock_text mode name) expired (server st) = Some (r, d) ->
      step st (match lock_outcome mode r with
        | Ok locked => set_task id (Inside (lock_given mode name locked) session) d st
        | Raise _ => set_task id Gone (av_close session d) st
        end)
  | is_cancelled st id mode name session :
      tasks st !! id = Some (Connected mode name session) ->
      step st (set_task id Gone (av_close session (server st)) st)
  | leaves st id given session :
      tasks st !! id = Some (Inside given session) ->
      step st (set_task id Gone (av_close session (server st)) st).
End steps.
Arguments State : clear implicits.
End pg_locks.

(** ** The server *)

(** Advisory locks are exclusive. [pg_try_advisory_xact_lock] tells at once whether it gave
    the lock; [pg_advisory_xact_lock] waits while another session holds it, and is refused
    when a lock timeout of a millisecond or more is up; without one it waits. *)
Class AdvisoryServerLaws (D : Type) `{AdvisoryServer D} := {
  av_ok : D -> Prop;
  av_opened : D -> nat -> Prop;
  av_held : D -> nat -> Z -> Prop;
  av_exclusive : forall d i j key, av_ok d -> av_held d i key -> av_held d j key -> i = j;
  av_connect_law : forall d session d', av_ok d -> av_connect d = (session, d') ->
    av_ok d' /\ ~ av_opened d session /\
    (forall i, av_opened d' i <-> av_opened d i \/ i = session) /\
    forall i key, av_held d' i key <-> av_held d i key;
  av_held_opened : forall d i key, av_ok d -> av_held d i key -> av_opened d i;
  av_close_law : forall d session, av_ok d -> av_ok (av_close session d) /\
    (forall i, av_opened (av_close session d) i <-> av_opened d i) /\
    forall i key, av_held (av_close session d) i key <-> i <> session /\ av_held d i key;
  av_execute_law : forall d session text expired r d', av_ok d -> av_opened d session ->
    av_execute session text expired d = Some (r, d') ->
    av_ok d' /\ (forall i, av_opened d' i <-> av_opened d i) /\
    forall i key, i <> session -> av_held d' i key <-> av_held d i key;
  av_try_law : forall d session name expired, av_ok d -> av_opened d session ->
    exists locked d', av_execute session (pg_locks.try_lock_text name) expired d =
      Some (Ok (LockGiven locked), d') /\
      (locked = false <-> exists i, i <> session /\ av_held d i (Sha256.get_digest name)) /\
      forall key, av_held d' session key <->
        av_held d session key \/ locked = true /\ key = Sha256.get_digest name;
  av_wait_law : forall d session name timeout expired r d', av_ok d -> av_opened d session ->
    av_execute session (pg_locks.try_wait_lock_text name timeout) expired d = Some (Ok r, d') ->
    av_held d' session (Sha256.get_digest name);
  av_wait_free : forall d session name timeout expired, av_ok d -> av_opened d session ->
    (forall i, av_held d i (Sha256.get_digest name) -> i = session) ->
    exists r d', av_execute session (pg_locks.try_wait_lock_text name timeout) expired d =
      Some (Ok r, d');
  av_wait_timeout : forall d session name t i, av_ok d -> av_opened d session ->
    av_held d i (Sha256.get_digest name) -> i <> session -> (1000 <= microseconds t)%Z ->
    exists d', av_execute session (pg_locks.try_wait_lock_text name (Some t)) true d =
      Some (Raise LockNotAvailable, d');
  av_wait_forever : forall d session name timeout expired i, av_ok d -> av_opened d session ->
    av_held d i (Sha256.get_digest name) -> i <> session ->
    from_option microseconds 0%Z timeout = 0%Z ->
    av_execute session (pg_locks.try_wait_lock_text name timeout) expired d = None
}.

Section theory.
Context {D : Type} {Hserver : AdvisoryServer D} {Hlaws : AdvisoryServerLaws D}.
Import pg_locks.
Abbreviation State := (State D).

Definition task_session (task : Task) : option nat :=
  match task with Connected _ _ session | Inside _ session => Some session | Gone => None end.

Record locks_ok (st : State) : Prop := {
  lo_server : av_ok (server st);
  lo_opened : forall id task session, tasks st !! id = Some task ->
    task_session task = Some session -> av_opened (server st) session;
  lo_own : forall i j ti tj session, tasks st !! i = Some ti -> tasks st !! j = Some tj ->
    task_session ti = Some session -> task_session tj = Some session -> i = j;
  lo_held : forall id given session, tasks st !! id = Some (Inside given session) ->
    lk_locked given = true -> av_held (server st) session (Sha256.get_digest (lk_name given))
}.

(** What a statement does, by the mode. *)
Lemma execute_ok d session mode name expired r d' locked :
  av_ok d -> av_opened d session ->
  av_execute session (lock_text mode name) expired d = Some (r, d') ->
  lock_outcome mode r = Ok locked ->
  locked = true -> av_held d' session (Sha256.get_digest name).
Proof.
  intros Hd Hs E Hr ->. destruct mode as [|timeout]; cbn in *.
  - destruct (av_try_law d session name expired Hd Hs) as (locked & d1 & E1 & _ & Hheld).
    rewrite E in E1. injection E1 as -> ->. cbn in Hr. injection Hr as ->. apply Hheld. by right.
  - destruct r as [r|e]; [by eapply av_wait_law|]. cbn in Hr. by case_decide.
Qed.

Lemma end_session st id task session :
  locks_ok st -> tasks st !! id = Some task -> task_session task = Some session ->
  locks_ok (set_task id Gone (av_close session (server st)) st).
Proof.
  intros [Hd Hopen Hown Hheld] Hid Hs. destruct (av_close_law _ session Hd) as (Hd' & Hopen' & Hheld').
  split; cbn; [done|..].
  - intros i ti s [[_ <-]|[_ Hi]]%lookup_insert_Some; [done|]. rewrite Hopen'. by apply (Hopen i ti).
  - intros i j ti tj s [[_ <-]|[_ Hi]]%lookup_insert_Some [[_ <-]|[_ Hj]]%lookup_insert_Some; try done.
    by eapply Hown.
  - intros i given s [[_ [=]]|[Hne Hi]]%lookup_insert_Some Hlocked. apply Hheld'.
    split; [|by eapply Hheld]. intros ->. apply Hne. by eapply Hown.
Qed.

Lemma connects_ok st id mode name session d :
  locks_ok st -> tasks st !! id = None -> av_connect (server st) = (session, d) ->
  locks_ok (set_task id (Connected mode name session) d st).
Proof.
  intros Hst Hid E.
  destruct Hst as [Hd Hopen Hown Hheld].
  destruct (av_connect_law _ _ _ Hd E) as (Hd' & Hnew & Hopen' & Hheld').
  assert (forall i ti s, <[id := Connected mode name session]> (tasks st) !! i = Some ti ->
    task_session ti = Some s -> i = id /\ s = session \/
      tasks st !! i = Some ti /\ av_opened (server st) s /\ s <> session) as Hold.
  { intros i ti s [[<- <-]|[_ Hi]]%lookup_insert_Some Hs; [left; by injection Hs|right].
    pose proof (Hopen _ _ _ Hi Hs). split_and!; [done..|]. by intros ->. }
  split; cbn; [done|..].
  + intros i ti s Hi Hs. apply Hopen'. destruct (Hold i ti s Hi Hs) as [[_ ->]|(_ & ? & _)]; auto.
  + intros i j ti tj s Hi Hj Si Sj.
    destruct (Hold _ _ _ Hi Si) as [[-> ->]|(? & _ & ?)], (Hold _ _ _ Hj Sj) as [[-> ?]|(? & _ & ?)];
      try done. by eapply Hown.
  + intros i given s [[_ [=]]|[_ Hi]]%lookup_insert_Some Hl. apply Hheld'. by eapply Hheld.
Qed.

Lemma executes_ok st id mode name session expired r d :
  locks_ok st -> tasks st !! id = Some (Connected mode name session) ->
  av_execute session (lock_text mode name) expired (server st) = Some (r, d) ->
  locks_ok (match lock_outcome mode r with
    | Ok locked => set_task id (Inside (lock_given mode name locked) session) d st
    | Raise _ => set_task id Gone (av_close session d) st
    end).
Proof.
  intros Hst Hid E.
  pose proof (lo_opened _ Hst id _ session Hid eq_refl) as Hsession.
  destruct (av_execute_law _ _ _ _ _ _ (lo_server _ Hst) Hsession E) as (Hd' & Hopen' & Hheld').
  assert (locks_ok (mkState d (tasks st)) /\ forall locked, lock_outcome mode r = Ok locked ->
    locked = true -> av_held d session (Sha256.get_digest name)) as [Hst' Hlocked].
  { split; [|intros locked; by apply (execute_ok (server st)) with expired; [apply Hst|..]].
    destruct Hst as [Hd Hopen Hown Hheld]. split; cbn; [done| |done|].
    - intros i ti s Hi Hs. apply Hopen'. by eapply Hopen.
    - intros i given s Hi Hl. apply Hheld'; [|by eapply Hheld]. intros ->.
      assert (i = id) as -> by by eapply Hown. congruence. }
  destruct (lock_outcome mode r) as [locked|e];
    [|by apply (end_session (mkState d (tasks st)) id (Connected mode name session))].
  destruct Hst' as [_ Hopen Hown Hheld]. specialize (Hlocked locked eq_refl). split; cbn in *.
  + done.
  + intros i ti s [[<- <-]|[_ Hi]]%lookup_insert_Some Hs; [injection Hs as <-|]; by eapply Hopen.
  + intros i j ti tj s [[<- <-]|[_ Hi]]%lookup_insert_Some [[<- <-]|[_ Hj]]%lookup_insert_Some Si Sj;
      [done|eapply Hown; [exact Hid|exact Hj|exact Si|exact Sj]
      |eapply Hown; [exact Hi|exact Hid|exact Si|exact Sj]|by eapply Hown].
  + intros i given s [[<- [= <- <-]]|[_ Hi]]%lookup_insert_Some Hl; [by apply Hlocked|].
    by eapply Hheld.
Qed.

Lemma step_locks_ok st st' : locks_ok st -> step st st' -> locks_ok st'.
Proof.
  intros Hst Hstep. destruct Hstep;
    [by apply connects_ok|by eapply executes_ok|by eapply end_session..].
Qed.

Definition no_tasks (st : State) : Prop := av_ok (server st) /\ tasks st = ∅.

Lemma steps_locks_ok st st' : locks_ok st -> rtc step st st' -> locks_ok st'.
Proof. intros Hst Hsteps. induction Hsteps; [done|]. eauto using step_locks_ok. Qed.

Lemma locks_reachable_ok st0 st : no_tasks st0 -> rtc step st0 st -> locks_ok st.
Proof.
  intros [Hd Ht]. apply steps_locks_ok. split; [done|..]; rewrite Ht; intros *;
    by rewrite lookup_empty.
Qed.

Definition inside_with (st : State) (id : nat) (name : string) : Prop :=
  exists given session, tasks st !! id = Some (Inside given session) /\
    lk_locked given = true /\ lk_name given = name.

(** C33. Postgres locks exclude, whichever of [try_lock] and [wait_for_lock] the tasks use (in
    memory only [try_lock] does): at most one task is inside with the lock of a name, or of
    two names with the same digest; and a task that tries for a name is given it exactly
    when no other task's session holds that digest. *)
Theorem postgres_locks_exclude st0 st :
  no_tasks st0 -> rtc step st0 st ->
  (forall i j ni nj, inside_with st i ni -> inside_with st j nj ->
    Sha256.get_digest ni = Sha256.get_digest nj -> i = j) /\
  forall id name session expired, tasks st !! id = Some (Connected Try name session) ->
    exists locked d, av_execute session (try_lock_text name) expired (server st) =
        Some (Ok (LockGiven locked), d) /\
      (locked = false <->
        exists i, i <> session /\ av_held (server st) i (Sha256.get_digest name)).
Proof.
  intros Hst0 Hsteps. pose proof (locks_reachable_ok st0 st Hst0 Hsteps) as [Hd Hopen Hown Hheld].
  split.
  - intros i j ni nj (gi & si & Hi & Li & <-) (gj & sj & Hj & Lj & <-) Hdigest.
    pose proof (Hheld _ _ _ Hi Li) as H1. pose proof (Hheld _ _ _ Hj Lj) as H2.
    rewrite Hdigest in H1. pose proof (av_exclusive _ _ _ _ Hd H1 H2) as ->.
    by apply (Hown i j _ _ sj Hi Hj).
  - intros id name session expired Hid.
    destruct (av_try_law _ session name expired Hd) as (locked & d & E & Hlocked & _).
    { by apply (Hopen id _ session Hid). }
    by exists locked, d.
Qed.

(** C34. A timeout only counts by its part below a second. A task that waits for a lock that
    another is inside with gives up when the timeout is up if that part is a millisecond or
    more, and goes into its body without the lock; if it is zero, as it is for a timeout of
    whole seconds, the task waits as if it had given none: the server does not answer
    however long it has waited. *)
Theorem lock_timeouts st0 st i j name given session other timeout :
  no_tasks st0 -> rtc step st0 st ->
  tasks st !! i = Some (Connected (Wait (Some timeout)) name session) ->
  tasks st !! j = Some (Inside given other) -> lk_locked given = true -> lk_name given = name ->
  ((1000 <= microseconds timeout)%Z -> exists d,
    step st (set_task i (Inside (mkLock name false true) session) d st)) /\
  (microseconds timeout = 0%Z -> forall expired,
    av_execute session (lock_text (Wait (Some timeout)) name) expired (server st) = None).
Proof.
  intros Hst0 Hsteps Hi Hj Hlocked <-.
  pose proof (locks_reachable_ok st0 st Hst0 Hsteps) as [Hd Hopen Hown Hheld].
  pose proof (Hheld _ _ _ Hj Hlocked) as Hother. pose proof (Hopen _ _ session Hi eq_refl) as Hs.
  assert (other <> session) as Hne.
  { intros ->. assert (i = j) as -> by by eapply Hown. congruence. }
  split.
  - intros Ht. destruct (av_wait_timeout _ session _ _ other Hd Hs Hother Hne Ht) as [d E].
    exists d. exact (executes st i (Wait (Some timeout)) _ session true _ d Hi E).
  - intros Ht expired. by apply (av_wait_forever _ session _ (Some timeout) expired other Hd).
Qed.

(** *** As coordinators use it *)

(** A task of [try_lock], by its session. *)
#[export] Instance PostgresTryLocks : TryLocks D := {|
  tk_enter := fun name d =>
    let '(session, d1) := av_connect d in
    match av_execute session (try_lock_text name) false d1 with
    | Some (r, d2) => match try_outcome r with
        | Ok locked => (session, locked, d2)
        | Raise _ => (session, false, d2)
        end
    | None => (session, false, d1)
    end;
  tk_leave := av_close
|}.

#[export, refine] Instance PostgresTryLocks_laws : TryLocksLaws D := {|
  tk_holds := av_ok;
  tk_used := av_opened;
  tk_held := fun d session name => av_held d session (Sha256.get_digest name)
|}.
Proof.
  - intros d i j name. apply av_exclusive.
  - intros name d session locked d' Hd. cbn. destruct (av_connect d) as [s d1] eqn:Ec.
    destruct (av_connect_law _ _ _ Hd Ec) as (Hd1 & Hnew & Hopen1 & Hheld1).
    assert (av_opened d1 s) as Hs by by apply Hopen1; right.
    destruct (av_try_law d1 s name false Hd1 Hs) as (b & d2 & E & Hb & Hheld2).
    rewrite E. cbn. intros [= <- <- <-].
    destruct (av_execute_law _ _ _ _ _ _ Hd1 Hs E) as (Hd2 & Hopen2 & Hothers).
    split_and!; [done|done| | |].
    + intros j. by rewrite Hopen2, Hopen1.
    + intros j. rewrite <-Hheld1. destruct (decide (j = s)) as [->|Hj].
      * rewrite Hheld2. naive_solver.
      * rewrite (Hothers j) by done. naive_solver.
    + intros ->. destruct (proj1 Hb eq_refl) as (j & _ & Hj). exists j. by apply Hheld1.
  - intros session d Hd. destruct (av_close_law d session Hd) as (? & ? & Hheld).
    split_and!; [done..|]. intros j name. apply Hheld.
Defined.
End theory.

(** ** A server that keeps these laws *)
Module reference_locks.

Definition is_digit_free (c : ascii) : bool :=
  forallb (fun d => negb (Ascii.eqb d c))
    ["0"; "1"; "2"; "3"; "4"; "5"; "6"; "7"; "8"; "9"]%char.

Lemma digits_lack c d : is_digit_free c = true -> lacks c (NilEmpty.string_of_uint d) = true.
Proof.
  unfold is_digit_free. cbn [forallb]. rewrite !andb_true_iff. intros Hc.
  induction d; cbn [NilEmpty.string_of_uint lacks]; [done|..]; apply andb_true_iff; tauto.
Qed.

Inductive LockStatement :=
  | TryStatement (key : Z)
  | WaitStatement (timeout : string) (key : Z).

Definition read_key (digits : string) : option Z :=
  Z.of_N ∘ N.of_uint <$> NilEmpty.uint_of_string digits.

Definition try_prefix : string := "SELECT pg_try_advisory_xact_lock(".
Definition wait_prefix : string := "
                SET lock_timeout TO '".
Definition wait_middle : string := "s';
                SELECT pg_advisory_xact_lock(".

Definition parse (text : string) : option LockStatement :=
  match strip_prefix try_prefix text with
  | Some rest =>
      '(digits, _) ← cut ")" rest;
      TryStatement <$> read_key digits
  | None =>
      rest ← strip_prefix wait_prefix text;
      '(timeout, rest) ← cut "m" rest;
      rest ← strip_prefix wait_middle rest;
      '(digits, _) ← cut ")" rest;
      WaitStatement timeout <$> read_key digits
  end.

Lemma read_key_literal z : (0 <= z)%Z -> read_key (pg_locks.int_literal z) = Some z.
Proof.
  intros Hz. unfold read_key, pg_locks.int_literal. rewrite NilEmpty.usu. cbn.
  by rewrite DecimalN.Unsigned.of_to, Z2N.id.
Qed.

Lemma int_lacks c z : is_digit_free c = true -> lacks c (pg_locks.int_literal z) = true.
Proof. apply digits_lack. Qed.

Lemma timeout_lacks timeout : lacks "m" (pg_locks.timeout_literal timeout) = true.
Proof.
  unfold pg_locks.timeout_literal, pg_locks.float_literal.
  destruct timeout as [t|]; repeat case_bool_decide; rewrite ?lacks_app, ?int_lacks; done.
Qed.

Lemma digest_nonneg name : (0 <= Sha256.get_digest name)%Z.
Proof. apply Sha256.get_digest_range. Qed.

Lemma parse_try name :
  parse (pg_locks.try_lock_text name) = Some (TryStatement (Sha256.get_digest name)).
Proof.
  unfold parse. change (pg_locks.try_lock_text name) with (try_prefix +:+
    (pg_locks.int_literal (Sha256.get_digest name) +:+ String ")" EmptyString)).
  rewrite strip_prefix_app. rewrite cut_app by by apply int_lacks.
  cbn. by rewrite read_key_literal by apply digest_nonneg.
Qed.

Lemma wait_text_parts name timeout :
  pg_locks.try_wait_lock_text name timeout =
    wait_prefix +:+ (pg_locks.timeout_literal timeout +:+ String "m"
      (wait_middle +:+ (pg_locks.int_literal (Sha256.get_digest name) +:+ String ")" ";
                "))).
Proof. reflexivity. Qed.

Lemma parse_wait name timeout :
  parse (pg_locks.try_wait_lock_text name timeout) =
    Some (WaitStatement (pg_locks.timeout_literal timeout) (Sha256.get_digest name)).
Proof.
  unfold parse. rewrite wait_text_parts.
  destruct (strip_prefix try_prefix (wait_prefix +:+ _)) eqn:E; [done|]. clear E.
  rewrite strip_prefix_app. cbn [mbind option_bind].
  rewrite (cut_app "m" _ _ (timeout_lacks timeout)). cbn [mbind option_bind].
  rewrite strip_prefix_app. cbn [mbind option_bind]. rewrite cut_app by by apply int_lacks.
  cbn [mbind option_bind]. by rewrite read_key_literal by apply digest_nonneg.
Qed.

(** Sessions are numbered; each held key with the session that holds it. *)
Record Server := mkServer { rs_next : nat; rs_locks : gmap Z nat }.
Definition no_locks : Server := mkServer 0 ∅.

Definition held_by_other (session : nat) (key : Z) (d : Server) : bool :=
  match rs_locks d !! key with Some holder => bool_decide (holder <> session) | None => false end.

Definition acquire (session : nat) (key : Z) (d : Server) : Server :=
  mkServer (rs_next d) (<[key := session]> (rs_locks d)).

(** Timeouts below a millisecond do not count. *)
Definition no_timeout (timeout : string) : bool :=
  bool_decide (timeout = "0"%string) || match timeout with
  | String "0" (String "." _) => true
  | _ => false
  end.

Definition execute (session : nat) (text : string) (expired : bool) (d : Server) :
    option (res LockResult * Server) :=
  match parse text with
  | Some (TryStatement key) =>
      if held_by_other session key d then Some (Ok (LockGiven false), d)
      else Some (Ok (LockGiven true), acquire session key d)
  | Some (WaitStatement timeout key) =>
      if held_by_other session key d
      then if expired && negb (no_timeout timeout) then Some (Raise LockNotAvailable, d) else None
      else Some (Ok NothingRead, acquire session key d)
  | None => Some (Raise (UserError "SyntaxError"), d)
  end.

#[export] Instance server : AdvisoryServer Server := {|
  av_connect := fun d => (rs_next d, mkServer (S (rs_next d)) (rs_locks d));
  av_execute := execute;
  av_close := fun session d =>
    mkServer (rs_next d) (filter (fun entry => entry.2 <> session) (rs_locks d))
|}.

Definition server_ok (d : Server) : Prop :=
  forall key session, rs_locks d !! key = Some session -> (session < rs_next d)%nat.

Lemma held_by_other_spec session key d :
  held_by_other session key d = true <-> exists i, i <> session /\ rs_locks d !! key = Some i.
Proof.
  unfold held_by_other. destruct (rs_locks d !! key) as [i|]; [|naive_solver].
  rewrite bool_decide_eq_true. naive_solver.
Qed.

Lemma acquire_locks session key d i k :
  held_by_other session key d = false ->
  rs_locks (acquire session key d) !! k = Some i <->
    rs_locks d !! k = Some i \/ k = key /\ i = session.
Proof.
  intros Hfree. cbn. rewrite lookup_insert_Some. split; [naive_solver|].
  intros [Hk|[-> ->]]; [|by left]. destruct (decide (key = k)) as [->|Hne]; [|by right]. left.
  split; [done|]. unfold held_by_other in Hfree. rewrite Hk in Hfree.
  apply bool_decide_eq_false in Hfree. symmetry. by apply dec_stable.
Qed.

Lemma whole_seconds t : microseconds t = 0%Z -> no_timeout (pg_locks.timeout_literal (Some t)) = true.
Proof. intros Ht. unfold pg_locks.timeout_literal. case_bool_decide; [done|]. by rewrite Ht. Qed.

(** Literals of one to three digits do not begin with a zero. *)
Lemma leading_digit ms :
  (1 <= ms < 1000)%Z ->
  match pg_locks.int_literal ms with
  | String c _ => negb (Ascii.eqb c "0") | EmptyString => false
  end = true.
Proof.
  intros Hms. assert (forallb (fun ms => match pg_locks.int_literal ms with
    | String c _ => negb (Ascii.eqb c "0") | EmptyString => false end) (seqZ 1 999) = true) as Hall
    by (vm_compute; reflexivity).
  rewrite forallb_forall in Hall. apply Hall, list_elem_of_In, elem_of_seqZ. lia.
Qed.

Lemma milliseconds_counted t :
  (1000 <= microseconds t)%Z -> no_timeout (pg_locks.timeout_literal (Some t)) = false.
Proof.
  intros Ht. unfold pg_locks.timeout_literal.
  rewrite bool_decide_false by (intros ->; by vm_compute in Ht).
  assert (1 <= microseconds t / 1000 < 1000)%Z as Hms.
  { unfold microseconds in *. pose proof (Z.mod_pos_bound t 1000000).
    split; [apply Z.div_le_lower_bound; lia|apply Z.div_lt_upper_bound; lia]. }
  pose proof (leading_digit _ Hms) as Hlead. unfold pg_locks.float_literal.
  destruct (pg_locks.int_literal (microseconds t / 1000)) as [|c rest]; [done|].
  apply negb_true_iff, Ascii.eqb_neq in Hlead.
  change (String c rest +:+ ?s) with (String c (rest +:+ s)).
  unfold no_timeout. rewrite bool_decide_false by congruence.
  destruct c as [[] [] [] [] [] [] [] []]; done.
Qed.

Lemma execute_spec session text expired d r d' :
  execute session text expired d = Some (r, d') ->
  d' = d \/ exists key, held_by_other session key d = false /\ d' = acquire session key d.
Proof.
  unfold execute. destruct (parse text) as [[key|timeout key]|]; [..|intros [= _ <-]; by left];
    destruct (held_by_other session key d) eqn:E.
  - intros [= _ <-]. by left.
  - intros [= _ <-]. right. by exists key.
  - destruct (_ && _); [|done]. intros [= _ <-]. by left.
  - intros [= _ <-]. right. by exists key.
Qed.

#[export, refine] Instance server_laws : AdvisoryServerLaws Server := {|
  av_ok := server_ok;
  av_opened := fun d i => (i < rs_next d)%nat;
  av_held := fun d i key => rs_locks d !! key = Some i
|}.
Proof.
  - intros d i j key _ Hi Hj. congruence.
  - intros d session d' Hd [= <- <-]. cbn. split_and!; [|lia|lia|done].
    intros key i Hi. apply Hd in Hi. cbn. lia.
  - intros d i key Hd. apply Hd.
  - intros d session Hd. cbn. split_and!; [|done|].
    + intros key i [Hi _]%map_lookup_filter_Some. by eapply Hd.
    + intros i key. rewrite map_lookup_filter_Some. naive_solver.
  - intros d session text expired r d' Hd Hs E.
    apply execute_spec in E as [->|(key & Hfree & ->)]; [done|]. split_and!; [|done|].
    + intros k i. rewrite acquire_locks by done. intros [Hk|[_ ->]]; [by apply (Hd k)|done].
    + intros i k Hi. rewrite acquire_locks by done. naive_solver.
  - intros d session name expired Hd Hs. cbn. unfold execute. rewrite parse_try.
    pose proof (held_by_other_spec session (Sha256.get_digest name) d) as Hspec.
    destruct (held_by_other _ _ _) eqn:E; do 2 eexists; (split; [done|]); (split; [naive_solver|]).
    + naive_solver.
    + intros key. rewrite acquire_locks by done. naive_solver.
  - intros d session name timeout expired r d' Hd Hs. cbn. unfold execute. rewrite parse_wait.
    destruct (held_by_other _ _ _) eqn:E; [by destruct (_ && _)|]. intros [= _ <-].
    apply acquire_locks; [done|]. by right.
  - intros d session name timeout expired Hd Hs Hfree. cbn. unfold execute. rewrite parse_wait.
    destruct (held_by_other _ _ _) eqn:E; [|eauto].
    apply held_by_other_spec in E as (i & Hne & Hi). by destruct Hne; apply Hfree.
  - intros d session name t i Hd Hs Hi Hne Ht. cbn. unfold execute. rewrite parse_wait.
    rewrite (proj2 (held_by_other_spec _ _ _)), milliseconds_counted by eauto. by eexists.
  - intros d session name timeout expired i Hd Hs Hi Hne Ht. cbn. unfold execute.
    rewrite parse_wait, (proj2 (held_by_other_spec _ _ _)) by eauto.
    assert (no_timeout (pg_locks.timeout_literal timeout) = true) as ->.
    { destruct timeout as [t|]; [by apply whole_seconds|done]. }
    by rewrite andb_false_r.
Defined.
End reference_locks.

(** ** Witnesses *)
Module pg_locks_examples.
Import pg_locks reference_locks.

Definition idle : State Server := mkState no_locks ∅.

Lemma idle_no_tasks : no_tasks idle.
Proof. split; [|done]. intros key session. cbn. by rewrite lookup_empty. Qed.

(** Task 1 has the lock; task 2 waits for it, for five seconds or for a second and a half. *)
Definition connected : State Server :=
  set_task 1 (Connected Try "orders" 0) (mkServer 1 ∅) idle.
Definition inside : State Server :=
  set_task 1 (Inside (mkLock "orders" true false) 0)
    (acquire 0 (Sha256.get_digest "orders") (mkServer 1 ∅)) connected.
Definition waiting (timeout : Z) : State Server :=
  set_task 2 (Connected (Wait (Some timeout)) "orders" 1)
    (acquire 0 (Sha256.get_digest "orders") (mkServer 2 ∅)) inside.

Lemma waiting_reachable timeout : rtc step idle (waiting timeout).
Proof.
  eapply rtc_l; [by apply (connects idle 1 Try "orders" 0 (mkServer 1 ∅))|]. fold connected.
  eapply rtc_l.
  { apply (executes connected 1 Try "orders" 0 false (Ok (LockGiven true))
      (acquire 0 (Sha256.get_digest "orders") (mkServer 1 ∅))); [done|].
    cbn. unfold execute. by rewrite parse_try. }
  apply rtc_once. by apply (connects inside 2 (Wait (Some timeout)) "orders" 1).
Qed.

Lemma postgres_locks_exclude_witness :
  inside_with (waiting 5000000) 1 "orders" /\
  forall i n, inside_with (waiting 5000000) i n ->
    Sha256.get_digest n = Sha256.get_digest "orders" -> i = 1%nat.
Proof.
  assert (inside_with (waiting 5000000) 1 "orders") as H1.
  { exists (mkLock "orders" true false), 0%nat. by split. }
  split; [exact H1|]. intros i n Hi Hn.
  exact (proj1 (postgres_locks_exclude idle (waiting 5000000) idle_no_tasks
    (waiting_reachable 5000000)) i 1%nat n "orders"%string Hi H1 Hn).
Defined.

Lemma lock_timeouts_witness :
  (exists d, step (waiting 1500000) (set_task 2 (Inside (mkLock "orders" false true) 1) d
    (waiting 1500000))) /\
  forall expired, av_execute 1 (lock_text (Wait (Some 5000000%Z)) "orders") expired
    (pg_locks.server (waiting 5000000)) = None.
Proof.
  split.
  - apply (lock_timeouts idle (waiting 1500000) 2 1 "orders" (mkLock "orders" true false) 1 0
      1500000 idle_no_tasks (waiting_reachable 1500000)); try done.
  - apply (lock_timeouts idle (waiting 5000000) 2 1 "orders" (mkLock "orders" true false) 1 0
      5000000 idle_no_tasks (waiting_reachable 5000000)); done.
Defined.
End pg_locks_examples.
