(* ===== verification/PostgresProjections.v ===== *)
(** The storage adapter of projections in a Postgres table
    ([projection/store/adapters/postgres.py]), and that it is a storage adapter like the one in
    memory. *)
From S2P Require Import Prelude Values Conversion JsonEquivalence Events Query.
From S2P Require Import MemoryQuery Projections ProjectionStore.
From S2P Require Import PostgresQuery PostgresQueryTheory PostgresConverters PostgresServer.
From S2P Require Import PostgresTables.

(** A row of the table: the last three are [jsonb] columns. *)
Record ProjectionRow := mkProjectionRow {
  jr_id : string;
  jr_name : string;
  jr_source : Val;
  jr_state : Val;
  jr_metadata : Val
}.

Definition row_key (row : ProjectionRow) : ProjectionKey := (jr_name row, jr_id row).

Module pg_projections.
Section adapter.
Context `{Psycopg} `{UserCode} (table_name : string).

Definition insert_query (projection : Projection) : ParameterisedQuery :=
  ([SQL "
            INSERT INTO "; Identifier table_name; SQL " (id,
                             name,
                             source,
                             state,
                             metadata)
            VALUES (%s, %s, %s, %s, %s)
            ON CONFLICT (name, id)
                DO
            UPDATE
                SET (state, metadata) = (%s, %s);
            "],
   [PStr (pr_id projection); PStr (pr_name projection);
    PJsonb (serialise_identifier (pr_source projection));
    PJsonb (pr_state projection); PJsonb (pr_metadata projection);
    PJsonb (pr_state projection); PJsonb (pr_metadata projection)]).

Context {S : Type} `{TableServer S ProjectionRow}.

Definition upsert (projection : Projection) : ST S () :=
  _ ← table_execute (insert_query projection);
  mret ().

(** The converter it has when it is given none. *)
Definition query_converter : DelegatingQueryConverter :=
  with_default_converters table_name empty_converter.

Definition save (projection : Projection) : ST S () :=
  table_connection (
    serialised ← st_lift (serialise_projection projection raising_serialisation_fallback);
    upsert serialised).

Definition row_projection (row : ProjectionRow) : res Projection :=
  source ← event_sequence_identifier (jr_source row);
  Ok (mkProjection (jr_id row) (jr_name row) source (jr_state row) (jr_metadata row)).

Definition find_one (lookup : Query) (state_type metadata_type : Klass)
    : ST S (option Projection) :=
  query ← st_lift (convert_query query_converter lookup);
  table_connection (
    results ← table_execute query;
    st_lift (match results with
      | [] => Ok None
      | [projection_dict] =>
          projection ← row_projection projection_dict;
          Some <$> deserialise projection state_type metadata_type
      | _ => Raise (ValueError "Expected single projection for query.")
      end)).

Definition find_many (search : Query) (state_type metadata_type : Klass)
    : ST S (list Projection) :=
  query ← st_lift (convert_query query_converter search);
  table_connection (
    results ← table_execute query;
    st_lift (
      projections ← mapM row_projection results;
      mapM (fun projection => deserialise projection state_type metadata_type) projections)).
End adapter.
End pg_projections.

#[export] Instance PostgresProjectionStorageAdapter `{Psycopg} `{UserCode} (table_name : string)
    {S : Type} `{TableServer S ProjectionRow} : ProjectionStorageAdapter S := {|
  pa_save := pg_projections.save table_name;
  pa_find_one := pg_projections.find_one table_name;
  pa_find_many := pg_projections.find_many table_name
|}.

(** ** The statements of the table *)

Inductive ProjectionStatement :=
  (** The row, or its state and metadata if its key is there. *)
  | UpsertProjection (row : ProjectionRow)
  | SelectBySource (source : EventSourceIdentifier) (name : string)
  | SelectByKey (name id : string).

Section statements.
Context `{Psycopg} `{UserCode} (table_name : string).

Definition projection_text (statement : ProjectionStatement) : string :=
  match statement with
  | UpsertProjection _ => "
            INSERT INTO " +:+ quote_identifier table_name +:+ " (id,
                             name,
                             source,
                             state,
                             metadata)
            VALUES (%s, %s, %s, %s, %s)
            ON CONFLICT (name, id)
                DO
            UPDATE
                SET (state, metadata) = (%s, %s);
            "
  | SelectBySource _ _ => "SELECT * FROM " +:+ quote_identifier table_name +:+ " WHERE " +:+
      quote_identifier "source" +:+ " = %s AND " +:+ quote_identifier "name" +:+ " = %s"
  | SelectByKey _ _ => "SELECT * FROM " +:+ quote_identifier table_name +:+ " WHERE " +:+
      quote_identifier "name" +:+ " = %s AND " +:+ quote_identifier "id" +:+ " = %s"
  end%string.

Definition projection_params (statement : ProjectionStatement) : list Param :=
  match statement with
  | UpsertProjection row =>
      [PStr (jr_id row); PStr (jr_name row); PJsonb (jr_source row); PJsonb (jr_state row);
       PJsonb (jr_metadata row); PJsonb (jr_state row); PJsonb (jr_metadata row)]
  | SelectBySource source name => [PJsonb (serialise_identifier source); PStr name]
  | SelectByKey name id => [PStr name; PStr id]
  end.

Definition projection_storable (statement : ProjectionStatement) : Prop :=
  match statement with
  | UpsertProjection row =>
      text_storable (jr_id row) = true /\ text_storable (jr_name row) = true /\
      plain_json (jr_source row) /\ plain_json (jr_state row) /\ plain_json (jr_metadata row)
  | SelectBySource source name => identifier_storable source = true /\ text_storable name = true
  | SelectByKey name id => text_storable name = true /\ text_storable id = true
  end.

Definition with_state (state metadata : Val) (row : ProjectionRow) : ProjectionRow :=
  mkProjectionRow (jr_id row) (jr_name row) (jr_source row) state metadata.

(** The sources of rows are compared as [jsonb] values: for an object of strings, as Python
    compares what is read of them. *)
Definition projection_effect (jsonb : Val -> Val) (statement : ProjectionStatement)
    (rows : list ProjectionRow) : option (list ProjectionRow * list ProjectionRow) :=
  match statement with
  | UpsertProjection row =>
      let state := jsonb (jr_state row) in
      let metadata := jsonb (jr_metadata row) in
      Some ([], if row_of row_key rows (row_key row)
        then update_rows row_key (row_key row) (with_state state metadata) rows
        else rows ++
          [mkProjectionRow (jr_id row) (jr_name row) (jsonb (jr_source row)) state metadata])
  | SelectBySource source name =>
      Some (List.filter (fun row =>
        py_eqb (jr_source row) (jsonb (serialise_identifier source)) &&
        bool_decide (jr_name row = name)) rows, rows)
  | SelectByKey name id =>
      Some (List.filter (fun row =>
        bool_decide (jr_name row = name) && bool_decide (jr_id row = id)) rows, rows)
  end.

Definition projection_statements : TableStatements ProjectionRow :=
  mkStatements ProjectionStatement projection_text projection_params projection_storable
    projection_effect.
End statements.

Section texts.
Context `{Psycopg} `{UserCode} (table_name : string).

Lemma locate_projection_text source name :
  let statement := SelectBySource source name in
  exists query,
    convert_query (pg_projections.query_converter table_name) (locate_query source name) =
      Ok query /\
    as_string query.1 = projection_text table_name statement /\
    query.2 = projection_params statement.
Proof. cbv zeta. eexists; split; [reflexivity|]; split; reflexivity. Qed.

Lemma insert_projection_text p :
  let query := pg_projections.insert_query table_name p in
  let statement := UpsertProjection (mkProjectionRow (pr_id p) (pr_name p)
    (serialise_identifier (pr_source p)) (pr_state p) (pr_metadata p)) in
  as_string query.1 = projection_text table_name statement /\
  query.2 = projection_params statement.
Proof. done. Qed.

Lemma load_projection_text id name :
  let statement := SelectByKey name id in
  exists query,
    convert_query (pg_projections.query_converter table_name) (load_query id name) = Ok query /\
    as_string query.1 = projection_text table_name statement /\
    query.2 = projection_params statement.
Proof. cbv zeta. eexists; split; [reflexivity|]; split; reflexivity. Qed.
End texts.

(** ** The adapter keeps its promise *)
Section laws.
Context `{Psycopg} `{UserCode} (table_name : string).
Context {S : Type} `{Hserver : TableServer S ProjectionRow}.
Context {Hlaws : TableServerLaws (projection_statements table_name)}.
Abbreviation jsonb := (tb_jsonb (S := S) (Row := ProjectionRow)).
Implicit Types (s : S) (d : Stored) (p : Projection) (rows : list ProjectionRow).

(** What is read of the row is the projection, but for the order of the keys of objects. *)
Record row_holds p (row : ProjectionRow) : Prop := {
  rh_key : row_key row = projection_key p;
  rh_storable : identifier_storable (pr_source p) = true;
  rh_source : same_json (serialise_identifier (pr_source p)) (jr_source row);
  rh_state : same_json (pr_state p) (jr_state row);
  rh_metadata : same_json (pr_metadata p) (jr_metadata row);
  rh_json : json_projection p
}.

Record rows_hold rows d : Prop := {
  ro_keys : NoDup (row_key <$> rows);
  ro_rows : forall key, option_Forall2 row_holds (d key) (row_of row_key rows key)
}.

Definition table_holds s d : Prop := at_rest s (tb_rows s) /\ rows_hold (tb_rows s) d.

Lemma rows_hold_perm rows rows' d : rows ≡ₚ rows' -> rows_hold rows d -> rows_hold rows' d.
Proof.
  intros Hp [Hnd Hrows]. split; [by rewrite <-Hp|]. intros key.
  by rewrite <-(row_of_perm row_key rows rows').
Qed.

Lemma rest_table_holds s rows d : at_rest s rows -> rows_hold rows d -> table_holds s d.
Proof.
  intros [Hl Hr Hc] Hrows. split; [by split|]. by eapply rows_hold_perm.
Qed.

Lemma plain_json_json v : plain_json v -> Json v.
Proof.
  revert v. fix IH 2. intros v [| |z ?|s ?|l Hl|kvs Hnd Hl]; constructor.
  - induction Hl as [|w l Hw Hl IHl]; constructor; [by apply IH|done].
  - clear Hnd. induction Hl as [|[k w] l [_ Hw] Hl IHl]; constructor; [|done].
    split; [by exists k|by apply IH].
Qed.

Lemma read_row p row :
  row_holds p row -> exists q, pg_projections.row_projection row = Ok q /\
    deserialise q KJsonValueType KJsonValueType = Ok q /\ same_projection same_json p q.
Proof.
  intros [[= Hn Hi] Hst Hsrc Hs Hm [Hjs Hjm]].
  exists (mkProjection (jr_id row) (jr_name row) (pr_source p) (jr_state row) (jr_metadata row)).
  unfold pg_projections.row_projection. rewrite (read_identifier _ _ Hst Hsrc).
  split; [done|]. split; [|by split].
  apply deserialise_ok. split; cbn; [by rewrite <-Hs|by rewrite <-Hm].
Qed.

(** The row a projection is saved in. *)
Definition row_for p : ProjectionRow :=
  mkProjectionRow (pr_id p) (pr_name p) (serialise_identifier (pr_source p)) (pr_state p)
    (pr_metadata p).

Record table_accepts p : Prop := {
  ta_id : text_storable (pr_id p) = true;
  ta_name : text_storable (pr_name p) = true;
  ta_source : identifier_storable (pr_source p) = true;
  ta_state : plain_json (pr_state p);
  ta_metadata : plain_json (pr_metadata p)
}.

Lemma plain_identifier i : identifier_storable i = true -> plain_json (serialise_identifier i).
Proof.
  intros Hi. assert (plain_json (serialised_identifiers [i])) as Hp.
  { apply plain_identifiers. by constructor. }
  inversion Hp as [| | | |l Hl|]; subst. by apply Forall_cons in Hl as [? _].
Qed.

Lemma same_jsonb v : plain_json v -> same_json v (jsonb v).
Proof. apply (tl_jsonb (statements := projection_statements table_name)). Qed.

Lemma upsert_rows q rows d :
  rows_hold rows d -> table_accepts q ->
  exists rows', projection_effect jsonb (UpsertProjection (row_for q)) rows = Some ([], rows') /\
    rows_hold rows' (saved q d).
Proof.
  intros [Hnd Hrows] [Hid Hname Hsource Hs Hm]. eexists. split; [reflexivity|].
  change (row_key (row_for q)) with (projection_key q). specialize (Hrows (projection_key q)) as Hq.
  assert (json_projection q) as Hj by (split; by apply plain_json_json).
  destruct (row_of row_key rows (projection_key q)) as [row|] eqn:E.
  - split; [by rewrite update_rows_keys|]. intros key. rewrite row_of_update by done.
    unfold saved. case_decide; [subst key|apply Hrows]. rewrite E.
    apply row_of_Some in E as [_ Ek].
    inversion Hq as [p ? [Hk Hst Hsrc ? ? ?]|]; subst. constructor.
    split; try done; by apply same_jsonb.
  - split; [by apply app_keys_NoDup|]. intros key. rewrite row_of_app. unfold saved.
    destruct (decide (key = projection_key q)) as [->|Hne].
    + rewrite E, decide_True by done. inversion Hq. constructor.
      split; try done; apply same_jsonb; [by apply plain_identifier|done..].
    + specialize (Hrows key). destruct (row_of row_key rows key); [done|].
      rewrite decide_False; [done|]. intros Hk. by apply Hne.
Qed.

Lemma save_table p q s d :
  table_holds s d -> serialise_projection p raising_serialisation_fallback = Ok q ->
  table_accepts q ->
  exists s', pg_projections.save table_name p s = (Ok (), s') /\ table_holds s' (saved q d).
Proof.
  intros [Hs Hrows] Hq Hacc.
  destruct (upsert_rows q (tb_rows s) d Hrows Hacc) as (rows' & Heff & Hrows').
  destruct (insert_projection_text table_name q) as [Ht Hp].
  destruct (write_spec (projection_statements table_name) _ _ s (tb_rows s) [] rows' Ht Hp Hs) as
    (s' & E & Hrest); [|exact Heff|].
  - cbn. destruct Hacc. split_and!; [done..| | |done]; [by apply plain_identifier|done].
  - exists s'. split; [|by eapply rest_table_holds].
    rewrite <-E. unfold pg_projections.save, pg_projections.upsert, table_connection.
    unfold mbind at 1, ST_bind at 1, st_lift. by rewrite Hq.
Qed.

Lemma save_table_fails p e s d :
  table_holds s d -> serialise_projection p raising_serialisation_fallback = Raise e ->
  exists s', pg_projections.save table_name p s = (Raise e, s') /\ table_holds s' d.
Proof.
  intros [Hs Hrows] Hq. exists (tb_rollback s). split.
  - unfold pg_projections.save, table_connection, mbind, ST_bind, st_lift. by rewrite Hq.
  - destruct (tl_rollback (statements := projection_statements table_name) s) as (Hl & Hr & Hc).
    destruct Hs as [_ _ Hcom]. apply rest_table_holds with (tb_rows s); [|done].
    split; [done| |congruence]. by rewrite Hr, Hcom.
Qed.

(** What is read of the rows that a select returns. *)
Lemma read_wanted (wanted : Projection -> bool) (keep : ProjectionRow -> bool) rows d returned :
  rows_hold rows d -> returned ≡ₚ List.filter keep rows ->
  (forall p row, row_holds p row -> keep row = wanted p) ->
  exists l, Forall2 (fun row q => pg_projections.row_projection row = Ok q /\
      deserialise q KJsonValueType KJsonValueType = Ok q /\
      exists p, d (projection_key q) = Some p /\ wanted p = true /\ same_projection same_json p q)
    returned l /\
  projection_key <$> l = row_key <$> returned.
Proof.
  intros [Hnd Hrows] Hret Hkeep.
  assert (Forall (fun row => keep row = true /\ exists p, d (row_key row) = Some p /\
    row_holds p row) returned) as Hall.
  { rewrite Hret, Forall_forall. intros row [Hr Hk]%elem_filter. split; [done|].
    pose proof (row_of_elem row_key rows row Hnd Hr) as E.
    specialize (Hrows (row_key row)). rewrite E in Hrows. inversion Hrows as [p ? Hp Hd|]; subst.
    by exists p. }
  clear Hret. induction Hall as [|row returned (Hk & p & Hd & Hp) _ (l & Hl & Hkeys)];
    [by exists []|].
  destruct (read_row p row Hp) as (q & Eq & Edes & Hpq).
  assert (projection_key q = row_key row) as Hkey.
  { rewrite (rh_key _ _ Hp). destruct Hpq. unfold projection_key. congruence. }
  exists (q :: l). split; [|by rewrite !fmap_cons, Hkey, Hkeys].
  constructor; [|done]. split; [done|]. split; [done|]. exists p.
  by rewrite Hkey, <-(Hkeep p row Hp).
Qed.

Lemma found_rows (wanted : Projection -> bool) (keep : ProjectionRow -> bool) rows d returned :
  rows_hold rows d -> returned ≡ₚ List.filter keep rows ->
  (forall p row, row_holds p row -> keep row = wanted p) ->
  found same_json d wanted
    (match returned with
     | [] => Ok None
     | [projection_dict] =>
         projection ← pg_projections.row_projection projection_dict;
         Some <$> deserialise projection KJsonValueType KJsonValueType
     | _ => Raise (ValueError "Expected single projection for query.")
     end).
Proof.
  intros Hrows Hret Hkeep.
  destruct (read_wanted wanted keep rows d returned Hrows Hret Hkeep) as (l & Hl & Hkeys).
  assert (forall key p, d key = Some p -> projection_key p = key /\
    exists row, row_of row_key rows key = Some row /\ row_holds p row) as Hd.
  { intros key p Hp. destruct Hrows as [_ Hrows]. specialize (Hrows key). rewrite Hp in Hrows.
    destruct (row_of row_key rows key) as [row|] eqn:E; inversion Hrows as [? ? Hrow|]; subst.
    split; [|by exists row]. rewrite <-(rh_key _ _ Hrow). by apply row_of_Some in E as [_ E]. }
  apply (found_of_list _ _ _ l _ "Expected single projection for query.").
  - intros key p Hp. by apply Hd.
  - rewrite Hkeys, Hret. apply filter_keys_NoDup, Hrows.
  - intros key p Hp Hw. destruct (Hd key p Hp) as (Hk & row & Hr & Hrow).
    assert (row ∈ returned) as Hin.
    { rewrite Hret. apply elem_filter. apply row_of_Some in Hr as [Hr _]. split; [done|].
      by rewrite (Hkeep _ _ Hrow). }
    destruct (list_elem_of_lookup_1 _ _ Hin) as [i Hi].
    destruct (Forall2_lookup_l _ _ _ _ _ Hl Hi) as (q & Hq & _ & _ & p' & Hp' & _ & Hpq).
    exists q. split; [by eapply list_elem_of_lookup_2|].
    assert (projection_key q = key) as Hqk; [|rewrite Hqk in Hp'; by simplify_eq].
    assert ((projection_key <$> l) !! i = (row_key <$> returned) !! i) as E by by rewrite Hkeys.
    rewrite !list_lookup_fmap, Hq, Hi in E. cbn in E. rewrite (rh_key _ _ Hrow), Hk in E.
    congruence.
  - intros q Hq. destruct (list_elem_of_lookup_1 _ _ Hq) as [i Hi].
    by destruct (Forall2_lookup_r _ _ _ _ _ Hl Hi) as (row & _ & _ & _ & Hp).
  - inversion Hl as [|row q ? ? (Eq & Edes & _) [|]]; subst; [done| |done].
    rewrite Eq. cbn [mbind res_bind]. by rewrite Edes.
Qed.

Lemma find_table query statement wanted keep s d lookup :
  convert_query (pg_projections.query_converter table_name) lookup = Ok query ->
  as_string query.1 = projection_text table_name statement ->
  query.2 = projection_params statement ->
  table_holds s d -> projection_storable statement ->
  projection_effect jsonb statement (tb_rows s) =
    Some (List.filter keep (tb_rows s), tb_rows s) ->
  (forall p row, row_holds p row -> keep row = wanted p) ->
  exists r s', pg_projections.find_one table_name lookup KJsonValueType KJsonValueType s = (r, s') /\
    table_holds s' d /\ found same_json d wanted r.
Proof.
  intros Hquery Ht Hp [Hs Hrows] Hst Heff Hkeep. set (read := fun results : list ProjectionRow =>
    match results with
    | [] => Ok None
    | [projection_dict] =>
        projection ← pg_projections.row_projection projection_dict;
        Some <$> deserialise projection KJsonValueType KJsonValueType
    | _ => Raise (ValueError "Expected single projection for query.")
    end).
  destruct (read_outcome (projection_statements table_name) query statement s (tb_rows s) _ read
    Ht Hp Hs Hst Heff) as (returned & s' & E & Hret & Hrest).
  exists (read returned), s'. split; [|split].
  - unfold pg_projections.find_one. unfold mbind at 1, ST_bind at 1, st_lift at 1.
    rewrite Hquery. exact E.
  - by apply rest_table_holds with (tb_rows s).
  - by apply found_rows with keep (tb_rows s).
Qed.

#[export, refine] Instance PostgresProjectionStorageAdapter_laws :
  ProjectionAdapterLaws (H0 := PostgresProjectionStorageAdapter table_name) S := {|
  al_holds := table_holds;
  al_json := plain_json;
  al_key := fun key => text_storable key.1 = true /\ text_storable key.2 = true;
  al_source := fun i => identifier_storable i = true;
  al_same := same_json
|}.
Proof.
  - apply same_none.
  - apply plain_json_json.
  - intros s d key p [_ [_ Hrows]] Hp. specialize (Hrows key). rewrite Hp in Hrows.
    destruct (row_of row_key _ key) as [row|] eqn:E; inversion Hrows as [? ? Hrow|]; subst.
    rewrite <-(rh_key _ _ Hrow). by apply row_of_Some in E as [_ E].
  - intros p e s d. apply save_table_fails.
  - intros p q s d Hd Hq Hs Hm [Hn Hi] Hsrc. destruct (serialised_key _ _ _ Hq) as [[= En Ei] Es].
    apply save_table; [done..|]. split; rewrite ?Ei, ?En, ?Es; done.
  - intros source name s d Hd Hsrc [id [Hname _]].
    destruct (locate_projection_text table_name source name) as (query & Hq & Ht & Hp).
    eapply (find_table _ _ _ _ _ _ _ Hq Ht Hp Hd); [done|reflexivity|].
    intros p row Hrow. unfold by_source. cbn. pose proof (rh_key _ _ Hrow) as [= Hn _].
    rewrite Hn. f_equal. apply (identifiers_eqb (pr_source p) source); try apply Hrow; try done.
    by apply same_jsonb, plain_identifier.
  - intros id name s d Hd [Hname Hid].
    destruct (load_projection_text table_name id name) as (query & Hq & Ht & Hp).
    eapply (find_table _ _ _ _ _ _ _ Hq Ht Hp Hd); [done|reflexivity|].
    intros p row Hrow. unfold by_key. pose proof (rh_key _ _ Hrow) as [= Hn Hi].
    cbn. by rewrite Hn, Hi.
Defined.

(** C25. The adapter on Postgres and the one in memory agree on the projections that both can
    hold: those that, if they can be serialised, are of the log, a category or a stream, with states
    and metadata of null, booleans, integers of 64 bits, strings, arrays and objects with each key
    once, and without a zero character in any text. From stores that hold the same projections,
    saves of these go the same in both, exceptions included, and then the one loads and locates what
    the other does, by ids, names and sources like these (the order of the keys of objects aside),
    or both raise because a source has several projections of the name. *)
Theorem projection_stores_agree `{Regex} (m : Projections) s d projections :
  memory_holds m d -> table_holds s d ->
  Forall (storable_if_serialised (Hlaws := PostgresProjectionStorageAdapter_laws)) projections ->
  let memory := InMemoryProjectionStorageAdapter default_convert in
  let postgres := PostgresProjectionStorageAdapter table_name in
  exists outcomes m' s',
    @save_each _ _ memory projections m = (outcomes, m') /\
    @save_each _ _ postgres projections s = (outcomes, s') /\
    (forall id name, text_storable name = true -> text_storable id = true ->
      found_alike same_json (@load _ memory id name KJsonValueType KJsonValueType m').1
        (@load _ postgres id name KJsonValueType KJsonValueType s').1) /\
    forall source name, identifier_storable source = true -> text_storable name = true ->
      found_alike same_json (@locate _ memory source name KJsonValueType KJsonValueType m').1
        (@locate _ postgres source name KJsonValueType KJsonValueType s').1.
Proof.
  intros Hm Hs Hall memory postgres.
  destruct (save_each_holds (Hlaws := InMemoryProjectionStorageAdapter_laws) projections m d Hm)
    as (m' & Em & Hm').
  { eapply Forall_impl; [exact Hall|]. intros p Hp q Hq. destruct (Hp q Hq) as [_ _ Hst Hmd].
    split; [done..| |]; by apply plain_json_json. }
  destruct (save_each_holds (Hlaws := PostgresProjectionStorageAdapter_laws) projections s d Hs
    Hall) as (s' & Es & Hs').
  eexists _, m', s'. split_and!; [exact Em|exact Es| |].
  - intros id name Hname Hid.
    destruct (al_load_law (ProjectionAdapterLaws := InMemoryProjectionStorageAdapter_laws)
      id name m' _ Hm' I) as (r & m'' & E & _ & Hr).
    destruct (al_load_law (ProjectionAdapterLaws := PostgresProjectionStorageAdapter_laws)
      id name s' _ Hs' (conj Hname Hid)) as (r' & s'' & E' & _ & Hr').
    unfold memory, postgres, load, load_query. rewrite E, E'. by eapply (found_agree same_json).
  - intros source name Hsource Hname.
    destruct (al_locate_law (ProjectionAdapterLaws := InMemoryProjectionStorageAdapter_laws)
      source name m' _ Hm' I) as (r & m'' & E & _ & Hr); [by exists EmptyString|].
    destruct (al_locate_law (ProjectionAdapterLaws := PostgresProjectionStorageAdapter_laws)
      source name s' _ Hs' Hsource) as (r' & s'' & E' & _ & Hr'); [by exists EmptyString|].
    unfold memory, postgres, locate, locate_query. rewrite E, E'. by eapply (found_agree same_json).
Qed.
End laws.

(** ** Witnesses *)
Module pg_projections_examples.
#[local] Existing Instance double_quotes.
#[local] Existing Instance no_user_code.
#[local] Existing Instance projection_examples.identity_case.
#[local] Existing Instance projection_examples.projection_regex.
Import reference_table projection_examples.

Definition statements : TableStatements ProjectionRow := projection_statements "projections".

Definition candidates (params : list Param) : list (Statements statements) :=
  match params with
  | [PValue (VStr id); PValue (VStr name); PJsonb source; PJsonb state; PJsonb metadata; _; _] =>
      [UpsertProjection (mkProjectionRow id name source state metadata)]
  | [PJsonb source; PValue (VStr name)] =>
      match event_sequence_identifier source with
      | Ok i => [SelectBySource i name]
      | Raise _ => []
      end
  | [PValue (VStr name); PValue (VStr id)] => [SelectByKey name id]
  | _ => []
  end.

#[local] Instance server : TableServer (Table (Row := ProjectionRow)) ProjectionRow :=
  table statements candidates.

Lemma candidates_parse statement :
  ts_storable statements statement ->
  parse statements candidates (ts_text statements statement) (ts_params statements statement) =
  Some statement.
Proof.
  intros Hst. destruct statement as [[]|source name|name id]; [done| |done]. unfold parse.
  cbn [ts_params statements projection_statements projection_params candidates PStr].
  rewrite (read_identifier source (serialise_identifier source)); [|apply Hst|apply same_value].
  cbn [List.find]. by rewrite String.eqb_refl.
Qed.

#[local] Instance server_laws : TableServerLaws statements.
Proof. apply table_laws, candidates_parse. Qed.

(** An order saved twice, once as another projection of the same stream and name, and once with
    a state that is not JSON. *)
Definition projections : list Projection :=
  [order_projection 1; order_projection 2;
   mkProjection "2" "Order" (StreamIdentifier "orders" "1") (VInt 5) VNone;
   mkProjection "3" "Order" (StreamIdentifier "orders" "3") (VObj (mkObj "Order" 3)) VNone].

Lemma plain_empty : plain_json (mk_obj []).
Proof. apply plain_object; constructor. Qed.

Lemma projection_stores_agree_witness :
  let memory := InMemoryProjectionStorageAdapter default_convert in
  let postgres := PostgresProjectionStorageAdapter (S := Table (Row := ProjectionRow)) "projections" in
  exists outcomes m s,
    @save_each _ _ memory projections [] = (outcomes, m) /\
    @save_each _ _ postgres projections new_table = (outcomes, s) /\
    found_alike same_json (@load _ memory "1" "Order" KJsonValueType KJsonValueType m).1
      (@load _ postgres "1" "Order" KJsonValueType KJsonValueType s).1 /\
    found_alike same_json
      (@locate _ memory (StreamIdentifier "orders" "1") "Order" KJsonValueType KJsonValueType m).1
      (@locate _ postgres (StreamIdentifier "orders" "1") "Order" KJsonValueType KJsonValueType s).1.
Proof.
  intros memory postgres.
  destruct (projection_stores_agree "projections" [] (new_table : Table (Row := ProjectionRow))
    (fun _ => None) projections) as (outcomes & m & s & Em & Es & Hload & Hlocate).
  - split; [split; [constructor|done]|done].
  - split; [done|]. split; [constructor|]. constructor.
  - assert (forall p q, serialise_projection p raising_serialisation_fallback = Ok q ->
      p = q -> text_storable (pr_id p) = true -> text_storable (pr_name p) = true ->
      identifier_storable (pr_source p) = true -> plain_json (pr_state p) ->
      plain_json (pr_metadata p) ->
      storable (Hlaws := PostgresProjectionStorageAdapter_laws "projections") q) as Hst.
    { intros p q _ <- Hi Hn Hs Hst Hm. by split. }
    repeat (apply Forall_cons; split); [..|done]; intros q Hq; try discriminate Hq;
      (apply (Hst _ _ Hq); [by injection Hq|done..| |]);
      first [apply plain_empty|by constructor].
  - exists outcomes, m, s. split; [exact Em|]. split; [exact Es|].
    split; [by apply Hload|by apply Hlocate].
Defined.

(** Two events handled with the projection on Postgres. *)
Example postgres_projects :
  let postgres := PostgresProjectionStorageAdapter (S := Table (Row := ProjectionRow)) "projections" in
  (@process_events _ _ _ postgres order_projector false [placed 0; placed 1] new_table).2 =
  mkTable [mkProjectionRow "1" "Order" (serialise_identifier (StreamIdentifier "orders" "1"))
             (VInt 2) (mk_obj [])]
          [mkProjectionRow "1" "Order" (serialise_identifier (StreamIdentifier "orders" "1"))
             (VInt 2) (mk_obj [])] true.
Proof. vm_compute. reflexivity. Qed.
End pg_projections_examples.
