(* ===== verification/PostgresReadModel.v ===== *)
(** Consumers and projections with everything on Postgres: the adapter of events stores the
    states of consumers ([processing/consumers/state/base.py] over
    [store/adapters/postgres/adapter.py]), so that [ConsumerTheory] and [ReadModel] hold there,
    and a run of the whole chain on reference servers. *)
From S2P Require Import Prelude Values Conversion Events Conditions EventsDB MemoryAdapter.
From S2P Require Import Sources Store Projections ProjectionStore ConsumerState SourceConsumer.
From S2P Require Import ConsumerTheory ReadModel PostgresQuery PostgresQueryTheory.
From S2P Require Import PostgresConditions PostgresServer PostgresAdapter PostgresAdapterTheory.
From S2P Require Import PostgresInsert PostgresSaving PostgresScan PostgresStore.
From S2P Require Import PostgresReference PostgresTables PostgresProjections.

Section consumers.
Context `{Psycopg} `{UserCode} `{SetOrder} {S : Type} `{EventsServer S} (uuid4 : nat -> string).
Context (settings : AdapterSettings S) (Hlaws : EventsServerLaws (as_table_name settings)).
Context (constraint_registry : gmap string (QueryConstraint -> res pg.QueryApplier)).
Context (condition_registry : gmap string (pg.ConditionConverter S)).
Context (Hconstraints : as_constraint_converter settings =
  pg.with_default_constraint_converters constraint_registry).
Context (Hconditions : as_condition_converter settings =
  pg.with_default_condition_converters condition_registry).
Context (Hquiet : quiet_registry condition_registry).
Context (Hsize : (1 <= as_scan_query_page_size settings)%Z).
Context (uuid4_inj : Inj (=) (=) uuid4) (uuid4_text : forall n, text_storable (uuid4 n) = true).

Abbreviation contract := (PostgresEventStorageAdapter_contract uuid4 settings Hlaws
  constraint_registry condition_registry Hconstraints Hconditions Hquiet Hsize uuid4_inj
  uuid4_text).
Abbreviation converter := StoredEventEventConsumerStateConverter.

(** The states of a consumer of up to 2^31 events can be stored and read back, when [jsonb]
    gives them back as they are. *)
Lemma postgres_keeps_state category now events :
  text_storable (category_name category) = true -> category_name category <> EmptyString ->
  (Z.of_nat (length events) <= 2 ^ 31)%Z ->
  (forall e, e ∈ events -> let state := serialise_consumer_state (event_to_state converter e) in
    sv_jsonb state = Some state) ->
  keeps_state (EventStorageAdapter0 := PostgresEventStorageAdapter uuid4 settings)
    (AdapterContract0 := contract)
    category now events.
Proof.
  intros Htext Hname Hcount Hjsonb. split.
  - change (addresses (StreamIdentifier (category_name category) default_partition) = true).
    unfold addresses, named, storable_target. by rewrite Htext, bool_decide_eq_false_2.
  - intros log e He Hlen. split; [done|done| |].
    + unfold stream_length.
      change (length (log_of (StreamIdentifier (category_name category) default_partition) log) <
        length events) in Hlen. cbn [length]. lia.
    + constructor; [|constructor]. set (state := event_to_state converter e).
      assert (Json (mk_obj state)) as Hj by (apply mk_obj_json; by repeat constructor).
      assert (serialise_to_json_value (serialise_consumer_state state)
        raising_serialisation_fallback = Ok (serialise_consumer_state state)) as Hser.
      { apply serialise_json_id, mk_obj_json. constructor; [exact Hj|constructor]. }
      pose proof (state_changed_storable now state Hj) as Hst.
      split; [by inversion Hst|by intros ? [= <-]|].
      intros payload. cbn [ne_payload state_changed new_event]. rewrite Hser.
      intros [= <-]. by apply Hjsonb.
Qed.
End consumers.

(** ** A run on reference servers *)
Module postgres_read_model.
Import reference_server examples reference_table.
#[local] Existing Instance no_user_code.
#[local] Existing Instance insertion_order.
#[local] Existing Instance projection_examples.identity_case.
#[local] Existing Instance projection_examples.projection_regex.
#[local] Existing Instance pg_projections_examples.server.
#[local] Instance orders_events : EventStorageAdapter (PostgresState Server) :=
  PostgresEventStorageAdapter ids settings.
Abbreviation ProjectionTable := (Table (Row := ProjectionRow)).
#[local] Instance orders_projections : ProjectionStorageAdapter ProjectionTable :=
  PostgresProjectionStorageAdapter "projections".
Import read_model_examples.

Abbreviation PostgresModel := (Model (A := PostgresState Server) (P := ProjectionTable)).

Definition pg_start : PostgresModel := (new_table, (new_state, new_state_store)).

Definition pg_place (stream : string) (m : PostgresModel) : PostgresModel :=
  let '(ps, (adapter, states)) := m in
  (ps, ((publish false (mkStream "orders" stream) [read_model_examples.order_placed] NoCondition
           adapter).2, states)).
Definition pg_turn (m : PostgresModel) : PostgresModel :=
  (consume orders_projector false "orders" (mkCategory "state") None 0 true m).2.
Definition pg_replaced (m : PostgresModel) : PostgresModel :=
  let '(ps, (adapter, states)) := m in (ps, (adapter, new_state_store)).

(** Orders placed, consumed, and placed again after the consumer was replaced. *)
Definition pg_followed : PostgresModel :=
  pg_turn (pg_place "1" (pg_replaced (pg_turn (pg_place "2" (pg_place "1" pg_start))))).

Example postgres_followed :
  pr_state <$> match (locate (StreamIdentifier "orders" "1") "Order" KJsonValueType KJsonValueType
    pg_followed.1).1 with Ok o => o | Raise _ => None end = Some (VInt 2).
Proof. vm_compute. reflexivity. Qed.
End postgres_read_model.
